(* ===== verification/_CoqProject ===== *)
-Q . S2P
Prelude.v
MvccKey.v
OrderedMap.v
Skiplist.v
Versions.v
Memtable.v
RecordFmt.v
Bloom.v
Wal.v
SSTable.v
SSTIter.v
DbDisk.v
Merge.v
Db.v
Layers.v
Compaction.v
DbReplay.v
DbStore.v
DbScan.v
DbScanSpec.v
DbSnapshot.v
KV.v
DbMap.v
Repl.v
RaftLog.v
RaftConfig.v
RaftLogFile.v
RaftNode.v
RaftRun.v
RaftVote.v
RaftElection.v
RaftCommit.v
RaftFollower.v
RaftApply.v
RaftRepair.v
RaftMatching.v
RaftFrame.v
RaftHistory.v
RaftSafety.v
RaftInstall.v
RaftInstallSpec.v
RaftInstallNode.v
RaftInstallRuns.v
Lincheck.v
LincheckList.v
LincheckSearch.v
LincheckCheck.v
RaftClient.v
Transport.v
RaftSystem.v
RaftHandle.v
RaftLocks.v
