(* ===== verification/Prelude.v ===== *)
(** * littledb: verification library

    littledb is a key/value store in Go: an LSM storage engine with multi-version
    concurrency control (internal/mvcckey, skiplist, memtable, record, bloom,
    wal, sstable, db), with a shell (internal/repl), replicated by Raft
    (internal/cluster) and tested by a linearizability checker
    (internal/lincheck).  A client's transaction commits
    against the store or, in a group, is turned into a log entry by the leader
    ([PrepareCommit]), replicated, and applied to every node's store
    ([ApplyEntry]).  The store keeps its versions in a write-ahead log and a
    memtable, writes full memtables as SSTables and merges those in the
    background.  This library translates those parts into executable definitions
    and proves what makes them correct.

    ** How the code is modelled

    - A byte slice is a list of [byte], a 64-bit integer is a [Z] whose
      wrap-around is written out ([u64], [i64], [u32] below), a Go map is a [gmap].
    - A method that takes its object's mutex is one function on the state: the
      locking makes it atomic.  Code that releases the lock half way
      ([tryCompactOnce], the proposals and membership changes of a node) is one
      function per critical section, so other steps can come between
      ([handleTimeoutNow] is one function, and in the runs of a group also a lost
      message with a campaign later).  The locks
      themselves, and what waits for what, are modelled in RaftLocks.v.
    - A fallible function returns [outcome] (a value, an error or a panic); where
      only a panic can happen, [option].  The Raft node runs in the monad [M] of
      RaftNode.v: the node's state, the outcomes of the disk operations to come,
      the messages and signals sent.
    - System calls of the storage engine succeed; what is modelled of failures
      there is crashes (what is synced survives, RecordFmt.v and Wal.v tell what
      happens to the rest) and failing flushes and compactions.  The disk
      operations of the Raft node, the ones that install a snapshot included,
      fail where its list of faults says so, and leave what a crash in them
      leaves.
    - Loops without a structural measure have fuel; the fuel is computed from the
      state and each theorem shows that the loop really ends, so it is enough:
      the number of nodes for the skiplist's walks, the file's length plus one for
      the scans of a log (each record takes at least one byte), the number of
      records plus one for the merge, the number of tables plus one for the
      compaction loop, the distance to the base for the search of a configuration
      entry, the backlog plus one for the apply loop, the entries of the merge
      iterator plus one for a step of a scan, 2^n (n + 1) for the linearizability
      search over n operations.  Walking a scan, and so capturing a snapshot,
      takes any fuel above the number of keys; reopening a store under a node is
      tried five times, as in the code.

    ** Files

    Storage engine:
    - Prelude.v: bytes, machine integers, comparisons, lists, [outcome], the hint
      databases and tactics.
    - MvccKey.v (mvcckey.go): the encoding of versioned keys and its order.
    - OrderedMap.v, Skiplist.v (skiplist.go): the interface the memtable needs, as
      a class, and its implementation, a store of nodes with levels.
    - Versions.v: the specification all of the engine is proved against, a finite
      map from key and timestamp to an operation, and what a read at a timestamp
      sees of it.
    - Memtable.v (memtable.go, scan.go): the write buffer, over the class.
    - RecordFmt.v (record.go), Wal.v (wal.go): the record format with its
      checksum, the log with its recovery.
    - Bloom.v (bloom.go), SSTable.v (sstable.go), SSTIter.v (iterator.go): tables.
    - DbDisk.v, Db.v (db.go, txn.go): the side files and the store's operations;
      Layers.v: the stack of memtables and tables as one version map; DbReplay.v:
      recovery from the log; DbStore.v: the store against its specification.
    - Merge.v, Compaction.v (compaction.go): the merge heap, the garbage
      collection and the compaction loop.
    - DbScan.v (scan.go): cursors, the merge iterator, scans; DbScanSpec.v: what a
      scan yields.  DbSnapshot.v (snapshot.go): stores built from snapshots.
    - KV.v: the interface of a key-value store ([Store] of repl.go) and what it
      promises, as classes; DbMap.v: the engine as an instance that keeps the
      promise, and keeps it through crashes; Repl.v (repl.go): the shell over the interface.

    Replication:
    - RaftLog.v (raftlog.go), RaftConfig.v (config.go, raftstate.go),
      RaftLogFile.v (raftlogfile.go): the log in memory and on disk,
      configurations, term and vote.
    - RaftNode.v (cluster.go, election.go, replication.go, the messages of
      transport.go): every handler of a node.  RaftRun.v: how to reason about
      its monad.
    - RaftVote.v, RaftElection.v: the election as an abstract step relation and
      the nodes' simulation by it.
    - RaftCommit.v: the leader's side; RaftFollower.v: the follower's side;
      RaftApply.v: applying, compacting, restarting.  RaftRepair.v: a leader and
      a follower exchanging requests and replies until their logs agree, or not.
    - RaftMatching.v, RaftFrame.v, RaftHistory.v, RaftSafety.v: the whole group
      over its runs: the logs of its nodes; what each handler leaves alone; the
      history of leaders, acknowledgements and votes with leader completeness;
      the nodes' simulation of it and state machine safety.
    - RaftInstall.v (install.go): the transfer of a snapshot, over the node of
      RaftNode.v, the store of Db.v and the files of both.  RaftInstallSpec.v:
      what is on disk at every moment of an install and what a restart makes of
      it; RaftInstallNode.v: the handlers; RaftInstallRuns.v: installs that go
      wrong.
    - RaftClient.v (cluster.go: commit, readBarrier, proposeAndAwait and what
      calls them): a client's call in its critical sections, next to a running
      group.
    - Transport.v (transport.go): the transport as a class with laws, and the
      channel transport.  RaftSystem.v (run, the replicators): the goroutines of
      the nodes with their channels over any transport, refining the group that
      RaftMatching.v and RaftSafety.v reason about.
    - RaftHandle.v ([Cluster]): construction, routing with retries, waiting,
      closing, adding servers.
    - RaftLocks.v: the four locks of a node and the order its functions take them
      in.

    Linearizability checker:
    - Lincheck.v (linearize.go, lincheck.go): the event list as nodes edited in
      place, the search with its cache, the partition by key.  LincheckList.v,
      LincheckSearch.v, LincheckCheck.v: the list operations, the search, and the
      whole check against what linearizable means.

    ** What is proved

    - Representation: the skiplist is a sorted map ([skiplist_refines_map]), the
      memtable a version map ([memtable_refines_versions]), a table's bytes the
      list of versions written ([sstable_roundtrip]), the two Raft logs the full
      list of entries ([raftlog_refines_full_log], [raftlogfile_durable]); keys,
      records and configurations round trip, corrupted records are noticed.
    - The store, as long as its keys keep to the rule given under Bounds: a read
      gives the newest visible version of the union of the
      layers ([db_get_as_of]); a commit is first-committer-wins snapshot
      isolation ([db_commit]); a replicated entry is applied exactly once
      ([db_apply_prepared]); flush, compaction and reopening change no read
      ([db_flush], [compaction_gc], [compaction_terminates], [db_reopen]); after
      a crash the log gives back what was synced ([wal_durability],
      [wal_recovery]) and replay exactly the committed transactions
      ([recovery_committed]).  A scan yields the keys of its range that a read
      finds, in order if no key is a prefix of another, whatever happens after its
      capture ([scan_correct],
      [scan_now_agrees]); a snapshot moves a store ([snapshot_transfer]).  To its
      user the store is a finite map, through crashes of the process too
      ([db_is_a_map]); so it is through the shell ([shell_is_map]), whose commands
      mean what was typed ([typed_is_stored]).
    - Raft: one leader per term in every run of a group of fixed membership over a
      network that repeats no message ([election_safety]), votes on disk before they are given
      ([grant_is_durable]); as long as disks work and nothing is compacted, logs
      that agree up to any entry of the same term ([log_matching]); if replicators
      take no late reply for that of their round, and stores recover nothing that
      was not applied, nodes that never differ on what is committed and leaders
      that have it all ([state_machine_safety]); the leader commits what a majority holds
      ([commit_rule]), a follower merges what the leader sends
      ([follower_append]), membership changes one server at a time
      ([membership_change]); committed entries are applied once and in order
      ([apply_committed]); compaction and restarts, disk failures included, keep
      the log and the configuration ([compaction_keeps_log],
      [restart_recovers]); a follower that is only behind is caught up
      ([lagging_follower_repaired]).
    - Clients of a group, in the same runs: a read that cleared its barrier is behind
      everything that was committed before it ([linearizable_read]) and a write that
      was confirmed stays ([write_durable]), both as long as the entry the call
      waited for is the one that was applied; the code does not look, and
      [overwritten_entry_returns_nil] shows what comes of it.  A routed write
      proposes one entry at most, also if an attempt never returns
      ([put_proposes_once]); a new cluster is in the
      initial state the other theorems start from ([new_cluster]) and its nodes
      stay where their ids say ([added_ids_dense]).
    - The goroutines over a transport do nothing the group of the theorems above
      does not ([system_refines]); the channel transport is bounded, keeps the
      order and loses nothing ([channel_fifo]); all functions of a node but
      [storePut] and [storeDelete] take its locks in an order that excludes
      deadlocks ([node_functions_finish], [storePut_deadlocks]).
    - Snapshots of the node: what the follower does with one on every branch
      ([install_snapshot]), that no failure or crash on the way loses or invents
      state ([install_crash_atomic]), and that the leader's snapshot gives the
      follower the leader's state ([snapshot_catches_up]).
    - The checker says yes exactly to linearizable histories, of one register
      ([linearizableRegister_correct]) and of the store ([check_correct]).
    - Behaviour that is not what the code means to do is stated as theorems too:
      each with a concrete run.  Among them: prefix keys
      sort the wrong way round and hide versions from the conflict check,
      a failed compaction deletes a live table, a torn commit makes the store
      unreadable, a late acknowledgement commits an entry, a group of one never
      elects a leader again, a follower whose log has diverged makes the leader
      panic or retry for ever, a snapshot without keys forgets the timestamps, an
      install whose marker stays is repeated over what was acknowledged since, a
      commit whose entry was overwritten is confirmed, a new leader loses an
      update, two late replies stop a node, two calls to add the same server add
      two, a put and an install wait for each other.

    ** Bounds

    The encoding orders keys by their bytes with the complement of the timestamp
    behind, which is the order of keys and timestamps only if keys are text (no
    0xFF byte) or no prefixes of one another, and timestamps are below 2^56: reads,
    scans, commits, compactions and snapshots are stated for such keys
    ([findable], [readable], [rangeable], [keys_ok]); a commit's check needs text
    keys and that no stored key extends the one written, a compaction that no key
    is empty.  What the code does outside these conditions is wrong in places, and
    stated with the memtable's and the compaction's theorems.

    Theorems about Raft logs assume fewer than [maxPersisted] entries (the
    allocation limit of [entriesAfter]) and files under 2^63 bytes; theorems
    about the store assume timestamps below 2^64 - 1 and counts below 2^63, the
    sizes a slice can have.  Terms stay below 2^64 - 1.  The store is a map within
    2^55 bytes of writes and 10^6 operations and crashes (table names have six
    digits), for text keys none of which extends another.

    ** Not modelled

    - Time: timers, deadlines and timeouts may fire at any moment; the environment
      chooses which goroutine moves.  The apply loop, timers and client calls are
      steps of RaftSystem.v without channels of their own.
    - The printing and drawing of histories (FormatWitness and viz.go of
      lincheck) is text for a reader; its layout is floating-point arithmetic and
      its text a style sheet.  Of main.go only flags, signals and exit codes are
      left, of the shell the text of the store's errors and failures to write.
    - The floating-point sizing of bloom filters: its rounding is an argument,
      constrained by what the code relies on.  The heap, sorting, CRC and FNV of
      the standard library are modelled by their documented behaviour. *)

From Stdlib Require Import ZArith Lia.
From Stdlib Require Import Strings.Byte.
From stdpp Require Import base list gmap sorting.

#[local] Open Scope Z_scope.
#[local] Unset Printing Records.

(** ** Bytes and byte strings *)

(** A Go [byte] is Rocq's 256-constructor [byte], a Go [[]byte] whose nil-ness
    does not matter is a [list byte]. *)
Abbreviation bytes := (list byte).

Definition b2z (b : byte) : Z := Z.of_N (Byte.to_N b).

Definition z2b (z : Z) : byte :=
  match Byte.of_N (Z.to_N (z mod 256)) with
  | Some b => b
  | None => x00
  end.

(** Go's [len], as an integer. *)
Definition len {A} (l : list A) : Z := Z.of_nat (length l).

(** Go's slice expression [l[lo:hi]] for in-range bounds. *)
Definition slice {A} (lo hi : Z) (l : list A) : list A :=
  take (Z.to_nat (hi - lo)) (drop (Z.to_nat lo) l).

(** ** Machine integers *)

Definition u8 (z : Z) : Z := z mod 2 ^ 8.
Definition u32 (z : Z) : Z := z mod 2 ^ 32.
Definition u64 (z : Z) : Z := z mod 2 ^ 64.

(** Conversion to [int64]: two's complement. *)
Definition i64 (z : Z) : Z := (z + 2 ^ 63) mod 2 ^ 64 - 2 ^ 63.

(** Go's [^x] on [uint64]. *)
Definition not64 (z : Z) : Z := Z.lxor (u64 z) (2 ^ 64 - 1).

Definition is_u64 (z : Z) : Prop := 0 <= z < 2 ^ 64.
Definition max_u64 : Z := 2 ^ 64 - 1.

(** ** encoding/binary *)

Fixpoint le_bytes (n : nat) (z : Z) : bytes :=
  match n with
  | O => []
  | S n' => z2b z :: le_bytes n' (z / 256)
  end.

Fixpoint le_val (l : bytes) : Z :=
  match l with
  | [] => 0
  | b :: l' => b2z b + 256 * le_val l'
  end.

Fixpoint be_bytes (n : nat) (z : Z) : bytes :=
  match n with
  | O => []
  | S n' => z2b (z / 256 ^ Z.of_nat n') :: be_bytes n' z
  end.

Fixpoint be_val (l : bytes) : Z :=
  match l with
  | [] => 0
  | b :: l' => b2z b * 256 ^ len l' + be_val l'
  end.

(** ** bytes.Compare *)

Fixpoint bcompare (a b : bytes) : comparison :=
  match a, b with
  | [], [] => Eq
  | [], _ :: _ => Lt
  | _ :: _, [] => Gt
  | x :: a', y :: b' =>
      match Z.compare (b2z x) (b2z y) with
      | Eq => bcompare a' b'
      | c => c
      end
  end.

Definition blt (a b : bytes) : Prop := bcompare a b = Lt.
Definition ble (a b : bytes) : Prop := bcompare a b <> Gt.

Declare Scope bytes_scope.
Infix "<b" := blt (at level 70) : bytes_scope.
Infix "<=b" := ble (at level 70) : bytes_scope.
#[local] Open Scope bytes_scope.

#[export] Instance byte_eq_decision : EqDecision byte := Byte.byte_eq_dec.

#[export] Program Instance byte_countable : Countable byte :=
  inj_countable' (A := N) Byte.to_N
    (fun n => match Byte.of_N n with Some b => b | None => x00 end) _.
Next Obligation. intros b; cbn. by rewrite Byte.of_to_N. Qed.

#[export] Instance blt_decision a b : Decision (a <b b).
Proof. unfold blt. apply comparison_eq_dec. Defined.

#[export] Instance ble_decision a b : Decision (a <=b b).
Proof. unfold ble. apply not_dec. apply comparison_eq_dec. Defined.

(** ** Results of fallible Go calls *)

(** [Ok] and [Err] are the two ways a call returns; [Panic] is a run-time
    panic (index out of range, nil dereference, explicit [panic]). *)
Inductive outcome (E A : Type) : Type :=
| Ok (a : A)
| Err (e : E)
| Panic.
Arguments Ok {E A} a.
Arguments Err {E A} e.
Arguments Panic {E A}.

#[export] Instance outcome_ret E : MRet (outcome E) := fun _ a => Ok a.
#[export] Instance outcome_bind E : MBind (outcome E) := fun _ _ f c =>
  match c with Ok a => f a | Err e => Err e | Panic => Panic end.

(** A computation whose only failure is a panic. *)
Definition of_opt {E A} (o : option A) : outcome E A :=
  match o with Some a => Ok a | None => Panic end.

(** Results of closed computations, without normalising them. *)
Definition is_ok {E A} (o : outcome E A) : bool := match o with Ok _ => true | _ => false end.
Definition get_ok {E A} (d : A) (o : outcome E A) : A := match o with Ok a => a | _ => d end.

Lemma is_ok_get {E A} (d : A) (o : outcome E A) : is_ok o = true -> o = Ok (get_ok d o).
Proof. by destruct o. Qed.

Lemma is_Some_default {A} (d : A) (o : option A) : bool_decide (is_Some o) = true -> o = Some (default d o).
Proof. intros H. apply bool_decide_eq_true in H as [a ->]. done. Qed.

(** ** Files: os.File on a byte list *)

(** Write at a position, zero-filling a gap. *)
Definition pwrite (file : bytes) (at_ : Z) (data : bytes) : bytes :=
  take (Z.to_nat at_) (file ++ replicate (Z.to_nat (at_ - len file)) x00)
  ++ data ++ drop (Z.to_nat (at_ + len data)) file.

(** [ReadAt] of [n] bytes; a short read is an error. *)
Definition pread (file : bytes) (off n : Z) : option bytes :=
  if decide (0 <= off /\ off + n <= len file) then Some (slice off (off + n) file) else None.

(** ** Lemmas: bytes and machine integers *)

Lemma b2z_bound b : 0 <= b2z b < 256.
Proof. unfold b2z. pose proof (Byte.to_N_bounded b). lia. Qed.

Lemma z2b_b2z b : z2b (b2z b) = b.
Proof.
  unfold z2b. rewrite Z.mod_small by apply b2z_bound.
  unfold b2z. by rewrite N2Z.id, Byte.of_to_N.
Qed.

Lemma b2z_z2b z : b2z (z2b z) = z mod 256.
Proof.
  unfold z2b. pose proof (Z.mod_pos_bound z 256 ltac:(lia)).
  destruct (Byte.of_N _) as [b|] eqn:E.
  - apply Byte.to_of_N in E. unfold b2z. rewrite E. lia.
  - apply Byte.of_N_None_iff in E. lia.
Qed.

Lemma b2z_inj a b : b2z a = b2z b -> a = b.
Proof. intros H. by rewrite <- (z2b_b2z a), <- (z2b_b2z b), H. Qed.

Lemma z2b_mod z : z2b (z mod 256) = z2b z.
Proof. apply b2z_inj. rewrite !b2z_z2b. apply Z.mod_mod. lia. Qed.

Lemma len_nonneg {A} (l : list A) : 0 <= len l.
Proof. unfold len. lia. Qed.

Lemma len_nil {A} : len (@nil A) = 0.
Proof. done. Qed.

Lemma len_cons {A} (x : A) l : len (x :: l) = 1 + len l.
Proof. unfold len. cbn [length]. lia. Qed.

Lemma len_app {A} (l k : list A) : len (l ++ k) = len l + len k.
Proof. unfold len. rewrite length_app. lia. Qed.

Lemma len_eq_0 {A} (l : list A) : len l = 0 <-> l = [].
Proof. unfold len. destruct l; cbn [length]; split; (lia || done). Qed.

Lemma not64_spec z : is_u64 z -> not64 z = max_u64 - z.
Proof.
  intros Hz. unfold not64, u64, max_u64. rewrite Z.mod_small by exact Hz.
  change (2 ^ 64 - 1) with (Z.ones 64).
  assert (Z.log2 z < 64) as Hl.
  { destruct (decide (z = 0)) as [->|]; [done|].
    apply Z.log2_lt_pow2; unfold is_u64 in Hz; lia. }
  rewrite <- Z.ldiff_ones_l_low by (unfold is_u64 in Hz; lia).
  symmetry. apply Z.sub_nocarry_ldiff.
  apply Z.ldiff_ones_r_low; unfold is_u64 in Hz; lia.
Qed.

Lemma not64_u64 z : is_u64 z -> is_u64 (not64 z).
Proof. intros Hz. rewrite not64_spec by done. unfold is_u64, max_u64 in *. lia. Qed.

Lemma not64_involutive z : is_u64 z -> not64 (not64 z) = z.
Proof.
  intros Hz. rewrite (not64_spec (not64 z)) by by apply not64_u64.
  rewrite not64_spec by done. lia.
Qed.

Lemma u64_small z : is_u64 z -> u64 z = z.
Proof. intros Hz. unfold u64. by apply Z.mod_small. Qed.

Lemma is_u64_u64 z : is_u64 (u64 z).
Proof. unfold is_u64, u64. apply Z.mod_pos_bound. lia. Qed.

Lemma i64_small z : - 2 ^ 63 <= z < 2 ^ 63 -> i64 z = z.
Proof. intros Hz. unfold i64. rewrite Z.mod_small; lia. Qed.

Lemma i64_add_l a b : i64 (i64 a + b) = i64 (a + b).
Proof.
  unfold i64. f_equal.
  replace ((a + 2 ^ 63) mod 2 ^ 64 - 2 ^ 63 + b + 2 ^ 63)
    with ((a + 2 ^ 63) mod 2 ^ 64 + b) by lia.
  rewrite Z.add_mod_idemp_l by lia. f_equal. lia.
Qed.

Lemma i64_sub_l a b : i64 (i64 a - b) = i64 (a - b).
Proof. rewrite <- !Z.add_opp_r. apply i64_add_l. Qed.

Lemma i64_u64 z : - 2 ^ 63 <= z < 2 ^ 63 -> i64 (u64 z) = z.
Proof.
  intros Hz. unfold i64, u64. rewrite Z.add_mod_idemp_l by lia.
  rewrite Z.mod_small; lia.
Qed.

Lemma testbit_above n c i : 0 <= c < 2 ^ n -> n <= i -> Z.testbit c i = false.
Proof.
  intros Hc Hi. destruct (decide (c = 0)) as [->|]; [apply Z.bits_0|].
  apply Z.bits_above_log2; [lia|]. assert (Z.log2 c < n) by (apply Z.log2_lt_pow2; lia). lia.
Qed.

Lemma lxor_range n a b : 0 <= a < 2 ^ n -> 0 <= b < 2 ^ n -> 0 <= Z.lxor a b < 2 ^ n.
Proof.
  intros Ha Hb. assert (0 <= n) by (destruct (Z.le_gt_cases 0 n); [done|];
    rewrite Z.pow_neg_r in Ha by done; lia).
  assert (0 <= Z.lxor a b) as Hx by (apply Z.lxor_nonneg; lia). split; [done|].
  destruct (decide (Z.lxor a b = 0)) as [->|]; [lia|]. apply Z.log2_lt_pow2; [lia|].
  pose proof (Z.log2_lxor a b ltac:(lia) ltac:(lia)) as Hl.
  assert (n = 0 \/ (Z.log2 a < n /\ Z.log2 b < n)) as [->|[? ?]]; [|replace a with 0 in * by lia;
    replace b with 0 in * by lia; done|lia].
  destruct (decide (n = 0)); [by left|right].
  split.
  - destruct (decide (a = 0)) as [->|]; [cbn; lia|]. apply Z.log2_lt_pow2; lia.
  - destruct (decide (b = 0)) as [->|]; [cbn; lia|]. apply Z.log2_lt_pow2; lia.
Qed.

Lemma Nat_iter_ind {A} n (f : A -> A) (P : A -> Prop) x :
  P x -> (forall y, P y -> P (f y)) -> P (Nat.iter n f x).
Proof. intros H0 HS. induction n; cbn; auto. Qed.

Lemma pow256_pos n : 0 < 256 ^ Z.of_nat n.
Proof. apply Z.pow_pos_nonneg; lia. Qed.

Lemma pow256_S n : 256 ^ Z.of_nat (S n) = 256 * 256 ^ Z.of_nat n.
Proof. rewrite Nat2Z.inj_succ, Z.pow_succ_r by lia. done. Qed.

(** ** Lemmas: little and big endian *)

Lemma length_le_bytes n z : length (le_bytes n z) = n.
Proof. revert z. induction n; intros z; cbn [le_bytes length]; auto. Qed.

Lemma length_be_bytes n z : length (be_bytes n z) = n.
Proof. induction n; cbn [be_bytes length]; auto. Qed.

Lemma len_le_bytes n z : len (le_bytes n z) = Z.of_nat n.
Proof. unfold len. by rewrite length_le_bytes. Qed.

Lemma len_be_bytes n z : len (be_bytes n z) = Z.of_nat n.
Proof. unfold len. by rewrite length_be_bytes. Qed.

Lemma le_val_le_bytes n z : le_val (le_bytes n z) = z mod 256 ^ Z.of_nat n.
Proof.
  revert z. induction n as [|n IH]; intros z; cbn [le_bytes le_val].
  - by rewrite Z.mod_1_r.
  - rewrite IH, b2z_z2b, pow256_S.
    rewrite (Z.rem_mul_r z 256) by (pose proof (pow256_pos n); lia). lia.
Qed.

Lemma le_val_bound l : 0 <= le_val l < 256 ^ len l.
Proof.
  induction l as [|b l IH]; [done|]. cbn [le_val]. rewrite len_cons.
  rewrite Z.pow_add_r by (pose proof (len_nonneg l); lia).
  pose proof (b2z_bound b). lia.
Qed.

Lemma le_bytes_le_val l : le_bytes (length l) (le_val l) = l.
Proof.
  induction l as [|b l IH]; [done|]. cbn [length le_bytes le_val].
  pose proof (b2z_bound b).
  rewrite (Z.mul_comm 256), Z.div_add, (Z.div_small (b2z b)) by lia.
  rewrite Z.add_0_l, IH. f_equal. apply b2z_inj. rewrite b2z_z2b.
  rewrite Z.mod_add, Z.mod_small by lia. done.
Qed.

Lemma be_bytes_mod n z : be_bytes n (z mod 256 ^ Z.of_nat n) = be_bytes n z.
Proof.
  enough (forall m, (n <= m)%nat -> be_bytes n (z mod 256 ^ Z.of_nat m) = be_bytes n z) as H
    by by apply H.
  induction n as [|n IH]; intros m Hm; [done|]. cbn [be_bytes].
  rewrite IH by lia. f_equal.
  pose proof (pow256_pos n) as Hn. pose proof (pow256_pos (m - n)) as Hmn.
  replace (256 ^ Z.of_nat m) with (256 ^ Z.of_nat n * 256 ^ Z.of_nat (m - n))
    by (rewrite <- Z.pow_add_r by lia; f_equal; lia).
  rewrite Z.rem_mul_r by lia.
  rewrite Z.add_comm, (Z.mul_comm (256 ^ Z.of_nat n)), Z.div_add_l by lia.
  rewrite Z.div_small with (a := z mod _) by (apply Z.mod_pos_bound; lia).
  rewrite Z.add_0_r. apply b2z_inj. rewrite !b2z_z2b.
  replace (m - n)%nat with (S (m - n - 1)) by lia. rewrite pow256_S.
  pose proof (pow256_pos (m - n - 1)).
  rewrite Z.rem_mul_r by lia.
  rewrite (Z.mul_comm 256), Z.mod_add by lia. apply Z.mod_mod. lia.
Qed.

Lemma be_val_bound l : 0 <= be_val l < 256 ^ len l.
Proof.
  induction l as [|b l IH]; [done|]. cbn [be_val]. rewrite len_cons.
  rewrite Z.pow_add_r by (pose proof (len_nonneg l); lia).
  pose proof (b2z_bound b). nia.
Qed.

Lemma be_val_be_bytes n z : be_val (be_bytes n z) = z mod 256 ^ Z.of_nat n.
Proof.
  induction n as [|n IH]; cbn [be_bytes be_val].
  - by rewrite Z.mod_1_r.
  - rewrite IH, b2z_z2b, len_be_bytes, pow256_S.
    rewrite (Z.mul_comm 256), Z.rem_mul_r by (pose proof (pow256_pos n); lia). lia.
Qed.

Lemma be_bytes_be_val l : be_bytes (length l) (be_val l) = l.
Proof.
  induction l as [|b l IH]; [done|]. cbn [length be_bytes be_val].
  pose proof (be_val_bound l) as Hl. pose proof (b2z_bound b).
  fold (len l). f_equal.
  - rewrite Z.div_add_l, Z.div_small, Z.add_0_r by lia. apply z2b_b2z.
  - rewrite <- (be_bytes_mod (length l)). fold (len l).
    rewrite Z.add_comm, Z.mod_add by lia. by rewrite Z.mod_small.
Qed.

(** ** Lemmas: the order of bytes.Compare *)

Lemma bcompare_refl a : bcompare a a = Eq.
Proof. induction a as [|x a IH]; [done|]. cbn. by rewrite Z.compare_refl. Qed.

Lemma bcompare_eq a b : bcompare a b = Eq <-> a = b.
Proof.
  split; [|intros ->; apply bcompare_refl].
  revert b. induction a as [|x a IH]; intros [|y b]; cbn; try done.
  destruct (Z.compare_spec (b2z x) (b2z y)) as [Hxy| |]; try done.
  apply b2z_inj in Hxy as ->. intros H. f_equal. auto.
Qed.

Lemma bcompare_antisym a b : bcompare b a = CompOpp (bcompare a b).
Proof.
  revert b. induction a as [|x a IH]; intros [|y b]; cbn; try done.
  rewrite (Z.compare_antisym (b2z x) (b2z y)).
  destruct (b2z x ?= b2z y); cbn; auto.
Qed.

Lemma bcompare_gt a b : bcompare a b = Gt <-> b <b a.
Proof. unfold blt. rewrite (bcompare_antisym a b). destruct (bcompare a b); done. Qed.

Lemma blt_irrefl a : ~ a <b a.
Proof. unfold blt. by rewrite bcompare_refl. Qed.

Lemma blt_trans a b c : a <b b -> b <b c -> a <b c.
Proof.
  unfold blt. revert b c. induction a as [|x a IH]; intros [|y b] [|z c]; cbn; try done.
  destruct (Z.compare_spec (b2z x) (b2z y)) as [Hxy|Hxy|]; try done;
  destruct (Z.compare_spec (b2z y) (b2z z)) as [Hyz|Hyz|]; try done; intros H1 H2;
  destruct (Z.compare_spec (b2z x) (b2z z)); try lia; eauto.
Qed.

#[export] Instance blt_strict : StrictOrder blt.
Proof. split; [intros a; apply blt_irrefl|intros a b c; apply blt_trans]. Qed.

Lemma ble_lt_eq a b : a <=b b <-> a <b b \/ a = b.
Proof.
  unfold ble, blt. rewrite <- bcompare_eq. destruct (bcompare a b); intuition done.
Qed.

Lemma not_blt a b : ~ a <b b <-> b <=b a.
Proof. unfold ble, blt. rewrite (bcompare_antisym a b). destruct (bcompare a b); cbn; intuition done. Qed.

Lemma not_ble a b : ~ a <=b b <-> b <b a.
Proof. unfold ble, blt. rewrite (bcompare_antisym a b). destruct (bcompare a b); cbn; intuition done. Qed.

Lemma blt_ble a b : a <b b -> a <=b b.
Proof. rewrite ble_lt_eq. auto. Qed.

Lemma ble_refl a : a <=b a.
Proof. rewrite ble_lt_eq. auto. Qed.

Lemma blt_ble_trans a b c : a <b b -> b <=b c -> a <b c.
Proof. rewrite ble_lt_eq. intros ? [?| <-]; [by etrans|done]. Qed.

Lemma ble_blt_trans a b c : a <=b b -> b <b c -> a <b c.
Proof. rewrite ble_lt_eq. intros [?| ->] ?; [by etrans|done]. Qed.

Lemma ble_trans a b c : a <=b b -> b <=b c -> a <=b c.
Proof. rewrite !ble_lt_eq. intros [?| ->] [?| <-]; auto. left. by etrans. Qed.

Lemma ble_antisym a b : a <=b b -> b <=b a -> a = b.
Proof.
  rewrite !ble_lt_eq. intros [?| ->] [?| ?]; auto.
  exfalso. eapply blt_irrefl. by etrans.
Qed.

Lemma blt_trichotomy a b : {a <b b} + {a = b} + {b <b a}.
Proof.
  destruct (bcompare a b) eqn:E.
  - left. right. by apply bcompare_eq.
  - left. left. done.
  - right. by apply bcompare_gt.
Qed.

Lemma bcompare_app_l p a b : bcompare (p ++ a) (p ++ b) = bcompare a b.
Proof. induction p as [|x p IH]; [done|]. cbn. by rewrite Z.compare_refl. Qed.

Lemma blt_app_l p a b : p ++ a <b p ++ b <-> a <b b.
Proof. unfold blt. by rewrite bcompare_app_l. Qed.

Lemma ble_app_l p a b : p ++ a <=b p ++ b <-> a <=b b.
Proof. unfold ble. by rewrite bcompare_app_l. Qed.

(** Everything between two strings that start with [p] starts with [p]. *)
Lemma ble_between_prefix p a b x :
  p ++ a <=b x -> x <=b p ++ b -> exists c, x = p ++ c.
Proof.
  unfold ble. revert x. induction p as [|y p IH]; intros x; [by exists x|].
  destruct x as [|z x]; cbn; [done|].
  rewrite (Z.compare_antisym (b2z y) (b2z z)).
  destruct (Z.compare_spec (b2z y) (b2z z)) as [Hyz| |]; cbn; try done.
  apply b2z_inj in Hyz as ->. intros H1 H2. destruct (IH x H1 H2) as [c ->]. by exists c.
Qed.

(** Fixed-width big endian preserves the numeric order. *)
Lemma bcompare_be_bytes n x y :
  bcompare (be_bytes n x) (be_bytes n y)
  = Z.compare (x mod 256 ^ Z.of_nat n) (y mod 256 ^ Z.of_nat n).
Proof.
  rewrite <- !be_val_be_bytes.
  assert (length (be_bytes n x) = length (be_bytes n y)) as Hl by by rewrite !length_be_bytes.
  revert Hl. generalize (be_bytes n x) as a, (be_bytes n y) as b. clear n x y.
  induction a as [|x a IH]; intros [|y b]; cbn [length]; try done.
  intros Hl. injection Hl as Hl. cbn [bcompare be_val].
  assert (len a = len b) as Hll by (unfold len; lia). rewrite Hll.
  pose proof (be_val_bound a) as Ha. rewrite Hll in Ha. pose proof (be_val_bound b).
  destruct (Z.compare_spec (b2z x) (b2z y)) as [->|Hxy|Hxy].
  - rewrite IH by done. symmetry. rewrite !(Z.add_comm (_ * _)).
    rewrite !(Z.add_comm _ (_ * _)). apply Z.add_compare_mono_l.
  - symmetry. apply Z.compare_lt_iff. nia.
  - symmetry. apply Z.compare_gt_iff. nia.
Qed.

(** ** Lemmas: slices *)

Lemma slice_all {A} (l : list A) : slice 0 (len l) l = l.
Proof. unfold slice, len. rewrite drop_0. apply take_ge. lia. Qed.

Lemma slice_app_r {A} (l k : list A) lo hi :
  len l <= lo -> slice lo hi (l ++ k) = slice (lo - len l) (hi - len l) k.
Proof.
  intros H. unfold slice. unfold len in *.
  rewrite drop_app_ge by lia. f_equal; [lia|f_equal; lia].
Qed.

Lemma slice_app_l {A} (l k : list A) lo hi :
  0 <= lo -> lo <= hi -> hi <= len l -> slice lo hi (l ++ k) = slice lo hi l.
Proof.
  intros ???. unfold slice. unfold len in *.
  rewrite drop_app_le by lia. rewrite take_app_le; [done|].
  rewrite length_drop. lia.
Qed.

Lemma slice_0_app {A} (l k : list A) hi :
  hi = len l -> slice 0 hi (l ++ k) = l.
Proof. intros ->. rewrite slice_app_l, slice_all; [done|lia|apply len_nonneg|lia]. Qed.

Lemma slice_mid {A} (a b c : list A) lo hi :
  lo = len a -> hi = len a + len b -> slice lo hi (a ++ b ++ c) = b.
Proof.
  intros -> ->. rewrite slice_app_r by lia. rewrite Z.sub_diag.
  apply slice_0_app. lia.
Qed.

Lemma len_slice {A} (l : list A) lo hi :
  0 <= lo -> lo <= hi -> hi <= len l -> len (slice lo hi l) = hi - lo.
Proof.
  intros ???. unfold len, slice in *. rewrite length_take, length_drop. lia.
Qed.

Lemma slice_split {A} (l : list A) lo mid hi :
  0 <= lo -> lo <= mid -> mid <= hi -> slice lo hi l = slice lo mid l ++ slice mid hi l.
Proof.
  intros ???. unfold slice.
  replace (Z.to_nat (hi - lo)) with (Z.to_nat (mid - lo) + Z.to_nat (hi - mid))%nat by lia.
  rewrite <- take_take_drop. rewrite drop_drop. do 3 f_equal. lia.
Qed.

Lemma slice_drop {A} (l : list A) n : 0 <= n -> l = slice 0 n l ++ drop (Z.to_nat n) l.
Proof. intros H. unfold slice. rewrite Z.sub_0_r, drop_0. by rewrite take_drop. Qed.

Lemma take_len_app {A} (l k : list A) n : n = len l -> take (Z.to_nat n) (l ++ k) = l.
Proof. intros ->. unfold len. rewrite Nat2Z.id. apply take_app_length. Qed.

Lemma drop_len_app {A} (l k : list A) n : n = len l -> drop (Z.to_nat n) (l ++ k) = k.
Proof. intros ->. unfold len. rewrite Nat2Z.id. apply drop_app_length. Qed.

Lemma pwrite_end (file data : bytes) : pwrite file (len file) data = file ++ data.
Proof.
  unfold pwrite. rewrite Z.sub_diag. cbn [Z.to_nat replicate]. rewrite app_nil_r.
  unfold len at 1. rewrite Nat2Z.id, firstn_all.
  rewrite (drop_ge file), app_nil_r; [done|]. unfold len. lia.
Qed.

(** ** Lemmas: strictly sorted association lists *)

(** The keys of an association list are strictly ascending. *)
Definition sorted_keys {V} (m : list (bytes * V)) : Prop := StronglySorted blt m.*1.

Fixpoint drop_lt {V} (t : bytes) (m : list (bytes * V)) : list (bytes * V) :=
  match m with
  | [] => []
  | (k, v) :: m' => if decide (k <b t) then drop_lt t m' else m
  end.

Fixpoint assoc {V} (k : bytes) (m : list (bytes * V)) : option V :=
  match m with
  | [] => None
  | (k', v) :: m' => if decide (k' = k) then Some v else assoc k m'
  end.

(** Insert or replace, keeping the order. *)
Fixpoint ins {V} (k : bytes) (v : V) (m : list (bytes * V)) : list (bytes * V) :=
  match m with
  | [] => [(k, v)]
  | (k', v') :: m' =>
      match bcompare k k' with
      | Lt => (k, v) :: m
      | Eq => (k, v) :: m'
      | Gt => (k', v') :: ins k v m'
      end
  end.

(** Delete. *)
Fixpoint del {V} (k : bytes) (m : list (bytes * V)) : list (bytes * V) :=
  match m with
  | [] => []
  | (k', v') :: m' => if decide (k' = k) then m' else (k', v') :: del k m'
  end.

Lemma sorted_fmap_inv {A B} (f : A -> B) (R : relation B) (l : list A) :
  StronglySorted R (f <$> l) -> StronglySorted (fun x y => R (f x) (f y)) l.
Proof.
  induction l as [|x l IH]; [constructor|]. rewrite fmap_cons. intros H.
  inversion H as [|? ? Hs Ha]; subst. constructor; [auto|]. by rewrite Forall_fmap in Ha.
Qed.

Lemma sorted_keys_cons {V} k (v : V) m :
  sorted_keys ((k, v) :: m) <-> Forall (fun e => k <b e.1) m /\ sorted_keys m.
Proof.
  unfold sorted_keys. rewrite fmap_cons. cbn. split.
  - intros H. inversion H as [|? ? H1 H2]; subst. split; [|done].
    apply (Forall_fmap fst (blt k)) in H2. exact H2.
  - intros [H1 H2]. constructor; [done|]. apply (Forall_fmap fst (blt k)). exact H1.
Qed.

Lemma sorted_keys_app {V} (a b : list (bytes * V)) :
  sorted_keys (a ++ b) <->
  sorted_keys a /\ sorted_keys b /\ (forall x y, x ∈ a -> y ∈ b -> x.1 <b y.1).
Proof.
  induction a as [|[k v] a IH]; cbn.
  - split; [intros H; split_and!; [constructor|done|]|tauto].
    intros x y Hx. by apply elem_of_nil in Hx.
  - rewrite !sorted_keys_cons, IH, Forall_app, !Forall_forall.
    setoid_rewrite elem_of_cons. split.
    + naive_solver.
    + intros [[H1 H2] [H3 H4]]. split_and!; eauto.
      intros y Hy. apply (H4 (k, v) y); auto.
Qed.

Lemma drop_lt_split {V} t (m : list (bytes * V)) :
  exists l, m = l ++ drop_lt t m /\ Forall (fun e => e.1 <b t) l.
Proof.
  induction m as [|[k v] m IH]; cbn; [by exists []|].
  destruct (decide (k <b t)) as [H|H].
  - destruct IH as [l [E Hl]]. exists ((k, v) :: l). cbn. rewrite <- E. split; [done|]. by constructor.
  - by exists [].
Qed.

Lemma drop_lt_app {V} t (l r : list (bytes * V)) :
  Forall (fun e => e.1 <b t) l -> drop_lt t (l ++ r) = drop_lt t r.
Proof.
  induction 1 as [|[k v] l Hk _ IH]; cbn in *; [done|]. by rewrite decide_True.
Qed.

Lemma drop_lt_id {V} t (r : list (bytes * V)) :
  Forall (fun e => t <=b e.1) r -> drop_lt t r = r.
Proof.
  destruct 1 as [|[k v] r Hk _]; cbn in *; [done|].
  rewrite decide_False; [done|]. by apply not_blt.
Qed.

Lemma drop_lt_ge {V} t (m : list (bytes * V)) :
  sorted_keys m -> Forall (fun e => t <=b e.1) (drop_lt t m).
Proof.
  induction m as [|[k v] m IH]; cbn; [constructor|].
  rewrite sorted_keys_cons. intros [H1 H2].
  destruct (decide (k <b t)) as [H|H]; [auto|].
  apply not_blt in H. constructor; [done|].
  eapply Forall_impl; [exact H1|]. cbn. intros e He.
  eapply ble_trans; [exact H|]. by apply blt_ble.
Qed.

Lemma elem_of_drop_lt {V} t (m : list (bytes * V)) e :
  sorted_keys m -> e ∈ drop_lt t m <-> e ∈ m /\ t <=b e.1.
Proof.
  intros Hs. destruct (drop_lt_split t m) as [l [E Hl]].
  pose proof (drop_lt_ge t m Hs) as Hge. rewrite Forall_forall in Hl, Hge.
  split.
  - intros He. split; [|by apply Hge]. rewrite E. apply elem_of_app. auto.
  - intros [He Ht]. rewrite E in He. apply elem_of_app in He as [He|He]; [|done].
    apply Hl in He. by apply not_blt in Ht.
Qed.

Lemma assoc_app_lt {V} k (l r : list (bytes * V)) :
  Forall (fun e => e.1 <b k) l -> assoc k (l ++ r) = assoc k r.
Proof.
  induction 1 as [|[k' v] l Hk _ IH]; cbn in *; [done|].
  rewrite decide_False; [done|]. intros ->. by apply blt_irrefl in Hk.
Qed.

Lemma assoc_gt {V} k (r : list (bytes * V)) :
  Forall (fun e => k <b e.1) r -> assoc k r = None.
Proof.
  induction 1 as [|[k' v] l Hk _ IH]; cbn in *; [done|].
  rewrite decide_False; [done|]. intros ->. by apply blt_irrefl in Hk.
Qed.

Lemma assoc_elem_of {V} k v (m : list (bytes * V)) :
  sorted_keys m -> assoc k m = Some v <-> (k, v) ∈ m.
Proof.
  induction m as [|[k' v'] m IH]; cbn.
  - intros _. split; [done|]. intros H. by apply elem_of_nil in H.
  - rewrite sorted_keys_cons, elem_of_cons, Forall_forall. intros [H1 H2].
    destruct (decide (k' = k)) as [->|Hne].
    + split; [intros [= ->]; auto|]. intros [[= ->]|H]; [done|].
      apply H1 in H. by apply blt_irrefl in H.
    + rewrite IH by done. split; [auto|]. intros [[= -> _]|H]; done.
Qed.

Lemma ins_app_lt {V} k (v : V) (l r : list (bytes * V)) :
  Forall (fun e => e.1 <b k) l -> ins k v (l ++ r) = l ++ ins k v r.
Proof.
  induction 1 as [|[k' v'] l Hk _ IH]; cbn in *; [done|].
  apply bcompare_gt in Hk. by rewrite Hk, IH.
Qed.

Lemma ins_gt {V} k (v : V) (r : list (bytes * V)) :
  Forall (fun e => k <b e.1) r -> ins k v r = (k, v) :: r.
Proof. destruct 1 as [|[k' v'] r Hk _]; cbn in *; [done|]. by rewrite Hk. Qed.

Lemma ins_eq {V} k (v v' : V) r : ins k v ((k, v') :: r) = (k, v) :: r.
Proof. cbn. by rewrite bcompare_refl. Qed.

Lemma del_app_lt {V} k (l r : list (bytes * V)) :
  Forall (fun e => e.1 <b k) l -> del k (l ++ r) = l ++ del k r.
Proof.
  induction 1 as [|[k' v'] l Hk _ IH]; cbn in *; [done|].
  rewrite decide_False; [by rewrite IH|]. intros ->. by apply blt_irrefl in Hk.
Qed.

Lemma del_gt {V} k (r : list (bytes * V)) :
  Forall (fun e => k <b e.1) r -> del k r = r.
Proof.
  induction 1 as [|[k' v'] l Hk _ IH]; cbn in *; [done|].
  rewrite decide_False; [by rewrite IH|]. intros ->. by apply blt_irrefl in Hk.
Qed.

Lemma elem_of_ins {V} k (v : V) (m : list (bytes * V)) e :
  sorted_keys m -> e ∈ ins k v m <-> e = (k, v) \/ (e ∈ m /\ e.1 <> k).
Proof.
  induction m as [|[k' v'] m IH]; cbn.
  - intros _. rewrite elem_of_cons, elem_of_nil. tauto.
  - rewrite sorted_keys_cons, Forall_forall. intros [H1 H2].
    destruct (bcompare k k') eqn:E; rewrite ?elem_of_cons.
    + apply bcompare_eq in E as ->. split.
      * intros [->|H]; auto. right. split; auto.
        intros <-. apply H1 in H. by apply blt_irrefl in H.
      * intros [->|[[->|H] Hne]]; auto. done.
    + split; [|tauto]. intros [->|[->|H]]; auto; right; (split; [auto|]); cbn.
      * intros ->. by apply blt_irrefl in E.
      * intros <-. apply H1 in H. eapply blt_irrefl. etrans; [exact E|exact H].
    + apply bcompare_gt in E. rewrite IH by done. split.
      * intros [->|[->|[H Hne]]]; auto. right. split; auto. cbn. intros ->.
        by apply blt_irrefl in E.
      * intros [->|[[->|H] Hne]]; auto.
Qed.

Lemma length_ins {V} k (v : V) (m : list (bytes * V)) :
  sorted_keys m ->
  length (ins k v m)
  = match assoc k m with Some _ => length m | None => S (length m) end.
Proof.
  induction m as [|[k' v'] m IH]; cbn; [done|].
  rewrite sorted_keys_cons. intros [H1 H2]. destruct (bcompare k k') eqn:E.
  - apply bcompare_eq in E as ->. by rewrite decide_True.
  - rewrite decide_False by (intros ->; by apply blt_irrefl in E).
    rewrite assoc_gt; [done|]. eapply Forall_impl; [exact H1|]. cbn. intros e He.
    etrans; [exact E|done].
  - apply bcompare_gt in E.
    rewrite decide_False by (intros ->; by apply blt_irrefl in E).
    cbn. rewrite IH by done. by destruct (assoc k m).
Qed.

Lemma sorted_keys_ins {V} k (v : V) (m : list (bytes * V)) :
  sorted_keys m -> sorted_keys (ins k v m).
Proof.
  induction m as [|[k' v'] m IH]; cbn.
  - intros _. apply sorted_keys_cons. split; [constructor|constructor].
  - rewrite sorted_keys_cons. intros [H1 H2].
    destruct (bcompare k k') eqn:E.
    + apply bcompare_eq in E as ->. by apply sorted_keys_cons.
    + apply sorted_keys_cons. split; [|by apply sorted_keys_cons].
      constructor; [done|]. eapply Forall_impl; [exact H1|]. cbn. intros e ?.
      etrans; [exact E|done].
    + apply bcompare_gt in E. apply sorted_keys_cons. split; [|auto].
      rewrite Forall_forall in H1 |- *. intros e He. apply elem_of_ins in He; [|done].
      destruct He as [->|[He _]]; auto.
Qed.

Lemma assoc_ins {V} k k' (v : V) (m : list (bytes * V)) :
  sorted_keys m ->
  assoc k' (ins k v m) = if decide (k = k') then Some v else assoc k' m.
Proof.
  intros Hs. apply option_eq. intros w.
  rewrite assoc_elem_of by by apply sorted_keys_ins.
  rewrite elem_of_ins by done. destruct (decide (k = k')) as [->|Hne].
  - split; [intros [[= ->]|[_ ?]]; done|intros [= ->]; auto].
  - rewrite assoc_elem_of by done. cbn. split.
    + intros [[= -> _]|[? _]]; done.
    + intros H. right. split; [done|]. congruence.
Qed.

(** Two strictly sorted association lists with the same elements are equal. *)
Lemma sorted_keys_ext {V} (a b : list (bytes * V)) :
  sorted_keys a -> sorted_keys b -> (forall e, e ∈ a <-> e ∈ b) -> a = b.
Proof.
  revert b. induction a as [|[k v] a IH]; intros b Ha Hb H.
  - destruct b as [|e b]; [done|]. exfalso. specialize (H e).
    rewrite elem_of_cons, elem_of_nil in H. tauto.
  - destruct b as [|[k' v'] b].
    { exfalso. specialize (H (k, v)). rewrite elem_of_cons, elem_of_nil in H. tauto. }
    rewrite sorted_keys_cons, Forall_forall in Ha, Hb.
    destruct Ha as [Ha1 Ha2], Hb as [Hb1 Hb2].
    assert ((k, v) = (k', v')) as [= -> ->].
    { pose proof (proj1 (H (k, v)) ltac:(apply elem_of_cons; auto)) as H1.
      pose proof (proj2 (H (k', v')) ltac:(apply elem_of_cons; auto)) as H2.
      apply elem_of_cons in H1 as [?|H1], H2 as [?|H2]; auto.
      apply Hb1 in H1. apply Ha1 in H2. cbn in *. exfalso. eapply blt_irrefl. by etrans. }
    f_equal. apply IH; [done..|]. intros e. specialize (H e).
    rewrite !elem_of_cons in H. split; intros He.
    + destruct (proj1 H (or_intror He)) as [->|?]; [|done].
      apply Ha1 in He. by apply blt_irrefl in He.
    + destruct (proj2 H (or_intror He)) as [->|?]; [|done].
      apply Hb1 in He. by apply blt_irrefl in He.
Qed.

(** ** Automation *)

(** Prove a decidable closed proposition by evaluation. *)
Ltac by_decide := apply (bool_decide_unpack _); vm_compute; exact I.

(** Rewriting database of list lengths, used by [len_simpl]. *)
Create HintDb len.
#[export] Hint Rewrite @len_app @len_cons @len_nil len_le_bytes len_be_bytes : len.

Ltac len_simpl := autorewrite with len in *.

(** Close goals about the byte order by the order lemmas. *)
Create HintDb border.
#[export] Hint Resolve blt_trans blt_ble_trans ble_blt_trans ble_trans ble_refl blt_ble
  : border.

Ltac border := eauto 4 with border.
