(* ===== verification/MvccKey.v ===== *)
(** * MVCC keys (internal/mvcckey/mvcckey.go)

    The encoding [userKey || bigEndian(^timestamp)] of a version, its inverse,
    and the exact order that [bytes.Compare] gives to encoded keys.  The
    package comment promises "userKey ascending, then timestamp descending";
    the second half holds for every key, the first only for keys of which
    neither is a prefix of the other. *)

From Stdlib Require Import ZArith Lia.
From Stdlib Require Import Strings.Byte.
From stdpp Require Import base list gmap sorting.
From S2P Require Import Prelude.

#[local] Open Scope Z_scope.
#[local] Open Scope bytes_scope.

Definition TimestampSize : Z := 8.

Definition Encode (userKey : bytes) (timestamp : Z) : bytes :=
  userKey ++ be_bytes (Z.to_nat TimestampSize) (not64 timestamp).

(** [ok = false] is [None]. *)
Definition Decode (enc : bytes) : option (bytes * Z) :=
  if decide (len enc < TimestampSize) then None
  else
    let cut := len enc - TimestampSize in
    Some (slice 0 cut enc, not64 (be_val (slice cut (len enc) enc))).

Definition UserKey (enc : bytes) : bytes :=
  if decide (len enc < TimestampSize) then []
  else slice 0 (len enc - TimestampSize) enc.

Definition Timestamp (enc : bytes) : Z :=
  if decide (len enc < TimestampSize) then 0
  else not64 (be_val (slice (len enc - TimestampSize) (len enc) enc)).

(** Keys that contain no 0xFF byte, as every UTF-8 string. *)
Definition text_key (k : bytes) : Prop := Forall (fun b => b <> xff) k.

(** Timestamps whose complement starts with a 0xFF byte. *)
Definition small_ts (t : Z) : Prop := 0 <= t < 2 ^ 56.

#[export] Instance text_key_decision k : Decision (text_key k).
Proof. unfold text_key. apply _. Defined.

#[export] Instance small_ts_decision t : Decision (small_ts t).
Proof. unfold small_ts. apply _. Defined.

Lemma len_Encode k t : len (Encode k t) = len k + 8.
Proof. unfold Encode. len_simpl. reflexivity. Qed.
#[export] Hint Rewrite len_Encode : len.

Lemma small_ts_u64 t : small_ts t -> is_u64 t.
Proof. unfold small_ts, is_u64. lia. Qed.

Lemma Decode_Encode k t : is_u64 t -> Decode (Encode k t) = Some (k, t).
Proof.
  intros Ht. unfold Decode. rewrite len_Encode. unfold TimestampSize.
  rewrite decide_False by (pose proof (len_nonneg k); lia).
  replace (len k + 8 - 8) with (len k) by lia. unfold Encode.
  rewrite slice_0_app by done. rewrite slice_app_r by lia. rewrite Z.sub_diag.
  rewrite <- (len_be_bytes (Z.to_nat TimestampSize) (not64 t)) at 1.
  replace (len k + _ - len k) with (len (be_bytes (Z.to_nat TimestampSize) (not64 t))) by lia.
  rewrite slice_all, be_val_be_bytes.
  change (256 ^ Z.of_nat (Z.to_nat TimestampSize)) with (2 ^ 64).
  fold (u64 (not64 t)). rewrite u64_small by by apply not64_u64.
  by rewrite not64_involutive.
Qed.

Lemma Decode_Some enc k t : Decode enc = Some (k, t) -> enc = Encode k t /\ is_u64 t.
Proof.
  unfold Decode. case_decide as Hl; [done|]. intros [= <- <-].
  unfold TimestampSize in *.
  pose proof (be_val_bound (slice (len enc - 8) (len enc) enc)) as Hb.
  rewrite len_slice in Hb by lia.
  replace (256 ^ (len enc - (len enc - 8))) with (2 ^ 64) in Hb
    by (replace (len enc - (len enc - 8)) with 8 by lia; reflexivity).
  split; [|by apply not64_u64].
  unfold Encode. rewrite not64_involutive by done.
  assert (length (slice (len enc - 8) (len enc) enc) = Z.to_nat TimestampSize) as E.
  { apply Nat2Z.inj. fold (len (slice (len enc - 8) (len enc) enc)).
    rewrite len_slice by lia. unfold TimestampSize. lia. }
  rewrite <- E, be_bytes_be_val. unfold slice.
  rewrite Z.sub_0_r, Z2Nat.inj_0, drop_0.
  rewrite (take_ge (drop _ _)); [by rewrite take_drop|].
  rewrite length_drop. unfold len in *. lia.
Qed.

Lemma Encode_inj k1 t1 k2 t2 :
  is_u64 t1 -> is_u64 t2 -> Encode k1 t1 = Encode k2 t2 -> k1 = k2 /\ t1 = t2.
Proof.
  intros H1 H2 H. apply (f_equal Decode) in H. rewrite !Decode_Encode in H by done.
  by simplify_eq.
Qed.

Lemma UserKey_Encode k t : UserKey (Encode k t) = k.
Proof.
  unfold UserKey, TimestampSize. rewrite len_Encode.
  rewrite decide_False by (pose proof (len_nonneg k); lia).
  unfold Encode. apply slice_0_app. lia.
Qed.

Lemma Timestamp_Encode k t : is_u64 t -> Timestamp (Encode k t) = t.
Proof.
  intros Ht. pose proof (Decode_Encode k t Ht) as H. unfold Decode in H.
  unfold Timestamp. case_decide; [done|]. by injection H.
Qed.

(** Versions of one key: descending timestamps. *)
Lemma bcompare_Encode_same k t1 t2 :
  is_u64 t1 -> is_u64 t2 -> bcompare (Encode k t1) (Encode k t2) = Z.compare t2 t1.
Proof.
  intros H1 H2. unfold Encode. rewrite bcompare_app_l, bcompare_be_bytes.
  change (256 ^ Z.of_nat (Z.to_nat TimestampSize)) with (2 ^ 64).
  fold (u64 (not64 t1)) (u64 (not64 t2)).
  rewrite !u64_small by by apply not64_u64. rewrite !not64_spec by done.
  destruct (Z.compare_spec t2 t1); [subst; apply Z.compare_refl| |].
  - apply Z.compare_lt_iff. lia.
  - apply Z.compare_gt_iff. lia.
Qed.

Lemma ble_Encode_same k t1 t2 :
  is_u64 t1 -> is_u64 t2 -> Encode k t1 <=b Encode k t2 <-> t2 <= t1.
Proof.
  intros H1 H2. unfold ble. rewrite bcompare_Encode_same by done.
  apply Z.compare_le_iff.
Qed.

Lemma blt_Encode_same k t1 t2 :
  is_u64 t1 -> is_u64 t2 -> Encode k t1 <b Encode k t2 <-> t2 < t1.
Proof.
  intros H1 H2. unfold blt. rewrite bcompare_Encode_same by done.
  apply Z.compare_lt_iff.
Qed.

(** Strings that already differ inside their common length compare there. *)
Lemma bcompare_diverge p q a b :
  ~ p `prefix_of` q -> ~ q `prefix_of` p -> bcompare (p ++ a) (q ++ b) = bcompare p q.
Proof.
  revert q. induction p as [|x p IH]; intros q Hp Hq.
  { exfalso. apply Hp. apply prefix_nil. }
  destruct q as [|y q].
  { exfalso. apply Hq. apply prefix_nil. }
  cbn. destruct (Z.compare_spec (b2z x) (b2z y)) as [E| |]; [|done..].
  apply b2z_inj in E as ->. apply IH.
  - intros H. apply Hp. by apply prefix_cons.
  - intros H. apply Hq. by apply prefix_cons.
Qed.

Lemma be_bytes_first_ff t : small_ts t -> exists r, be_bytes 8 (not64 t) = xff :: r.
Proof.
  intros Ht. exists (be_bytes 7 (not64 t)). cbn [be_bytes]. f_equal.
  rewrite not64_spec by by apply small_ts_u64. unfold small_ts, max_u64 in *.
  apply b2z_inj. rewrite b2z_z2b. change (b2z xff) with 255.
  replace ((2 ^ 64 - 1 - t) / 256 ^ Z.of_nat 7) with 255; [done|].
  apply Z.div_unique with (r := 2 ^ 56 - 1 - t); [left|]; lia.
Qed.

Lemma Encode_ff k t : small_ts t -> exists r, Encode k t = (k ++ [xff]) ++ r.
Proof.
  intros Ht. destruct (be_bytes_first_ff t Ht) as [r Hr]. exists r.
  unfold Encode. change (Z.to_nat TimestampSize) with 8%nat. rewrite Hr.
  by rewrite <- app_assoc.
Qed.

Lemma text_key_ff_prefix k1 k2 :
  text_key k2 -> (k1 ++ [xff]) `prefix_of` (k2 ++ [xff]) -> k1 = k2.
Proof.
  revert k2. induction k1 as [|x k1 IH]; intros k2 Ht [r Hr].
  - destruct k2 as [|y k2]; [done|]. cbn in Hr. injection Hr as -> Hr.
    exfalso. inversion Ht. done.
  - destruct k2 as [|y k2]; cbn in Hr.
    + injection Hr as -> Hr. by destruct k1.
    + injection Hr as -> Hr. f_equal. apply IH; [by inversion Ht|by exists r].
Qed.

(** The exact order of encoded keys, for text keys. *)
Lemma bcompare_Encode_text k1 t1 k2 t2 :
  text_key k1 -> text_key k2 -> small_ts t1 -> small_ts t2 ->
  bcompare (Encode k1 t1) (Encode k2 t2)
  = match bcompare (k1 ++ [xff]) (k2 ++ [xff]) with
    | Eq => Z.compare t2 t1
    | c => c
    end.
Proof.
  intros Hk1 Hk2 Ht1 Ht2. destruct (decide (k1 = k2)) as [->|Hne].
  - rewrite bcompare_refl. apply bcompare_Encode_same; by apply small_ts_u64.
  - destruct (Encode_ff k1 t1 Ht1) as [r1 ->], (Encode_ff k2 t2 Ht2) as [r2 ->].
    rewrite bcompare_diverge.
    + destruct (bcompare _ _) eqn:E; [|done..].
      apply bcompare_eq, app_inj_tail in E as [? _]. done.
    + intros H. apply text_key_ff_prefix in H; done.
    + intros H. apply text_key_ff_prefix in H; done.
Qed.

(** An extension by a byte below 0xFF sorts before every version. *)
Lemma Encode_ext_lt k c rest t1 t2 :
  small_ts t1 -> c <> xff -> Encode (k ++ c :: rest) t2 <b Encode k t1.
Proof.
  intros Ht Hc. destruct (Encode_ff k t1 Ht) as [r ->]. unfold Encode. rewrite <- !app_assoc.
  apply blt_app_l. unfold blt. cbn.
  destruct (Z.compare_spec (b2z c) 255) as [E|E|E]; [|done|].
  - change 255 with (b2z xff) in E. by apply b2z_inj in E.
  - pose proof (b2z_bound c). lia.
Qed.

(** Between two versions of a text key lie only versions of that key. *)
Lemma Encode_between k k' s t t' :
  text_key k -> text_key k' -> small_ts s -> small_ts t -> small_ts t' ->
  Encode k s <=b Encode k' t' -> Encode k' t' <=b Encode k t -> k' = k.
Proof.
  intros Hk Hk' Hs Ht Ht' H1 H2. unfold ble in H1, H2.
  rewrite bcompare_Encode_text in H1, H2 by done.
  assert (ble (k ++ [xff]) (k' ++ [xff])) as G1
    by (unfold ble; intros E; rewrite E in H1; done).
  assert (ble (k' ++ [xff]) (k ++ [xff])) as G2
    by (unfold ble; intros E; rewrite E in H2; done).
  pose proof (ble_antisym _ _ G1 G2) as E. apply app_inj_tail in E as [-> _]. done.
Qed.

(** ** Properties *)

(** Encode and Decode are inverse: every version decodes to the key and
    timestamp it was encoded from, and every string that decodes at all is the
    encoding of what it decodes to, so two versions never share an encoding. *)
Theorem mvcc_roundtrip :
  (forall userKey ts, is_u64 ts ->
     Decode (Encode userKey ts) = Some (userKey, ts)
     /\ UserKey (Encode userKey ts) = userKey
     /\ Timestamp (Encode userKey ts) = ts)
  /\ (forall enc, len enc < TimestampSize -> Decode enc = None)
  /\ (forall enc, TimestampSize <= len enc ->
       exists userKey ts, Decode enc = Some (userKey, ts)
                          /\ is_u64 ts /\ Encode userKey ts = enc).
Proof.
  split_and!.
  - intros k t Ht. pose proof (Decode_Encode k t Ht) as H.
    split_and!; [done|apply UserKey_Encode|].
    unfold Decode in H. unfold Timestamp. case_decide; by simplify_eq.
  - intros enc H. unfold Decode. by rewrite decide_True.
  - intros enc H. destruct (Decode enc) as [[k t]|] eqn:E.
    + apply Decode_Some in E as [-> Ht]. eauto.
    + unfold Decode in E. rewrite decide_False in E by lia. done.
Qed.

(** The order of encoded keys. For every key the versions are ordered by
    descending timestamp; for keys without a 0xFF byte and timestamps below
    2^56 (a first complement byte of 0xFF) the order is exactly that of
    [(userKey || 0xFF)] ascending, then timestamp descending. *)
Theorem mvcc_order :
  (forall userKey t1 t2, is_u64 t1 -> is_u64 t2 ->
     bcompare (Encode userKey t1) (Encode userKey t2) = Z.compare t2 t1)
  /\ (forall k1 k2 t1 t2, ~ k1 `prefix_of` k2 -> ~ k2 `prefix_of` k1 ->
       bcompare (Encode k1 t1) (Encode k2 t2) = bcompare k1 k2)
  /\ (forall k1 t1 k2 t2,
       text_key k1 -> text_key k2 -> small_ts t1 -> small_ts t2 ->
       bcompare (Encode k1 t1) (Encode k2 t2)
       = match bcompare (k1 ++ [xff]) (k2 ++ [xff]) with
         | Eq => Z.compare t2 t1
         | c => c
         end).
Proof.
  split_and!; [apply bcompare_Encode_same| |apply bcompare_Encode_text].
  intros. unfold Encode. by apply bcompare_diverge.
Qed.

(** The package comment's "userKey ascending" fails for every pair of keys
    of which one extends the other by a byte below 0xFF: the longer key, which
    [bytes.Compare] puts after the shorter, is encoded before every version of
    it. *)
Theorem mvcc_prefix_order_reversed k c rest t1 t2 :
  small_ts t1 -> c <> xff ->
  k <b k ++ c :: rest /\ Encode (k ++ c :: rest) t2 <b Encode k t1.
Proof.
  intros Ht Hc. split.
  - rewrite <- (app_nil_r k) at 1. by apply blt_app_l.
  - by apply Encode_ext_lt.
Qed.

(** The keys "user1" and "user10" at timestamps 1 and 2. *)
Lemma mvcc_prefix_order_reversed_witness :
  let user1 := [x75; x73; x65; x72; x31] in
  user1 <b user1 ++ [x30] /\ Encode (user1 ++ [x30]) 2 <b Encode user1 1.
Proof.
  apply (mvcc_prefix_order_reversed [x75; x73; x65; x72; x31] x30 [] 1 2).
  - unfold small_ts. lia.
  - done.
Defined.
