(* ===== verification/OrderedMap.v ===== *)
(** * What the memtable needs of its ordered map

    The memtable (internal/memtable) uses the skiplist only through [New],
    [Put], [Get], [Len], [Iterate], [SeekGE] and the node accessors.  The class
    [OrderedMap] names these operations, [OrderedMapSpec] states what they
    promise in terms of a strictly sorted association list.  Skiplist.v gives
    the instance. *)

From Stdlib Require Import ZArith Lia.
From Stdlib Require Import Strings.Byte.
From stdpp Require Import base list gmap sorting.
From S2P Require Import Prelude.

#[local] Open Scope Z_scope.
#[local] Open Scope bytes_scope.

(** [T] is the map, [C] a node.  [None] is a panic (or a loop that does not
    end); the [nat -> bool] argument of [om_put] is the outcome of the coin
    flips. *)
Class OrderedMap (T C : Type) := {
  om_new : T;
  om_put : T -> bytes -> bytes -> (nat -> bool) -> option T;
  om_get : T -> bytes -> option (option bytes);
  om_len : T -> Z;
  om_iterate : forall A, T -> (bytes -> bytes -> A -> A * bool) -> A -> option A;
  om_seekGE : T -> bytes -> option (option C);
  om_next : T -> option C -> option (option C);
  om_key : T -> C -> option bytes;
  om_value : T -> C -> option bytes
}.

(** Iteration with early exit, on the association list. *)
Fixpoint iter_list {A} (fn : bytes -> bytes -> A -> A * bool) (m : list (bytes * bytes))
  (acc : A) : A :=
  match m with
  | [] => acc
  | (k, v) :: m' =>
      let '(acc', more) := fn k v acc in
      if more then iter_list fn m' acc' else acc'
  end.

Class OrderedMapSpec (T C : Type) {OM : OrderedMap T C} := {
  om_repr : T -> list (bytes * bytes) -> Prop;
  om_cursor : T -> option C -> list (bytes * bytes) -> Prop;
  om_repr_sorted : forall s m, om_repr s m -> sorted_keys m;
  om_new_repr : om_repr om_new [];
  om_put_repr : forall s m k v coin, om_repr s m ->
      exists s', om_put s k v coin = Some s' /\ om_repr s' (ins k v m);
  om_get_repr : forall s m k, om_repr s m -> om_get s k = Some (assoc k m);
  om_len_repr : forall s m, om_repr s m -> om_len s = len m;
  om_iterate_repr : forall s m A (fn : bytes -> bytes -> A -> A * bool) acc,
      om_repr s m -> om_iterate A s fn acc = Some (iter_list fn m acc);
  om_seekGE_repr : forall s m t, om_repr s m ->
      exists c, om_seekGE s t = Some c /\ om_cursor s c (drop_lt t m);
  om_cursor_nil : forall s m, om_cursor s None m -> m = [];
  om_cursor_cons : forall s c m, om_cursor s (Some c) m ->
      exists k v m', m = (k, v) :: m' /\ om_key s c = Some k /\ om_value s c = Some v
        /\ exists c', om_next s (Some c) = Some c' /\ om_cursor s c' m'
}.

(** A full iteration sees exactly the entries, in order. *)
Lemma iter_list_collect {B} (f : bytes -> bytes -> B) m acc :
  iter_list (fun k v acc => (acc ++ [f k v], true)) m acc
  = acc ++ ((fun e => f e.1 e.2) <$> m).
Proof.
  revert acc. induction m as [|[k v] m IH]; intros acc; cbn.
  - by rewrite app_nil_r.
  - rewrite IH. by rewrite <- app_assoc.
Qed.
