(* ===== verification/Skiplist.v ===== *)
(** * Skiplist (internal/skiplist/skiplist.go)

    The pointer structure itself: nodes live in a heap and are reached through
    their [next] arrays, the search loops walk those arrays level by level,
    [Put] and [Delete] relink them.  A panic (nil dereference, index out of
    range) and running out of fuel are both [None]; the theorems show that
    neither happens on a well-formed list, whatever heights the coin flips
    give, and that the operations are those of a sorted association list. *)

From Stdlib Require Import ZArith Lia.
From Stdlib Require Import Strings.Byte.
From stdpp Require Import base list gmap sorting.
From S2P Require Import Prelude.
From S2P Require Import OrderedMap.

#[local] Open Scope Z_scope.
#[local] Open Scope bytes_scope.

Definition maxHeight : nat := 32.
#[global] Arguments maxHeight : simpl never.

(** Addresses of nodes; [nil] is [None]. *)
Definition loc := nat.

Record Node := MkNode {
  nkey : bytes;
  nvalue : bytes;
  nnext : list (option loc)
}.

(** [sl_heap] holds the nodes, [sl_brk] is the next free address. *)
Record Skiplist := MkSkiplist {
  sl_heap : gmap loc Node;
  sl_brk : loc;
  sl_head : loc;
  sl_height : nat;
  sl_length : Z
}.

Definition New : Skiplist :=
  MkSkiplist {[ 0%nat := MkNode [] [] (replicate maxHeight None) ]} 1%nat 0%nat 1%nat 0.

Definition Len (s : Skiplist) : Z := sl_length s.

(** [p.next[i]] *)
Definition nextAt (h : gmap loc Node) (p : loc) (i : nat) : option (option loc) :=
  nd ← h !! p; nnext nd !! i.

(** [p.next[i] = v] *)
Definition setNext (h : gmap loc Node) (p : loc) (i : nat) (v : option loc)
  : option (gmap loc Node) :=
  nd ← h !! p;
  if decide (i < length (nnext nd))%nat
  then Some (<[p := MkNode (nkey nd) (nvalue nd) (<[i := v]> (nnext nd))]> h)
  else None.

(** A bound on the steps along one level. *)
Definition walkFuel (h : gmap loc Node) : nat := S (size h).
#[global] Arguments walkFuel : simpl never.

(** [for cur.next[i] != nil && bytes.Compare(cur.next[i].key, key) < 0 { cur = cur.next[i] }] *)
Fixpoint walk (fuel : nat) (h : gmap loc Node) (key : bytes) (i : nat) (cur : loc)
  : option loc :=
  match fuel with
  | O => None
  | S fuel' =>
      nx ← nextAt h cur i;
      match nx with
      | None => Some cur
      | Some n =>
          nd ← h !! n;
          if decide (nkey nd <b key) then walk fuel' h key i n else Some cur
      end
  end.

(** The level loop of [findPredecessors]; [i] counts the levels left. *)
Fixpoint findPredecessors_loop (h : gmap loc Node) (key : bytes) (i : nat) (cur : loc)
  (prev : list (option loc)) : option (list (option loc)) :=
  match i with
  | O => Some prev
  | S i' =>
      cur' ← walk (walkFuel h) h key i' cur;
      findPredecessors_loop h key i' cur' (<[i' := Some cur']> prev)
  end.

Definition findPredecessors (s : Skiplist) (key : bytes) : option (list (option loc)) :=
  findPredecessors_loop (sl_heap s) key (sl_height s) (sl_head s) (replicate maxHeight None).

(** [coin h] is the outcome of the flip made at height [h] by this call. *)
Fixpoint randomHeight_loop (fuel h : nat) (coin : nat -> bool) : nat :=
  match fuel with
  | O => h
  | S fuel' =>
      if (h <? maxHeight)%nat && coin h then randomHeight_loop fuel' (S h) coin else h
  end.

Definition randomHeight (coin : nat -> bool) : nat := randomHeight_loop maxHeight 1 coin.

(** [for i := s.height; i < h; i++ { prev[i] = s.head }] *)
Fixpoint raisePrev (n i : nat) (hd : loc) (prev : list (option loc)) : list (option loc) :=
  match n with
  | O => prev
  | S n' => raisePrev n' (S i) hd (<[i := Some hd]> prev)
  end.

(** [for i := 0; i < h; i++ { n.next[i] = prev[i].next[i]; prev[i].next[i] = n }];
    [todo] levels are left, from level [i]. *)
Fixpoint linkNode (todo i : nat) (prev : list (option loc)) (n : loc) (h : gmap loc Node)
  : option (gmap loc Node) :=
  match todo with
  | O => Some h
  | S todo' =>
      pi ← prev !! i;
      p ← pi;
      nx ← nextAt h p i;
      h1 ← setNext h n i nx;
      h2 ← setNext h1 p i (Some n);
      linkNode todo' (S i) prev n h2
  end.

Definition Put (s : Skiplist) (key value : bytes) (coin : nat -> bool) : option Skiplist :=
  prev ← findPredecessors s key;
  p0 ← prev !! 0%nat;
  p ← p0;
  cand ← nextAt (sl_heap s) p 0%nat;
  existing ← match cand with
             | None => Some None
             | Some c =>
                 nd ← sl_heap s !! c;
                 Some (if decide (nkey nd = key) then Some (c, nd) else None)
             end;
  match existing with
  | Some (c, nd) =>
      Some (MkSkiplist (<[c := MkNode (nkey nd) value (nnext nd)]> (sl_heap s))
              (sl_brk s) (sl_head s) (sl_height s) (sl_length s))
  | None =>
      let h := randomHeight coin in
      let '(prev', height') :=
        if decide (sl_height s < h)%nat
        then (raisePrev (h - sl_height s) (sl_height s) (sl_head s) prev, h)
        else (prev, sl_height s) in
      let n := sl_brk s in
      let h1 := <[n := MkNode key value (replicate h None)]> (sl_heap s) in
      h2 ← linkNode h 0 prev' n h1;
      Some (MkSkiplist h2 (S n) (sl_head s) height' (sl_length s + 1))
  end.

(** The level loop shared by [Get] and [SeekGE]. *)
Fixpoint descend (h : gmap loc Node) (key : bytes) (i : nat) (cur : loc) : option loc :=
  match i with
  | O => Some cur
  | S i' => cur' ← walk (walkFuel h) h key i' cur; descend h key i' cur'
  end.

(** [Some None] is [(nil, false)]. *)
Definition Get (s : Skiplist) (key : bytes) : option (option bytes) :=
  cur ← descend (sl_heap s) key (sl_height s) (sl_head s);
  cand ← nextAt (sl_heap s) cur 0%nat;
  match cand with
  | None => Some None
  | Some c =>
      nd ← sl_heap s !! c;
      Some (if decide (nkey nd = key) then Some (nvalue nd) else None)
  end.

(** [for i := 0; i < len(target.next); i++ { prev[i].next[i] = target.next[i] }] *)
Fixpoint unlinkNode (todo i : nat) (prev : list (option loc)) (target : loc)
  (h : gmap loc Node) : option (gmap loc Node) :=
  match todo with
  | O => Some h
  | S todo' =>
      pi ← prev !! i;
      p ← pi;
      nx ← nextAt h target i;
      h1 ← setNext h p i nx;
      unlinkNode todo' (S i) prev target h1
  end.

(** [for s.height > 1 && s.head.next[s.height-1] == nil { s.height-- }] *)
Fixpoint lowerHeight (h : gmap loc Node) (hd : loc) (height : nat) : option nat :=
  match height with
  | S (S n as height') =>
      nx ← nextAt h hd height';
      match nx with
      | None => lowerHeight h hd height'
      | Some _ => Some height
      end
  | _ => Some height
  end.

Definition Delete (s : Skiplist) (key : bytes) : option (bool * Skiplist) :=
  prev ← findPredecessors s key;
  p0 ← prev !! 0%nat;
  p ← p0;
  target ← nextAt (sl_heap s) p 0%nat;
  match target with
  | None => Some (false, s)
  | Some t =>
      nd ← sl_heap s !! t;
      if decide (nkey nd = key) then
        h1 ← unlinkNode (length (nnext nd)) 0 prev t (sl_heap s);
        height' ← lowerHeight h1 (sl_head s) (sl_height s);
        Some (true, MkSkiplist h1 (sl_brk s) (sl_head s) height' (sl_length s - 1))
      else Some (false, s)
  end.

(** [fn] threads the closure's captured state and answers whether to go on. *)
Fixpoint Iterate_loop {A} (fuel : nat) (h : gmap loc Node) (cur : option loc)
  (fn : bytes -> bytes -> A -> A * bool) (acc : A) : option A :=
  match cur with
  | None => Some acc
  | Some c =>
      match fuel with
      | O => None
      | S fuel' =>
          nd ← h !! c;
          let '(acc', more) := fn (nkey nd) (nvalue nd) acc in
          if more then nx ← nextAt h c 0%nat; Iterate_loop fuel' h nx fn acc'
          else Some acc'
      end
  end.

Definition Iterate {A} (s : Skiplist) (fn : bytes -> bytes -> A -> A * bool) (acc : A)
  : option A :=
  first ← nextAt (sl_heap s) (sl_head s) 0%nat;
  Iterate_loop (walkFuel (sl_heap s)) (sl_heap s) first fn acc.

Definition SeekGE (s : Skiplist) (target : bytes) : option (option loc) :=
  cur ← descend (sl_heap s) target (sl_height s) (sl_head s);
  nextAt (sl_heap s) cur 0%nat.

(** [n.Next()]: safe on a nil receiver. *)
Definition Next (s : Skiplist) (n : option loc) : option (option loc) :=
  match n with
  | None => Some None
  | Some c => nextAt (sl_heap s) c 0%nat
  end.

Definition Key (s : Skiplist) (n : loc) : option bytes := nkey <$> sl_heap s !! n.
Definition Value (s : Skiplist) (n : loc) : option bytes := nvalue <$> sl_heap s !! n.

(** ** Tests on concrete lists *)

Definition coinT : nat -> bool := fun h => (h <? 3)%nat.
Definition coinF : nat -> bool := fun _ => false.

Example skiplist_run :
  (s1 ← Put New [x62] [x01] coinF; s2 ← Put s1 [x61] [x02] coinT;
   s3 ← Put s2 [x63] [x03] coinF; s4 ← Put s3 [x62] [x04] coinF;
   it ← Iterate s4 (fun k v acc => (acc ++ [(k, v)], true)) [];
   d ← Delete s4 [x61];
   it2 ← Iterate d.2 (fun k v acc => (acc ++ [(k, v)], true)) [];
   g ← Get s4 [x62];
   Some (it, it2, g, sl_height s4, sl_height d.2))
  = Some ([([x61], [x02]); ([x62], [x04]); ([x63], [x03])],
          [([x62], [x04]); ([x63], [x03])], Some [x04], 3%nat, 1%nat).
Proof. vm_compute. reflexivity. Qed.

(** ** Well-formedness *)

(** Everything about a node except where it points. *)
Definition meta (h : gmap loc Node) (x : loc) : option (bytes * bytes * nat) :=
  (fun nd => (nkey nd, nvalue nd, length (nnext nd))) <$> h !! x.

Definition hgt (h : gmap loc Node) (x : loc) : nat :=
  match meta h x with Some (_, _, n) => n | None => 0%nat end.

Definition entry (h : gmap loc Node) (x : loc) : bytes * bytes :=
  match meta h x with Some (k, v, _) => (k, v) | None => ([], []) end.

Definition entries (h : gmap loc Node) (ids : list loc) : list (bytes * bytes) :=
  entry h <$> ids.

(** The nodes of [ids] that are threaded at level [i]. *)
Definition lvl (h : gmap loc Node) (i : nat) (ids : list loc) : list loc :=
  filter (fun x => (i < hgt h x)%nat) ids.

(** [l] is linked by the level-[i] pointers and ends in nil. *)
Fixpoint chain (h : gmap loc Node) (i : nat) (l : list loc) : Prop :=
  match l with
  | [] => True
  | x :: l' => nextAt h x i = Some (head l') /\ chain h i l'
  end.

(** [ids] is the list's level-0 order. *)
Record sl_inv (s : Skiplist) (ids : list loc) : Prop := {
  inv_height : (1 <= sl_height s <= maxHeight)%nat;
  inv_head : hgt (sl_heap s) (sl_head s) = maxHeight;
  inv_hgt : forall x, x ∈ ids -> (1 <= hgt (sl_heap s) x <= sl_height s)%nat;
  inv_nodup : NoDup (sl_head s :: ids);
  inv_brk : forall x, x ∈ sl_head s :: ids -> (x < sl_brk s)%nat;
  inv_chain : forall i, (i < maxHeight)%nat ->
      chain (sl_heap s) i (sl_head s :: lvl (sl_heap s) i ids);
  inv_sorted : sorted_keys (entries (sl_heap s) ids);
  inv_length : sl_length s = len ids
}.

(** The list [s] stores the association list [m]. *)
Definition repr (s : Skiplist) (m : list (bytes * bytes)) : Prop :=
  exists ids, sl_inv s ids /\ m = entries (sl_heap s) ids.

(** ** Lemmas: heap updates *)

Lemma hgt_lookup h x : (0 < hgt h x)%nat -> is_Some (h !! x).
Proof. unfold hgt, meta. destruct (h !! x); cbn; [eauto|lia]. Qed.

Lemma hgt_Some h x nd : h !! x = Some nd -> hgt h x = length (nnext nd).
Proof. unfold hgt, meta. by intros ->. Qed.

Lemma entry_Some h x nd : h !! x = Some nd -> entry h x = (nkey nd, nvalue nd).
Proof. unfold entry, meta. by intros ->. Qed.

Lemma nextAt_is_Some h x i : (i < hgt h x)%nat -> is_Some (nextAt h x i).
Proof.
  intros H. destruct (hgt_lookup h x) as [nd Hnd]; [lia|].
  unfold nextAt. rewrite Hnd. cbn. apply lookup_lt_is_Some.
  by rewrite (hgt_Some _ _ _ Hnd) in H.
Qed.

Lemma hgt_meta h h' x : meta h' x = meta h x -> hgt h' x = hgt h x.
Proof. unfold hgt. by intros ->. Qed.

Lemma entry_meta h h' x : meta h' x = meta h x -> entry h' x = entry h x.
Proof. unfold entry. by intros ->. Qed.

Lemma entries_ext h h' l :
  (forall x, x ∈ l -> entry h' x = entry h x) -> entries h' l = entries h l.
Proof.
  intros H. unfold entries. induction l as [|x l IH]; cbn; [done|].
  f_equal; [apply H; set_solver|apply IH; set_solver].
Qed.

Lemma lvl_ext h h' i l :
  (forall x, x ∈ l -> hgt h' x = hgt h x) -> lvl h' i l = lvl h i l.
Proof.
  intros H. unfold lvl. induction l as [|x l IH]; [done|].
  rewrite !filter_cons. rewrite (H x) by set_solver.
  rewrite IH; [done|set_solver].
Qed.

Lemma elem_of_lvl h i l x : x ∈ lvl h i l <-> (i < hgt h x)%nat /\ x ∈ l.
Proof. unfold lvl. by rewrite list_elem_of_filter. Qed.

Lemma lvl_app h i a b : lvl h i (a ++ b) = lvl h i a ++ lvl h i b.
Proof. apply filter_app. Qed.

Lemma lvl_all h i l : (forall x, x ∈ l -> (i < hgt h x)%nat) -> lvl h i l = l.
Proof.
  intros H. unfold lvl. induction l as [|x l IH]; [done|].
  rewrite filter_cons_True by (apply H, elem_of_cons; auto).
  f_equal. apply IH. intros y Hy. apply H, elem_of_cons. auto.
Qed.

Lemma lvl_none h i l : (forall x, x ∈ l -> (hgt h x <= i)%nat) -> lvl h i l = [].
Proof.
  intros H. unfold lvl. induction l as [|x l IH]; [done|].
  rewrite filter_cons_False by (pose proof (H x ltac:(apply elem_of_cons; auto)); lia).
  apply IH. intros y Hy. apply H, elem_of_cons. auto.
Qed.

Lemma setNext_spec h p i v :
  (i < hgt h p)%nat ->
  exists h', setNext h p i v = Some h'
    /\ (forall x, meta h' x = meta h x)
    /\ (forall x j, nextAt h' x j = if decide (x = p /\ j = i) then Some v else nextAt h x j).
Proof.
  intros Hi. destruct (hgt_lookup h p) as [nd Hnd]; [lia|].
  rewrite (hgt_Some _ _ _ Hnd) in Hi. unfold setNext. rewrite Hnd. cbn.
  rewrite decide_True by done. eexists. split_and!; [done| |].
  - intros x. unfold meta. destruct (decide (x = p)) as [->|Hne].
    + rewrite lookup_insert_eq, Hnd. cbn. by rewrite length_insert.
    + by rewrite lookup_insert_ne.
  - intros x j. unfold nextAt. destruct (decide (x = p)) as [->|Hne].
    + rewrite lookup_insert_eq, Hnd. cbn. destruct (decide (j = i)) as [->|Hj].
      * rewrite decide_True by done. by apply list_lookup_insert_eq.
      * rewrite decide_False by tauto. by apply list_lookup_insert_ne.
    + rewrite lookup_insert_ne by done. by rewrite decide_False by tauto.
Qed.

Lemma chain_frame h h' i l :
  (forall x, x ∈ l -> nextAt h' x i = nextAt h x i) -> chain h i l -> chain h' i l.
Proof.
  induction l as [|x l IH]; cbn; [done|]. intros Hx [H1 H2]. split.
  - rewrite Hx; [done|]. apply elem_of_cons. auto.
  - apply IH; [|done]. intros y Hy. apply Hx, elem_of_cons. auto.
Qed.

Lemma chain_suffix h i a l : chain h i (a ++ l) -> chain h i l.
Proof. induction a as [|x a IH]; cbn; [done|]. intros [_ H]. auto. Qed.

Lemma chain_insert h h' i a x n r :
  NoDup (a ++ x :: r) ->
  (forall y, y <> x -> y ∈ a ++ r -> nextAt h' y i = nextAt h y i) ->
  nextAt h' x i = Some (Some n) -> nextAt h' n i = Some (head r) ->
  chain h i (a ++ x :: r) -> chain h' i (a ++ x :: n :: r).
Proof.
  intros Hnd Hy Hx Hn. induction a as [|z a IH]; cbn in *.
  - intros [_ H]. split_and!; [done..|].
    apply NoDup_cons in Hnd as [Hxr _]. eapply chain_frame; [|exact H].
    intros y Hyr. apply Hy; [|done]. intros ->. done.
  - apply NoDup_cons in Hnd as [Hz Hnd]. intros [H1 H2]. split.
    + rewrite Hy; [rewrite H1; by destruct a| |by apply elem_of_cons; auto].
      intros ->. apply Hz. apply elem_of_app. right. apply elem_of_cons. auto.
    + apply IH; [done| |done]. intros y ? ?. apply Hy; [done|]. apply elem_of_cons. auto.
Qed.

Lemma chain_remove h h' i a x t r :
  NoDup (a ++ x :: t :: r) ->
  (forall y, y <> x -> y ∈ a ++ r -> nextAt h' y i = nextAt h y i) ->
  nextAt h' x i = nextAt h t i ->
  chain h i (a ++ x :: t :: r) -> chain h' i (a ++ x :: r).
Proof.
  intros Hnd Hy Hx. induction a as [|z a IH]; cbn in *.
  - intros [_ [H1 H2]]. split; [by rewrite Hx|].
    apply NoDup_cons in Hnd as [Hxr _]. eapply chain_frame; [|exact H2].
    intros y Hyr. apply Hy; [|done]. intros ->. apply Hxr, elem_of_cons. auto.
  - apply NoDup_cons in Hnd as [Hz Hnd]. intros [H1 H2]. split.
    + rewrite Hy; [rewrite H1; by destruct a| |by apply elem_of_cons; auto].
      intros ->. apply Hz. apply elem_of_app. right. apply elem_of_cons. auto.
    + apply IH; [done| |done]. intros y ? ?. apply Hy; [done|]. apply elem_of_cons. auto.
Qed.

(** ** Lemmas: searching *)

Definition last_of (d : loc) (l : list loc) : loc := default d (last l).

Lemma last_of_cons d x l : last_of d (x :: l) = last_of x l.
Proof. unfold last_of. destruct l as [|y l]; [done|]. rewrite last_cons_cons. by destruct (last (y :: l)) eqn:E; [|apply last_None in E]. Qed.

Lemma last_of_app d l x : last_of d (l ++ [x]) = x.
Proof. unfold last_of. by rewrite last_snoc. Qed.

Lemma last_of_elem d l : last_of d l ∈ d :: l.
Proof.
  destruct l as [|x l _] using rev_ind; [apply elem_of_cons; auto|].
  rewrite last_of_app. apply elem_of_cons. right. apply elem_of_app. right. by apply list_elem_of_singleton.
Qed.

Lemma last_of_split d l : exists a, d :: l = a ++ [last_of d l].
Proof.
  destruct l as [|x l _] using rev_ind; [by exists []|].
  rewrite last_of_app. by exists (d :: l).
Qed.

Lemma walk_spec h key i cur b r fuel :
  chain h i (cur :: b ++ r) ->
  (forall x, x ∈ b ++ r -> is_Some (h !! x)) ->
  Forall (fun x => (entry h x).1 <b key) b ->
  Forall (fun x => key <=b (entry h x).1) r ->
  (length b < fuel)%nat ->
  walk fuel h key i cur = Some (last_of cur b).
Proof.
  revert cur fuel. induction b as [|x b IH]; intros cur fuel Hc Ha Hb Hr Hf;
    (destruct fuel as [|fuel]; [cbn in *; lia|]); cbn in Hc |- *; destruct Hc as [Hn Hc];
    rewrite Hn; cbn.
  - destruct r as [|y r]; cbn; [done|].
    destruct (Ha y) as [nd Hnd]; [cbn; apply elem_of_cons; auto|].
    rewrite Hnd. cbn. apply Forall_cons in Hr as [Hy _].
    rewrite (entry_Some _ _ _ Hnd) in Hy. cbn in Hy.
    rewrite decide_False; [done|]. by apply not_blt.
  - destruct (Ha x) as [nd Hnd]; [cbn; apply elem_of_cons; auto|].
    rewrite Hnd. cbn. apply Forall_cons in Hb as [Hx Hb].
    rewrite (entry_Some _ _ _ Hnd) in Hx. cbn in Hx. rewrite decide_True by done.
    rewrite last_of_cons. apply IH; [done| |done..|cbn in Hf; lia].
    intros y Hy. apply Ha. cbn. apply elem_of_cons. auto.
Qed.

Lemma inv_alloc s ids x : sl_inv s ids -> x ∈ sl_head s :: ids -> is_Some (sl_heap s !! x).
Proof.
  intros Hi Hx. apply hgt_lookup. apply elem_of_cons in Hx as [->|Hx].
  - rewrite (inv_head _ _ Hi). unfold maxHeight. lia.
  - pose proof (inv_hgt _ _ Hi x Hx). lia.
Qed.

Lemma inv_fuel s ids : sl_inv s ids -> (length ids < walkFuel (sl_heap s))%nat.
Proof.
  intros Hi. unfold walkFuel. apply Nat.lt_succ_r.
  pose proof (inv_nodup _ _ Hi) as Hnd. apply NoDup_cons in Hnd as [_ Hnd].
  rewrite <- (size_list_to_set (C := gset loc) ids Hnd), <- size_dom.
  apply subseteq_size. intros x Hx. apply elem_of_list_to_set in Hx.
  apply elem_of_dom. eapply inv_alloc; [done|]. apply elem_of_cons. auto.
Qed.

Lemma inv_split s ids key :
  sl_inv s ids ->
  exists L R, ids = L ++ R
    /\ Forall (fun x => (entry (sl_heap s) x).1 <b key) L
    /\ Forall (fun x => key <=b (entry (sl_heap s) x).1) R.
Proof.
  intros Hi. destruct (drop_lt_split key (entries (sl_heap s) ids)) as [l [E Hl]].
  pose proof (drop_lt_ge key _ (inv_sorted _ _ Hi)) as Hr. unfold entries in E.
  apply fmap_app_inv in E as (L & R & -> & ER & EI).
  exists L, R. split; [done|]. split.
  - apply Forall_fmap in Hl. exact Hl.
  - unfold entries in Hr. rewrite ER in Hr.
    apply (Forall_fmap (entry (sl_heap s)) (fun e => key <=b e.1)) in Hr. exact Hr.
Qed.

Section search.
Context (s : Skiplist) (key : bytes) (L R : list loc).
Hypothesis Hinv : sl_inv s (L ++ R).
Hypothesis HL : Forall (fun x => (entry (sl_heap s) x).1 <b key) L.
Hypothesis HR : Forall (fun x => key <=b (entry (sl_heap s) x).1) R.

(** The predecessor of [key] at level [i]. *)
Definition pred (i : nat) : loc := last_of (sl_head s) (lvl (sl_heap s) i L).

Lemma pred_elem i : pred i ∈ sl_head s :: lvl (sl_heap s) i L.
Proof. apply last_of_elem. Qed.

Lemma pred_down i : pred (S i) ∈ sl_head s :: lvl (sl_heap s) i L.
Proof.
  pose proof (pred_elem (S i)) as H. rewrite elem_of_cons, elem_of_lvl in *.
  destruct H as [?|[? ?]]; [auto|right; split; [lia|done]].
Qed.

Lemma pred_hgt i : (i < maxHeight)%nat -> (i < hgt (sl_heap s) (pred i))%nat.
Proof using Hinv.
  intros Hi. pose proof (pred_elem i) as H. rewrite elem_of_cons, elem_of_lvl in H.
  destruct H as [->|[? ?]]; [|done]. by rewrite (inv_head _ _ Hinv).
Qed.

Lemma pred_chain i :
  (i < maxHeight)%nat ->
  exists a, sl_head s :: lvl (sl_heap s) i L = a ++ [pred i]
    /\ chain (sl_heap s) i (a ++ pred i :: lvl (sl_heap s) i R).
Proof using Hinv.
  intros Hi. destruct (last_of_split (sl_head s) (lvl (sl_heap s) i L)) as [a Ha].
  exists a. split; [done|]. pose proof (inv_chain _ _ Hinv i Hi) as H.
  rewrite lvl_app in H. rewrite (app_comm_cons (lvl _ _ L)) in H. rewrite Ha in H.
  by rewrite <- app_assoc in H.
Qed.

Lemma pred_next i :
  (i < maxHeight)%nat -> nextAt (sl_heap s) (pred i) i = Some (head (lvl (sl_heap s) i R)).
Proof using Hinv.
  intros Hi. destruct (pred_chain i Hi) as [a [_ H]].
  apply chain_suffix in H. by destruct H as [H _].
Qed.

Lemma walk_pred i cur :
  (i < maxHeight)%nat -> cur ∈ sl_head s :: lvl (sl_heap s) i L ->
  walk (walkFuel (sl_heap s)) (sl_heap s) key i cur = Some (pred i).
Proof.
  intros Hi Hc. apply list_elem_of_split in Hc as (a & b & E).
  pose proof (inv_chain _ _ Hinv i Hi) as H.
  rewrite lvl_app in H. rewrite (app_comm_cons (lvl _ _ L)) in H. rewrite E in H.
  rewrite <- app_assoc in H. apply chain_suffix in H. cbn in H.
  assert (forall x, x ∈ b -> x ∈ lvl (sl_heap s) i L) as Hb.
  { intros x Hx. destruct a as [|y a]; cbn in E; injection E as _ E; rewrite E; set_solver. }
  assert (pred i = last_of cur b) as ->.
  { unfold pred. rewrite <- (last_of_cons (sl_head s) (sl_head s)), E.
    unfold last_of. rewrite last_app, last_cons. by destruct (last b). }
  apply walk_spec with (r := lvl (sl_heap s) i R); [done| | | |].
  - intros x Hx. eapply inv_alloc; [done|]. rewrite elem_of_app in Hx.
    destruct Hx as [Hx|Hx]; [apply Hb in Hx|]; apply elem_of_lvl in Hx; set_solver.
  - rewrite Forall_forall in HL |- *. intros x Hx. apply HL.
    apply Hb, elem_of_lvl in Hx. tauto.
  - rewrite Forall_forall in HR |- *. intros x Hx. apply HR.
    apply elem_of_lvl in Hx. tauto.
  - pose proof (inv_fuel _ _ Hinv) as Hf. rewrite length_app in Hf.
    assert (length b <= length (lvl (sl_heap s) i L))%nat.
    { destruct a as [|y a]; cbn in E; injection E as _ E; rewrite E; [done|].
      rewrite length_app. cbn. lia. }
    pose proof (length_filter (fun x => (i < hgt (sl_heap s) x)%nat) L).
    unfold lvl in *. lia.
Qed.

Lemma descend_pred n cur :
  (0 < n <= maxHeight)%nat -> cur ∈ sl_head s :: lvl (sl_heap s) (n - 1) L ->
  descend (sl_heap s) key n cur = Some (pred 0).
Proof.
  revert cur. induction n as [|n IH]; intros cur Hn Hc; [lia|]. cbn.
  replace (S n - 1)%nat with n in Hc by lia. rewrite walk_pred; [|lia|done]. cbn.
  destruct n as [|n]; [done|]. apply IH; [lia|].
  replace (S n - 1)%nat with n by lia. apply pred_down.
Qed.

Lemma descend_head : descend (sl_heap s) key (sl_height s) (sl_head s) = Some (pred 0).
Proof.
  apply descend_pred; [pose proof (inv_height _ _ Hinv); lia|]. apply elem_of_cons. auto.
Qed.

Lemma findPredecessors_loop_spec n cur prev :
  (n <= maxHeight)%nat -> length prev = maxHeight ->
  (n = 0%nat \/ cur ∈ sl_head s :: lvl (sl_heap s) (n - 1) L) ->
  exists prev', findPredecessors_loop (sl_heap s) key n cur prev = Some prev'
    /\ length prev' = maxHeight
    /\ (forall i, (i < n)%nat -> prev' !! i = Some (Some (pred i)))
    /\ (forall i, (n <= i)%nat -> prev' !! i = prev !! i).
Proof.
  revert cur prev. induction n as [|n IH]; intros cur prev Hn Hl Hc; cbn.
  { exists prev. split_and!; [done..|lia|done]. }
  destruct Hc as [|Hc]; [lia|]. replace (S n - 1)%nat with n in Hc by lia.
  rewrite walk_pred; [|lia|done]. cbn.
  destruct (IH (pred n) (<[n := Some (pred n)]> prev)) as (prev' & E & Hl' & H1 & H2).
  { lia. } { by rewrite length_insert. }
  { destruct n as [|n]; [auto|]. right. replace (S n - 1)%nat with n by lia. apply pred_down. }
  exists prev'. split_and!; [done..| |].
  - intros i Hi. destruct (decide (i = n)) as [->|]; [|apply H1; lia].
    rewrite H2 by lia. apply list_lookup_insert_eq. lia.
  - intros i Hi. rewrite H2 by lia. apply list_lookup_insert_ne. lia.
Qed.

Lemma findPredecessors_spec :
  exists prev, findPredecessors s key = Some prev
    /\ length prev = maxHeight
    /\ (forall i, (i < sl_height s)%nat -> prev !! i = Some (Some (pred i))).
Proof.
  destruct (findPredecessors_loop_spec (sl_height s) (sl_head s) (replicate maxHeight None))
    as (prev & E & Hl & H1 & _).
  - apply (inv_height _ _ Hinv).
  - apply length_replicate.
  - right. apply elem_of_cons. auto.
  - exists prev. auto.
Qed.

(** Level 0 threads every node. *)
Lemma pred_next_0 : nextAt (sl_heap s) (pred 0) 0 = Some (head R).
Proof using Hinv.
  rewrite pred_next by (unfold maxHeight; lia). do 2 f_equal. apply lvl_all.
  intros x Hx. pose proof (inv_hgt _ _ Hinv x ltac:(apply elem_of_app; auto)). lia.
Qed.

(** Levels above the current height are empty, so the predecessor is the head. *)
Lemma pred_above i : (sl_height s <= i)%nat -> pred i = sl_head s.
Proof using Hinv.
  intros Hi. unfold pred. rewrite lvl_none; [done|].
  intros x Hx. pose proof (inv_hgt _ _ Hinv x ltac:(apply elem_of_app; auto)). lia.
Qed.

End search.

(** ** Lemmas: relinking *)

Section relink.
Context (h0 : gmap loc Node) (P : nat -> loc) (prev : list (option loc)) (n : loc) (top : nat).
Hypothesis Hprev : forall i, (i < top)%nat -> prev !! i = Some (Some (P i)).
Hypothesis HP : forall i, (i < top)%nat -> (i < hgt h0 (P i))%nat /\ P i <> n.
Hypothesis Hn : hgt h0 n = top.

(** The heap after the first [i] levels have been linked through [n]. *)
Definition linked_upto (i : nat) (h : gmap loc Node) : Prop :=
  (forall x, meta h x = meta h0 x)
  /\ forall x j, nextAt h x j =
       if decide (j < i /\ x = n)%nat then nextAt h0 (P j) j
       else if decide (j < i /\ x = P j)%nat then Some (Some n)
       else nextAt h0 x j.

Lemma linkNode_spec todo i h :
  (i + todo = top)%nat -> linked_upto i h ->
  exists h', linkNode todo i prev n h = Some h' /\ linked_upto top h'.
Proof.
  revert i h. induction todo as [|todo IH]; intros i h Hi [Hm Hx]; cbn.
  { exists h. replace top with i by lia. done. }
  rewrite Hprev by lia. cbn. destruct (HP i) as [HPi HPn]; [lia|].
  assert (nextAt h (P i) i = nextAt h0 (P i) i) as E.
  { rewrite Hx. rewrite decide_False by tauto. rewrite decide_False by lia. done. }
  destruct (nextAt_is_Some h0 (P i) i HPi) as [nx Hnx]. rewrite E, Hnx. cbn.
  destruct (setNext_spec h n i nx) as (h1 & -> & Hm1 & Hx1).
  { rewrite (hgt_meta h0 h) by done. lia. }
  cbn. destruct (setNext_spec h1 (P i) i (Some n)) as (h2 & -> & Hm2 & Hx2).
  { rewrite (hgt_meta h h1), (hgt_meta h0 h) by done. lia. }
  cbn. apply IH; [lia|]. split.
  - intros x. by rewrite Hm2, Hm1.
  - intros x j. rewrite Hx2, Hx1, Hx.
    destruct (decide (x = n)) as [->|Hxn]; destruct (decide (j = i)) as [->|Hji];
      repeat case_decide; intuition (congruence || lia).
Qed.

(** The heap after the first [i] levels have been unlinked from [n]. *)
Definition unlinked_upto (i : nat) (h : gmap loc Node) : Prop :=
  (forall x, meta h x = meta h0 x)
  /\ forall x j, nextAt h x j =
       if decide (j < i /\ x = P j)%nat then nextAt h0 n j else nextAt h0 x j.

Lemma unlinkNode_spec todo i h :
  (i + todo = top)%nat -> unlinked_upto i h ->
  exists h', unlinkNode todo i prev n h = Some h' /\ unlinked_upto top h'.
Proof.
  revert i h. induction todo as [|todo IH]; intros i h Hi [Hm Hx]; cbn.
  { exists h. replace top with i by lia. done. }
  rewrite Hprev by lia. cbn. destruct (HP i) as [HPi HPn]; [lia|].
  assert (nextAt h n i = nextAt h0 n i) as E.
  { rewrite Hx. rewrite decide_False by lia. done. }
  destruct (nextAt_is_Some h0 n i) as [nx Hnx]; [lia|]. rewrite E, Hnx. cbn.
  destruct (setNext_spec h (P i) i nx) as (h1 & -> & Hm1 & Hx1).
  { rewrite (hgt_meta h0 h) by done. lia. }
  cbn. apply IH; [lia|]. split.
  - intros x. by rewrite Hm1.
  - intros x j. rewrite Hx1, Hx.
    destruct (decide (j = i)) as [->|Hji]; repeat case_decide; intuition (congruence || lia).
Qed.

End relink.

Lemma randomHeight_bound coin : (1 <= randomHeight coin <= maxHeight)%nat.
Proof.
  unfold randomHeight.
  enough (forall f h, (1 <= h <= maxHeight)%nat ->
            (1 <= randomHeight_loop f h coin <= maxHeight)%nat) as H
    by (apply H; unfold maxHeight; lia).
  induction f as [|f IH]; intros h Hh; cbn [randomHeight_loop]; [done|].
  destruct (Nat.ltb_spec h maxHeight); cbn [andb]; [|done].
  destruct (coin h); [|done]. apply IH. lia.
Qed.

Lemma raisePrev_spec n i hd prev :
  (i + n <= length prev)%nat ->
  forall j, raisePrev n i hd prev !! j
    = if decide (i <= j < i + n)%nat then Some (Some hd) else prev !! j.
Proof.
  revert i prev. induction n as [|n IH]; intros i prev Hl j; cbn.
  - rewrite decide_False by lia. done.
  - rewrite IH by (rewrite length_insert; lia).
    destruct (decide (j = i)) as [->|Hne].
    + rewrite decide_False by lia. rewrite decide_True by lia.
      apply list_lookup_insert_eq. lia.
    + rewrite list_lookup_insert_ne by done. repeat case_decide; (done || lia).
Qed.

(** ** Lemmas: the operations against the association list *)

Lemma New_repr : repr New [].
Proof.
  exists []. split; [|done]. split; cbn.
  - unfold maxHeight. lia.
  - reflexivity.
  - intros x Hx. by apply elem_of_nil in Hx.
  - apply NoDup_singleton.
  - intros x Hx. apply list_elem_of_singleton in Hx as ->. lia.
  - intros i Hi. split; [|done]. unfold nextAt. rewrite lookup_singleton_eq.
    cbn [mbind option_bind nnext]. by apply lookup_replicate_2.
  - constructor.
  - done.
Qed.

Lemma repr_sorted s m : repr s m -> sorted_keys m.
Proof. intros (ids & Hi & ->). apply (inv_sorted _ _ Hi). Qed.

Lemma repr_len s m : repr s m -> Len s = len m.
Proof.
  intros (ids & Hi & ->). unfold Len. rewrite (inv_length _ _ Hi).
  unfold len, entries. by rewrite length_fmap.
Qed.

Lemma entries_app h a b : entries h (a ++ b) = entries h a ++ entries h b.
Proof. apply fmap_app. Qed.

Lemma entries_lt h key l :
  Forall (fun x => (entry h x).1 <b key) l -> Forall (fun e => e.1 <b key) (entries h l).
Proof. intros H. unfold entries. apply Forall_fmap. exact H. Qed.

Lemma entries_ge h key l :
  Forall (fun x => key <=b (entry h x).1) l -> Forall (fun e => key <=b e.1) (entries h l).
Proof.
  intros H. unfold entries. apply (Forall_fmap (entry h) (fun e => key <=b e.1)). exact H.
Qed.

(** A position in the level-0 order: [c] is the node that holds the first
    entry of [m]. *)
Definition cursor_at (s : Skiplist) (c : option loc) (m : list (bytes * bytes)) : Prop :=
  exists A B, sl_inv s (A ++ B) /\ c = head B /\ m = entries (sl_heap s) B.

Lemma SeekGE_spec s m t :
  repr s m -> exists c, SeekGE s t = Some c /\ cursor_at s c (drop_lt t m).
Proof.
  intros (ids & Hi & ->). destruct (inv_split s ids t Hi) as (L & R & -> & HL & HR).
  exists (head R). split.
  - unfold SeekGE. rewrite (descend_head s t L R Hi HL HR). cbn.
    by rewrite (pred_next_0 s L R).
  - exists L, R. split_and!; [done..|]. rewrite entries_app.
    rewrite drop_lt_app by by apply entries_lt. by apply drop_lt_id, entries_ge.
Qed.

Lemma cursor_at_nil s m : cursor_at s None m -> m = [].
Proof. intros (A & B & _ & E & ->). by destruct B. Qed.

Lemma cursor_at_cons s c m :
  cursor_at s (Some c) m ->
  exists k v m', m = (k, v) :: m' /\ Key s c = Some k /\ Value s c = Some v
    /\ exists c', Next s (Some c) = Some c' /\ cursor_at s c' m'.
Proof.
  intros (A & B & Hi & E & ->). destruct B as [|x B]; [done|]. cbn in E. injection E as ->.
  destruct (inv_alloc s (A ++ x :: B) x Hi) as [nd Hnd]; [set_solver|].
  exists (nkey nd), (nvalue nd), (entries (sl_heap s) B).
  unfold Key, Value, Next. rewrite Hnd. cbn. rewrite (entry_Some _ _ _ Hnd).
  split_and!; [done..|]. exists (head B). split.
  - pose proof (inv_chain _ _ Hi 0 ltac:(unfold maxHeight; lia)) as H.
    rewrite lvl_all in H
      by (intros y Hy; pose proof (inv_hgt _ _ Hi y Hy); lia).
    rewrite app_comm_cons in H. apply chain_suffix in H. by destruct H.
  - exists (A ++ [x]), B. rewrite <- app_assoc. done.
Qed.

(** When the first node not below [key] is not [key] itself, all of the rest
    lies above. *)
Lemma inv_head_gt s key L R x nd :
  sl_inv s (L ++ x :: R) ->
  Forall (fun y => key <=b (entry (sl_heap s) y).1) (x :: R) ->
  sl_heap s !! x = Some nd -> nkey nd <> key ->
  Forall (fun y => key <b (entry (sl_heap s) y).1) (x :: R).
Proof.
  intros Hi HR Hnd Hne. pose proof (inv_sorted _ _ Hi) as Hs.
  rewrite entries_app, sorted_keys_app in Hs. destruct Hs as (_ & Hs & _).
  change (entries ?hh (x :: R)) with (entry hh x :: entries hh R) in Hs.
  apply Forall_cons in HR as [HRx _]. rewrite (entry_Some _ _ _ Hnd) in Hs, HRx.
  cbn in HRx. apply sorted_keys_cons in Hs as [Hs _].
  apply ble_lt_eq in HRx as [HRx|HRx]; [|done].
  constructor; [by rewrite (entry_Some _ _ _ Hnd)|].
  apply Forall_forall. intros y Hy. etrans; [exact HRx|].
  apply (proj1 (Forall_forall _ _) Hs (entry (sl_heap s) y)). by apply list_elem_of_fmap_2.
Qed.

Lemma Get_spec s m k : repr s m -> Get s k = Some (assoc k m).
Proof.
  intros (ids & Hi & ->). destruct (inv_split s ids k Hi) as (L & R & -> & HL & HR).
  unfold Get. rewrite (descend_head s k L R Hi HL HR). cbn.
  rewrite (pred_next_0 s L R Hi). cbn.
  rewrite entries_app, assoc_app_lt by by apply entries_lt.
  destruct R as [|x R]; cbn; [done|].
  destruct (inv_alloc s (L ++ x :: R) x Hi) as [nd Hnd]; [set_solver|].
  rewrite Hnd, (entry_Some _ _ _ Hnd). cbn.
  destruct (decide (nkey nd = k)) as [E|Hne]; [done|].
  rewrite assoc_gt; [done|].
  pose proof (inv_head_gt s k L R x nd Hi HR Hnd Hne) as Hgt.
  apply Forall_cons in Hgt as [_ Hgt]. apply Forall_fmap. exact Hgt.
Qed.

Lemma Iterate_loop_spec {A} s (fn : bytes -> bytes -> A -> A * bool) c m fuel acc :
  cursor_at s c m -> (length m < fuel)%nat ->
  Iterate_loop fuel (sl_heap s) c fn acc = Some (iter_list fn m acc).
Proof.
  revert c m acc. induction fuel as [|fuel IH]; intros c m acc Hc Hf; [lia|].
  destruct c as [c|]; cbn.
  - destruct (cursor_at_cons _ _ _ Hc) as (k & v & m' & -> & HK & HV & c' & HN & Hc').
    unfold Key in HK. unfold Value in HV. cbn in HN.
    destruct (sl_heap s !! c) as [nd|]; cbn in *; [|done]. simplify_eq.
    destruct (fn (nkey nd) (nvalue nd) acc) as [acc' []]; [|done].
    rewrite HN. cbn. apply IH; [done|lia].
  - by rewrite (cursor_at_nil _ _ Hc).
Qed.

Lemma Iterate_spec {A} s m (fn : bytes -> bytes -> A -> A * bool) acc :
  repr s m -> Iterate s fn acc = Some (iter_list fn m acc).
Proof.
  intros (ids & Hi & ->). unfold Iterate.
  pose proof (inv_chain _ _ Hi 0 ltac:(unfold maxHeight; lia)) as H.
  rewrite lvl_all in H by (intros y Hy; pose proof (inv_hgt _ _ Hi y Hy); lia).
  destruct H as [-> _]. cbn. apply Iterate_loop_spec.
  - by exists [], ids.
  - unfold entries. rewrite length_fmap. by apply inv_fuel.
Qed.

(** ** Lemmas: insertion and removal *)

Section insertion.
Context (s : Skiplist) (key value : bytes) (L R : list loc) (h : nat).
Hypothesis Hinv : sl_inv s (L ++ R).
Hypothesis HL : Forall (fun x => (entry (sl_heap s) x).1 <b key) L.
Hypothesis HR : Forall (fun x => key <b (entry (sl_heap s) x).1) R.
Hypothesis Hh : (1 <= h <= maxHeight)%nat.

Let heap := sl_heap s.
Let n := sl_brk s.
Let heap1 := <[n := MkNode key value (replicate h None)]> heap.

Lemma ins_ne x : x ∈ sl_head s :: L ++ R -> x <> n.
Proof. intros Hx ->. apply (inv_brk _ _ Hinv) in Hx. unfold n in Hx. lia. Qed.

Lemma ins_meta x : x ∈ sl_head s :: L ++ R -> meta heap1 x = meta heap x.
Proof.
  intros Hx. unfold meta, heap1. rewrite lookup_insert_ne; [done|].
  intros E. by apply (ins_ne x).
Qed.

Lemma ins_next x i : x ∈ sl_head s :: L ++ R -> nextAt heap1 x i = nextAt heap x i.
Proof.
  intros Hx. unfold nextAt, heap1. rewrite lookup_insert_ne; [done|].
  intros E. by apply (ins_ne x).
Qed.

Lemma ins_hgt_new : hgt heap1 n = h.
Proof.
  unfold heap1. rewrite (hgt_Some _ _ _ (lookup_insert_eq _ _ _)). apply length_replicate.
Qed.

Lemma ins_pred_in i : pred s L i ∈ sl_head s :: L ++ R.
Proof.
  pose proof (pred_elem s L i) as H. rewrite elem_of_cons, elem_of_lvl in H.
  rewrite elem_of_cons, elem_of_app. tauto.
Qed.

Lemma ins_chain h2 i :
  (i < maxHeight)%nat -> linked_upto heap1 (pred s L) n h h2 ->
  chain h2 i (sl_head s :: lvl h2 i (L ++ n :: R)).
Proof.
  intros Hi [Hm Hx].
  assert (forall l, (forall x, x ∈ l -> x ∈ sl_head s :: L ++ R) -> lvl h2 i l = lvl heap i l)
    as Hlvl.
  { intros l Hl. apply lvl_ext. intros x Hxl. apply hgt_meta. rewrite Hm.
    by apply ins_meta, Hl. }
  rewrite lvl_app. unfold lvl at 2. rewrite filter_cons. fold (lvl h2 i R).
  rewrite (Hlvl L), (Hlvl R)
    by (intros x ?; rewrite elem_of_cons, elem_of_app; auto).
  rewrite (hgt_meta heap1 h2), ins_hgt_new by done.
  destruct (pred_chain s L R Hinv i Hi) as [a [Ha Hc]].
  assert (NoDup (a ++ pred s L i :: lvl heap i R)) as Hnd.
  { pose proof (inv_nodup _ _ Hinv) as Hn. rewrite app_comm_cons in Hn.
    rewrite cons_middle, app_assoc, <- Ha.
    apply (sublist_NoDup _ (sl_head s :: L ++ R)); [done|].
    apply sublist_skip, sublist_app; apply sublist_filter. }
  assert (forall y, y ∈ a ++ lvl heap i R -> y ∈ sl_head s :: L ++ R) as Hin.
  { intros y. rewrite elem_of_app. intros [Hy|Hy].
    - assert (y ∈ sl_head s :: lvl heap i L) as Hy'
        by (unfold heap; rewrite Ha; apply elem_of_app; auto).
      rewrite elem_of_cons, elem_of_lvl in Hy'. rewrite elem_of_cons, elem_of_app. tauto.
    - apply elem_of_lvl in Hy. rewrite elem_of_cons, elem_of_app. tauto. }
  case_decide as Hih.
  - rewrite (app_comm_cons (lvl heap i L)). unfold heap. rewrite Ha, <- app_assoc. cbn.
    eapply chain_insert; [exact Hnd| | | |exact Hc].
    + intros y Hy Hya. rewrite Hx. rewrite decide_False.
      * rewrite decide_False by tauto. by apply ins_next, Hin.
      * intros [_ ->]. by apply (ins_ne n); [apply Hin|].
    + rewrite Hx. rewrite decide_False.
      * by rewrite decide_True.
      * intros [_ E]. by apply (ins_ne (pred s L i)); [apply ins_pred_in|].
    + rewrite Hx, decide_True by done. rewrite ins_next by apply ins_pred_in.
      by rewrite (pred_next s L R Hinv).
  - rewrite (app_comm_cons (lvl heap i L)). unfold heap. rewrite Ha, <- app_assoc. cbn.
    eapply chain_frame; [|exact Hc]. intros y Hy. rewrite Hx.
    rewrite !decide_False by lia. apply ins_next.
    rewrite elem_of_app, elem_of_cons in Hy. destruct Hy as [Hy|[->|Hy]].
    + apply Hin, elem_of_app. auto.
    + apply ins_pred_in.
    + apply Hin, elem_of_app. auto.
Qed.

Lemma ins_entries h2 :
  linked_upto heap1 (pred s L) n h h2 ->
  entries h2 (L ++ n :: R) = ins key value (entries heap (L ++ R)).
Proof.
  intros [Hm _].
  assert (forall l, (forall x, x ∈ l -> x ∈ sl_head s :: L ++ R) -> entries h2 l = entries heap l)
    as He.
  { intros l Hl. apply entries_ext. intros x Hx. apply entry_meta. rewrite Hm.
    by apply ins_meta, Hl. }
  rewrite !entries_app, ins_app_lt by by apply entries_lt.
  rewrite ins_gt by (apply Forall_fmap; exact HR).
  change (entries h2 (n :: R)) with (entry h2 n :: entries h2 R).
  rewrite (He L), (He R) by (intros x ?; rewrite elem_of_cons, elem_of_app; auto).
  do 2 f_equal. rewrite (entry_meta heap1) by done. unfold heap1.
  by rewrite (entry_Some _ _ _ (lookup_insert_eq _ _ _)).
Qed.

Lemma ins_inv h2 :
  linked_upto heap1 (pred s L) n h h2 ->
  sl_inv (MkSkiplist h2 (S n) (sl_head s) (max (sl_height s) h) (sl_length s + 1))
         (L ++ n :: R).
Proof.
  intros Hlk. pose proof Hlk as [Hm Hx]. pose proof (inv_height _ _ Hinv).
  split; cbn.
  - lia.
  - rewrite (hgt_meta heap h2); [apply (inv_head _ _ Hinv)|].
    rewrite Hm. apply ins_meta. apply elem_of_cons. auto.
  - intros x Hin. destruct (decide (x = n)) as [->|Hne].
    + rewrite (hgt_meta heap1 h2), ins_hgt_new by done. lia.
    + assert (x ∈ L ++ R) as Hin'
        by (rewrite elem_of_app, elem_of_cons in Hin; rewrite elem_of_app; tauto).
      rewrite (hgt_meta heap h2) by (rewrite Hm; apply ins_meta, elem_of_cons; auto).
      pose proof (inv_hgt _ _ Hinv x Hin'). unfold heap. lia.
  - pose proof (inv_nodup _ _ Hinv) as Hnd. rewrite <- Permutation_middle.
    rewrite Permutation_swap. apply NoDup_cons. split; [|done].
    intros E. by apply (ins_ne n E).
  - intros x Hin. destruct (decide (x = n)) as [->|Hne]; [lia|].
    assert (x ∈ sl_head s :: L ++ R) as Hin' by set_solver.
    pose proof (inv_brk _ _ Hinv x Hin'). unfold n. lia.
  - intros i Hi. by apply ins_chain.
  - rewrite ins_entries by done. apply sorted_keys_ins, (inv_sorted _ _ Hinv).
  - rewrite (inv_length _ _ Hinv). rewrite !len_app, len_cons. lia.
Qed.

End insertion.

(** Replacing the value of a node leaves the structure alone. *)
Lemma upd_inv s ids c nd value :
  sl_inv s ids -> c ∈ ids -> sl_heap s !! c = Some nd ->
  sl_inv (MkSkiplist (<[c := MkNode (nkey nd) value (nnext nd)]> (sl_heap s))
            (sl_brk s) (sl_head s) (sl_height s) (sl_length s)) ids.
Proof.
  intros Hi Hc Hnd. set (h' := <[c := _]> (sl_heap s)).
  assert (forall x, hgt h' x = hgt (sl_heap s) x) as Hh.
  { intros x. unfold hgt, meta, h'. destruct (decide (x = c)) as [->|].
    - by rewrite lookup_insert_eq, Hnd.
    - by rewrite lookup_insert_ne. }
  assert (forall x i, nextAt h' x i = nextAt (sl_heap s) x i) as Hx.
  { intros x i. unfold nextAt, h'. destruct (decide (x = c)) as [->|].
    - by rewrite lookup_insert_eq, Hnd.
    - by rewrite lookup_insert_ne. }
  assert ((entries h' ids).*1 = (entries (sl_heap s) ids).*1) as Hk.
  { unfold entries. rewrite <- !list_fmap_compose. apply list_fmap_ext. intros i x _.
    unfold compose, entry, meta, h'. destruct (decide (x = c)) as [->|].
    - by rewrite lookup_insert_eq, Hnd.
    - by rewrite lookup_insert_ne. }
  destruct Hi. split; cbn; try done.
  - by rewrite Hh.
  - intros x Hxi. rewrite Hh. auto.
  - intros i Hi. rewrite (lvl_ext (sl_heap s) h') by auto.
    change (chain h' i (sl_head s :: lvl (sl_heap s) i ids)).
    eapply chain_frame; [|by apply inv_chain0]. auto.
  - unfold sorted_keys. by rewrite Hk.
Qed.

Lemma upd_entries s L R c nd value :
  sl_inv s (L ++ c :: R) -> sl_heap s !! c = Some nd ->
  entries (<[c := MkNode (nkey nd) value (nnext nd)]> (sl_heap s)) (L ++ c :: R)
  = entries (sl_heap s) L ++ (nkey nd, value) :: entries (sl_heap s) R.
Proof.
  intros Hi Hnd. rewrite entries_app.
  assert (forall l, c ∉ l -> entries (<[c := MkNode (nkey nd) value (nnext nd)]> (sl_heap s)) l
                             = entries (sl_heap s) l) as He.
  { intros l Hl. apply entries_ext. intros x Hx. unfold entry, meta.
    rewrite lookup_insert_ne; [done|]. by intros ->. }
  pose proof (inv_nodup _ _ Hi) as Hn. apply NoDup_cons in Hn as [_ Hn].
  apply NoDup_app in Hn as (_ & HnL & Hn). apply NoDup_cons in Hn as [HnR _].
  rewrite He by (intros Hc; apply (HnL c Hc); apply elem_of_cons; auto).
  f_equal. change (entries ?hh (c :: R)) with (entry hh c :: entries hh R).
  rewrite He by done. f_equal. by rewrite (entry_Some _ _ _ (lookup_insert_eq _ _ _)).
Qed.

Lemma prev_raised s prev L R h :
  sl_inv s (L ++ R) -> length prev = maxHeight ->
  (forall i, (i < sl_height s)%nat -> prev !! i = Some (Some (pred s L i))) ->
  (1 <= h <= maxHeight)%nat ->
  forall i, (i < h)%nat ->
  (if decide (sl_height s < h)%nat
   then raisePrev (h - sl_height s) (sl_height s) (sl_head s) prev else prev) !! i
  = Some (Some (pred s L i)).
Proof.
  intros Hi Hl Hp Hh i Hih. case_decide as Hd.
  - rewrite raisePrev_spec by lia. case_decide as Hd'; [|apply Hp; lia].
    rewrite (pred_above s L R Hi); [done|lia].
  - apply Hp. lia.
Qed.

Lemma Put_insert s key value coin L R prev :
  sl_inv s (L ++ R) ->
  Forall (fun x => (entry (sl_heap s) x).1 <b key) L ->
  Forall (fun x => key <b (entry (sl_heap s) x).1) R ->
  length prev = maxHeight ->
  (forall i, (i < sl_height s)%nat -> prev !! i = Some (Some (pred s L i))) ->
  let h := randomHeight coin in
  let n := sl_brk s in
  exists h2,
    linkNode h 0
      (if decide (sl_height s < h)%nat
       then raisePrev (h - sl_height s) (sl_height s) (sl_head s) prev else prev)
      n (<[n := MkNode key value (replicate h None)]> (sl_heap s)) = Some h2
    /\ sl_inv (MkSkiplist h2 (S n) (sl_head s) (max (sl_height s) h) (sl_length s + 1))
              (L ++ n :: R)
    /\ entries h2 (L ++ n :: R) = ins key value (entries (sl_heap s) (L ++ R)).
Proof.
  intros Hi HL HR Hl Hp h n. pose proof (randomHeight_bound coin) as Hh. fold h in Hh.
  destruct (linkNode_spec (<[n := MkNode key value (replicate h None)]> (sl_heap s))
              (pred s L)
              (if decide (sl_height s < h)%nat
               then raisePrev (h - sl_height s) (sl_height s) (sl_head s) prev else prev)
              n h) with (todo := h) (i := 0%nat)
              (h := <[n := MkNode key value (replicate h None)]> (sl_heap s))
    as (h2 & E & Hlk).
  - by apply (prev_raised s prev L R h).
  - intros i Hih. pose proof (ins_pred_in s L R h Hh i) as Hin. split.
    + rewrite (hgt_meta (sl_heap s)); [apply (pred_hgt s L R Hi); lia|].
      by apply (ins_meta s key value L R h Hi Hh).
    + by apply (ins_ne s L R h Hi Hh).
  - apply ins_hgt_new.
  - lia.
  - split; [done|]. intros x j. by rewrite !decide_False by lia.
  - exists h2. split_and!; [done| |].
    + by apply (ins_inv s key value L R h).
    + by apply (ins_entries s key value L R h).
Qed.

Lemma Put_spec s m key value coin :
  repr s m -> exists s', Put s key value coin = Some s' /\ repr s' (ins key value m).
Proof.
  intros (ids & Hi & ->). destruct (inv_split s ids key Hi) as (L & R & -> & HL & HR).
  destruct (findPredecessors_spec s key L R Hi HL HR) as (prev & Ep & Hl & Hp).
  unfold Put. rewrite Ep. cbn [mbind option_bind].
  rewrite Hp by (pose proof (inv_height _ _ Hi); lia). cbn [mbind option_bind].
  rewrite (pred_next_0 s L R Hi). cbn [mbind option_bind].
  assert ((if decide (sl_height s < randomHeight coin)%nat
     then (raisePrev (randomHeight coin - sl_height s) (sl_height s) (sl_head s) prev,
           randomHeight coin)
     else (prev, sl_height s))
    = ((if decide (sl_height s < randomHeight coin)%nat
        then raisePrev (randomHeight coin - sl_height s) (sl_height s) (sl_head s) prev
        else prev), max (sl_height s) (randomHeight coin))) as Hpair.
  { case_decide; f_equal; lia. }
  destruct R as [|x R]; cbn [head].
  - cbn [mbind option_bind]. rewrite Hpair.
    destruct (Put_insert s key value coin L [] prev) as (h2 & -> & Hi2 & He2); [done..|].
    cbn [mbind option_bind]. eexists. split; [done|]. eexists. split; [exact Hi2|done].
  - destruct (inv_alloc s _ x Hi) as [nd Hnd]; [set_solver|].
    rewrite Hnd. cbn [mbind option_bind]. destruct (decide (nkey nd = key)) as [<-|Hne].
    + eexists. split; [done|]. exists (L ++ x :: R). split.
      * apply upd_inv; [done|set_solver|done].
      * cbn. rewrite (upd_entries s L R x nd value Hi Hnd).
        rewrite entries_app, ins_app_lt by by apply entries_lt. f_equal.
        change (entries ?hh (x :: R)) with (entry hh x :: entries hh R).
        rewrite (entry_Some _ _ _ Hnd). by rewrite ins_eq.
    + rewrite Hpair.
      pose proof (inv_head_gt s key L R x nd Hi HR Hnd Hne) as HR'.
      destruct (Put_insert s key value coin L (x :: R) prev) as (h2 & -> & Hi2 & He2); [done..|].
      cbn [mbind option_bind]. eexists. split; [done|]. eexists. split; [exact Hi2|done].
Qed.

Lemma lowerHeight_spec h hd ids height :
  (1 <= height <= maxHeight)%nat ->
  (forall x, x ∈ ids -> (hgt h x <= height)%nat) ->
  (forall i, (i < maxHeight)%nat -> nextAt h hd i = Some (head (lvl h i ids))) ->
  exists height', lowerHeight h hd height = Some height'
    /\ (1 <= height' <= height)%nat /\ (forall x, x ∈ ids -> (hgt h x <= height')%nat).
Proof.
  intros Hh Hx Hn. induction height as [|height IH]; [lia|].
  destruct height as [|height]; [exists 1%nat; cbn; split_and!; (done || lia)|].
  assert (lowerHeight h hd (S (S height))
    = (nx ← nextAt h hd (S height);
       match nx with
       | None => lowerHeight h hd (S height)
       | Some _ => Some (S (S height))
       end)) as -> by done.
  rewrite Hn by lia. cbn [mbind option_bind].
  destruct (lvl h (S height) ids) as [|y l] eqn:E; cbn [head].
  - destruct IH as (height' & -> & ? & ?); [lia| |].
    { intros x Hin. specialize (Hx x Hin).
      destruct (decide (hgt h x = S (S height))) as [Ey|]; [|lia].
      assert (x ∈ lvl h (S height) ids) as Hl by (apply elem_of_lvl; split; [lia|done]).
      rewrite E in Hl. by apply elem_of_nil in Hl. }
    exists height'. split_and!; (done || lia).
  - exists (S (S height)). split_and!; (done || lia).
Qed.

Section removal.
Context (s : Skiplist) (L R : list loc) (t : loc).
Hypothesis Hinv : sl_inv s (L ++ t :: R).

Lemma rem_pred_in i : pred s L i ∈ sl_head s :: L.
Proof.
  pose proof (pred_elem s L i) as H. rewrite elem_of_cons, elem_of_lvl in H.
  rewrite elem_of_cons. destruct H as [->|[_ ?]]; auto.
Qed.

Lemma rem_not_in x : x ∈ sl_head s :: L -> x <> t.
Proof.
  intros Hx ->. pose proof (inv_nodup _ _ Hinv) as Hnd. rewrite app_comm_cons in Hnd.
  apply NoDup_app in Hnd as (_ & Hnd & _). apply (Hnd t Hx). apply elem_of_cons. auto.
Qed.

Lemma rem_chain h1 i :
  (i < maxHeight)%nat ->
  unlinked_upto (sl_heap s) (pred s L) t (hgt (sl_heap s) t) h1 ->
  chain h1 i (sl_head s :: lvl h1 i (L ++ R)).
Proof.
  intros Hi [Hm Hx].
  rewrite (lvl_ext (sl_heap s) h1) by (intros x _; by apply hgt_meta).
  destruct (pred_chain s L (t :: R) Hinv i Hi) as [a [Ha Hc]].
  rewrite lvl_app, (app_comm_cons (lvl (sl_heap s) i L)), Ha, <- app_assoc. cbn.
  unfold lvl in Hc at 1. rewrite filter_cons in Hc. fold (lvl (sl_heap s) i R) in Hc.
  case_decide as Hit.
  - eapply chain_remove; [| |by rewrite Hx, decide_True|exact Hc].
    + pose proof (inv_nodup _ _ Hinv) as Hnd.
      rewrite cons_middle, app_assoc, <- Ha.
      apply (sublist_NoDup _ (sl_head s :: L ++ t :: R)); [done|].
      apply sublist_skip, sublist_app; [apply sublist_filter|].
      apply sublist_skip, sublist_filter.
    + intros y Hy _. rewrite Hx, decide_False by tauto. done.
  - eapply chain_frame; [|exact Hc]. intros y _. rewrite Hx, decide_False by lia. done.
Qed.

Lemma rem_inv h1 height' :
  unlinked_upto (sl_heap s) (pred s L) t (hgt (sl_heap s) t) h1 ->
  (1 <= height' <= sl_height s)%nat ->
  (forall x, x ∈ L ++ R -> (hgt h1 x <= height')%nat) ->
  sl_inv (MkSkiplist h1 (sl_brk s) (sl_head s) height' (sl_length s - 1)) (L ++ R).
Proof.
  intros Hu Hh Hx. pose proof Hu as [Hm _]. pose proof (inv_height _ _ Hinv).
  assert (forall x, x ∈ L ++ R -> x ∈ L ++ t :: R) as Hin
    by (intros x; rewrite !elem_of_app, elem_of_cons; tauto).
  split; cbn.
  - lia.
  - rewrite (hgt_meta (sl_heap s) h1) by done. apply (inv_head _ _ Hinv).
  - intros x Hxi. split; [|by apply Hx]. rewrite (hgt_meta (sl_heap s) h1) by done.
    apply (inv_hgt _ _ Hinv), Hin, Hxi.
  - apply (sublist_NoDup _ (sl_head s :: L ++ t :: R)); [apply (inv_nodup _ _ Hinv)|].
    by apply sublist_skip, sublist_app, sublist_cons.
  - intros x. rewrite elem_of_cons. intros Hxi. apply (inv_brk _ _ Hinv).
    apply elem_of_cons. destruct Hxi; auto.
  - intros i Hi. by apply rem_chain.
  - rewrite (entries_ext (sl_heap s) h1) by (intros x _; by apply entry_meta).
    pose proof (inv_sorted _ _ Hinv) as Hs. rewrite entries_app in Hs.
    change (entries ?hh (t :: R)) with (entry hh t :: entries hh R) in Hs.
    destruct (entry (sl_heap s) t) as [k v]. rewrite entries_app.
    apply sorted_keys_app in Hs as (Hs1 & Hs2 & Hs3). apply sorted_keys_cons in Hs2 as [_ Hs2].
    apply sorted_keys_app. split_and!; [done..|]. intros x y ? ?. apply Hs3; [done|].
    apply elem_of_cons. auto.
  - rewrite (inv_length _ _ Hinv). rewrite !len_app, len_cons. lia.
Qed.

End removal.

Lemma Delete_spec s m key :
  repr s m ->
  exists s', Delete s key = Some (bool_decide (is_Some (assoc key m)), s')
             /\ repr s' (del key m).
Proof.
  intros (ids & Hi & ->). destruct (inv_split s ids key Hi) as (L & R & -> & HL & HR).
  destruct (findPredecessors_spec s key L R Hi HL HR) as (prev & Ep & Hl & Hp).
  unfold Delete. rewrite Ep. cbn [mbind option_bind].
  rewrite Hp by (pose proof (inv_height _ _ Hi); lia). cbn [mbind option_bind].
  rewrite (pred_next_0 s L R Hi). cbn [mbind option_bind].
  rewrite entries_app, assoc_app_lt, del_app_lt by by apply entries_lt.
  assert (repr s (entries (sl_heap s) L ++ entries (sl_heap s) R)) as Hsame.
  { exists (L ++ R). by rewrite entries_app. }
  destruct R as [|x R]; cbn [head]; [by exists s|].
  change (entries ?hh (x :: R)) with (entry hh x :: entries hh R) in *.
  destruct (inv_alloc s _ x Hi) as [nd Hnd]; [set_solver|].
  rewrite Hnd. rewrite (entry_Some _ _ _ Hnd) in *. cbn [mbind option_bind assoc del].
  destruct (decide (nkey nd = key)) as [Ek|Hne].
  - assert (hgt (sl_heap s) x = length (nnext nd)) as Hhx by by apply hgt_Some.
    pose proof (inv_hgt _ _ Hi x ltac:(set_solver)) as Hxh.
    pose proof (inv_height _ _ Hi) as Hhh.
    destruct (unlinkNode_spec (sl_heap s) (pred s L) prev x (length (nnext nd)))
      with (todo := length (nnext nd)) (i := 0%nat) (h := sl_heap s) as (h1 & -> & Hu).
    + intros i Hil. apply Hp. lia.
    + intros i Hil. split; [apply (pred_hgt s L (x :: R) Hi); lia|].
      apply (rem_not_in s L R x Hi), rem_pred_in.
    + done.
    + lia.
    + split; [done|]. intros y j. by rewrite decide_False by lia.
    + cbn [mbind option_bind]. rewrite <- Hhx in Hu. pose proof Hu as [Hm _].
      destruct (lowerHeight_spec h1 (sl_head s) (L ++ R) (sl_height s))
        as (height' & -> & Hh' & Hx').
      * done.
      * intros y Hy. rewrite (hgt_meta (sl_heap s) h1) by done.
        apply (inv_hgt _ _ Hi). set_solver.
      * intros i Hil. by destruct (rem_chain s L R x Hi h1 i Hil Hu) as [H _].
      * cbn [mbind option_bind]. eexists. split; [done|]. eexists.
        split; [by apply (rem_inv s L R x)|]. cbn.
        rewrite (entries_ext (sl_heap s) h1) by (intros y _; by apply entry_meta).
        by rewrite entries_app.
  - exists s. pose proof (inv_head_gt s key L R x nd Hi HR Hnd Hne) as Hgt.
    apply Forall_cons in Hgt as [_ Hgt].
    assert (Forall (fun e => key <b e.1) (entries (sl_heap s) R)) as Hgt'
      by (apply Forall_fmap; exact Hgt).
    by rewrite assoc_gt, del_gt.
Qed.

(** ** The ordered-map interface *)

#[export] Instance skiplist_ordered_map : OrderedMap Skiplist loc := {|
  om_new := New;
  om_put := Put;
  om_get := Get;
  om_len := Len;
  om_iterate := fun A => @Iterate A;
  om_seekGE := SeekGE;
  om_next := Next;
  om_key := Key;
  om_value := Value
|}.

#[export] Instance skiplist_ordered_map_spec : OrderedMapSpec Skiplist loc := {|
  om_repr := repr;
  om_cursor := cursor_at;
  om_repr_sorted := repr_sorted;
  om_new_repr := New_repr;
  om_put_repr := Put_spec;
  om_get_repr := Get_spec;
  om_len_repr := repr_len;
  om_iterate_repr := fun s m A fn acc H => Iterate_spec s m fn acc H;
  om_seekGE_repr := SeekGE_spec;
  om_cursor_nil := cursor_at_nil;
  om_cursor_cons := cursor_at_cons
|}.

(** ** Properties *)

(** The operations that change a list. *)
Inductive op : Type :=
| OpPut (key value : bytes) (coin : nat -> bool)
| OpDelete (key : bytes).

Definition step (s : Skiplist) (o : op) : option Skiplist :=
  match o with
  | OpPut k v coin => Put s k v coin
  | OpDelete k => snd <$> Delete s k
  end.

Fixpoint run (ops : list op) (s : Skiplist) : option Skiplist :=
  match ops with
  | [] => Some s
  | o :: ops' => s' ← step s o; run ops' s'
  end.

(** The abstract specification: a finite map. *)
Definition spec_step (m : gmap bytes bytes) (o : op) : gmap bytes bytes :=
  match o with
  | OpPut k v _ => <[k := v]> m
  | OpDelete k => delete k m
  end.

Definition spec_run (ops : list op) : gmap bytes bytes := foldl spec_step ∅ ops.

(** [s] holds the finite map [g]. *)
Definition models (s : Skiplist) (g : gmap bytes bytes) : Prop :=
  exists m, repr s m /\ forall k, assoc k m = g !! k.

Lemma assoc_del k k' (m : list (bytes * bytes)) :
  sorted_keys m -> assoc k' (del k m) = if decide (k = k') then None else assoc k' m.
Proof.
  induction m as [|[k0 v0] m IH]; cbn; [by case_decide|].
  rewrite sorted_keys_cons. intros [H1 H2]. destruct (decide (k0 = k)) as [->|Hne].
  - destruct (decide (k = k')) as [->|]; [by apply assoc_gt|done].
  - cbn. rewrite IH by done. repeat case_decide; (done || congruence).
Qed.

Lemma step_models s g o : models s g -> exists s', step s o = Some s' /\ models s' (spec_step g o).
Proof.
  intros (m & Hr & Hm). pose proof (repr_sorted _ _ Hr) as Hs. destruct o as [k v coin|k]; cbn.
  - destruct (Put_spec s m k v coin Hr) as (s' & -> & Hr'). exists s'. split; [done|].
    eexists. split; [exact Hr'|]. intros k'. rewrite assoc_ins by done.
    rewrite lookup_insert. case_decide; auto.
  - destruct (Delete_spec s m k Hr) as (s' & -> & Hr'). exists s'. split; [done|].
    eexists. split; [exact Hr'|]. intros k'. rewrite assoc_del by done.
    rewrite lookup_delete. case_decide; auto.
Qed.

Lemma run_models ops : exists s, run ops New = Some s /\ models s (spec_run ops).
Proof.
  assert (models New ∅) as H0 by (exists []; split; [apply New_repr|done]).
  unfold spec_run. revert H0. generalize New as s, (∅ : gmap bytes bytes) as g.
  induction ops as [|o ops IH]; intros s g H; cbn; [eauto|].
  destruct (step_models s g o H) as (s' & -> & H'). cbn. auto.
Qed.

Lemma repr_models_elem (s : Skiplist) (m : list (bytes * bytes)) (g : gmap bytes bytes) :
  repr s m -> (forall k, assoc k m = g !! k) -> forall k v, (k, v) ∈ m <-> g !! k = Some v.
Proof.
  intros Hr Hm k v. rewrite <- Hm. symmetry. apply assoc_elem_of. eapply repr_sorted, Hr.
Qed.

(** C34. Refinement. Whatever sequence of [Put]s and [Delete]s is run from the
    empty list, with whatever coin flips, no operation panics and every loop
    ends; [Get] then answers as the finite map does, and [Iterate] yields the
    map's bindings in strictly ascending key order, [Len] of them. *)
Theorem skiplist_refines_map ops :
  exists s l,
    run ops New = Some s
    /\ (forall k, Get s k = Some (spec_run ops !! k))
    /\ Iterate s (fun k v acc => (acc ++ [(k, v)], true)) [] = Some l
    /\ sorted_keys l
    /\ (forall k v, (k, v) ∈ l <-> spec_run ops !! k = Some v)
    /\ Len s = len l.
Proof.
  destruct (run_models ops) as (s & Hs & m & Hr & Hm). exists s, m. split_and!.
  - done.
  - intros k. by rewrite (Get_spec s m k Hr), Hm.
  - rewrite (Iterate_spec s m _ _ Hr). rewrite (iter_list_collect (fun k v => (k, v))).
    cbn. f_equal. rewrite <- (list_fmap_id m) at 2. apply list_fmap_ext. by intros ? [].
  - eapply repr_sorted, Hr.
  - by apply (repr_models_elem s).
  - by apply repr_len.
Qed.

(** Seeking. On every reachable list [SeekGE target] returns the node of
    the least stored key that is at least [target], or nil exactly when there
    is none; [Next] moves from a node to the node of the next larger key. *)
Theorem skiplist_seek ops s target :
  run ops New = Some s ->
  exists c, SeekGE s target = Some c
    /\ match c with
       | None => forall k v, spec_run ops !! k = Some v -> k <b target
       | Some n =>
           exists k v, Key s n = Some k /\ Value s n = Some v
             /\ spec_run ops !! k = Some v /\ target <=b k
             /\ (forall k' v', spec_run ops !! k' = Some v' -> target <=b k' -> k <=b k')
             /\ exists c', Next s c = Some c'
                  /\ match c' with
                     | None => forall k' v', spec_run ops !! k' = Some v' -> k' <=b k
                     | Some n' => exists k2, Key s n' = Some k2 /\ k <b k2
                         /\ (forall k' v', spec_run ops !! k' = Some v' -> k <b k' -> k2 <=b k')
                     end
       end.
Proof.
  intros Hrun. destruct (run_models ops) as (s' & Hs' & m & Hr & Hm). simplify_eq.
  pose proof (repr_sorted _ _ Hr) as Hsort.
  pose proof (repr_models_elem s m _ Hr Hm) as Hel.
  destruct (SeekGE_spec s m target Hr) as (c & Hc & Hcur). exists c. split; [done|].
  assert (forall k v, (k, v) ∈ drop_lt target m <-> spec_run ops !! k = Some v /\ target <=b k)
    as Hdrop by (intros k v; by rewrite elem_of_drop_lt, Hel).
  destruct c as [n|].
  - destruct (cursor_at_cons _ _ _ Hcur) as (k & v & m' & E & HK & HV & c' & HN & Hcur').
    exists k, v. rewrite E in Hdrop.
    destruct (drop_lt_split target m) as (l & Em & _). rewrite E in Em.
    assert (Forall (fun e => k <b e.1) m' /\ sorted_keys m') as [Hm'1 Hm'2].
    { rewrite Em in Hsort. apply sorted_keys_app in Hsort as (_ & Hsort & _).
      by apply sorted_keys_cons in Hsort. }
    rewrite Forall_forall in Hm'1.
    destruct (proj1 (Hdrop k v) ltac:(apply elem_of_cons; auto)) as [Hk Ht].
    assert (forall k' v', spec_run ops !! k' = Some v' -> target <=b k' ->
              (k', v') = (k, v) \/ (k', v') ∈ m') as Hrest.
    { intros k' v' H1 H2. apply elem_of_cons, Hdrop. done. }
    split_and!; [done..| |].
    { intros k' v' H1 H2. destruct (Hrest k' v' H1 H2) as [[= -> _]|H]; [apply ble_refl|].
      apply blt_ble, (Hm'1 _ H). }
    exists c'. split; [done|]. destruct c' as [n'|].
    + destruct (cursor_at_cons _ _ _ Hcur') as (k2 & v2 & m2 & -> & HK2 & _ & _).
      exists k2. split_and!; [done|apply (Hm'1 (k2, v2)), elem_of_cons; auto|].
      intros k' v' H1 H2.
      destruct (Hrest k' v' H1 ltac:(border)) as [[= -> _]|H]; [by apply blt_irrefl in H2|].
      apply elem_of_cons in H as [[= -> _]|H]; [apply ble_refl|].
      apply sorted_keys_cons in Hm'2 as [Hm2 _]. rewrite Forall_forall in Hm2.
      apply blt_ble, (Hm2 _ H).
    + apply cursor_at_nil in Hcur' as ->. intros k' v' H1.
      destruct (decide (target <=b k')) as [H2|H2].
      * destruct (Hrest k' v' H1 H2) as [[= -> _]|H]; [apply ble_refl|by apply elem_of_nil in H].
      * apply not_ble in H2. border.
  - apply cursor_at_nil in Hcur. intros k v Hk. apply not_ble. intros Ht.
    rewrite Hcur in Hdrop. apply (elem_of_nil (k, v)), Hdrop. done.
Qed.

(** Three keys; the seek target lies between the first two. *)
Lemma skiplist_seek_witness :
  exists s, run [OpPut [x62] [x01] coinF; OpPut [x61] [x02] coinT; OpPut [x63] [x03] coinF] New
            = Some s
  /\ exists n k, SeekGE s [x61; x61] = Some (Some n) /\ Key s n = Some k /\ k = [x62].
Proof.
  set (ops := [OpPut [x62] [x01] coinF; OpPut [x61] [x02] coinT; OpPut [x63] [x03] coinF]).
  destruct (run ops New) as [s|] eqn:E; [|by vm_compute in E].
  exists s. split; [done|].
  destruct (skiplist_seek ops s [x61; x61] E) as ([n|] & Hc & H).
  - destruct H as (k & v & HK & _ & _ & _ & _). exists n, k. split_and!; [done..|].
    vm_compute in E. injection E as <-. vm_compute in Hc. injection Hc as <-.
    vm_compute in HK. by injection HK as <-.
  - exfalso. assert (spec_run ops !! [x62] = Some [x01]) as Hk by (vm_compute; reflexivity).
    specialize (H [x62] [x01] Hk). by vm_compute in H.
Defined.
