(* ===== verification/Versions.v ===== *)
(** * The abstract store of versions

    Memtables, SSTables and the whole LSM tree store versions of user keys.
    The specification of all of them is a finite map from (userKey, timestamp)
    to (op, value); a read at a snapshot sees the newest version that is not
    newer than the snapshot.  This file has the map, the visibility relation
    and the conditions on the stored keys under which the byte order of
    encoded keys can be trusted. *)

From Stdlib Require Import ZArith Lia.
From Stdlib Require Import Strings.Byte.
From stdpp Require Import base list gmap sorting.
From S2P Require Import Prelude.
From S2P Require Import MvccKey.

#[local] Open Scope Z_scope.
#[local] Open Scope bytes_scope.

(** The operation bytes of internal/memtable/memtable.go and
    internal/record/record.go. *)
Definition OpPut : byte := x01.
Definition OpDelete : byte := x02.
Definition OpCommit : byte := x03.

Abbreviation vmap := (gmap (bytes * Z) (byte * bytes)).

(** [ov] is what a read of [k] at snapshot [s] sees. *)
Definition visible (V : vmap) (k : bytes) (s t : Z) (ov : byte * bytes) : Prop :=
  V !! (k, t) = Some ov /\ t <= s
  /\ forall t' ov', V !! (k, t') = Some ov' -> t' <= s -> t' <= t.

(** No version of [k] is visible at [s]. *)
Definition invisible (V : vmap) (k : bytes) (s : Z) : Prop :=
  forall t ov, V !! (k, t) = Some ov -> s < t.

(** [t] is the timestamp of the newest version of [k]. *)
Definition newest (V : vmap) (k : bytes) (t : Z) : Prop :=
  is_Some (V !! (k, t)) /\ forall t', is_Some (V !! (k, t')) -> t' <= t.

(** What the read paths return for a version: tombstones carry no value. *)
Definition as_of_result (ov : byte * bytes) : bytes * byte :=
  if decide (ov.1 = OpDelete) then ([], OpDelete) else (ov.2, OpPut).

(** Stored keys are text (no 0xFF byte), timestamps below 2^56. *)
Definition text_map (V : vmap) : Prop :=
  forall k t, is_Some (V !! (k, t)) -> text_key k /\ small_ts t.

(** No stored key is a proper prefix of [k] or the other way round. *)
Definition prefix_free_at (V : vmap) (k : bytes) : Prop :=
  forall k' t, is_Some (V !! (k', t)) -> k' <> k ->
    ~ k `prefix_of` k' /\ ~ k' `prefix_of` k.

Definition prefix_free (V : vmap) : Prop :=
  forall k t, is_Some (V !! (k, t)) -> prefix_free_at V k.

Definition u64_map (V : vmap) : Prop := forall k t, is_Some (V !! (k, t)) -> is_u64 t.

(** [m] is the table of encoded keys that stores [V]. *)
Record encodes (V : vmap) (m : list (bytes * bytes)) : Prop := {
  enc_sorted : sorted_keys m;
  enc_u64 : u64_map V;
  enc_elem : forall k t op v, is_u64 t ->
      (Encode k t, op :: v) ∈ m <-> V !! (k, t) = Some (op, v);
  enc_shape : forall e, e ∈ m -> exists k t op v, is_u64 t /\ e = (Encode k t, op :: v)
}.

(** ** Lemmas *)

Lemma visible_unique V k s t1 ov1 t2 ov2 :
  visible V k s t1 ov1 -> visible V k s t2 ov2 -> t1 = t2 /\ ov1 = ov2.
Proof.
  intros (H1 & Hs1 & M1) (H2 & Hs2 & M2).
  assert (t1 = t2) as -> by (specialize (M1 _ _ H2 Hs2); specialize (M2 _ _ H1 Hs1); lia).
  split; [done|congruence].
Qed.

(** A key with a version at or below the snapshot has a visible one. *)
Lemma visible_exists V k s t :
  is_Some (V !! (k, t)) -> t <= s -> exists t' ov, visible V k s t' ov /\ t <= t'.
Proof.
  remember (Z.to_nat (s - t)) as n eqn:En. revert t En.
  induction n as [n IH] using lt_wf_ind. intros t -> [ov Hov] Hts.
  destruct (decide (map_Forall (fun kt _ => kt.1 = k -> kt.2 <= s -> kt.2 <= t) V)) as [Hall|Hno].
  - exists t, ov. split; [|lia]. split_and!; [done..|]. intros t' ov' H' Ht'. by apply (Hall (k, t') ov').
  - apply map_not_Forall in Hno as ([k' t'] & ov' & H' & Hn); [|intros; apply _]. cbn in Hn.
    destruct (decide (k' = k)) as [->|]; [|tauto].
    destruct (IH (Z.to_nat (s - t'))) with (t := t') as (t1 & ov1 & Hv & Hle); [lia|done|eauto|lia|].
    exists t1, ov1. split; [done|lia].
Qed.

Lemma newest_unique V k t1 t2 : newest V k t1 -> newest V k t2 -> t1 = t2.
Proof. intros [H1 M1] [H2 M2]. specialize (M1 _ H2). specialize (M2 _ H1). lia. Qed.

Lemma text_map_u64 V : text_map V -> u64_map V.
Proof. intros H k t Hk. apply small_ts_u64, (H k t Hk). Qed.

Lemma encodes_empty : encodes ∅ [].
Proof.
  split.
  - constructor.
  - intros k t [? H]. by rewrite lookup_empty in H.
  - intros k t op v _. rewrite lookup_empty. split; [|done]. intros H. by apply elem_of_nil in H.
  - intros e H. by apply elem_of_nil in H.
Qed.

Lemma encodes_insert V m k t op v :
  is_u64 t -> encodes V m -> encodes (<[(k, t) := (op, v)]> V) (ins (Encode k t) (op :: v) m).
Proof.
  intros Ht [Hs Hu He Hsh]. split.
  - by apply sorted_keys_ins.
  - intros k' t' [ov H]. rewrite lookup_insert in H. case_decide; [by simplify_eq|].
    apply (Hu k' t'). eauto.
  - intros k' t' op' v' Ht'. rewrite elem_of_ins by done. cbn.
    rewrite lookup_insert. case_decide as Hd.
    + injection Hd as <- <-. split.
      * intros [[= -> ->]|[_ ?]]; done.
      * intros [= -> ->]. auto.
    + rewrite <- He by done. split.
      * intros [[= E -> ->]|[? _]]; [|done]. apply Encode_inj in E as [-> ->]; done.
      * intros H. right. split; [done|]. intros E.
        apply Encode_inj in E as [-> ->]; done.
  - intros e H. apply elem_of_ins in H as [->|[H _]]; [|by apply Hsh|done].
    exists k, t, op, v. done.
Qed.

(** Decidable forms, for concrete maps. *)
Lemma text_map_check (V : vmap) :
  map_Forall (fun kt _ => text_key kt.1 /\ small_ts kt.2) V -> text_map V.
Proof. intros H k t [ov Hov]. exact (H (k, t) ov Hov). Qed.

Lemma prefix_free_at_check (V : vmap) (k : bytes) :
  map_Forall (fun kt _ => kt.1 = k \/ (~ k `prefix_of` kt.1 /\ ~ kt.1 `prefix_of` k)) V ->
  prefix_free_at V k.
Proof. intros H k' t [ov Hov] Hne. destruct (H (k', t) ov Hov) as [?|?]; done. Qed.

Lemma prefix_free_check (V : vmap) :
  map_Forall (fun kt0 _ => map_Forall (fun kt _ =>
    kt.1 = kt0.1 \/ (~ kt0.1 `prefix_of` kt.1 /\ ~ kt.1 `prefix_of` kt0.1)) V) V ->
  prefix_free V.
Proof. intros H k t [ov Hov]. apply prefix_free_at_check. exact (H (k, t) ov Hov). Qed.

(** The first entry at or after a seek target. *)
Lemma seek_first V m target e r :
  encodes V m -> drop_lt target m = e :: r ->
  exists k t op v, e = (Encode k t, op :: v) /\ is_u64 t /\ V !! (k, t) = Some (op, v)
    /\ target <=b Encode k t
    /\ forall k' t', is_Some (V !! (k', t')) -> target <=b Encode k' t' ->
         Encode k t <=b Encode k' t'.
Proof.
  intros [Hs Hu He Hsh] Hd.
  assert (e ∈ drop_lt target m) as Hin by (rewrite Hd; apply elem_of_cons; auto).
  apply elem_of_drop_lt in Hin as [Hin Ht]; [|done].
  destruct (Hsh e Hin) as (k & t & op & v & Hu' & ->). exists k, t, op, v.
  split_and!; [done..|by apply He|done|]. intros k' t' [[op' v'] H'] Hle.
  assert ((Encode k' t', op' :: v') ∈ drop_lt target m) as Hin'.
  { apply elem_of_drop_lt; [done|]. split; [|done]. apply He; [by apply (Hu k'); eauto|done]. }
  rewrite Hd in Hin'. apply elem_of_cons in Hin' as [[= E _ _]|Hin'].
  - rewrite E. apply ble_refl.
  - destruct (drop_lt_split target m) as (l & El & _). rewrite Hd in El. rewrite El in Hs.
    apply sorted_keys_app in Hs as (_ & Hs & _). apply sorted_keys_cons in Hs as [Hs _].
    rewrite Forall_forall in Hs. apply blt_ble, (Hs _ Hin').
Qed.

Lemma seek_none V m target :
  encodes V m -> drop_lt target m = [] ->
  forall k t, is_Some (V !! (k, t)) -> Encode k t <b target.
Proof.
  intros [Hs Hu He Hsh] Hd k t [[op v] H]. apply not_ble. intros Hle.
  assert ((Encode k t, op :: v) ∈ drop_lt target m) as Hin.
  { apply elem_of_drop_lt; [done|]. split; [|done]. apply He; [by apply (Hu k); eauto|done]. }
  rewrite Hd in Hin. by apply elem_of_nil in Hin.
Qed.

(** The seek of a read lands on the visible version, if there is one. *)
Definition seek_result (m : list (bytes * bytes)) (k : bytes) (s : Z) : option (bytes * bytes) :=
  match drop_lt (Encode k s) m with
  | e :: _ => if decide (UserKey e.1 = k) then Some e else None
  | [] => None
  end.

(** Foreign keys do not separate versions of [k] in the byte order. *)
Definition clustered_at (V : vmap) (k : bytes) : Prop :=
  forall k' t' s t, is_Some (V !! (k', t')) -> is_Some (V !! (k, t)) ->
    s < 2 ^ 56 -> 0 <= s ->
    Encode k s <=b Encode k' t' -> Encode k' t' <=b Encode k t -> k' = k.

Lemma text_clustered V k : text_map V -> clustered_at V k.
Proof.
  intros HV k' t' s t H' H ? ? H1 H2. destruct (HV _ _ H'), (HV _ _ H).
  by eapply (Encode_between k k' s t t').
Qed.

Lemma prefix_free_clustered V k : prefix_free_at V k -> clustered_at V k.
Proof.
  intros HV k' t' s t H' _ _ _ H1 H2. destruct (decide (k' = k)) as [|Hne]; [done|].
  destruct (HV k' t' H' Hne) as [Hp1 Hp2]. exfalso. unfold Encode, ble in H1, H2.
  rewrite bcompare_diverge in H1 by done. rewrite bcompare_diverge in H2 by done.
  rewrite (bcompare_antisym k k') in H2.
  destruct (bcompare k k') eqn:E; cbn in *; try done.
  apply bcompare_eq in E. done.
Qed.

Lemma seek_visible V m k s :
  encodes V m -> clustered_at V k -> 0 <= s < 2 ^ 56 ->
  (exists t op v, visible V k s t (op, v) /\ seek_result m k s = Some (Encode k t, op :: v))
  \/ (invisible V k s /\ seek_result m k s = None).
Proof.
  intros Henc Hcl Hs. unfold seek_result.
  assert (is_u64 s) as Hus by (unfold is_u64; lia).
  pose proof (enc_u64 _ _ Henc) as Hu.
  destruct (drop_lt (Encode k s) m) as [|e r] eqn:Hd.
  - right. split; [|done]. intros t ov Ht.
    pose proof (seek_none V m _ Henc Hd k t (ex_intro _ _ Ht)) as Hlt.
    apply blt_Encode_same in Hlt; [done|apply (Hu k); eauto|done].
  - destruct (seek_first V m _ e r Henc Hd) as (k' & t & op & v & -> & Ht & HV & Hle & Hmin).
    cbn [fst]. rewrite UserKey_Encode. destruct (decide (k' = k)) as [->|Hne].
    + left. exists t, op, v. split; [|done]. apply ble_Encode_same in Hle; [|done..].
      split_and!; [done..|]. intros t' ov' HV' Ht'.
      assert (is_u64 t') as Hu' by (apply (Hu k); eauto).
      apply (ble_Encode_same k); [done..|]. apply Hmin; [eauto|]. by apply ble_Encode_same.
    + right. split; [|done]. intros t' ov' HV'. apply Z.nle_gt. intros Ht'.
      assert (is_u64 t') as Hu' by (apply (Hu k); eauto).
      apply Hne. apply (Hcl k' t s t'); [eauto|eauto|lia|lia|done|].
      apply Hmin; [eauto|]. by apply ble_Encode_same.
Qed.

Lemma ble_zeros n l : (n <= length l)%nat -> replicate n x00 <=b l.
Proof.
  revert l. induction n as [|n IH]; intros l Hl; cbn.
  - destruct l; [apply ble_refl|by apply blt_ble].
  - destruct l as [|y l]; cbn in Hl; [lia|]. unfold ble. cbn.
    destruct (Z.compare_spec 0 (b2z y)) as [E|E|E].
    + rewrite <- E. apply IH. lia.
    + destruct (b2z y); (lia || done).
    + pose proof (b2z_bound y). lia.
Qed.

Lemma Encode_max k : Encode k max_u64 = k ++ replicate 8 x00.
Proof. unfold Encode. f_equal. Qed.

(** [Encode k max_u64] is below every encoding of [k] and of its extensions. *)
Lemma Encode_max_le k r t : Encode k max_u64 <=b Encode (k ++ r) t.
Proof.
  rewrite Encode_max. unfold Encode. rewrite <- app_assoc. apply ble_app_l, ble_zeros.
  rewrite length_app, length_be_bytes. unfold TimestampSize. lia.
Qed.

Lemma seek_newest V m k :
  encodes V m -> text_map V -> text_key k ->
  (forall k' t, is_Some (V !! (k', t)) -> k `prefix_of` k' -> k' = k) ->
  (exists t op v, newest V k t /\ seek_result m k max_u64 = Some (Encode k t, op :: v))
  \/ ((forall t, V !! (k, t) = None) /\ seek_result m k max_u64 = None).
Proof.
  intros Henc Htx Hk Hext. unfold seek_result. pose proof (enc_u64 _ _ Henc) as Hu.
  assert (forall t, Encode k max_u64 <=b Encode k t) as Hmax
    by (intros t; pose proof (Encode_max_le k [] t) as Hm; by rewrite app_nil_r in Hm).
  destruct (drop_lt (Encode k max_u64) m) as [|e r] eqn:Hd.
  - right. split; [|done]. intros t. apply eq_None_not_Some. intros Ht.
    pose proof (seek_none V m _ Henc Hd k t Ht) as Hlt. apply not_ble in Hlt. apply Hlt, Hmax.
  - destruct (seek_first V m _ e r Henc Hd) as (k' & t & op & v & -> & Ht & HV & Hle & Hmin).
    cbn [fst]. rewrite UserKey_Encode. destruct (decide (k' = k)) as [->|Hne].
    + left. exists t, op, v. split; [|done]. split; [eauto|]. intros t' Ht'.
      assert (is_u64 t') as Hu' by (by apply (Hu k)).
      apply (ble_Encode_same k); [done..|]. by apply Hmin.
    + right. split; [|done]. intros t'. apply eq_None_not_Some. intros Ht'. apply Hne.
      destruct (Htx k' t ltac:(eauto)) as [Hk' Hst].
      pose proof (Hmin k t' Ht' (Hmax t')) as Hup. rewrite Encode_max in Hle.
      unfold Encode in Hup at 2.
      destruct (ble_between_prefix k _ _ _ Hle Hup) as [c Hc].
      destruct (Encode_ff k' t Hst) as [r' Hr']. rewrite Hr', <- app_assoc in Hc.
      destruct (app_eq_inv _ _ _ _ Hc) as [(l & -> & Hl)|(l & -> & Hl)].
      * apply (Hext (k ++ l) t); [eauto|]. by exists l.
      * destruct l as [|y l]; [by rewrite app_nil_r|]. cbn in Hl. injection Hl as <- _.
        exfalso. unfold text_key in Hk. rewrite Forall_app in Hk. destruct Hk as [_ Hk].
        by inversion Hk.
Qed.

(** An extension of [k] by a byte below 0xFF hides every version of [k] from
    the seek. *)
Lemma seek_newest_hidden V m k c r t' :
  encodes V m -> text_map V -> is_Some (V !! (k ++ c :: r, t')) ->
  seek_result m k max_u64 = None.
Proof.
  intros Henc Htx Hx. unfold seek_result.
  destruct (drop_lt (Encode k max_u64) m) as [|e rest] eqn:Hd; [done|].
  destruct (seek_first V m _ e rest Henc Hd) as (k' & t & op & v & -> & Ht & HV & Hle & Hmin).
  cbn [fst]. rewrite UserKey_Encode. rewrite decide_False; [done|]. intros ->.
  pose proof (Hmin _ _ Hx (Encode_max_le k (c :: r) t')) as Hup.
  destruct (Htx _ _ Hx) as [Hkt _]. destruct (Htx k t ltac:(eauto)) as [_ Hst].
  apply (blt_irrefl (Encode k t)). eapply ble_blt_trans; [exact Hup|].
  unfold text_key in Hkt. rewrite Forall_app in Hkt. destruct Hkt as [_ Hkt].
  inversion Hkt; subst. by apply Encode_ext_lt.
Qed.

(** ** Range reads *)

(** The bounds of a range read: [None] is Go's nil. *)
Definition past_end (end_ : option bytes) (uk : bytes) : bool :=
  match end_ with Some e => bool_decide (e <=b uk) | None => false end.

Definition start_target (start : option bytes) : bytes :=
  match start with Some s => Encode s max_u64 | None => [] end.

Definition in_range (start end_ : option bytes) (k : bytes) : Prop :=
  match start with Some s => s <=b k | None => True end
  /\ match end_ with Some e => k <b e | None => True end.

(** A walk in table order that stops at the first key past the end. *)
Fixpoint range_list {A} (end_ : option bytes) (l : list (bytes * A)) : list (bytes * A) :=
  match l with
  | [] => []
  | e :: l' => if past_end end_ (UserKey e.1) then [] else e :: range_list end_ l'
  end.

Definition range_of {A} (start end_ : option bytes) (l : list (bytes * A)) : list (bytes * A) :=
  range_list end_ (drop_lt (start_target start) l).

Definition encoded_keys {A} (l : list (bytes * A)) : Prop :=
  Forall (fun e => exists k t, is_u64 t /\ e.1 = Encode k t) l.

(** No stored user key is a proper prefix of another. *)
Definition keys_prefix_free {A} (l : list (bytes * A)) : Prop :=
  forall e e', e ∈ l -> e' ∈ l -> UserKey e.1 <> UserKey e'.1 ->
    ~ UserKey e.1 `prefix_of` UserKey e'.1.

Definition start_ok {A} (start : option bytes) (l : list (bytes * A)) : Prop :=
  match start with
  | Some s => forall e, e ∈ l -> UserKey e.1 `prefix_of` s -> UserKey e.1 = s
  | None => True
  end.

Lemma encodes_encoded_keys V l : encodes V l -> encoded_keys l.
Proof.
  intros He. apply Forall_forall. intros e Hin.
  destruct (enc_shape _ _ He _ Hin) as (k & t & op & v & Ht & ->). eauto.
Qed.

Lemma encodes_prefix_free V l : encodes V l -> prefix_free V -> keys_prefix_free l.
Proof.
  intros He HV e e' H H' Hne.
  destruct (enc_shape _ _ He _ H) as (k & t & op & v & Ht & ->).
  destruct (enc_shape _ _ He _ H') as (k' & t' & op' & v' & Ht' & ->). cbn [fst] in *.
  apply (enc_elem _ _ He) in H; [|done]. apply (enc_elem _ _ He) in H'; [|done].
  rewrite !UserKey_Encode in *. apply (HV k t ltac:(eauto) k' t'); [eauto|done].
Qed.

Lemma encodes_start_ok V l start :
  encodes V l ->
  (forall k t, is_Some (V !! (k, t)) ->
     match start with Some s => k `prefix_of` s -> k = s | None => True end) ->
  start_ok start l.
Proof.
  intros He Hst. destruct start as [s|]; [|done]. intros x Hin.
  destruct (enc_shape _ _ He _ Hin) as (k & t & op & v & Ht & ->).
  apply (enc_elem _ _ He) in Hin; [|done]. cbn [fst]. rewrite UserKey_Encode.
  apply (Hst k t). eauto.
Qed.

Lemma past_end_false end_ k :
  past_end end_ k = false <-> match end_ with Some e => k <b e | None => True end.
Proof.
  destruct end_ as [e|]; [|done]. unfold past_end. rewrite bool_decide_eq_false. apply not_ble.
Qed.

(** Seeking the start bound is exact when no stored key is a proper prefix of
    it. *)
Lemma start_target_le start k t :
  (match start with Some s => k `prefix_of` s -> k = s | None => True end) ->
  start_target start <=b Encode k t
  <-> match start with Some s => s <=b k | None => True end.
Proof.
  destruct start as [s|]; cbn.
  - intros Hp. destruct (decide (s `prefix_of` k)) as [[r ->]|Hnp].
    + split; intros _; [|apply Encode_max_le].
      rewrite <- (app_nil_r s) at 1. apply ble_app_l. by destruct r.
    + assert (~ k `prefix_of` s) as Hnp' by (intros H; apply Hnp; by rewrite (Hp H)).
      unfold Encode, ble. by rewrite bcompare_diverge.
  - intros _. split; [done|]. intros _. by destruct (Encode k t).
Qed.

Lemma prefix_free_user_mono {A} (l : list (bytes * A)) e e' :
  encoded_keys l -> keys_prefix_free l -> e ∈ l -> e' ∈ l -> e.1 <b e'.1 ->
  UserKey e.1 <=b UserKey e'.1.
Proof.
  intros Hl Hp H H' Hlt. destruct (decide (UserKey e.1 = UserKey e'.1)) as [->|Hne];
    [apply ble_refl|].
  pose proof (Hp _ _ H H' Hne) as P1. pose proof (Hp _ _ H' H (not_eq_sym Hne)) as P2.
  unfold encoded_keys in Hl. rewrite Forall_forall in Hl.
  destruct (Hl _ H) as (k & t & Ht & Ek), (Hl _ H') as (k' & t' & Ht' & Ek').
  rewrite Ek, Ek', ?UserKey_Encode in *. unfold Encode, blt in Hlt.
  rewrite bcompare_diverge in Hlt by done. by apply blt_ble.
Qed.

Lemma range_list_elem {A} end_ (l : list (bytes * A)) e :
  sorted_keys l -> encoded_keys l -> keys_prefix_free l ->
  e ∈ range_list end_ l <-> e ∈ l /\ past_end end_ (UserKey e.1) = false.
Proof.
  induction l as [|x l IH]; intros Hs He Hp; cbn [range_list].
  - rewrite elem_of_nil. tauto.
  - assert (keys_prefix_free l) as Hp'.
    { intros a b Ha Hb. apply Hp; apply elem_of_cons; auto. }
    pose proof He as He0. apply Forall_cons in He0 as [_ He'].
    destruct x as [xk xv]. apply sorted_keys_cons in Hs as [Hlt Hs'].
    destruct (past_end end_ (UserKey (xk, xv).1)) eqn:Hpe.
    + split; [intros H; by apply elem_of_nil in H|]. intros [Hin Hf]. exfalso.
      apply elem_of_cons in Hin as [->|Hin]; [congruence|].
      assert (UserKey (xk, xv).1 <=b UserKey e.1) as Hle.
      { apply (prefix_free_user_mono ((xk, xv) :: l)); try done; try (apply elem_of_cons; auto).
        rewrite Forall_forall in Hlt. by apply Hlt. }
      destruct end_ as [b|]; [|done]. unfold past_end in *.
      apply bool_decide_eq_true in Hpe. apply bool_decide_eq_false in Hf.
      apply Hf. border.
    + rewrite !elem_of_cons, IH by done. split; [intros [->|[? ?]]; auto|].
      intros [[->|?] ?]; auto.
Qed.

(** With prefix-free keys a range read returns exactly the range. *)
Lemma range_of_elem {A} start end_ (l : list (bytes * A)) e :
  sorted_keys l -> encoded_keys l -> keys_prefix_free l -> start_ok start l ->
  e ∈ range_of start end_ l <-> e ∈ l /\ in_range start end_ (UserKey e.1).
Proof.
  intros Hs He Hp Hst. unfold range_of.
  destruct (drop_lt_split (start_target start) l) as (p & El & _).
  assert (forall x, x ∈ drop_lt (start_target start) l -> x ∈ l) as Hsub
    by (intros x; rewrite elem_of_drop_lt by done; tauto).
  rewrite range_list_elem, elem_of_drop_lt, past_end_false; [|done| | |].
  - unfold in_range. unfold encoded_keys in He. rewrite Forall_forall in He. split.
    + intros [[Hin Ht] Hend]. split_and!; [done| |done].
      destruct (He _ Hin) as (k & t & Hu & Ek). rewrite Ek, UserKey_Encode in *.
      apply (start_target_le start k t); [|done]. destruct start as [s|]; [|done].
      intros Hpr. specialize (Hst _ Hin). rewrite Ek, UserKey_Encode in Hst. auto.
    + intros (Hin & Hstart & Hend). split_and!; [done| |done].
      destruct (He _ Hin) as (k & t & Hu & Ek). rewrite Ek, UserKey_Encode in *.
      apply (start_target_le start k t); [|done]. destruct start as [s|]; [|done].
      intros Hpr. specialize (Hst _ Hin). rewrite Ek, UserKey_Encode in Hst. auto.
  - rewrite El in Hs. by apply sorted_keys_app in Hs as (_ & ? & _).
  - unfold encoded_keys in *. rewrite Forall_forall in *. auto.
  - intros a b Ha Hb. apply Hp; auto.
Qed.

Lemma range_list_prefix {A} end_ (l : list (bytes * A)) : range_list end_ l `prefix_of` l.
Proof.
  induction l as [|x l IH]; cbn; [done|]. case_match; [apply prefix_nil|]. by apply prefix_cons.
Qed.

Lemma sorted_range_of {A} start end_ (l : list (bytes * A)) :
  sorted_keys l -> sorted_keys (range_of start end_ l).
Proof.
  intros Hs. unfold range_of. destruct (drop_lt_split (start_target start) l) as (p & El & _).
  rewrite El in Hs. apply sorted_keys_app in Hs as (_ & Hs & _).
  destruct (range_list_prefix end_ (drop_lt (start_target start) l)) as [r Er].
  rewrite Er in Hs. by apply sorted_keys_app in Hs as (? & _).
Qed.

(** A stored extension of [k] at or past the end bound ends the walk before
    any version of [k] is reached. *)
Lemma range_of_misses {A} start e k c r t' v' t (v : A) (l : list (bytes * A)) :
  sorted_keys l -> text_key (c :: r) -> small_ts t ->
  (Encode (k ++ c :: r) t', v') ∈ l -> e <=b k ++ c :: r ->
  (match start with Some s => s `prefix_of` k | None => True end) ->
  (Encode k t, v) ∉ range_of start (Some e) l.
Proof.
  intros Hs Hc Ht Hx He Hst Hin. unfold range_of in Hin.
  assert ((Encode (k ++ c :: r) t', v') ∈ drop_lt (start_target start) l) as Hx'.
  { apply elem_of_drop_lt; [done|]. split; [done|]. destruct start as [s|]; cbn.
    - destruct Hst as [q ->]. rewrite <- app_assoc. apply Encode_max_le.
    - by destruct (Encode (k ++ c :: r) t'). }
  assert (sorted_keys (drop_lt (start_target start) l)) as Hs'.
  { destruct (drop_lt_split (start_target start) l) as (p & El & _). rewrite El in Hs.
    by apply sorted_keys_app in Hs as (_ & ? & _). }
  assert (Encode (k ++ c :: r) t' <b Encode k t) as Hlt.
  { inversion Hc; subst. by apply Encode_ext_lt. }
  clear Hs Hx. induction (drop_lt (start_target start) l) as [|[yk yv] l' IH]; [by apply elem_of_nil in Hx'|].
  cbn [range_list] in Hin. apply sorted_keys_cons in Hs' as [Hy Hs'].
  apply elem_of_cons in Hx' as [[= <- <-]|Hx'].
  - cbn [fst] in Hin. rewrite UserKey_Encode in Hin. unfold past_end in Hin.
    rewrite bool_decide_true in Hin by done. by apply elem_of_nil in Hin.
  - destruct (past_end (Some e) _); [by apply elem_of_nil in Hin|].
    apply elem_of_cons in Hin as [[= <- <-]|Hin]; [|by apply IH].
    rewrite Forall_forall in Hy. apply Hy in Hx'. cbn in Hx'.
    eapply blt_irrefl. etrans; [exact Hx'|done].
Qed.
