(* ===== verification/Memtable.v ===== *)
(** * The memtable (internal/memtable/memtable.go, internal/memtable/scan.go)

    The write buffer: an ordered map of MVCC-encoded keys, a byte count and a
    frozen flag.  Everything is proved against the interface of OrderedMap.v;
    the abstract state is the version map of Versions.v.  The mutex makes every
    method atomic, so a method is one function on the state. *)

From Stdlib Require Import ZArith Lia.
From Stdlib Require Import Strings.Byte.
From stdpp Require Import base list gmap sorting.
From S2P Require Import Prelude.
From S2P Require Import MvccKey.
From S2P Require Import OrderedMap.
From S2P Require Import Skiplist.
From S2P Require Import Versions.

#[local] Open Scope Z_scope.
#[local] Open Scope bytes_scope.

Module Memtable.

Definition entryOverhead : Z := 64.

Inductive mem_error := ErrFrozen.

(** [value] of the source is packed behind the op byte. *)
Definition encodeValue (op : byte) (value : bytes) : bytes := op :: value.

Definition decodeValue (stored : bytes) : byte * bytes :=
  match stored with
  | [] => (x00, [])
  | op :: raw => (op, raw)
  end.

Record VersionEntry := { EncKey : bytes; Value : bytes; Op : byte }.

Section memtable.
Context {T C : Type} {OM : OrderedMap T C}.

Record Memtable := { mt_sl : T; mt_size : Z; mt_frozen : bool }.

Definition New : Memtable := {| mt_sl := om_new; mt_size := 0; mt_frozen := false |}.

Definition writeLocked (m : Memtable) (userKey value : bytes) (op : byte) (ts : Z)
  (coin : nat -> bool) : option Memtable :=
  let encKey := Encode userKey ts in
  let stored := encodeValue op value in
  old ← om_get (mt_sl m) encKey;
  let size :=
    match old with
    | Some oldStored => i64 (mt_size m - (len encKey + len oldStored + entryOverhead))
    | None => mt_size m
    end in
  sl ← om_put (mt_sl m) encKey stored coin;
  Some {| mt_sl := sl; mt_size := i64 (size + (len encKey + len stored + entryOverhead));
          mt_frozen := mt_frozen m |}.

Definition Put (m : Memtable) (userKey value : bytes) (ts : Z) (coin : nat -> bool)
  : outcome mem_error Memtable :=
  if mt_frozen m then Err ErrFrozen
  else of_opt (writeLocked m userKey value OpPut ts coin).

Definition Delete (m : Memtable) (userKey : bytes) (ts : Z) (coin : nat -> bool)
  : outcome mem_error Memtable :=
  if mt_frozen m then Err ErrFrozen
  else of_opt (writeLocked m userKey [] OpDelete ts coin).

(** [Some None] is [found = false]. *)
Definition GetAsOf (m : Memtable) (userKey : bytes) (snapshot : Z)
  : option (option (bytes * byte)) :=
  let target := Encode userKey snapshot in
  node ← om_seekGE (mt_sl m) target;
  match node with
  | None => Some None
  | Some n =>
      key ← om_key (mt_sl m) n;
      match Decode key with
      | None => Some None
      | Some (nodeUserKey, _) =>
          if decide (nodeUserKey = userKey) then
            stored ← om_value (mt_sl m) n;
            let '(op, raw) := decodeValue stored in
            if decide (op = OpDelete) then Some (Some ([], OpDelete))
            else Some (Some (raw, OpPut))
          else Some None
      end
  end.

Definition ApproximateSize (m : Memtable) : Z := mt_size m.

Definition Len (m : Memtable) : Z := om_len (mt_sl m).

Definition Freeze (m : Memtable) : Memtable :=
  {| mt_sl := mt_sl m; mt_size := mt_size m; mt_frozen := true |}.

Definition IsFrozen (m : Memtable) : bool := mt_frozen m.

(** The callback gets userKey, value, op and timestamp; its [bool] result says
    whether to go on, [A] is what it accumulates. *)
Definition Iterate {A} (m : Memtable) (fn : bytes -> bytes -> byte -> Z -> A -> A * bool)
  (acc : A) : option A :=
  om_iterate A (mt_sl m)
    (fun encKey stored acc =>
       let '(userKey, ts) := default ([], 0) (Decode encKey) in
       let '(op, raw) := decodeValue stored in
       fn userKey raw op ts acc) acc.

Definition NewestVersionTS (m : Memtable) (userKey : bytes) : option (option Z) :=
  let target := Encode userKey max_u64 in
  node ← om_seekGE (mt_sl m) target;
  match node with
  | None => Some None
  | Some n =>
      key ← om_key (mt_sl m) n;
      match Decode key with
      | None => Some None
      | Some (nodeUserKey, nodeTS) =>
          if decide (nodeUserKey = userKey) then Some (Some nodeTS) else Some None
      end
  end.

(** The two cursor loops; [fuel] bounds the nodes visited, and the number of
    stored entries plus one is enough. *)
Definition loopFuel (m : Memtable) : nat := S (Z.to_nat (om_len (mt_sl m))).

Fixpoint versionCount_loop (fuel : nat) (s : T) (n : option C) (userKey : bytes) (count : Z)
  : option Z :=
  match fuel with
  | O => None
  | S fuel' =>
      match n with
      | None => Some count
      | Some c =>
          key ← om_key s c;
          match Decode key with
          | None => Some count
          | Some (nodeUserKey, _) =>
              if decide (nodeUserKey = userKey) then
                n' ← om_next s n;
                versionCount_loop fuel' s n' userKey (count + 1)
              else Some count
          end
      end
  end.

Definition VersionCountForTesting (m : Memtable) (userKey : bytes) : option Z :=
  n ← om_seekGE (mt_sl m) (Encode userKey max_u64);
  versionCount_loop (loopFuel m) (mt_sl m) n userKey 0.

(** [None] for [end_] is Go's nil: no bound. *)
Fixpoint rangeSnapshot_loop (fuel : nat) (s : T) (n : option C) (end_ : option bytes)
  (out : list VersionEntry) : option (list VersionEntry) :=
  match fuel with
  | O => None
  | S fuel' =>
      match n with
      | None => Some out
      | Some c =>
          enc ← om_key s c;
          match Decode enc with
          | None =>
              n' ← om_next s n;
              rangeSnapshot_loop fuel' s n' end_ out
          | Some (uk, _) =>
              if (match end_ with Some e => bool_decide (e <=b uk) | None => false end)
              then Some out
              else
                stored ← om_value s c;
                let '(op, raw) := decodeValue stored in
                n' ← om_next s n;
                rangeSnapshot_loop fuel' s n' end_
                  (out ++ [{| EncKey := enc; Value := raw; Op := op |}])
          end
      end
  end.

Definition RangeSnapshot (m : Memtable) (start end_ : option bytes)
  : option (list VersionEntry) :=
  let target := match start with Some s => Encode s max_u64 | None => [] end in
  n ← om_seekGE (mt_sl m) target;
  rangeSnapshot_loop (loopFuel m) (mt_sl m) n end_ [].

End memtable.
Arguments Memtable T : clear implicits.

(** ** Specification *)

(** What [ApproximateSize] is meant to count. *)
Definition cost (kt : bytes * Z) (ov : byte * bytes) : Z :=
  len kt.1 + TimestampSize + (1 + len ov.2) + entryOverhead.

Definition footprint (V : vmap) : Z := map_fold (fun kt ov acc => cost kt ov + acc) 0 V.

Lemma footprint_empty : footprint ∅ = 0.
Proof. apply map_fold_empty. Qed.

Lemma footprint_insert_new V kt ov :
  V !! kt = None -> footprint (<[kt := ov]> V) = cost kt ov + footprint V.
Proof.
  intros H. unfold footprint. rewrite map_fold_insert_L; [done| |done].
  intros; lia.
Qed.

Lemma footprint_nonneg V : 0 <= footprint V.
Proof.
  induction V as [|kt ov V Hn IH] using map_ind; [by rewrite footprint_empty|].
  rewrite footprint_insert_new by done. unfold cost, TimestampSize, entryOverhead.
  pose proof (len_nonneg kt.1). pose proof (len_nonneg ov.2). lia.
Qed.

Lemma footprint_delete V kt ov :
  V !! kt = Some ov -> footprint V = cost kt ov + footprint (delete kt V).
Proof.
  intros H. rewrite <- footprint_insert_new by apply lookup_delete_eq.
  rewrite insert_delete_eq. by rewrite insert_id.
Qed.

Lemma footprint_insert V kt ov :
  footprint (<[kt := ov]> V)
  = footprint V + cost kt ov - match V !! kt with Some ov' => cost kt ov' | None => 0 end.
Proof.
  rewrite <- insert_delete_eq, footprint_insert_new by apply lookup_delete_eq.
  destruct (V !! kt) as [ov'|] eqn:E.
  - rewrite (footprint_delete V kt ov' E). lia.
  - rewrite delete_id by done. lia.
Qed.

Section spec.
Context {T C : Type} {OM : OrderedMap T C} {OMS : OrderedMapSpec T C}.

(** The memtable [m] holds exactly the versions [V]. *)
Record models (m : Memtable T) (V : vmap) (l : list (bytes * bytes)) : Prop := {
  models_repr : om_repr (mt_sl m) l;
  models_encodes : encodes V l;
  models_size : mt_size m = i64 (footprint V);
  models_len : length l = size V
}.

Lemma New_models : models New ∅ [].
Proof.
  split; [apply om_new_repr|apply encodes_empty|done|]. by rewrite map_size_empty.
Qed.

Lemma assoc_encodes V l k t :
  encodes V l -> is_u64 t ->
  assoc (Encode k t) l = (fun ov : byte * bytes => ov.1 :: ov.2) <$> V !! (k, t).
Proof.
  intros He Ht. destruct (V !! (k, t)) as [[op v]|] eqn:E; cbn.
  - apply assoc_elem_of; [apply He|]. by apply He.
  - destruct (assoc (Encode k t) l) as [w|] eqn:E'; [|done].
    apply assoc_elem_of in E'; [|apply He].
    destruct (enc_shape _ _ He _ E') as (k' & t' & op & v & Ht' & [= E1 ->]).
    apply Encode_inj in E1 as [<- <-]; [|done..].
    apply (enc_elem _ _ He) in E'; [|done]. by rewrite E in E'.
Qed.

Lemma writeLocked_models m V l k v op ts coin :
  models m V l -> is_u64 ts ->
  exists m' l', writeLocked m k v op ts coin = Some m'
    /\ models m' (<[(k, ts) := (op, v)]> V) l' /\ mt_frozen m' = mt_frozen m.
Proof.
  intros [Hr He Hs Hl] Ht. unfold writeLocked, encodeValue.
  rewrite (om_get_repr _ l) by done. cbn [mbind option_bind].
  rewrite (assoc_encodes V) by done.
  destruct (om_put_repr (mt_sl m) l (Encode k ts) (op :: v) coin Hr) as (sl' & -> & Hr').
  cbn [mbind option_bind]. eexists _, _. split; [reflexivity|]. split; [|done].
  split; cbn [mt_sl mt_size]; [exact Hr'|by apply encodes_insert| |].
  - rewrite footprint_insert, Hs.
    assert (forall o, len (Encode k ts) + len (o : bytes) + entryOverhead
              = len k + TimestampSize + len o + entryOverhead) as Hc
      by (intros o; rewrite len_Encode; unfold TimestampSize; lia).
    destruct (V !! (k, ts)) as [[op' v']|]; cbn [fmap option_fmap option_map];
      rewrite !Hc, !len_cons; unfold cost; cbn [fst snd].
    + rewrite i64_sub_l, i64_add_l. f_equal. lia.
    + rewrite i64_add_l. f_equal. lia.
  - rewrite map_size_insert, <- Hl. rewrite length_ins by apply He.
    rewrite (assoc_encodes V) by done. by destruct (V !! (k, ts)).
Qed.

(** Both point reads are the seek of Versions.v. *)
Lemma GetAsOf_seek m V l k s :
  models m V l ->
  GetAsOf m k s = Some ((fun e => as_of_result (decodeValue e.2)) <$> seek_result l k s).
Proof.
  intros [Hr He _ _]. unfold GetAsOf, seek_result.
  destruct (om_seekGE_repr (mt_sl m) l (Encode k s) Hr) as (c & -> & Hc).
  cbn [mbind option_bind]. destruct c as [n|].
  - destruct (om_cursor_cons _ _ _ Hc) as (ek & ev & l' & Hd & -> & -> & _). rewrite Hd.
    destruct (seek_first V l _ _ _ He Hd) as (k' & t & op & v & [= -> ->] & Ht & _).
    cbn [mbind option_bind fst snd]. rewrite Decode_Encode, UserKey_Encode by done.
    destruct (decide (k' = k)); [|done]. cbn. unfold as_of_result. cbn. by case_decide.
  - by rewrite (om_cursor_nil _ _ Hc).
Qed.

Lemma NewestVersionTS_seek m V l k :
  models m V l ->
  NewestVersionTS m k = Some ((fun e => Timestamp e.1) <$> seek_result l k max_u64).
Proof.
  intros [Hr He _ _]. unfold NewestVersionTS, seek_result.
  destruct (om_seekGE_repr (mt_sl m) l (Encode k max_u64) Hr) as (c & -> & Hc).
  cbn [mbind option_bind]. destruct c as [n|].
  - destruct (om_cursor_cons _ _ _ Hc) as (ek & ev & l' & Hd & -> & _ & _). rewrite Hd.
    destruct (seek_first V l _ _ _ He Hd) as (k' & t & op & v & [= -> ->] & Ht & _).
    cbn [mbind option_bind fst snd]. rewrite Decode_Encode, UserKey_Encode by done.
    destruct (decide (k' = k)); [|done]. cbn. by rewrite Timestamp_Encode.
  - by rewrite (om_cursor_nil _ _ Hc).
Qed.

Lemma Iterate_collect m V l :
  models m V l ->
  exists out, Iterate m (fun uk v op ts acc => (acc ++ [(uk, v, op, ts)], true)) [] = Some out
    /\ (fun x : bytes * bytes * byte * Z =>
          (Encode x.1.1.1 x.2, encodeValue x.1.2 x.1.1.2)) <$> out = l
    /\ Forall (fun x => is_u64 x.2) out.
Proof.
  intros [Hr He _ _]. unfold Iterate. rewrite (om_iterate_repr _ l) by done.
  eexists. split; [reflexivity|]. pose proof (enc_shape _ _ He) as Hsh.
  assert (Forall (fun e => exists k t op v, is_u64 t /\ e = (Encode k t, op :: v)) l) as Hall
    by (by apply Forall_forall). clear He Hr Hsh.
  match goal with |- context [iter_list ?f l []] =>
    assert (forall acc, exists out, iter_list f l acc = acc ++ out
      /\ (fun x : bytes * bytes * byte * Z =>
            (Encode x.1.1.1 x.2, encodeValue x.1.2 x.1.1.2)) <$> out = l
      /\ Forall (fun x => is_u64 x.2) out) as Hgen
  end.
  { induction Hall as [|e l (k & t & op & v & Ht & ->) _ IH]; intros acc.
    - exists []. cbn. by rewrite app_nil_r.
    - cbn [iter_list]. rewrite Decode_Encode by done. cbn.
      destruct (IH (acc ++ [(k, v, op, t)])) as (out & -> & Ho & Hu).
      exists ((k, v, op, t) :: out). rewrite <- app_assoc. split; [done|]. split.
      + cbn. by rewrite Ho.
      + by constructor. }
  destruct (Hgen []) as (out & -> & H). exact H.
Qed.

(** ** The cursor loops as list functions *)

Definition entry_of (e : bytes * bytes) : VersionEntry :=
  {| EncKey := e.1; Value := (decodeValue e.2).2; Op := (decodeValue e.2).1 |}.

Lemma rangeSnapshot_loop_list s c l end_ fuel out :
  om_cursor s c l -> encoded_keys l -> (length l < fuel)%nat ->
  rangeSnapshot_loop fuel s c end_ out = Some (out ++ (entry_of <$> range_list end_ l)).
Proof.
  intros Hc Hl. revert c fuel out Hc.
  induction Hl as [|[enc stored] l (k & t & Ht & Hk) _ IH]; intros c fuel out Hc Hf;
    (destruct fuel as [|fuel]; [cbn in Hf; lia|]); cbn [rangeSnapshot_loop range_list].
  - destruct c as [n|]; [|by rewrite app_nil_r].
    destruct (om_cursor_cons _ _ _ Hc) as (? & ? & ? & ? & _). done.
  - destruct c as [n|]; [|apply om_cursor_nil in Hc; done]. cbn in Hk. subst enc.
    destruct (om_cursor_cons _ _ _ Hc) as (ek & ev & l' & E & -> & -> & c' & -> & Hc').
    injection E as <- <- <-. cbn [mbind option_bind].
    rewrite Decode_Encode by done.
    cbn [fst]. rewrite UserKey_Encode. fold (past_end end_ k).
    destruct (past_end end_ k); [by rewrite app_nil_r|].
    rewrite fmap_cons. unfold entry_of at 1. cbn [fst snd].
    destruct (decodeValue stored) as [op raw].
    rewrite (IH c') by (done || (cbn in Hf; lia)). by rewrite <- app_assoc.
Qed.

Fixpoint count_list (k : bytes) (l : list (bytes * bytes)) : Z :=
  match l with
  | [] => 0
  | (enc, _) :: l' => if decide (UserKey enc = k) then 1 + count_list k l' else 0
  end.

Lemma versionCount_loop_list s c l k fuel n :
  om_cursor s c l -> encoded_keys l -> (length l < fuel)%nat ->
  versionCount_loop fuel s c k n = Some (n + count_list k l).
Proof.
  intros Hc Hl. revert c fuel n Hc.
  induction Hl as [|[enc stored] l (k' & t & Ht & Hk) _ IH]; intros c fuel n Hc Hf;
    (destruct fuel as [|fuel]; [cbn in Hf; lia|]); cbn [versionCount_loop count_list].
  - destruct c as [x|]; [|by rewrite Z.add_0_r].
    destruct (om_cursor_cons _ _ _ Hc) as (? & ? & ? & ? & _). done.
  - destruct c as [x|]; [|apply om_cursor_nil in Hc; done]. cbn in Hk. subst enc.
    destruct (om_cursor_cons _ _ _ Hc) as (ek & ev & l' & E & -> & _ & c' & -> & Hc').
    injection E as <- <- <-. cbn [mbind option_bind].
    rewrite Decode_Encode, UserKey_Encode by done.
    destruct (decide (k' = k)); [|by rewrite Z.add_0_r].
    rewrite (IH c') by (done || (cbn in Hf; lia)). f_equal. lia.
Qed.

Lemma encoded_keys_drop_lt {A} t (l : list (bytes * A)) :
  encoded_keys l -> encoded_keys (drop_lt t l).
Proof.
  destruct (drop_lt_split t l) as (p & E & _). unfold encoded_keys. rewrite E at 1.
  rewrite Forall_app. tauto.
Qed.

Lemma length_drop_lt {A} t (l : list (bytes * A)) : (length (drop_lt t l) <= length l)%nat.
Proof. destruct (drop_lt_split t l) as (p & E & _). rewrite E at 2. rewrite length_app. lia. Qed.

Lemma RangeSnapshot_list m V l start end_ :
  models m V l -> RangeSnapshot m start end_ = Some (entry_of <$> range_of start end_ l).
Proof.
  intros [Hr He _ _]. unfold RangeSnapshot, range_of. fold (start_target start).
  destruct (om_seekGE_repr (mt_sl m) l (start_target start) Hr) as (c & -> & Hc).
  cbn [mbind option_bind]. erewrite rangeSnapshot_loop_list; [done|exact Hc| |].
  - by eapply encoded_keys_drop_lt, encodes_encoded_keys.
  - unfold loopFuel. rewrite (om_len_repr _ l) by done. unfold len. rewrite Nat2Z.id.
    pose proof (length_drop_lt (start_target start) l). lia.
Qed.

Lemma VersionCount_list m V l k :
  models m V l ->
  VersionCountForTesting m k = Some (count_list k (drop_lt (Encode k max_u64) l)).
Proof.
  intros [Hr He _ _]. unfold VersionCountForTesting.
  destruct (om_seekGE_repr (mt_sl m) l (Encode k max_u64) Hr) as (c & -> & Hc).
  cbn [mbind option_bind]. erewrite versionCount_loop_list; [done|exact Hc| |].
  - by eapply encoded_keys_drop_lt, encodes_encoded_keys.
  - unfold loopFuel. rewrite (om_len_repr _ l) by done. unfold len. rewrite Nat2Z.id.
    pose proof (length_drop_lt (Encode k max_u64) l). lia.
Qed.

(** ** Sequences of operations *)

(** The mutating methods as data; the abstract state is the version map with
    the frozen flag, and [true] in the trace is a call that returned nil. *)
Inductive mop :=
| MPut (userKey value : bytes) (ts : Z) (coin : nat -> bool)
| MDelete (userKey : bytes) (ts : Z) (coin : nat -> bool)
| MFreeze.

Definition mop_ok (o : mop) : Prop :=
  match o with MPut _ _ ts _ | MDelete _ ts _ => is_u64 ts | MFreeze => True end.

Definition mstep (o : mop) (m : Memtable T) : outcome mem_error (Memtable T) :=
  match o with
  | MPut k v ts coin => Put m k v ts coin
  | MDelete k ts coin => Delete m k ts coin
  | MFreeze => Ok (Freeze m)
  end.

Fixpoint mrun (ops : list mop) (m : Memtable T) : option (Memtable T * list bool) :=
  match ops with
  | [] => Some (m, [])
  | o :: ops' =>
      match mstep o m with
      | Ok m' => '(m2, tr) ← mrun ops' m'; Some (m2, true :: tr)
      | Err _ => '(m2, tr) ← mrun ops' m; Some (m2, false :: tr)
      | Panic => None
      end
  end.

Definition sstep (o : mop) (st : vmap * bool) : (vmap * bool) * bool :=
  let '(V, frozen) := st in
  match o with
  | MPut k v ts _ => if frozen then (st, false) else ((<[(k, ts) := (OpPut, v)]> V, false), true)
  | MDelete k ts _ => if frozen then (st, false) else ((<[(k, ts) := (OpDelete, [])]> V, false), true)
  | MFreeze => ((V, true), true)
  end.

Fixpoint srun (ops : list mop) (st : vmap * bool) : (vmap * bool) * list bool :=
  match ops with
  | [] => (st, [])
  | o :: ops' =>
      let '(st', ok) := sstep o st in
      let '(st2, tr) := srun ops' st' in (st2, ok :: tr)
  end.

(** The versions a sequence of calls leaves behind. *)
Definition versions_of (ops : list mop) : vmap := (srun ops (∅, false)).1.1.

Lemma mstep_models o m V l :
  mop_ok o -> models m V l ->
  let '((V', fr), ok) := sstep o (V, mt_frozen m) in
  match mstep o m with
  | Ok m' => ok = true /\ mt_frozen m' = fr /\ exists l', models m' V' l'
  | Err _ => ok = false /\ mt_frozen m = fr /\ V' = V
  | Panic => False
  end.
Proof.
  intros Ho Hm. destruct o as [k v ts coin|k ts coin|]; cbn in *; unfold Put, Delete.
  - destruct (mt_frozen m) eqn:Hf; cbn; [done|].
    destruct (writeLocked_models m V l k v OpPut ts coin Hm Ho) as (m' & l' & -> & H & Hf').
    cbn. split_and!; [done|congruence|eauto].
  - destruct (mt_frozen m) eqn:Hf; cbn; [done|].
    destruct (writeLocked_models m V l k [] OpDelete ts coin Hm Ho) as (m' & l' & -> & H & Hf').
    cbn. split_and!; [done|congruence|eauto].
  - split_and!; [done..|]. exists l. by destruct Hm.
Qed.

Lemma mrun_models_gen ops : forall m V l,
  Forall mop_ok ops -> models m V l ->
  exists m' l', mrun ops m = Some (m', (srun ops (V, mt_frozen m)).2)
    /\ models m' (srun ops (V, mt_frozen m)).1.1 l'
    /\ mt_frozen m' = (srun ops (V, mt_frozen m)).1.2.
Proof.
  induction ops as [|o ops IH]; intros m V l Hok Hm; [by exists m, l|].
  apply Forall_cons in Hok as [Ho Hok]. pose proof (mstep_models o m V l Ho Hm) as Hst.
  cbn [mrun srun]. destruct (sstep o (V, mt_frozen m)) as [[V' fr] ok].
  destruct (mstep o m) as [m'|e|]; [| |done].
  - destruct Hst as (-> & <- & l' & Hm'). destruct (IH m' V' l' Hok Hm') as (m2 & l2 & -> & H1 & H2).
    destruct (srun ops (V', mt_frozen m')) as [[V2 f2] tr]. cbn in *. eauto.
  - destruct Hst as (-> & <- & ->). destruct (IH m V l Hok Hm) as (m2 & l2 & -> & H1 & H2).
    destruct (srun ops (V, mt_frozen m)) as [[V2 f2] tr]. cbn in *. eauto.
Qed.

Lemma mrun_models ops :
  Forall mop_ok ops ->
  exists m l, mrun ops New = Some (m, (srun ops (∅, false)).2)
    /\ models m (versions_of ops) l /\ mt_frozen m = (srun ops (∅, false)).1.2.
Proof. intros Hok. apply (mrun_models_gen ops New ∅ []); [done|apply New_models]. Qed.

Lemma mrun_models_inv ops m tr :
  Forall mop_ok ops -> mrun ops New = Some (m, tr) -> exists l, models m (versions_of ops) l.
Proof. intros Hok Hr. destruct (mrun_models ops Hok) as (m' & l & Hr' & Hm & _). simplify_eq. eauto. Qed.

(** ** Properties *)

(** C35. Every sequence of [Put], [Delete] and [Freeze] on a fresh memtable runs
    without panic and leaves exactly the versions of the abstract run: writes
    to a frozen memtable return [ErrFrozen] and change nothing, [Len] counts
    the versions, [ApproximateSize] is their accounted footprint (as an int64,
    overwrites of a version accounted once), and [Iterate] yields precisely the
    stored versions, strictly ascending in the encoded-key order. *)
Theorem memtable_refines_versions ops :
  Forall mop_ok ops ->
  exists m, mrun ops New = Some (m, (srun ops (∅, false)).2)
    /\ IsFrozen m = (srun ops (∅, false)).1.2
    /\ Len m = Z.of_nat (size (versions_of ops))
    /\ ApproximateSize m = i64 (footprint (versions_of ops))
    /\ exists out, Iterate m (fun uk v op ts acc => (acc ++ [(uk, v, op, ts)], true)) [] = Some out
         /\ StronglySorted (fun x y : bytes * bytes * byte * Z =>
              Encode x.1.1.1 x.2 <b Encode y.1.1.1 y.2) out
         /\ forall k v op t, (k, v, op, t) ∈ out <-> versions_of ops !! (k, t) = Some (op, v).
Proof.
  intros Hok. destruct (mrun_models ops Hok) as (m & l & Hr & Hm & Hf).
  exists m. split_and!; [done|done| | |].
  - unfold Len. rewrite (om_len_repr _ l) by apply Hm. unfold len. by rewrite (models_len _ _ _ Hm).
  - apply Hm.
  - destruct (Iterate_collect m _ l Hm) as (out & Hit & Hl & Hu). exists out.
    split; [done|]. pose proof (models_encodes _ _ _ Hm) as He. split.
    + pose proof (enc_sorted _ _ He) as Hs. unfold sorted_keys in Hs. rewrite <- Hl in Hs.
      rewrite <- list_fmap_compose in Hs. by apply sorted_fmap_inv in Hs.
    + intros k v op t. split.
      * intros Hin. rewrite Forall_forall in Hu. apply (enc_elem _ _ He); [by apply (Hu _ Hin)|].
        rewrite <- Hl. apply list_elem_of_fmap. by exists (k, v, op, t).
      * intros HV. assert (is_u64 t) as Ht by (apply (enc_u64 _ _ He k); eauto).
        apply (enc_elem _ _ He) in HV; [|done]. rewrite <- Hl in HV.
        apply list_elem_of_fmap in HV as ([[[k' v'] op'] t'] & [= E -> ->] & Hin). cbn in *.
        rewrite Forall_forall in Hu. apply Encode_inj in E as [-> ->]; [done|done|].
        apply (Hu _ Hin).
Qed.

(** [GetAsOf] returns the newest version not newer than the snapshot: its
    value for a put, the deletion mark for a tombstone, and "not found" exactly
    when no version is visible.  This needs that the stored keys cluster in the
    byte order: all stored keys are free of 0xFF bytes (as UTF-8 text is) and
    timestamps stay below 2^56, or no stored key is prefix-comparable with the
    key read. *)
Theorem memtable_get_as_of ops m tr k s :
  Forall mop_ok ops -> mrun ops New = Some (m, tr) ->
  text_map (versions_of ops) \/ prefix_free_at (versions_of ops) k ->
  0 <= s < 2 ^ 56 ->
  match GetAsOf m k s with
  | Some (Some r) => exists t ov, visible (versions_of ops) k s t ov /\ r = as_of_result ov
  | Some None => invisible (versions_of ops) k s
  | None => False
  end.
Proof.
  intros Hok Hr Hcl Hs. destruct (mrun_models_inv _ _ _ Hok Hr) as [l Hm].
  rewrite (GetAsOf_seek m _ l) by done.
  assert (clustered_at (versions_of ops) k) as Hc
    by (destruct Hcl; [by apply text_clustered|by apply prefix_free_clustered]).
  destruct (seek_visible _ _ k s (models_encodes _ _ _ Hm) Hc Hs)
    as [(t & op & v & Hv & ->)|[Hi ->]]; cbn; [|done].
  by exists t, (op, v).
Qed.

(** [NewestVersionTS], on which commit-time conflict detection rests, is the
    newest timestamp of the key, provided no stored key is a proper extension
    of it. *)
Theorem memtable_newest_version ops m tr k :
  Forall mop_ok ops -> mrun ops New = Some (m, tr) ->
  text_map (versions_of ops) -> text_key k ->
  (forall k' t, is_Some (versions_of ops !! (k', t)) -> k `prefix_of` k' -> k' = k) ->
  match NewestVersionTS m k with
  | Some (Some t) => newest (versions_of ops) k t
  | Some None => forall t, versions_of ops !! (k, t) = None
  | None => False
  end.
Proof.
  intros Hok Hr Htx Hk Hext. destruct (mrun_models_inv _ _ _ Hok Hr) as [l Hm].
  rewrite (NewestVersionTS_seek m _ l) by done. pose proof (models_encodes _ _ _ Hm) as He.
  destruct (seek_newest _ _ k He Htx Hk Hext) as [(t & op & v & Hn & ->)|[Hi ->]]; cbn; [|done].
  destruct Hn as [Hs Hmax]. rewrite Timestamp_Encode by (by apply (enc_u64 _ _ He k)). done.
Qed.

(** If a proper extension of [k] is stored (say "user10" for "user1"),
    [NewestVersionTS] reports that [k] has no version, whatever versions of
    [k] the memtable holds: the seek target Encode(k, ^0) sorts before the
    extension, and the extension before every version of [k].  A transaction
    that wrote [k] then passes the first-committer-wins check. *)
Theorem memtable_newest_version_hidden ops m tr k c rest t' :
  Forall mop_ok ops -> mrun ops New = Some (m, tr) ->
  text_map (versions_of ops) -> is_Some (versions_of ops !! (k ++ c :: rest, t')) ->
  NewestVersionTS m k = Some None.
Proof.
  intros Hok Hr Htx Hx. destruct (mrun_models_inv _ _ _ Hok Hr) as [l Hm].
  rewrite (NewestVersionTS_seek m _ l) by done.
  by rewrite (seek_newest_hidden _ _ k c rest t' (models_encodes _ _ _ Hm) Htx Hx).
Qed.

(** With prefix-free keys (no stored key a proper prefix of another, none
    a proper prefix of the start bound) [RangeSnapshot] copies out exactly the
    versions whose user key is in [start, end), in strictly ascending encoded
    order, and never panics or runs past its loop bound. *)
Theorem memtable_range_snapshot ops m tr start end_ :
  Forall mop_ok ops -> mrun ops New = Some (m, tr) ->
  prefix_free (versions_of ops) ->
  (forall k t, is_Some (versions_of ops !! (k, t)) ->
     match start with Some s => k `prefix_of` s -> k = s | None => True end) ->
  exists out, RangeSnapshot m start end_ = Some out
    /\ StronglySorted (fun x y => EncKey x <b EncKey y) out
    /\ forall e, e ∈ out <->
         exists k t, versions_of ops !! (k, t) = Some (Op e, Value e)
           /\ EncKey e = Encode k t /\ in_range start end_ k.
Proof.
  intros Hok Hr Hpf Hst. destruct (mrun_models_inv _ _ _ Hok Hr) as [l Hm].
  pose proof (models_encodes _ _ _ Hm) as He. pose proof (enc_sorted _ _ He) as Hs.
  rewrite (RangeSnapshot_list m _ l) by done. eexists. split; [done|]. split.
  - pose proof (sorted_range_of start end_ l Hs) as Hsr. apply sorted_fmap_inv in Hsr.
    by eapply StronglySorted_fmap; [|exact Hsr].
  - pose proof (encodes_start_ok _ _ _ He Hst) as Hso.
    pose proof (fun x => range_of_elem start end_ l x Hs (encodes_encoded_keys _ _ He)
                  (encodes_prefix_free _ _ He Hpf) Hso) as Hrange.
    intros e. rewrite list_elem_of_fmap. split.
    + intros (x & -> & Hin). apply Hrange in Hin as [Hin Hrg].
      destruct (enc_shape _ _ He _ Hin) as (k & t & op & v & Ht & ->).
      apply (enc_elem _ _ He) in Hin; [|done]. cbn [fst] in Hrg. rewrite UserKey_Encode in Hrg.
      by exists k, t.
    + intros (k & t & HV & Ek & Hrg). exists (Encode k t, Op e :: Value e).
      assert (is_u64 t) as Ht by (apply (enc_u64 _ _ He k); eauto).
      split; [destruct e; cbn in *; by rewrite Ek|]. apply Hrange. split; [by apply He|].
      cbn [fst]. by rewrite UserKey_Encode.
Qed.

(** [RangeSnapshot] promises every version in [start, end), but a stored
    extension of [k] that lies at or past the end bound stops the walk before
    [k]: with "a" and "abc" stored, the range up to "ab" loses "a". *)
Theorem memtable_range_misses ops m tr start e k c rest t' :
  Forall mop_ok ops -> mrun ops New = Some (m, tr) ->
  text_map (versions_of ops) -> is_Some (versions_of ops !! (k ++ c :: rest, t')) ->
  e <=b k ++ c :: rest ->
  (match start with Some s => s `prefix_of` k | None => True end) ->
  exists out, RangeSnapshot m start (Some e) = Some out
    /\ forall x t, small_ts t -> x ∈ out -> EncKey x <> Encode k t.
Proof.
  intros Hok Hr Htx [[op' v'] Hx] Hend Hst. destruct (mrun_models_inv _ _ _ Hok Hr) as [l Hm].
  pose proof (models_encodes _ _ _ Hm) as He. rewrite (RangeSnapshot_list m _ l) by done.
  eexists. split; [done|]. intros x t Ht Hin Ek. apply list_elem_of_fmap in Hin as ([y w] & -> & Hin).
  cbn in Ek. subst y. destruct (Htx _ _ (ex_intro _ _ Hx)) as [Hkt _].
  unfold text_key in Hkt. rewrite Forall_app in Hkt. destruct Hkt as [_ Hkt].
  eapply (range_of_misses start e k c rest t' (op' :: v')); eauto; [apply He|].
  apply (enc_elem _ _ He); [|done]. apply (enc_u64 _ _ He (k ++ c :: rest)). eauto.
Qed.

End spec.

(** ** Witnesses, on the skiplist *)

Abbreviation sl := Skiplist.Skiplist.

Definition user1 : bytes := [x75; x73; x65; x72; x31].
Definition user10 : bytes := user1 ++ [x30].
Definition user2 : bytes := [x75; x73; x65; x72; x32].

(** Two versions of "user1", "user10", a deleted "user2", and a write after the
    freeze. *)
Definition demo_ops : list mop :=
  [MPut user1 [x61] 1 coinT; MPut user10 [x62] 2 coinF; MDelete user2 3 coinT;
   MPut user1 [x63] 4 coinF; MFreeze; MPut user2 [x64] 5 coinF].

(** The same without the extension. *)
Definition flat_ops : list mop :=
  [MPut user1 [x61] 1 coinT; MDelete user2 3 coinT; MPut user1 [x63] 4 coinF].

Definition run_sl (ops : list mop) : Memtable sl :=
  match mrun (T := sl) ops New with Some (m, _) => m | None => New end.

Ltac demo_ok := repeat constructor; unfold is_u64; cbn; lia.

Lemma memtable_refines_versions_witness :
  exists m, mrun (T := sl) demo_ops New = Some (m, [true; true; true; true; true; false])
    /\ IsFrozen m = true /\ Len m = 4 /\ ApproximateSize m = i64 (footprint (versions_of demo_ops)).
Proof.
  destruct (memtable_refines_versions (T := sl) demo_ops ltac:(demo_ok))
    as (m & Hr & Hf & Hl & Hs & _).
  exists m. split_and!; [exact Hr|exact Hf| |exact Hs]. rewrite Hl. vm_compute. reflexivity.
Defined.

Lemma memtable_get_as_of_witness :
  GetAsOf (run_sl demo_ops) user1 3 = Some (Some ([x61], OpPut))
  /\ exists t ov, visible (versions_of demo_ops) user1 3 t ov /\ ([x61], OpPut) = as_of_result ov.
Proof.
  assert (mrun (T := sl) demo_ops New
          = Some (run_sl demo_ops, [true; true; true; true; true; false])) as Hr
    by (vm_compute; reflexivity).
  assert (text_map (versions_of demo_ops)) as Ht by (apply text_map_check; by_decide).
  assert (0 <= 3 < 2 ^ 56) as Hs by by_decide.
  pose proof (memtable_get_as_of demo_ops _ _ user1 3 ltac:(demo_ok) Hr (or_introl Ht) Hs) as H.
  assert (GetAsOf (run_sl demo_ops) user1 3 = Some (Some ([x61], OpPut))) as E
    by (vm_compute; reflexivity).
  rewrite E in H. split; [exact E|exact H].
Defined.

Lemma memtable_newest_version_witness :
  NewestVersionTS (run_sl flat_ops) user1 = Some (Some 4)
  /\ newest (versions_of flat_ops) user1 4.
Proof.
  assert (mrun (T := sl) flat_ops New = Some (run_sl flat_ops, [true; true; true])) as Hr
    by (vm_compute; reflexivity).
  assert (text_map (versions_of flat_ops)) as Ht by (apply text_map_check; by_decide).
  assert (map_Forall (fun (kt : bytes * Z) (_ : byte * bytes) =>
            user1 `prefix_of` kt.1 -> kt.1 = user1) (versions_of flat_ops)) as Hall by by_decide.
  assert (text_key user1) as Hk by by_decide.
  pose proof (memtable_newest_version flat_ops _ _ user1 ltac:(demo_ok) Hr Ht Hk
                (fun k' t '(ex_intro _ ov Hov) => Hall (k', t) ov Hov)) as H.
  assert (NewestVersionTS (run_sl flat_ops) user1 = Some (Some 4)) as E
    by (vm_compute; reflexivity).
  rewrite E in H. split; [exact E|exact H].
Defined.

(** "user1" has a version at timestamp 4 and [NewestVersionTS] denies it. *)
Lemma memtable_newest_version_hidden_witness :
  versions_of demo_ops !! (user1, 4) = Some (OpPut, [x63])
  /\ NewestVersionTS (run_sl demo_ops) user1 = Some None.
Proof.
  split; [vm_compute; reflexivity|].
  apply (memtable_newest_version_hidden (T := sl) demo_ops (run_sl demo_ops)
           [true; true; true; true; true; false] user1 x30 [] 2).
  - demo_ok.
  - vm_compute. reflexivity.
  - apply text_map_check. by_decide.
  - eexists. vm_compute. reflexivity.
Defined.

Lemma memtable_range_snapshot_witness :
  exists out, RangeSnapshot (run_sl flat_ops) (Some user1) (Some user2) = Some out
    /\ {| EncKey := Encode user1 4; Value := [x63]; Op := OpPut |} ∈ out.
Proof.
  assert (mrun (T := sl) flat_ops New = Some (run_sl flat_ops, [true; true; true])) as Hr
    by (vm_compute; reflexivity).
  assert (prefix_free (versions_of flat_ops)) as Hpf by (apply prefix_free_check; by_decide).
  assert (map_Forall (fun (kt : bytes * Z) (_ : byte * bytes) =>
            kt.1 `prefix_of` user1 -> kt.1 = user1) (versions_of flat_ops)) as Hall by by_decide.
  destruct (memtable_range_snapshot flat_ops _ _ (Some user1) (Some user2) ltac:(demo_ok) Hr Hpf
              (fun k t '(ex_intro _ ov Hov) => Hall (k, t) ov Hov)) as (out & Ho & _ & H).
  exists out. split; [exact Ho|]. apply H. exists user1, 4.
  split; [vm_compute; reflexivity|]. split; [reflexivity|]. split; cbn; by_decide.
Defined.

(** "a" is in the range up to "ab" and is lost. *)
Lemma memtable_range_misses_witness :
  exists out, RangeSnapshot (run_sl [MPut [x61] [x31] 1 coinT; MPut [x61; x62; x63] [x32] 2 coinF])
                None (Some [x61; x62]) = Some out
    /\ forall x t, small_ts t -> x ∈ out -> EncKey x <> Encode [x61] t.
Proof.
  apply (memtable_range_misses (T := sl)
           [MPut [x61] [x31] 1 coinT; MPut [x61; x62; x63] [x32] 2 coinF] _
           [true; true] None [x61; x62] [x61] x62 [x63] 2).
  - demo_ok.
  - vm_compute. reflexivity.
  - apply text_map_check. by_decide.
  - eexists. vm_compute. reflexivity.
  - done.
  - exact I.
Defined.

End Memtable.
