(* ===== verification/RecordFmt.v ===== *)
(** * The on-disk record format (internal/record/record.go)

    [CRC32 (4) | Op (1) | Timestamp (8) | KeyLen (4) | ValueLen (4) | Key |
    Value], little endian, with the CRC-32C of everything after the CRC field.
    The checksum is the standard library's reflected Castagnoli CRC, written
    bit by bit. *)

From Stdlib Require Import ZArith Lia.
From Stdlib Require Import Strings.Byte.
From stdpp Require Import base list gmap.
From S2P Require Import Prelude.
From S2P Require Import Versions.

#[local] Open Scope Z_scope.

Module record.

(** ** hash/crc32 with the Castagnoli table *)

Definition Castagnoli : Z := 0x82F63B78.

Definition crc_bit (c : Z) : Z :=
  let s := Z.shiftr c 1 in if Z.testbit c 0 then Z.lxor s Castagnoli else s.

Definition crc_byte (c : Z) (b : byte) : Z := Nat.iter 8 crc_bit (Z.lxor c (b2z b)).

Definition crc_update (c : Z) (l : bytes) : Z := foldl crc_byte c l.

Definition Checksum (l : bytes) : Z :=
  Z.lxor (crc_update (2 ^ 32 - 1) l) (2 ^ 32 - 1).

(** ** The format *)

Definition HeaderSize : Z := 21.
Definition OffsetCRC : Z := 0.
Definition OffsetOp : Z := 4.
Definition OffsetTimestamp : Z := 5.
Definition OffsetKeyLen : Z := 13.
Definition OffsetValueLen : Z := 17.

Inductive error := EOF | UnexpectedEOF | ErrCorrupt | ErrInvalidOp.

#[export] Instance error_eq_dec : EqDecision error.
Proof. solve_decision. Defined.

Record Rec := MkRec { Op : byte; Timestamp : Z; Key : bytes; Value : bytes }.

#[export] Instance Rec_eq_dec : EqDecision Rec.
Proof. solve_decision. Defined.

(** Everything after the CRC field, as [Encode] lays it out in [buf]. *)
Definition body (r : Rec) : bytes :=
  [Op r] ++ le_bytes 8 (Timestamp r) ++ le_bytes 4 (u32 (len (Key r)))
  ++ le_bytes 4 (u32 (len (Value r))) ++ Key r ++ Value r.

Definition Encode (r : Rec) : bytes := le_bytes 4 (Checksum (body r)) ++ body r.

Definition Uint32 (b : bytes) (off : Z) : Z := le_val (slice off (off + 4) b).
Definition Uint64 (b : bytes) (off : Z) : Z := le_val (slice off (off + 8) b).

Definition valid_op (op : byte) : bool :=
  bool_decide (op = OpPut) || bool_decide (op = OpDelete) || bool_decide (op = OpCommit).

(** The slice bound [HeaderSize+keyLen] is computed in uint32; it wraps for a
    key of 4 GiB less 21 bytes, and the slice expression panics. *)
Definition Decode (b : bytes) : outcome error (Rec * Z) :=
  if decide (len b = 0) then Err EOF
  else if decide (len b < HeaderSize) then Err UnexpectedEOF
  else
    let storedCRC := Uint32 b OffsetCRC in
    let op := default x00 (b !! Z.to_nat OffsetOp) in
    let timestamp := Uint64 b OffsetTimestamp in
    let keyLen := Uint32 b OffsetKeyLen in
    let valueLen := Uint32 b OffsetValueLen in
    let total := HeaderSize + keyLen + valueLen in
    if decide (len b < total) then Err UnexpectedEOF
    else if decide (Checksum (slice OffsetOp total b) <> storedCRC) then Err ErrCorrupt
    else if negb (valid_op op) then Err ErrInvalidOp
    else
      let hi := u32 (HeaderSize + keyLen) in
      if decide (hi < HeaderSize) then Panic
      else Ok (MkRec op timestamp (slice HeaderSize hi b) (slice hi total b), total).

Definition HeaderLengths (hdr : bytes) : outcome error (Z * Z) :=
  if decide (len hdr < HeaderSize) then Err UnexpectedEOF
  else Ok (Uint32 hdr OffsetKeyLen, Uint32 hdr OffsetValueLen).

(** Records the format can carry. *)
Definition wf (r : Rec) : Prop :=
  valid_op (Op r) = true /\ is_u64 (Timestamp r)
  /\ HeaderSize + len (Key r) < 2 ^ 32 /\ len (Value r) < 2 ^ 32.

#[export] Instance wf_decision r : Decision (wf r).
Proof. unfold wf, is_u64. apply _. Defined.

Definition size (r : Rec) : Z := HeaderSize + len (Key r) + len (Value r).

(** ** The checksum *)

Lemma crc_bit_range c : 0 <= c < 2 ^ 32 -> 0 <= crc_bit c < 2 ^ 32.
Proof.
  intros H. unfold crc_bit. rewrite Z.shiftr_div_pow2 by lia. change (2 ^ 1) with 2.
  assert (0 <= c / 2 < 2 ^ 31) by (split; [apply Z.div_pos|apply Z.div_lt_upper_bound]; lia).
  case_match; [|lia]. apply lxor_range; [lia|]. unfold Castagnoli. lia.
Qed.

Lemma Checksum_range l : 0 <= Checksum l < 2 ^ 32.
Proof.
  unfold Checksum. apply lxor_range; [|lia]. unfold crc_update.
  assert (forall c, 0 <= c < 2 ^ 32 -> 0 <= foldl crc_byte c l < 2 ^ 32) as H; [|apply H; lia].
  induction l as [|b l IH]; intros c Hc; cbn; [done|]. apply IH. unfold crc_byte.
  assert (0 <= Z.lxor c (b2z b) < 2 ^ 32) as Hx
    by (apply lxor_range; [done|pose proof (b2z_bound b); lia]).
  revert Hx. generalize (Z.lxor c (b2z b)). intros x Hx.
  apply (Nat_iter_ind 8 crc_bit (fun z => 0 <= z < 2 ^ 32)); [done|]. apply crc_bit_range.
Qed.

(** Bit 31 of a step tells the bit that was shifted out. *)
Lemma crc_bit_inj a b :
  0 <= a < 2 ^ 32 -> 0 <= b < 2 ^ 32 -> crc_bit a = crc_bit b -> a = b.
Proof.
  intros Ha Hb H.
  assert (forall c, 0 <= c < 2 ^ 32 -> Z.testbit (crc_bit c) 31 = Z.testbit c 0) as Htop.
  { intros c Hc. unfold crc_bit.
    assert (Z.testbit (Z.shiftr c 1) 31 = false) as Hz.
    { rewrite Z.shiftr_spec by lia. apply (testbit_above 32); lia. }
    destruct (Z.testbit c 0) eqn:E; [|done]. rewrite Z.lxor_spec, Hz. done. }
  assert (Z.testbit a 0 = Z.testbit b 0) as H0 by (rewrite <- !Htop, H by done; done).
  assert (Z.shiftr a 1 = Z.shiftr b 1) as Hs.
  { unfold crc_bit in H. rewrite H0 in H. destruct (Z.testbit b 0); [|done].
    apply (f_equal (fun z => Z.lxor z Castagnoli)) in H.
    rewrite !Z.lxor_assoc, !Z.lxor_nilpotent, !Z.lxor_0_r in H. done. }
  apply Z.bits_inj'. intros n Hn. destruct (decide (n = 0)) as [->|]; [done|].
  apply (f_equal (fun z => Z.testbit z (n - 1))) in Hs. rewrite !Z.shiftr_spec in Hs by lia.
  replace (n - 1 + 1) with n in Hs by lia. done.
Qed.

Definition crc_state (c : Z) : Prop := 0 <= c < 2 ^ 32.

Lemma crc_bit_state c : crc_state c -> crc_state (crc_bit c).
Proof. apply crc_bit_range. Qed.

Lemma crc_xor_state c b : crc_state c -> crc_state (Z.lxor c (b2z b)).
Proof. intros H. apply lxor_range; [done|]. pose proof (b2z_bound b). lia. Qed.

Lemma crc_iter_inj n a b :
  crc_state a -> crc_state b -> Nat.iter n crc_bit a = Nat.iter n crc_bit b -> a = b.
Proof.
  intros Ha Hb. induction n as [|n IH]; cbn; [done|]. intros H. apply IH.
  apply crc_bit_inj; [..|done]; apply (Nat_iter_ind n crc_bit crc_state); auto using crc_bit_state.
Qed.

Lemma crc_byte_state c b : crc_state c -> crc_state (crc_byte c b).
Proof.
  intros H. apply (Nat_iter_ind 8 crc_bit crc_state); [by apply crc_xor_state|].
  apply crc_bit_range.
Qed.

(** A step loses nothing: neither the state nor the byte. *)
Lemma crc_byte_inj_l c c' b : crc_state c -> crc_state c' -> crc_byte c b = crc_byte c' b -> c = c'.
Proof.
  intros Hc Hc' H. apply crc_iter_inj in H; [|by apply crc_xor_state..].
  apply (f_equal (fun z => Z.lxor z (b2z b))) in H.
  by rewrite !Z.lxor_assoc, !Z.lxor_nilpotent, !Z.lxor_0_r in H.
Qed.

Lemma crc_byte_inj_r c b b' : crc_state c -> crc_byte c b = crc_byte c b' -> b = b'.
Proof.
  intros Hc H. apply crc_iter_inj in H; [|by apply crc_xor_state..].
  apply (f_equal (Z.lxor c)) in H.
  rewrite <- !Z.lxor_assoc, !Z.lxor_nilpotent, !Z.lxor_0_l in H. by apply b2z_inj.
Qed.

Lemma crc_update_state c l : crc_state c -> crc_state (crc_update c l).
Proof.
  revert c. induction l as [|b l IH]; intros c Hc; cbn; [done|]. by apply IH, crc_byte_state.
Qed.

Lemma crc_update_inj c c' l :
  crc_state c -> crc_state c' -> crc_update c l = crc_update c' l -> c = c'.
Proof.
  revert c c'. induction l as [|b l IH]; intros c c' Hc Hc' H; cbn in H; [done|].
  apply (crc_byte_inj_l c c' b); [done..|]. apply IH; auto using crc_byte_state.
Qed.

(** Every change of a single byte changes the checksum. *)
Lemma Checksum_one_byte l1 x x' l2 :
  x <> x' -> Checksum (l1 ++ x :: l2) <> Checksum (l1 ++ x' :: l2).
Proof.
  intros Hne H. apply Hne. unfold Checksum in H.
  apply (f_equal (fun z => Z.lxor z (2 ^ 32 - 1))) in H.
  rewrite !Z.lxor_assoc, !Z.lxor_nilpotent, !Z.lxor_0_r in H.
  unfold crc_update in H. rewrite !foldl_app in H. cbn [foldl] in H.
  assert (crc_state (foldl crc_byte (2 ^ 32 - 1) l1)) as Hs
    by (apply crc_update_state; unfold crc_state; lia).
  apply crc_update_inj in H; [|by apply crc_byte_state..]. by eapply crc_byte_inj_r.
Qed.

(** The check value of CRC-32C: the checksum of the text 123456789. *)
Example Checksum_check_value :
  Checksum [x31; x32; x33; x34; x35; x36; x37; x38; x39] = 0xE3069283.
Proof. vm_compute. reflexivity. Qed.

(** ** Decoding *)

Lemma len_body r : len (body r) = 17 + len (Key r) + len (Value r).
Proof. unfold body. len_simpl. lia. Qed.

Lemma len_record_Encode r : len (Encode r) = size r.
Proof. unfold Encode, size, HeaderSize. rewrite len_app, len_le_bytes, len_body. lia. Qed.

Lemma Uint32_mid a x c off : off = len a -> Uint32 (a ++ le_bytes 4 x ++ c) off = u32 x.
Proof.
  intros ->. unfold Uint32. rewrite slice_mid by (rewrite ?len_le_bytes; lia).
  by rewrite le_val_le_bytes.
Qed.

Lemma Uint64_mid a x c off : off = len a -> Uint64 (a ++ le_bytes 8 x ++ c) off = u64 x.
Proof.
  intros ->. unfold Uint64. rewrite slice_mid by (rewrite ?len_le_bytes; lia).
  by rewrite le_val_le_bytes.
Qed.

Lemma Uint64_head x c : Uint64 (le_bytes 8 x ++ c) 0 = u64 x.
Proof. apply (Uint64_mid []). done. Qed.

Lemma Uint64_le x : Uint64 (le_bytes 8 x) 0 = u64 x.
Proof. pose proof (Uint64_mid [] x [] 0 eq_refl) as H. rewrite app_nil_r in H. exact H. Qed.

(** The header fields of an encoded record. *)
Lemma header_fields crc op ts kl vl tail :
  let b := le_bytes 4 crc ++ [op] ++ le_bytes 8 ts ++ le_bytes 4 kl ++ le_bytes 4 vl ++ tail in
  Uint32 b OffsetCRC = u32 crc /\ b !! Z.to_nat OffsetOp = Some op
  /\ Uint64 b OffsetTimestamp = u64 ts /\ Uint32 b OffsetKeyLen = u32 kl
  /\ Uint32 b OffsetValueLen = u32 vl.
Proof.
  cbv zeta. split_and!.
  - apply (Uint32_mid []). done.
  - unfold OffsetOp. rewrite lookup_app_r; rewrite length_le_bytes; [done|cbn; lia].
  - rewrite (app_assoc (le_bytes 4 crc) [op]). apply Uint64_mid. len_simpl. done.
  - rewrite (app_assoc (le_bytes 4 crc) [op]), (app_assoc _ (le_bytes 8 ts)).
    apply Uint32_mid. len_simpl. done.
  - rewrite (app_assoc (le_bytes 4 crc) [op]), (app_assoc _ (le_bytes 8 ts)),
      (app_assoc _ (le_bytes 4 kl)).
    apply Uint32_mid. len_simpl. done.
Qed.

Lemma Encode_fields r rest :
  wf r ->
  let b := Encode r ++ rest in
  Uint32 b OffsetCRC = Checksum (body r) /\ b !! Z.to_nat OffsetOp = Some (Op r)
  /\ Uint64 b OffsetTimestamp = Timestamp r /\ Uint32 b OffsetKeyLen = len (Key r)
  /\ Uint32 b OffsetValueLen = len (Value r).
Proof.
  intros (_ & Ht & Hk & Hv). cbv zeta. unfold HeaderSize in Hk.
  pose proof (len_nonneg (Key r)). pose proof (len_nonneg (Value r)).
  assert (forall z, 0 <= z < 2 ^ 32 -> u32 z = z) as Hu by (intros; by apply Z.mod_small).
  assert (Encode r ++ rest
    = le_bytes 4 (Checksum (body r)) ++ [Op r] ++ le_bytes 8 (Timestamp r)
      ++ le_bytes 4 (len (Key r)) ++ le_bytes 4 (len (Value r)) ++ (Key r ++ Value r ++ rest)) as ->.
  { unfold Encode. generalize (Checksum (body r)). intros crc. unfold body.
    rewrite !Hu by lia. by rewrite <- !app_assoc. }
  destruct (header_fields (Checksum (body r)) (Op r) (Timestamp r) (len (Key r))
              (len (Value r)) (Key r ++ Value r ++ rest)) as (H1 & H2 & H3 & H4 & H5).
  rewrite Hu in H1 by apply Checksum_range. rewrite Hu in H4 by lia. rewrite Hu in H5 by lia.
  rewrite u64_small in H3 by done. split_and!; done.
Qed.

Lemma Encode_split r : exists hdr, Encode r = hdr ++ Key r ++ Value r /\ len hdr = HeaderSize.
Proof.
  exists (le_bytes 4 (Checksum (body r)) ++ [Op r] ++ le_bytes 8 (Timestamp r)
          ++ le_bytes 4 (u32 (len (Key r))) ++ le_bytes 4 (u32 (len (Value r)))).
  split; [|len_simpl; reflexivity]. unfold Encode. generalize (Checksum (body r)). intros crc.
  unfold body. by rewrite <- !app_assoc.
Qed.

Lemma Decode_record r rest : wf r -> Decode (Encode r ++ rest) = Ok (r, size r).
Proof.
  intros Hwf. destruct (Encode_fields r rest Hwf) as (H1 & H2 & H3 & H4 & H5).
  pose proof (len_record_Encode r) as Hl. pose proof (len_nonneg (Key r)) as Hk0.
  pose proof (len_nonneg (Value r)) as Hv0. pose proof (len_nonneg rest).
  destruct Hwf as (Hop & Ht & Hk & Hv). unfold Decode.
  rewrite !H1, !H2, !H3, !H4, !H5. cbn [from_option id].
  rewrite !len_app, Hl. unfold size, HeaderSize in *.
  rewrite decide_False by lia. rewrite decide_False by lia. rewrite decide_False by lia.
  assert (slice OffsetOp (21 + len (Key r) + len (Value r)) (Encode r ++ rest) = body r) as Hb.
  { unfold Encode. rewrite <- app_assoc. apply slice_mid;
      rewrite ?len_le_bytes, ?len_body; unfold OffsetOp; lia. }
  rewrite Hb, decide_False by tauto. rewrite Hop. cbn [negb].
  assert (u32 (21 + len (Key r)) = 21 + len (Key r)) as -> by (apply Z.mod_small; lia).
  rewrite decide_False by lia. destruct (Encode_split r) as (hdr & -> & Hh).
  rewrite <- !app_assoc, (slice_mid hdr (Key r)) by (unfold HeaderSize in *; lia).
  rewrite (app_assoc hdr), slice_mid by (rewrite ?len_app; unfold HeaderSize in *; lia).
  by destruct r.
Qed.

(** A strict, non-empty prefix of a record is reported as torn. *)
Lemma Decode_torn r p q :
  wf r -> Encode r = p ++ q -> p <> [] -> q <> [] -> Decode p = Err UnexpectedEOF.
Proof.
  intros Hwf E Hp Hq. destruct (Encode_fields r [] Hwf) as (_ & _ & _ & H4 & H5).
  rewrite app_nil_r, E in H4, H5. pose proof (len_record_Encode r) as Hl.
  rewrite E, len_app in Hl. unfold Decode.
  rewrite decide_False by (by rewrite len_eq_0).
  destruct (decide (len p < HeaderSize)) as [|Hge]; [done|].
  unfold Uint32, HeaderSize, OffsetKeyLen, OffsetValueLen in *.
  rewrite slice_app_l in H4 by lia. rewrite slice_app_l in H5 by lia. rewrite H4, H5.
  rewrite decide_True; [done|]. rewrite <- len_eq_0 in Hq. pose proof (len_nonneg q).
  unfold size, HeaderSize in Hl. lia.
Qed.

Lemma Decode_EOF b : Decode b = Err EOF -> b = [].
Proof.
  unfold Decode. case_decide as H; [by apply len_eq_0 in H|]. repeat (case_decide; [done|]).
  case_match; [done|]. by case_decide.
Qed.

Lemma le_bytes_Uint32 b off : 0 <= off -> off + 4 <= len b -> le_bytes 4 (Uint32 b off) = slice off (off + 4) b.
Proof.
  intros H1 H2. unfold Uint32. assert (length (slice off (off + 4) b) = 4%nat) as Hl
    by (pose proof (len_slice b off (off + 4)) as Hs; unfold len in *; lia).
  rewrite <- Hl at 1. apply le_bytes_le_val.
Qed.

Lemma le_bytes_Uint64 b off : 0 <= off -> off + 8 <= len b -> le_bytes 8 (Uint64 b off) = slice off (off + 8) b.
Proof.
  intros H1 H2. unfold Uint64. assert (length (slice off (off + 8) b) = 8%nat) as Hl
    by (pose proof (len_slice b off (off + 8)) as Hs; unfold len in *; lia).
  rewrite <- Hl at 1. apply le_bytes_le_val.
Qed.

Lemma Uint32_range b off : 0 <= off -> off + 4 <= len b -> 0 <= Uint32 b off < 2 ^ 32.
Proof.
  intros H1 H2. unfold Uint32. pose proof (le_val_bound (slice off (off + 4) b)) as H.
  rewrite len_slice in H by lia. replace (off + 4 - off) with 4 in H by lia. exact H.
Qed.

Lemma Uint64_range b off : 0 <= off -> off + 8 <= len b -> is_u64 (Uint64 b off).
Proof.
  intros H1 H2. unfold Uint64. pose proof (le_val_bound (slice off (off + 8) b)) as H.
  rewrite len_slice in H by lia. replace (off + 8 - off) with 8 in H by lia. exact H.
Qed.

(** What [Decode] accepts is the encoding of what it returns. *)
Lemma Decode_Ok b r n :
  Decode b = Ok (r, n) -> wf r /\ n = size r /\ exists rest, b = Encode r ++ rest.
Proof.
  unfold Decode. case_decide; [done|]. case_decide as Hlen; [done|]. case_decide as Htot; [done|].
  case_decide as Hcrc; [done|]. destruct (negb _) eqn:Hop; [done|]. case_decide as Hhi; [done|].
  intros [= <- <-]. unfold HeaderSize, OffsetCRC, OffsetOp, OffsetTimestamp, OffsetKeyLen,
    OffsetValueLen in *.
  pose proof (Uint32_range b 13 ltac:(lia) ltac:(lia)) as Hk.
  pose proof (Uint32_range b 17 ltac:(lia) ltac:(lia)) as Hv.
  pose proof (Uint64_range b 5 ltac:(lia) ltac:(lia)) as Ht.
  assert (u32 (21 + Uint32 b 13) = 21 + Uint32 b 13 /\ 21 + Uint32 b 13 < 2 ^ 32) as [Hhi' Hsm].
  { unfold u32 in *. destruct (decide (21 + Uint32 b 13 < 2 ^ 32)); [by rewrite Z.mod_small by lia|].
    exfalso. apply Hhi. rewrite <- (Z.mod_add _ (-1)) by lia. rewrite Z.mod_small; lia. }
  rewrite Hhi' in *.
  assert (len (slice 21 (21 + Uint32 b 13) b) = Uint32 b 13) as Hlk by (rewrite len_slice; lia).
  assert (len (slice (21 + Uint32 b 13) (21 + Uint32 b 13 + Uint32 b 17) b) = Uint32 b 17) as Hlv
    by (rewrite len_slice; lia).
  split_and!.
  - unfold wf. cbn [Op Timestamp Key Value]. rewrite Hlk, Hlv. unfold HeaderSize.
    split_and!; [by apply negb_false_iff|done|lia|lia].
  - unfold size, HeaderSize. cbn [Key Value]. by rewrite Hlk, Hlv.
  - set (r := MkRec _ _ _ _). exists (drop (Z.to_nat (21 + Uint32 b 13 + Uint32 b 17)) b).
    assert (body r = slice 4 (21 + Uint32 b 13 + Uint32 b 17) b) as Hbody.
    { unfold body, r. cbn [Op Timestamp Key Value]. rewrite Hlk, Hlv.
      assert (forall z, 0 <= z < 2 ^ 32 -> u32 z = z) as Hu by (intros; by apply Z.mod_small).
      rewrite !Hu by lia. rewrite le_bytes_Uint64, !le_bytes_Uint32 by lia.
      assert ([default x00 (b !! Z.to_nat 4)] = slice 4 5 b) as ->.
      { unfold slice. destruct (b !! Z.to_nat 4) as [x|] eqn:Ex.
        - cbn [from_option id]. by rewrite (drop_S b x) by exact Ex.
        - apply lookup_ge_None in Ex. unfold len in *. lia. }
      rewrite <- !slice_split by lia. done. }
    unfold Encode. rewrite Hbody. rewrite Hcrc.
    rewrite le_bytes_Uint32 by lia. rewrite <- slice_split by lia. apply slice_drop. lia.
Qed.

(** ** Sequences of records *)

(** The bytes of a run of records: a log, a block of a table. *)
Definition encs (rs : list Rec) : bytes := concat (Encode <$> rs).

Lemma encs_app a b : encs (a ++ b) = encs a ++ encs b.
Proof. unfold encs. by rewrite fmap_app, concat_app. Qed.

Lemma encs_cons r rs : encs (r :: rs) = Encode r ++ encs rs.
Proof. done. Qed.

Lemma size_pos r : 21 <= size r.
Proof.
  unfold size, HeaderSize. pose proof (len_nonneg (Key r)).
  pose proof (len_nonneg (Value r)). lia.
Qed.

Lemma Encode_ne r rest : Encode r ++ rest <> [].
Proof.
  intros H. apply (f_equal len) in H. rewrite len_app, len_record_Encode, len_nil in H.
  pose proof (size_pos r). pose proof (len_nonneg rest). lia.
Qed.

Lemma drop_encs rs c : drop (Z.to_nat (len (encs rs))) (encs rs ++ c) = c.
Proof. by apply drop_len_app. Qed.

Lemma len_encs_snoc rs r : len (encs (rs ++ [r])) = len (encs rs) + size r.
Proof. rewrite encs_app, len_app, encs_cons, app_nil_r, len_record_Encode. done. Qed.

Lemma length_encs rs : (length rs <= length (encs rs))%nat.
Proof.
  induction rs as [|r rs IH]; [done|]. rewrite encs_cons, length_app. cbn [length].
  pose proof (len_record_Encode r) as Hl. pose proof (size_pos r). unfold len in Hl. lia.
Qed.

(** ** Properties *)

(** Round trip: decoding an encoded record, whatever bytes follow it, gives
    the record and its size back, for every record with a known op whose key
    and value lengths fit their fields; and conversely the bytes of every
    successful decode are the encoding of the record returned. *)
Theorem record_roundtrip :
  (forall r rest, wf r -> Decode (Encode r ++ rest) = Ok (r, len (Encode r)))
  /\ (forall b r n, Decode b = Ok (r, n) ->
        wf r /\ n = len (Encode r) /\ exists rest, b = Encode r ++ rest).
Proof.
  split.
  - intros r rest Hwf. rewrite len_record_Encode. by apply Decode_record.
  - intros b r n H. rewrite len_record_Encode. by apply Decode_Ok.
Qed.

(** Torn writes are recognised: a write of a record that stopped after a
    non-empty strict prefix decodes to [io.ErrUnexpectedEOF], an empty rest to
    [io.EOF]. *)
Theorem record_torn_write r p q :
  wf r -> Encode r = p ++ q -> q <> [] ->
  Decode p = Err (if decide (p = []) then EOF else UnexpectedEOF).
Proof.
  intros Hwf E Hq. case_decide as Hp; [by subst|]. by eapply Decode_torn.
Qed.

(** Corruption is detected: if one byte of an encoded record other than the
    two length fields is changed to any other value, [Decode] returns
    [ErrCorrupt]. *)
Theorem record_corruption_detected r l1 x x' l2 rest :
  wf r -> Encode r = l1 ++ x :: l2 -> x <> x' ->
  len l1 < OffsetKeyLen \/ HeaderSize <= len l1 ->
  Decode (l1 ++ x' :: l2 ++ rest) = Err ErrCorrupt.
Proof.
  intros Hwf E Hne Hpos. destruct (Encode_fields r rest Hwf) as (H1 & _ & _ & H4 & H5).
  pose proof (len_record_Encode r) as Hl. rewrite E in Hl.
  assert (forall lo hi, 0 <= lo -> lo <= hi -> (len l1 < lo \/ hi <= len l1) ->
    slice lo hi (l1 ++ x' :: l2 ++ rest) = slice lo hi (Encode r ++ rest)) as Hout.
  { intros lo hi ? ? [?|?]; rewrite E, <- app_assoc.
    - rewrite !(slice_app_r l1) by lia.
      change (x' :: l2 ++ rest) with ([x'] ++ (l2 ++ rest)).
      change ((x :: l2) ++ rest) with ([x] ++ (l2 ++ rest)).
      by rewrite (slice_app_r [x'] (l2 ++ rest)), (slice_app_r [x] (l2 ++ rest))
        by (rewrite len_cons, len_nil; lia).
    - by rewrite !(slice_app_l l1) by lia. }
  set (b := l1 ++ x' :: l2 ++ rest) in *.
  assert (len b = size r + len rest) as Hb
    by (unfold b; rewrite <- Hl; rewrite !len_app, !len_cons, !len_app; lia).
  pose proof (len_nonneg rest) as Hr0. pose proof (len_nonneg (Key r)) as Hk0.
  pose proof (len_nonneg (Value r)) as Hv0. pose proof (len_nonneg l1) as Hl0.
  unfold Decode, Uint32, size, HeaderSize, OffsetKeyLen, OffsetValueLen, OffsetCRC, OffsetOp in *.
  rewrite Hb. rewrite (Hout 13), (Hout 17), H4, H5 by lia.
  do 3 rewrite decide_False by lia. rewrite decide_True; [done|].
  destruct (decide (len l1 < 4)) as [Hlt|Hge].
  - assert (slice 4 (21 + len (Key r) + len (Value r)) (Encode r ++ rest) = body r) as Hbd.
    { unfold Encode. rewrite <- app_assoc. apply slice_mid; rewrite ?len_le_bytes, ?len_body; lia. }
    rewrite (Hout 4), Hbd, <- H1 by lia. intros Heq. apply Hne.
    assert (slice 0 (0 + 4) (Encode r ++ rest) = slice 0 (0 + 4) b) as Hs.
    { rewrite <- !le_bytes_Uint32 by (rewrite ?len_app, ?E, ?Hl; lia).
      unfold Uint32. by rewrite Heq. }
    apply (f_equal (fun l => l !! length l1)) in Hs. unfold slice, len in *.
    rewrite !drop_0, !lookup_take_lt in Hs by lia.
    unfold b in Hs. rewrite E, <- app_assoc, <- app_comm_cons in Hs.
    rewrite !list_lookup_middle in Hs by done. by injection Hs.
  - unfold Encode in E. assert (exists m1, l1 = le_bytes 4 (Checksum (body r)) ++ m1
                                  /\ body r = m1 ++ x :: l2) as (m1 & Hm1 & Hbd).
    { destruct (app_eq_inv _ _ _ _ E) as [(k & E1 & E2)|(k & -> & E2)]; [|by eauto].
      assert (k = []) as ->.
      { apply (f_equal len) in E1. rewrite len_app, len_le_bytes in E1.
        apply len_eq_0. pose proof (len_nonneg k). lia. }
      rewrite app_nil_r in E1. exists []. by rewrite app_nil_r. }
    rewrite (Hout 0), H1 by lia.
    assert (slice 4 (21 + len (Key r) + len (Value r)) b = m1 ++ x' :: l2) as ->.
    { unfold b. rewrite Hm1. rewrite <- app_assoc, app_comm_cons, (app_assoc m1).
      apply slice_mid; rewrite ?len_le_bytes; [done|].
      pose proof (len_body r) as Hlb. rewrite Hbd in Hlb. revert Hlb.
      rewrite !len_app, !len_cons. lia. }
    rewrite Hbd. intros Heq. symmetry in Heq. by apply Checksum_one_byte in Heq.
Qed.

(** ** Witnesses *)

Definition demo_rec : Rec := MkRec OpPut 7 [x6b] [x76; x31].

Lemma record_torn_write_witness :
  Decode (take 22 (Encode demo_rec)) = Err UnexpectedEOF.
Proof.
  pose proof (record_torn_write demo_rec (take 22 (Encode demo_rec)) (drop 22 (Encode demo_rec))
                ltac:(by_decide) ltac:(vm_compute; reflexivity) ltac:(by_decide)) as H.
  rewrite decide_False in H by (vm_compute; congruence). exact H.
Defined.

(** The value's last byte flipped. *)
Lemma record_corruption_detected_witness :
  Decode (take 23 (Encode demo_rec) ++ [x30]) = Err ErrCorrupt.
Proof.
  apply (record_corruption_detected demo_rec (take 23 (Encode demo_rec)) x31 x30 [] []).
  - by_decide.
  - vm_compute. reflexivity.
  - done.
  - right. by_decide.
Defined.

End record.
