(* ===== verification/Bloom.v ===== *)
(** * Bloom filters (internal/bloom/bloom.go)

    FNV-1a with Kirsch-Mitzenmacher double hashing over a byte array.  The
    abstract state of a filter is the set of bit positions probed by the keys
    added; membership is decided by that set, from which "no false negatives"
    follows. *)

From Stdlib Require Import ZArith Lia.
From Stdlib Require Import Strings.Byte.
From stdpp Require Import base list gmap.
From S2P Require Import Prelude.

#[local] Open Scope Z_scope.

Module bloom.

(** ** hash/fnv, New64a *)

Definition fnv_offset : Z := 14695981039346656037.
Definition fnv_prime : Z := 1099511628211.

Definition fnv64a (key : bytes) : Z :=
  foldl (fun h b => u64 (Z.lxor h (b2z b) * fnv_prime)) fnv_offset key.

(** The published FNV-1a hash of the text a. *)
Example fnv64a_check_value : fnv64a [x61] = 0xaf63dc4c8601ec8c.
Proof. vm_compute. reflexivity. Qed.

(** ** The filter *)

Record Filter := MkFilter { bits : bytes; m : Z; k : Z }.

(** ln 2 to 18 digits, over 10^18: for every clamped [bitsPerKey] the product
    is at least 0.001 away from a half integer, so the rounding of the float64
    product is that of this fraction. *)
Definition ln2_num : Z := 693147180559945309.
Definition ln2_den : Z := 10 ^ 18.

Definition round_ln2 (b : Z) : Z := (2 * b * ln2_num + ln2_den) / (2 * ln2_den).

Definition New (expectedKeys bitsPerKey : Z) : Filter :=
  let expectedKeys := if decide (expectedKeys < 1) then 1 else expectedKeys in
  let bitsPerKey := if decide (bitsPerKey < 1) then 1 else bitsPerKey in
  let bitsPerKey := if decide (bitsPerKey > 64) then 64 else bitsPerKey in
  let mBits := u64 (u64 expectedKeys * u64 bitsPerKey) in
  let mBytes := u64 (mBits + 7) / 8 in
  let mBytes := if decide (mBytes < 1) then 1 else mBytes in
  let mBits := u64 (mBytes * 8) in
  let k := round_ln2 bitsPerKey in
  let k := if decide (k < 1) then 1 else k in
  let k := if decide (k > 30) then 30 else k in
  MkFilter (replicate (Z.to_nat mBytes) x00) mBits (u8 k).

Definition hashPair (key : bytes) : Z * Z :=
  let sum := fnv64a key in (Z.land sum 0xFFFFFFFF, Z.shiftr sum 32).

(** The [i]-th position; a zero modulus panics. *)
Definition position (f : Filter) (h1 h2 i : Z) : option Z :=
  if decide (m f = 0) then None else Some (u64 (h1 + u64 (i * h2)) mod m f).

Definition setBit (bs : bytes) (pos : Z) : option bytes :=
  let j := Z.to_nat (Z.shiftr pos 3) in
  b ← bs !! j;
  Some (<[j := z2b (Z.lor (b2z b) (Z.shiftl 1 (Z.land pos 7)))]> bs).

Fixpoint Add_loop (n : nat) (i : Z) (h1 h2 : Z) (f : Filter) : option Filter :=
  match n with
  | O => Some f
  | S n' =>
      pos ← position f h1 h2 i;
      bs ← setBit (bits f) pos;
      Add_loop n' (i + 1) h1 h2 (MkFilter bs (m f) (k f))
  end.

(** [None] is a panic. *)
Definition Add (f : Filter) (key : bytes) : option Filter :=
  let '(h1, h2) := hashPair key in Add_loop (Z.to_nat (k f)) 0 h1 h2 f.

Definition testBit (bs : bytes) (pos : Z) : option bool :=
  b ← bs !! Z.to_nat (Z.shiftr pos 3);
  Some (negb (Z.land (b2z b) (Z.shiftl 1 (Z.land pos 7)) =? 0)).

Fixpoint MayContain_loop (n : nat) (i : Z) (h1 h2 : Z) (f : Filter) : option bool :=
  match n with
  | O => Some true
  | S n' =>
      pos ← position f h1 h2 i;
      b ← testBit (bits f) pos;
      if negb b then Some false else MayContain_loop n' (i + 1) h1 h2 f
  end.

Definition MayContain (f : Filter) (key : bytes) : option bool :=
  if decide (m f = 0) then Some false
  else let '(h1, h2) := hashPair key in MayContain_loop (Z.to_nat (k f)) 0 h1 h2 f.

Definition NumBits (f : Filter) : Z := i64 (m f).
Definition NumHashes (f : Filter) : Z := k f.

Definition Bytes (f : Filter) : bytes := z2b (k f) :: bits f.

Inductive error := ErrEmpty | ErrInvalidK (k : Z).

Definition Load (data : bytes) : outcome error Filter :=
  match data with
  | [] => Err ErrEmpty
  | b :: bs =>
      if decide (b2z b < 1 \/ b2z b > 30) then Err (ErrInvalidK (b2z b))
      else Ok (MkFilter bs (u64 (len bs * 8)) (b2z b))
  end.

Fixpoint AddAll (f : Filter) (keys : list bytes) : option Filter :=
  match keys with
  | [] => Some f
  | key :: keys' => f' ← Add f key; AddAll f' keys'
  end.

(** ** Well-formed filters *)

Definition wf (f : Filter) : Prop :=
  m f = len (bits f) * 8 /\ 0 < m f < 2 ^ 64 /\ 1 <= k f <= 30.

(** Bit [pos] of the array. *)
Definition bit (bs : bytes) (pos : Z) : bool :=
  Z.testbit (b2z (default x00 (bs !! Z.to_nat (pos / 8)))) (pos mod 8).

(** The positions of a key in a filter of [m] bits with [k] hashes. *)
Definition probe (m : Z) (key : bytes) (i : Z) : Z :=
  let '(h1, h2) := hashPair key in u64 (h1 + u64 (i * h2)) mod m.

Lemma New_wf n b : wf (New n b).
Proof.
  unfold wf, New. cbn [bits m k].
  set (b' := if decide (b < 1) then 1 else b).
  set (b2 := if decide (b' > 64) then 64 else b').
  set (x := u64 (_ + 7) / 8). set (y := if decide (x < 1) then 1 else x).
  assert (0 <= x <= 2 ^ 61 - 1) as Hx.
  { unfold x. pose proof (is_u64_u64 (u64 (u64 (if decide (n < 1) then 1 else n) * u64 b2) + 7)) as H.
    unfold is_u64 in H. split; [apply Z.div_pos; lia|].
    enough (u64 (u64 (u64 (if decide (n < 1) then 1 else n) * u64 b2) + 7) / 8 < 2 ^ 61) by lia.
    apply Z.div_lt_upper_bound; lia. }
  assert (1 <= y <= 2 ^ 61 - 1) as Hy by (unfold y; case_decide; lia).
  unfold len. rewrite length_replicate, Z2Nat.id by lia.
  rewrite u64_small by (unfold is_u64; lia). split_and!; [done|lia|lia|..];
    set (kk := round_ln2 b2); unfold u8; repeat case_decide; rewrite ?Z.mod_small by lia; lia.
Qed.

Lemma position_wf f h1 h2 i :
  wf f -> exists pos, position f h1 h2 i = Some pos /\ 0 <= pos < m f
    /\ pos = u64 (h1 + u64 (i * h2)) mod m f.
Proof.
  intros (_ & Hm & _). unfold position. rewrite decide_False by lia.
  eexists. split; [done|]. split; [apply Z.mod_pos_bound; lia|done].
Qed.

Lemma setBit_spec bs pos :
  0 <= pos < len bs * 8 ->
  exists bs', setBit bs pos = Some bs' /\ len bs' = len bs
    /\ forall p, 0 <= p -> bit bs' p = bit bs p || (p =? pos).
Proof.
  intros Hpos. unfold setBit. rewrite Z.shiftr_div_pow2 by lia. change (2 ^ 3) with 8.
  assert (Z.to_nat (pos / 8) < length bs)%nat as Hj.
  { unfold len in Hpos. assert (pos / 8 < Z.of_nat (length bs)) by (apply Z.div_lt_upper_bound; lia).
    pose proof (Z.div_pos pos 8). lia. }
  destruct (lookup_lt_is_Some_2 bs _ Hj) as [b Hb]. rewrite Hb. cbn [mbind option_bind].
  eexists. split; [done|]. split; [unfold len; by rewrite length_insert|].
  intros p Hp. unfold bit. pose proof (Z.mod_pos_bound p 8 ltac:(lia)) as Hmp.
  pose proof (Z.mod_pos_bound pos 8 ltac:(lia)) as Hmpos.
  destruct (decide (p / 8 = pos / 8)) as [Heq|Hne].
  - rewrite Heq, list_lookup_insert_eq, Hb by done. cbn [from_option id].
    rewrite b2z_z2b. change 256 with (2 ^ 8). rewrite Z.mod_pow2_bits_low by lia.
    rewrite Z.lor_spec. f_equal. change 7 with (Z.ones 3).
    rewrite Z.land_ones by lia. change (2 ^ 3) with 8. rewrite Z.shiftl_spec by lia.
    pose proof (Z.div_mod p 8 ltac:(lia)). pose proof (Z.div_mod pos 8 ltac:(lia)).
    destruct (decide (p mod 8 = pos mod 8)) as [Hd|Hd].
    + rewrite Hd, Z.sub_diag, (proj2 (Z.eqb_eq p pos)) by lia. done.
    + rewrite (proj2 (Z.eqb_neq p pos)) by lia.
      destruct (p mod 8 - pos mod 8) eqn:E; [lia| |done]. by destruct p0.
  - rewrite list_lookup_insert_ne by (pose proof (Z.div_pos p 8); pose proof (Z.div_pos pos 8); lia).
    rewrite (proj2 (Z.eqb_neq p pos)), orb_false_r by congruence. done.
Qed.

Lemma testBit_spec bs pos :
  0 <= pos < len bs * 8 -> testBit bs pos = Some (bit bs pos).
Proof.
  intros Hpos. unfold testBit, bit. rewrite Z.shiftr_div_pow2 by lia. change (2 ^ 3) with 8.
  assert (Z.to_nat (pos / 8) < length bs)%nat as Hj.
  { unfold len in Hpos. assert (pos / 8 < Z.of_nat (length bs)) by (apply Z.div_lt_upper_bound; lia).
    pose proof (Z.div_pos pos 8). lia. }
  destruct (lookup_lt_is_Some_2 bs _ Hj) as [b Hb]. rewrite Hb. cbn [mbind option_bind from_option id].
  f_equal. change 7 with (Z.ones 3). rewrite Z.land_ones by lia. change (2 ^ 3) with 8.
  pose proof (Z.mod_pos_bound pos 8 ltac:(lia)) as Hmp. rewrite Z.shiftl_1_l.
  apply eq_true_iff_eq. rewrite negb_true_iff, Z.eqb_neq. split.
  - intros Hne. destruct (Z.testbit (b2z b) (pos mod 8)) eqn:E; [done|]. exfalso. apply Hne.
    apply Z.bits_inj'. intros n Hn. rewrite Z.land_spec, Z.pow2_bits_eqb, Z.bits_0 by lia.
    destruct (Z.eqb_spec (pos mod 8) n) as [<-|]; [by rewrite E|apply andb_false_r].
  - intros E H0. apply (f_equal (fun z => Z.testbit z (pos mod 8))) in H0.
    rewrite Z.land_spec, Z.pow2_bits_true, E, Z.bits_0 in H0 by lia. done.
Qed.

Lemma Add_loop_spec n : forall i h1 h2 f,
  wf f ->
  exists f', Add_loop n i h1 h2 f = Some f' /\ wf f' /\ m f' = m f /\ k f' = k f
    /\ forall p, 0 <= p ->
         bit (bits f') p = true <->
         bit (bits f) p = true
         \/ exists j, i <= j < i + Z.of_nat n /\ p = u64 (h1 + u64 (j * h2)) mod m f.
Proof.
  induction n as [|n IH]; intros i h1 h2 f Hf; cbn [Add_loop].
  - exists f. split_and!; [done..|]. intros p _. split; [auto|]. intros [?|(j & ? & _)]; [done|lia].
  - destruct (position_wf f h1 h2 i Hf) as (pos & -> & Hpos & Hpe). cbn [mbind option_bind].
    destruct (setBit_spec (bits f) pos) as (bs & -> & Hlen & Hbit);
      [by destruct Hf as [-> _] in Hpos|]. cbn [mbind option_bind].
    destruct (IH (i + 1) h1 h2 (MkFilter bs (m f) (k f))) as (f' & -> & Hf' & Hm & Hk & Hb).
    { unfold wf in *. cbn. by rewrite Hlen. }
    exists f'. split_and!; [done..|]. intros p Hp. rewrite Hb by done. cbn [bits m].
    rewrite Hbit, orb_true_iff, Z.eqb_eq by done. split.
    + intros [[?|Heq]|(j & Hj & Heq)]; [auto| |].
      * right. exists i. split; [lia|]. by rewrite Heq.
      * right. exists j. split; [lia|done].
    + intros [?|(j & Hj & Heq)]; [auto|].
      destruct (decide (j = i)) as [->|]; [left; right; congruence|].
      right. exists j. split; [lia|done].
Qed.

Lemma MayContain_loop_spec n : forall i h1 h2 f,
  wf f ->
  exists b, MayContain_loop n i h1 h2 f = Some b
    /\ (b = true <-> forall j, i <= j < i + Z.of_nat n ->
                       bit (bits f) (u64 (h1 + u64 (j * h2)) mod m f) = true).
Proof.
  induction n as [|n IH]; intros i h1 h2 f Hf; cbn [MayContain_loop].
  - exists true. split; [done|]. split; [intros _ j; lia|done].
  - destruct (position_wf f h1 h2 i Hf) as (pos & -> & Hpos & ->). cbn [mbind option_bind].
    rewrite testBit_spec by (by destruct Hf as [<- _]). cbn [mbind option_bind].
    destruct (bit (bits f) _) eqn:Hb; cbn [negb].
    + destruct (IH (i + 1) h1 h2 f Hf) as (b & -> & Hiff). exists b. split; [done|].
      rewrite Hiff. split; intros H j Hj; [|apply H; lia].
      destruct (decide (j = i)) as [->|]; [done|]. apply H. lia.
    + exists false. split; [done|]. split; [done|]. intros H. rewrite <- Hb. apply H. lia.
Qed.

Lemma Add_spec f key :
  wf f ->
  exists f', Add f key = Some f' /\ wf f' /\ m f' = m f /\ k f' = k f
    /\ forall p, 0 <= p ->
         bit (bits f') p = true <->
         bit (bits f) p = true \/ exists j, 0 <= j < k f /\ p = probe (m f) key j.
Proof.
  intros Hf. unfold Add, probe. destruct (hashPair key) as [h1 h2].
  destruct (Add_loop_spec (Z.to_nat (k f)) 0 h1 h2 f Hf) as (f' & H). exists f'.
  rewrite Z2Nat.id in H by (destruct Hf; lia). exact H.
Qed.

Lemma AddAll_spec keys : forall f,
  wf f ->
  exists f', AddAll f keys = Some f' /\ wf f' /\ m f' = m f /\ k f' = k f
    /\ forall p, 0 <= p ->
         bit (bits f') p = true <->
         bit (bits f) p = true
         \/ exists key j, key ∈ keys /\ 0 <= j < k f /\ p = probe (m f) key j.
Proof.
  induction keys as [|key keys IH]; intros f Hf; cbn [AddAll].
  - exists f. split_and!; [done..|]. intros p _. split; [auto|].
    intros [?|(key & j & H & _)]; [done|]. by apply elem_of_nil in H.
  - destruct (Add_spec f key Hf) as (f1 & -> & Hf1 & Hm1 & Hk1 & Hb1). cbn [mbind option_bind].
    destruct (IH f1 Hf1) as (f' & -> & Hf' & Hm & Hk & Hb). exists f'.
    split_and!; [done|done|congruence|congruence|]. intros p Hp.
    rewrite Hb, Hb1, Hm1, Hk1 by done. setoid_rewrite elem_of_cons. split.
    + intros [[?|(j & ? & ?)]|(key' & j & ? & ? & ?)]; eauto 8.
    + intros [?|(key' & j & [->|?] & ? & ?)]; eauto 8.
Qed.

Lemma MayContain_spec f key :
  wf f ->
  exists b, MayContain f key = Some b
    /\ (b = true <-> forall i, 0 <= i < k f -> bit (bits f) (probe (m f) key i) = true).
Proof.
  intros Hf. unfold MayContain. rewrite decide_False by (destruct Hf; lia).
  unfold probe. destruct (hashPair key) as [h1 h2].
  destruct (MayContain_loop_spec (Z.to_nat (k f)) 0 h1 h2 f Hf) as (b & H). exists b.
  rewrite Z2Nat.id in H by (destruct Hf; lia). exact H.
Qed.

Lemma probe_nonneg mm key i : 0 < mm -> 0 <= probe mm key i.
Proof. intros H. unfold probe. destruct (hashPair key). apply Z.mod_pos_bound. lia. Qed.

(** Membership only grows. *)
Lemma Add_MayContain f key :
  wf f ->
  exists f', Add f key = Some f' /\ wf f' /\ m f' = m f /\ MayContain f' key = Some true
    /\ forall key', MayContain f key' = Some true -> MayContain f' key' = Some true.
Proof.
  intros Hf. destruct (Add_spec f key Hf) as (f' & Hadd & Hf' & Hm & Hk & Hb). exists f'.
  pose proof Hf as (_ & Hm0 & _).
  assert (forall kk i, 0 <= probe (m f) kk i) as Hp by (intros; apply probe_nonneg; lia).
  split_and!; [done..| |].
  - destruct (MayContain_spec f' key Hf') as (r & -> & Hr). f_equal. apply Hr. rewrite Hm, Hk.
    intros i Hi. apply Hb; [apply Hp|]. eauto.
  - intros key' H. destruct (MayContain_spec f key' Hf) as (r & Hr & Hiff).
    rewrite Hr in H. injection H as ->.
    destruct (MayContain_spec f' key' Hf') as (r' & -> & Hr'). f_equal. apply Hr'. rewrite Hm, Hk.
    intros i Hi. apply Hb; [apply Hp|]. left. by apply Hiff.
Qed.

Lemma New_bits n b p : bit (bits (New n b)) p = false.
Proof.
  unfold bit, New. cbn [bits]. set (j := Z.to_nat (p / 8)). set (sz := Z.to_nat _).
  destruct (replicate sz x00 !! j) as [x|] eqn:E; cbn [from_option id]; [|apply Z.bits_0].
  apply lookup_replicate in E as [-> _]. apply Z.bits_0.
Qed.

Lemma Load_Bytes f : wf f -> Load (Bytes f) = Ok f.
Proof.
  intros (Hm & Hr & Hk). unfold Load, Bytes. rewrite b2z_z2b, Z.mod_small by lia.
  rewrite decide_False by lia. rewrite <- Hm, u64_small by (unfold is_u64; lia). by destruct f.
Qed.

(** ** Properties *)

(** C38. A filter of any size built from any keys, written with [Bytes] and read
    back with [Load], is the same filter, and [MayContain] answers true exactly
    when each of the key's k positions was set by some added key: in
    particular for every added key (no false negatives), and never on an empty
    filter.  None of the operations panics. *)
Theorem bloom_membership n b keys :
  exists f, AddAll (New n b) keys = Some f /\ Load (Bytes f) = Ok f
    /\ (forall key, key ∈ keys -> MayContain f key = Some true)
    /\ forall key, exists r, MayContain f key = Some r
         /\ (r = true <-> forall i, 0 <= i < k f ->
              exists key' j, key' ∈ keys /\ 0 <= j < k f
                /\ probe (m f) key i = probe (m f) key' j).
Proof.
  destruct (AddAll_spec keys (New n b) (New_wf n b)) as (f & Hf & Hwf & Hm & Hk & Hb).
  rewrite <- Hm, <- Hk in Hb. pose proof Hwf as (_ & Hm0 & _).
  assert (forall key, exists r, MayContain f key = Some r
         /\ (r = true <-> forall i, 0 <= i < k f ->
              exists key' j, key' ∈ keys /\ 0 <= j < k f
                /\ probe (m f) key i = probe (m f) key' j)) as Hall.
  { intros key. destruct (MayContain_spec f key Hwf) as (r & Hr & Hiff). exists r. split; [done|].
    rewrite Hiff. split; intros H i Hi; specialize (H i Hi).
    - apply Hb in H; [|apply probe_nonneg; lia]. rewrite New_bits in H. destruct H as [?|?]; done.
    - apply Hb; [apply probe_nonneg; lia|]. by right. }
  exists f. split_and!; [done|by apply Load_Bytes| |done].
  intros key Hin. destruct (Hall key) as (r & -> & Hiff). f_equal. apply Hiff.
  intros i Hi. exists key, i. done.
Qed.

(** [Load] accepts exactly the non-empty inputs whose first byte is a hash
    count in 1..30; what it accepts is the serialised form of what it
    returns. *)
Theorem bloom_load data :
  match Load data with
  | Ok f => Bytes f = data /\ 1 <= k f <= 30
  | Err ErrEmpty => data = []
  | Err (ErrInvalidK kk) => exists b r, data = b :: r /\ kk = b2z b /\ ~ (1 <= b2z b <= 30)
  | Panic => False
  end.
Proof.
  destruct data as [|b r]; cbn; [done|]. case_decide as H; [by exists b, r; split_and!; [..|lia]|].
  unfold Bytes. cbn. rewrite z2b_b2z. split; [done|lia].
Qed.

End bloom.
