(* ===== verification/Wal.v ===== *)
(** * The write-ahead log (internal/wal/wal.go)

    The log file is a byte list with a write position and the number of bytes
    an fsync has made durable; operating-system calls succeed.  A crash keeps
    the durable bytes and any part of the rest, so the states a reopen can meet
    are the truncations of the file at or past the durable length. *)

From Stdlib Require Import ZArith Lia.
From Stdlib Require Import Strings.Byte.
From stdpp Require Import base list gmap.
From S2P Require Import Prelude.
From S2P Require Import Versions.
From S2P Require Import RecordFmt.

#[local] Open Scope Z_scope.

Module wal.

Record WAL := MkWAL {
  f : bytes;            (* contents of the file *)
  pos : Z;              (* file offset of the next Write *)
  synced : Z;           (* bytes known durable *)
  size : Z;
  SyncOnWrite : bool;
  closed : bool
}.

Inductive error :=
| ErrClosed
| ErrInvalidOffset (offset size : Z)
| ErrShortRead (offset : Z)
| ErrDecode (offset : Z) (e : record.error).

(** ** Open *)

(** The loop of [recover]: the offset of the first bad record, if any. The fuel
    counts records; every record is at least [HeaderSize] bytes, so the file
    length is enough. *)
Fixpoint recover_loop (fuel : nat) (buf : bytes) (offset : Z) : outcome error (Z * bool) :=
  match fuel with
  | O => Panic
  | S fuel' =>
      if decide (offset < len buf) then
        match record.Decode (drop (Z.to_nat offset) buf) with
        | Ok (_, n) => recover_loop fuel' buf (offset + n)
        | Err record.UnexpectedEOF | Err record.ErrCorrupt => Ok (offset, true)
        | Err e => Err (ErrDecode offset e)
        | Panic => Panic
        end
      else Ok (offset, false)
  end.

Definition recover (w : WAL) : outcome error WAL :=
  let fileSize := len (f w) in
  if decide (fileSize = 0) then Ok (MkWAL (f w) (pos w) (synced w) 0 (SyncOnWrite w) (closed w))
  else
    match recover_loop (S (length (f w))) (f w) 0 with
    | Ok (offset, true) =>
        let f' := take (Z.to_nat offset) (f w) in
        Ok (MkWAL f' (pos w) (len f') offset (SyncOnWrite w) (closed w))
    | Ok (_, false) => Ok (MkWAL (f w) (pos w) (synced w) fileSize (SyncOnWrite w) (closed w))
    | Err e => Err e
    | Panic => Panic
    end.

(** [file = None]: the log does not exist and is created.  [durable] bytes of the
    file were made durable by whoever had it open before: all of it after a crash
    of the machine, maybe less after one of the process. *)
Definition OpenWith (file : option bytes) (durable : Z) (syncOnWrite : bool) : outcome error WAL :=
  let content := default [] file in
  match recover (MkWAL content 0 durable 0 syncOnWrite false) with
  | Ok w => Ok (MkWAL (f w) (size w) (synced w) (size w) (SyncOnWrite w) (closed w))
  | Err e => Err e
  | Panic => Panic
  end.

(** ** Append, ReadAt, Scan, Size, Close *)

Definition Append (w : WAL) (rec : record.Rec) : outcome error (WAL * Z) :=
  if closed w then Err ErrClosed
  else
    let encoded := record.Encode rec in
    let offset := size w in
    let f' := pwrite (f w) (pos w) encoded in
    let synced' := if SyncOnWrite w then len f' else synced w in
    Ok (MkWAL f' (pos w + len encoded) synced' (i64 (size w + len encoded)) (SyncOnWrite w) (closed w),
        offset).

Definition ReadAt (w : WAL) (offset : Z) : outcome error record.Rec :=
  if closed w then Err ErrClosed
  else if decide (offset < 0 \/ offset >= size w) then Err (ErrInvalidOffset offset (size w))
  else
    match pread (f w) offset record.HeaderSize with
    | None => Err (ErrShortRead offset)
    | Some hdr =>
        match record.HeaderLengths hdr with
        | Err e => Err (ErrDecode offset e)
        | Panic => Panic
        | Ok (keyLen, valueLen) =>
            let total := record.HeaderSize + keyLen + valueLen in
            match (if decide (total > record.HeaderSize)
                   then pread (f w) (offset + record.HeaderSize) (total - record.HeaderSize)
                   else Some []) with
            | None => Err (ErrShortRead offset)
            | Some rest =>
                match record.Decode (hdr ++ rest) with
                | Ok (rec, _) => Ok rec
                | Err e => Err (ErrDecode offset e)
                | Panic => Panic
                end
            end
        end
    end.

Section scan.
Context {A E : Type}.

(** The callback updates an accumulator and may stop with an error of its own. *)
Variable fn : Z -> record.Rec -> A -> A * option E.

Inductive scan_error := ScanWal (e : error) | ScanFn (e : E).

Fixpoint Scan_loop (fuel : nat) (buf : bytes) (offset : Z) (acc : A)
  : option (A * option scan_error) :=
  match fuel with
  | O => None
  | S fuel' =>
      if decide (offset < len buf) then
        match record.Decode (drop (Z.to_nat offset) buf) with
        | Ok (rec, n) =>
            match fn offset rec acc with
            | (acc', Some e) => Some (acc', Some (ScanFn e))
            | (acc', None) => Scan_loop fuel' buf (offset + n) acc'
            end
        | Err e => Some (acc, Some (ScanWal (ErrDecode offset e)))
        | Panic => None
        end
      else Some (acc, None)
  end.

(** [None] is a panic. *)
Definition Scan (w : WAL) (acc : A) : option (A * option scan_error) :=
  if closed w then Some (acc, Some (ScanWal ErrClosed))
  else if decide (size w = 0) then Some (acc, None)
  else
    match pread (f w) 0 (size w) with
    | None => Some (acc, Some (ScanWal (ErrShortRead 0)))
    | Some buf => Scan_loop (S (length buf)) buf 0 acc
    end.

End scan.

Definition Size (w : WAL) : Z := size w.

Definition Close (w : WAL) : WAL :=
  if closed w then w
  else MkWAL (f w) (pos w) (len (f w)) (size w) (SyncOnWrite w) true.

(** ** Crash *)

(** The files a crash can leave behind. *)
Definition crash (w : WAL) (file : bytes) : Prop :=
  exists n, synced w <= n <= len (f w) /\ file = take (Z.to_nat n) (f w).

(** Crash inside [Append], after part of the record was written. *)
Definition crash_append (w : WAL) (rec : record.Rec) (file : bytes) : Prop :=
  exists n, synced w <= n <= len (f w) + record.size rec
    /\ file = take (Z.to_nat n) (pwrite (f w) (pos w) (record.Encode rec)).

(** Offset of each record. *)
Fixpoint offsets (o : Z) (rs : list record.Rec) : list (Z * record.Rec) :=
  match rs with
  | [] => []
  | r :: rs' => (o, r) :: offsets (o + record.size r) rs'
  end.

(** An open log that holds [rs]. *)
Record holds (w : WAL) (rs : list record.Rec) : Prop := {
  holds_wf : Forall record.wf rs;
  holds_f : f w = record.encs rs;
  holds_size : size w = len (record.encs rs);
  holds_pos : pos w = len (record.encs rs);
  holds_synced : 0 <= synced w <= len (record.encs rs);
  holds_open : closed w = false;
  holds_small : len (record.encs rs) < 2 ^ 63
}.

(** ** Lemmas *)

(** What the recovery loop finds in a file, from any record boundary on. *)
Lemma recover_loop_inv fuel : forall pre c,
  (length c < fuel)%nat ->
  exists rs tail, c = record.encs rs ++ tail /\ Forall record.wf rs
    /\ match recover_loop fuel (record.encs pre ++ c) (len (record.encs pre)) with
       | Ok (off, false) => off = len (record.encs (pre ++ rs)) /\ tail = []
       | Ok (off, true) => off = len (record.encs (pre ++ rs)) /\ tail <> []
           /\ (record.Decode tail = Err record.UnexpectedEOF
               \/ record.Decode tail = Err record.ErrCorrupt)
       | Err e => e = ErrDecode (len (record.encs (pre ++ rs))) record.ErrInvalidOp
           /\ record.Decode tail = Err record.ErrInvalidOp
       | Panic => record.Decode tail = Panic
       end.
Proof.
  induction fuel as [|fuel IH]; intros pre c Hc; [lia|]. cbn [recover_loop].
  rewrite len_app. case_decide as Hlt.
  - assert (c <> []) as Hne by (intros ->; rewrite len_nil in Hlt; lia).
    rewrite record.drop_encs. destruct (record.Decode c) as [[r n]|e|] eqn:E.
    + destruct (record.Decode_Ok _ _ _ E) as (Hwf & -> & rest & ->).
      destruct (IH (pre ++ [r]) rest) as (rs & tail & -> & Hrs & H).
      { rewrite length_app in Hc. pose proof (record.len_record_Encode r) as Hl.
        pose proof (record.size_pos r). unfold len in Hl. lia. }
      exists (r :: rs), tail. split_and!; [by rewrite record.encs_cons, app_assoc|by constructor|].
      rewrite record.len_encs_snoc, record.encs_app, record.encs_cons, app_nil_r, <- !app_assoc in H. exact H.
    + exists [], c. rewrite app_nil_r. split_and!; [done|constructor|].
      destruct e; [by apply record.Decode_EOF in E|by auto..|done].
    + exists [], c. split_and!; [done|constructor|done].
  - exists [], []. assert (len c = 0) as ->%len_eq_0 by (pose proof (len_nonneg c); lia).
    split; [done|]. split; [constructor|]. by rewrite (app_nil_r pre).
Qed.

(** The loop over whole records, forwards. *)
Lemma recover_loop_skip rs : forall pre c fuel,
  Forall record.wf rs ->
  recover_loop (length rs + fuel) (record.encs pre ++ record.encs rs ++ c) (len (record.encs pre))
  = recover_loop fuel (record.encs (pre ++ rs) ++ c) (len (record.encs (pre ++ rs))).
Proof.
  induction rs as [|r rs IH]; intros pre c fuel Hrs; [by rewrite app_nil_r|].
  apply Forall_cons in Hrs as [Hr Hrs]. cbn [length plus recover_loop].
  rewrite record.encs_cons, <- app_assoc, record.drop_encs.
  rewrite decide_True; [|rewrite !len_app, record.len_record_Encode; pose proof (record.size_pos r);
    pose proof (len_nonneg (record.encs rs)); pose proof (len_nonneg c); lia].
  rewrite record.Decode_record by done. rewrite <- record.len_encs_snoc.
  replace (record.encs pre ++ record.Encode r ++ record.encs rs ++ c)
    with (record.encs (pre ++ [r]) ++ record.encs rs ++ c)
    by (rewrite record.encs_app, record.encs_cons, app_nil_r, <- !app_assoc; done).
  rewrite IH by done. by rewrite <- app_assoc.
Qed.

(** The log opened from a file of [rs] and [tail], which is truncated, and the
    file synced, unless it is empty. *)
Definition opened (rs : list record.Rec) (tail : bytes) (durable : Z) (sync : bool) : WAL :=
  let n := len (record.encs rs) in
  MkWAL (record.encs rs) n (match tail with [] => durable | _ => n end) n sync false.

(** Opening a file that holds [rs] and a torn or corrupt tail. *)
Lemma OpenWith_torn rs tail durable sync :
  Forall record.wf rs ->
  tail = [] \/ record.Decode tail = Err record.UnexpectedEOF
  \/ record.Decode tail = Err record.ErrCorrupt ->
  OpenWith (Some (record.encs rs ++ tail)) durable sync = Ok (opened rs tail durable sync).
Proof.
  intros Hrs Ht. unfold OpenWith, recover, opened. cbn [default f pos synced SyncOnWrite closed].
  cbn [from_option id]. case_decide as H0.
  - apply len_eq_0, app_eq_nil in H0 as [-> ->]. done.
  - assert (recover_loop (S (length (record.encs rs ++ tail))) (record.encs rs ++ tail) 0
            = recover_loop (S (length (record.encs rs ++ tail)) - length rs) (record.encs rs ++ tail) (len (record.encs rs)))
      as ->.
    { pose proof (record.length_encs rs). pose proof (length_app (record.encs rs) tail).
      rewrite <- (recover_loop_skip rs [] tail _ Hrs). cbn [app record.encs concat fmap list_fmap].
      f_equal. lia. }
    assert (exists n, S (length (record.encs rs ++ tail)) - length rs = S n)%nat as [n ->].
    { pose proof (record.length_encs rs). rewrite length_app.
      exists (length (record.encs rs) + length tail - length rs)%nat. lia. }
    cbn [recover_loop]. rewrite record.drop_encs, len_app. case_decide as Hlt.
    + assert (tail <> []) as Hne by (intros ->; rewrite len_nil in Hlt; lia).
      destruct Ht as [->|[-> | ->]]; [done|..];
        cbn [f size synced SyncOnWrite closed]; rewrite take_len_app; by destruct tail.
    + assert (tail = []) as -> by (apply len_eq_0; pose proof (len_nonneg tail); lia).
      cbn [f size synced SyncOnWrite closed]. by rewrite app_nil_r, len_nil, Z.add_0_r.
Qed.

(** A truncated log is whole records and a torn one. *)
Lemma take_encs n rs :
  Forall record.wf rs -> 0 <= n <= len (record.encs rs) ->
  exists j tail, take (Z.to_nat n) (record.encs rs) = record.encs (take j rs) ++ tail
    /\ (tail = [] \/ record.Decode tail = Err record.UnexpectedEOF)
    /\ len (record.encs (take j rs)) <= n
    /\ forall r, rs !! j = Some r -> n < len (record.encs (take (S j) rs)).
Proof.
  intros Hrs. revert n. induction Hrs as [|r rs Hr _ IH]; intros n Hn.
  - exists 0%nat, []. split_and!; [by destruct (Z.to_nat n)|by left|exact (proj1 Hn)|done].
  - rewrite record.encs_cons in Hn |- *. rewrite len_app, record.len_record_Encode in Hn.
    destruct (decide (n < record.size r)) as [Hlt|Hge].
    + exists 0%nat, (take (Z.to_nat n) (record.Encode r)).
      assert (length (record.Encode r) = Z.to_nat (record.size r)) as Hl
        by (rewrite <- record.len_record_Encode; unfold len; lia).
      split_and!.
      * rewrite take_app_le by lia. done.
      * destruct (decide (n = 0)) as [->|]; [by left|right].
        apply (record.Decode_torn r _ (drop (Z.to_nat n) (record.Encode r))); [done|..].
        { by rewrite take_drop. }
        { intros E. apply (f_equal length) in E. rewrite length_take, Hl in E. cbn in E. pose proof (record.size_pos r). lia. }
        { intros E. apply (f_equal length) in E. rewrite length_drop, Hl in E. cbn in E. lia. }
      * exact (proj1 Hn).
      * intros r' _. cbn [take]. rewrite record.encs_cons, app_nil_r, record.len_record_Encode. lia.
    + destruct (IH (n - record.size r)) as (j & tail & E & Ht & Hle & Hgt); [lia|].
      exists (S j), tail. cbn [take]. rewrite !record.encs_cons, <- app_assoc, <- E. split_and!.
      * rewrite take_app_ge by (rewrite <- record.len_record_Encode in Hge; unfold len in Hge; lia).
        do 2 f_equal. pose proof (record.len_record_Encode r) as Hl. unfold len in Hl. lia.
      * done.
      * rewrite len_app, record.len_record_Encode. lia.
      * intros r' Hr'. specialize (Hgt r' Hr'). cbn [take] in Hgt |- *.
        rewrite len_app, record.len_record_Encode. lia.
Qed.

Lemma Append_holds w rs r :
  holds w rs -> record.wf r -> len (record.encs rs) + record.size r < 2 ^ 63 ->
  exists w', Append w r = Ok (w', len (record.encs rs)) /\ holds w' (rs ++ [r])
    /\ SyncOnWrite w' = SyncOnWrite w.
Proof.
  intros [Hwf Hf Hs Hp Hsy Hcl Hsm] Hr Hlt. unfold Append. rewrite Hcl, Hs.
  eexists. split; [done|]. split; [|done].
  rewrite Hf, Hp, pwrite_end, record.len_record_Encode.
  assert (record.encs rs ++ record.Encode r = record.encs (rs ++ [r])) as E
    by (by rewrite record.encs_app, record.encs_cons, app_nil_r).
  pose proof (len_nonneg (record.encs rs)) as H0. pose proof (record.size_pos r) as H1.
  rewrite E. pose proof (record.len_encs_snoc rs r) as Hl. split; cbn [f size pos synced SyncOnWrite closed].
  - apply Forall_app. split; [done|]. by apply Forall_singleton.
  - done.
  - rewrite i64_small, Hl; lia.
  - lia.
  - destruct (SyncOnWrite w); lia.
  - done.
  - lia.
Qed.

(** An append with SyncOnWrite makes the whole file durable. *)
Lemma Append_synced w r w' o : Append w r = Ok (w', o) -> SyncOnWrite w = true -> synced w' = len (f w').
Proof. unfold Append. destruct (closed w); [done|]. intros [= <- _] ->. done. Qed.

Section scan_lemmas.
Context {A E : Type}.
Variable fn : Z -> record.Rec -> A -> A * option E.

(** Folding the callback over the records of a log. *)
Fixpoint scan_list (l : list (Z * record.Rec)) (acc : A) : A * option E :=
  match l with
  | [] => (acc, None)
  | (o, r) :: l' =>
      match fn o r acc with
      | (acc', Some e) => (acc', Some e)
      | (acc', None) => scan_list l' acc'
      end
  end.

Lemma Scan_loop_list rs : forall pre fuel acc,
  Forall record.wf rs -> (length rs < fuel)%nat ->
  Scan_loop fn fuel (record.encs pre ++ record.encs rs) (len (record.encs pre)) acc
  = Some (let '(a, e) := scan_list (offsets (len (record.encs pre)) rs) acc in (a, ScanFn <$> e)).
Proof.
  induction rs as [|r rs IH]; intros pre fuel acc Hrs Hf;
    (destruct fuel as [|fuel]; [cbn in Hf; lia|]); cbn [Scan_loop offsets scan_list].
  - rewrite app_nil_r, decide_False by lia. done.
  - apply Forall_cons in Hrs as [Hr Hrs]. rewrite record.encs_cons, record.drop_encs.
    rewrite decide_True; [|rewrite !len_app, record.len_record_Encode; pose proof (record.size_pos r);
      pose proof (len_nonneg (record.encs rs)); lia].
    rewrite record.Decode_record by done.
    destruct (fn (len (record.encs pre)) r acc) as [acc' [e|]]; [done|].
    rewrite <- record.len_encs_snoc.
    replace (record.encs pre ++ record.Encode r ++ record.encs rs) with (record.encs (pre ++ [r]) ++ record.encs rs)
      by (rewrite record.encs_app, record.encs_cons, app_nil_r, <- !app_assoc; done).
    rewrite IH by (done || (cbn in Hf; lia)). by rewrite record.len_encs_snoc.
Qed.

Lemma Scan_holds w rs acc :
  holds w rs ->
  Scan fn w acc = Some (let '(a, e) := scan_list (offsets 0 rs) acc in (a, ScanFn <$> e)).
Proof.
  intros [Hwf Hf Hs _ _ Hcl _]. unfold Scan. rewrite Hcl, Hs. case_decide as H0.
  - destruct rs as [|r rs]; [done|]. exfalso. rewrite record.encs_cons, len_app, record.len_record_Encode in H0.
    pose proof (record.size_pos r). pose proof (len_nonneg (record.encs rs)). lia.
  - unfold pread. rewrite Hf, decide_True by (pose proof (len_nonneg (record.encs rs)); lia).
    rewrite Z.add_0_l, slice_all.
    apply (Scan_loop_list rs [] (S (length (record.encs rs))) acc Hwf). pose proof (record.length_encs rs). lia.
Qed.

End scan_lemmas.

Lemma scan_list_collect {E} (l acc : list (Z * record.Rec)) :
  scan_list (E := E) (fun o r acc => (acc ++ [(o, r)], None)) l acc = (acc ++ l, None).
Proof.
  revert acc. induction l as [|[o r] l IH]; intros acc; cbn; [by rewrite app_nil_r|].
  rewrite IH. by rewrite <- app_assoc.
Qed.

Lemma offsets_elem rs : forall b o r,
  (o, r) ∈ offsets b rs -> exists pre post, rs = pre ++ r :: post /\ o = b + len (record.encs pre).
Proof.
  induction rs as [|x rs IH]; intros b o r H; cbn in H; [by apply elem_of_nil in H|].
  apply elem_of_cons in H as [[= -> ->]|H].
  - exists [], rs. split; [done|]. change (len (record.encs [])) with 0. lia.
  - destruct (IH _ _ _ H) as (pre & post & -> & ->). exists (x :: pre), post. split; [done|].
    rewrite record.encs_cons, len_app, record.len_record_Encode. lia.
Qed.

Lemma ReadAt_holds w pre r post :
  holds w (pre ++ r :: post) -> ReadAt w (len (record.encs pre)) = Ok r.
Proof.
  intros [Hwf Hf Hs _ _ Hcl _]. unfold ReadAt. rewrite Hcl, Hs.
  rewrite record.encs_app, record.encs_cons in *. rewrite !len_app, record.len_record_Encode.
  pose proof (record.size_pos r) as Hsz. pose proof (len_nonneg (record.encs pre)). pose proof (len_nonneg (record.encs post)).
  apply Forall_app in Hwf as [_ Hwf]. apply Forall_cons in Hwf as [Hr _].
  rewrite decide_False by lia. unfold pread. rewrite Hf, !len_app, record.len_record_Encode.
  rewrite decide_True by (unfold record.HeaderSize; lia).
  destruct (record.Encode_split r) as (hdr & Eh & Hhl).
  destruct (record.Encode_fields r [] Hr) as (_ & _ & _ & H4 & H5). rewrite app_nil_r in H4, H5.
  assert (slice (len (record.encs pre)) (len (record.encs pre) + record.HeaderSize)
            (record.encs pre ++ record.Encode r ++ record.encs post) = hdr) as ->.
  { rewrite Eh, <- app_assoc. apply slice_mid; lia. }
  unfold record.HeaderLengths. rewrite decide_False by lia.
  assert (record.Uint32 hdr record.OffsetKeyLen = len (record.Key r)) as ->.
  { rewrite <- H4, Eh. unfold record.Uint32. symmetry.
    apply f_equal, slice_app_l; rewrite ?Hhl; unfold record.HeaderSize, record.OffsetKeyLen; lia. }
  assert (record.Uint32 hdr record.OffsetValueLen = len (record.Value r)) as ->.
  { rewrite <- H5, Eh. unfold record.Uint32. symmetry.
    apply f_equal, slice_app_l; rewrite ?Hhl; unfold record.HeaderSize, record.OffsetValueLen; lia. }
  fold (record.size r).
  assert ((if decide (record.size r > record.HeaderSize)
     then if decide (0 <= len (record.encs pre) + record.HeaderSize
                 /\ len (record.encs pre) + record.HeaderSize + (record.size r - record.HeaderSize)
                    <= len (record.encs pre) + (record.size r + len (record.encs post)))
          then Some (slice (len (record.encs pre) + record.HeaderSize)
                       (len (record.encs pre) + record.HeaderSize + (record.size r - record.HeaderSize))
                       (record.encs pre ++ record.Encode r ++ record.encs post))
          else None
     else Some []) = Some (record.Key r ++ record.Value r)) as ->.
  { assert (record.size r = record.HeaderSize + len (record.Key r ++ record.Value r)) as Hsz'
      by (unfold record.size; rewrite len_app; lia).
    case_decide as Hd.
    - rewrite decide_True by (unfold record.HeaderSize in *; lia). f_equal.
      rewrite Eh, <- (app_assoc hdr), (app_assoc (record.encs pre)).
      apply slice_mid; rewrite len_app; lia.
    - f_equal. symmetry. apply len_eq_0. pose proof (len_nonneg (record.Key r ++ record.Value r)). lia. }
  rewrite <- Eh, <- (app_nil_r (record.Encode r)), record.Decode_record by done. done.
Qed.

Lemma holds_opened rs tail durable sync :
  Forall record.wf rs -> len (record.encs rs) < 2 ^ 63 -> 0 <= durable <= len (record.encs rs ++ tail) ->
  holds (opened rs tail durable sync) rs.
Proof.
  intros H1 H2 Hd. pose proof (len_nonneg (record.encs rs)). split; cbn; try done.
  destruct tail; [rewrite app_nil_r in Hd|]; lia.
Qed.

Lemma holds_reopened rs tail sync : Forall record.wf rs -> len (record.encs rs) < 2 ^ 63 -> holds (opened rs tail 0 sync) rs.
Proof. intros H1 H2. apply holds_opened; [done|done|]. split; [done|apply len_nonneg]. Qed.

(** Open, on every file. *)
Lemma OpenWith_inv c durable sync :
  exists rs tail, c = record.encs rs ++ tail /\ Forall record.wf rs
    /\ match OpenWith (Some c) durable sync with
       | Ok w => w = opened rs tail durable sync
           /\ (tail = [] \/ record.Decode tail = Err record.UnexpectedEOF
               \/ record.Decode tail = Err record.ErrCorrupt)
       | Err e => e = ErrDecode (len (record.encs rs)) record.ErrInvalidOp
           /\ record.Decode tail = Err record.ErrInvalidOp
       | Panic => record.Decode tail = Panic
       end.
Proof.
  destruct (recover_loop_inv (S (length c)) [] c ltac:(lia)) as (rs & tail & -> & Hrs & H).
  exists rs, tail. split_and!; [done..|]. cbn [app record.encs concat fmap list_fmap] in H.
  change (len []) with 0 in H.
  destruct (recover_loop _ _ 0) as [[off tr]|e|] eqn:El.
  - assert (tail = [] \/ record.Decode tail = Err record.UnexpectedEOF
            \/ record.Decode tail = Err record.ErrCorrupt) as Ht
      by (destruct tr; [right; apply H|left; apply H]).
    by rewrite OpenWith_torn.
  - unfold OpenWith, recover. cbn [from_option id f]. rewrite El. case_decide as H0; [|exact H].
    apply len_eq_0, app_eq_nil in H0 as [_ ->]. destruct H as [_ H]. done.
  - unfold OpenWith, recover. cbn [from_option id f]. rewrite El. case_decide as H0; [|exact H].
    apply len_eq_0, app_eq_nil in H0 as [_ ->]. done.
Qed.

(** ** Properties *)

(** Append the records in order, collecting the offsets returned. *)
Fixpoint AppendAll (w : WAL) (rs : list record.Rec) : outcome error (WAL * list Z) :=
  match rs with
  | [] => Ok (w, [])
  | r :: rs' =>
      '(w1, o) ← Append w r;
      '(w2, os) ← AppendAll w1 rs';
      Ok (w2, o :: os)
  end.

Lemma AppendAll_holds rs : forall w rs0,
  holds w rs0 -> Forall record.wf rs -> len (record.encs rs0) + len (record.encs rs) < 2 ^ 63 ->
  exists w', AppendAll w rs = Ok (w', (offsets (len (record.encs rs0)) rs).*1) /\ holds w' (rs0 ++ rs)
    /\ SyncOnWrite w' = SyncOnWrite w.
Proof.
  induction rs as [|r rs IH]; intros w rs0 Hw Hrs Hlt; cbn [AppendAll].
  - exists w. by rewrite app_nil_r.
  - apply Forall_cons in Hrs as [Hr Hrs]. rewrite record.encs_cons, len_app, record.len_record_Encode in Hlt.
    pose proof (len_nonneg (record.encs rs)).
    destruct (Append_holds w rs0 r Hw Hr ltac:(lia)) as (w1 & -> & Hw1 & Hs1).
    destruct (IH w1 (rs0 ++ [r]) Hw1 Hrs ltac:(rewrite record.len_encs_snoc; lia)) as (w' & E & Hw' & Hs').
    exists w'. rewrite <- app_assoc in Hw'. split_and!; [|done|congruence].
    cbn [mbind outcome_bind]. rewrite E, record.len_encs_snoc. done.
Qed.

(** Only a closed log refuses an append, so a list of them fails before anything
    is written or not at all. *)
Lemma AppendAll_open rs : forall w, closed w = false -> exists x, AppendAll w rs = Ok x.
Proof.
  induction rs as [|r rs IH]; intros w Hc; [by eexists|]. cbn [AppendAll]. unfold Append. rewrite Hc.
  cbn [mbind outcome_bind]. edestruct IH as [[w2 os] ->]; [|by eexists]. done.
Qed.

Lemma AppendAll_error w rs e : AppendAll w rs = Err e -> closed w = true.
Proof. destruct (closed w) eqn:Hc; [done|]. by destruct (AppendAll_open rs w Hc) as [x ->]. Qed.

Lemma AppendAll_synced rs : forall w w' os,
  AppendAll w rs = Ok (w', os) -> SyncOnWrite w = true -> rs <> [] \/ synced w = len (f w) -> synced w' = len (f w').
Proof.
  induction rs as [|r rs IH]; intros w w' os E Hs Hor; cbn [AppendAll] in E; [injection E as <- _; by destruct Hor|].
  destruct (Append w r) as [[w1 o]| |] eqn:E1; [|done..]. cbn [mbind outcome_bind] in E.
  destruct (AppendAll w1 rs) as [[w2 os2]| |] eqn:E2; [|done..]. injection E as <- _.
  apply (IH w1 w2 os2 E2); [|right; by eapply Append_synced]. unfold Append in E1. destruct (closed w); [done|].
  by injection E1 as <- _.
Qed.

(** Recovery on arbitrary file contents: the file splits into a maximal run
    of valid records and a tail; [OpenWith] keeps exactly the run, truncating a
    torn or corrupt tail, positions the file at its end, and refuses to start
    only if the tail starts with a record whose checksum matches but whose op
    is unknown (or whose declared key is so long that decoding panics). *)
Theorem wal_recovery c durable sync :
  exists rs tail, c = record.encs rs ++ tail /\ Forall record.wf rs
    /\ match OpenWith (Some c) durable sync with
       | Ok w => f w = record.encs rs /\ Size w = len (record.encs rs) /\ pos w = Size w /\ closed w = false
           /\ (tail = [] \/ record.Decode tail = Err record.UnexpectedEOF
               \/ record.Decode tail = Err record.ErrCorrupt)
       | Err e => e = ErrDecode (len (record.encs rs)) record.ErrInvalidOp
           /\ record.Decode tail = Err record.ErrInvalidOp
       | Panic => record.Decode tail = Panic
       end.
Proof.
  destruct (OpenWith_inv c durable sync) as (rs & tail & Hc & Hrs & H). exists rs, tail.
  split_and!; [done..|]. destruct (OpenWith _ _ _) as [w|e|]; [|done..].
  destruct H as [-> Ht]. done.
Qed.

(** C37. Durability: open any file, of which any number of bytes is known to be
    durable, append any records, crash at any point of a further append, reopen.
    The reopened log holds a prefix of the records in order; with SyncOnWrite no
    record whose [Append] returned is lost, nor any that was found on opening, as
    soon as one append returned or if all that was found was durable. *)
Theorem wal_durability c durable sync w0 rs w offs r file sync' :
  0 <= durable <= len c -> OpenWith (Some c) durable sync = Ok w0 -> AppendAll w0 rs = Ok (w, offs) ->
  Forall record.wf (rs ++ [r]) -> len c + len (record.encs (rs ++ [r])) < 2 ^ 63 ->
  crash_append w r file ->
  exists rs0 w' j, holds w0 rs0 /\ OpenWith (Some file) (len file) sync' = Ok w'
    /\ holds w' (take j (rs0 ++ rs ++ [r]))
    /\ (sync = true -> rs <> [] \/ durable = len c -> (length (rs0 ++ rs) <= j)%nat).
Proof.
  intros Hd Hopen Happ Hwf Hlt (n & Hn & ->).
  destruct (OpenWith_inv c durable sync) as (rs0 & tail & -> & Hrs0 & H). rewrite Hopen in H.
  destruct H as [-> _]. pose proof (len_nonneg tail). rewrite len_app in Hlt.
  rewrite record.encs_app, len_app in Hlt. apply Forall_app in Hwf as [Hrs [Hr _]%Forall_cons].
  pose proof (len_nonneg (record.encs rs)). pose proof (len_nonneg (record.encs [r])).
  pose proof (holds_opened rs0 tail durable sync Hrs0 ltac:(lia) Hd) as Hw0.
  destruct (AppendAll_holds rs _ rs0 Hw0 Hrs ltac:(lia)) as (w1 & E & Hw & Hsync).
  rewrite E in Happ. injection Happ as -> _.
  assert (sync = true -> rs <> [] \/ durable = len (record.encs rs0 ++ tail) -> synced w = len (f w)) as Hon.
  { intros Hsy Hor. eapply (AppendAll_synced rs _ _ _ E); [done|]. destruct Hor as [?| ->]; [by left|right].
    cbn [opened synced f]. destruct tail; [by rewrite app_nil_r|done]. }
  destruct Hw as [Hwf' Hf Hsz Hpos Hsyn _ _]. rewrite Hf in Hon.
  rewrite Hf, Hpos, pwrite_end in *.
  assert (record.encs (rs0 ++ rs) ++ record.Encode r = record.encs ((rs0 ++ rs) ++ [r])) as Ee
    by (by rewrite (record.encs_app _ [r]), record.encs_cons, app_nil_r).
  rewrite Ee. pose proof (record.len_encs_snoc (rs0 ++ rs) r) as Hl.
  assert (Forall record.wf ((rs0 ++ rs) ++ [r])) as Hall
    by (apply Forall_app; split; [done|by apply Forall_singleton]).
  destruct (take_encs n ((rs0 ++ rs) ++ [r]) Hall ltac:(lia)) as (j & t & Et & Ht & Hle & Hgt).
  rewrite Et. eexists rs0, _, j. split; [done|]. rewrite (app_assoc rs0).
  rewrite OpenWith_torn; [|by apply Forall_take|tauto]. split; [done|]. split.
  - apply holds_opened; [by apply Forall_take| |pose proof (len_nonneg (record.encs (take j ((rs0 ++ rs) ++ [r])) ++ t)); lia].
    rewrite record.encs_cons, app_nil_r, record.len_record_Encode in Hlt.
    rewrite (record.encs_app rs0 rs), len_app in Hn. lia.
  - intros Hsy Hor. specialize (Hon Hsy Hor).
    destruct (decide (length (rs0 ++ rs) <= j)%nat) as [|Hj]; [done|]. exfalso.
    destruct (lookup_lt_is_Some_2 ((rs0 ++ rs) ++ [r]) j) as [x Hx]; [rewrite length_app; lia|].
    specialize (Hgt x Hx). rewrite take_app_le in Hgt by lia.
    rewrite <- (take_drop (S j) (rs0 ++ rs)) in Hn at 1. rewrite Hon in Hn.
    rewrite <- (take_drop (S j) (rs0 ++ rs)), record.encs_app, len_app in Hn.
    pose proof (len_nonneg (record.encs (drop (S j) (rs0 ++ rs)))). lia.
Qed.

(** What was appended is read back: on a freshly created log, the offsets
    [Append] returns are those of the records, [Scan] visits every record with
    its offset in order (here collected), [ReadAt] of a returned offset gives
    that record, and after [Close] every operation is refused. *)
Theorem wal_append_read_back sync rs :
  Forall record.wf rs -> len (record.encs rs) < 2 ^ 63 ->
  exists w0 w, OpenWith None 0 sync = Ok w0
    /\ AppendAll w0 rs = Ok (w, (offsets 0 rs).*1)
    /\ Size w = len (record.encs rs)
    /\ Scan (E := unit) (fun o r acc => (acc ++ [(o, r)], None)) w [] = Some (offsets 0 rs, None)
    /\ (forall o r, (o, r) ∈ offsets 0 rs -> ReadAt w o = Ok r)
    /\ (forall r, Append (Close w) r = Err ErrClosed)
    /\ (forall o, ReadAt (Close w) o = Err ErrClosed)
    /\ synced (Close w) = len (f w).
Proof.
  intros Hrs Hlt. exists (MkWAL [] 0 0 0 sync false).
  destruct (AppendAll_holds rs _ [] (holds_opened [] [] 0 sync (Forall_nil_2 _) ltac:(done) ltac:(done)) Hrs
              ltac:(change (len (record.encs [])) with 0; lia)) as (w & E & Hw & _).
  cbn [app] in Hw. exists w. split_and!; [done|done|apply Hw| | | | |].
  - rewrite (Scan_holds _ w rs) by done. rewrite scan_list_collect. done.
  - intros o r Hin. destruct (offsets_elem rs 0 o r Hin) as (pre & post & -> & ->).
    rewrite Z.add_0_l. by eapply ReadAt_holds.
  - intros r. unfold Append, Close. destruct (closed w) eqn:Hc; [by rewrite Hc|done].
  - intros o. unfold ReadAt, Close. destruct (closed w) eqn:Hc; [by rewrite Hc|done].
  - unfold Close. rewrite (holds_open _ _ Hw). done.
Qed.

(** ** Witnesses *)

Definition demo_del : record.Rec := record.MkRec OpDelete 8 [x6b] [].

(** The file is one record and garbage; one more record is appended and a
    third is cut off after 30 bytes of the file. *)
Definition demo_file : bytes := record.Encode record.demo_rec ++ [x00; x01; x02].

Definition demo_wal : WAL :=
  match OpenWith (Some demo_file) 20 true with
  | Ok w => match AppendAll w [demo_del] with Ok (w', _) => w' | _ => w end
  | _ => MkWAL [] 0 0 0 true false
  end.

Lemma wal_durability_witness :
  exists rs0 w' j n, OpenWith (Some (take 60 (f demo_wal ++ record.Encode demo_del))) n false = Ok w'
    /\ holds w' (take j (rs0 ++ [demo_del] ++ [demo_del])) /\ (length (rs0 ++ [demo_del]) <= j)%nat.
Proof.
  destruct (OpenWith (Some demo_file) 20 true) as [w0| |] eqn:E0; [|by vm_compute in E0..].
  destruct (AppendAll w0 [demo_del]) as [[w offs]| |] eqn:E1;
    [|exfalso; vm_compute in E0; injection E0 as <-; by vm_compute in E1..].
  assert (demo_wal = w) as Ew by (unfold demo_wal; rewrite E0, E1; reflexivity). rewrite Ew.
  destruct (wal_durability demo_file 20 true w0 [demo_del] w offs demo_del
              (take 60 (f w ++ record.Encode demo_del)) false ltac:(by_decide) E0 E1) as (rs0 & w' & j & H1 & H2 & H3 & H4).
  - by_decide.
  - vm_compute. reflexivity.
  - exists 60. clear E0 E1. subst w. split; [by_decide|]. vm_compute. reflexivity.
  - eexists rs0, w', j, _. split; [exact H2|]. split; [exact H3|]. by apply H4; [|left].
Defined.

Lemma wal_append_read_back_witness :
  exists w0 w, OpenWith None 0 true = Ok w0
    /\ AppendAll w0 [record.demo_rec; demo_del] = Ok (w, [0; 24])
    /\ ReadAt w 24 = Ok demo_del.
Proof.
  destruct (wal_append_read_back true [record.demo_rec; demo_del] ltac:(by_decide)
              ltac:(vm_compute; reflexivity)) as (w0 & w & H1 & H2 & _ & _ & H5 & _).
  exists w0, w. split; [exact H1|]. split; [exact H2|]. apply H5.
  apply elem_of_cons. right. apply elem_of_cons. left. vm_compute. reflexivity.
Defined.

End wal.
