(* ===== verification/SSTable.v ===== *)
(** * Sorted-string tables (internal/sstable/sstable.go)

    The writer lays records out in blocks and appends an index, a bloom filter
    and a footer; the reader finds a block by binary search and scans at most
    two blocks.  A table file is a byte list; the writer's buffered file and
    its rename are the byte list [Finish] publishes. *)

From Stdlib Require Import ZArith Lia.
From Stdlib Require Import Strings.Byte.
From stdpp Require Import base list gmap sorting.
From S2P Require Import Prelude.
From S2P Require Import MvccKey.
From S2P Require Import Versions.
From S2P Require Import RecordFmt.
From S2P Require Import Bloom.

#[local] Open Scope Z_scope.
#[local] Open Scope bytes_scope.

Module sstable.

Definition blockSize : Z := 4096.
Definition footerSize : Z := 56.
Definition magic : Z := 0x214244454C4C494C.
Definition bloomBitsPerKey : Z := 10.

Inductive error :=
| ErrOutOfOrder
| ErrDuplicate
| ErrBadMagic (got : Z)
| ErrClosed
| ErrTooSmall (size : Z)
| ErrFooterRange
| ErrRead
| ErrDecode (offset : Z) (e : record.error)
| ErrIndexValue (n : Z)
| ErrBloom (e : bloom.error)
| ErrMalformedKey.

Record indexEntry := MkIndexEntry {
  firstKey : bytes; ie_blockOffset : Z; ie_blockSize : Z
}.

(** ** Writer *)

(** [w_out] is what has been written to the temporary file. *)
Record Writer := MkWriter {
  w_out : bytes;
  blockBuf : bytes;
  blockFirstKey : bytes;
  w_blockOffset : Z;
  w_index : list indexEntry;
  w_filter : bloom.Filter;
  lastEncKey : option bytes;
  w_maxTimestamp : Z;
  w_appliedIndex : Z;
  written : Z;
  count : Z;
  w_closed : bool
}.

Definition NewWriter (expectedKeys appliedIndex : Z) : Writer :=
  MkWriter [] [] [] 0 [] (bloom.New expectedKeys bloomBitsPerKey) None 0 appliedIndex 0 0 false.

Definition flushBlock (w : Writer) : Writer :=
  if decide (len (blockBuf w) = 0) then w
  else
    let written' := i64 (written w + len (blockBuf w)) in
    MkWriter (w_out w ++ blockBuf w) [] [] written'
      (w_index w ++ [MkIndexEntry (blockFirstKey w) (written w) (len (blockBuf w))])
      (w_filter w) (lastEncKey w) (w_maxTimestamp w) (w_appliedIndex w) written' (count w)
      (w_closed w).

Definition Add (w : Writer) (op : byte) (userKey value : bytes) (ts : Z) : outcome error Writer :=
  if w_closed w then Err ErrClosed
  else
    let encKey := Encode userKey ts in
    match lastEncKey w with
    | Some last =>
        match bcompare encKey last with
        | Eq => Err ErrDuplicate
        | Lt => Err ErrOutOfOrder
        | Gt => Ok tt
        end
    | None => Ok tt
    end ≫= fun _ : unit =>
    let encoded := record.Encode (record.MkRec op ts encKey value) in
    let w1 := if decide (len (blockBuf w) > 0 /\ len (blockBuf w) + len encoded > blockSize)
              then flushBlock w else w in
    let first := if decide (len (blockBuf w1) = 0) then encKey else blockFirstKey w1 in
    match bloom.Add (w_filter w1) userKey with
    | None => Panic
    | Some filter =>
        Ok (MkWriter (w_out w1) (blockBuf w1 ++ encoded) first (w_blockOffset w1) (w_index w1)
              filter (Some encKey)
              (if decide (ts > w_maxTimestamp w1) then ts else w_maxTimestamp w1)
              (w_appliedIndex w1) (written w1) (count w1 + 1) (w_closed w1))
    end.

Definition indexRecord (e : indexEntry) : record.Rec :=
  record.MkRec OpPut 0 (firstKey e)
    (le_bytes 8 (u64 (ie_blockOffset e)) ++ le_bytes 8 (u64 (ie_blockSize e))).

Definition footer (indexOffset indexSize bloomOffset bloomSize maxTS appliedIndex : Z) : bytes :=
  le_bytes 8 (u64 indexOffset) ++ le_bytes 8 (u64 indexSize) ++ le_bytes 8 (u64 bloomOffset)
  ++ le_bytes 8 (u64 bloomSize) ++ le_bytes 8 maxTS ++ le_bytes 8 appliedIndex ++ le_bytes 8 magic.

(** The second component is the file renamed into place. *)
Definition Finish (w : Writer) : outcome error (Writer * bytes) :=
  if w_closed w then Err ErrClosed
  else
    let w1 := flushBlock w in
    let indexOffset := written w1 in
    let indexBytes := concat ((fun e => record.Encode (indexRecord e)) <$> w_index w1) in
    let indexSize := len indexBytes in
    let written2 := i64 (written w1 + indexSize) in
    let bloomOffset := written2 in
    let bloomBytes := bloom.Bytes (w_filter w1) in
    let bloomSize := len bloomBytes in
    let written3 := i64 (written2 + bloomSize) in
    let file := w_out w1 ++ indexBytes ++ bloomBytes
      ++ footer indexOffset indexSize bloomOffset bloomSize (w_maxTimestamp w1) (w_appliedIndex w1) in
    Ok (MkWriter file (blockBuf w1) (blockFirstKey w1) (w_blockOffset w1) (w_index w1) (w_filter w1)
          (lastEncKey w1) (w_maxTimestamp w1) (w_appliedIndex w1) written3 (count w1) true, file).

(** The temporary file is removed. *)
Definition Abort_ (w : Writer) : Writer :=
  if w_closed w then w
  else MkWriter [] (blockBuf w) (blockFirstKey w) (w_blockOffset w) (w_index w) (w_filter w)
         (lastEncKey w) (w_maxTimestamp w) (w_appliedIndex w) (written w) (count w) true.

Definition Count (w : Writer) : Z := count w.

(** ** Reader *)

Record Reader := MkReader {
  r_file : bytes;
  r_size : Z;
  r_index : list indexEntry;
  r_filter : option bloom.Filter;
  r_maxTimestamp : Z;
  r_appliedIndex : Z;
  blockReadCount : Z;
  r_closed : bool
}.

(** The loop over the index section; the fuel counts entries. *)
Fixpoint decodeIndex (fuel : nat) (buf : bytes) (offset : Z) (idx : list indexEntry)
  : outcome error (list indexEntry) :=
  match fuel with
  | O => Panic
  | S fuel' =>
      if decide (offset < len buf) then
        match record.Decode (drop (Z.to_nat offset) buf) with
        | Err e => Err (ErrDecode offset e)
        | Panic => Panic
        | Ok (rec, n) =>
            if decide (len (record.Value rec) <> 16) then Err (ErrIndexValue (len (record.Value rec)))
            else
              decodeIndex fuel' buf (offset + n)
                (idx ++ [MkIndexEntry (record.Key rec) (i64 (record.Uint64 (record.Value rec) 0))
                           (i64 (record.Uint64 (record.Value rec) 8))])
        end
      else Ok idx
  end.

Definition OpenReader (file : bytes) : outcome error Reader :=
  let size := len file in
  if decide (size < footerSize) then Err (ErrTooSmall size)
  else
    match pread file (size - footerSize) footerSize with
    | None => Err ErrRead
    | Some ft =>
        let gotMagic := record.Uint64 ft 48 in
        if decide (gotMagic <> magic) then Err (ErrBadMagic gotMagic)
        else
          let indexOffset := i64 (record.Uint64 ft 0) in
          let indexSize := i64 (record.Uint64 ft 8) in
          let bloomOffset := i64 (record.Uint64 ft 16) in
          let bloomSize := i64 (record.Uint64 ft 24) in
          let maxTS := record.Uint64 ft 32 in
          let appliedIndex := record.Uint64 ft 40 in
          let limit := size - footerSize in
          if decide (indexOffset < 0 \/ indexSize < 0 \/ i64 (indexOffset + indexSize) > limit
                     \/ bloomOffset < 0 \/ bloomSize < 0 \/ i64 (bloomOffset + bloomSize) > limit)
          then Err ErrFooterRange
          else
            match (if decide (indexSize > 0) then pread file indexOffset indexSize else Some []) with
            | None => Err ErrRead
            | Some indexBuf =>
                idx ← decodeIndex (S (length indexBuf)) indexBuf 0 [];
                filter ← (if decide (bloomSize > 0) then
                            match pread file bloomOffset bloomSize with
                            | None => Err ErrRead
                            | Some bloomBuf =>
                                match bloom.Load bloomBuf with
                                | Ok fl => Ok (Some fl)
                                | Err e => Err (ErrBloom e)
                                | Panic => Panic
                                end
                            end
                          else Ok None);
                Ok (MkReader file size idx filter maxTS appliedIndex 0 false)
            end
    end.

Definition MaxTimestamp (r : Reader) : Z := r_maxTimestamp r.
Definition AppliedIndex (r : Reader) : Z := r_appliedIndex r.
Definition NumBlocks (r : Reader) : Z := len (r_index r).
Definition BlockReadsForTesting (r : Reader) : Z := blockReadCount r.

Definition addBlockRead (r : Reader) : Reader :=
  MkReader (r_file r) (r_size r) (r_index r) (r_filter r) (r_maxTimestamp r) (r_appliedIndex r)
    (i64 (blockReadCount r + 1)) (r_closed r).

(** sort.Search: the smallest index at which a monotone predicate holds. *)
Fixpoint Search_loop (fuel : nat) (p : nat -> bool) (i j : nat) : nat :=
  match fuel with
  | O => i
  | S fuel' =>
      if decide (i < j)%nat then
        let h := ((i + j) / 2)%nat in
        if p h then Search_loop fuel' p i h else Search_loop fuel' p (S h) j
      else i
  end.

Definition Search (n : nat) (p : nat -> bool) : nat := Search_loop n p 0 n.

Definition keyAfter (idx : list indexEntry) (target : bytes) (i : nat) : bool :=
  match idx !! i with
  | Some e => bool_decide (target <b firstKey e)
  | None => false
  end.

Definition startBlock (r : Reader) (target : bytes) : nat :=
  let hi := Search (length (r_index r)) (keyAfter (r_index r) target) in
  if decide (0 < hi)%nat then (hi - 1)%nat else 0%nat.

(** The first record of a block at or past [target]. *)
Fixpoint seekInBlock (fuel : nat) (base : Z) (buf : bytes) (offset : Z) (target : bytes)
  : outcome error (option record.Rec) :=
  match fuel with
  | O => Panic
  | S fuel' =>
      if decide (offset < len buf) then
        match record.Decode (drop (Z.to_nat offset) buf) with
        | Err e => Err (ErrDecode (base + offset) e)
        | Panic => Panic
        | Ok (rec, n) =>
            if decide (record.Key rec <b target)
            then seekInBlock fuel' base buf (offset + n) target
            else Ok (Some rec)
        end
      else Ok None
  end.

(** The block loop shared by [GetAsOf] and [NewestVersionTS]: blocks
    [blkIdx], ... at most [blocks] of them. *)
Fixpoint seekBlocks (blocks : nat) (r : Reader) (blkIdx : nat) (target : bytes)
  : Reader * outcome error (option record.Rec) :=
  match blocks with
  | O => (r, Ok None)
  | S blocks' =>
      match r_index r !! blkIdx with
      | None => (r, Ok None)
      | Some blk =>
          match pread (r_file r) (ie_blockOffset blk) (ie_blockSize blk) with
          | None => (r, Err ErrRead)
          | Some buf =>
              let r1 := addBlockRead r in
              match seekInBlock (S (length buf)) (ie_blockOffset blk) buf 0 target with
              | Ok None => seekBlocks blocks' r1 (S blkIdx) target
              | o => (r1, o)
              end
          end
      end
  end.

(** The bloom check; a nil filter passes. *)
Definition mayContain (r : Reader) (userKey : bytes) : option bool :=
  match r_filter r with
  | None => Some true
  | Some fl => bloom.MayContain fl userKey
  end.

Definition GetAsOf (r : Reader) (userKey : bytes) (snapshot : Z)
  : Reader * outcome error (option (bytes * byte)) :=
  if r_closed r then (r, Err ErrClosed)
  else if decide (len (r_index r) = 0) then (r, Ok None)
  else
    match mayContain r userKey with
    | None => (r, Panic)
    | Some false => (r, Ok None)
    | Some true =>
        let target := Encode userKey snapshot in
        let '(r1, o) := seekBlocks 2 r (startBlock r target) target in
        (r1,
         o ≫= fun found =>
         match found with
         | None => Ok None
         | Some rec =>
             match Decode (record.Key rec) with
             | None => Err ErrMalformedKey
             | Some (recUserKey, _) =>
                 if decide (recUserKey <> userKey) then Ok None
                 else if decide (record.Op rec = OpDelete) then Ok (Some ([], OpDelete))
                 else Ok (Some (record.Value rec, OpPut))
             end
         end)
    end.

Definition NewestVersionTS (r : Reader) (userKey : bytes) : Reader * outcome error (option Z) :=
  if r_closed r then (r, Err ErrClosed)
  else if decide (len (r_index r) = 0) then (r, Ok None)
  else
    match mayContain r userKey with
    | None => (r, Panic)
    | Some false => (r, Ok None)
    | Some true =>
        let target := Encode userKey max_u64 in
        let '(r1, o) := seekBlocks 2 r (startBlock r target) target in
        (r1,
         o ≫= fun found =>
         match found with
         | None => Ok None
         | Some rec =>
             match Decode (record.Key rec) with
             | None => Err ErrMalformedKey
             | Some (recUserKey, recTS) =>
                 if decide (recUserKey <> userKey) then Ok None else Ok (Some recTS)
             end
         end)
    end.

Section iterate.
Context {A : Type}.
Variable fn : byte -> bytes -> bytes -> A -> A * bool.

(** [true] in the result: the callback asked to go on. *)
Fixpoint Iterate_block (fuel : nat) (base : Z) (buf : bytes) (offset : Z) (acc : A)
  : A * outcome error bool :=
  match fuel with
  | O => (acc, Panic)
  | S fuel' =>
      if decide (offset < len buf) then
        match record.Decode (drop (Z.to_nat offset) buf) with
        | Err e => (acc, Err (ErrDecode (base + offset) e))
        | Panic => (acc, Panic)
        | Ok (rec, n) =>
            match fn (record.Op rec) (record.Key rec) (record.Value rec) acc with
            | (acc', false) => (acc', Ok false)
            | (acc', true) => Iterate_block fuel' base buf (offset + n) acc'
            end
        end
      else (acc, Ok true)
  end.

Fixpoint Iterate_blocks (r : Reader) (idx : list indexEntry) (acc : A) : A * outcome error unit :=
  match idx with
  | [] => (acc, Ok tt)
  | blk :: idx' =>
      match pread (r_file r) (ie_blockOffset blk) (ie_blockSize blk) with
      | None => (acc, Err ErrRead)
      | Some buf =>
          match Iterate_block (S (length buf)) (ie_blockOffset blk) buf 0 acc with
          | (acc', Ok true) => Iterate_blocks r idx' acc'
          | (acc', Ok false) => (acc', Ok tt)
          | (acc', Err e) => (acc', Err e)
          | (acc', Panic) => (acc', Panic)
          end
      end
  end.

Definition Iterate (r : Reader) (acc : A) : A * outcome error unit :=
  if r_closed r then (acc, Err ErrClosed) else Iterate_blocks r (r_index r) acc.

End iterate.

(** A panic is [None]; read errors are dropped by the source. *)
Definition VersionCountForTesting (r : Reader) (userKey : bytes) : option Z :=
  if r_closed r then Some 0
  else
    match mayContain r userKey with
    | None => None
    | Some false => Some 0
    | Some true =>
        let '(n, o) := Iterate (fun _ encKey _ n =>
            match Decode encKey with
            | None => (n, true)
            | Some (uk, _) => (if decide (uk = userKey) then n + 1 else n, true)
            end) r 0 in
        match o with Panic => None | _ => Some n end
    end.

Definition Close (r : Reader) : Reader :=
  MkReader (r_file r) (r_size r) (r_index r) (r_filter r) (r_maxTimestamp r) (r_appliedIndex r)
    (blockReadCount r) true.

(** ** Binary search *)

Lemma Search_loop_spec p n : forall fuel i j,
  (forall a b, (a <= b)%nat -> p a = true -> (b < n)%nat -> p b = true) ->
  (i <= j <= n)%nat -> (j - i <= fuel)%nat ->
  (forall a, (a < i)%nat -> p a = false) -> (forall a, (j <= a < n)%nat -> p a = true) ->
  (Search_loop fuel p i j <= n)%nat
  /\ (forall a, (a < Search_loop fuel p i j)%nat -> p a = false)
  /\ (forall a, (Search_loop fuel p i j <= a < n)%nat -> p a = true).
Proof.
  induction fuel as [|fuel IH]; intros i j Hmono Hij Hf Hlo Hhi; cbn [Search_loop].
  - split_and!; [lia|done|]. intros a Ha. apply Hhi. lia.
  - case_decide as Hlt.
    + assert (i <= (i + j) / 2 < j)%nat as Hh.
      { split; [apply Nat.div_le_lower_bound; lia|apply Nat.div_lt_upper_bound; lia]. }
      destruct (p ((i + j) / 2)%nat) eqn:E.
      * apply IH; [done|lia|lia|done|]. intros a Ha.
        apply (Hmono ((i + j) / 2)%nat); [lia|done|lia].
      * apply IH; [done|lia|lia| |done]. intros a Ha. apply not_true_iff_false. intros Ht.
        rewrite (Hmono a ((i + j) / 2)%nat) in E; [done|lia|done|lia].
    + split_and!; [lia|done|]. intros a Ha. apply Hhi. lia.
Qed.

(** ** Runs of records as tables *)

Definition table_of (rs : list record.Rec) : list (bytes * bytes) :=
  (fun r => (record.Key r, record.Op r :: record.Value r)) <$> rs.

Definition sorted_recs (rs : list record.Rec) : Prop := sorted_keys (table_of rs).

Lemma table_of_app a b : table_of (a ++ b) = table_of a ++ table_of b.
Proof. apply fmap_app. Qed.

Lemma sorted_recs_app a b :
  sorted_recs (a ++ b) <->
  sorted_recs a /\ sorted_recs b
  /\ (forall x y, x ∈ a -> y ∈ b -> record.Key x <b record.Key y).
Proof.
  unfold sorted_recs. rewrite table_of_app, sorted_keys_app. split; intros (H1 & H2 & H3);
    split_and!; try done.
  - intros x y Hx Hy. apply (H3 (record.Key x, record.Op x :: record.Value x)
      (record.Key y, record.Op y :: record.Value y)); apply list_elem_of_fmap; eauto.
  - intros x y Hx Hy. apply list_elem_of_fmap in Hx as (x' & -> & Hx).
    apply list_elem_of_fmap in Hy as (y' & -> & Hy). by apply H3.
Qed.

(** The first record at or past the target. *)
Fixpoint seek_rec (target : bytes) (rs : list record.Rec) : option record.Rec :=
  match rs with
  | [] => None
  | r :: rs' => if decide (record.Key r <b target) then seek_rec target rs' else Some r
  end.

Lemma seek_rec_app_lt t a b :
  Forall (fun r => record.Key r <b t) a -> seek_rec t (a ++ b) = seek_rec t b.
Proof. induction 1 as [|r a Hr _ IH]; cbn; [done|]. by rewrite decide_True. Qed.

Lemma seek_rec_None t a : seek_rec t a = None -> Forall (fun r => record.Key r <b t) a.
Proof. induction a as [|r a IH]; cbn; [constructor|]. case_decide; [|done]. auto. Qed.

Lemma seek_rec_app_Some t a b r : seek_rec t a = Some r -> seek_rec t (a ++ b) = Some r.
Proof. induction a as [|x a IH]; cbn; [done|]. case_decide; auto. Qed.

Lemma seek_rec_drop_lt t rs :
  match seek_rec t rs with
  | Some r => exists rest, drop_lt t (table_of rs)
                           = (record.Key r, record.Op r :: record.Value r) :: rest
  | None => drop_lt t (table_of rs) = []
  end.
Proof.
  induction rs as [|r rs IH]; cbn; [done|]. case_decide as H; [exact IH|].
  unfold table_of. eauto.
Qed.

(** The scan of a block decodes it record by record. *)
Lemma seekInBlock_spec target base rs : forall pre fuel,
  Forall record.wf rs -> (length rs < fuel)%nat ->
  seekInBlock fuel base (record.encs pre ++ record.encs rs) (len (record.encs pre)) target
  = Ok (seek_rec target rs).
Proof.
  induction rs as [|r rs IH]; intros pre fuel Hrs Hf;
    (destruct fuel as [|fuel]; [cbn in Hf; lia|]); cbn [seekInBlock seek_rec].
  - rewrite app_nil_r, decide_False by lia. done.
  - apply Forall_cons in Hrs as [Hr Hrs]. rewrite record.encs_cons, record.drop_encs.
    rewrite decide_True by (rewrite !len_app, record.len_record_Encode;
      pose proof (record.size_pos r); pose proof (len_nonneg (record.encs rs)); lia).
    rewrite record.Decode_record by done. case_decide; [|done].
    rewrite <- record.len_encs_snoc.
    replace (record.encs pre ++ record.Encode r ++ record.encs rs)
      with (record.encs (pre ++ [r]) ++ record.encs rs)
      by (rewrite record.encs_app, record.encs_cons, app_nil_r, <- !app_assoc; done).
    apply IH; [done|cbn in Hf; lia].
Qed.

(** ** Layout of the data blocks *)

Definition first_key (b : list record.Rec) : bytes :=
  match b with r :: _ => record.Key r | [] => [] end.

Fixpoint index_of (o : Z) (blocks : list (list record.Rec)) : list indexEntry :=
  match blocks with
  | [] => []
  | b :: bs => MkIndexEntry (first_key b) o (len (record.encs b))
               :: index_of (o + len (record.encs b)) bs
  end.

Lemma index_of_app o a b :
  index_of o (a ++ b) = index_of o a ++ index_of (o + len (record.encs (concat a))) b.
Proof.
  revert o. induction a as [|x a IH]; intros o; cbn [index_of app concat].
  - change (len (record.encs [])) with 0. by rewrite Z.add_0_r.
  - rewrite IH, record.encs_app, len_app, Z.add_assoc. done.
Qed.

Lemma length_index_of o blocks : length (index_of o blocks) = length blocks.
Proof. revert o. induction blocks as [|b bs IH]; intros o; cbn; [done|]. by rewrite IH. Qed.

Lemma index_of_lookup o blocks i :
  index_of o blocks !! i
  = (fun b => MkIndexEntry (first_key b) (o + len (record.encs (concat (take i blocks))))
                (len (record.encs b))) <$> blocks !! i.
Proof.
  revert o i. induction blocks as [|b bs IH]; intros o i; cbn [index_of]; [done|].
  destruct i as [|i]; cbn [lookup list_lookup take concat].
  - cbn. change (len (record.encs [])) with 0. by rewrite Z.add_0_r.
  - rewrite IH, record.encs_app, len_app, Z.add_assoc. done.
Qed.

(** Block [i] is where the index says. *)
Lemma pread_block blocks tail i b :
  blocks !! i = Some b ->
  pread (record.encs (concat blocks) ++ tail)
    (0 + len (record.encs (concat (take i blocks)))) (len (record.encs b))
  = Some (record.encs b).
Proof.
  intros Hb. rewrite <- (take_drop_middle blocks i b Hb) at 1.
  rewrite concat_app. cbn [concat]. rewrite !record.encs_app, <- !app_assoc. unfold pread.
  pose proof (len_nonneg (record.encs (concat (take i blocks)))).
  rewrite decide_True.
  - f_equal. apply slice_mid; lia.
  - rewrite !len_app. pose proof (len_nonneg (record.encs (concat (drop (S i) blocks)))).
    pose proof (len_nonneg tail). lia.
Qed.

(** ** Readers *)

(** The open reader [r] serves the records [rs]. *)
Record rmodels (r : Reader) (rs : list record.Rec) : Prop := {
  rm_layout : exists blocks tail,
      r_file r = record.encs (concat blocks) ++ tail /\ r_index r = index_of 0 blocks
      /\ rs = concat blocks /\ Forall (fun b => b <> []) blocks;
  rm_wf : Forall record.wf rs;
  rm_sorted : sorted_recs rs;
  rm_keys : Forall (fun x => exists k t, is_u64 t /\ record.Key x = Encode k t) rs;
  rm_filter : (forall x, x ∈ rs -> mayContain r (UserKey (record.Key x)) = Some true)
              /\ (forall k, mayContain r k <> None);
  rm_open : r_closed r = false
}.

Lemma rmodels_addBlockRead r rs : rmodels r rs -> rmodels (addBlockRead r) rs.
Proof. intros []. by split. Qed.

Lemma wf_concat {A} (P : A -> Prop) blocks (b : list A) i :
  Forall P (concat blocks) -> blocks !! i = Some b -> Forall P b.
Proof.
  intros H Hb. rewrite <- (take_drop_middle blocks i b Hb), concat_app in H.
  apply Forall_app in H as [_ H]. cbn in H. by apply Forall_app in H as [H _].
Qed.

Lemma seekBlocks_block r blocks tail rs n i b target :
  r_file r = record.encs (concat blocks) ++ tail -> r_index r = index_of 0 blocks ->
  Forall record.wf (concat blocks) -> blocks !! i = Some b -> rmodels r rs ->
  seekBlocks (S n) r i target
  = match seek_rec target b with
    | Some x => (addBlockRead r, Ok (Some x))
    | None => seekBlocks n (addBlockRead r) (S i) target
    end.
Proof.
  intros Hf Hi Hwf Hb Hr. cbn [seekBlocks]. rewrite Hi, index_of_lookup, Hb.
  cbn [fmap option_fmap option_map ie_blockOffset ie_blockSize].
  rewrite Hf, (pread_block blocks tail i b Hb).
  pose proof (wf_concat _ _ _ _ Hwf Hb) as Hwfb.
  pose proof (seekInBlock_spec target (0 + len (record.encs (concat (take i blocks)))) b []
                (S (length (record.encs b))) Hwfb) as Hs.
  cbn [app record.encs concat fmap list_fmap] in Hs. change (len []) with 0 in Hs.
  fold (record.encs b) in Hs. rewrite Hs by (pose proof (record.length_encs b); lia).
  by destruct (seek_rec target b).
Qed.

Lemma before_block blocks j b x :
  sorted_recs (concat blocks) -> blocks !! j = Some b -> b <> [] ->
  x ∈ concat (take j blocks) -> record.Key x <b first_key b.
Proof.
  intros Hs Hb Hne Hx. rewrite <- (take_drop_middle blocks j b Hb), concat_app in Hs.
  apply sorted_recs_app in Hs as (_ & _ & Hlt). destruct b as [|y b]; [done|].
  apply (Hlt x y Hx). cbn. apply elem_of_cons. auto.
Qed.

Lemma block_in_take {A} (blocks : list (list A)) i j b x :
  blocks !! i = Some b -> (i < j)%nat -> x ∈ b -> x ∈ concat (take j blocks).
Proof.
  intros Hb Hij Hx. assert (take j blocks !! i = Some b) as Hb' by (by rewrite lookup_take_lt).
  rewrite <- (take_drop_middle _ i b Hb'), concat_app. cbn. rewrite !elem_of_app. auto.
Qed.

(** The predicate of the binary search is monotone. *)
Lemma keyAfter_mono blocks target a b :
  sorted_recs (concat blocks) -> Forall (fun b => b <> []) blocks -> (a <= b)%nat ->
  keyAfter (index_of 0 blocks) target a = true -> (b < length blocks)%nat ->
  keyAfter (index_of 0 blocks) target b = true.
Proof.
  intros Hs Hne Hab Ha Hb. destruct (decide (a = b)) as [->|]; [done|].
  unfold keyAfter in *. rewrite !index_of_lookup in *.
  destruct (lookup_lt_is_Some_2 blocks b Hb) as [bb Hbb].
  destruct (blocks !! a) as [ba|] eqn:Hba; [|done]. rewrite Hbb. cbn in *.
  apply bool_decide_eq_true in Ha. apply bool_decide_eq_true.
  rewrite Forall_lookup in Hne. pose proof (Hne _ _ Hba) as Hna. pose proof (Hne _ _ Hbb) as Hnb.
  destruct ba as [|x ba]; [done|]. cbn in Ha. etrans; [exact Ha|].
  apply (before_block blocks b bb); [done..|].
  apply (block_in_take blocks a b (x :: ba)); [done|lia|]. apply elem_of_cons. auto.
Qed.

(** The block the binary search picks: everything before it is below the
    target, everything after it above. *)
Lemma startBlock_spec r blocks target :
  r_index r = index_of 0 blocks -> sorted_recs (concat blocks) ->
  Forall (fun b => b <> []) blocks -> blocks <> [] ->
  exists b, blocks !! startBlock r target = Some b
    /\ Forall (fun x => record.Key x <b target) (concat (take (startBlock r target) blocks))
    /\ (forall b', blocks !! S (startBlock r target) = Some b' -> target <b first_key b').
Proof.
  intros Hi Hs Hnb Hne.
  assert (exists hi, Search (length (r_index r)) (keyAfter (r_index r) target) = hi
    /\ (hi <= length blocks)%nat
    /\ (forall a, (a < hi)%nat -> keyAfter (r_index r) target a = false)
    /\ (forall a, (hi <= a < length blocks)%nat -> keyAfter (r_index r) target a = true))
    as (hi & Ehi & Hle & Hlo & Hhi).
  { eexists. split; [reflexivity|]. unfold Search. rewrite Hi, length_index_of.
    apply (Search_loop_spec _ (length blocks)); [|lia|lia|lia|lia].
    intros a b Hab Ha Hb. by apply (keyAfter_mono blocks target a b). }
  unfold startBlock. rewrite Ehi. set (i := if decide (0 < hi)%nat then (hi - 1)%nat else 0%nat).
  assert (i < length blocks)%nat as Hil.
  { unfold i. destruct blocks as [|b0 bs]; [done|]. case_decide; cbn [length] in *; lia. }
  destruct (lookup_lt_is_Some_2 blocks i Hil) as [b Hb]. exists b. rewrite Forall_lookup in Hnb.
  split_and!; [done| |].
  - unfold i in *. case_decide as H0; [|cbn; constructor]. apply Forall_forall. intros x Hx.
    pose proof (before_block blocks (hi - 1) b x Hs Hb (Hnb _ _ Hb) Hx) as Hlt.
    specialize (Hlo (hi - 1)%nat ltac:(lia)). unfold keyAfter in Hlo.
    rewrite Hi, index_of_lookup, Hb in Hlo. cbn in Hlo. apply bool_decide_eq_false, not_blt in Hlo.
    border.
  - intros b' Hb'. specialize (Hhi (S i)). unfold keyAfter in Hhi.
    rewrite Hi, index_of_lookup, Hb' in Hhi. cbn in Hhi. apply lookup_lt_Some in Hb'.
    assert (bool_decide (target <b first_key b') = true) as Ht
      by (apply Hhi; unfold i in *; case_decide; lia).
    by apply bool_decide_eq_true in Ht.
Qed.

(** The binary search and two blocks find what a scan of the whole table
    would. *)
Lemma seekBlocks_spec r rs target :
  rmodels r rs -> rs <> [] ->
  exists r', seekBlocks 2 r (startBlock r target) target = (r', Ok (seek_rec target rs))
    /\ rmodels r' rs.
Proof.
  intros Hr Hne. pose proof Hr as [(blocks & tail & Hf & Hi & -> & Hnb) Hwf Hs _ _ _].
  assert (blocks <> []) as Hne' by (by intros ->).
  destruct (startBlock_spec r blocks target Hi Hs Hnb Hne') as (b & Hb & Hbefore & Hafter).
  set (i := startBlock r target) in *.
  assert (seek_rec target (concat blocks) = seek_rec target (b ++ concat (drop (S i) blocks))) as ->.
  { rewrite <- (take_drop_middle blocks i b Hb) at 1. rewrite concat_app, seek_rec_app_lt by done.
    done. }
  rewrite (seekBlocks_block r blocks tail _ 1 i b target Hf Hi Hwf Hb Hr).
  destruct (seek_rec target b) as [x|] eqn:Hx.
  { rewrite (seek_rec_app_Some _ _ _ x) by done. eexists. split; [done|]. by apply rmodels_addBlockRead. }
  rewrite (seek_rec_app_lt target b) by (by apply seek_rec_None).
  pose proof (rmodels_addBlockRead _ _ Hr) as Hr1.
  destruct (blocks !! S i) as [b'|] eqn:Hb'.
  - rewrite (seekBlocks_block (addBlockRead r) blocks tail _ 0 (S i) b' target Hf Hi Hwf Hb' Hr1).
    specialize (Hafter b' eq_refl). rewrite Forall_lookup in Hnb. pose proof (Hnb _ _ Hb') as Hn.
    destruct b' as [|y bs]; [done|]. cbn [first_key] in Hafter.
    erewrite drop_S by exact Hb'. cbn [concat app seek_rec].
    assert (~ record.Key y <b target) as Hny by (apply not_blt; border).
    rewrite !decide_False by done. eexists. split; [done|]. by apply rmodels_addBlockRead.
  - cbn [seekBlocks addBlockRead r_index]. rewrite Hi, index_of_lookup, Hb'.
    cbn [fmap option_fmap option_map].
    apply lookup_ge_None in Hb'. rewrite drop_ge by done. eauto.
Qed.

(** The reads in terms of the seek of Versions.v. *)
Lemma rmodels_index_nil r rs : rmodels r rs -> len (r_index r) = 0 <-> rs = [].
Proof.
  intros [(blocks & tail & _ & Hi & -> & Hnb) _ _ _ _ _]. rewrite Hi, len_eq_0.
  destruct blocks as [|b bs]; [done|]. apply Forall_cons in Hnb as [Hb _].
  split; [done|]. by destruct b.
Qed.

Lemma seek_rec_result rs target :
  Forall (fun x => exists k t, is_u64 t /\ record.Key x = Encode k t) rs ->
  match seek_rec target rs with
  | None => drop_lt target (table_of rs) = []
  | Some x => exists uk t rest, is_u64 t /\ record.Key x = Encode uk t
      /\ drop_lt target (table_of rs) = (Encode uk t, record.Op x :: record.Value x) :: rest
      /\ x ∈ rs
  end.
Proof.
  intros Hk. pose proof (seek_rec_drop_lt target rs) as Hd.
  destruct (seek_rec target rs) as [x|] eqn:E; [|done]. destruct Hd as [rest Hd].
  assert (x ∈ rs) as Hin.
  { clear Hk Hd. induction rs as [|r rs IH]; cbn in E; [done|]. apply elem_of_cons.
    case_decide; [right; auto|]. injection E as ->. auto. }
  rewrite Forall_forall in Hk. destruct (Hk _ Hin) as (uk & t & Ht & Ek).
  exists uk, t, rest. rewrite <- Ek. done.
Qed.

(** Keys the filter rejects are not in the table. *)
Lemma mayContain_false r rs k :
  rmodels r rs -> mayContain r k = Some false ->
  forall s, seek_result (table_of rs) k s = None.
Proof.
  intros Hr Hf s. unfold seek_result. destruct (drop_lt (Encode k s) (table_of rs)) as [|e l] eqn:E; [done|].
  rewrite decide_False; [done|]. intros Hk.
  assert (e ∈ table_of rs) as Hin.
  { apply (elem_of_drop_lt (Encode k s)); [apply Hr|]. rewrite E. apply elem_of_cons. auto. }
  apply list_elem_of_fmap in Hin as (x & -> & Hin). cbn in Hk.
  destruct (rm_filter _ _ Hr) as [Hyes _]. specialize (Hyes x Hin). rewrite Hk, Hf in Hyes. done.
Qed.

Lemma sst_GetAsOf_seek r rs k s :
  rmodels r rs ->
  exists r', rmodels r' rs
    /\ GetAsOf r k s
       = (r', Ok ((fun e => as_of_result (match e.2 with [] => (x00, []) | o :: v => (o, v) end))
                  <$> seek_result (table_of rs) k s)).
Proof.
  intros Hr. unfold GetAsOf. rewrite (rm_open _ _ Hr).
  case_decide as H0; [apply (rmodels_index_nil r rs Hr) in H0 as ->; eauto|].
  destruct (mayContain r k) as [[|]|] eqn:Hm.
  - assert (rs <> []) as Hne by (intros ->; by apply H0, (rmodels_index_nil r [])).
    destruct (seekBlocks_spec r rs (Encode k s) Hr Hne) as (r' & -> & Hr'). exists r'.
    split; [done|]. f_equal. cbn [mbind outcome_bind].
    pose proof (seek_rec_result rs (Encode k s) (rm_keys _ _ Hr)) as Hs. unfold seek_result.
    destruct (seek_rec (Encode k s) rs) as [x|]; [|by rewrite Hs].
    destruct Hs as (uk & t & rest & Ht & Ek & -> & _). rewrite Ek, Decode_Encode by done.
    cbn [fst]. rewrite UserKey_Encode. destruct (decide (uk = k)) as [->|Hne'].
    + rewrite decide_False by tauto. cbn. unfold as_of_result. cbn. by case_decide.
    + by rewrite decide_True.
  - exists r. split; [done|]. by rewrite (mayContain_false r rs).
  - exfalso. by apply (proj2 (rm_filter _ _ Hr) k).
Qed.

Lemma sst_NewestVersionTS_seek r rs k :
  rmodels r rs ->
  exists r', rmodels r' rs
    /\ NewestVersionTS r k
       = (r', Ok ((fun e => Timestamp e.1) <$> seek_result (table_of rs) k max_u64)).
Proof.
  intros Hr. unfold NewestVersionTS. rewrite (rm_open _ _ Hr).
  case_decide as H0; [apply (rmodels_index_nil r rs Hr) in H0 as ->; eauto|].
  destruct (mayContain r k) as [[|]|] eqn:Hm.
  - assert (rs <> []) as Hne by (intros ->; by apply H0, (rmodels_index_nil r [])).
    destruct (seekBlocks_spec r rs (Encode k max_u64) Hr Hne) as (r' & -> & Hr'). exists r'.
    split; [done|]. f_equal. cbn [mbind outcome_bind].
    pose proof (seek_rec_result rs (Encode k max_u64) (rm_keys _ _ Hr)) as Hs. unfold seek_result.
    destruct (seek_rec (Encode k max_u64) rs) as [x|]; [|by rewrite Hs].
    destruct Hs as (uk & t & rest & Ht & Ek & -> & _). rewrite Ek, Decode_Encode by done.
    cbn [fst]. rewrite UserKey_Encode. destruct (decide (uk = k)) as [->|Hne'].
    + rewrite decide_False by tauto. cbn. by rewrite Timestamp_Encode.
    + by rewrite decide_True.
  - exists r. split; [done|]. by rewrite (mayContain_false r rs).
  - exfalso. by apply (proj2 (rm_filter _ _ Hr) k).
Qed.

(** ** Full iteration *)

Section iterate_lemmas.
Context {A : Type}.
Variable fn : byte -> bytes -> bytes -> A -> A * bool.

Fixpoint iter_recs (rs : list record.Rec) (acc : A) : A * bool :=
  match rs with
  | [] => (acc, true)
  | r :: rs' =>
      match fn (record.Op r) (record.Key r) (record.Value r) acc with
      | (acc', false) => (acc', false)
      | (acc', true) => iter_recs rs' acc'
      end
  end.

Lemma iter_recs_app a b acc :
  iter_recs (a ++ b) acc
  = (let '(acc', more) := iter_recs a acc in if more : bool then iter_recs b acc' else (acc', false)).
Proof.
  revert acc. induction a as [|r a IH]; intros acc; cbn; [done|].
  destruct (fn _ _ _ acc) as [acc' []]; [apply IH|done].
Qed.

Lemma Iterate_block_spec base rs : forall pre fuel acc,
  Forall record.wf rs -> (length rs < fuel)%nat ->
  Iterate_block fn fuel base (record.encs pre ++ record.encs rs) (len (record.encs pre)) acc
  = (let '(acc', more) := iter_recs rs acc in (acc', Ok more)).
Proof.
  induction rs as [|r rs IH]; intros pre fuel acc Hrs Hf;
    (destruct fuel as [|fuel]; [cbn in Hf; lia|]); cbn [Iterate_block iter_recs].
  - rewrite app_nil_r, decide_False by lia. done.
  - apply Forall_cons in Hrs as [Hr Hrs]. rewrite record.encs_cons, record.drop_encs.
    rewrite decide_True by (rewrite !len_app, record.len_record_Encode;
      pose proof (record.size_pos r); pose proof (len_nonneg (record.encs rs)); lia).
    rewrite record.Decode_record by done. destruct (fn _ _ _ acc) as [acc' []]; [|done].
    rewrite <- record.len_encs_snoc.
    replace (record.encs pre ++ record.Encode r ++ record.encs rs)
      with (record.encs (pre ++ [r]) ++ record.encs rs)
      by (rewrite record.encs_app, record.encs_cons, app_nil_r, <- !app_assoc; done).
    apply IH; [done|cbn in Hf; lia].
Qed.

Lemma Iterate_blocks_spec r blocks tail : forall done_ todo acc,
  r_file r = record.encs (concat blocks) ++ tail -> Forall record.wf (concat blocks) ->
  blocks = done_ ++ todo ->
  Iterate_blocks fn r (index_of (len (record.encs (concat done_))) todo) acc
  = ((iter_recs (concat todo) acc).1, Ok tt).
Proof.
  intros done_ todo. revert done_. induction todo as [|b bs IH]; intros done_ acc Hf Hwf Hb;
    cbn [index_of Iterate_blocks concat]; [done|].
  assert (blocks !! length done_ = Some b) as Hlk by (by rewrite Hb, list_lookup_middle).
  pose proof (pread_block blocks tail _ b Hlk) as Hp. rewrite Hb in Hp at 2.
  rewrite take_app_length, Z.add_0_l in Hp. cbn [ie_blockOffset ie_blockSize].
  rewrite Hf, Hp. pose proof (wf_concat _ _ _ _ Hwf Hlk) as Hwfb.
  pose proof (Iterate_block_spec (len (record.encs (concat done_))) b []
                (S (length (record.encs b))) acc Hwfb) as Hs.
  cbn [app record.encs concat fmap list_fmap] in Hs. change (len []) with 0 in Hs.
  fold (record.encs b) in Hs. rewrite Hs by (pose proof (record.length_encs b); lia).
  rewrite iter_recs_app. destruct (iter_recs b acc) as [acc' []]; [|done].
  specialize (IH (done_ ++ [b]) acc' Hf Hwf). rewrite <- app_assoc in IH. specialize (IH Hb).
  rewrite concat_app, record.encs_app, len_app in IH. cbn [concat] in IH.
  rewrite app_nil_r in IH. exact IH.
Qed.

Lemma sst_Iterate_spec r rs acc :
  rmodels r rs -> Iterate fn r acc = ((iter_recs rs acc).1, Ok tt).
Proof.
  intros [(blocks & tail & Hf & Hi & -> & _) Hwf _ _ _ Ho]. unfold Iterate. rewrite Ho, Hi.
  apply (Iterate_blocks_spec r blocks tail [] blocks); done.
Qed.

End iterate_lemmas.

(** ** Writers *)

(** A version to be written. *)
Record add := MkAdd { a_op : byte; a_key : bytes; a_value : bytes; a_ts : Z }.

Definition rec_of (a : add) : record.Rec :=
  record.MkRec (a_op a) (a_ts a) (Encode (a_key a) (a_ts a)) (a_value a).

Definition recs_of (adds : list add) : list record.Rec := rec_of <$> adds.

(** The version map a list of adds describes. *)
Definition versions (adds : list add) : vmap :=
  foldl (fun V a => <[(a_key a, a_ts a) := (a_op a, a_value a)]> V) ∅ adds.

Definition max_ts (adds : list add) : Z := foldl (fun m a => Z.max m (a_ts a)) 0 adds.

(** The writer [w] has taken [adds]. *)
Record wmodels (w : Writer) (adds : list add) : Prop := {
  wm_layout : exists blocks cur,
      recs_of adds = concat blocks ++ cur /\ Forall (fun b => b <> []) blocks
      /\ w_out w = record.encs (concat blocks) /\ w_index w = index_of 0 blocks
      /\ blockBuf w = record.encs cur /\ (cur <> [] -> blockFirstKey w = first_key cur)
      /\ (adds <> [] -> cur <> []);
  wm_written : written w = len (w_out w);
  wm_last : lastEncKey w = (fun a => Encode (a_key a) (a_ts a)) <$> last adds;
  wm_count : count w = len adds;
  wm_max : w_maxTimestamp w = max_ts adds;
  wm_filter : bloom.wf (w_filter w)
      /\ forall a, a ∈ adds -> bloom.MayContain (w_filter w) (a_key a) = Some true;
  wm_open : w_closed w = false
}.

Lemma encs_nil_iff rs : len (record.encs rs) = 0 <-> rs = [].
Proof.
  split; [|by intros ->]. destruct rs as [|r rs]; [done|].
  rewrite record.encs_cons, len_app, record.len_record_Encode.
  pose proof (record.size_pos r). pose proof (len_nonneg (record.encs rs)). lia.
Qed.

Lemma NewWriter_models n ai : wmodels (NewWriter n ai) [].
Proof.
  split; unfold NewWriter; cbn [w_out blockBuf blockFirstKey w_index w_filter lastEncKey
    w_maxTimestamp written count w_closed]; [|reflexivity..| |reflexivity].
  - exists [], []. split_and!; [reflexivity|constructor|reflexivity..|done|done].
  - split; [apply bloom.New_wf|]. intros a Ha. by apply elem_of_nil in Ha.
Qed.

(** What [flushBlock] leaves. *)
Lemma flushBlock_models w adds blocks cur :
  recs_of adds = concat blocks ++ cur -> Forall (fun b => b <> []) blocks ->
  w_out w = record.encs (concat blocks) -> w_index w = index_of 0 blocks ->
  blockBuf w = record.encs cur -> (cur <> [] -> blockFirstKey w = first_key cur) ->
  written w = len (w_out w) -> len (record.encs (recs_of adds)) < 2 ^ 63 ->
  let w' := flushBlock w in
  let blocks' := if decide (cur = []) then blocks else blocks ++ [cur] in
  recs_of adds = concat blocks' /\ Forall (fun b => b <> []) blocks'
  /\ w_out w' = record.encs (concat blocks') /\ w_index w' = index_of 0 blocks'
  /\ blockBuf w' = [] /\ written w' = len (w_out w')
  /\ lastEncKey w' = lastEncKey w /\ count w' = count w
  /\ w_maxTimestamp w' = w_maxTimestamp w /\ w_filter w' = w_filter w
  /\ w_closed w' = w_closed w /\ w_appliedIndex w' = w_appliedIndex w.
Proof.
  intros Hr Hne Ho Hi Hb Hfk Hw Hlt. cbv zeta. unfold flushBlock. rewrite Hb.
  destruct (decide (cur = [])) as [->|Hc].
  - rewrite decide_True by done. rewrite app_nil_r in Hr. split_and!; done.
  - rewrite decide_False by (by rewrite encs_nil_iff).
    cbn [w_out w_index blockBuf written lastEncKey count w_maxTimestamp w_filter w_closed w_appliedIndex].
    rewrite concat_app. cbn [concat]. rewrite app_nil_r.
    assert (written w + len (record.encs cur) = len (record.encs (recs_of adds))) as Hlen
      by (rewrite Hw, Ho, Hr, record.encs_app, len_app; lia).
    pose proof (len_nonneg (record.encs (recs_of adds))).
    split_and!; try done.
    + apply Forall_app. split; [done|]. by apply Forall_singleton.
    + by rewrite Ho, record.encs_app.
    + rewrite Hi, index_of_app. cbn [index_of]. rewrite Hfk by done. by rewrite Hw, Ho.
    + rewrite Hlen, i64_small by lia. rewrite Ho, <- record.encs_app, <- Hr. done.
Qed.

Lemma recs_of_app a b : recs_of (a ++ b) = recs_of a ++ recs_of b.
Proof. apply fmap_app. Qed.

(** A fresh, later key is accepted. *)
Lemma Add_models w adds a :
  wmodels w adds -> record.wf (rec_of a) ->
  (forall b, last adds = Some b -> Encode (a_key b) (a_ts b) <b Encode (a_key a) (a_ts a)) ->
  len (record.encs (recs_of adds)) < 2 ^ 63 -> 0 <= a_ts a ->
  exists w', Add w (a_op a) (a_key a) (a_value a) (a_ts a) = Ok w' /\ wmodels w' (adds ++ [a])
    /\ w_appliedIndex w' = w_appliedIndex w /\ bloom.m (w_filter w') = bloom.m (w_filter w).
Proof.
  intros [(blocks & cur & Hr & Hne & Ho & Hi & Hb & Hfk & Hcur) Hw Hlast Hcnt Hmax [Hbf Hmem] Hop]
    Hwf Hord Hlt Hts.
  unfold Add. rewrite Hop, Hlast.
  assert (match (fun a => Encode (a_key a) (a_ts a)) <$> last adds with
          | Some last => match bcompare (Encode (a_key a) (a_ts a)) last with
                         | Eq => Err ErrDuplicate | Lt => Err ErrOutOfOrder | Gt => Ok tt end
          | None => Ok tt end = Ok (E := error) tt) as ->.
  { destruct (last adds) as [b|]; [|done]. cbn [fmap option_fmap option_map].
    specialize (Hord b eq_refl). apply bcompare_gt in Hord. by rewrite Hord. }
  cbn [mbind outcome_bind]. fold (rec_of a).
  set (enc := record.Encode (rec_of a)).
  set (w1 := if decide _ then flushBlock w else w).
  assert (exists blocks1 cur1, recs_of adds = concat blocks1 ++ cur1
    /\ Forall (fun b => b <> []) blocks1 /\ w_out w1 = record.encs (concat blocks1)
    /\ w_index w1 = index_of 0 blocks1 /\ blockBuf w1 = record.encs cur1
    /\ (cur1 <> [] -> blockFirstKey w1 = first_key cur1) /\ written w1 = len (w_out w1)
    /\ lastEncKey w1 = lastEncKey w /\ count w1 = count w
    /\ w_maxTimestamp w1 = w_maxTimestamp w /\ w_filter w1 = w_filter w
    /\ w_closed w1 = w_closed w /\ w_appliedIndex w1 = w_appliedIndex w)
    as (bl & cu & Hr1 & Hne1 & Ho1 & Hi1 & Hb1 & Hfk1 & Hw1 & _ & Hc1 & Hm1 & Hf1 & Hcl1 & Ha1).
  { unfold w1. case_decide.
    - destruct (flushBlock_models w adds blocks cur Hr Hne Ho Hi Hb Hfk Hw Hlt)
        as (R1 & R2 & R3 & R4 & R5 & R6 & R7).
      eexists _, []. rewrite app_nil_r. split_and!; [exact R1|done..|tauto|tauto|tauto|tauto|tauto|tauto].
    - exists blocks, cur. split_and!; done. }
  rewrite Hf1. destruct (bloom.Add_MayContain (w_filter w) (a_key a) Hbf)
    as (fl & -> & Hfwf & Hfm & Hin & Hmono).
  eexists. split; [done|]. cbn [w_appliedIndex w_filter]. split; [|done].
  split; cbn [w_out blockBuf blockFirstKey w_index w_filter lastEncKey w_maxTimestamp written count
              w_closed].
  - exists bl, (cu ++ [rec_of a]). split_and!; [|done|done|done| | |].
    + rewrite recs_of_app, Hr1, <- app_assoc. done.
    + rewrite Hb1, record.encs_app, record.encs_cons, app_nil_r. done.
    + intros _. rewrite Hb1. destruct cu as [|x cu].
      * rewrite decide_True by done. done.
      * rewrite decide_False by (by rewrite encs_nil_iff). rewrite Hfk1 by done. done.
    + intros _ E. by apply app_eq_nil in E as [_ ?].
  - done.
  - by rewrite last_snoc.
  - rewrite Hc1, Hcnt, len_app. done.
  - rewrite Hm1, Hmax. unfold max_ts. rewrite foldl_app. cbn [foldl]. case_decide; lia.
  - split; [done|]. intros b Hb'. apply elem_of_app in Hb' as [Hb'|Hb'].
    + by apply Hmono, Hmem.
    + apply list_elem_of_singleton in Hb' as ->. done.
  - congruence.
Qed.

(** ** Finish and open *)

Lemma Uint64_skip x c off :
  8 <= off -> record.Uint64 (le_bytes 8 x ++ c) off = record.Uint64 c (off - 8).
Proof.
  intros H. unfold record.Uint64. rewrite slice_app_r by (rewrite len_le_bytes; lia).
  rewrite len_le_bytes. do 2 f_equal. lia.
Qed.

Definition entry_ok (e : indexEntry) : Prop :=
  record.HeaderSize + len (firstKey e) < 2 ^ 32
  /\ 0 <= ie_blockOffset e < 2 ^ 63 /\ 0 <= ie_blockSize e < 2 ^ 63.

Lemma indexRecord_wf e : entry_ok e -> record.wf (indexRecord e).
Proof.
  intros (Hk & _). unfold record.wf, indexRecord. cbn [record.Op record.Timestamp record.Key record.Value].
  split_and!; [done|unfold is_u64; lia|done|]. rewrite len_app, !len_le_bytes. lia.
Qed.

Lemma indexRecord_decode e :
  entry_ok e ->
  let v := record.Value (indexRecord e) in
  len v = 16 /\ MkIndexEntry (firstKey e) (i64 (record.Uint64 v 0)) (i64 (record.Uint64 v 8)) = e.
Proof.
  intros (_ & Ho & Hs). cbv zeta. unfold indexRecord. cbn [record.Value].
  split; [by rewrite len_app, !len_le_bytes|].
  rewrite record.Uint64_head, Uint64_skip by lia. rewrite Z.sub_diag.
  rewrite <- (app_nil_r (le_bytes 8 (u64 (ie_blockSize e)))), record.Uint64_head.
  rewrite !(u64_small (u64 _)) by apply is_u64_u64. rewrite !i64_u64 by lia. by destruct e.
Qed.

Lemma decodeIndex_spec idx : forall pre acc fuel,
  Forall entry_ok idx -> (length idx < fuel)%nat ->
  decodeIndex fuel (record.encs pre ++ record.encs (indexRecord <$> idx)) (len (record.encs pre)) acc
  = Ok (acc ++ idx).
Proof.
  induction idx as [|e idx IH]; intros pre acc fuel Hok Hf;
    (destruct fuel as [|fuel]; [cbn in Hf; lia|]); cbn [decodeIndex].
  - cbn [fmap list_fmap]. rewrite app_nil_r, decide_False by lia. by rewrite app_nil_r.
  - apply Forall_cons in Hok as [He Hok]. rewrite fmap_cons, record.encs_cons, record.drop_encs.
    rewrite decide_True by (rewrite !len_app, record.len_record_Encode;
      pose proof (record.size_pos (indexRecord e));
      pose proof (len_nonneg (record.encs (indexRecord <$> idx))); lia).
    rewrite record.Decode_record by (by apply indexRecord_wf).
    destruct (indexRecord_decode e He) as [Hl Hd].
    rewrite decide_False by lia. rewrite <- record.len_encs_snoc.
    change (record.Key (indexRecord e)) with (firstKey e). rewrite Hd.
    replace (record.encs pre ++ record.Encode (indexRecord e) ++ record.encs (indexRecord <$> idx))
      with (record.encs (pre ++ [indexRecord e]) ++ record.encs (indexRecord <$> idx))
      by (rewrite record.encs_app, record.encs_cons, app_nil_r, <- !app_assoc; done).
    rewrite IH by (done || (cbn in Hf; lia)). by rewrite <- app_assoc.
Qed.

(** Index entries of a layout are well formed and the index section is at most
    twice the data. *)
Lemma index_of_ok blocks : forall o,
  Forall record.wf (concat blocks) -> Forall (fun b => b <> []) blocks ->
  0 <= o -> o + len (record.encs (concat blocks)) < 2 ^ 63 ->
  Forall entry_ok (index_of o blocks)
  /\ len (record.encs (indexRecord <$> index_of o blocks)) <= 2 * len (record.encs (concat blocks)).
Proof.
  induction blocks as [|b bs IH]; intros o Hwf Hne Ho Hlt; cbn [index_of].
  - split; [constructor|done].
  - cbn [concat] in Hwf, Hlt |- *. apply Forall_app in Hwf as [Hb Hwf].
    apply Forall_cons in Hne as [Hbn Hne]. rewrite record.encs_app, len_app in Hlt |- *.
    pose proof (len_nonneg (record.encs b)). pose proof (len_nonneg (record.encs (concat bs))).
    destruct (IH (o + len (record.encs b)) Hwf Hne ltac:(lia) ltac:(lia)) as [H1 H2].
    destruct b as [|x b]; [done|]. apply Forall_cons in Hb as [(_ & _ & Hk & _) _]. split.
    + constructor; [|done]. unfold entry_ok. cbn [firstKey ie_blockOffset ie_blockSize first_key]. lia.
    + rewrite fmap_cons, record.encs_cons, len_app, record.len_record_Encode.
      assert (record.size (indexRecord (MkIndexEntry (first_key (x :: b)) o (len (record.encs (x :: b)))))
              <= 2 * len (record.encs (x :: b))); [|lia].
      rewrite record.encs_cons, len_app, record.len_record_Encode.
      unfold record.size, indexRecord. cbn [record.Key record.Value first_key firstKey].
      rewrite len_app, !len_le_bytes. unfold record.HeaderSize.
      pose proof (len_nonneg (record.encs b)). pose proof (len_nonneg (record.Value x)).
      pose proof (len_nonneg (record.Key x)). lia.
Qed.

Lemma len_footer a b c d e f : len (footer a b c d e f) = footerSize.
Proof. unfold footer. rewrite !len_app, !len_le_bytes. done. Qed.

Lemma footer_fields a b c d e f :
  is_u64 e -> is_u64 f ->
  let ft := footer a b c d e f in
  record.Uint64 ft 0 = u64 a /\ record.Uint64 ft 8 = u64 b /\ record.Uint64 ft 16 = u64 c
  /\ record.Uint64 ft 24 = u64 d /\ record.Uint64 ft 32 = e /\ record.Uint64 ft 40 = f
  /\ record.Uint64 ft 48 = magic.
Proof.
  intros He Hf. cbv zeta. unfold footer. rewrite <- (app_nil_r (le_bytes 8 magic)).
  split_and!; repeat (rewrite Uint64_skip by lia);
    match goal with |- record.Uint64 _ ?o = _ => replace o with 0 by lia end;
    rewrite record.Uint64_head, ?(u64_small (u64 _)) by apply is_u64_u64; try done; by apply u64_small.
Qed.

Lemma pread_mid (a b c : bytes) off n :
  off = len a -> n = len b -> pread (a ++ b ++ c) off n = Some b.
Proof.
  intros -> ->. unfold pread. pose proof (len_nonneg a). pose proof (len_nonneg c).
  rewrite decide_True by (rewrite !len_app; lia). f_equal. apply slice_mid; lia.
Qed.

Lemma bloom_Bytes_len fl : bloom.wf fl -> 1 < len (bloom.Bytes fl) < 2 ^ 61 + 1.
Proof. intros (Hm & Hr & _). unfold bloom.Bytes. rewrite len_cons. lia. Qed.

(** Opening a file with the layout [Finish] writes. *)
Lemma OpenReader_layout blocks fl maxTS ai :
  Forall record.wf (concat blocks) -> Forall (fun b => b <> []) blocks -> bloom.wf fl ->
  len (record.encs (concat blocks)) < 2 ^ 60 -> is_u64 maxTS -> is_u64 ai ->
  let data := record.encs (concat blocks) in
  let ib := record.encs (indexRecord <$> index_of 0 blocks) in
  let bb := bloom.Bytes fl in
  let file := data ++ ib ++ bb ++ footer (len data) (len ib) (len data + len ib) (len bb) maxTS ai in
  OpenReader file = Ok (MkReader file (len file) (index_of 0 blocks) (Some fl) maxTS ai 0 false).
Proof.
  intros Hwf Hne Hfl Hlt Hts Hai. cbv zeta.
  set (data := record.encs (concat blocks)) in *.
  set (ib := record.encs (indexRecord <$> index_of 0 blocks)).
  set (bb := bloom.Bytes fl). set (ft := footer _ _ _ _ _ _).
  set (file := data ++ ib ++ bb ++ ft).
  destruct (index_of_ok blocks 0 Hwf Hne ltac:(lia) ltac:(fold data; lia)) as [Hok Hib].
  fold ib data in Hib. pose proof (bloom_Bytes_len fl Hfl) as Hbb. fold bb in Hbb.
  pose proof (len_nonneg data). pose proof (len_nonneg ib).
  assert (len ft = footerSize) as Hft by apply len_footer.
  assert (len file = len data + len ib + len bb + footerSize) as Hfile
    by (unfold file; rewrite !len_app; lia).
  unfold OpenReader. rewrite decide_False by (unfold footerSize in *; lia).
  assert (pread file (len file - footerSize) footerSize = Some ft) as ->.
  { unfold file at 1. rewrite <- (app_nil_r ft), (app_assoc data), (app_assoc _ bb).
    apply pread_mid; [rewrite !len_app; lia|done]. }
  destruct (footer_fields (len data) (len ib) (len data + len ib) (len bb) maxTS ai Hts Hai)
    as (F0 & F8 & F16 & F24 & F32 & F40 & F48).
  fold ft in F0, F8, F16, F24, F32, F40, F48. rewrite F0, F8, F16, F24, F32, F40, F48.
  rewrite decide_False by tauto. rewrite !i64_u64 by lia. rewrite !i64_small by lia.
  rewrite decide_False by (unfold footerSize in *; lia).
  assert ((if decide (len ib > 0) then pread file (len data) (len ib) else Some []) = Some ib) as ->.
  { case_decide; [by apply pread_mid|]. f_equal. symmetry. apply len_eq_0. lia. }
  pose proof (decodeIndex_spec (index_of 0 blocks) [] [] (S (length ib)) Hok) as Hd.
  cbn [app] in Hd. change (record.encs [] ++ record.encs (indexRecord <$> index_of 0 blocks)) with ib in Hd.
  change (len (record.encs [])) with 0 in Hd. rewrite Hd; cycle 1.
  { pose proof (record.length_encs (indexRecord <$> index_of 0 blocks)) as Hl.
    rewrite length_fmap in Hl. unfold ib. lia. }
  cbn [mbind outcome_bind]. rewrite decide_True by lia.
  assert (pread file (len data + len ib) (len bb) = Some bb) as ->.
  { unfold file. rewrite (app_assoc data). apply pread_mid; [by rewrite len_app|done]. }
  unfold bb. by rewrite bloom.Load_Bytes.
Qed.

Lemma foldl_max_bound adds : forall m0, 0 <= m0 < 2 ^ 64 -> Forall (fun a => is_u64 (a_ts a)) adds ->
  is_u64 (foldl (fun m a => Z.max m (a_ts a)) m0 adds).
Proof.
  induction adds as [|a adds IH]; intros m0 Hm0 Ha; [done|]. apply Forall_cons in Ha as [Ha Hadds].
  cbn. apply IH; [|done]. unfold is_u64 in Ha. lia.
Qed.

Lemma Finish_Open w adds :
  wmodels w adds -> Forall (fun a => record.wf (rec_of a)) adds -> sorted_recs (recs_of adds) ->
  len (record.encs (recs_of adds)) < 2 ^ 60 -> is_u64 (w_appliedIndex w) ->
  exists w' file r, Finish w = Ok (w', file) /\ w_closed w' = true /\ Count w' = len adds
    /\ OpenReader file = Ok r /\ rmodels r (recs_of adds)
    /\ MaxTimestamp r = max_ts adds /\ AppliedIndex r = w_appliedIndex w.
Proof.
  intros [(blocks & cur & Hr & Hne & Ho & Hi & Hb & Hfk & Hcur) Hw Hlast Hcnt Hmax [Hbf Hmem] Hop]
    Hwf Hs Hlt Hai.
  unfold Finish. rewrite Hop.
  destruct (flushBlock_models w adds blocks cur Hr Hne Ho Hi Hb Hfk Hw ltac:(lia))
    as (R1 & R2 & R3 & R4 & R5 & R6 & R7 & R8 & R9 & R10 & R11 & R12).
  set (bl := if decide (cur = []) then blocks else blocks ++ [cur]) in *.
  assert (Forall record.wf (concat bl)) as Hwfb.
  { rewrite <- R1. unfold recs_of. by rewrite Forall_fmap. }
  assert (is_u64 (max_ts adds)) as Hmts.
  { apply foldl_max_bound; [lia|]. eapply Forall_impl; [exact Hwf|]. intros a (_ & H & _). exact H. }
  pose proof (OpenReader_layout bl (w_filter w) (max_ts adds) (w_appliedIndex w) Hwfb R2 Hbf
                ltac:(rewrite <- R1; done) Hmts Hai) as Hopen. cbv zeta in Hopen.
  destruct (index_of_ok bl 0 Hwfb R2 ltac:(lia) ltac:(rewrite <- R1; lia)) as [_ Hib].
  rewrite <- R1 in Hib, Hopen.
  assert (written (flushBlock w) = len (record.encs (recs_of adds))) as Hwr by (rewrite R6, R3, R1; done).
  assert (concat ((fun e => record.Encode (indexRecord e)) <$> w_index (flushBlock w))
          = record.encs (indexRecord <$> index_of 0 bl)) as Hidx
    by (rewrite R4; unfold record.encs; by rewrite <- list_fmap_compose).
  eexists _, _, _. split; [reflexivity|]. cbn [w_closed Count count].
  rewrite Hidx, Hwr, R3, <- R1, R10, R9, R12, Hmax.
  pose proof (len_nonneg (record.encs (recs_of adds))) as L0.
  pose proof (len_nonneg (record.encs (indexRecord <$> index_of 0 bl))) as L1.
  rewrite i64_small by lia. split_and!; [done|by rewrite R8|exact Hopen| |done|done].
  assert (Forall (fun x => exists k t, is_u64 t /\ record.Key x = Encode k t) (recs_of adds)) as Hkeys.
  { unfold recs_of. rewrite Forall_fmap. eapply Forall_impl; [exact Hwf|]. intros a (_ & Ht & _).
    cbn. eauto. }
  split; cbn [r_file r_index mayContain r_filter r_closed]; [|by rewrite R1|done|done| |done].
  - eexists bl, _. split; [by rewrite R1|]. split_and!; done.
  - split.
    + intros x Hx. apply list_elem_of_fmap in Hx as (a & -> & Ha). cbn [rec_of record.Key].
      rewrite UserKey_Encode. by apply Hmem.
    + intros k. destruct (bloom.MayContain_spec (w_filter w) k Hbf) as (b & -> & _). done.
Qed.

(** ** Building a table *)

Fixpoint AddAll (w : Writer) (adds : list add) : outcome error Writer :=
  match adds with
  | [] => Ok w
  | a :: adds' => w1 ← Add w (a_op a) (a_key a) (a_value a) (a_ts a); AddAll w1 adds'
  end.

(** The way flush and compaction write a table and open it. *)
Definition build (expectedKeys appliedIndex : Z) (adds : list add) : outcome error Reader :=
  w ← AddAll (NewWriter expectedKeys appliedIndex) adds;
  '(_, file) ← Finish w;
  OpenReader file.

(** Versions in strictly ascending encoded order, each a record the format can
    carry, below 2^60 bytes together. *)
Definition adds_ok (adds : list add) : Prop :=
  Forall (fun a => record.wf (rec_of a)) adds /\ sorted_recs (recs_of adds)
  /\ len (record.encs (recs_of adds)) < 2 ^ 60.

Lemma AddAll_models todo : forall w done_,
  wmodels w done_ -> adds_ok (done_ ++ todo) ->
  exists w', AddAll w todo = Ok w' /\ wmodels w' (done_ ++ todo)
    /\ w_appliedIndex w' = w_appliedIndex w.
Proof.
  induction todo as [|a todo IH]; intros w done_ Hw Hok; cbn [AddAll].
  - exists w. by rewrite app_nil_r.
  - pose proof Hok as (Hwf & Hs & Hlt). apply Forall_app in Hwf as [_ [Ha _]%Forall_cons].
    rewrite recs_of_app in Hs, Hlt. rewrite record.encs_app, len_app in Hlt.
    pose proof (len_nonneg (record.encs (recs_of (a :: todo)))).
    apply sorted_recs_app in Hs as (_ & _ & Hlast).
    destruct (Add_models w done_ a Hw Ha) as (w1 & -> & Hw1 & Hai & _).
    { intros b Hb. apply (Hlast (rec_of b) (rec_of a)).
      - apply list_elem_of_fmap. exists b. split; [done|].
        apply last_Some in Hb as [l' ->]. apply elem_of_app. right. apply elem_of_cons. auto.
      - apply elem_of_cons. auto. }
    { lia. }
    { destruct Ha as (_ & Ht & _). exact (proj1 Ht). }
    cbn [mbind outcome_bind]. destruct (IH w1 (done_ ++ [a]) Hw1) as (w' & -> & Hw' & Hai').
    { by rewrite <- app_assoc. }
    rewrite <- app_assoc in Hw'. exists w'. split_and!; [done|done|congruence].
Qed.

Lemma build_models n ai adds :
  adds_ok adds -> is_u64 ai ->
  exists r, build n ai adds = Ok r /\ rmodels r (recs_of adds)
    /\ MaxTimestamp r = max_ts adds /\ AppliedIndex r = ai.
Proof.
  intros Hok Hai. destruct (AddAll_models adds _ [] (NewWriter_models n ai) Hok) as (w & Ew & Hw & Hwa).
  cbn [app] in Hw. destruct Hok as (Hwf & Hs & Hlt).
  destruct (Finish_Open w adds Hw Hwf Hs Hlt ltac:(by rewrite Hwa)) as (w' & file & r & Ef & _ & _ & Er & Hr & Hm & Ha).
  exists r. unfold build. rewrite Ew. cbn [mbind outcome_bind]. rewrite Ef. cbn. rewrite Er, Hwa in *.
  done.
Qed.

Lemma build_models_inv n ai adds r :
  adds_ok adds -> is_u64 ai -> build n ai adds = Ok r -> rmodels r (recs_of adds).
Proof. intros Hok Hai E. destruct (build_models n ai adds Hok Hai) as (r' & E' & H & _). congruence. Qed.

Lemma versions_encodes adds : adds_ok adds -> encodes (versions adds) (table_of (recs_of adds)).
Proof.
  intros (Hwf & Hs & _). induction adds as [|a adds IH] using rev_ind; [apply encodes_empty|].
  apply Forall_app in Hwf as [Hwf [(_ & Ht & _) _]%Forall_cons].
  rewrite recs_of_app in Hs |- *. pose proof Hs as (Hs1 & _ & Hlt)%sorted_recs_app.
  unfold versions. rewrite foldl_app. cbn [foldl]. rewrite table_of_app.
  assert (table_of (recs_of adds) ++ table_of (recs_of [a])
          = ins (Encode (a_key a) (a_ts a)) (a_op a :: a_value a) (table_of (recs_of adds))) as ->.
  { rewrite <- (app_nil_r (table_of (recs_of adds))) at 2. rewrite ins_app_lt; [done|].
    apply Forall_forall. intros e He. apply list_elem_of_fmap in He as (x & -> & Hx). cbn [fst].
    apply (Hlt x (rec_of a) Hx). apply elem_of_cons. auto. }
  apply encodes_insert; [exact Ht|]. by apply IH.
Qed.

(** ** Properties *)

(** C36. A table written in ascending encoded-key order and opened again holds
    exactly what was added: [Iterate] visits every version in order, and the
    footer returns the largest timestamp and the applied index; for any block
    boundaries, any filter size and any number of blocks. *)
Theorem sstable_roundtrip n ai adds :
  adds_ok adds -> is_u64 ai ->
  exists r, build n ai adds = Ok r
    /\ Iterate (fun op ek v acc => (acc ++ [(op, ek, v)], true)) r []
       = ((fun a => (a_op a, Encode (a_key a) (a_ts a), a_value a)) <$> adds, Ok tt)
    /\ MaxTimestamp r = max_ts adds /\ AppliedIndex r = ai.
Proof.
  intros Hok Hai. destruct (build_models n ai adds Hok Hai) as (r & E & Hr & Hm & Ha).
  exists r. split_and!; [done| |done|done]. rewrite (sst_Iterate_spec _ r (recs_of adds)) by done.
  f_equal. change ([] : list (byte * bytes * bytes)) with ([] ++ [] : list (byte * bytes * bytes)).
  assert (forall acc : list (byte * bytes * bytes),
    (iter_recs (fun op ek v acc => (acc ++ [(op, ek, v)], true)) (recs_of adds) acc).1
    = acc ++ ((fun a => (a_op a, Encode (a_key a) (a_ts a), a_value a)) <$> adds)) as H; [|apply H].
  clear. induction adds as [|a adds IH]; intros acc; cbn; [by rewrite app_nil_r|].
  rewrite IH. by rewrite <- app_assoc.
Qed.

(** [GetAsOf] on a table (bloom filter, binary search over the index, at
    most two blocks) returns the newest version not newer than the snapshot,
    with the same proviso on keys as the memtable's. *)
Theorem sstable_get_as_of n ai adds r k s :
  adds_ok adds -> is_u64 ai -> build n ai adds = Ok r ->
  text_map (versions adds) \/ prefix_free_at (versions adds) k -> 0 <= s < 2 ^ 56 ->
  match (GetAsOf r k s).2 with
  | Ok (Some res) => exists t ov, visible (versions adds) k s t ov /\ res = as_of_result ov
  | Ok None => invisible (versions adds) k s
  | Err _ | Panic => False
  end.
Proof.
  intros Hok Hai E Hcl Hs. pose proof (build_models_inv _ _ _ _ Hok Hai E) as Hr.
  destruct (sst_GetAsOf_seek r _ k s Hr) as (r' & _ & ->). cbn [snd].
  assert (clustered_at (versions adds) k) as Hc
    by (destruct Hcl; [by apply text_clustered|by apply prefix_free_clustered]).
  destruct (seek_visible _ _ k s (versions_encodes _ Hok) Hc Hs)
    as [(t & op & v & Hv & ->)|[Hi ->]]; cbn; [|done].
  by exists t, (op, v).
Qed.

(** [NewestVersionTS] on a table: the newest timestamp of a key no stored
    key properly extends; if one does, every version of the key is hidden. *)
Theorem sstable_newest_version n ai adds r k :
  adds_ok adds -> is_u64 ai -> build n ai adds = Ok r ->
  text_map (versions adds) -> text_key k ->
  ((forall k' t, is_Some (versions adds !! (k', t)) -> k `prefix_of` k' -> k' = k) ->
   match (NewestVersionTS r k).2 with
   | Ok (Some t) => newest (versions adds) k t
   | Ok None => forall t, versions adds !! (k, t) = None
   | Err _ | Panic => False
   end)
  /\ (forall c rest t', is_Some (versions adds !! (k ++ c :: rest, t')) ->
        (NewestVersionTS r k).2 = Ok None).
Proof.
  intros Hok Hai E Htx Hk. pose proof (build_models_inv _ _ _ _ Hok Hai E) as Hr.
  pose proof (versions_encodes _ Hok) as He.
  destruct (sst_NewestVersionTS_seek r _ k Hr) as (r' & _ & ->). cbn [snd]. split.
  - intros Hext. destruct (seek_newest _ _ k He Htx Hk Hext) as [(t & op & v & Hn & ->)|[Hi ->]];
      cbn; [|done].
    rewrite Timestamp_Encode; [done|]. apply (enc_u64 _ _ He k). apply Hn.
  - intros c rest t' Hx. by rewrite (seek_newest_hidden _ _ k c rest t' He Htx Hx).
Qed.

(** The writer keeps its tables sorted: after any accepted adds, a key equal
    to the last is refused as a duplicate, a smaller one as out of order, a
    larger one is accepted; a finished or aborted writer refuses everything. *)
Theorem sstable_add_order n ai adds a b w :
  adds_ok (adds ++ [a]) -> AddAll (NewWriter n ai) (adds ++ [a]) = Ok w -> record.wf (rec_of b) ->
  match bcompare (Encode (a_key b) (a_ts b)) (Encode (a_key a) (a_ts a)) with
  | Eq => Add w (a_op b) (a_key b) (a_value b) (a_ts b) = Err ErrDuplicate
  | Lt => Add w (a_op b) (a_key b) (a_value b) (a_ts b) = Err ErrOutOfOrder
  | Gt => exists w', Add w (a_op b) (a_key b) (a_value b) (a_ts b) = Ok w'
            /\ Count w' = len adds + 2
  end
  /\ Add (Abort_ w) (a_op b) (a_key b) (a_value b) (a_ts b) = Err ErrClosed
  /\ Finish (Abort_ w) = Err ErrClosed.
Proof.
  intros Hok E Hb.
  destruct (AddAll_models (adds ++ [a]) _ [] (NewWriter_models n ai) Hok) as (w' & E' & Hw & _).
  rewrite E' in E. injection E as ->. cbn [app] in Hw.
  pose proof (wm_open _ _ Hw) as Hop. pose proof (wm_last _ _ Hw) as Hlast. rewrite last_snoc in Hlast.
  cbn in Hlast. split.
  - destruct (bcompare _ _) eqn:Hc.
    + unfold Add. rewrite Hop, Hlast, Hc. done.
    + unfold Add. rewrite Hop, Hlast, Hc. done.
    + destruct Hok as (_ & _ & Hlt). destruct (Add_models w (adds ++ [a]) b Hw Hb) as (w2 & -> & Hw2 & _).
      * intros x Hx. rewrite last_snoc in Hx. injection Hx as <-. by apply bcompare_gt.
      * lia.
      * destruct Hb as (_ & Ht & _). exact (proj1 Ht).
      * exists w2. split; [done|]. unfold Count. rewrite (wm_count _ _ Hw2), !len_app, !len_cons, !len_nil. lia.
  - unfold Abort_, Add, Finish. rewrite Hop. done.
Qed.

(** ** Witnesses *)

Definition user1 : bytes := [x75; x73; x65; x72; x31].
Definition user10 : bytes := user1 ++ [x30].
Definition user2 : bytes := [x75; x73; x65; x72; x32].

(** The value of "user2" is longer than a block, so the table has two. *)
Definition demo_adds : list add :=
  [MkAdd OpPut user10 [x62] 2; MkAdd OpPut user1 [x63] 4; MkAdd OpPut user1 [x61] 1;
   MkAdd OpPut user2 (replicate 5000 x2e) 3].

Definition flat_adds : list add :=
  [MkAdd OpPut user1 [x63] 4; MkAdd OpPut user1 [x61] 1; MkAdd OpDelete user2 [] 3].

#[export] Instance sorted_recs_decision rs : Decision (sorted_recs rs).
Proof. unfold sorted_recs, sorted_keys. apply _. Defined.

#[export] Instance adds_ok_decision adds : Decision (adds_ok adds).
Proof. unfold adds_ok. apply _. Defined.

Definition reader_of (adds : list add) : Reader :=
  match build 4 9 adds with Ok r => r | _ => MkReader [] 0 [] None 0 0 0 true end.

Lemma sstable_roundtrip_witness :
  exists r, build 4 9 demo_adds = Ok r /\ NumBlocks r = 2 /\ MaxTimestamp r = 4 /\ AppliedIndex r = 9.
Proof.
  destruct (sstable_roundtrip 4 9 demo_adds ltac:(by_decide) ltac:(by_decide)) as (r & E & _ & Hm & Ha).
  exists r. split; [exact E|]. split; [|split; [exact Hm|exact Ha]].
  assert (r = reader_of demo_adds) as -> by (unfold reader_of; rewrite E; reflexivity).
  vm_compute. reflexivity.
Defined.

Lemma sstable_get_as_of_witness :
  match (GetAsOf (reader_of demo_adds) user1 3).2 with
  | Ok (Some res) => exists t ov, visible (versions demo_adds) user1 3 t ov /\ res = as_of_result ov
  | Ok None => invisible (versions demo_adds) user1 3
  | Err _ | Panic => False
  end /\ (GetAsOf (reader_of demo_adds) user1 3).2 = Ok (Some ([x61], OpPut)).
Proof.
  split; [|vm_compute; reflexivity].
  apply (sstable_get_as_of 4 9 demo_adds (reader_of demo_adds) user1 3).
  - by_decide.
  - by_decide.
  - vm_compute. reflexivity.
  - left. apply text_map_check. by_decide.
  - by_decide.
Defined.

Lemma sstable_newest_version_witness :
  (NewestVersionTS (reader_of demo_adds) user1).2 = Ok None
  /\ versions demo_adds !! (user1, 4) = Some (OpPut, [x63])
  /\ match (NewestVersionTS (reader_of flat_adds) user1).2 with
     | Ok (Some t) => newest (versions flat_adds) user1 t
     | Ok None => forall t, versions flat_adds !! (user1, t) = None
     | Err _ | Panic => False
     end.
Proof.
  split; [|split; [vm_compute; reflexivity|]].
  - apply (sstable_newest_version 4 9 demo_adds (reader_of demo_adds) user1) with (c := x30) (rest := []) (t' := 2).
    + by_decide.
    + by_decide.
    + vm_compute. reflexivity.
    + apply text_map_check. by_decide.
    + by_decide.
    + eexists. vm_compute. reflexivity.
  - apply (sstable_newest_version 4 9 flat_adds (reader_of flat_adds) user1).
    + by_decide.
    + by_decide.
    + vm_compute. reflexivity.
    + apply text_map_check. by_decide.
    + by_decide.
    + intros k' t [ov Hov].
      assert (map_Forall (fun (kt : bytes * Z) (_ : byte * bytes) =>
                user1 `prefix_of` kt.1 -> kt.1 = user1) (versions flat_adds)) as Hall by by_decide.
      exact (Hall (k', t) ov Hov).
Defined.

Lemma sstable_add_order_witness :
  exists w, AddAll (NewWriter 4 9) [MkAdd OpPut user1 [x63] 4] = Ok w
    /\ Add w OpPut user1 [] 4 = Err ErrDuplicate /\ Add w OpPut user1 [] 5 = Err ErrOutOfOrder
    /\ Finish (Abort_ w) = Err ErrClosed.
Proof.
  destruct (AddAll (NewWriter 4 9) [MkAdd OpPut user1 [x63] 4]) as [w| |] eqn:E; [|by vm_compute in E..].
  exists w. split; [reflexivity|].
  pose proof (sstable_add_order 4 9 [] (MkAdd OpPut user1 [x63] 4) (MkAdd OpPut user1 [] 4) w
                ltac:(by_decide) E ltac:(by_decide)) as (H1 & _ & H3).
  pose proof (sstable_add_order 4 9 [] (MkAdd OpPut user1 [x63] 4) (MkAdd OpPut user1 [] 5) w
                ltac:(by_decide) E ltac:(by_decide)) as (H2 & _).
  split; [exact H1|]. split; [exact H2|exact H3].
Defined.

End sstable.
