(* ===== verification/SSTIter.v ===== *)
(** * Table iterators (internal/sstable/iterator.go)

    A forward cursor over the records of a table whose user key is in
    [start, end).  The reader is shared with the rest of the store, so it is
    passed to and returned from every operation; the iterator only keeps its
    position and block buffer. *)

From Stdlib Require Import ZArith Lia.
From Stdlib Require Import Strings.Byte.
From stdpp Require Import base list gmap sorting.
From S2P Require Import Prelude.
From S2P Require Import MvccKey.
From S2P Require Import Versions.
From S2P Require Import RecordFmt.
From S2P Require Import Bloom.
From S2P Require Import SSTable.

#[local] Open Scope Z_scope.
#[local] Open Scope bytes_scope.

Module iterator.
Import sstable.

Record Iterator := MkIterator {
  endUser : option bytes;
  blockIdx : nat;
  buf : bytes;
  offset : Z;
  encKey : bytes;
  value : bytes;
  op : byte;
  valid : bool;
  err : option error
}.

Definition set_valid (it : Iterator) (b : bool) : Iterator :=
  MkIterator (endUser it) (blockIdx it) (buf it) (offset it) (encKey it) (value it) (op it) b (err it).

Definition set_err (it : Iterator) (e : error) : Iterator :=
  MkIterator (endUser it) (blockIdx it) (buf it) (offset it) (encKey it) (value it) (op it)
    (valid it) (Some e).

Definition set_blockIdx (it : Iterator) (i : nat) : Iterator :=
  MkIterator (endUser it) i (buf it) (offset it) (encKey it) (value it) (op it) (valid it) (err it).

Definition set_offset (it : Iterator) (o : Z) : Iterator :=
  MkIterator (endUser it) (blockIdx it) (buf it) o (encKey it) (value it) (op it) (valid it) (err it).

Definition set (it : Iterator) (enc val : bytes) (o : byte) : Iterator :=
  MkIterator (endUser it) (blockIdx it) (buf it) (offset it) enc val o true (err it).

(** An index out of range panics; reading from a closed file is an error. *)
Definition loadBlock (r : Reader) (it : Iterator) (i : nat) : outcome error (Reader * Iterator) :=
  match r_index r !! i with
  | None => Panic
  | Some blk =>
      if r_closed r then Err ErrRead
      else
        match pread (r_file r) (ie_blockOffset blk) (ie_blockSize blk) with
        | None => Err ErrRead
        | Some b =>
            Ok (addBlockRead r,
                MkIterator (endUser it) (blockIdx it) b 0 (encKey it) (value it) (op it) (valid it)
                  (err it))
        end
  end.

(** [None] is a panic; the last component [None] is [ok = false]. *)
Definition nextRaw (r : Reader) (it : Iterator)
  : option (Reader * Iterator * option (bytes * bytes * byte)) :=
  let decode (r : Reader) (it : Iterator) :=
    match record.Decode (drop (Z.to_nat (offset it)) (buf it)) with
    | Panic => None
    | Err e => Some (r, set_err it (ErrDecode (offset it) e), None)
    | Ok (rec, n) =>
        Some (r, set_offset it (offset it + n),
              Some (record.Key rec, record.Value rec, record.Op rec))
    end in
  if decide (offset it >= len (buf it)) then
    if decide (length (r_index r) <= blockIdx it + 1)%nat then Some (r, it, None)
    else
      let it1 := set_blockIdx it (blockIdx it + 1)%nat in
      match loadBlock r it1 (blockIdx it1) with
      | Panic => None
      | Err e => Some (r, set_err it1 e, None)
      | Ok (r2, it2) => decode r2 it2
      end
  else decode r it.

Definition inRange (it : Iterator) (enc : bytes) : bool :=
  match endUser it with
  | None => true
  | Some e =>
      match Decode enc with
      | None => false
      | Some (uk, _) => bool_decide (uk <b e)
      end
  end.

(** The positioning loop of [NewIterator]; the fuel counts records. *)
Fixpoint position (fuel : nat) (r : Reader) (it : Iterator) (startTarget : option bytes)
  : Reader * outcome error Iterator :=
  match fuel with
  | O => (r, Panic)
  | S fuel' =>
      match nextRaw r it with
      | None => (r, Panic)
      | Some (r1, it1, None) =>
          (r1, match err it1 with Some e => Err e | None => Ok (set_valid it1 false) end)
      | Some (r1, it1, Some (enc, val, o)) =>
          if (match startTarget with Some t => bool_decide (enc <b t) | None => false end)
          then position fuel' r1 it1 startTarget
          else if negb (inRange it1 enc) then (r1, Ok (set_valid it1 false))
          else (r1, Ok (set it1 enc val o))
      end
  end.

Definition positionFuel (r : Reader) : nat := S (length (r_index r) * S (length (r_file r))).

Definition NewIterator (r : Reader) (start end_ : option bytes) : Reader * outcome error Iterator :=
  if r_closed r then (r, Err ErrClosed)
  else
    let it := MkIterator end_ 0 [] 0 [] [] x00 false None in
    if decide (len (r_index r) = 0) then (r, Ok it)
    else
      let startTarget := (fun s => Encode s max_u64) <$> start in
      let sb := match startTarget with Some t => startBlock r t | None => 0%nat end in
      match loadBlock r (set_blockIdx it sb) sb with
      | Panic => (r, Panic)
      | Err e => (r, Err e)
      | Ok (r1, it1) => position (positionFuel r) r1 it1 startTarget
      end.

Definition Valid (it : Iterator) : bool := valid it.
Definition EncKey (it : Iterator) : bytes := encKey it.
Definition Value (it : Iterator) : bytes := value it.
Definition Op (it : Iterator) : byte := op it.
Definition Err_ (it : Iterator) : option error := err it.

Definition Advance (r : Reader) (it : Iterator) : option (Reader * Iterator) :=
  if negb (valid it) then Some (r, it)
  else
    match nextRaw r it with
    | None => None
    | Some (r1, it1, None) => Some (r1, set_valid it1 false)
    | Some (r1, it1, Some (enc, val, o)) =>
        if negb (inRange it1 enc) then Some (r1, set_valid it1 false)
        else Some (r1, set it1 enc val o)
    end.

Definition Close (it : Iterator) : Iterator :=
  MkIterator (endUser it) (blockIdx it) [] (offset it) [] [] (op it) false (err it).

(** ** Specification *)

(** The cursor of [it] stands before the records [rest]. *)
Definition before (r : Reader) (rs : list record.Rec) (it : Iterator) (rest : list record.Rec) : Prop :=
  rmodels r rs /\ err it = None
  /\ exists blocks tail pre post,
       r_file r = record.encs (concat blocks) ++ tail /\ r_index r = index_of 0 blocks
       /\ rs = concat blocks /\ Forall (fun b => b <> []) blocks
       /\ blocks !! blockIdx it = Some (pre ++ post) /\ buf it = record.encs (pre ++ post)
       /\ offset it = len (record.encs pre)
       /\ rest = post ++ concat (drop (S (blockIdx it)) blocks).

Lemma loadBlock_before r rs it i blocks tail b :
  rmodels r rs -> err it = None ->
  r_file r = record.encs (concat blocks) ++ tail -> r_index r = index_of 0 blocks ->
  rs = concat blocks -> Forall (fun b => b <> []) blocks ->
  blocks !! i = Some b -> blockIdx it = i ->
  exists r' it', loadBlock r it i = Ok (r', it') /\ endUser it' = endUser it
    /\ valid it' = valid it /\ blockIdx it' = i /\ buf it' = record.encs b /\ offset it' = 0
    /\ err it' = None /\ rmodels r' rs
    /\ r_file r' = r_file r /\ r_index r' = r_index r.
Proof.
  intros Hr He Hf Hi Hrs Hne Hb Hidx. unfold loadBlock.
  rewrite Hi, index_of_lookup, Hb. cbn [fmap option_fmap option_map ie_blockOffset ie_blockSize].
  rewrite (rm_open _ _ Hr), Hf, (pread_block blocks tail i b Hb).
  eexists _, _. split; [done|]. cbn. split_and!; try done. by apply rmodels_addBlockRead.
Qed.

Lemma decode_step pre x post :
  Forall record.wf (x :: post) ->
  record.Decode (drop (Z.to_nat (len (record.encs pre))) (record.encs (pre ++ x :: post)))
  = Ok (x, record.size x).
Proof.
  intros [Hx _]%Forall_cons. rewrite record.encs_app, record.drop_encs, record.encs_cons.
  by apply record.Decode_record.
Qed.

(** One raw step consumes one record, or finds the end of the table. *)
Lemma nextRaw_before r rs it rest :
  before r rs it rest ->
  exists r' it', endUser it' = endUser it /\ r_file r' = r_file r /\ r_index r' = r_index r
    /\ match rest with
       | [] => nextRaw r it = Some (r', it', None) /\ err it' = None /\ rmodels r' rs
       | x :: rest' =>
           nextRaw r it = Some (r', it', Some (record.Key x, record.Value x, record.Op x))
           /\ before r' rs it' rest'
       end.
Proof.
  intros (Hr & He & blocks & tail & pre & post & Hf & Hi & Hrs & Hne & Hb & Hbuf & Hoff & ->).
  assert (Forall record.wf (concat blocks)) as Hwf by (rewrite <- Hrs; apply Hr).
  pose proof (wf_concat _ _ _ _ Hwf Hb) as Hwfb. unfold nextRaw. rewrite Hoff, Hbuf.
  destruct post as [|x post].
  - rewrite app_nil_r in *. rewrite decide_True by lia. cbn [app].
    rewrite Hi, length_index_of. case_decide as Hlast.
    + rewrite drop_ge by lia. cbn [concat]. exists r, it. done.
    + destruct (lookup_lt_is_Some_2 blocks (blockIdx it + 1)) as [b' Hb']; [lia|].
      destruct (loadBlock_before r rs (set_blockIdx it (blockIdx it + 1)) (blockIdx it + 1) blocks tail b')
        as (r2 & it2 & El & H1 & H2 & H3 & H4 & H5 & H6 & H7 & H8 & H9); try done.
      cbn [set_blockIdx blockIdx] in *. rewrite El, H4, H5.
      replace (S (blockIdx it)) with (blockIdx it + 1)%nat by lia.
      rewrite (drop_S blocks b') by exact Hb'. cbn [concat].
      rewrite Forall_lookup in Hne. pose proof (Hne _ _ Hb') as Hbn.
      destruct b' as [|y b']; [done|]. pose proof (wf_concat _ _ _ _ Hwf Hb') as Hwfy.
      pose proof (decode_step [] y b' Hwfy) as Hd. cbn [app] in Hd.
      change (len (record.encs [])) with 0 in Hd. rewrite Hd.
      exists r2, (set_offset it2 (0 + record.size y)).
      split; [done|]. split; [done|]. split; [congruence|]. split; [done|].
      split; [done|]. split; [done|]. exists blocks, tail, [y], b'.
      cbn [set_offset blockIdx buf offset app]. rewrite H8, H9, H3, H4. split_and!; try done.
      * by rewrite Forall_lookup.
      * rewrite record.encs_cons, app_nil_r, record.len_record_Encode. done.
  - rewrite decide_False.
    2: { rewrite record.encs_app, len_app, record.encs_cons, len_app, record.len_record_Encode.
         pose proof (record.size_pos x). pose proof (len_nonneg (record.encs post)). lia. }
    apply Forall_app in Hwfb as [_ Hwfx]. rewrite decode_step by done. cbn [app].
    exists r, (set_offset it (len (record.encs pre) + record.size x)).
    split; [done|]. split; [done|]. split; [done|]. split; [done|].
    split; [done|]. split; [done|]. exists blocks, tail, (pre ++ [x]), post.
    cbn [set_offset blockIdx buf offset]. rewrite <- app_assoc, record.len_encs_snoc.
    split_and!; try done.
Qed.

Definition keys_ok (rs : list record.Rec) : Prop :=
  Forall (fun x => exists k t, is_u64 t /\ record.Key x = Encode k t) rs.

Lemma inRange_past_end it x :
  (exists k t, is_u64 t /\ record.Key x = Encode k t) ->
  inRange it (record.Key x) = negb (past_end (endUser it) (UserKey (record.Key x))).
Proof.
  intros (k & t & Ht & ->). unfold inRange, past_end. destruct (endUser it) as [e|]; [|done].
  rewrite Decode_Encode, UserKey_Encode by done. rewrite <- bool_decide_not.
  apply bool_decide_ext. symmetry. apply not_ble.
Qed.

(** The iterator still has to produce the in-range head of [rest]. *)
Definition shows (r : Reader) (rs : list record.Rec) (it : Iterator) (rest : list record.Rec) : Prop :=
  rmodels r rs /\ err it = None
  /\ if valid it then
       exists x rest', rest = x :: rest' /\ past_end (endUser it) (UserKey (record.Key x)) = false
         /\ encKey it = record.Key x /\ value it = record.Value x /\ op it = record.Op x
         /\ before r rs it rest'
     else range_list (endUser it) (table_of rest) = [].

Lemma before_keys r rs it rest : before r rs it rest -> keys_ok rest.
Proof.
  intros (Hr & _ & blocks & tail & pre & post & _ & _ & Hrs & _ & Hb & _ & _ & ->).
  pose proof (rm_keys _ _ Hr) as Hk. rewrite Hrs in Hk. unfold keys_ok.
  rewrite <- (take_drop_middle _ _ _ Hb), concat_app in Hk.
  apply Forall_app in Hk as [_ Hk]. cbn [concat] in Hk. rewrite <- app_assoc in Hk.
  by apply Forall_app in Hk as [_ Hk].
Qed.

(** Taking the next record as the current one. *)
Lemma settle_shows r rs it x rest :
  before r rs it rest -> (exists k t, is_u64 t /\ record.Key x = Encode k t) ->
  shows r rs (if negb (inRange it (record.Key x)) then set_valid it false
              else set it (record.Key x) (record.Value x) (record.Op x)) (x :: rest).
Proof.
  intros Hb Hk. pose proof Hb as (Hr & He & Hrest). rewrite inRange_past_end, negb_involutive by done.
  destruct (past_end (endUser it) (UserKey (record.Key x))) eqn:Hp.
  - split; [done|]. split; [done|]. cbn. by rewrite Hp.
  - split; [done|]. split; [done|]. cbn [set valid]. exists x, rest. cbn. split_and!; done.
Qed.

Lemma Advance_shows r rs it x rest :
  valid it = true -> shows r rs it (x :: rest) ->
  exists r' it', Advance r it = Some (r', it') /\ shows r' rs it' rest /\ endUser it' = endUser it.
Proof.
  intros Hv (_ & _ & H). rewrite Hv in H. destruct H as (y & rest' & [= <- <-] & _ & _ & _ & _ & Hb).
  unfold Advance. rewrite Hv. cbn [negb].
  destruct (nextRaw_before r rs it rest Hb) as (r1 & it1 & He & _ & _ & H1).
  destruct rest as [|z rest].
  - destruct H1 as (-> & Herr & Hr1). eexists r1, _. split; [done|].
    split; [|done]. split; [done|]. split; [done|]. done.
  - destruct H1 as (-> & Hb1). eexists r1, _.
    split; [|split; [apply (settle_shows r1 rs it1 z rest Hb1)|]].
    + by destruct (negb (inRange it1 (record.Key z))).
    + pose proof (before_keys _ _ _ _ Hb) as Hk. by apply Forall_cons in Hk as [Hk _].
    + destruct (negb _); done.
Qed.

Fixpoint skip (st : option bytes) (rs : list record.Rec) : list record.Rec :=
  match rs with
  | [] => []
  | x :: rs' =>
      if (match st with Some t => bool_decide (record.Key x <b t) | None => false end)
      then skip st rs' else rs
  end.

Lemma position_shows st fuel : forall r rs it rest,
  before r rs it rest -> (length rest < fuel)%nat ->
  exists r' it', position fuel r it st = (r', Ok it') /\ shows r' rs it' (skip st rest)
    /\ endUser it' = endUser it.
Proof.
  induction fuel as [|fuel IH]; intros r rs it rest Hb Hf; [lia|]. cbn [position].
  destruct (nextRaw_before r rs it rest Hb) as (r1 & it1 & He & _ & _ & H1).
  destruct rest as [|x rest]; cbn [skip].
  - destruct H1 as (-> & Herr & Hr1). rewrite Herr. eexists r1, _. split; [done|].
    split; [|done]. split; [done|]. split; [done|]. done.
  - pose proof (before_keys _ _ _ _ Hb) as Hk. apply Forall_cons in Hk as [Hk _].
    destruct H1 as (-> & Hb1).
    destruct (match st with Some t => bool_decide (record.Key x <b t) | None => false end).
    + destruct (IH r1 rs it1 rest Hb1) as (r' & it' & E & Hs & He'); [cbn in Hf; lia|].
      exists r', it'. split_and!; [done..|congruence].
    + eexists r1, _. split; [|split; [apply (settle_shows r1 rs it1 x rest Hb1 Hk)|]].
      * by destruct (negb (inRange it1 (record.Key x))).
      * by destruct (negb _).
Qed.

(** Read the iterator to its end, the way a scan does. *)
Fixpoint drain (fuel : nat) (r : Reader) (it : Iterator) (acc : list (bytes * bytes))
  : option (Reader * Iterator * list (bytes * bytes)) :=
  match fuel with
  | O => None
  | S fuel' =>
      if Valid it then
        '(r1, it1) ← Advance r it;
        drain fuel' r1 it1 (acc ++ [(EncKey it, Op it :: Value it)])
      else Some (r, it, acc)
  end.

Lemma drain_shows fuel : forall r rs it rest acc,
  shows r rs it rest -> (length rest < fuel)%nat ->
  exists r' it', drain fuel r it acc
                 = Some (r', it', acc ++ range_list (endUser it) (table_of rest))
    /\ Err_ it' = None /\ rmodels r' rs.
Proof.
  induction fuel as [|fuel IH]; intros r rs it rest acc Hs Hf; [lia|]. cbn [drain].
  unfold Valid. pose proof Hs as (Hr & He & H). destruct (valid it) eqn:Hv.
  - destruct H as (x & rest' & -> & Hp & Hk & Hval & Hop & _).
    destruct (Advance_shows r rs it x rest' Hv Hs) as (r1 & it1 & -> & Hs1 & He1).
    cbn [mbind option_bind].
    destruct (IH r1 rs it1 rest' (acc ++ [(EncKey it, Op it :: Value it)]) Hs1) as (r' & it' & E & H');
      [cbn in Hf; lia|].
    exists r', it'. split; [|done]. rewrite E, He1, <- app_assoc. do 2 f_equal.
    change (table_of (x :: rest')) with ((record.Key x, record.Op x :: record.Value x) :: table_of rest').
    cbn [range_list fst]. rewrite Hp. unfold EncKey, Op, Value. by rewrite Hk, Hval, Hop.
  - exists r, it. rewrite H, app_nil_r. done.
Qed.

Lemma skip_drop_lt st rs : table_of (skip st rs) = drop_lt (default [] st) (table_of rs).
Proof.
  induction rs as [|x rs IH]; [done|]. cbn [skip table_of fmap list_fmap drop_lt].
  destruct st as [t|]; cbn [from_option id].
  - rewrite (decide_bool_decide (record.Key x <b t)). by destruct (bool_decide (record.Key x <b t)).
  - rewrite decide_False; [done|]. by destruct (record.Key x).
Qed.

Lemma positionFuel_enough r blocks tail :
  r_file r = record.encs (concat blocks) ++ tail -> r_index r = index_of 0 blocks -> blocks <> [] ->
  (length (concat blocks) < positionFuel r)%nat.
Proof.
  intros Hf Hi Hne. unfold positionFuel. rewrite Hf, Hi, length_index_of, length_app.
  pose proof (record.length_encs (concat blocks)). destruct blocks as [|b bs]; [done|].
  cbn [length]. lia.
Qed.

Lemma skip_app_lt t a b :
  Forall (fun x => record.Key x <b t) a -> skip (Some t) (a ++ b) = skip (Some t) b.
Proof.
  induction 1 as [|x a Hx _ IH]; cbn [skip app]; [done|]. by rewrite bool_decide_true.
Qed.

Lemma length_skip st rs : (length (skip st rs) <= length rs)%nat.
Proof. induction rs as [|x rs IH]; cbn; [done|]. case_match; cbn; lia. Qed.

Lemma NewIterator_shows r rs start end_ :
  rmodels r rs ->
  exists r' it, NewIterator r start end_ = (r', Ok it) /\ endUser it = end_
    /\ shows r' rs it (skip ((fun s => Encode s max_u64) <$> start) rs).
Proof.
  intros Hr. unfold NewIterator. rewrite (rm_open _ _ Hr). case_decide as H0.
  { apply (rmodels_index_nil r rs Hr) in H0 as ->. eexists r, _. split; [done|]. split; [done|].
    split; [done|]. split; [done|]. done. }
  rewrite (rmodels_index_nil r rs Hr) in H0.
  pose proof Hr as [(blocks & tail & Hf & Hi & Hrs & Hnb) Hwf Hs _ _ _].
  assert (blocks <> []) as Hne by (intros ->; done). subst rs.
  set (st := (fun s => Encode s max_u64) <$> start).
  set (sb := match st with Some t => startBlock r t | None => 0%nat end).
  assert (exists b, blocks !! sb = Some b
    /\ skip st (concat blocks) = skip st (b ++ concat (drop (S sb) blocks))) as (b & Hb & Hskip).
  { unfold sb. destruct st as [t|].
    - destruct (startBlock_spec r blocks t Hi Hs Hnb Hne) as (b & Hb & Hbefore & _). exists b.
      split; [done|]. rewrite <- (take_drop_middle blocks _ b Hb) at 1.
      rewrite concat_app, skip_app_lt by done. done.
    - destruct blocks as [|b bs]; [done|]. exists b. done. }
  destruct (loadBlock_before r (concat blocks)
              (set_blockIdx (MkIterator end_ 0 [] 0 [] [] x00 false None) sb) sb blocks tail b)
    as (r1 & it1 & -> & He & Hv & Hidx & Hbuf & Hoff & Herr & Hr1 & Hf1 & Hi1); try done.
  rewrite Hskip.
  destruct (position_shows st (positionFuel r) r1 (concat blocks) it1 (b ++ concat (drop (S sb) blocks)))
    as (r2 & it2 & -> & Hsh & He2).
  - split; [done|]. split; [done|]. exists blocks, tail, [], b. rewrite Hf1, Hi1, Hidx.
    split_and!; done.
  - pose proof (positionFuel_enough r blocks tail Hf Hi Hne) as Hfu.
    rewrite <- (take_drop_middle blocks sb b Hb), concat_app, length_app in Hfu. cbn [concat] in Hfu. lia.
  - exists r2, it2. split; [done|]. split; [by rewrite He2, He|done].
Qed.

(** ** Properties *)

(** Reading an iterator over [start, end) to its end yields, without error,
    the stored versions from the start bound on up to the first user key at or
    past the end bound, in table order; with prefix-free keys these are exactly
    the versions whose user key is in the range. *)
Theorem sstable_iterator_range n ai adds r start end_ :
  adds_ok adds -> is_u64 ai -> build n ai adds = Ok r ->
  exists r1 it1 r2 it2, NewIterator r start end_ = (r1, Ok it1)
    /\ drain (S (length adds)) r1 it1 [] = Some (r2, it2, range_of start end_ (table_of (recs_of adds)))
    /\ Err_ it2 = None
    /\ (prefix_free (versions adds) ->
        (forall k t, is_Some (versions adds !! (k, t)) ->
           match start with Some s => k `prefix_of` s -> k = s | None => True end) ->
        forall k t o v, is_u64 t ->
          (Encode k t, o :: v) ∈ range_of start end_ (table_of (recs_of adds))
          <-> versions adds !! (k, t) = Some (o, v) /\ in_range start end_ k).
Proof.
  intros Hok Hai E. pose proof (build_models_inv _ _ _ _ Hok Hai E) as Hr.
  destruct (NewIterator_shows r _ start end_ Hr) as (r1 & it1 & E1 & He & Hs).
  set (st := (fun s => Encode s max_u64) <$> start) in *.
  destruct (drain_shows (S (length adds)) r1 _ it1 _ [] Hs) as (r2 & it2 & E2 & Herr & _).
  { pose proof (length_skip st (recs_of adds)) as Hl. unfold recs_of in Hl at 2.
    rewrite length_fmap in Hl. lia. }
  rewrite skip_drop_lt, He in E2. cbn [app] in E2.
  assert (default [] st = start_target start) as Est by (by destruct start).
  rewrite Est in E2. exists r1, it1, r2, it2. split_and!; [done|done|done|].
  intros Hpf Hst k t o v Ht. pose proof (versions_encodes _ Hok) as Henc.
  rewrite range_of_elem; [|apply Henc|by eapply encodes_encoded_keys|by eapply encodes_prefix_free|].
  - cbn [fst]. by rewrite UserKey_Encode, (enc_elem _ _ Henc).
  - by eapply encodes_start_ok.
Qed.

Lemma sstable_iterator_range_witness :
  exists r1 it1 r2 it2, NewIterator (reader_of demo_adds) (Some user1) None = (r1, Ok it1)
    /\ drain 5 r1 it1 [] = Some (r2, it2, range_of (Some user1) None (table_of (recs_of demo_adds)))
    /\ Err_ it2 = None.
Proof.
  destruct (sstable_iterator_range 4 9 demo_adds (reader_of demo_adds) (Some user1) None)
    as (r1 & it1 & r2 & it2 & H1 & H2 & H3 & _).
  - by_decide.
  - by_decide.
  - vm_compute. reflexivity.
  - exists r1, it1, r2, it2. split; [exact H1|]. split; [exact H2|exact H3].
Defined.

End iterator.
