(* ===== verification/DbDisk.v ===== *)
(** * Durable side files of the store (internal/db/db.go)

    The applied-index base and the session table, which [flushLocked] writes by
    temp file, fsync, rename and directory fsync: each is a byte list that is
    replaced atomically.  Also the sequence numbers carried by commit markers. *)

From Stdlib Require Import ZArith Lia.
From Stdlib Require Import Strings.Byte.
From stdpp Require Import base list gmap sorting.
From S2P Require Import Prelude.
From S2P Require Import RecordFmt.

#[local] Open Scope Z_scope.

Module dbdisk.

Definition encodeSeq (seq : Z) : bytes := le_bytes 8 seq.

Definition decodeSeq (b : bytes) : Z :=
  if decide (len b < 8) then 0 else record.Uint64 b 0.

(** applied.base; [None] is a missing file. *)
Definition readAppliedBase (file : option bytes) : Z :=
  match file with
  | None => 0
  | Some buf => if decide (len buf < 8) then 0 else record.Uint64 buf 0
  end.

Definition writeAppliedBase (base : Z) : option bytes := Some (le_bytes 8 base).

(** One entry of the sessions file: keyLen(4) | key | seq(8). *)
Definition sessionEntry (e : bytes * Z) : bytes :=
  le_bytes 4 (u32 (len e.1)) ++ e.1 ++ le_bytes 8 e.2.

(** The entries in the order the map iteration yields them. *)
Definition encodeSessions (entries : list (bytes * Z)) : bytes :=
  le_bytes 8 (u64 (len entries)) ++ concat (sessionEntry <$> entries).

Definition writeSessionsFile (sessions : gmap bytes Z) : option bytes :=
  Some (encodeSessions (map_to_list sessions)).

(** The read loop; every entry takes at least 12 bytes, so the file length is
    enough fuel. *)
Fixpoint readSessions_loop (fuel : nat) (buf : bytes) (off i n : Z) (out : gmap bytes Z)
  : gmap bytes Z :=
  match fuel with
  | O => ∅
  | S fuel' =>
      if decide (i < n) then
        if decide (off + 4 > len buf) then ∅
        else
          let klen := record.Uint32 buf off in
          let off1 := off + 4 in
          if decide (off1 + klen + 8 > len buf) then ∅
          else
            let key := slice off1 (off1 + klen) buf in
            let off2 := off1 + klen in
            readSessions_loop fuel' buf (off2 + 8) (i + 1) n
              (<[key := record.Uint64 buf off2]> out)
      else out
  end.

Definition readSessionsFile (file : option bytes) : gmap bytes Z :=
  match file with
  | None => ∅
  | Some buf =>
      if decide (len buf < 8) then ∅
      else readSessions_loop (S (length buf)) buf 8 0 (record.Uint64 buf 0) ∅
  end.

(** ** Lemmas *)

Lemma decodeSeq_encodeSeq seq : is_u64 seq -> decodeSeq (encodeSeq seq) = seq.
Proof.
  intros H. unfold decodeSeq, encodeSeq. rewrite len_le_bytes, decide_False by lia.
  rewrite record.Uint64_le. by apply u64_small.
Qed.

Lemma readAppliedBase_write base : is_u64 base -> readAppliedBase (writeAppliedBase base) = base.
Proof.
  intros H. unfold readAppliedBase, writeAppliedBase. rewrite len_le_bytes, decide_False by lia.
  rewrite record.Uint64_le. by apply u64_small.
Qed.

(** Tables whose entries fit the format. *)
Definition entry_ok (e : bytes * Z) : Prop := len e.1 < 2 ^ 32 /\ is_u64 e.2.

Lemma len_sessionEntry e : len (sessionEntry e) = 12 + len e.1.
Proof. unfold sessionEntry. rewrite !len_app, !len_le_bytes. lia. Qed.

Lemma readSessions_loop_spec entries : forall pre i n out fuel,
  Forall entry_ok entries -> n = i + len entries -> (length entries < fuel)%nat ->
  readSessions_loop fuel (pre ++ concat (sessionEntry <$> entries)) (len pre) i n out
  = foldl (fun m e => <[e.1 := e.2]> m) out entries.
Proof.
  induction entries as [|e entries IH]; intros pre i n out fuel Hok Hn Hf;
    (destruct fuel as [|fuel]; [cbn in Hf; lia|]); cbn [readSessions_loop foldl].
  - rewrite decide_False; [done|]. rewrite len_nil in Hn. lia.
  - apply Forall_cons in Hok as [[Hk Hs] Hok]. rewrite len_cons in Hn.
    pose proof (len_nonneg entries). pose proof (len_nonneg e.1) as Hk0.
    rewrite decide_True by lia. rewrite fmap_cons. cbn [concat].
    assert (u32 (len e.1) = len e.1) as Hu by (apply Z.mod_small; lia).
    set (rest := concat (sessionEntry <$> entries)).
    assert (pre ++ sessionEntry e ++ rest
      = pre ++ le_bytes 4 (len e.1) ++ e.1 ++ le_bytes 8 e.2 ++ rest) as Eb
      by (unfold sessionEntry; rewrite Hu, <- !app_assoc; done).
    pose proof (len_nonneg rest).
    assert (len (pre ++ sessionEntry e ++ rest) = len pre + 12 + len e.1 + len rest) as Hlen
      by (rewrite !len_app, len_sessionEntry; lia).
    rewrite decide_False by lia.
    assert (record.Uint32 (pre ++ sessionEntry e ++ rest) (len pre) = len e.1) as ->
      by (rewrite Eb, record.Uint32_mid by done; exact Hu).
    rewrite decide_False by lia.
    assert (slice (len pre + 4) (len pre + 4 + len e.1) (pre ++ sessionEntry e ++ rest) = e.1) as ->.
    { rewrite Eb, (app_assoc pre). apply slice_mid; rewrite len_app, len_le_bytes; lia. }
    assert (record.Uint64 (pre ++ sessionEntry e ++ rest) (len pre + 4 + len e.1) = e.2) as ->.
    { rewrite Eb, (app_assoc pre), (app_assoc _ e.1), record.Uint64_mid;
        [by apply u64_small|]. rewrite !len_app, len_le_bytes. lia. }
    rewrite app_assoc.
    replace (len pre + 4 + len e.1 + 8) with (len (pre ++ sessionEntry e))
      by (rewrite len_app, len_sessionEntry; lia).
    apply IH; [done|lia|cbn in Hf; lia].
Qed.

Lemma foldl_insert_map_to_list (entries : list (bytes * Z)) (m0 : gmap bytes Z) :
  NoDup entries.*1 -> foldl (fun m e => <[e.1 := e.2]> m) m0 entries = list_to_map entries ∪ m0.
Proof.
  revert m0. induction entries as [|[k v] entries IH]; intros m0 Hnd; cbn.
  - by rewrite map_empty_union.
  - apply NoDup_cons in Hnd as [Hk Hnd]. rewrite IH by done. apply map_eq. intros k'.
    rewrite !lookup_union. destruct (decide (k = k')) as [<-|Hne].
    + rewrite !lookup_insert_eq. rewrite (not_elem_of_list_to_map_1 _ k) by done.
      by destruct (m0 !! k).
    + rewrite !lookup_insert_ne by done. done.
Qed.

(** ** Properties *)

(** The side files round trip: whatever order the session map was iterated
    in, reading the sessions file gives the table back, and the applied base and
    the marker's sequence number come back as written; missing or short files
    read as empty. *)
Theorem sidefiles_roundtrip (sessions : gmap bytes Z) (entries : list (bytes * Z)) (base seq : Z) :
  entries ≡ₚ map_to_list sessions -> Forall entry_ok entries -> len entries < 2 ^ 64 ->
  is_u64 base -> is_u64 seq ->
  readSessionsFile (Some (encodeSessions entries)) = sessions
  /\ readSessionsFile (writeSessionsFile sessions) = sessions
  /\ readSessionsFile None = ∅
  /\ readAppliedBase (writeAppliedBase base) = base
  /\ decodeSeq (encodeSeq seq) = seq.
Proof.
  intros Hp Hok Hlt Hb Hs.
  assert (forall es : list (bytes * Z), es ≡ₚ map_to_list sessions ->
            readSessionsFile (Some (encodeSessions es)) = sessions) as Hall.
  { intros es Hes. assert (Forall entry_ok es) as Hok' by (by rewrite Hes, <- Hp).
    assert (len es = len entries) as Hl by (unfold len; by rewrite Hes, Hp).
    unfold readSessionsFile, encodeSessions. pose proof (len_nonneg es).
    rewrite len_app, len_le_bytes, decide_False
      by (pose proof (len_nonneg (concat (sessionEntry <$> es))); lia).
    rewrite record.Uint64_head. rewrite !(u64_small (len es)) by (unfold is_u64; lia).
    pose proof (fun fuel => readSessions_loop_spec es (le_bytes 8 (len es)) 0 (len es) ∅ fuel Hok'
                  ltac:(lia)) as Hloop.
    rewrite len_le_bytes in Hloop. change (Z.of_nat 8) with 8 in Hloop. rewrite Hloop.
    - rewrite foldl_insert_map_to_list.
      + rewrite map_union_empty. rewrite <- (list_to_map_to_list sessions).
        apply list_to_map_proper; [|by rewrite Hes].
        rewrite Hes. apply NoDup_fst_map_to_list.
      + rewrite Hes. apply NoDup_fst_map_to_list.
    - rewrite length_app, length_le_bytes.
      assert (length es <= length (concat (sessionEntry <$> es)))%nat; [|lia].
      clear. induction es as [|e es IH]; cbn; [lia|]. rewrite length_app.
      pose proof (len_sessionEntry e) as H. pose proof (len_nonneg e.1). unfold len in H at 1. lia. }
  split_and!; [by apply Hall|by apply Hall|done|by apply readAppliedBase_write|by apply decodeSeq_encodeSeq].
Qed.

Lemma sidefiles_roundtrip_witness :
  readSessionsFile (Some (encodeSessions [([x61], 3); ([x62; x63], 7)]))
  = <[[x62; x63] := 7]> (<[[x61] := 3]> ∅).
Proof.
  pose proof (sidefiles_roundtrip (<[[x62; x63] := 7]> (<[[x61] := 3]> ∅))
                [([x61], 3); ([x62; x63], 7)] 5 9) as H.
  destruct H as (H & _).
  - by_decide.
  - repeat constructor; cbn; unfold is_u64; lia.
  - reflexivity.
  - unfold is_u64. lia.
  - unfold is_u64. lia.
  - exact H.
Defined.

End dbdisk.
