(* ===== verification/Merge.v ===== *)
(** * Merging sorted streams

    Compaction (internal/db/compaction.go) and range scans (internal/db/scan.go)
    both merge several sorted tables with container/heap: the least head is
    taken, ties going to the newer table, and a key equal to the one just taken
    is dropped.  This file has the heap as the code relies on it, the merged
    table as a reference definition, and the step lemma that both loops are
    proved against. *)

From Stdlib Require Import ZArith Lia.
From Stdlib Require Import Strings.Byte.
From stdpp Require Import base list gmap sorting.
From S2P Require Import Prelude.

#[local] Open Scope Z_scope.
#[local] Open Scope bytes_scope.

(** ** container/heap

    [heap.Push], [heap.Pop] and [heap.Fix] keep the least element by [Less] in
    front; the orders used here are total (ties broken by table), so the element
    [Pop] returns does not depend on the layout of the others. *)

Section heap.
Context {A : Type} (less : A -> A -> bool).

Fixpoint pop_min (x : A) (h : list A) : A * list A :=
  match h with
  | [] => (x, [])
  | y :: h' =>
      if less y x then let '(m, r) := pop_min y h' in (m, x :: r)
      else let '(m, r) := pop_min x h' in (m, y :: r)
  end.

Definition heap_push (h : list A) (x : A) : list A := h ++ [x].

Definition heap_pop (h : list A) : option (A * list A) :=
  match h with
  | [] => None
  | x :: h' => Some (pop_min x h')
  end.

Hypothesis less_asym : forall a b, less a b = true -> less b a = false.
Hypothesis less_negtrans : forall a b c, less b a = false -> less c b = false -> less c a = false.

Lemma less_irrefl a : less a a = false.
Proof. destruct (less a a) eqn:E; [|done]. by rewrite (less_asym _ _ E) in E. Qed.

Lemma pop_min_spec h : forall x m r, pop_min x h = (m, r) ->
  m :: r ≡ₚ x :: h /\ forall y, y ∈ x :: h -> less y m = false.
Proof.
  induction h as [|y h IH]; intros x m r; cbn [pop_min].
  - intros [= <- <-]. split; [done|]. intros y Hy. apply list_elem_of_singleton in Hy as ->.
    apply less_irrefl.
  - destruct (less y x) eqn:E.
    + destruct (pop_min y h) as [m' r'] eqn:Ep. intros [= <- <-].
      destruct (IH _ _ _ Ep) as [Hp Hm]. split.
      * rewrite <- Hp. apply Permutation_swap.
      * intros z Hz. apply elem_of_cons in Hz as [->|Hz]; [|by apply Hm].
        apply (less_negtrans _ y); [apply Hm, elem_of_cons; auto|by apply less_asym].
    + destruct (pop_min x h) as [m' r'] eqn:Ep. intros [= <- <-].
      destruct (IH _ _ _ Ep) as [Hp Hm]. split.
      * rewrite (Permutation_swap y x h), <- Hp. apply Permutation_swap.
      * intros z Hz. rewrite !elem_of_cons in Hz. destruct Hz as [->|[->|Hz]].
        -- apply Hm, elem_of_cons. auto.
        -- apply (less_negtrans _ x); [apply Hm, elem_of_cons; auto|done].
        -- apply Hm, elem_of_cons. auto.
Qed.

Lemma heap_pop_spec h m r :
  heap_pop h = Some (m, r) -> m :: r ≡ₚ h /\ forall y, y ∈ h -> less y m = false.
Proof. destruct h as [|x h]; [done|]. cbn. intros [= E]. by apply pop_min_spec. Qed.

Lemma heap_pop_None h : heap_pop h = None <-> h = [].
Proof. by destruct h. Qed.

End heap.

(** ** The merged table *)

Section merge.
Context {V : Type}.
Implicit Types (m R : list (bytes * V)) (Rs : list (list (bytes * V))).

Definition overlay R m : list (bytes * V) := foldr (fun e m => ins e.1 e.2 m) m R.

(** Earlier streams win. *)
Definition merged Rs : list (bytes * V) := foldr overlay [] Rs.

Definition first_of Rs (k : bytes) : option V :=
  foldr (fun R o => match assoc k R with Some v => Some v | None => o end) None Rs.

(** [e] is the least head, of stream [i]. *)
Definition pick Rs (i : nat) (e : bytes * V) R : Prop :=
  Rs !! i = Some (e :: R)
  /\ forall j e' R', Rs !! j = Some (e' :: R') -> e.1 <b e'.1 \/ (e.1 = e'.1 /\ (i <= j)%nat).

(** What is still to come once [last] has been taken. *)
Definition emit (last : option bytes) m : list (bytes * V) :=
  filter (fun e => last <> Some e.1) m.

Lemma first_of_cons R Rs k :
  first_of (R :: Rs) k = match assoc k R with Some v => Some v | None => first_of Rs k end.
Proof. done. Qed.

Lemma overlay_sorted R m : sorted_keys m -> sorted_keys (overlay R m).
Proof. intros Hm. induction R as [|e R IH]; [done|]. cbn. by apply sorted_keys_ins. Qed.

Lemma merged_sorted Rs : sorted_keys (merged Rs).
Proof. induction Rs as [|R Rs IH]; [constructor|]. cbn. by apply overlay_sorted. Qed.

Lemma assoc_overlay R m k :
  sorted_keys m ->
  assoc k (overlay R m) = match assoc k R with Some v => Some v | None => assoc k m end.
Proof.
  intros Hm. induction R as [|[k' v] R IH]; [done|]. cbn [overlay foldr assoc fst snd].
  rewrite assoc_ins by (by apply (overlay_sorted R m)). case_decide; [done|]. apply IH.
Qed.

Lemma assoc_merged Rs k : assoc k (merged Rs) = first_of Rs k.
Proof.
  induction Rs as [|R Rs IH]; [done|]. rewrite first_of_cons, <- IH.
  change (merged (R :: Rs)) with (overlay R (merged Rs)). apply assoc_overlay, merged_sorted.
Qed.

Lemma elem_of_merged Rs e : e ∈ merged Rs <-> first_of Rs e.1 = Some e.2.
Proof. destruct e as [k v]. cbn. by rewrite <- assoc_merged, assoc_elem_of by apply merged_sorted. Qed.

Lemma first_of_Some Rs k v :
  first_of Rs k = Some v <->
  exists i R, Rs !! i = Some R /\ assoc k R = Some v
    /\ forall j R', (j < i)%nat -> Rs !! j = Some R' -> assoc k R' = None.
Proof.
  induction Rs as [|R Rs IH]; [|rewrite first_of_cons].
  - split; [done|]. by intros (i & R & H & _).
  - destruct (assoc k R) as [w|] eqn:E.
    + split.
      * intros [= ->]. exists 0%nat, R. split_and!; [done..|]. intros j R' Hj. lia.
      * intros ([|i] & R' & Hi & Hv & Hj); [cbn in Hi; congruence|].
        specialize (Hj 0%nat R ltac:(lia) eq_refl). congruence.
    + rewrite IH. split.
      * intros (i & R' & Hi & Hv & Hj). exists (S i), R'. split_and!; [done..|].
        intros [|j] R'' Hlt Hl; [cbn in Hl; congruence|]. apply (Hj j); [lia|done].
      * intros ([|i] & R' & Hi & Hv & Hj); [cbn in Hi; congruence|].
        exists i, R'. split_and!; [done..|]. intros j R'' Hlt Hl. apply (Hj (S j)); [lia|done].
Qed.

Lemma merged_nil Rs : Forall (fun R => R = []) Rs -> merged Rs = [].
Proof. induction 1 as [|R Rs -> _ IH]; [done|]. cbn. exact IH. Qed.

Lemma emit_nil last : emit last [] = [].
Proof. unfold emit. by rewrite filter_nil. Qed.

Lemma emit_None m : emit None m = m.
Proof. unfold emit. induction m as [|e m IH]; [done|]. rewrite filter_cons_True by done. by rewrite IH. Qed.

Lemma pick_first Rs i e R :
  Forall sorted_keys Rs -> pick Rs i e R -> first_of Rs e.1 = Some e.2.
Proof.
  intros Hs [Hi Hmin]. apply first_of_Some. exists i, (e :: R). split_and!; [done| |].
  - destruct e. cbn. by rewrite decide_True.
  - intros j R' Hj HR'. destruct R' as [|[k' v'] R']; [done|].
    destruct (Hmin _ _ _ HR') as [Hlt|[_ ?]]; [|lia]. apply assoc_gt.
    rewrite Forall_lookup in Hs. specialize (Hs _ _ HR'). apply sorted_keys_cons in Hs as [Hf _].
    constructor; [done|]. eapply Forall_impl; [exact Hf|]. cbn in *. intros x Hx. by etrans.
Qed.

Lemma pick_least Rs i e R k v :
  Forall sorted_keys Rs -> pick Rs i e R -> first_of Rs k = Some v -> e.1 <=b k.
Proof.
  intros Hs [Hi Hmin] (j & R' & Hj & Hv & _)%first_of_Some.
  rewrite Forall_lookup in Hs. specialize (Hs _ _ Hj).
  destruct R' as [|[k' v'] R']; [done|]. apply ble_trans with k'.
  - destruct (Hmin _ _ _ Hj) as [H|[H _]]; cbn in H; [by apply blt_ble|]. rewrite H. apply ble_refl.
  - apply assoc_elem_of in Hv; [|done]. apply sorted_keys_cons in Hs as [Hf _].
    apply elem_of_cons in Hv as [[= -> ->]|Hv]; [apply ble_refl|].
    rewrite Forall_forall in Hf. apply blt_ble, (Hf _ Hv).
Qed.

Lemma pick_rest_sorted Rs i e R :
  Forall sorted_keys Rs -> pick Rs i e R -> Forall sorted_keys (<[i := R]> Rs).
Proof.
  intros Hs [Hi _]. apply Forall_insert; [done|]. rewrite Forall_lookup in Hs.
  specialize (Hs _ _ Hi). destruct e. by apply sorted_keys_cons in Hs as [_ ?].
Qed.

Lemma pick_rest_first Rs i e R k :
  pick Rs i e R -> k <> e.1 -> first_of (<[i := R]> Rs) k = first_of Rs k.
Proof.
  intros [Hi _] Hk. revert i Hi. induction Rs as [|R0 Rs IH]; intros [|i] Hi; cbn in Hi; [done..| |].
  - injection Hi as ->. cbn. destruct e as [k' v']. cbn in *. by rewrite decide_False.
  - change (<[S i := R]> (R0 :: Rs)) with (R0 :: <[i := R]> Rs).
    by rewrite !first_of_cons, (IH i Hi).
Qed.

Lemma elem_of_emit last m e : e ∈ emit last m <-> last <> Some e.1 /\ e ∈ m.
Proof. unfold emit. by rewrite list_elem_of_filter. Qed.

Lemma emit_sorted last m : sorted_keys m -> sorted_keys (emit last m).
Proof.
  unfold emit, sorted_keys. intros Hm. induction m as [|[k v] m IH]; [constructor|].
  apply sorted_keys_cons in Hm as [Hf Hs]. rewrite filter_cons. case_decide; [|by apply IH].
  apply sorted_keys_cons. split; [|by apply IH]. apply Forall_forall. intros x Hx.
  apply list_elem_of_filter in Hx as [_ Hx]. rewrite Forall_forall in Hf. by apply Hf.
Qed.

(** One step of a merge loop. *)
Lemma emit_step Rs i e R last :
  Forall sorted_keys Rs -> pick Rs i e R -> (forall l, last = Some l -> l <=b e.1) ->
  emit last (merged Rs)
  = (if decide (last = Some e.1) then [] else [e]) ++ emit (Some e.1) (merged (<[i := R]> Rs)).
Proof.
  intros Hs Hp Hl.
  assert (forall x, x ∈ emit (Some e.1) (merged (<[i:=R]> Rs)) -> e.1 <b x.1) as Hgt.
  { intros x [Hne Hx]%elem_of_emit. apply elem_of_merged in Hx.
    assert (x.1 <> e.1) as Hne' by congruence. rewrite (pick_rest_first _ _ _ _ _ Hp Hne') in Hx.
    pose proof (pick_least _ _ _ _ _ _ Hs Hp Hx) as H. apply ble_lt_eq in H as [?|?]; [done|congruence]. }
  apply sorted_keys_ext.
  - apply emit_sorted, merged_sorted.
  - case_decide; cbn [app]; [apply emit_sorted, merged_sorted|]. destruct e as [k v].
    apply sorted_keys_cons. split; [|apply emit_sorted, merged_sorted].
    apply Forall_forall. exact Hgt.
  - intros [k v]. rewrite elem_of_app, !elem_of_emit, !elem_of_merged. cbn.
    pose proof (pick_first _ _ _ _ Hs Hp) as Hf. destruct (decide (k = e.1)) as [->|Hne].
    + rewrite Hf. destruct e as [k0 v0]. cbn in *. case_decide as Hd.
      * rewrite elem_of_nil. naive_solver.
      * rewrite list_elem_of_singleton. naive_solver.
    + rewrite (pick_rest_first _ _ _ _ _ Hp Hne). split.
      * intros [_ H]. right. split; [congruence|done].
      * intros [H|[_ H]].
        -- exfalso. case_decide; [by apply elem_of_nil in H|].
           apply list_elem_of_singleton in H. destruct e. naive_solver.
        -- split; [|done]. intros ->. apply Hne. apply ble_antisym; [by apply Hl|].
           by eapply pick_least.
Qed.

(** Sums over a merge do not exceed the sums over its streams. *)
Definition wsum (f : bytes * V -> Z) m : Z := foldr (fun e s => f e + s) 0 m.

Lemma wsum_cons f e m : wsum f (e :: m) = f e + wsum f m.
Proof. done. Qed.

Lemma wsum_nonneg f m : (forall e, 0 <= f e) -> 0 <= wsum f m.
Proof. intros Hf. induction m as [|e m IH]; [done|]. rewrite wsum_cons. specialize (Hf e). lia. Qed.

Lemma wsum_ins f k v m : (forall e, 0 <= f e) -> wsum f (ins k v m) <= f (k, v) + wsum f m.
Proof.
  intros Hf. induction m as [|[k' v'] m IH]; cbn [ins]; rewrite ?wsum_cons; [done|].
  pose proof (Hf (k', v')). destruct (bcompare k k'); rewrite ?wsum_cons; lia.
Qed.

Lemma wsum_merged f Rs : (forall e, 0 <= f e) ->
  wsum f (merged Rs) <= foldr (fun R s => wsum f R + s) 0 Rs.
Proof.
  intros Hf. induction Rs as [|R Rs IH]; cbn [merged foldr]; [done|].
  enough (wsum f (overlay R (merged Rs)) <= wsum f R + wsum f (merged Rs)) by (unfold merged in *; lia).
  clear IH. induction R as [|[k v] R IH]; cbn [overlay foldr]; [cbn; lia|].
  pose proof (wsum_ins f k v (overlay R (merged Rs)) Hf) as H. rewrite wsum_cons.
  unfold overlay in *. cbn [fst snd]. lia.
Qed.

Lemma sorted_keys_sublist m m' : sublist m m' -> sorted_keys m' -> sorted_keys m.
Proof.
  induction 1 as [|[k v] m m' Hsub IH|[k v] m m' _ IH]; rewrite ?sorted_keys_cons; [done| |tauto].
  intros [Hf Hs]. split; [|by apply IH]. apply Forall_forall. intros x Hx.
  rewrite Forall_forall in Hf. apply Hf. by apply (elem_of_sublist m).
Qed.

Lemma wsum_sublist f m m' : (forall e, 0 <= f e) -> sublist m m' -> wsum f m <= wsum f m'.
Proof.
  intros Hf. induction 1 as [|e m m' _ IH|e m m' _ IH]; rewrite ?wsum_cons; [done|lia|].
  specialize (Hf e). lia.
Qed.

End merge.
