(* ===== verification/Db.v ===== *)
(** * The storage engine (internal/db/db.go, internal/db/txn.go): definitions

    The LSM store: a write-ahead log, an active and a frozen memtable, the open
    tables newest first, timestamps, the applied Raft index and the session
    table.  Every exported method takes the store's mutex, so it is one function
    on the state [DB] and the files [Disk].  The WAL's file lives in the open
    [wal.WAL]; [Disk] holds the tables and the side files. *)

From Stdlib Require Import ZArith Lia.
From Stdlib Require Import Strings.Byte.
From stdpp Require Import base list gmap sorting.
From S2P Require Import Prelude.
From S2P Require Import MvccKey.
From S2P Require Import OrderedMap.
From S2P Require Import Skiplist.
From S2P Require Import Versions.
From S2P Require Import Memtable.
From S2P Require Import RecordFmt.
From S2P Require Import Bloom.
From S2P Require Import Wal.
From S2P Require Import SSTable.
From S2P Require Import DbDisk.

#[local] Open Scope Z_scope.
#[local] Open Scope bytes_scope.

Module db.

Abbreviation MT := (Memtable.Memtable Skiplist.Skiplist).

(** The coin flips of the skiplists, one function per insertion. *)
Abbreviation coins := (nat -> nat -> bool).

Definition next_coins (c : coins) : coins := fun n => c (S n).

Definition defaultMemtableSizeMax : Z := 4 * 1024 * 1024.
Definition defaultCompactionTrigger : Z := 4.

Inductive error :=
| errClosed
| ErrKeyNotFound
| ErrConflict
| ErrTxnFinished
| ErrWal (e : wal.error)
| ErrSST (e : sstable.error)
| ErrMem (e : Memtable.mem_error)
| ErrReplayTS (data commit : Z)
| ErrReplayOp (op : byte)
| ErrApplyDecode (offset : Z) (e : record.error)
| ErrApplyEmpty
| ErrApplyNoCommit
| ErrApplyTS (data marker : Z)
| ErrApplyOp (op : byte).

Record Options := MkOptions {
  SyncOnWrite : bool;
  MemtableSizeMax : Z;
  CompactionTrigger : Z;
  DisableBackgroundCompaction : bool
}.

Record Disk := MkDisk {
  d_ssts : gmap Z bytes;
  d_base : option bytes;
  d_sessions : option bytes
}.

Record DB := MkDB {
  opts : Options;
  db_wal : wal.WAL;
  memtable : MT;
  frozen : option MT;
  sstables : list sstable.Reader;
  sstableIDs : list Z;
  nextID : Z;
  nextTimestamp : Z;
  appliedIndex : Z;
  recoveredApplied : Z;
  appliedTS : Z;
  sessions : gmap bytes Z;
  closed : bool;
  commitOverride : bool;
  activeTxns : gmap nat Z;
  compactPending : bool;
  rng : coins
}.

(** ** Opening *)

(** File names are [%06d.sst], and only names of exactly six digits are found
    again. *)
Definition discoverSSTables (ssts : gmap Z bytes) : list Z :=
  merge_sort Z.le (filter (fun id => 0 <= id < 10 ^ 6) (map_to_list ssts).*1).

(** Open the tables in the order given (newest first), tracking the largest
    timestamp and applied index of the footers. *)
Fixpoint openTables (ssts : gmap Z bytes) (ids : list Z) (acc : list sstable.Reader) (maxTS maxApplied : Z)
  : outcome error (list sstable.Reader * Z * Z) :=
  match ids with
  | [] => Ok (acc, maxTS, maxApplied)
  | id :: ids' =>
      match ssts !! id with
      | None => Err (ErrSST sstable.ErrRead)
      | Some file =>
          match sstable.OpenReader file with
          | Err e => Err (ErrSST e)
          | Panic => Panic
          | Ok r =>
              openTables ssts ids' (acc ++ [r])
                (if decide (sstable.MaxTimestamp r > maxTS) then sstable.MaxTimestamp r else maxTS)
                (if decide (sstable.AppliedIndex r > maxApplied) then sstable.AppliedIndex r
                 else maxApplied)
          end
      end
  end.

(** What the replay closure captures. *)
Record Replay := MkReplay {
  rp_maxTS : Z;
  rp_buffer : list record.Rec;
  rp_commits : Z;
  rp_sessions : gmap bytes Z;
  rp_mt : MT;
  rp_rng : coins
}.

(** Drain the buffer into the memtable. *)
Fixpoint applyBuffer (buffer : list record.Rec) (commitTS : Z) (mt : MT) (c : coins)
  : outcome error (MT * coins) :=
  match buffer with
  | [] => Ok (mt, c)
  | br :: buffer' =>
      if decide (record.Timestamp br <> commitTS)
      then Err (ErrReplayTS (record.Timestamp br) commitTS)
      else
        match (if decide (record.Op br = OpPut)
               then Memtable.Put mt (record.Key br) (record.Value br) (record.Timestamp br) (c 0%nat)
               else if decide (record.Op br = OpDelete)
               then Memtable.Delete mt (record.Key br) (record.Timestamp br) (c 0%nat)
               else Ok mt) with
        | Ok mt' => applyBuffer buffer' commitTS mt' (next_coins c)
        | Err e => Err (ErrMem e)
        | Panic => Panic
        end
  end.

(** [None] stands for a panic of the closure. *)
Definition replayRecord (offset : Z) (rec : record.Rec) (st : Replay) : Replay * option (option error) :=
  let maxTS := if decide (record.Timestamp rec > rp_maxTS st) then record.Timestamp rec else rp_maxTS st in
  if decide (record.Op rec = OpPut \/ record.Op rec = OpDelete) then
    (MkReplay maxTS (rp_buffer st ++ [rec]) (rp_commits st) (rp_sessions st) (rp_mt st) (rp_rng st), None)
  else if decide (record.Op rec = OpCommit) then
    let sessions :=
      if decide (len (record.Key rec) > 0) then
        let s := dbdisk.decodeSeq (record.Value rec) in
        if decide (s > default 0 (rp_sessions st !! record.Key rec))
        then <[record.Key rec := s]> (rp_sessions st) else rp_sessions st
      else rp_sessions st in
    match applyBuffer (rp_buffer st) (record.Timestamp rec) (rp_mt st) (rp_rng st) with
    | Ok (mt, c) => (MkReplay maxTS [] (u64 (rp_commits st + 1)) sessions mt c, None)
    | Err e => (st, Some (Some e))
    | Panic => (st, Some None)
    end
  else (st, Some (Some (ErrReplayOp (record.Op rec)))).

Definition normalise (o : Options) : Options :=
  MkOptions (SyncOnWrite o)
    (if decide (MemtableSizeMax o <= 0) then defaultMemtableSizeMax else MemtableSizeMax o)
    (if decide (CompactionTrigger o < 2) then defaultCompactionTrigger else CompactionTrigger o)
    (DisableBackgroundCompaction o).

(** [walFile] and [disk] are what the directory holds; nothing is assumed of how
    much of the log the process before made durable. *)
Definition OpenWith (walFile : option bytes) (disk : Disk) (o : Options) (c : coins)
  : outcome error DB :=
  let o := normalise o in
  let ids := discoverSSTables (d_ssts disk) in
  '(ssts, maxTS, maxFooterApplied) ← openTables (d_ssts disk) (reverse ids) [] 0 0;
  match wal.OpenWith walFile 0 (SyncOnWrite o) with
  | Err e => Err (ErrWal e)
  | Panic => Panic
  | Ok w =>
      let start := MkReplay maxTS [] 0 (dbdisk.readSessionsFile (d_sessions disk)) Memtable.New c in
      match wal.Scan replayRecord w start with
      | None => Panic
      | Some (_, Some (wal.ScanWal e)) => Err (ErrWal e)
      | Some (_, Some (wal.ScanFn None)) => Panic
      | Some (_, Some (wal.ScanFn (Some e))) => Err e
      | Some (st, None) =>
          let nextID := match last ids with Some id => id + 1 | None => 1 end in
          let walBase := dbdisk.readAppliedBase (d_base disk) in
          let recovered := u64 (walBase + rp_commits st) in
          let recovered := if decide (maxFooterApplied > recovered) then maxFooterApplied else recovered in
          Ok (MkDB o w (rp_mt st) None ssts (reverse ids) nextID (u64 (rp_maxTS st + 1))
                recovered recovered (rp_maxTS st) (rp_sessions st) false false ∅
                (negb (DisableBackgroundCompaction o)) (rp_rng st))
      end
  end.

(** ** Reads *)

Fixpoint getInTables (ssts : list sstable.Reader) (key : bytes) (snapshot : Z)
  : list sstable.Reader * outcome error (option (bytes * byte)) :=
  match ssts with
  | [] => ([], Ok None)
  | r :: ssts' =>
      match sstable.GetAsOf r key snapshot with
      | (r', Err e) => (r' :: ssts', Err (ErrSST e))
      | (r', Panic) => (r' :: ssts', Panic)
      | (r', Ok (Some x)) => (r' :: ssts', Ok (Some x))
      | (r', Ok None) => let '(rs, o) := getInTables ssts' key snapshot in (r' :: rs, o)
      end
  end.

Definition value_or_deleted (x : bytes * byte) : outcome error bytes :=
  if decide (x.2 = OpDelete) then Err ErrKeyNotFound else Ok x.1.

Definition set_sstables (d : DB) (s : list sstable.Reader) : DB :=
  MkDB (opts d) (db_wal d) (memtable d) (frozen d) s (sstableIDs d) (nextID d) (nextTimestamp d)
    (appliedIndex d) (recoveredApplied d) (appliedTS d) (sessions d) (closed d) (commitOverride d)
    (activeTxns d) (compactPending d) (rng d).

Definition getAsOfSnapshot (d : DB) (key : bytes) (snapshot : Z) : DB * outcome error bytes :=
  match Memtable.GetAsOf (memtable d) key snapshot with
  | None => (d, Panic)
  | Some (Some x) => (d, value_or_deleted x)
  | Some None =>
      match (match frozen d with
             | None => Some None
             | Some fm => Memtable.GetAsOf fm key snapshot
             end) with
      | None => (d, Panic)
      | Some (Some x) => (d, value_or_deleted x)
      | Some None =>
          let '(ssts, o) := getInTables (sstables d) key snapshot in
          (set_sstables d ssts,
           o ≫= fun found => match found with Some x => value_or_deleted x | None => Err ErrKeyNotFound end)
      end
  end.

Definition GetAsOf (d : DB) (key : bytes) (snapshot : Z) : DB * outcome error bytes :=
  if closed d then (d, Err errClosed) else getAsOfSnapshot d key snapshot.

Definition Get (d : DB) (key : bytes) : DB * outcome error bytes :=
  if closed d then (d, Err errClosed) else getAsOfSnapshot d key (nextTimestamp d).

(** ** Conflict detection *)

Fixpoint newerInTables (ssts : list sstable.Reader) (key : bytes) (readSnap : Z)
  : list sstable.Reader * outcome error bool :=
  match ssts with
  | [] => ([], Ok false)
  | r :: ssts' =>
      match sstable.NewestVersionTS r key with
      | (r', Err e) => (r' :: ssts', Err (ErrSST e))
      | (r', Panic) => (r' :: ssts', Panic)
      | (r', Ok found) =>
          if (match found with Some ts => bool_decide (ts > readSnap) | None => false end)
          then (r' :: ssts', Ok true)
          else let '(rs, o) := newerInTables ssts' key readSnap in (r' :: rs, o)
      end
  end.

Definition newerInMem (m : MT) (key : bytes) (readSnap : Z) : option bool :=
  found ← Memtable.NewestVersionTS m key;
  Some (match found with Some ts => bool_decide (ts > readSnap) | None => false end).

Definition hasCommitNewerThanLocked (d : DB) (key : bytes) (readSnap : Z) : DB * outcome error bool :=
  match newerInMem (memtable d) key readSnap with
  | None => (d, Panic)
  | Some true => (d, Ok true)
  | Some false =>
      match (match frozen d with None => Some false | Some fm => newerInMem fm key readSnap end) with
      | None => (d, Panic)
      | Some true => (d, Ok true)
      | Some false =>
          let '(ssts, o) := newerInTables (sstables d) key readSnap in (set_sstables d ssts, o)
      end
  end.

(** The loop over the written keys, in the order the map yields them. *)
Fixpoint checkConflicts (d : DB) (keys : list bytes) (readSnap : Z) : DB * outcome error unit :=
  match keys with
  | [] => (d, Ok tt)
  | k :: keys' =>
      match hasCommitNewerThanLocked d k readSnap with
      | (d', Err e) => (d', Err e)
      | (d', Panic) => (d', Panic)
      | (d', Ok true) => (d', Err ErrConflict)
      | (d', Ok false) => checkConflicts d' keys' readSnap
      end
  end.

(** ** Flush *)

(** The frozen memtable written out through the callback of [Iterate]. *)
Definition addFrozen (fm : MT) (w : sstable.Writer) : option (outcome error sstable.Writer) :=
  Memtable.Iterate fm
    (fun userKey value op ts acc =>
       match acc with
       | Ok w =>
           match sstable.Add w op userKey value ts with
           | Ok w' => (Ok w', true)
           | Err e => (Err (ErrSST e), false)
           | Panic => (Panic, false)
           end
       | _ => (acc, false)
       end) (Ok w).

Definition set_after_flush (d : DB) (w : wal.WAL) (mt : MT) (r : sstable.Reader) : DB :=
  MkDB (opts d) w mt None (r :: sstables d) (nextID d :: sstableIDs d) (nextID d + 1)
    (nextTimestamp d) (appliedIndex d) (recoveredApplied d) (appliedTS d) (sessions d) (closed d)
    (commitOverride d) (activeTxns d) (compactPending d) (rng d).

Definition set_frozen (d : DB) (fm mt : MT) : DB :=
  MkDB (opts d) (db_wal d) mt (Some fm) (sstables d) (sstableIDs d) (nextID d) (nextTimestamp d)
    (appliedIndex d) (recoveredApplied d) (appliedTS d) (sessions d) (closed d) (commitOverride d)
    (activeTxns d) (compactPending d) (rng d).

(** The durable steps of a flush, in order: the table is renamed into place, the
    old WAL is removed, an empty one created, the base written, the session
    table written. *)
Definition flushTable (disk : Disk) (id : Z) (file : bytes) : Disk :=
  MkDisk (<[id := file]> (d_ssts disk)) (d_base disk) (d_sessions disk).
Definition flushBase (disk : Disk) (d : DB) : Disk :=
  MkDisk (d_ssts disk) (dbdisk.writeAppliedBase (appliedIndex d)) (d_sessions disk).
Definition flushSessions (disk : Disk) (d : DB) : Disk :=
  MkDisk (d_ssts disk) (d_base disk) (dbdisk.writeSessionsFile (sessions d)).

(** [None] is a panic; an error leaves the state reached so far. *)
Definition flushLocked (d : DB) (disk : Disk) : option (DB * Disk * option error) :=
  if decide (Memtable.Len (memtable d) = 0) then Some (d, disk, None)
  else
    let fm := Memtable.Freeze (memtable d) in
    let d1 := set_frozen d fm Memtable.New in
    added ← addFrozen fm (sstable.NewWriter (Memtable.Len fm) (appliedIndex d));
    match added with
    | Panic => None
    | Err e => Some (d1, disk, Some e)
    | Ok w =>
        match sstable.Finish w with
        | Panic => None
        | Err e => Some (d1, disk, Some (ErrSST e))
        | Ok (_, file) =>
            let disk1 := flushTable disk (nextID d) file in
            match sstable.OpenReader file with
            | Panic => None
            | Err e => Some (d1, disk1, Some (ErrSST e))
            | Ok r =>
                match wal.OpenWith None 0 (SyncOnWrite (opts d)) with
                | Panic => None
                | Err e => Some (d1, disk1, Some (ErrWal e))
                | Ok newWAL =>
                    let d2 := set_after_flush d1 newWAL Memtable.New r in
                    Some (d2, flushSessions (flushBase disk1 d2) d2, None)
                end
            end
        end
    end.

Definition signalCompact (d : DB) : DB :=
  if closed d || DisableBackgroundCompaction (opts d) then d
  else
    MkDB (opts d) (db_wal d) (memtable d) (frozen d) (sstables d) (sstableIDs d) (nextID d)
      (nextTimestamp d) (appliedIndex d) (recoveredApplied d) (appliedTS d) (sessions d) (closed d)
      (commitOverride d) (activeTxns d) true (rng d).

(** The size check after a commit. *)
Definition maybeFlush (d : DB) (disk : Disk) : option (DB * Disk * option error) :=
  if decide (Memtable.ApproximateSize (memtable d) >= MemtableSizeMax (opts d)) then
    '(d1, disk1, e) ← flushLocked d disk;
    match e with
    | Some _ => Some (d1, disk1, e)
    | None => Some (signalCompact d1, disk1, None)
    end
  else Some (d, disk, None).

Definition FlushForTesting (d : DB) (disk : Disk) : option (DB * Disk * option error) :=
  if closed d then Some (d, disk, Some errClosed)
  else
    '(d1, disk1, e) ← flushLocked d disk;
    match e with
    | Some _ => Some (d1, disk1, e)
    | None => Some (signalCompact d1, disk1, None)
    end.

(** ** Transactions *)

Record Txn := MkTxn {
  txn_id : nat;
  readSnap : Z;
  writes : gmap bytes (byte * bytes);
  finished : bool;
  session : bytes;
  seq : Z
}.

Definition finish (t : Txn) : Txn :=
  MkTxn (txn_id t) (readSnap t) (writes t) true (session t) (seq t).

Definition set_writes (t : Txn) (w : gmap bytes (byte * bytes)) : Txn :=
  MkTxn (txn_id t) (readSnap t) w (finished t) (session t) (seq t).

Definition set_activeTxns (d : DB) (a : gmap nat Z) : DB :=
  MkDB (opts d) (db_wal d) (memtable d) (frozen d) (sstables d) (sstableIDs d) (nextID d)
    (nextTimestamp d) (appliedIndex d) (recoveredApplied d) (appliedTS d) (sessions d) (closed d)
    (commitOverride d) a (compactPending d) (rng d).

Definition unregisterTxn (d : DB) (t : Txn) : DB := set_activeTxns d (delete (txn_id t) (activeTxns d)).

(** [fresh (dom ...)] is the identity of the new transaction object. *)
Definition Begin (d : DB) : DB * Txn :=
  let id := fresh (dom (activeTxns d)) in
  (set_activeTxns d (<[id := appliedTS d]> (activeTxns d)),
   MkTxn id (appliedTS d) ∅ false [] 0).

Definition SetSession (t : Txn) (s : bytes) (sq : Z) : Txn :=
  MkTxn (txn_id t) (readSnap t) (writes t) (finished t) s sq.

Definition txn_Get (d : DB) (t : Txn) (key : bytes) : DB * outcome error bytes :=
  if finished t then (d, Err ErrTxnFinished)
  else
    match writes t !! key with
    | Some (op, v) => (d, if decide (op = OpDelete) then Err ErrKeyNotFound else Ok v)
    | None => GetAsOf d key (readSnap t)
    end.

Definition txn_Put (t : Txn) (key value : bytes) : outcome error Txn :=
  if finished t then Err ErrTxnFinished
  else Ok (set_writes t (<[key := (OpPut, value)]> (writes t))).

Definition txn_Delete (t : Txn) (key : bytes) : outcome error Txn :=
  if finished t then Err ErrTxnFinished
  else Ok (set_writes t (<[key := (OpDelete, [])]> (writes t))).

Definition Rollback (d : DB) (t : Txn) : outcome error (DB * Txn) :=
  if finished t then Err ErrTxnFinished
  else Ok (unregisterTxn d t, finish (set_writes t ∅)).

(** sort.Strings of the written keys. *)
Definition sortedKeys (t : Txn) : list bytes := merge_sort ble (map_to_list (writes t)).*1.

(** The data records of a commit, in key order. *)
Definition dataRecords (t : Txn) (commitTS : Z) : list record.Rec :=
  (fun k => let '(op, v) := default (x00, []) (writes t !! k) in record.MkRec op commitTS k v)
  <$> sortedKeys t.

(** Apply data records to a memtable. *)
Fixpoint applyRecords (recs : list record.Rec) (mt : MT) (c : coins)
  : outcome Memtable.mem_error (MT * coins) :=
  match recs with
  | [] => Ok (mt, c)
  | rec :: recs' =>
      (if decide (record.Op rec = OpPut)
       then Memtable.Put mt (record.Key rec) (record.Value rec) (record.Timestamp rec) (c 0%nat)
       else if decide (record.Op rec = OpDelete)
       then Memtable.Delete mt (record.Key rec) (record.Timestamp rec) (c 0%nat)
       else Ok mt) ≫= fun mt' =>
      applyRecords recs' mt' (next_coins c)
  end.

Definition set_nextTimestamp (d : DB) (ts : Z) : DB :=
  MkDB (opts d) (db_wal d) (memtable d) (frozen d) (sstables d) (sstableIDs d) (nextID d) ts
    (appliedIndex d) (recoveredApplied d) (appliedTS d) (sessions d) (closed d) (commitOverride d)
    (activeTxns d) (compactPending d) (rng d).

Definition set_wal (d : DB) (w : wal.WAL) : DB :=
  MkDB (opts d) w (memtable d) (frozen d) (sstables d) (sstableIDs d) (nextID d) (nextTimestamp d)
    (appliedIndex d) (recoveredApplied d) (appliedTS d) (sessions d) (closed d) (commitOverride d)
    (activeTxns d) (compactPending d) (rng d).

Definition set_memtable (d : DB) (mt : MT) (c : coins) : DB :=
  MkDB (opts d) (db_wal d) mt (frozen d) (sstables d) (sstableIDs d) (nextID d) (nextTimestamp d)
    (appliedIndex d) (recoveredApplied d) (appliedTS d) (sessions d) (closed d) (commitOverride d)
    (activeTxns d) (compactPending d) c.

Definition set_applied (d : DB) (idx ts : Z) : DB :=
  MkDB (opts d) (db_wal d) (memtable d) (frozen d) (sstables d) (sstableIDs d) (nextID d)
    (nextTimestamp d) idx (recoveredApplied d) ts (sessions d) (closed d) (commitOverride d)
    (activeTxns d) (compactPending d) (rng d).

Definition set_sessions (d : DB) (s : gmap bytes Z) : DB :=
  MkDB (opts d) (db_wal d) (memtable d) (frozen d) (sstables d) (sstableIDs d) (nextID d)
    (nextTimestamp d) (appliedIndex d) (recoveredApplied d) (appliedTS d) s (closed d)
    (commitOverride d) (activeTxns d) (compactPending d) (rng d).

(** The result of [Commit]: an error, or success, or delegation to the
    replication layer's override. *)
Inductive commit_result := Committed | Delegated | Failed (e : error).

Definition Commit (d : DB) (disk : Disk) (t : Txn) : option (DB * Disk * Txn * commit_result) :=
  if finished t then Some (d, disk, t, Failed ErrTxnFinished)
  else
    let d := unregisterTxn d t in
    if commitOverride d then Some (d, disk, t, Delegated)
    else if closed d then Some (d, disk, finish t, Failed errClosed)
    else if decide (size (writes t) = 0%nat) then Some (d, disk, finish t, Committed)
    else
      match checkConflicts d (map_to_list (writes t)).*1 (readSnap t) with
      | (_, Panic) => None
      | (d1, Err e) => Some (d1, disk, finish t, Failed e)
      | (d1, Ok _) =>
          let commitTS := nextTimestamp d1 in
          let d2 := set_nextTimestamp d1 (u64 (commitTS + 1)) in
          let recs := dataRecords t commitTS in
          match wal.AppendAll (db_wal d2) (recs ++ [record.MkRec OpCommit commitTS [] []]) with
          | Panic => None
          | Err e => Some (d2, disk, finish t, Failed (ErrWal e))
          | Ok (w, _) =>
              let d3 := set_wal d2 w in
              match applyRecords recs (memtable d3) (rng d3) with
              | Ok (mt, c) =>
                  let d4 := set_applied (set_memtable d3 mt c) (appliedIndex d3) commitTS in
                  '(d5, disk5, e) ← maybeFlush d4 disk;
                  Some (d5, disk5, finish t,
                        match e with Some e => Failed e | None => Committed end)
              | _ => None
              end
          end
      end.

Definition Put (d : DB) (disk : Disk) (key value : bytes) : option (DB * Disk * commit_result) :=
  let '(d1, t) := Begin d in
  match txn_Put t key value with
  | Ok t1 => '(d2, disk2, _, r) ← Commit d1 disk t1; Some (d2, disk2, r)
  | Err e => Some (d1, disk, Failed e)
  | Panic => None
  end.

Definition Delete (d : DB) (disk : Disk) (key : bytes) : option (DB * Disk * commit_result) :=
  let '(d1, t) := Begin d in
  match txn_Delete t key with
  | Ok t1 => '(d2, disk2, _, r) ← Commit d1 disk t1; Some (d2, disk2, r)
  | Err e => Some (d1, disk, Failed e)
  | Panic => None
  end.

(** ** Replicated commits *)

(** [Ok None]: nothing to propose. *)
Definition PrepareCommit (d : DB) (t : Txn) : option (DB * Txn * outcome error (option (bytes * Z))) :=
  if finished t then Some (d, t, Err ErrTxnFinished)
  else if closed d then Some (d, finish t, Err errClosed)
  else if decide (size (writes t) = 0%nat) then Some (d, finish t, Ok None)
  else if decide (len (session t) > 0 /\ seq t <= default 0 (sessions d !! session t))
  then Some (d, finish t, Ok None)
  else
    match checkConflicts d (map_to_list (writes t)).*1 (readSnap t) with
    | (_, Panic) => None
    | (d1, Err e) => Some (d1, finish t, Err e)
    | (d1, Ok _) =>
        let commitTS := nextTimestamp d1 in
        let d2 := set_nextTimestamp d1 (u64 (commitTS + 1)) in
        let commitRec :=
          if decide (len (session t) > 0)
          then record.MkRec OpCommit commitTS (session t) (dbdisk.encodeSeq (seq t))
          else record.MkRec OpCommit commitTS [] [] in
        let entry := record.encs (dataRecords t commitTS ++ [commitRec]) in
        Some (d2, finish t, Ok (Some (entry, commitTS)))
    end.

Definition PrepareNoop (d : DB) : DB * outcome error (bytes * Z) :=
  if closed d then (d, Err errClosed)
  else
    let commitTS := nextTimestamp d in
    (set_nextTimestamp d (u64 (commitTS + 1)),
     Ok (record.Encode (record.MkRec OpCommit commitTS [] []), commitTS)).

Fixpoint decodeEntry (fuel : nat) (entry : bytes) (offset : Z) (recs : list record.Rec)
  : outcome error (list record.Rec) :=
  match fuel with
  | O => Panic
  | S fuel' =>
      if decide (offset < len entry) then
        match record.Decode (drop (Z.to_nat offset) entry) with
        | Err e => Err (ErrApplyDecode offset e)
        | Panic => Panic
        | Ok (rec, n) => decodeEntry fuel' entry (offset + n) (recs ++ [rec])
        end
      else Ok recs
  end.

Fixpoint checkEntry (recs : list record.Rec) (commitTS : Z) : outcome error unit :=
  match recs with
  | [] => Ok tt
  | rec :: recs' =>
      if decide (record.Timestamp rec <> commitTS) then Err (ErrApplyTS (record.Timestamp rec) commitTS)
      else if decide (record.Op rec <> OpPut /\ record.Op rec <> OpDelete) then Err (ErrApplyOp (record.Op rec))
      else checkEntry recs' commitTS
  end.

(** The bookkeeping after the records of an entry are in. *)
Definition advanceApplied (d : DB) (idx commitTS : Z) : DB :=
  let d1 := if decide (commitTS >= nextTimestamp d) then set_nextTimestamp d (u64 (commitTS + 1)) else d in
  set_applied d1 (if decide (idx > appliedIndex d1) then idx else appliedIndex d1)
    (if decide (commitTS > appliedTS d1) then commitTS else appliedTS d1).

(** The log refuses a list of records only when it is closed, and then before the
    first is written ([wal.AppendAll_error]): an error leaves the store as it was. *)
Definition ApplyEntry (d : DB) (disk : Disk) (idx : Z) (entry : bytes)
  : option (DB * Disk * option error) :=
  if closed d then Some (d, disk, Some errClosed)
  else
    match decodeEntry (S (length entry)) entry 0 [] with
    | Panic => None
    | Err e => Some (d, disk, Some e)
    | Ok recs =>
        match last recs with
        | None => Some (d, disk, Some ErrApplyEmpty)
        | Some commitRec =>
            if decide (record.Op commitRec <> OpCommit) then Some (d, disk, Some ErrApplyNoCommit)
            else
              let commitTS := record.Timestamp commitRec in
              let data := take (length recs - 1) recs in
              match checkEntry data commitTS with
              | Panic => None
              | Err e => Some (d, disk, Some e)
              | Ok _ =>
                  let sess := record.Key commitRec in
                  let sq := if decide (sess <> []) then dbdisk.decodeSeq (record.Value commitRec) else 0 in
                  if decide (sess <> [] /\ sq <= default 0 (sessions d !! sess)) then
                    match wal.Append (db_wal d) commitRec with
                    | Panic => None
                    | Err e => Some (d, disk, Some (ErrWal e))
                    | Ok (w, _) => maybeFlush (advanceApplied (set_wal d w) idx commitTS) disk
                    end
                  else
                    match wal.AppendAll (db_wal d) recs with
                    | Panic => None
                    | Err e => Some (d, disk, Some (ErrWal e))
                    | Ok (w, _) =>
                        let d1 := set_wal d w in
                        match applyRecords data (memtable d1) (rng d1) with
                        | Ok (mt, c) =>
                            let d2 := set_memtable d1 mt c in
                            let d3 := if decide (sess <> []) then set_sessions d2 (<[sess := sq]> (sessions d2))
                                      else d2 in
                            maybeFlush (advanceApplied d3 idx commitTS) disk
                        | _ => None
                        end
                    end
              end
        end
    end.

Definition ApplyControlEntry (d : DB) (disk : Disk) (idx : Z) : option (DB * Disk * option error) :=
  if closed d then Some (d, disk, Some errClosed)
  else
    let commitTS := nextTimestamp d in
    let d1 := set_nextTimestamp d (u64 (commitTS + 1)) in
    match wal.Append (db_wal d1) (record.MkRec OpCommit commitTS [] []) with
    | Panic => None
    | Err e => Some (d1, disk, Some (ErrWal e))
    | Ok (w, _) =>
        let d2 := set_wal d1 w in
        maybeFlush (set_applied d2 (if decide (idx > appliedIndex d2) then idx else appliedIndex d2)
                      (if decide (commitTS > appliedTS d2) then commitTS else appliedTS d2)) disk
    end.

(** ** Small accessors *)

Definition LastAppliedTS (d : DB) : Z :=
  if decide (nextTimestamp d = 0) then 0 else nextTimestamp d - 1.
Definition RecoveredAppliedIndex (d : DB) : Z := recoveredApplied d.
Definition SessionLastSeq (d : DB) (s : bytes) : Z := default 0 (sessions d !! s).
Definition SessionTable (d : DB) : gmap bytes Z := sessions d.
Definition NumSSTablesForTesting (d : DB) : Z := len (sstables d).

Definition computeWatermark (d : DB) : Z :=
  let w := if decide (nextTimestamp d > 0) then nextTimestamp d - 1 else nextTimestamp d in
  map_fold (fun _ snap w => if decide (snap < w) then snap else w) w (activeTxns d).

(** [Close] after the compaction goroutine has stopped. *)
Definition Close (d : DB) : DB :=
  if closed d then d
  else
    MkDB (opts d) (wal.Close (db_wal d)) (memtable d) (frozen d) (sstable.Close <$> sstables d)
      (sstableIDs d) (nextID d) (nextTimestamp d) (appliedIndex d) (recoveredApplied d) (appliedTS d)
      (sessions d) true (commitOverride d) (activeTxns d) (compactPending d) (rng d).

End db.
