(* ===== verification/Layers.v ===== *)
(** * The layers of the store

    A read of the store tries the active memtable, the frozen one and the
    SSTables newest first, and stops at the first layer that has a version
    visible at its snapshot.  This file has the specification of that: the
    union of the layers' version maps, newer layers winning, under the
    condition that newer layers hold newer versions; and the readers of
    SSTables as layers. *)

From Stdlib Require Import ZArith Lia.
From Stdlib Require Import Strings.Byte.
From stdpp Require Import base list gmap sorting.
From S2P Require Import Prelude.
From S2P Require Import MvccKey.
From S2P Require Import Versions.
From S2P Require Import RecordFmt.
From S2P Require Import SSTable.
From S2P Require Import Db.

#[local] Open Scope Z_scope.
#[local] Open Scope bytes_scope.

(** ** Stacks of version maps *)

(** The first map that has a version wins. *)
Definition stack (Vs : list vmap) : vmap := foldr union ∅ Vs.

(** Every version of a key in [V] is newer than all of its versions in [W]. *)
Definition above (V W : vmap) : Prop :=
  forall k t t', is_Some (V !! (k, t)) -> is_Some (W !! (k, t')) -> t' < t.

Fixpoint ordered (Vs : list vmap) : Prop :=
  match Vs with
  | [] => True
  | V :: Vs' => above V (stack Vs') /\ ordered Vs'
  end.

(** What a read of [k] at [s] may return. *)
Definition sees (V : vmap) (k : bytes) (s : Z) (res : option (bytes * byte)) : Prop :=
  match res with
  | Some x => exists t ov, visible V k s t ov /\ x = as_of_result ov
  | None => invisible V k s
  end.

(** What a client sees of [k] at [s]: the newest visible version, unless it is a
    tombstone. *)
Definition live (V : vmap) (k : bytes) (s : Z) (v : bytes) : Prop :=
  exists t op, visible V k s t (op, v) /\ op <> OpDelete.

Definition small_map (V : vmap) : Prop := forall k t, is_Some (V !! (k, t)) -> small_ts t.

(** The condition under which the byte order can be trusted around [k]. *)
Definition readable (V : vmap) (k : bytes) : Prop := text_map V \/ prefix_free_at V k.

Definition dom_sub (V W : vmap) : Prop := forall kt, is_Some (V !! kt) -> is_Some (W !! kt).

Lemma readable_sub V W k : dom_sub V W -> readable W k -> readable V k.
Proof.
  intros H [Ht|Hp]; [left|right].
  - intros k' t Hk. by apply Ht, H.
  - intros k' t Hk. apply (Hp k' t), H, Hk.
Qed.

Lemma readable_clustered V k : readable V k -> clustered_at V k.
Proof. intros [H|H]; [by apply text_clustered|by apply prefix_free_clustered]. Qed.

Lemma union_dom (V W : vmap) kt : is_Some ((V ∪ W) !! kt) <-> is_Some (V !! kt) \/ is_Some (W !! kt).
Proof. apply lookup_union_is_Some. Qed.

Lemma stack_cons V Vs : stack (V :: Vs) = V ∪ stack Vs.
Proof. done. Qed.

Lemma stack_dom Vs kt : is_Some (stack Vs !! kt) <-> exists V, V ∈ Vs /\ is_Some (V !! kt).
Proof.
  induction Vs as [|V Vs IH].
  - change (stack []) with (∅ : vmap). rewrite lookup_empty. split.
    + by intros [? ?].
    + by intros (V & H%elem_of_nil & _).
  - rewrite stack_cons, union_dom, IH. setoid_rewrite elem_of_cons. naive_solver.
Qed.

Lemma union_lookup (V W : vmap) kt ov :
  (V ∪ W) !! kt = Some ov <-> V !! kt = Some ov \/ (V !! kt = None /\ W !! kt = Some ov).
Proof. apply lookup_union_Some_raw. Qed.

Lemma invisible_union V W k s : invisible (V ∪ W) k s <-> invisible V k s /\ invisible W k s.
Proof.
  unfold invisible. split.
  - intros H. split; intros t ov Hov.
    + apply (H t ov), union_lookup. auto.
    + destruct (V !! (k, t)) as [ov'|] eqn:E.
      * apply (H t ov'), union_lookup. auto.
      * apply (H t ov), union_lookup. auto.
  - intros [HV HW] t ov [H|[_ H]]%union_lookup; eauto.
Qed.

(** A read through two ordered layers stops at the first that answers. *)
Lemma visible_union V W k s t ov : above V W ->
  visible (V ∪ W) k s t ov <-> visible V k s t ov \/ (invisible V k s /\ visible W k s t ov).
Proof.
  intros Hab. split.
  - intros (H & Ht & Hmax). apply union_lookup in H as [H|[Hn H]].
    + left. split_and!; [done..|]. intros t' ov' H'. apply (Hmax t' ov'), union_lookup. auto.
    + right. split.
      * intros t' ov' H'. apply Z.nle_gt. intros Hle.
        assert (t' <= t) by (apply (Hmax t' ov'); [apply union_lookup; auto|done]).
        specialize (Hab k t' t ltac:(eauto) ltac:(eauto)). lia.
      * split_and!; [done..|]. intros t' ov' H' Ht'.
        destruct (V !! (k, t')) as [ov1|] eqn:E.
        -- apply (Hmax t' ov1); [apply union_lookup; auto|done].
        -- apply (Hmax t' ov'); [apply union_lookup; auto|done].
  - intros [(H & Ht & Hmax)|(Hinv & H & Ht & Hmax)].
    + split_and!; [apply union_lookup; auto|done|]. intros t' ov' [H'|[_ H']]%union_lookup Ht'; [eauto|].
      specialize (Hab k t t' ltac:(eauto) ltac:(eauto)). lia.
    + split_and!; [|done|].
      * apply union_lookup. right. split; [|done]. destruct (V !! (k, t)) as [ov1|] eqn:E; [|done].
        specialize (Hinv t ov1 E). lia.
      * intros t' ov' [H'|[_ H']]%union_lookup Ht'; [|eauto]. specialize (Hinv t' ov' H'). lia.
Qed.

Lemma sees_first V W k s x : above V W -> sees V k s (Some x) -> sees (V ∪ W) k s (Some x).
Proof. intros Hab (t & ov & Hv & ->). exists t, ov. split; [|done]. apply visible_union; auto. Qed.

Lemma sees_second V W k s res : above V W -> sees V k s None -> sees W k s res -> sees (V ∪ W) k s res.
Proof.
  intros Hab Hn. destruct res as [x|].
  - intros (t & ov & Hv & ->). exists t, ov. split; [|done]. apply visible_union; auto.
  - intros H. by apply invisible_union.
Qed.

Lemma sees_empty k s : sees ∅ k s None.
Proof. intros t ov H. by rewrite lookup_empty in H. Qed.

(** The answer to the client, from what a read found. *)
Definition client (found : option (bytes * byte)) : outcome db.error bytes :=
  match found with Some x => db.value_or_deleted x | None => Err db.ErrKeyNotFound end.

Lemma client_live V k s res : sees V k s res ->
  match client res with
  | Ok v => live V k s v
  | Err e => e = db.ErrKeyNotFound /\ forall v, ~ live V k s v
  | Panic => False
  end.
Proof.
  destruct res as [x|]; cbn.
  - intros (t & [op v] & Hv & ->). unfold as_of_result, db.value_or_deleted. cbn [fst snd].
    destruct (decide (op = OpDelete)) as [->|Hop]; cbn [fst snd].
    + rewrite decide_True by done. split; [done|]. intros v' (t' & op' & Hv' & Hop').
      by destruct (visible_unique _ _ _ _ _ _ _ Hv Hv') as [_ [= <- _]].
    + rewrite decide_False by done. by exists t, op.
  - intros H. split; [done|]. intros v (t & op & (Hv & Ht & _) & _). specialize (H t _ Hv). lia.
Qed.

(** The answer is determined by the store. *)
Lemma client_eq V W k s s' res res' :
  sees V k s res -> sees W k s' res' -> (forall v, live V k s v <-> live W k s' v) ->
  client res = client res'.
Proof.
  intros H1%client_live H2%client_live Heq.
  destruct (client res) as [v|e|] eqn:E1, (client res') as [v'|e'|] eqn:E2; try done.
  - f_equal. destruct H1 as (t & op & Hv & Hop). apply Heq in H2 as (t' & op' & Hv' & Hop').
    by destruct (visible_unique _ _ _ _ _ _ _ Hv Hv') as [_ [= _ <-]].
  - destruct H2 as [_ H2]. exfalso. by apply (H2 v), Heq.
  - destruct H1 as [_ H1]. exfalso. by apply (H1 v'), Heq.
  - f_equal. destruct H1 as [-> _], H2 as [-> _]. done.
Qed.

(** ** SSTables as layers *)

(** The table [r] is open and holds [adds]. *)
Definition table_ok (r : sstable.Reader) (adds : list sstable.add) : Prop :=
  sstable.adds_ok adds /\ sstable.rmodels r (sstable.recs_of adds).

(** The versions of several tables, the first table winning. *)
Definition layered (tables : list (list sstable.add)) : vmap := stack (sstable.versions <$> tables).

Lemma layered_cons adds tables : layered (adds :: tables) = sstable.versions adds ∪ layered tables.
Proof. done. Qed.

Lemma table_GetAsOf r adds k s :
  table_ok r adds -> readable (sstable.versions adds) k -> 0 <= s < 2 ^ 56 ->
  exists r' res, sstable.GetAsOf r k s = (r', Ok res) /\ table_ok r' adds
    /\ sees (sstable.versions adds) k s res.
Proof.
  intros [Hok Hr] Hc Hs. destruct (sstable.sst_GetAsOf_seek r _ k s Hr) as (r' & Hr' & ->).
  eexists r', _. split_and!; [done..|].
  destruct (seek_visible _ _ k s (sstable.versions_encodes adds Hok) (readable_clustered _ _ Hc) Hs)
    as [(t & op & v & Hv & ->)|[Hv ->]]; cbn; [|done].
  exists t, (op, v). split; [done|]. unfold as_of_result. cbn. by case_decide.
Qed.

(** The loop over the tables reads their union. *)
Lemma getInTables_layered ssts tables k s :
  Forall2 table_ok ssts tables -> ordered (sstable.versions <$> tables) ->
  readable (layered tables) k -> 0 <= s < 2 ^ 56 ->
  exists ssts' res, db.getInTables ssts k s = (ssts', Ok res) /\ Forall2 table_ok ssts' tables
    /\ sees (layered tables) k s res.
Proof.
  intros Htabs Hord Hc Hs. induction Htabs as [|r adds ssts tables Hr Htabs IH].
  { exists [], None. split_and!; [done|constructor|apply sees_empty]. }
  rewrite fmap_cons in Hord. destruct Hord as [Hab Hord]. rewrite layered_cons in *. cbn [db.getInTables].
  destruct (table_GetAsOf r adds k s Hr) as (r' & res & -> & Hr' & Hsees); [|done|].
  { eapply readable_sub; [|exact Hc]. intros kt. rewrite union_dom. auto. }
  destruct res as [x|].
  - exists (r' :: ssts), (Some x). split_and!; [done|by constructor|]. by apply sees_first.
  - destruct IH as (ssts' & res & -> & Htabs' & Hsees'); [done| |].
    { eapply readable_sub; [|exact Hc]. intros kt. rewrite union_dom. auto. }
    exists (r' :: ssts'), res. split_and!; [done|by constructor|]. by apply sees_second.
Qed.
