(* ===== verification/Compaction.v ===== *)
(** * Compaction (internal/db/compaction.go)

    [compactSSTables] merges whole tables and garbage-collects the versions no
    snapshot at or above the watermark can see; [tryCompactOnce] picks the oldest
    tables, runs the merge without the store's lock and installs the result.
    The steps that hold the lock are separate definitions, so that a [Close] or a
    flush can come between them. *)

From Stdlib Require Import ZArith Lia.
From Stdlib Require Import Strings.Byte.
From stdpp Require Import base list gmap sorting.
From S2P Require Import Prelude.
From S2P Require Import MvccKey.
From S2P Require Import OrderedMap.
From S2P Require Import Skiplist.
From S2P Require Import Versions.
From S2P Require Import Memtable.
From S2P Require Import RecordFmt.
From S2P Require Import Bloom.
From S2P Require Import Wal.
From S2P Require Import SSTable.
From S2P Require Import DbDisk.
From S2P Require Import Merge.
From S2P Require Import Db.
From S2P Require Import Layers.

#[local] Open Scope Z_scope.
#[local] Open Scope bytes_scope.

Module compaction.

(** ** The merge heap *)

Record mergeEntry := MkMergeEntry {
  encKey : bytes;
  value : bytes;
  op : byte;
  sourceIdx : nat
}.

Abbreviation mergeHeap := (list mergeEntry).

Definition Less (a b : mergeEntry) : bool :=
  match bcompare (encKey a) (encKey b) with
  | Eq => bool_decide (sourceIdx a < sourceIdx b)%nat
  | c => bool_decide (c = Lt)
  end.

Definition Push (h : mergeHeap) (x : mergeEntry) : mergeHeap := heap_push h x.
Definition Pop (h : mergeHeap) : option (mergeEntry * mergeHeap) := heap_pop Less h.

(** ** compactSSTables *)

Inductive error :=
| ErrSource (i : nat) (e : sstable.error)
| ErrMalformedKey (n : Z)
| ErrWrite (e : sstable.error)
| ErrFinish (e : sstable.error).

(** The records of one input, collected by the callback of [Iterate]. *)
Definition readSource (i : nat) (r : sstable.Reader) : list mergeEntry * outcome sstable.error unit :=
  sstable.Iterate (fun op encKey value src => (src ++ [MkMergeEntry encKey value op i], true)) r [].

Fixpoint readSources (i : nat) (inputs : list sstable.Reader) : outcome error (list (list mergeEntry)) :=
  match inputs with
  | [] => Ok []
  | r :: inputs' =>
      match readSource i r with
      | (_, Err e) => Err (ErrSource i e)
      | (_, Panic) => Panic
      | (src, Ok _) => rest ← readSources (S i) inputs'; Ok (src :: rest)
      end
  end.

Definition totalRecords (sources : list (list mergeEntry)) : nat :=
  foldr (fun src n => (length src + n)%nat) 0%nat sources.

(** The loop that pushes the first record of every source. *)
Fixpoint initHeap (i : nat) (todo : list (list mergeEntry)) (positions : list nat) (h : mergeHeap)
  : list nat * mergeHeap :=
  match todo with
  | [] => (positions, h)
  | [] :: todo' => initHeap (S i) todo' positions h
  | (e :: _) :: todo' => initHeap (S i) todo' (<[i := 1%nat]> positions) (Push h e)
  end.

Definition mergedApplied (inputs : list sstable.Reader) : Z :=
  foldl (fun m r => if decide (sstable.AppliedIndex r > m) then sstable.AppliedIndex r else m) 0 inputs.

(** [append(currentUserKey[:0], userKey...)]: a nil slice stays nil when nothing
    is appended. *)
Definition append0 (cur : option bytes) (userKey : bytes) : option bytes :=
  match cur, userKey with
  | None, [] => None
  | _, _ => Some userKey
  end.

Record mergeState := MkMergeState {
  positions : list nat;
  heap : mergeHeap;
  lastEncKey : option bytes;
  currentUserKey : option bytes;
  prevTS : Z;
  writer : sstable.Writer
}.

Fixpoint mergeLoop (fuel : nat) (sources : list (list mergeEntry)) (watermark : Z) (bottomOfLSM : bool)
  (st : mergeState) : outcome error sstable.Writer :=
  match fuel with
  | O => Panic
  | S fuel' =>
      match Pop (heap st) with
      | None => Ok (writer st)
      | Some (e, h) =>
          match sources !! sourceIdx e, positions st !! sourceIdx e with
          | Some src, Some p =>
              let '(ps, h) :=
                match src !! p with
                | Some e' => (<[sourceIdx e := S p]> (positions st), Push h e')
                | None => (positions st, h)
                end in
              if decide (lastEncKey st = Some (encKey e)) then
                mergeLoop fuel' sources watermark bottomOfLSM
                  (MkMergeState ps h (lastEncKey st) (currentUserKey st) (prevTS st) (writer st))
              else
                match Decode (encKey e) with
                | None => Err (ErrMalformedKey (len (encKey e)))
                | Some (userKey, ts) =>
                    let firstOfUserKey :=
                      match currentUserKey st with
                      | None => true
                      | Some c => bool_decide (userKey <> c)
                      end in
                    let cur := if firstOfUserKey then append0 (currentUserKey st) userKey
                               else currentUserKey st in
                    if firstOfUserKey && bottomOfLSM
                       && bool_decide (op e = OpDelete) && bool_decide (ts <= watermark)
                    then mergeLoop fuel' sources watermark bottomOfLSM
                           (MkMergeState ps h (Some (encKey e)) cur ts (writer st))
                    else if negb firstOfUserKey && bottomOfLSM && bool_decide (prevTS st <= watermark)
                    then mergeLoop fuel' sources watermark bottomOfLSM
                           (MkMergeState ps h (Some (encKey e)) cur (prevTS st) (writer st))
                    else
                      match sstable.Add (writer st) (op e) userKey (value e) ts with
                      | Err e => Err (ErrWrite e)
                      | Panic => Panic
                      | Ok w =>
                          mergeLoop fuel' sources watermark bottomOfLSM
                            (MkMergeState ps h (Some (encKey e)) cur ts w)
                      end
                end
          | _, _ => Panic
          end
      end
  end.

(** The result is the file renamed to the output path; on an error the writer
    removes its temporary file. *)
Definition compactSSTables (inputs : list sstable.Reader) (watermark : Z) (bottomOfLSM : bool)
  : outcome error bytes :=
  sources ← readSources 0 inputs;
  let '(ps, h) := initHeap 0 sources (replicate (length sources) 0%nat) [] in
  let w := sstable.NewWriter (Z.of_nat (totalRecords sources)) (mergedApplied inputs) in
  w ← mergeLoop (S (totalRecords sources)) sources watermark bottomOfLSM
        (MkMergeState ps h None None 0 w);
  match sstable.Finish w with
  | Err e => Err (ErrFinish e)
  | Panic => Panic
  | Ok (_, file) => Ok file
  end.

(** ** tryCompactOnce *)

Record job := MkJob {
  inputs : list sstable.Reader;
  inputIDs : list Z;
  bottomOfLSM : bool;
  outputID : Z
}.

Definition slicesMin (l : list Z) : option Z :=
  match l with [] => None | x :: l' => Some (foldl Z.min x l') end.

(** Under the lock: the [CompactionTrigger] oldest tables.  The outer [None] is
    a panic, [Some None] nothing to do. *)
Definition pickInputs (d : db.DB) : option (option job) :=
  let n := db.CompactionTrigger (db.opts d) in
  if db.closed d then Some None
  else if decide (len (db.sstables d) < n) then Some None
  else
    let start := Z.to_nat (len (db.sstables d) - n) in
    let ins_ := drop start (db.sstables d) in
    let ids := drop start (db.sstableIDs d) in
    m1 ← slicesMin ids;
    m2 ← slicesMin (db.sstableIDs d);
    out ← head ids;
    Some (Some (MkJob ins_ ids (bool_decide (m1 = m2)) out)).

Definition removeSST (disk : db.Disk) (id : Z) : db.Disk :=
  db.MkDisk (delete id (db.d_ssts disk)) (db.d_base disk) (db.d_sessions disk).

Inductive result :=
| Ran
| NothingToDo
| CompactFailed (e : error)
| OpenFailed (e : sstable.error)
| Shrank
| Changed.

(** The loop that compares the tail of the table list with the inputs; [None] is
    an index out of range. *)
Fixpoint sameTail (ids : list Z) (inputIDs : list Z) : option bool :=
  match inputIDs with
  | [] => Some true
  | id :: inputIDs' =>
      match ids with
      | [] => None
      | id' :: ids' => if decide (id' <> id) then Some false else sameTail ids' inputIDs'
      end
  end.

Definition set_tables (d : db.DB) (ssts : list sstable.Reader) (ids : list Z) : db.DB :=
  db.MkDB (db.opts d) (db.db_wal d) (db.memtable d) (db.frozen d) ssts ids (db.nextID d)
    (db.nextTimestamp d) (db.appliedIndex d) (db.recoveredApplied d) (db.appliedTS d)
    (db.sessions d) (db.closed d) (db.commitOverride d) (db.activeTxns d) (db.compactPending d)
    (db.rng d).

(** The old inputs are removed one by one. *)
Definition removeInputs (disk : db.Disk) (ids : list Z) (outputID : Z) : db.Disk :=
  foldl (fun disk id => if decide (id = outputID) then disk else removeSST disk id) disk ids.

(** The second critical section and the removal of the inputs. *)
Definition install (d : db.DB) (disk : db.Disk) (j : job) (r : sstable.Reader)
  : option (db.DB * db.Disk * result) :=
  if db.closed d then Some (d, removeSST disk (outputID j), NothingToDo)
  else
    let tailStart := len (db.sstables d) - len (inputIDs j) in
    if decide (tailStart < 0) then Some (d, removeSST disk (outputID j), Shrank)
    else
      let t := Z.to_nat tailStart in
      same ← sameTail (drop t (db.sstableIDs d)) (inputIDs j);
      if (same : bool) then
        Some (set_tables d (take t (db.sstables d) ++ [r]) (take t (db.sstableIDs d) ++ [outputID j]),
              removeInputs disk (inputIDs j) (outputID j), Ran)
      else Some (d, removeSST disk (outputID j), Changed).

(** The merge itself, on the files: the output is renamed over the newest
    input. *)
Definition mergeFiles (disk : db.Disk) (j : job) (watermark : Z)
  : option (db.Disk * (result + sstable.Reader)) :=
  match compactSSTables (inputs j) watermark (bottomOfLSM j) with
  | Panic => None
  | Err e => Some (removeSST disk (outputID j), inl (CompactFailed e))
  | Ok file =>
      let disk1 := db.flushTable disk (outputID j) file in
      match sstable.OpenReader file with
      | Panic => None
      | Err e => Some (removeSST disk1 (outputID j), inl (OpenFailed e))
      | Ok r => Some (disk1, inr r)
      end
  end.

(** One run with nothing in between. *)
Definition tryCompactOnce (d : db.DB) (disk : db.Disk) : option (db.DB * db.Disk * result) :=
  picked ← pickInputs d;
  match picked with
  | None => Some (d, disk, NothingToDo)
  | Some j =>
      '(disk1, r) ← mergeFiles disk j (db.computeWatermark d);
      match r with
      | inl res => Some (d, disk1, res)
      | inr r => install d disk1 j r
      end
  end.

(** [CompactForTesting], and the inner loop of [compactLoop]. *)
Fixpoint compactAll (fuel : nat) (d : db.DB) (disk : db.Disk) : option (db.DB * db.Disk * result) :=
  match fuel with
  | O => None
  | S fuel' =>
      '(d1, disk1, res) ← tryCompactOnce d disk;
      match res with
      | Ran => compactAll fuel' d1 disk1
      | _ => Some (d1, disk1, res)
      end
  end.

Definition CompactForTesting (d : db.DB) (disk : db.Disk) : option (db.DB * db.Disk * result) :=
  compactAll (S (length (db.sstables d))) d disk.

(** ** Lemmas: the heap *)

Lemma Less_spec a b :
  Less a b = true <-> encKey a <b encKey b \/ (encKey a = encKey b /\ (sourceIdx a < sourceIdx b)%nat).
Proof.
  unfold Less. destruct (blt_trichotomy (encKey a) (encKey b)) as [[H|H]|H].
  - rewrite H, bool_decide_true by done. tauto.
  - rewrite H, bcompare_refl, bool_decide_eq_true. pose proof (blt_irrefl (encKey b)). tauto.
  - pose proof H as H'. apply bcompare_gt in H'. rewrite H', bool_decide_false by done.
    split; [done|]. intros [H2|[H2 _]]; exfalso.
    + eapply blt_irrefl. by etrans.
    + rewrite H2 in H. by eapply blt_irrefl.
Qed.

Lemma Less_false a b :
  Less a b = false <-> encKey b <b encKey a \/ (encKey a = encKey b /\ (sourceIdx b <= sourceIdx a)%nat).
Proof.
  rewrite <- not_true_iff_false, Less_spec.
  destruct (blt_trichotomy (encKey a) (encKey b)) as [[H|H]|H].
  - split; [intros Hn; exfalso; tauto|]. intros [H2|[H2 _]] _; [|rewrite H2 in H; by eapply blt_irrefl].
    eapply blt_irrefl. by etrans.
  - rewrite H. pose proof (blt_irrefl (encKey b)). split; [|intros [?|[_ ?]] [?|[_ ?]]; (done || lia)].
    intros Hn. right. split; [done|]. apply Nat.le_ngt. intros ?. tauto.
  - split; [tauto|]. intros _ [H2|[H2 _]]; [|rewrite H2 in H; by eapply blt_irrefl].
    eapply blt_irrefl. by etrans.
Qed.

Lemma Less_asym a b : Less a b = true -> Less b a = false.
Proof. rewrite Less_spec, Less_false. intros [H|[H1 H2]]; [by left|right; split; [done|lia]]. Qed.

Lemma Less_negtrans a b c : Less b a = false -> Less c b = false -> Less c a = false.
Proof.
  rewrite !Less_false. intros [H1|[H1 L1]] [H2|[H2 L2]].
  - left. by etrans.
  - left. by rewrite H2.
  - left. by rewrite <- H1.
  - right. split; [congruence|lia].
Qed.

(** ** Lemmas: the merge loop against the merged streams *)

Abbreviation entry := (bytes * (byte * bytes))%type.

Definition kv (e : mergeEntry) : entry := (encKey e, (op e, value e)).

Definition kv_rec (x : record.Rec) : entry := (record.Key x, (record.Op x, record.Value x)).

Definition kvs (rs : list record.Rec) : list entry := kv_rec <$> rs.

(** The heap and the positions describe the streams [Rs]. *)
Record streams (sources : list (list mergeEntry)) (ps : list nat) (h : mergeHeap)
  (Rs : list (list entry)) : Prop := {
  st_ps : length ps = length sources;
  st_Rs : length Rs = length sources;
  st_nodup : NoDup (sourceIdx <$> h);
  st_bound : forall e, e ∈ h -> (sourceIdx e < length sources)%nat;
  st_own : forall i src e, sources !! i = Some src -> e ∈ src -> sourceIdx e = i;
  st_stream : forall i src p, sources !! i = Some src -> ps !! i = Some p ->
      (exists e, e ∈ h /\ sourceIdx e = i /\ Rs !! i = Some (kv e :: (kv <$> drop p src)))
      \/ ((forall e, e ∈ h -> sourceIdx e <> i) /\ Rs !! i = Some [] /\ drop p src = [])
}.

Lemma streams_pop sources ps h Rs e h1 src p :
  streams sources ps h Rs -> Pop h = Some (e, h1) ->
  sources !! sourceIdx e = Some src -> ps !! sourceIdx e = Some p ->
  pick Rs (sourceIdx e) (kv e) (kv <$> drop p src).
Proof.
  intros [Hps HRs Hnd Hb Hown Hst] Hpop Hsrc Hp.
  apply (heap_pop_spec Less Less_asym Less_negtrans) in Hpop as [Hperm Hmin].
  assert (e ∈ h) as He by (rewrite <- Hperm; apply elem_of_cons; auto).
  assert (forall e1 e2, e1 ∈ h -> e2 ∈ h -> sourceIdx e1 = sourceIdx e2 -> e1 = e2) as Hinj.
  { clear -Hnd. induction h as [|x h IH]; intros e1 e2 H1 H2 E; [by apply elem_of_nil in H1|].
    rewrite fmap_cons in Hnd. apply NoDup_cons in Hnd as [Hx Hnd].
    apply elem_of_cons in H1 as [->|H1]; apply elem_of_cons in H2 as [->|H2]; [done| | |by apply IH].
    - exfalso. apply Hx. rewrite E. by apply list_elem_of_fmap_2.
    - exfalso. apply Hx. rewrite <- E. by apply list_elem_of_fmap_2. }
  split.
  - destruct (Hst _ _ _ Hsrc Hp) as [(e' & He' & Hi & HR)|(Hno & _)]; [|by destruct (Hno e He)].
    assert (e' = e) as -> by (by apply Hinj). done.
  - intros j e' R' Hj.
    assert (j < length sources)%nat as Hjl by (rewrite <- HRs; by eapply lookup_lt_Some).
    destruct (lookup_lt_is_Some_2 sources j Hjl) as [srcj Hsj].
    destruct (lookup_lt_is_Some_2 ps j ltac:(lia)) as [pj Hpj].
    destruct (Hst _ _ _ Hsj Hpj) as [(x & Hx & <- & HR)|(_ & HR & _)]; [|congruence].
    rewrite Hj in HR. injection HR as -> _. cbn. specialize (Hmin _ Hx). apply Less_false in Hmin.
    destruct Hmin as [?|[? ?]]; [by left|right]. split; [done|lia].
Qed.

Lemma streams_rest sources ps h Rs e h1 src p :
  streams sources ps h Rs -> Pop h = Some (e, h1) ->
  sources !! sourceIdx e = Some src -> ps !! sourceIdx e = Some p ->
  let '(ps', h') := match src !! p with
                    | Some e' => (<[sourceIdx e := S p]> ps, Push h1 e')
                    | None => (ps, h1)
                    end in
  streams sources ps' h' (<[sourceIdx e := kv <$> drop p src]> Rs).
Proof.
  intros [Hps HRs Hnd Hb Hown Hst] Hpop Hsrc Hp.
  apply (heap_pop_spec Less Less_asym Less_negtrans) in Hpop as [Hperm _].
  rewrite <- Hperm in Hnd. rewrite fmap_cons in Hnd. apply NoDup_cons in Hnd as [Hne Hnd].
  assert (forall x, x ∈ h1 -> x ∈ h) as Hsub
    by (intros x Hx; rewrite <- Hperm; apply elem_of_cons; auto).
  assert (forall x, x ∈ h1 -> sourceIdx x <> sourceIdx e) as Hdiff.
  { intros x Hx E. apply Hne. rewrite <- E. by apply list_elem_of_fmap_2. }
  assert (sourceIdx e < length Rs)%nat as HeR by (rewrite HRs; by eapply lookup_lt_Some).
  assert (forall i src0 p0, i <> sourceIdx e -> sources !! i = Some src0 -> ps !! i = Some p0 ->
    (exists x, x ∈ h1 /\ sourceIdx x = i /\ Rs !! i = Some (kv x :: (kv <$> drop p0 src0)))
    \/ ((forall x, x ∈ h1 -> sourceIdx x <> i) /\ Rs !! i = Some [] /\ drop p0 src0 = [])) as Hother.
  { intros i src0 p0 Hi Hs0 Hp0. destruct (Hst _ _ _ Hs0 Hp0) as [(x & Hx & Hxi & HR)|(Hno & HR & Hd)].
    - left. exists x. split_and!; [|done..]. rewrite <- Hperm in Hx.
      apply elem_of_cons in Hx as [->|Hx]; [congruence|done].
    - right. split_and!; [|done..]. intros x Hx. by apply Hno, Hsub. }
  destruct (src !! p) as [e'|] eqn:Ep.
  - assert (sourceIdx e' = sourceIdx e) as He' by (apply (Hown _ src); [done|by eapply list_elem_of_lookup_2]).
    unfold Push, heap_push. split; rewrite ?length_insert; [done|done| | |done|].
    + rewrite fmap_app. apply NoDup_app. split_and!; [done| |apply NoDup_singleton].
      intros i Hi Hi'. apply list_elem_of_singleton in Hi'. subst i. cbn in Hi.
      apply list_elem_of_fmap in Hi as (x & Hxe & Hx). by apply (Hdiff x Hx); congruence.
    + intros x [Hx|Hx%list_elem_of_singleton]%elem_of_app; [by apply Hb, Hsub|]. subst x. rewrite He'.
      by eapply lookup_lt_Some.
    + intros i src0 p0 Hs0 Hp0. destruct (decide (i = sourceIdx e)) as [->|Hi].
      * rewrite list_lookup_insert_eq in Hp0 by (rewrite Hps; by eapply lookup_lt_Some).
        assert (src0 = src) as -> by congruence. injection Hp0 as <-.
        left. exists e'. split_and!; [apply elem_of_app; right; by apply list_elem_of_singleton|done|].
        rewrite list_lookup_insert_eq by done. by rewrite (drop_S src e' p) by done.
      * rewrite list_lookup_insert_ne in Hp0 by done. rewrite list_lookup_insert_ne by done.
        destruct (Hother i _ _ Hi Hs0 Hp0) as [(x & Hx & H)|(Hno & H)].
        -- left. exists x. split; [apply elem_of_app; auto|done].
        -- right. split; [|done]. intros x [Hx|Hx%list_elem_of_singleton]%elem_of_app; [by apply Hno|].
           subst x. by rewrite He'.
  - assert (drop p src = []) as Hd by (apply drop_ge; by apply lookup_ge_None in Ep).
    split; rewrite ?length_insert; [done|done|done|intros x Hx; by apply Hb, Hsub|done|].
    intros i src0 p0 Hs0 Hp0. destruct (decide (i = sourceIdx e)) as [->|Hi].
    + assert (src0 = src) as -> by congruence. assert (p0 = p) as -> by congruence. right.
      split_and!; [done| |done]. rewrite list_lookup_insert_eq by done. by rewrite Hd.
    + rewrite list_lookup_insert_ne by done. by apply Hother.
Qed.

Lemma streams_empty sources ps Rs : streams sources ps [] Rs -> Forall (fun R => R = []) Rs.
Proof.
  intros [Hps HRs _ _ _ Hst]. apply Forall_lookup. intros i R Hi.
  assert (i < length sources)%nat as Hl by (rewrite <- HRs; by eapply lookup_lt_Some).
  destruct (lookup_lt_is_Some_2 sources i Hl) as [src Hs].
  destruct (lookup_lt_is_Some_2 ps i ltac:(lia)) as [p Hp].
  destruct (Hst _ _ _ Hs Hp) as [(e & He & _)|(_ & HR & _)]; [by apply elem_of_nil in He|congruence].
Qed.

Definition total (Rs : list (list entry)) : nat := foldr (fun R n => (length R + n)%nat) 0%nat Rs.

Lemma total_cons R Rs : total (R :: Rs) = (length R + total Rs)%nat.
Proof. done. Qed.

Lemma total_insert Rs i e R :
  Rs !! i = Some (e :: R) -> total Rs = S (total (<[i := R]> Rs)).
Proof.
  revert i. induction Rs as [|R0 Rs IH]; intros [|i] Hi; cbn in Hi; [done..| |].
  - injection Hi as ->. cbn. lia.
  - change (<[S i := R]> (R0 :: Rs)) with (R0 :: <[i := R]> Rs).
    rewrite !total_cons, (IH _ Hi). lia.
Qed.

(** The garbage collection, as a function on the merged table. *)
Definition first_of_key (cur : option bytes) (userKey : bytes) : bool :=
  match cur with None => true | Some c => bool_decide (userKey <> c) end.

Definition next_key (cur : option bytes) (userKey : bytes) : option bytes :=
  if first_of_key cur userKey then append0 cur userKey else cur.

(** Dropped, and the timestamp remembered. *)
Definition gc_step (watermark : Z) (bottom first : bool) (prev ts : Z) (op : byte) : bool * Z :=
  if first && bottom && bool_decide (op = OpDelete) && bool_decide (ts <= watermark) then (true, ts)
  else if negb first && bottom && bool_decide (prev <= watermark) then (true, prev)
  else (false, ts).

Fixpoint gc (watermark : Z) (bottom : bool) (cur : option bytes) (prev : Z) (m : list entry) : list entry :=
  match m with
  | [] => []
  | (enc, (op, v)) :: m' =>
      let uk := UserKey enc in
      let '(dropped, ts) := gc_step watermark bottom (first_of_key cur uk) prev (Timestamp enc) op in
      (if dropped then [] else [(enc, (op, v))]) ++ gc watermark bottom (next_key cur uk) ts m'
  end.

Definition add_of (x : entry) : sstable.add :=
  sstable.MkAdd x.2.1 (UserKey x.1) x.2.2 (Timestamp x.1).

Definition enc_keys (Rs : list (list entry)) : Prop :=
  Forall (Forall (fun e => exists k t, is_u64 t /\ e.1 = Encode k t)) Rs.

(** The loop writes the garbage-collected merge, and ends. *)
Lemma mergeLoop_spec sources watermark bottom w' : forall fuel st Rs,
  streams sources (positions st) (heap st) Rs -> Forall sorted_keys Rs -> enc_keys Rs ->
  (forall l, lastEncKey st = Some l -> forall i e R, Rs !! i = Some (e :: R) -> l <=b e.1) ->
  (total Rs < fuel)%nat ->
  sstable.AddAll (writer st)
    (add_of <$> gc watermark bottom (currentUserKey st) (prevTS st) (emit (lastEncKey st) (merged Rs)))
  = Ok w' ->
  mergeLoop fuel sources watermark bottom st = Ok w'.
Proof.
  induction fuel as [|fuel IH]; intros st Rs Hst Hs Henc Hl Hf Hadd; [lia|]. cbn [mergeLoop].
  destruct (Pop (heap st)) as [[e h1]|] eqn:Ep.
  2: { apply heap_pop_None in Ep. rewrite Ep in Hst. apply streams_empty in Hst.
       rewrite (merged_nil Rs Hst), emit_nil in Hadd. cbn in Hadd. by injection Hadd as ->. }
  assert (e ∈ heap st) as He.
  { apply (heap_pop_spec Less Less_asym Less_negtrans) in Ep as [<- _]. apply elem_of_cons. auto. }
  pose proof (st_bound _ _ _ _ Hst e He) as Hb.
  destruct (lookup_lt_is_Some_2 sources _ Hb) as [src Hsrc]. rewrite Hsrc.
  destruct (lookup_lt_is_Some_2 (positions st) (sourceIdx e)) as [p Hp];
    [by rewrite (st_ps _ _ _ _ Hst)|]. rewrite Hp.
  pose proof (streams_pop _ _ _ _ _ _ _ _ Hst Ep Hsrc Hp) as Hpick.
  pose proof (streams_rest _ _ _ _ _ _ _ _ Hst Ep Hsrc Hp) as Hrest.
  destruct (match src !! p with Some e' => _ | None => _ end) as [ps h] eqn:Eps.
  pose proof Hpick as [Hi _].
  assert (forall l, lastEncKey st = Some l -> l <=b (kv e).1) as Hl1 by (intros l E; by eapply Hl).
  pose proof (emit_step Rs _ _ _ (lastEncKey st) Hs Hpick Hl1) as Hem. rewrite Hem in Hadd.
  pose proof (pick_rest_sorted _ _ _ _ Hs Hpick) as Hs'.
  pose proof (total_insert _ _ _ _ Hi) as Ht.
  set (Rs' := <[sourceIdx e := kv <$> drop p src]> Rs) in *.
  assert (enc_keys Rs') as Henc'.
  { apply Forall_insert; [done|]. unfold enc_keys in Henc. rewrite Forall_lookup in Henc.
    by specialize (Henc _ _ Hi) as [_ ?]%Forall_cons. }
  assert (forall l, Some (encKey e) = Some l -> forall i x R, Rs' !! i = Some (x :: R) -> l <=b x.1) as Hl'.
  { intros l [= <-] i x R Hx.
    assert (first_of Rs' x.1 <> None) as Hx1.
    { rewrite <- assoc_merged. intros E. assert (x ∈ x :: R) as Hin by (apply elem_of_cons; auto).
      clear -E Hx Hin. induction Rs' as [|R0 Rs0 IH] in i, E, Hx |- *; [done|].
      rewrite assoc_merged, first_of_cons in E. destruct i as [|i]; cbn in Hx.
      - injection Hx as ->. destruct x. cbn in E. by rewrite decide_True in E.
      - destruct (assoc x.1 R0); [done|]. rewrite <- assoc_merged in E. by apply (IH i). }
    destruct (decide (x.1 = encKey e)) as [->|Hne]; [apply ble_refl|].
    destruct (first_of Rs' x.1) as [v|] eqn:E; [|done].
    unfold Rs' in E. rewrite (pick_rest_first _ _ _ _ _ Hpick Hne) in E.
    exact (pick_least _ _ _ _ _ _ Hs Hpick E). }
  change (kv e).1 with (encKey e) in *.
  destruct (decide (lastEncKey st = Some (encKey e))) as [Hd|Hd].
  - apply (IH _ Rs'); cbn [positions heap lastEncKey currentUserKey prevTS writer];
      [done|done|done| |lia|by rewrite Hd in *]. intros l E. apply Hl'. congruence.
  - unfold enc_keys in Henc. rewrite Forall_lookup in Henc.
    specialize (Henc _ _ Hi) as [(k & t & Ht64 & Hk)%(id) _]%Forall_cons. cbn in Hk.
    rewrite Hk, (Decode_Encode k t Ht64). cbn [app gc kv fst snd] in Hadd.
    rewrite Hk, UserKey_Encode, (Timestamp_Encode k t Ht64) in Hadd.
    change (match currentUserKey st with None => true | Some c => bool_decide (k <> c) end)
      with (first_of_key (currentUserKey st) k).
    change (if first_of_key (currentUserKey st) k then append0 (currentUserKey st) k else currentUserKey st)
      with (next_key (currentUserKey st) k).
    unfold gc_step in Hadd. rewrite Hk in Hl'.
    destruct (first_of_key (currentUserKey st) k && bottom && bool_decide (op e = OpDelete)
              && bool_decide (t <= watermark)) eqn:E1.
    + apply (IH _ Rs'); cbn [positions heap lastEncKey currentUserKey prevTS writer]; by (auto || lia).
    + destruct (negb (first_of_key (currentUserKey st) k) && bottom
                && bool_decide (prevTS st <= watermark)) eqn:E2.
      * apply (IH _ Rs'); cbn [positions heap lastEncKey currentUserKey prevTS writer]; by (auto || lia).
      * cbn [app] in Hadd. rewrite fmap_cons in Hadd.
        change (sstable.AddAll (writer st) (?a :: ?l)) with
          (w1 ← sstable.Add (writer st) (sstable.a_op a) (sstable.a_key a) (sstable.a_value a) (sstable.a_ts a);
           sstable.AddAll w1 l) in Hadd.
        cbn [add_of fst snd sstable.a_op sstable.a_key sstable.a_value sstable.a_ts] in Hadd.
        rewrite UserKey_Encode, (Timestamp_Encode k t Ht64) in Hadd.
        destruct (sstable.Add (writer st) (op e) k (value e) t) as [w1| |]; [|done..].
        cbn [mbind outcome_bind] in Hadd.
        apply (IH _ Rs'); cbn [positions heap lastEncKey currentUserKey prevTS writer]; by (auto || lia).
Qed.

(** ** Lemmas: loading the sources *)

Definition entry_of (i : nat) (x : record.Rec) : mergeEntry :=
  MkMergeEntry (record.Key x) (record.Value x) (record.Op x) i.

Fixpoint sources_of (i : nat) (rss : list (list record.Rec)) : list (list mergeEntry) :=
  match rss with
  | [] => []
  | rs :: rss' => (entry_of i <$> rs) :: sources_of (S i) rss'
  end.

Lemma readSource_spec i r rs :
  sstable.rmodels r rs -> readSource i r = (entry_of i <$> rs, Ok tt).
Proof.
  intros Hr. unfold readSource. rewrite (sstable.sst_Iterate_spec _ r rs [] Hr). f_equal.
  set (fn := fun (op : byte) (encKey value : bytes) (src : list mergeEntry) =>
               (src ++ [MkMergeEntry encKey value op i], true)).
  enough (forall acc, (sstable.iter_recs fn rs acc).1 = acc ++ (entry_of i <$> rs)) as H by apply H.
  clear Hr. induction rs as [|x rs IH]; intros acc; [by rewrite app_nil_r|].
  cbn [sstable.iter_recs fn]. rewrite IH. by rewrite <- app_assoc.
Qed.

Lemma readSources_spec inputs rss : Forall2 sstable.rmodels inputs rss ->
  forall i, readSources i inputs = Ok (sources_of i rss).
Proof.
  induction 1 as [|r rs inputs rss Hr _ IH]; intros i; [done|]. cbn [readSources sources_of].
  by rewrite (readSource_spec i r rs Hr), IH.
Qed.

Lemma sources_of_lookup rss : forall i j src,
  sources_of i rss !! j = Some src <-> exists rs, rss !! j = Some rs /\ src = entry_of (i + j)%nat <$> rs.
Proof.
  induction rss as [|rs rss IH]; intros i [|j] src; cbn.
  - split; [done|]. by intros (? & ? & _).
  - split; [done|]. by intros (? & ? & _).
  - rewrite Nat.add_0_r. split; [intros [= <-]; eauto|]. by intros (? & [= <-] & ->).
  - rewrite IH. by rewrite Nat.add_succ_r.
Qed.

Lemma sources_of_kvs rss : forall i, (fun src => kv <$> src) <$> sources_of i rss = kvs <$> rss.
Proof.
  induction rss as [|rs rss IH]; intros i; [done|]. cbn [sources_of]. rewrite !fmap_cons, IH.
  f_equal. by rewrite <- list_fmap_compose.
Qed.

Lemma length_sources_of i rss : length (sources_of i rss) = length rss.
Proof. revert i. induction rss as [|rs rss IH]; intros i; cbn; auto. Qed.

(** The state of the initialisation loop before source [i]. *)
Record initialised (sources : list (list mergeEntry)) (i : nat) (ps : list nat) (h : mergeHeap) : Prop := {
  in_ps : length ps = length sources;
  in_nodup : NoDup (sourceIdx <$> h);
  in_bound : forall e, e ∈ h -> (sourceIdx e < i)%nat;
  in_todo : forall j, (i <= j < length sources)%nat -> ps !! j = Some 0%nat;
  in_done : forall j src p, (j < i)%nat -> sources !! j = Some src -> ps !! j = Some p ->
      (exists e, e ∈ h /\ sourceIdx e = j /\ src = e :: drop p src)
      \/ (src = [] /\ forall e, e ∈ h -> sourceIdx e <> j)
}.

Lemma initHeap_spec sources todo : forall i ps h,
  drop i sources = todo -> (i + length todo = length sources)%nat ->
  (forall j src e, sources !! j = Some src -> e ∈ src -> sourceIdx e = j) ->
  initialised sources i ps h ->
  let '(ps', h') := initHeap i todo ps h in initialised sources (length sources) ps' h'.
Proof.
  induction todo as [|src todo IH]; intros i ps h Hd Hl Hown [Hps Hnd Hb Ht Hdn]; cbn [initHeap].
  - cbn in Hl. rewrite Nat.add_0_r in Hl. by rewrite <- Hl.
  - cbn in Hl. assert (sources !! i = Some src) as Hi by (rewrite <- (Nat.add_0_r i), <- lookup_drop, Hd; done).
    assert (drop (S i) sources = todo) as Hd'.
    { rewrite <- Nat.add_1_r, <- drop_drop, Hd. done. }
    destruct src as [|e src]; apply IH; try done; try lia.
    + split; [done|done|intros e He; specialize (Hb e He); lia|intros j Hj; apply Ht; lia|].
      intros j s p Hj Hs Hp. destruct (decide (j = i)) as [->|Hne].
      { right. split; [congruence|]. intros e He. specialize (Hb e He). lia. }
      apply (Hdn j s p); [lia|done..].
    + assert (sourceIdx e = i) as He by (apply (Hown _ _ _ Hi), elem_of_cons; auto).
      unfold Push, heap_push. split.
      * by rewrite length_insert.
      * rewrite fmap_app. apply NoDup_app. split_and!; [done| |apply NoDup_singleton].
        intros j Hj Hj'. apply list_elem_of_singleton in Hj'. subst j.
        apply list_elem_of_fmap in Hj as (x & Hxe & Hx). specialize (Hb x Hx). lia.
      * intros x [Hx|Hx%list_elem_of_singleton]%elem_of_app; [specialize (Hb x Hx); lia|]. subst x. lia.
      * intros j Hj. rewrite list_lookup_insert_ne by lia. apply Ht. lia.
      * intros j s p Hj Hs Hp. destruct (decide (j = i)) as [->|Hne].
        -- assert (s = e :: src) as -> by congruence.
           rewrite list_lookup_insert_eq in Hp by (rewrite Hps; by eapply lookup_lt_Some).
           injection Hp as <-. left. exists e. split_and!; [|done|done].
           apply elem_of_app. right. by apply list_elem_of_singleton.
        -- rewrite list_lookup_insert_ne in Hp by done.
           destruct (Hdn j s p ltac:(lia) Hs Hp) as [(x & Hx & H)|[-> Hno]].
           ++ left. exists x. split; [apply elem_of_app; auto|done].
           ++ right. split; [done|]. intros x [Hx|Hx%list_elem_of_singleton]%elem_of_app; [by apply Hno|].
              subst x. lia.
Qed.

Lemma initHeap_streams rss :
  let sources := sources_of 0 rss in
  let '(ps, h) := initHeap 0 sources (replicate (length sources) 0%nat) [] in
  streams sources ps h (kvs <$> rss).
Proof.
  cbv zeta. set (sources := sources_of 0 rss).
  assert (forall j src e, sources !! j = Some src -> e ∈ src -> sourceIdx e = j) as Hown.
  { intros j src e Hj He. apply sources_of_lookup in Hj as (rs & _ & ->).
    by apply list_elem_of_fmap in He as (x & -> & _). }
  pose proof (initHeap_spec sources sources 0 (replicate (length sources) 0%nat) []
                (drop_0 _) eq_refl Hown) as H.
  destruct (initHeap 0 sources (replicate (length sources) 0%nat) []) as [ps h].
  destruct H as [Hps Hnd Hb Ht Hdn].
  { split; [by rewrite length_replicate|constructor|intros e He; by apply elem_of_nil in He| |lia].
    intros j Hj. apply lookup_replicate_2. lia. }
  split; [done| |done|done|done|].
  - unfold sources. by rewrite length_fmap, length_sources_of.
  - intros i src p Hi Hp. rewrite <- (sources_of_kvs rss 0). fold sources.
    rewrite list_lookup_fmap, Hi. cbn [fmap option_fmap option_map].
    destruct (Hdn i src p (lookup_lt_Some _ _ _ Hi) Hi Hp) as [(e & He & Hei & Hsrc)|[-> Hno]].
    + left. exists e. split_and!; [done..|]. rewrite Hsrc at 1. done.
    + right. split_and!; [done|done|by rewrite drop_nil].
Qed.

(** ** Lemmas: what the garbage collection keeps *)

Lemma gc_not_bottom watermark m : forall cur prev, gc watermark false cur prev m = m.
Proof.
  induction m as [|[enc [op v]] m IH]; intros cur prev; [done|]. cbn [gc]. unfold gc_step.
  rewrite !andb_false_r. cbn. by rewrite IH.
Qed.

Lemma gc_sublist watermark bottom m : forall cur prev, sublist (gc watermark bottom cur prev m) m.
Proof.
  induction m as [|[enc [op v]] m IH]; intros cur prev; [constructor|]. cbn [gc].
  destruct (gc_step _ _ _ _ _ _) as [[] ts]; cbn [app]; constructor; apply IH.
Qed.

(** [m] is the table of the versions [V]. *)
Record tabulates (V : vmap) (m : list entry) : Prop := {
  tb_sorted : sorted_keys m;
  tb_elem : forall k t ov, is_u64 t -> (Encode k t, ov) ∈ m <-> V !! (k, t) = Some ov;
  tb_shape : forall e, e ∈ m -> exists k t, is_u64 t /\ e.1 = Encode k t;
  tb_u64 : u64_map V
}.

(** With [bottom], a version survives when every newer version of its key is
    above the watermark, unless it is the newest of all and a tombstone at or
    below the watermark. *)
Definition gc_keeps (V : vmap) (watermark : Z) (bottom : bool) (k : bytes) (t : Z) (op : byte) : Prop :=
  bottom = true ->
  (forall t', is_Some (V !! (k, t')) -> t < t' -> watermark < t')
  /\ ~ (op = OpDelete /\ t <= watermark /\ forall t', is_Some (V !! (k, t')) -> t' <= t).

Section gc.
Variables (watermark : Z) (V : vmap) (m : list entry).
Hypothesis Htab : tabulates V m.
Hypothesis Hsmall : forall k t, is_Some (V !! (k, t)) -> small_ts t.
Hypothesis Hclus : forall k t, is_Some (V !! (k, t)) -> clustered_at V k.
Hypothesis Hne : forall k t, is_Some (V !! (k, t)) -> k <> [].

(** The versions of [k] already seen. *)
Definition seen (m1 : list entry) (k : bytes) (t : Z) : Prop := exists ov, (Encode k t, ov) ∈ m1.

Definition gc_state (m1 : list entry) (cur : option bytes) (prev : Z) : Prop :=
  match last m1 with
  | None => cur = None
  | Some l => exists k t, is_u64 t /\ l.1 = Encode k t /\ cur = Some k
      /\ (prev <= watermark <-> exists t', is_u64 t' /\ seen m1 k t' /\ t' <= watermark)
  end.

Lemma before_is_newer m1 k t ov m2 t' :
  m = m1 ++ (Encode k t, ov) :: m2 -> is_u64 t -> is_u64 t' ->
  seen m1 k t' <-> is_Some (V !! (k, t')) /\ t < t'.
Proof.
  intros -> Ht Ht'. pose proof (tb_sorted _ _ Htab) as Hs. apply sorted_keys_app in Hs as (_ & Hs2 & Hlt).
  apply sorted_keys_cons in Hs2 as [Hgt _]. split.
  - intros [ov' Hin]. split.
    + exists ov'. apply (tb_elem _ _ Htab); [done|]. apply elem_of_app. auto.
    + pose proof (Hlt _ (Encode k t, ov) Hin ltac:(apply elem_of_cons; auto)) as H. cbn in H.
      by apply blt_Encode_same in H.
  - intros [[ov' HV] Hlt']. apply (tb_elem _ _ Htab) in HV; [|done].
    apply (blt_Encode_same k t' t) in Hlt'; [|done..]. apply elem_of_app in HV as [H|H]; [by exists ov'|].
    exfalso. apply elem_of_cons in H as [[= E _]|H].
    + rewrite E in Hlt'. by apply blt_irrefl in Hlt'.
    + rewrite Forall_forall in Hgt. specialize (Hgt _ H). cbn in Hgt.
      eapply blt_irrefl. by etrans.
Qed.

(** Versions of one key are contiguous. *)
Lemma seen_last m1 l k t ov m2 t' :
  m = (m1 ++ [l]) ++ (Encode k t, ov) :: m2 -> is_u64 t -> is_u64 t' -> seen (m1 ++ [l]) k t' ->
  UserKey l.1 = k.
Proof.
  intros E Ht Ht' Hsn. pose proof (before_is_newer _ _ _ _ _ _ E Ht Ht') as Hn.
  apply Hn in Hsn as Hn'. destruct Hn' as [HV Hlt]. destruct Hsn as [ov' Hin].
  assert (l ∈ m) as Hl by (rewrite E, !elem_of_app, list_elem_of_singleton; auto).
  destruct (tb_shape _ _ Htab l Hl) as (k0 & t0 & Ht0 & El). rewrite El, UserKey_Encode.
  assert (is_Some (V !! (k0, t0))) as HV0.
  { exists l.2. apply (tb_elem _ _ Htab); [done|]. rewrite <- El. by destruct l. }
  assert (is_Some (V !! (k, t))) as HVt.
  { exists ov. apply (tb_elem _ _ Htab); [done|]. rewrite E. apply elem_of_app. right.
    apply elem_of_cons. auto. }
  pose proof (tb_sorted _ _ Htab) as Hs. rewrite E in Hs. apply sorted_keys_app in Hs as (Hs1 & _ & Hlt2).
  apply (Hclus k t' HV k0 t0 t' t HV0 HVt).
  - apply (Hsmall k t' HV).
  - apply (Hsmall k t' HV).
  - rewrite <- El. apply sorted_keys_app in Hs1 as (_ & _ & Hlt1).
    apply elem_of_app in Hin as [Hin|Hin%list_elem_of_singleton].
    + apply blt_ble, (Hlt1 _ l Hin). by apply list_elem_of_singleton.
    + rewrite <- Hin. apply ble_refl.
  - rewrite <- El. apply blt_ble, (Hlt2 l (Encode k t, ov)); [|apply elem_of_cons; auto].
    apply elem_of_app. right. by apply list_elem_of_singleton.
Qed.

Lemma first_of_key_spec m1 cur prev k t ov m2 :
  m = m1 ++ (Encode k t, ov) :: m2 -> is_u64 t -> gc_state m1 cur prev ->
  if first_of_key cur k then forall t', is_u64 t' -> ~ seen m1 k t'
  else (exists t', is_u64 t' /\ seen m1 k t')
       /\ (prev <= watermark <-> exists t', is_u64 t' /\ seen m1 k t' /\ t' <= watermark).
Proof.
  intros E Ht Hst. unfold gc_state in Hst. destruct (last m1) as [l|] eqn:El.
  - apply last_Some in El as [m0 ->]. destruct Hst as (k0 & t0 & Ht0 & El & -> & Hprev). cbn.
    case_bool_decide as Hk.
    2: { subst k0. split; [|done]. exists t0. split; [done|]. exists l.2.
         rewrite <- El. apply elem_of_app. right. apply list_elem_of_singleton. by destruct l. }
    intros t' Ht' Hsn. apply Hk. rewrite <- (seen_last _ _ _ _ _ _ _ E Ht Ht' Hsn), El.
    by rewrite UserKey_Encode.
  - subst cur. apply last_None in El as ->. intros t' _ [ov' H]. by apply elem_of_nil in H.
Qed.

Lemma gc_bottom_elem m2 : forall m1 cur prev x,
  m = m1 ++ m2 -> gc_state m1 cur prev ->
  x ∈ gc watermark true cur prev m2 <->
  x ∈ m2 /\ gc_keeps V watermark true (UserKey x.1) (Timestamp x.1) x.2.1.
Proof.
  induction m2 as [|[enc [op v]] m2 IH]; intros m1 cur prev x E Hst.
  { cbn. rewrite elem_of_nil. tauto. }
  assert ((enc, (op, v)) ∈ m) as Hin by (rewrite E, elem_of_app, elem_of_cons; auto).
  destruct (tb_shape _ _ Htab _ Hin) as (k & t & Ht & Ek). cbn in Ek. subst enc.
  cbn [gc]. rewrite UserKey_Encode, (Timestamp_Encode k t Ht).
  pose proof (first_of_key_spec _ _ _ _ _ _ _ E Ht Hst) as Hfirst.
  pose proof (fun t' Ht' => before_is_newer _ _ _ _ _ t' E Ht Ht') as Hnewer.
  assert (V !! (k, t) = Some (op, v)) as HV by (by apply (tb_elem _ _ Htab)).
  assert (k <> []) as Hk by (by apply (Hne k t)).
  assert (E' : m = (m1 ++ [(Encode k t, (op, v))]) ++ m2) by (by rewrite <- app_assoc).
  assert (next_key cur k = Some k) as Hnk.
  { unfold next_key, first_of_key, append0. destruct cur as [c|]; [case_bool_decide as Hd|]; [done| |by destruct k].
    by subst c. }
  assert (forall prev' : Z,
    (prev' <= watermark <-> t <= watermark \/ exists t', is_u64 t' /\ seen m1 k t' /\ t' <= watermark) ->
    gc_state (m1 ++ [(Encode k t, (op, v))]) (next_key cur k) prev') as Hst'.
  { intros prev' Hp. unfold gc_state. rewrite last_snoc. exists k, t. split_and!; [done..|]. rewrite Hp.
    split.
    - intros [H|(t' & Ht' & [ov' Hs] & Hw)].
      + exists t. split_and!; [done| |done]. exists (op, v). apply elem_of_app. right. by apply list_elem_of_singleton.
      + exists t'. split_and!; [done| |done]. exists ov'. apply elem_of_app. by left.
    - intros (t' & Ht' & [ov' [Hs|Hs%list_elem_of_singleton]%elem_of_app] & Hw).
      + right. exists t'. split_and!; [done| |done]. by exists ov'.
      + left. injection Hs as Hs _. apply Encode_inj in Hs as [_ ->]; done. }
  assert (forall dropped prev',
    gc_step watermark true (first_of_key cur k) prev t op = (dropped, prev') ->
    (if dropped then ~ gc_keeps V watermark true k t op else gc_keeps V watermark true k t op)
    /\ (prev' <= watermark <-> t <= watermark \/ exists t', is_u64 t' /\ seen m1 k t' /\ t' <= watermark))
    as Hstep.
  { intros dropped prev'. unfold gc_step, gc_keeps. destruct (first_of_key cur k); cbn [negb andb].
    - assert (forall t', is_Some (V !! (k, t')) -> t' <= t) as Hnew.
      { intros t' HV'. apply Z.nlt_ge. intros Hlt.
        assert (is_u64 t') as Ht' by (by apply (tb_u64 _ _ Htab k)).
        apply (Hfirst t' Ht'). by apply Hnewer. }
      destruct (bool_decide (op = OpDelete) && bool_decide (t <= watermark)) eqn:Ed; intros [= <- <-].
      + apply andb_true_iff in Ed as [Ho%bool_decide_eq_true Hw%bool_decide_eq_true]. split.
        * intros H. by apply (proj2 (H eq_refl)).
        * tauto.
      + apply andb_false_iff in Ed. rewrite !bool_decide_eq_false in Ed. split.
        * intros _. split; [|tauto]. intros t' HV' Hlt. specialize (Hnew t' HV'). lia.
        * split; [tauto|]. intros [?|(t' & Ht' & Hs & _)]; [done|]. by destruct (Hfirst t' Ht').
    - destruct Hfirst as [(t1 & Ht1 & Hs1) Hfirst]. case_bool_decide as Hw; intros [= <- <-].
      + split; [|tauto]. apply Hfirst in Hw as (t' & Ht' & Hs & Hw'). apply Hnewer in Hs; [|done].
        intros H. specialize (proj1 (H eq_refl) t' (proj1 Hs) (proj2 Hs)). lia.
      + assert (forall t', is_u64 t' -> seen m1 k t' -> watermark < t') as Habove.
        { intros t' Ht' Hs. apply Z.nle_gt. intros Hle. apply Hw, Hfirst. eauto. }
        split.
        * intros _. split.
          -- intros t' HV' Hlt. assert (is_u64 t') as Ht' by (by apply (tb_u64 _ _ Htab k)).
             by apply Habove, Hnewer.
          -- intros (_ & _ & Hnew). apply Hnewer in Hs1 as [HV1 Hlt1]; [|done].
             specialize (Hnew _ HV1). lia.
        * split; [tauto|]. intros [?|(t' & Ht' & Hs & Hle)]; [done|]. specialize (Habove t' Ht' Hs). lia. }
  destruct (gc_step _ _ _ _ _ _) as [dropped prev'] eqn:Eg.
  destruct (Hstep _ _ eq_refl) as [Hkeep Hprev]. specialize (IH _ _ _ x E' (Hst' _ Hprev)).
  rewrite elem_of_app, IH, elem_of_cons. destruct dropped.
  - rewrite elem_of_nil. split; [tauto|]. intros [[->|Hx] Hq]; [|tauto]. exfalso. apply Hkeep.
    cbn [fst snd] in Hq. by rewrite UserKey_Encode, (Timestamp_Encode k t Ht) in Hq.
  - rewrite list_elem_of_singleton. split; [|tauto]. intros [->|?]; [|tauto]. split; [auto|].
    cbn [fst snd]. by rewrite UserKey_Encode, (Timestamp_Encode k t Ht).
Qed.

End gc.

(** ** Lemmas: whole tables *)

Definition rec_of_entry (x : entry) : record.Rec :=
  record.MkRec x.2.1 (Timestamp x.1) x.1 x.2.2.

Definition encoded (x : entry) : Prop := exists k t, is_u64 t /\ x.1 = Encode k t.

Lemma rec_of_entry_kv a : is_u64 (sstable.a_ts a) ->
  rec_of_entry (kv_rec (sstable.rec_of a)) = sstable.rec_of a.
Proof. intros Ht. unfold rec_of_entry, sstable.rec_of. cbn. by rewrite Timestamp_Encode. Qed.

Lemma rec_of_add_of x : encoded x -> sstable.rec_of (add_of x) = rec_of_entry x.
Proof.
  intros (k & t & Ht & E). unfold sstable.rec_of, add_of, rec_of_entry. cbn.
  by rewrite E, UserKey_Encode, (Timestamp_Encode k t Ht).
Qed.

Lemma recs_of_add_of m : Forall encoded m -> sstable.recs_of (add_of <$> m) = rec_of_entry <$> m.
Proof.
  induction 1 as [|x m Hx _ IH]; [done|]. unfold sstable.recs_of in *. rewrite !fmap_cons, IH.
  by rewrite rec_of_add_of.
Qed.

Lemma kvs_rec_of_entry m : kvs (rec_of_entry <$> m) = m.
Proof.
  unfold kvs. rewrite <- list_fmap_compose. rewrite <- (list_fmap_id m) at 2.
  apply list_fmap_ext. by intros _ [enc [o v]] _.
Qed.

Lemma elem_of_kvs enc op v rs :
  (enc, (op, v)) ∈ kvs rs <-> (enc, op :: v) ∈ sstable.table_of rs.
Proof.
  unfold kvs, sstable.table_of, kv_rec. rewrite !list_elem_of_fmap. split.
  - intros (x & E & Hx). exists x. split; [|done]. congruence.
  - intros (x & E & Hx). exists x. split; [|done]. congruence.
Qed.

Lemma kvs_keys rs : (kvs rs).*1 = (sstable.table_of rs).*1.
Proof. unfold kvs, sstable.table_of. rewrite <- !list_fmap_compose. done. Qed.

Lemma versions_tabulates adds :
  sstable.adds_ok adds -> tabulates (sstable.versions adds) (kvs (sstable.recs_of adds)).
Proof.
  intros Hok. destruct (sstable.versions_encodes adds Hok) as [Hs Hu He Hsh]. split.
  - unfold sorted_keys in *. by rewrite kvs_keys.
  - intros k t [op v] Ht. rewrite elem_of_kvs. by apply He.
  - intros [enc [op v]] Hin. apply elem_of_kvs in Hin. destruct (Hsh _ Hin) as (k & t & op' & v' & Ht & [= -> _]).
    exists k, t. done.
  - exact Hu.
Qed.

Lemma tabulates_assoc V m k t : tabulates V m -> is_u64 t -> assoc (Encode k t) m = V !! (k, t).
Proof.
  intros [Hs He _ _] Ht. apply option_eq. intros ov. rewrite assoc_elem_of by done. by apply He.
Qed.

(** The merge of the layers' tables is the table of their union. *)
Lemma stack_tabulates Vs Ms : Forall2 tabulates Vs Ms -> tabulates (stack Vs) (merged Ms).
Proof.
  intros HVs.
  assert (forall k t, is_u64 t -> first_of Ms (Encode k t) = stack Vs !! (k, t)) as Hf.
  { intros k t Ht. induction HVs as [|V m Vs Ms HV _ IH]; [done|].
    rewrite first_of_cons, IH, stack_cons, (tabulates_assoc _ _ k t HV Ht), lookup_union.
    destruct (V !! (k, t)) as [x|]; cbn; by destruct (stack Vs !! (k, t)). }
  split.
  - apply merged_sorted.
  - intros k t ov Ht. rewrite elem_of_merged. cbn. by rewrite Hf.
  - intros [enc ov] Hin. apply elem_of_merged in Hin. apply first_of_Some in Hin as (i & R & Hi & HR & _).
    cbn in HR. destruct (Forall2_lookup_r _ _ _ _ _ HVs Hi) as (V & _ & HV).
    apply assoc_elem_of in HR; [|apply HV]. by apply (tb_shape _ _ HV) in HR.
  - clear Hf. induction HVs as [|V m Vs Ms HV _ IH]; [by intros k t [? ?]|].
    intros k t [H|H]%union_dom; [by apply (tb_u64 _ _ HV k t)|by apply (IH k t)].
Qed.

Lemma layered_tabulates tables : Forall sstable.adds_ok tables ->
  tabulates (layered tables) (merged ((fun adds => kvs (sstable.recs_of adds)) <$> tables)).
Proof.
  intros Hok. apply stack_tabulates. apply Forall2_fmap, Forall_Forall2_diag.
  eapply Forall_impl; [exact Hok|]. intros a. apply versions_tabulates.
Qed.

Lemma len_encs_wsum m :
  len (record.encs (rec_of_entry <$> m)) = wsum (fun x => len (record.Encode (rec_of_entry x))) m.
Proof.
  induction m as [|x m IH]; [done|]. rewrite fmap_cons, record.encs_cons, len_app, wsum_cons. by rewrite IH.
Qed.

Lemma recs_of_kvs adds : sstable.adds_ok adds ->
  rec_of_entry <$> kvs (sstable.recs_of adds) = sstable.recs_of adds.
Proof.
  intros (Hwf & _ & _). unfold kvs, sstable.recs_of. rewrite <- !list_fmap_compose.
  apply list_fmap_ext. intros i a Ha. rewrite Forall_lookup in Hwf. specialize (Hwf _ _ Ha).
  destruct Hwf as (_ & Ht & _). by apply rec_of_entry_kv.
Qed.

Definition table_size (adds : list sstable.add) : Z := len (record.encs (sstable.recs_of adds)).

(** The merge is no larger than its inputs. *)
Lemma gc_size tables watermark bottom :
  Forall sstable.adds_ok tables ->
  table_size (add_of <$> gc watermark bottom None 0
                (merged ((fun adds => kvs (sstable.recs_of adds)) <$> tables)))
  <= foldr (fun a s => table_size a + s) 0 tables.
Proof.
  intros Hok. set (m := merged _). unfold table_size at 1.
  pose proof (layered_tabulates tables Hok) as [_ _ Hsh _]. fold m in Hsh.
  pose proof (gc_sublist watermark bottom m None 0) as Hsub.
  assert (Forall encoded (gc watermark bottom None 0 m)) as Henc.
  { apply Forall_forall. intros x Hx. apply Hsh. by apply (elem_of_sublist _ _ _ Hx Hsub). }
  rewrite (recs_of_add_of _ Henc), len_encs_wsum.
  set (f := fun x => len (record.Encode (rec_of_entry x))).
  assert (forall x, 0 <= f x) as Hf by (intros x; apply len_nonneg).
  etransitivity; [by apply (wsum_sublist f _ m)|]. etransitivity; [by apply (wsum_merged f)|].
  clear -Hok. induction Hok as [|adds tables Ha _ IH]; [done|].
  rewrite fmap_cons. cbn [foldr]. apply Z.add_le_mono; [|exact IH].
  rewrite <- len_encs_wsum, (recs_of_kvs adds Ha). done.
Qed.

(** What a merge writes is a table again. *)
Lemma gc_adds_ok tables watermark bottom :
  Forall sstable.adds_ok tables -> foldr (fun a s => table_size a + s) 0 tables < 2 ^ 60 ->
  let m := merged ((fun adds => kvs (sstable.recs_of adds)) <$> tables) in
  let adds := add_of <$> gc watermark bottom None 0 m in
  sstable.adds_ok adds /\ kvs (sstable.recs_of adds) = gc watermark bottom None 0 m.
Proof.
  intros Hok Hsz. cbv zeta. set (m := merged _).
  pose proof (layered_tabulates tables Hok) as [Hs _ Hsh _]. fold m in Hs, Hsh.
  pose proof (gc_sublist watermark bottom m None 0) as Hsub.
  assert (Forall encoded (gc watermark bottom None 0 m)) as Henc.
  { apply Forall_forall. intros x Hx. apply Hsh. by apply (elem_of_sublist _ _ _ Hx Hsub). }
  rewrite (recs_of_add_of _ Henc), kvs_rec_of_entry. split; [|done]. split_and!.
  - enough (Forall record.wf (sstable.recs_of (add_of <$> gc watermark bottom None 0 m))) as H
      by (unfold sstable.recs_of in H; by rewrite Forall_fmap in H).
    rewrite (recs_of_add_of _ Henc), Forall_fmap. apply Forall_forall. intros x Hx.
    apply (elem_of_sublist _ _ _ Hx) in Hsub. apply elem_of_merged in Hsub.
    apply first_of_Some in Hsub as (i & R & Hi & HR & _). rewrite list_lookup_fmap in Hi.
    destruct (tables !! i) as [adds|] eqn:E; [|done]. injection Hi as <-.
    rewrite Forall_lookup in Hok. specialize (Hok _ _ E). pose proof Hok as (Hwf & _).
    apply assoc_elem_of in HR; [|apply (versions_tabulates adds Hok)].
    assert (x ∈ kvs (sstable.recs_of adds)) as Hx' by (by destruct x).
    apply (list_elem_of_fmap_2 rec_of_entry) in Hx'. rewrite (recs_of_kvs adds Hok) in Hx'.
    unfold sstable.recs_of in Hx'. apply list_elem_of_fmap in Hx' as (a & Ea & Ha).
    cbn. rewrite Ea. rewrite Forall_forall in Hwf. by apply Hwf.
  - rewrite (recs_of_add_of _ Henc). unfold sstable.sorted_recs, sorted_keys.
    rewrite <- kvs_keys, kvs_rec_of_entry. by apply (sorted_keys_sublist _ m).
  - eapply Z.le_lt_trans; [|exact Hsz]. by apply gc_size.
Qed.

Lemma total_sources rss : forall i, totalRecords (sources_of i rss) = total (kvs <$> rss).
Proof.
  induction rss as [|rs rss IH]; intros i; [done|]. cbn [sources_of].
  change (totalRecords (?a :: ?l)) with (length a + totalRecords l)%nat.
  rewrite fmap_cons, total_cons, IH. unfold kvs. by rewrite !length_fmap.
Qed.

Lemma mergedApplied_u64 inputs : forall m, is_u64 m -> Forall (fun r => is_u64 (sstable.AppliedIndex r)) inputs ->
  is_u64 (foldl (fun m r => if decide (sstable.AppliedIndex r > m) then sstable.AppliedIndex r else m) m inputs).
Proof.
  induction inputs as [|r inputs IH]; intros m Hm Hr; [done|]. apply Forall_cons in Hr as [? ?].
  cbn. apply IH; [by case_decide|done].
Qed.

(** The run of a compaction over good tables: it succeeds, and the output opens
    as the garbage-collected merge. *)
Lemma compactSSTables_run inputs tables watermark bottom :
  Forall2 table_ok inputs tables -> Forall (fun r => is_u64 (sstable.AppliedIndex r)) inputs ->
  foldr (fun a s => table_size a + s) 0 tables < 2 ^ 60 ->
  let adds := add_of <$> gc watermark bottom None 0
                (merged ((fun adds => kvs (sstable.recs_of adds)) <$> tables)) in
  exists file r, compactSSTables inputs watermark bottom = Ok file
    /\ sstable.OpenReader file = Ok r /\ table_ok r adds
    /\ sstable.MaxTimestamp r = sstable.max_ts adds /\ sstable.AppliedIndex r = mergedApplied inputs.
Proof.
  intros Htabs Hai Hsz adds.
  assert (Forall sstable.adds_ok tables) as Hok by (clear -Htabs; induction Htabs as [|? ? ? ? [? _]]; auto).
  destruct (gc_adds_ok tables watermark bottom Hok Hsz) as [Hadds Hkvs]. fold adds in Hadds, Hkvs.
  assert (Forall2 sstable.rmodels inputs (sstable.recs_of <$> tables)) as Hrs.
  { clear -Htabs. induction Htabs as [|? ? ? ? [_ ?]]; [constructor|]. rewrite fmap_cons. by constructor. }
  pose proof (mergedApplied_u64 inputs 0 ltac:(unfold is_u64; lia) Hai) as Hma.
  unfold compactSSTables. rewrite (readSources_spec inputs _ Hrs 0). cbn [mbind outcome_bind].
  set (rss := sstable.recs_of <$> tables) in *. set (sources := sources_of 0 rss).
  pose proof (initHeap_streams rss) as Hinit. cbv zeta in Hinit. fold sources in Hinit.
  destruct (initHeap 0 sources _ []) as [ps h].
  set (n := Z.of_nat (totalRecords sources)).
  destruct (sstable.AddAll_models adds _ [] (sstable.NewWriter_models n (mergedApplied inputs)) Hadds)
    as (w & Ew & Hw & Hwa). cbn [app] in Hw.
  assert (kvs <$> rss = (fun adds => kvs (sstable.recs_of adds)) <$> tables) as Ekvs
    by (unfold rss; by rewrite <- list_fmap_compose).
  assert (Forall sorted_keys (kvs <$> rss)) as Hsort.
  { rewrite Ekvs, Forall_fmap. eapply Forall_impl; [exact Hok|]. intros a Ha.
    apply (versions_tabulates a Ha). }
  rewrite (mergeLoop_spec sources watermark bottom w _ _ (kvs <$> rss)); cbn [positions heap lastEncKey
    currentUserKey prevTS writer]; [|exact Hinit|exact Hsort| |done| |].
  - destruct Hadds as (Hwf & Hs & Hlt).
    destruct (sstable.Finish_Open w adds Hw Hwf Hs Hlt ltac:(by rewrite Hwa))
      as (w' & file & r & Ef & _ & _ & Er & Hr & Hm & Ha).
    exists file, r. cbn [mbind outcome_bind]. rewrite Ef. split_and!; [done|done|done|done|].
    rewrite Ha. exact Hwa.
  - unfold enc_keys. rewrite Ekvs, Forall_fmap. eapply Forall_impl; [exact Hok|]. intros a Ha. cbn.
    apply Forall_forall. apply (versions_tabulates a Ha).
  - unfold sources. rewrite total_sources. lia.
  - rewrite emit_None, Ekvs. exact Ew.
Qed.

(** The conditions on the stored keys: text keys or no key a proper prefix of
    another, timestamps below 2^56, and no empty key. *)
Definition keys_ok (V : vmap) : Prop :=
  (text_map V \/ prefix_free V) /\ small_map V /\ forall k t, is_Some (V !! (k, t)) -> k <> [].

(** The versions of the output. *)
Lemma gc_versions tables watermark bottom :
  Forall sstable.adds_ok tables -> foldr (fun a s => table_size a + s) 0 tables < 2 ^ 60 ->
  keys_ok (layered tables) ->
  let adds := add_of <$> gc watermark bottom None 0
                (merged ((fun adds => kvs (sstable.recs_of adds)) <$> tables)) in
  forall k t op v, sstable.versions adds !! (k, t) = Some (op, v)
    <-> layered tables !! (k, t) = Some (op, v) /\ gc_keeps (layered tables) watermark bottom k t op.
Proof.
  intros Hok Hsz (Hpf & Hsm & Hne) adds k t op v.
  destruct (gc_adds_ok tables watermark bottom Hok Hsz) as [Hadds Hkvs]. fold adds in Hadds, Hkvs.
  pose proof (layered_tabulates tables Hok) as Htab. set (m := merged _) in *. set (V := layered tables) in *.
  pose proof (versions_tabulates adds Hadds) as Htab'. rewrite Hkvs in Htab'.
  destruct (decide (is_u64 t)) as [Ht|Ht].
  2: { split; [intros H|intros [H _]]; exfalso; apply Ht.
       - apply (tb_u64 _ _ Htab' k). eauto.
       - apply (tb_u64 _ _ Htab k). eauto. }
  rewrite <- (tb_elem _ _ Htab' k t (op, v) Ht), <- (tb_elem _ _ Htab k t (op, v) Ht).
  destruct bottom.
  - rewrite (gc_bottom_elem watermark V m Htab Hsm) with (m1 := []); [|clear -Hpf|done|done|done].
    + cbn. by rewrite UserKey_Encode, Timestamp_Encode.
    + intros k0 t0 H0. destruct Hpf as [H|H]; [by apply text_clustered|].
      by eapply prefix_free_clustered, H.
  - rewrite gc_not_bottom. split; [intros H; by split|tauto].
Qed.

(** ** Properties of the merge *)

(** C8.  Compaction is exactly its garbage-collection rule, for keys that are not
    empty, have timestamps below 2^56, and are text or no prefixes of one another:
    over any number of readable tables the merge succeeds, its output opens as a
    table with the highest applied index of the inputs, and a version (k, t) is in
    the output precisely when the newest input table that has (k, t) has it with
    this value and the rule keeps it: away from the bottom everything is kept; at
    the bottom a version is kept when all newer versions of the key are above the
    watermark, except a tombstone at or below the watermark that is the newest
    version. *)
Theorem compaction_gc inputs tables watermark bottom :
  Forall2 table_ok inputs tables -> Forall (fun r => is_u64 (sstable.AppliedIndex r)) inputs ->
  foldr (fun a s => table_size a + s) 0 tables < 2 ^ 60 -> keys_ok (layered tables) ->
  exists file r adds, compactSSTables inputs watermark bottom = Ok file
    /\ sstable.OpenReader file = Ok r /\ table_ok r adds
    /\ sstable.AppliedIndex r = mergedApplied inputs
    /\ forall k t op v, sstable.versions adds !! (k, t) = Some (op, v)
         <-> layered tables !! (k, t) = Some (op, v)
             /\ gc_keeps (layered tables) watermark bottom k t op.
Proof.
  intros Htabs Hai Hsz Hkeys.
  assert (Forall sstable.adds_ok tables) as Hok by (clear -Htabs; induction Htabs as [|? ? ? ? [? _]]; auto).
  destruct (compactSSTables_run inputs tables watermark bottom Htabs Hai Hsz) as (file & r & E1 & E2 & H3 & _ & H5).
  eexists file, r, _. split_and!; [exact E1|exact E2|exact H3|exact H5|].
  by apply gc_versions.
Qed.

(** The rule loses nothing a snapshot at or above the watermark can see. *)
Lemma gc_keeps_live V V' watermark bottom k s v :
  (forall k t op v, V' !! (k, t) = Some (op, v) <-> V !! (k, t) = Some (op, v)
     /\ gc_keeps V watermark bottom k t op) ->
  watermark <= s -> live V' k s v <-> live V k s v.
Proof.
  intros HV Hs. split.
  - intros (t & op & ([H HK]%HV & Ht & Hmax) & Hop). exists t, op. split; [|done].
    split_and!; [done..|]. intros t' [op' v'] H' Ht'. apply Z.nlt_ge. intros Hlt.
    destruct (visible_exists V k s t' ltac:(eauto) Ht') as (t1 & [op1 v1] & (H1 & Hs1 & Hmax1) & Hle1).
    assert (t < t1) as Hlt1 by lia.
    assert (~ gc_keeps V watermark bottom k t1 op1) as Hdrop.
    { intros HK1. assert (V' !! (k, t1) = Some (op1, v1)) as H1' by (by apply HV).
      specialize (Hmax _ _ H1' Hs1). lia. }
    apply Hdrop. intros Hb. destruct (HK Hb) as [Hnew _].
    specialize (Hnew t1 ltac:(eauto) Hlt1). split; [|lia].
    intros t2 H2 Hlt2. lia.
  - intros (t & op & (H & Ht & Hmax) & Hop). exists t, op. split; [|done]. split_and!; [|done|].
    + apply HV. split; [done|]. intros Hb. split; [|tauto]. intros t' [ov' H'] Hlt.
      apply Z.nle_gt. intros Hle. specialize (Hmax _ _ H' ltac:(lia)). lia.
    + intros t' [op' v'] [H' _]%HV Ht'. by apply (Hmax t' (op', v')).
Qed.

(** ** Properties of the compacted store *)

Definition sizes (tables : list (list sstable.add)) : Z := foldr (fun a s => table_size a + s) 0 tables.

Lemma sizes_cons a l : sizes (a :: l) = table_size a + sizes l.
Proof. done. Qed.

Lemma sizes_nonneg l : 0 <= sizes l.
Proof.
  induction l as [|a l IH]; [done|]. rewrite sizes_cons. unfold table_size.
  pose proof (len_nonneg (record.encs (sstable.recs_of a))). lia.
Qed.

Lemma Forall2_impl_in {A B} (P Q : A -> B -> Prop) l k :
  Forall2 P l k -> (forall x y, x ∈ l -> P x y -> Q x y) -> Forall2 Q l k.
Proof.
  induction 1 as [|x y l k H _ IH]; intros HQ; [constructor|]. constructor.
  - apply HQ; [apply elem_of_cons; auto|done].
  - apply IH. intros x' y' Hx. apply HQ, elem_of_cons. auto.
Qed.

Lemma sizes_app a b : sizes (a ++ b) = sizes a + sizes b.
Proof. induction a as [|x a IH]; [done|]. cbn [app]. rewrite !sizes_cons. lia. Qed.

(** The table list and the table files. *)
Record tables_inv (d : db.DB) (disk : db.Disk) (tables : list (list sstable.add)) : Prop := {
  ti_tables : Forall2 table_ok (db.sstables d) tables;
  ti_ids : length (db.sstableIDs d) = length (db.sstables d);
  ti_nodup : NoDup (db.sstableIDs d);
  ti_applied : Forall (fun r => is_u64 (sstable.AppliedIndex r)) (db.sstables d);
  ti_ordered : ordered (sstable.versions <$> tables);
  ti_keys : keys_ok (layered tables);
  ti_size : sizes tables < 2 ^ 60;
  ti_files : Forall2 (fun id adds => exists file r, db.d_ssts disk !! id = Some file
                        /\ sstable.OpenReader file = Ok r /\ table_ok r adds)
               (db.sstableIDs d) tables;
  ti_only : forall id, is_Some (db.d_ssts disk !! id) -> id ∈ db.sstableIDs d;
  ti_trigger : 2 <= db.CompactionTrigger (db.opts d);
  ti_open : db.closed d = false
}.

Lemma keys_ok_sub V W : dom_sub V W -> keys_ok W -> keys_ok V.
Proof.
  intros H (Hp & Hs & Hn). split_and!.
  - destruct Hp as [Ht|Hp]; [left|right].
    + intros k t Hk. by apply Ht, H.
    + intros k t Hk k' t' Hk'. apply (Hp k t (H _ Hk) k' t' (H _ Hk')).
  - intros k t Hk. by apply (Hs k), H.
  - intros k t Hk. by apply (Hn k t), H.
Qed.

Lemma layered_app a b : layered (a ++ b) = layered a ∪ layered b.
Proof.
  unfold layered. induction a as [|x a IH].
  - cbn [app fmap list_fmap]. change (stack []) with (∅ : vmap). by rewrite (left_id_L ∅ (∪)).
  - cbn [app]. rewrite !fmap_cons, !stack_cons, IH. by rewrite (assoc_L (∪)).
Qed.

Lemma ordered_app Vs Ws :
  ordered (Vs ++ Ws) <-> ordered Vs /\ ordered Ws /\ above (stack Vs) (stack Ws).
Proof.
  induction Vs as [|V Vs IH]; cbn [app ordered].
  - split; [|tauto]. intros H. split_and!; [done|done|]. intros k t t' [ov H']. done.
  - rewrite IH. unfold above. setoid_rewrite stack_dom. split.
    + intros [H1 (H2 & H3 & H4)]. split_and!; [|done|done|].
      * intros k t t' Hk (U & HU & Ht'). apply (H1 k t t' Hk). exists U. split; [|done].
        apply elem_of_app. auto.
      * intros k t t' (U & [->|HU]%elem_of_cons & Ht) (U' & HU' & Ht').
        -- apply (H1 k t t' Ht). exists U'. split; [|done]. apply elem_of_app. auto.
        -- apply (H4 k t t'); eauto.
    + intros ([H1 H2] & H3 & H4). split; [|split_and!; [done|done|]].
      * intros k t t' Hk (U & [HU|HU]%elem_of_app & Ht'); [apply (H1 k t t' Hk); eauto|].
        apply (H4 k t t'); [|eauto]. exists V. split; [apply elem_of_cons; auto|done].
      * intros k t t' (U & HU & Ht) HW. apply (H4 k t t'); [|done]. exists U.
        split; [apply elem_of_cons; auto|done].
Qed.

Lemma live_union V W k s v : above V W ->
  live (V ∪ W) k s v <-> live V k s v \/ (invisible V k s /\ live W k s v).
Proof.
  intros Hab. unfold live. setoid_rewrite (visible_union V W k s _ _ Hab). naive_solver.
Qed.

Lemma sameTail_refl ids : sameTail ids ids = Some true.
Proof. induction ids as [|id ids IH]; [done|]. cbn. by rewrite decide_False by tauto. Qed.

Lemma removeInputs_lookup ids out : forall disk id,
  db.d_ssts (removeInputs disk ids out) !! id
  = if decide (id ∈ ids /\ id <> out) then None else db.d_ssts disk !! id.
Proof.
  unfold removeInputs. induction ids as [|x ids IH]; intros disk id; cbn [foldl].
  - rewrite decide_False; [done|]. intros [H _]. by apply elem_of_nil in H.
  - rewrite IH. destruct (decide (x = out)) as [->|Hx].
    + repeat case_decide; try done; rewrite elem_of_cons in *; naive_solver.
    + cbn. destruct (decide (id = x)) as [->|Hne].
      * rewrite lookup_delete_eq. repeat case_decide; try done; rewrite elem_of_cons in *; naive_solver.
      * rewrite lookup_delete_ne by done.
        repeat case_decide; try done; rewrite elem_of_cons in *; naive_solver.
Qed.

Lemma pickInputs_tail d top bot idt out rest :
  db.sstables d = top ++ bot -> db.sstableIDs d = idt ++ out :: rest ->
  length top = length idt -> len bot = db.CompactionTrigger (db.opts d) -> db.closed d = false ->
  exists b, pickInputs d = Some (Some (MkJob bot (out :: rest) b out)).
Proof.
  intros Es Ei Hl Hn Hc. unfold pickInputs. rewrite Hc, Es, Ei, <- Hn. rewrite len_app.
  rewrite decide_False by (pose proof (len_nonneg top); lia).
  replace (Z.to_nat (len top + len bot - len bot)) with (length top) by (unfold len; lia).
  rewrite drop_app_length, Hl, drop_app_length.
  destruct idt as [|i idt]; cbn; eauto.
Qed.

(** The shape of a successful run. *)
Lemma tryCompactOnce_shape d disk top bot idt out rest b file r :
  db.sstables d = top ++ bot -> db.sstableIDs d = idt ++ out :: rest ->
  length top = length idt -> length bot = length (out :: rest) -> db.closed d = false ->
  pickInputs d = Some (Some (MkJob bot (out :: rest) b out)) ->
  compactSSTables bot (db.computeWatermark d) b = Ok file -> sstable.OpenReader file = Ok r ->
  tryCompactOnce d disk
  = Some (set_tables d (top ++ [r]) (idt ++ [out]),
          removeInputs (db.flushTable disk out file) (out :: rest) out, Ran).
Proof.
  intros Es Ei Hl Hlb Hc Hp Hf Hr. unfold tryCompactOnce. rewrite Hp.
  cbn [mbind option_bind]. unfold mergeFiles. cbn [inputs bottomOfLSM outputID]. rewrite Hf, Hr.
  cbn [mbind option_bind]. unfold install. rewrite Hc. cbn [inputIDs outputID].
  rewrite Es, Ei, len_app. replace (len (out :: rest)) with (len bot) by (unfold len; by rewrite Hlb).
  rewrite decide_False by (pose proof (len_nonneg top); lia).
  replace (Z.to_nat (len top + len bot - len bot)) with (length top) by (unfold len; lia).
  rewrite Hl, drop_app_length, sameTail_refl. cbn [mbind option_bind].
  rewrite take_app_length, <- Hl, take_app_length. done.
Qed.

Lemma split_at {A} (l : list A) n : (n <= length l)%nat ->
  exists a b, l = a ++ b /\ length a = n /\ length b = (length l - n)%nat.
Proof.
  intros H. exists (take n l), (drop n l). rewrite take_drop, length_take, length_drop. split_and!; lia || done.
Qed.

Lemma live_stack_sub top V V' k s v :
  above top V -> dom_sub V' V -> (live V' k s v <-> live V k s v) ->
  live (top ∪ V') k s v <-> live (top ∪ V) k s v.
Proof.
  intros Hab Hsub Hl. rewrite !live_union, Hl; [done|done|].
  intros k' t t' H H'. apply (Hab k' t t' H). by apply Hsub.
Qed.

(** One run keeps the invariant and everything a snapshot at or above the
    watermark can see. *)
Lemma tryCompactOnce_step d disk tables :
  tables_inv d disk tables -> db.CompactionTrigger (db.opts d) <= len (db.sstables d) ->
  exists ssts ids disk' tables', tryCompactOnce d disk = Some (set_tables d ssts ids, disk', Ran)
    /\ tables_inv (set_tables d ssts ids) disk' tables'
    /\ (length ssts < length (db.sstables d))%nat
    /\ dom_sub (layered tables') (layered tables)
    /\ forall k s v, db.computeWatermark d <= s ->
         live (layered tables') k s v <-> live (layered tables) k s v.
Proof.
  intros [Htabs Hids Hnd Hai Hord Hkeys Hsz Hfiles Honly Htrig Hopen] Hn.
  set (n := db.CompactionTrigger (db.opts d)) in *.
  pose proof (Forall2_length _ _ _ Htabs) as Hlt.
  destruct (split_at (db.sstables d) (length (db.sstables d) - Z.to_nat n)) as (top & bot & Es & Htop & Hbot); [lia|].
  destruct (split_at (db.sstableIDs d) (length (db.sstables d) - Z.to_nat n)) as (idt & idb & Ei & Hidt & Hidb); [lia|].
  destruct (split_at tables (length (db.sstables d) - Z.to_nat n)) as (tt & tb & Et & Htt & Htb); [lia|].
  destruct idb as [|out rest]; [unfold len in *; cbn in Hidb; lia|].
  assert (len bot = n) as Hlb by (unfold len in *; lia).
  rewrite Es, Et in Htabs. apply Forall2_app_inv in Htabs as [Htabt Htabb]; [|lia].
  rewrite Es in Hai. apply Forall_app in Hai as [Hait Haib].
  rewrite Et, fmap_app in Hord. apply ordered_app in Hord as (Hordt & Hordb & Hab).
  rewrite Et, layered_app in Hkeys. rewrite Et, sizes_app in Hsz.
  rewrite Ei, Et in Hfiles. apply Forall2_app_inv in Hfiles as [Hft Hfb]; [|lia].
  assert (0 <= sizes tt) as Hszt.
  { apply sizes_nonneg. }
  assert (sizes tb < 2 ^ 60) as Hszb by lia.
  assert (Forall sstable.adds_ok tb) as Hokb
    by (clear -Htabb; induction Htabb as [|? ? ? ? [? _]]; auto).
  set (w := db.computeWatermark d).
  set (m := merged ((fun adds => kvs (sstable.recs_of adds)) <$> tb)).
  destruct (pickInputs_tail d top bot idt out rest Es Ei ltac:(lia) Hlb Hopen) as [b Hpick].
  set (adds := add_of <$> gc w b None 0 m).
  destruct (compactSSTables_run bot tb w b Htabb Haib Hszb) as (file & r & Ef & Er & Hr & _ & Har).
  fold m adds in Hr.
  assert (keys_ok (layered tb)) as Hkb.
  { eapply keys_ok_sub; [|exact Hkeys]. intros kt. rewrite union_dom. auto. }
  pose proof (gc_versions tb w b Hokb Hszb Hkb) as Hgc. cbv zeta in Hgc. fold m adds in Hgc.
  assert (dom_sub (sstable.versions adds) (layered tb)) as Hsub.
  { intros [k t] [[op v] H]. apply Hgc in H as [H _]. eauto. }
  assert (layered (tt ++ [adds]) = layered tt ∪ sstable.versions adds) as El.
  { rewrite layered_app. f_equal. unfold layered. cbn. by rewrite (right_id_L ∅ (∪)). }
  assert (above (layered tt) (sstable.versions adds)) as Hab'.
  { intros k t t' H H'. apply (Hab k t t' H). by apply Hsub. }
  exists (top ++ [r]), (idt ++ [out]), (removeInputs (db.flushTable disk out file) (out :: rest) out),
    (tt ++ [adds]).
  assert (Forall2 table_ok (top ++ [r]) (tt ++ [adds])) as Htabs'.
  { apply Forall2_app; [done|]. constructor; [done|constructor]. }
  pose proof Hnd as Hnd0. rewrite Ei in Hnd0. apply NoDup_app in Hnd0 as (_ & Hdisj & Hndb).
  apply NoDup_cons in Hndb as [Hout _].
  split_and!.
  - eapply tryCompactOnce_shape; [exact Es|exact Ei| | |done|exact Hpick|exact Ef|exact Er]; unfold len in *; cbn in *; lia.
  - split; cbn [set_tables db.sstables db.sstableIDs db.opts db.closed].
    + done.
    + rewrite !length_app. cbn. lia.
    + rewrite Ei in Hnd. apply NoDup_app in Hnd as (H1 & H2 & _). apply NoDup_app. split_and!; [done| |apply NoDup_singleton].
      intros i Hi Hi'%list_elem_of_singleton. subst i. apply (H2 out Hi), elem_of_cons. auto.
    + apply Forall_app. split; [done|]. constructor; [|constructor]. rewrite Har.
      by apply mergedApplied_u64.
    + rewrite fmap_app. apply ordered_app. split_and!; [done| |].
      * split; [|done]. intros k t t' _ H. by apply stack_dom in H as (U & H%elem_of_nil & _).
      * change (stack (sstable.versions <$> [adds])) with (sstable.versions adds ∪ ∅).
        rewrite (right_id_L ∅ (∪)). exact Hab'.
    + rewrite El. eapply keys_ok_sub; [|exact Hkeys]. intros kt. rewrite !union_dom. specialize (Hsub kt). tauto.
    + rewrite sizes_app. unfold sizes at 2. cbn [foldr].
      pose proof (gc_size tb w b Hokb) as Hg. fold m adds (sizes tb) in Hg. lia.
    + apply Forall2_app.
      * eapply Forall2_impl_in; [exact Hft|]. intros id a Hid (f & r' & H1 & H2 & H3).
        exists f, r'. split_and!; [|done..]. rewrite removeInputs_lookup, decide_False by (specialize (Hdisj id Hid); tauto).
        cbn. rewrite lookup_insert_ne; [done|]. intros <-. apply (Hdisj _ Hid), elem_of_cons. auto.
      * constructor; [|constructor]. exists file, r. split_and!; [|done..].
        rewrite removeInputs_lookup, decide_False by tauto. cbn. by rewrite lookup_insert_eq.
    + intros id. rewrite removeInputs_lookup. case_decide as Hd; [by intros [? ?]|]. cbn.
      destruct (decide (id = out)) as [->|Hne]; intros Hid; [apply elem_of_app; right; by apply list_elem_of_singleton|].
      rewrite lookup_insert_ne in Hid by done. apply Honly in Hid. rewrite Ei in Hid.
      apply elem_of_app in Hid as [Hid|Hid]; [apply elem_of_app; auto|]. exfalso. tauto.
    + done.
    + done.
  - rewrite Es, !length_app. cbn. unfold len in *. lia.
  - rewrite El, Et, layered_app. intros kt. rewrite !union_dom. specialize (Hsub kt). tauto.
  - intros k s v Hs. rewrite El, Et, layered_app. apply live_stack_sub; [done|done|].
    by apply (gc_keeps_live _ _ w b).
Qed.

Lemma dom_sub_refl V : dom_sub V V.
Proof. by intros kt. Qed.

Lemma set_tables_id d : set_tables d (db.sstables d) (db.sstableIDs d) = d.
Proof. by destruct d. Qed.

Lemma set_tables_twice d s i s' i' : set_tables (set_tables d s i) s' i' = set_tables d s' i'.
Proof. done. Qed.

Lemma pickInputs_none d :
  db.closed d = false -> len (db.sstables d) < db.CompactionTrigger (db.opts d) -> pickInputs d = Some None.
Proof. intros Hc Hn. unfold pickInputs. by rewrite Hc, decide_True. Qed.

Lemma compactAll_run fuel : forall d disk tables,
  tables_inv d disk tables -> (length (db.sstables d) < fuel)%nat ->
  exists ssts ids disk' tables', compactAll fuel d disk = Some (set_tables d ssts ids, disk', NothingToDo)
    /\ len ssts < db.CompactionTrigger (db.opts d) /\ tables_inv (set_tables d ssts ids) disk' tables'
    /\ dom_sub (layered tables') (layered tables)
    /\ forall k s v, db.computeWatermark d <= s ->
         live (layered tables') k s v <-> live (layered tables) k s v.
Proof.
  induction fuel as [|fuel IH]; intros d disk tables Hinv Hf; [lia|]. cbn [compactAll].
  destruct (decide (len (db.sstables d) < db.CompactionTrigger (db.opts d))) as [Hlt|Hge].
  - unfold tryCompactOnce. rewrite (pickInputs_none d (ti_open _ _ _ Hinv) Hlt).
    cbn [mbind option_bind]. exists (db.sstables d), (db.sstableIDs d), disk, tables.
    rewrite set_tables_id. split_and!; [done..|apply dom_sub_refl|done].
  - destruct (tryCompactOnce_step d disk tables Hinv ltac:(lia))
      as (s1 & i1 & disk1 & tables1 & -> & Hinv1 & Hlen & Hsub1 & Hl1).
    cbn [mbind option_bind].
    destruct (IH _ _ _ Hinv1) as (s2 & i2 & disk2 & tables2 & -> & Hn & Hinv2 & Hsub2 & Hl2); [cbn; lia|].
    exists s2, i2, disk2, tables2. split_and!; [done|done|done| |].
    + intros kt H. by apply Hsub1, Hsub2.
    + intros k s v Hs. rewrite Hl2, Hl1; done.
Qed.

(** What a client gets from the tables. *)
Definition tables_read (d : db.DB) (k : bytes) (s : Z) : outcome db.error bytes :=
  (db.getInTables (db.sstables d) k s).2 ≫= client.

(** C7.  The compaction loop ends, with fewer tables than the trigger, on tables
    whose keys are not empty, have timestamps below 2^56, and are text or no
    prefixes of one another: it leaves the table list, the files and their keys
    consistent, touches nothing else of the store, adds no version, and every read
    of the tables at a snapshot at or above the watermark and below 2^56, of a key
    that keeps to the same rule, answers the client as before.  (An empty key can
    come back from the dead: [compaction_empty_key_resurrects].) *)
Theorem compaction_terminates d disk tables :
  tables_inv d disk tables ->
  exists ssts ids disk' tables', CompactForTesting d disk = Some (set_tables d ssts ids, disk', NothingToDo)
    /\ len ssts < db.CompactionTrigger (db.opts d)
    /\ tables_inv (set_tables d ssts ids) disk' tables'
    /\ dom_sub (layered tables') (layered tables)
    /\ forall k s, db.computeWatermark d <= s -> 0 <= s < 2 ^ 56 -> readable (layered tables) k ->
         tables_read (set_tables d ssts ids) k s = tables_read d k s.
Proof.
  intros Hinv. destruct (compactAll_run (S (length (db.sstables d))) d disk tables Hinv ltac:(lia))
    as (ssts & ids & disk' & tables' & E & Hn & Hinv' & Hsub & Hl).
  exists ssts, ids, disk', tables'. split_and!; [done..|]. intros k s Hw Hs Hr.
  unfold tables_read. cbn [set_tables db.sstables].
  destruct (getInTables_layered _ _ k s (ti_tables _ _ _ Hinv) (ti_ordered _ _ _ Hinv) Hr Hs)
    as (r1 & res1 & -> & _ & H1).
  destruct (getInTables_layered ssts tables' k s (ti_tables _ _ _ Hinv') (ti_ordered _ _ _ Hinv'))
    as (r2 & res2 & -> & _ & H2); [by eapply readable_sub|done|].
  cbn [snd mbind outcome_bind]. eapply client_eq; [exact H2|exact H1|]. intros v. by apply Hl.
Qed.

(** A run that finds the store closed, or whose merge or open fails, removes
    the output path, and that path is the file of its newest input: [Close]
    coming between the merge and the second critical section (or a read error in
    any input) takes the table [outputID] from the directory while the store's
    list still names it, and leaves the other tables alone. *)
Theorem compaction_failure_drops_input d j disk :
  pickInputs d = Some (Some j) ->
  outputID j ∈ db.sstableIDs d
  /\ (forall disk1 r, mergeFiles disk j (db.computeWatermark d) = Some (disk1, inr r) ->
        exists disk2, install (db.Close d) disk1 j r = Some (db.Close d, disk2, NothingToDo)
          /\ db.d_ssts disk2 = delete (outputID j) (db.d_ssts disk))
  /\ (forall e, compactSSTables (inputs j) (db.computeWatermark d) (bottomOfLSM j) = Err e ->
        exists disk2, tryCompactOnce d disk = Some (d, disk2, CompactFailed e)
          /\ db.d_ssts disk2 = delete (outputID j) (db.d_ssts disk)).
Proof.
  intros Hp. split_and!.
  - unfold pickInputs in Hp. destruct (db.closed d); [done|]. case_decide; [done|].
    destruct (slicesMin (drop _ (db.sstableIDs d))) as [m1|]; [|done]. cbn [mbind option_bind] in Hp.
    destruct (slicesMin (db.sstableIDs d)) as [m2|]; [|done]. cbn [mbind option_bind] in Hp.
    destruct (drop _ (db.sstableIDs d)) as [|id ids] eqn:Ed; [done|]. cbn in Hp. injection Hp as <-. cbn.
    apply (elem_of_sublist (id :: ids)); [apply elem_of_cons; auto|]. rewrite <- Ed. apply sublist_drop.
  - intros disk1 r Hm. unfold install.
    assert (db.closed (db.Close d) = true) as -> by (unfold db.Close; by destruct (db.closed d) eqn:E).
    eexists. split; [done|]. cbn. unfold mergeFiles in Hm.
    destruct (compactSSTables _ _ _) as [file|e|]; [|done..]. destruct (sstable.OpenReader file); [|done..].
    injection Hm as <- _. cbn. apply delete_insert_eq.
  - intros e He. unfold tryCompactOnce. rewrite Hp. cbn [mbind option_bind]. unfold mergeFiles.
    rewrite He. cbn [mbind option_bind]. eauto.
Qed.

(** ** Runs over two small tables *)

(** Table 1 holds a put of [k] at timestamp 1, table 2 its deletion at 2. *)
Definition table_file (ai : Z) (adds : list sstable.add) : bytes :=
  match w ← sstable.AddAll (sstable.NewWriter 1 ai) adds; sstable.Finish w with
  | Ok (_, file) => file
  | _ => []
  end.

Definition put_adds (k : bytes) : list sstable.add := [sstable.MkAdd OpPut k [x61] 1].
Definition del_adds (k : bytes) : list sstable.add := [sstable.MkAdd OpDelete k [] 2].

Definition two_tables (k : bytes) : db.Disk :=
  db.MkDisk {[1 := table_file 1 (put_adds k); 2 := table_file 2 (del_adds k)]} None None.

Definition demo_opts : db.Options := db.MkOptions false 0 2 true.

Definition reopen (disk : db.Disk) : option db.DB :=
  match db.OpenWith None disk demo_opts (fun _ _ => false) with Ok d => Some d | _ => None end.

(** Open, compact, reopen: what [Get] answers before, after the compaction and
    after the reopening, with the next timestamp before and after. *)
Definition compact_and_reopen (k : bytes) :=
  d ← reopen (two_tables k);
  '(d1, disk1, _) ← CompactForTesting d (two_tables k);
  d2 ← reopen disk1;
  Some ((db.Get d k).2, (db.Get d1 k).2, (db.Get d2 k).2, db.nextTimestamp d, db.nextTimestamp d2).

(** Open, merge, crash before the inputs are removed, reopen. *)
Definition crash_and_reopen (k : bytes) :=
  d ← reopen (two_tables k);
  picked ← pickInputs d;
  j ← picked;
  '(disk1, _) ← mergeFiles (two_tables k) j (db.computeWatermark d);
  d2 ← reopen disk1;
  Some ((db.Get d k).2, (db.Get d2 k).2).

(** A deleted key comes back when a crash falls between the rename of the
    merged table and the removal of the older inputs: the merge dropped the
    tombstone, the put is still in table 1, and the next open loads both. *)
Theorem compaction_crash_resurrects :
  crash_and_reopen [x6b] = Some (Err db.ErrKeyNotFound, Ok [x61]).
Proof. vm_compute. reflexivity. Qed.

(** The empty key is not garbage-collected by the rule: [currentUserKey]
    stays nil after it, every version counts as the first of its key, the
    tombstone is dropped and the older put is kept, so a compaction with no crash
    brings a deleted empty key back; the key "k" stays deleted. *)
Theorem compaction_empty_key_resurrects :
  (fun x => (x.1.1.1.1, x.1.1.1.2)) <$> compact_and_reopen [] = Some (Err db.ErrKeyNotFound, Ok [x61])
  /\ (fun x => (x.1.1.1.1, x.1.1.1.2)) <$> compact_and_reopen [x6b]
     = Some (Err db.ErrKeyNotFound, Err db.ErrKeyNotFound).
Proof. split; vm_compute; reflexivity. Qed.

(** Compaction can lower the largest stored timestamp: the dropped tombstone
    carried timestamp 2, so the store that would have handed out 3 next hands out
    1 again after a restart. *)
Theorem compaction_reissues_timestamps :
  (fun x => (x.1.2, x.2)) <$> compact_and_reopen [x6b] = Some (3, 1).
Proof. vm_compute. reflexivity. Qed.

(** ** Witnesses *)

Definition demo_tables : list (list sstable.add) := [del_adds [x6b]; put_adds [x6b]].

Definition demo_reader (ai : Z) (adds : list sstable.add) : sstable.Reader :=
  match sstable.build 1 ai adds with
  | Ok r => r
  | _ => sstable.MkReader [] 0 [] None 0 0 0 true
  end.

Definition demo_inputs : list sstable.Reader :=
  [demo_reader 2 (del_adds [x6b]); demo_reader 1 (put_adds [x6b])].

Lemma demo_reader_ok ai adds : sstable.adds_ok adds -> is_u64 ai ->
  table_ok (demo_reader ai adds) adds /\ sstable.AppliedIndex (demo_reader ai adds) = ai.
Proof.
  intros Hok Hai. destruct (sstable.build_models 1 ai adds Hok Hai) as (r & E & Hr & _ & Ha).
  unfold demo_reader. rewrite E. done.
Qed.

Lemma demo_inputs_ok : Forall2 table_ok demo_inputs demo_tables.
Proof.
  constructor; [|constructor; [|constructor]]; apply demo_reader_ok; by_decide.
Qed.

#[export] Instance keys_ok_text (V : vmap) :
  Decision (map_Forall (fun kt _ => text_key kt.1 /\ small_ts kt.2 /\ kt.1 <> []) V).
Proof. apply _. Defined.

Lemma keys_ok_check (V : vmap) :
  map_Forall (fun kt _ => (text_key kt.1 /\ small_ts kt.2) /\ kt.1 <> []) V -> keys_ok V.
Proof.
  intros H. split_and!.
  - left. intros k t [ov Hk]. exact (proj1 (H (k, t) ov Hk)).
  - intros k t [ov Hk]. exact (proj2 (proj1 (H (k, t) ov Hk))).
  - intros k t [ov Hk]. exact (proj2 (H (k, t) ov Hk)).
Qed.

Lemma compaction_gc_witness :
  exists file r adds, compactSSTables demo_inputs 1 true = Ok file
    /\ sstable.OpenReader file = Ok r /\ table_ok r adds
    /\ sstable.versions adds !! ([x6b], 2) = Some (OpDelete, [])
    /\ sstable.AppliedIndex r = 2.
Proof.
  assert (Forall (fun r => is_u64 (sstable.AppliedIndex r)) demo_inputs) as Hai.
  { by_decide. }
  destruct (compaction_gc demo_inputs demo_tables 1 true demo_inputs_ok Hai)
    as (file & r & adds & H1 & H2 & H3 & H4 & H5).
  - by_decide.
  - apply keys_ok_check. by_decide.
  - exists file, r, adds. split_and!; [done|done|done| |].
    + apply H5. split; [reflexivity|]. intros _. split; [|intros (_ & H & _); lia].
      intros t' [ov H'] Hlt. exfalso.
      assert (map_Forall (fun kt _ => kt.2 <= 2) (layered demo_tables)) as Hall by by_decide.
      specialize (Hall _ _ H'). cbn in Hall. lia.
    + rewrite H4. vm_compute. reflexivity.
Defined.

Definition demo_store : option db.DB :=
  (fun d => set_tables d demo_inputs [2; 1]) <$> reopen (db.MkDisk ∅ None None).

Lemma demo_store_inv d : demo_store = Some d -> tables_inv d (two_tables [x6b]) demo_tables.
Proof.
  intros E.
  assert ((fun d => (db.CompactionTrigger (db.opts d), db.closed d, db.sstableIDs d)) <$> demo_store
          = Some (2, false, [2; 1])) as H by (vm_compute; reflexivity).
  assert (db.sstables d = demo_inputs) as Hs.
  { unfold demo_store in E. destruct (reopen _) as [d0|]; [|done]. by injection E as <-. }
  rewrite E in H. cbn in H. injection H as Ht Hc Hi.
  split; rewrite ?Hs, ?Hi, ?Ht, ?Hc; [apply demo_inputs_ok|done|by_decide|by_decide| | |by_decide| | |done|done].
  - split; [|split; [|done]].
    + intros k t t' [ov H1] [ov' H2].
      assert (map_Forall (fun kt _ => kt.2 = 2) (sstable.versions (del_adds [x6b]))) as A1 by by_decide.
      assert (map_Forall (fun kt _ => kt.2 = 1) (stack [sstable.versions (put_adds [x6b])])) as A2 by by_decide.
      specialize (A1 _ _ H1). specialize (A2 _ _ H2). cbn in A1, A2. lia.
    + intros k t t' _ H2. by apply stack_dom in H2 as (U & HU%elem_of_nil & _).
  - apply keys_ok_check. by_decide.
  - constructor; [|constructor; [|constructor]].
    + exists (table_file 2 (del_adds [x6b])), (demo_reader 2 (del_adds [x6b])).
      split; [reflexivity|]. split; [vm_compute; reflexivity|]. apply demo_reader_ok; by_decide.
    + exists (table_file 1 (put_adds [x6b])), (demo_reader 1 (put_adds [x6b])).
      split; [reflexivity|]. split; [vm_compute; reflexivity|]. apply demo_reader_ok; by_decide.
  - intros id [f Hf].
    assert (map_Forall (fun id _ => id ∈ [2; 1]) (db.d_ssts (two_tables [x6b]))) as Hall by by_decide.
    exact (Hall id f Hf).
Qed.

Lemma compaction_terminates_witness :
  exists d ssts ids disk' tables', demo_store = Some d
    /\ CompactForTesting d (two_tables [x6b]) = Some (set_tables d ssts ids, disk', NothingToDo)
    /\ len ssts < 2 /\ tables_inv (set_tables d ssts ids) disk' tables'.
Proof.
  destruct demo_store as [d|] eqn:E; [|by vm_compute in E].
  destruct (compaction_terminates d (two_tables [x6b]) demo_tables (demo_store_inv d E))
    as (ssts & ids & disk' & tables' & H1 & H2 & H3 & _).
  exists d, ssts, ids, disk', tables'. split; [done|]. split; [exact H1|]. split; [|exact H3].
  assert ((fun d => db.CompactionTrigger (db.opts d)) <$> demo_store = Some 2) as H by (vm_compute; reflexivity).
  rewrite E in H. injection H as H. by rewrite H in H2.
Defined.

Lemma compaction_failure_drops_input_witness :
  exists d j, demo_store = Some d /\ pickInputs d = Some (Some j) /\ outputID j = 2
    /\ outputID j ∈ db.sstableIDs d
    /\ forall disk1 r, mergeFiles (two_tables [x6b]) j (db.computeWatermark d) = Some (disk1, inr r) ->
        exists disk2, install (db.Close d) disk1 j r = Some (db.Close d, disk2, NothingToDo)
          /\ db.d_ssts disk2 = delete (outputID j) (db.d_ssts (two_tables [x6b])).
Proof.
  destruct demo_store as [d|] eqn:E; [|by vm_compute in E].
  pose proof (demo_store_inv d E) as Hinv.
  assert (db.sstables d = demo_inputs) as Hs.
  { unfold demo_store in E. destruct (reopen _) as [d0|]; [|done]. by injection E as <-. }
  assert ((fun d => (db.CompactionTrigger (db.opts d), db.sstableIDs d)) <$> demo_store
          = Some (2, [2; 1])) as H by (vm_compute; reflexivity).
  rewrite E in H. injection H as Ht Hi.
  destruct (pickInputs_tail d [] demo_inputs [] 2 [1] Hs Hi eq_refl ltac:(by rewrite Ht) (ti_open _ _ _ Hinv))
    as [b Hp].
  destruct (compaction_failure_drops_input d _ (two_tables [x6b]) Hp) as (H1 & H2 & _).
  exists d, (MkJob demo_inputs [2; 1] b 2). split_and!; [done|exact Hp|done|exact H1|exact H2].
Defined.

End compaction.
