(* ===== verification/DbReplay.v ===== *)
(** * Recovery of the store from its log (internal/db/db.go, OpenWith)

    A log is a sequence of transactions, each its data records and a commit
    marker, followed by the data records of a transaction whose marker never
    reached the disk.  Replay brings back exactly the committed transactions.
    The uncommitted tail stays in the log, though, and the next commit appends
    behind it: from then on the log cannot be replayed. *)

From Stdlib Require Import ZArith Lia.
From Stdlib Require Import Strings.Byte.
From stdpp Require Import base list gmap sorting.
From S2P Require Import Prelude.
From S2P Require Import MvccKey.
From S2P Require Import OrderedMap.
From S2P Require Import Skiplist.
From S2P Require Import Versions.
From S2P Require Import Memtable.
From S2P Require Import RecordFmt.
From S2P Require Import Wal.
From S2P Require Import SSTable.
From S2P Require Import DbDisk.
From S2P Require Import Db.

#[local] Open Scope Z_scope.

Module replay.
Import db.

(** A committed transaction in the log. *)
Record ltxn := MkLTxn { lt_data : list record.Rec; lt_commit : record.Rec }.

Definition data_ok (r : record.Rec) : Prop :=
  record.wf r /\ (record.Op r = OpPut \/ record.Op r = OpDelete).

Definition ltxn_ok (x : ltxn) : Prop :=
  Forall (fun r => data_ok r /\ record.Timestamp r = record.Timestamp (lt_commit x)) (lt_data x)
  /\ record.wf (lt_commit x) /\ record.Op (lt_commit x) = OpCommit.

Definition ltxn_recs (x : ltxn) : list record.Rec := lt_data x ++ [lt_commit x].

Definition log_recs (txns : list ltxn) : list record.Rec := concat (ltxn_recs <$> txns).

(** The effect of data records on the versions: a tombstone has no value. *)
Definition put_rec (V : vmap) (r : record.Rec) : vmap :=
  <[(record.Key r, record.Timestamp r)
    := (record.Op r, if decide (record.Op r = OpPut) then record.Value r else [])]> V.

Definition put_recs (V : vmap) (rs : list record.Rec) : vmap := foldl put_rec V rs.

Definition committed (txns : list ltxn) : vmap := put_recs ∅ (concat (lt_data <$> txns)).

(** The effect of a commit marker on the session table. *)
Definition put_session (s : gmap bytes Z) (c : record.Rec) : gmap bytes Z :=
  if decide (len (record.Key c) > 0) then
    if decide (dbdisk.decodeSeq (record.Value c) > default 0 (s !! record.Key c))
    then <[record.Key c := dbdisk.decodeSeq (record.Value c)]> s else s
  else s.

Definition log_sessions (s0 : gmap bytes Z) (txns : list ltxn) : gmap bytes Z :=
  foldl (fun s x => put_session s (lt_commit x)) s0 txns.

Definition max_rec_ts (m0 : Z) (rs : list record.Rec) : Z :=
  foldl (fun m r => Z.max m (record.Timestamp r)) m0 rs.

Definition holds_versions (mt : MT) (V : vmap) : Prop :=
  (exists l, Memtable.models mt V l) /\ Memtable.mt_frozen mt = false.

Lemma apply_one mt V r c :
  holds_versions mt V -> data_ok r ->
  exists mt', (if decide (record.Op r = OpPut)
               then Memtable.Put mt (record.Key r) (record.Value r) (record.Timestamp r) c
               else if decide (record.Op r = OpDelete)
               then Memtable.Delete mt (record.Key r) (record.Timestamp r) c
               else Ok mt) = Ok mt'
    /\ holds_versions mt' (put_rec V r).
Proof.
  intros [[l Hm] Hf] [(_ & Ht & _) Hop]. unfold put_rec, Memtable.Put, Memtable.Delete. rewrite Hf.
  destruct (decide (record.Op r = OpPut)) as [->|Hne].
  - destruct (Memtable.writeLocked_models mt V l (record.Key r) (record.Value r) OpPut _ c Hm Ht)
      as (m' & l' & -> & Hm' & Hf'). exists m'. split; [done|]. split; [eauto|congruence].
  - assert (record.Op r = OpDelete) as -> by tauto. rewrite decide_True by done.
    destruct (Memtable.writeLocked_models mt V l (record.Key r) [] OpDelete _ c Hm Ht)
      as (m' & l' & -> & Hm' & Hf'). exists m'. split; [done|]. split; [eauto|congruence].
Qed.

Lemma applyBuffer_spec rs : forall ts mt V c,
  holds_versions mt V -> Forall (fun r => data_ok r /\ record.Timestamp r = ts) rs ->
  exists mt' c', applyBuffer rs ts mt c = Ok (mt', c') /\ holds_versions mt' (put_recs V rs).
Proof.
  induction rs as [|r rs IH]; intros ts mt V c Hm Hrs; cbn [applyBuffer]; [eauto|].
  apply Forall_cons in Hrs as [[Hr Hts] Hrs]. rewrite decide_False by tauto.
  destruct (apply_one mt V r (c 0%nat) Hm Hr) as (mt1 & -> & Hm1). by apply IH.
Qed.

(** The buffer of an uncommitted transaction before a marker of another. *)
Lemma applyBuffer_mismatch r rs ts mt c :
  record.Timestamp r <> ts -> applyBuffer (r :: rs) ts mt c = Err (ErrReplayTS (record.Timestamp r) ts).
Proof. intros H. cbn. by rewrite decide_True. Qed.

Record replayed (st : Replay) (V : vmap) (maxTS : Z) (buf : list record.Rec) (n : Z)
  (s : gmap bytes Z) : Prop := {
  rd_mt : holds_versions (rp_mt st) V;
  rd_max : rp_maxTS st = maxTS;
  rd_buf : rp_buffer st = buf;
  rd_n : rp_commits st = u64 n;
  rd_s : rp_sessions st = s
}.

Lemma replay_data st V m buf n s o r :
  replayed st V m buf n s -> data_ok r ->
  exists st', replayRecord o r st = (st', None)
    /\ replayed st' V (Z.max m (record.Timestamp r)) (buf ++ [r]) n s.
Proof.
  intros [Hm Hx Hb Hn Hs] [_ Hop]. unfold replayRecord. rewrite decide_True by done.
  eexists. split; [done|]. split; cbn; try done; [|by rewrite Hb].
  rewrite Hx. case_decide; lia.
Qed.

Lemma replay_datas rs : forall st V m buf n s o,
  replayed st V m buf n s -> Forall data_ok rs ->
  exists st', wal.scan_list replayRecord (wal.offsets o rs) st = (st', None)
    /\ replayed st' V (max_rec_ts m rs) (buf ++ rs) n s.
Proof.
  induction rs as [|r rs IH]; intros st V m buf n s o Hst Hrs; cbn [wal.offsets wal.scan_list].
  - exists st. by rewrite app_nil_r.
  - apply Forall_cons in Hrs as [Hr Hrs].
    destruct (replay_data st V m buf n s o r Hst Hr) as (st1 & -> & Hst1).
    destruct (IH st1 V _ _ n s (o + record.size r) Hst1 Hrs) as (st' & E & Hst').
    exists st'. rewrite E. split; [done|]. by rewrite <- app_assoc in Hst'.
Qed.

Lemma replay_commit st V m n s o x :
  replayed st V m (lt_data x) n s -> ltxn_ok x ->
  exists st', replayRecord o (lt_commit x) st = (st', None)
    /\ replayed st' (put_recs V (lt_data x)) (Z.max m (record.Timestamp (lt_commit x))) []
         (n + 1) (put_session s (lt_commit x)).
Proof.
  intros [Hm Hx Hb Hn Hs] (Hd & _ & Hop). unfold replayRecord. rewrite Hop.
  rewrite decide_False by (intros [H|H]; discriminate H). rewrite decide_True by done. rewrite Hb.
  destruct (applyBuffer_spec (lt_data x) (record.Timestamp (lt_commit x)) (rp_mt st) V (rp_rng st) Hm Hd)
    as (mt' & c' & -> & Hm').
  eexists. split; [done|]. split; cbn; try done.
  - rewrite Hx. case_decide; lia.
  - rewrite Hn. unfold u64. by rewrite Z.add_mod_idemp_l by lia.
  - unfold put_session. by rewrite Hs.
Qed.

Lemma offsets_app o a b :
  wal.offsets o (a ++ b) = wal.offsets o a ++ wal.offsets (o + len (record.encs a)) b.
Proof.
  revert o. induction a as [|r a IH]; intros o; cbn [wal.offsets app].
  - change (len (record.encs [])) with 0. by rewrite Z.add_0_r.
  - rewrite IH, record.encs_cons, len_app, record.len_record_Encode, Z.add_assoc. done.
Qed.

Lemma scan_list_app {A E} (fn : Z -> record.Rec -> A -> A * option E) a b acc :
  wal.scan_list fn (a ++ b) acc
  = match wal.scan_list fn a acc with
    | (acc', None) => wal.scan_list fn b acc'
    | r => r
    end.
Proof.
  revert acc. induction a as [|[o r] a IH]; intros acc; cbn; [done|].
  destruct (fn o r acc) as [acc' [e|]]; [done|apply IH].
Qed.

Lemma replay_txns txns : forall st V m n s o,
  replayed st V m [] n s -> Forall ltxn_ok txns ->
  exists st', wal.scan_list replayRecord (wal.offsets o (log_recs txns)) st = (st', None)
    /\ replayed st' (put_recs V (concat (lt_data <$> txns))) (max_rec_ts m (log_recs txns)) []
         (n + len txns) (log_sessions s txns).
Proof.
  induction txns as [|x txns IH]; intros st V m n s o Hst Hok.
  - exists st. split; [done|]. cbn. rewrite len_nil, Z.add_0_r. done.
  - apply Forall_cons in Hok as [Hx Hok]. pose proof Hx as (Hd & _).
    unfold log_recs. rewrite fmap_cons. cbn [concat]. fold (log_recs txns). unfold ltxn_recs at 1.
    rewrite <- app_assoc, offsets_app, scan_list_app.
    assert (Forall data_ok (lt_data x)) as Hdat
      by (eapply Forall_impl; [exact Hd|]; intros r [H _]; exact H).
    destruct (replay_datas (lt_data x) st V m [] n s o Hst Hdat) as (st1 & -> & Hst1).
    cbn [app wal.offsets wal.scan_list].
    destruct (replay_commit st1 V _ n s (o + len (record.encs (lt_data x))) x Hst1 Hx)
      as (st2 & -> & Hst2).
    destruct (IH st2 _ _ _ _ (o + len (record.encs (lt_data x)) + record.size (lt_commit x)) Hst2 Hok)
      as (st' & E & Hst').
    exists st'. rewrite E. split; [done|]. rewrite len_cons.
    replace (n + (1 + len txns)) with (n + 1 + len txns) by lia.
    unfold put_recs, max_rec_ts in *. rewrite fmap_cons. cbn [concat log_sessions foldl].
    rewrite !foldl_app. unfold ltxn_recs. rewrite foldl_app. exact Hst'.
Qed.

Lemma ltxn_recs_wf txns : Forall ltxn_ok txns -> Forall record.wf (log_recs txns).
Proof.
  induction 1 as [|x txns (Hd & Hc & _) _ IH]; [constructor|]. unfold log_recs. rewrite fmap_cons.
  cbn [concat]. apply Forall_app. split; [|done]. apply Forall_app. split.
  - eapply Forall_impl; [exact Hd|]. intros r [[H _] _]. exact H.
  - by apply Forall_singleton.
Qed.

Definition start_state (disk : Disk) (maxTS : Z) (c : coins) : Replay :=
  MkReplay maxTS [] 0 (dbdisk.readSessionsFile (d_sessions disk)) Memtable.New c.

Lemma start_replayed disk m c :
  replayed (start_state disk m c) ∅ m [] 0 (dbdisk.readSessionsFile (d_sessions disk)).
Proof. split; try done. split; [|done]. exists []. apply Memtable.New_models. Qed.

(** What [OpenWith] builds from a replay that ran to the end. *)
Definition opened (disk : Disk) (o : Options) (w : wal.WAL) (ssts : list sstable.Reader)
  (mapp : Z) (st : Replay) : DB :=
  let ids := discoverSSTables (d_ssts disk) in
  let recovered := u64 (dbdisk.readAppliedBase (d_base disk) + rp_commits st) in
  let recovered := if decide (mapp > recovered) then mapp else recovered in
  MkDB (normalise o) w (rp_mt st) None ssts (reverse ids)
    (match last ids with Some id => id + 1 | None => 1 end) (u64 (rp_maxTS st + 1)) recovered
    recovered (rp_maxTS st) (rp_sessions st) false false ∅ (negb (DisableBackgroundCompaction o))
    (rp_rng st).

Lemma OpenWith_scan rs torn disk o c ssts mts mapp :
  Forall record.wf rs -> len (record.encs rs) < 2 ^ 63 ->
  torn = [] \/ record.Decode torn = Err record.UnexpectedEOF
  \/ record.Decode torn = Err record.ErrCorrupt ->
  openTables (d_ssts disk) (reverse (discoverSSTables (d_ssts disk))) [] 0 0 = Ok (ssts, mts, mapp) ->
  OpenWith (Some (record.encs rs ++ torn)) disk o c
  = match wal.scan_list replayRecord (wal.offsets 0 rs) (start_state disk mts c) with
    | (_, Some None) => Panic
    | (_, Some (Some e)) => Err e
    | (st, None) =>
        Ok (opened disk o (wal.opened rs torn 0 (SyncOnWrite o)) ssts mapp st)
    end.
Proof.
  intros Hwf Hlt Htorn Htab. unfold OpenWith. rewrite Htab. cbn [mbind outcome_bind].
  rewrite (wal.OpenWith_torn rs torn 0) by done.
  rewrite (wal.Scan_holds replayRecord _ rs) by (by apply wal.holds_reopened).
  fold (start_state disk mts c).
  destruct (wal.scan_list replayRecord (wal.offsets 0 rs) (start_state disk mts c)) as [st [[e|]|]]; done.
Qed.

Lemma replay_log txns tail disk m c :
  Forall ltxn_ok txns -> Forall data_ok tail ->
  exists st, wal.scan_list replayRecord (wal.offsets 0 (log_recs txns ++ tail)) (start_state disk m c)
             = (st, None)
    /\ replayed st (committed txns) (max_rec_ts m (log_recs txns ++ tail)) tail (len txns)
         (log_sessions (dbdisk.readSessionsFile (d_sessions disk)) txns).
Proof.
  intros Htx Htl. rewrite offsets_app, scan_list_app.
  destruct (replay_txns txns _ ∅ m 0 _ 0 (start_replayed disk m c) Htx) as (st1 & -> & Hst1).
  destruct (replay_datas tail st1 _ _ _ _ _ (0 + len (record.encs (log_recs txns))) Hst1 Htl)
    as (st & E & Hst). exists st. split; [done|]. cbn [app] in Hst. rewrite Z.add_0_l in Hst.
  unfold max_rec_ts in *. by rewrite foldl_app.
Qed.

(** The marker of another transaction after an uncommitted tail. *)
Lemma replay_blocked txns r tail x disk m c :
  Forall ltxn_ok txns -> Forall data_ok (r :: tail) -> ltxn_ok x ->
  record.Timestamp r <> record.Timestamp (lt_commit x) ->
  exists st, wal.scan_list replayRecord
      (wal.offsets 0 ((log_recs txns ++ r :: tail) ++ ltxn_recs x)) (start_state disk m c)
    = (st, Some (Some (ErrReplayTS (record.Timestamp r) (record.Timestamp (lt_commit x))))).
Proof.
  intros Htx Htl (Hd & _ & Hop) Hne. rewrite offsets_app, scan_list_app.
  destruct (replay_log txns (r :: tail) disk m c Htx Htl) as (st1 & -> & Hst1).
  unfold ltxn_recs. rewrite offsets_app, scan_list_app.
  assert (Forall data_ok (lt_data x)) as Hdat
    by (eapply Forall_impl; [exact Hd|]; intros y [H _]; exact H).
  destruct (replay_datas (lt_data x) st1 _ _ _ _ _
              (0 + len (record.encs (log_recs txns ++ r :: tail))) Hst1 Hdat) as (st2 & -> & Hst2).
  cbn [wal.offsets wal.scan_list]. unfold replayRecord. rewrite Hop.
  rewrite decide_False by (intros [H|H]; discriminate H). rewrite decide_True by done.
  rewrite (rd_buf _ _ _ _ _ _ Hst2). cbn [app]. rewrite applyBuffer_mismatch by done. eauto.
Qed.

(** ** What a commit does to the log *)

Lemma set_sstables_id d : set_sstables d (sstables d) = d.
Proof. by destruct d. Qed.

Lemma newerInTables_length ssts k s : length (newerInTables ssts k s).1 = length ssts.
Proof.
  induction ssts as [|r ssts IH]; [done|]. cbn [newerInTables].
  destruct (sstable.NewestVersionTS r k) as [r' [found|e|]]; [|done..].
  destruct (match found with Some ts => bool_decide (ts > s) | None => false end); [done|].
  destruct (newerInTables ssts k s) as [rs o]. cbn in *. by rewrite IH.
Qed.

Lemma hasCommitNewer_frame d k s :
  exists ss, (hasCommitNewerThanLocked d k s).1 = set_sstables d ss /\ length ss = length (sstables d).
Proof.
  assert (exists ss, d = set_sstables d ss /\ length ss = length (sstables d)) as Hid
    by (exists (sstables d); by rewrite set_sstables_id).
  unfold hasCommitNewerThanLocked.
  destruct (newerInMem (memtable d) k s) as [[|]|]; [done| |done].
  destruct (match frozen d with None => Some false | Some fm => newerInMem fm k s end) as [[|]|];
    [done| |done].
  pose proof (newerInTables_length (sstables d) k s) as Hl.
  destruct (newerInTables (sstables d) k s) as [rs o]. eauto.
Qed.

Lemma checkConflicts_frame keys s : forall d,
  exists ss, (checkConflicts d keys s).1 = set_sstables d ss /\ length ss = length (sstables d).
Proof.
  induction keys as [|k keys IH]; intros d; cbn [checkConflicts].
  - exists (sstables d). by rewrite set_sstables_id.
  - destruct (hasCommitNewer_frame d k s) as (ss & E & Hl).
    destruct (hasCommitNewerThanLocked d k s) as [d1 [[|]|e|]]; cbn [fst] in *; subst d1; eauto.
    destruct (IH (set_sstables d ss)) as (ss' & -> & Hl'). exists ss'. cbn in *.
    split; [done|congruence].
Qed.

(** Without a new table, the size check changed neither the log nor the disk. *)
Lemma maybeFlush_no_table d disk d' disk' :
  maybeFlush d disk = Some (d', disk', None) -> length (sstables d') = length (sstables d) ->
  db_wal d' = db_wal d /\ disk' = disk.
Proof.
  unfold maybeFlush. case_decide; [|by intros [= <- <-]].
  unfold flushLocked. case_decide as Hlen.
  - cbn [mbind option_bind]. intros [= <- <-] _. unfold signalCompact. by destruct (_ || _).
  - destruct (addFrozen _ _) as [[w|e|]|]; cbn [mbind option_bind]; try done.
    destruct (sstable.Finish w) as [[w' file]|e|]; try done.
    destruct (sstable.OpenReader file) as [r|e|]; try done.
    destruct (wal.OpenWith None _ _) as [nw|e|]; try done.
    intros [= <- <-] Hl. exfalso. unfold signalCompact in Hl.
    destruct (_ || _); cbn in Hl; lia.
Qed.

(** The marker [Commit] appends. *)
Definition marker (ts : Z) : record.Rec := record.MkRec OpCommit ts [] [].

Lemma Commit_log d disk t d' disk' t' :
  Commit d disk t = Some (d', disk', t', Committed) -> writes t <> ∅ ->
  exists w offs, wal.AppendAll (db_wal d) (dataRecords t (nextTimestamp d) ++ [marker (nextTimestamp d)])
                 = Ok (w, offs)
    /\ (length (sstables d') = length (sstables d) -> db_wal d' = w /\ disk' = disk).
Proof.
  unfold Commit. destruct (finished t); [done|]. destruct (commitOverride _); [done|].
  destruct (closed _); [done|]. intros H Hne.
  rewrite decide_False in H by (by rewrite map_size_empty_iff).
  pose proof (checkConflicts_frame (map_to_list (writes t)).*1 (readSnap t) (unregisterTxn d t)) as Hfr.
  destruct (checkConflicts (unregisterTxn d t) (map_to_list (writes t)).*1 (readSnap t)) as [d1 [u|e|]];
    [|done..]. destruct Hfr as (ss & E & Hl). cbn [fst] in E. subst d1.
  cbn [nextTimestamp set_sstables unregisterTxn set_activeTxns db_wal set_nextTimestamp] in H.
  fold (marker (nextTimestamp d)) in H.
  destruct (wal.AppendAll (db_wal d) _) as [[w offs]|e|] eqn:Ew; [|done..].
  exists w, offs. split; [done|].
  destruct (applyRecords _ _ _) as [[mt cc]|e|]; [|done..].
  destruct (maybeFlush _ _) as [[[d5 disk5] e]|] eqn:Ef; [|done]. cbn [mbind option_bind] in H.
  destruct e; [done|]. injection H as <- <- _. intros Hlen.
  apply maybeFlush_no_table in Ef as [Hw Hd]; [done|].
  cbn [sstables set_applied set_memtable set_wal set_nextTimestamp set_sstables unregisterTxn
       set_activeTxns] in *. congruence.
Qed.

Lemma max_rec_ts_le m rs r : r ∈ rs -> record.Timestamp r <= max_rec_ts m rs.
Proof.
  unfold max_rec_ts. revert m. induction rs as [|x rs IH]; intros m Hin; [by apply elem_of_nil in Hin|].
  apply elem_of_cons in Hin as [->|Hin]; cbn; [|by apply IH]. clear.
  assert (forall a, a <= foldl (fun m r => Z.max m (record.Timestamp r)) a rs) as H.
  { induction rs as [|y rs IH]; intros a; cbn; [lia|]. specialize (IH (Z.max a (record.Timestamp y))). lia. }
  specialize (H (Z.max m (record.Timestamp x))). lia.
Qed.

(** The transaction a commit writes to the log. *)
Definition commit_ltxn (t : Txn) (ts : Z) : ltxn := MkLTxn (dataRecords t ts) (marker ts).

Lemma commit_ltxn_ok t ts :
  is_u64 ts -> Forall data_ok (dataRecords t ts) -> ltxn_ok (commit_ltxn t ts).
Proof.
  intros Hts Hdat. split; [|split; [|done]].
  - apply Forall_forall. intros y Hy. rewrite Forall_forall in Hdat. split; [by apply Hdat|].
    cbn in Hy. apply list_elem_of_fmap in Hy as (k & -> & _).
    by destruct (default (x00, []) (writes t !! k)).
  - split_and!; [done|done|by_decide|by_decide].
Qed.

Lemma AppendAll_ltxn w w' offs rs x :
  wal.holds w rs -> ltxn_ok x -> len (record.encs rs) + len (record.encs (ltxn_recs x)) < 2 ^ 63 ->
  wal.AppendAll w (ltxn_recs x) = Ok (w', offs) -> wal.holds w' (rs ++ ltxn_recs x).
Proof.
  intros Hw Hx Hlt E. destruct (wal.AppendAll_holds (ltxn_recs x) _ _ Hw) as (w2 & E2 & H2 & _).
  - pose proof (ltxn_recs_wf [x]) as Hxw. unfold log_recs in Hxw. cbn in Hxw.
    rewrite app_nil_r in Hxw. apply Hxw. by apply Forall_singleton.
  - exact Hlt.
  - congruence.
Qed.

Lemma len_commit_ltxn t ts :
  len (record.encs (ltxn_recs (commit_ltxn t ts))) = len (record.encs (dataRecords t ts)) + 21.
Proof.
  unfold ltxn_recs. cbn [commit_ltxn lt_data lt_commit].
  rewrite record.encs_app, len_app, record.encs_cons, app_nil_r, record.len_record_Encode. done.
Qed.

(** ** Properties *)

(** C11. Crash recovery: opening a store whose log is a run of committed
    transactions, an uncommitted tail of data records and possibly a torn or
    corrupt last record brings back exactly the committed transactions: the
    memtable holds precisely their versions, the session table is the persisted
    one advanced by their markers, and the applied Raft index is the larger of
    the footers' and the base plus the number of commit markers. *)
Theorem recovery_committed txns tail torn disk o c ssts mts mapp :
  Forall ltxn_ok txns -> Forall data_ok tail ->
  torn = [] \/ record.Decode torn = Err record.UnexpectedEOF
  \/ record.Decode torn = Err record.ErrCorrupt ->
  len (record.encs (log_recs txns ++ tail)) < 2 ^ 63 ->
  openTables (d_ssts disk) (reverse (discoverSSTables (d_ssts disk))) [] 0 0 = Ok (ssts, mts, mapp) ->
  exists d, OpenWith (Some (record.encs (log_recs txns ++ tail) ++ torn)) disk o c = Ok d
    /\ holds_versions (memtable d) (committed txns)
    /\ frozen d = None /\ sstables d = ssts
    /\ sessions d = log_sessions (dbdisk.readSessionsFile (d_sessions disk)) txns
    /\ RecoveredAppliedIndex d
       = Z.max mapp (u64 (dbdisk.readAppliedBase (d_base disk) + u64 (len txns)))
    /\ appliedTS d = max_rec_ts mts (log_recs txns ++ tail)
    /\ nextTimestamp d = u64 (appliedTS d + 1).
Proof.
  intros Htx Htl Htorn Hlt Htab.
  assert (Forall record.wf (log_recs txns ++ tail)) as Hwf.
  { apply Forall_app. split; [by apply ltxn_recs_wf|]. eapply Forall_impl; [exact Htl|]. by intros ? []. }
  rewrite (OpenWith_scan _ torn disk o c ssts mts mapp) by done.
  destruct (replay_log txns tail disk mts c Htx Htl) as (st & -> & [Hm Hmax Hb Hn Hs]).
  eexists. split; [done|]. unfold opened.
  cbn [memtable frozen sstables sessions RecoveredAppliedIndex recoveredApplied appliedTS nextTimestamp].
  rewrite Hmax, Hn, Hs. split_and!; try done. case_decide; lia.
Qed.

(** A torn commit makes the store unopenable: if a crash leaves data records
    without their marker at the end of the log, the store opens and discards
    them, but keeps them in the log; after one more successful commit (that does
    not trigger a flush) the next open fails with a timestamp mismatch, and so
    does every later one. *)
Theorem torn_commit_blocks_reopen txns tail disk o c ssts mts mapp d t d' disk' t' c' :
  Forall ltxn_ok txns -> Forall data_ok tail -> tail <> [] ->
  openTables (d_ssts disk) (reverse (discoverSSTables (d_ssts disk))) [] 0 0 = Ok (ssts, mts, mapp) ->
  OpenWith (Some (record.encs (log_recs txns ++ tail))) disk o c = Ok d ->
  0 <= mts -> max_rec_ts mts (log_recs txns ++ tail) < 2 ^ 64 - 1 ->
  writes t <> ∅ -> Forall data_ok (dataRecords t (nextTimestamp d)) ->
  len (record.encs (log_recs txns ++ tail)) + len (record.encs (dataRecords t (nextTimestamp d))) + 21
    < 2 ^ 63 ->
  Commit d disk t = Some (d', disk', t', Committed) ->
  NumSSTablesForTesting d' = NumSSTablesForTesting d ->
  exists ts, OpenWith (Some (wal.f (db_wal d'))) disk' o c' = Err (ErrReplayTS ts (nextTimestamp d)).
Proof.
  intros Htx Htl Hne Htab Hopen Hm0 Hmax Hw Hdat Hsz Hcommit Hnum.
  assert (Forall record.wf (log_recs txns ++ tail)) as Hwf.
  { apply Forall_app. split; [by apply ltxn_recs_wf|]. eapply Forall_impl; [exact Htl|]. by intros ? []. }
  pose proof (len_nonneg (record.encs (dataRecords t (nextTimestamp d)))).
  rewrite <- (app_nil_r (record.encs (log_recs txns ++ tail))) in Hopen.
  rewrite (OpenWith_scan _ [] disk o c ssts mts mapp) in Hopen by (done || lia || auto).
  destruct (replay_log txns tail disk mts c Htx Htl) as (st & Est & [_ Hmx _ _ _]).
  rewrite Est in Hopen. injection Hopen as Hd.
  assert (nextTimestamp d = max_rec_ts mts (log_recs txns ++ tail) + 1) as Hts.
  { rewrite <- Hd. cbn [opened nextTimestamp]. rewrite Hmx. apply u64_small. unfold is_u64.
    destruct tail as [|r tl]; [done|].
    pose proof (max_rec_ts_le mts (log_recs txns ++ r :: tl) r
                  ltac:(apply elem_of_app; right; apply elem_of_cons; auto)).
    apply Forall_cons in Htl as [[(_ & Hr & _) _] _]. unfold is_u64 in Hr. lia. }
  assert (is_u64 (nextTimestamp d)) as Hu64.
  { rewrite <- Hd. cbn [opened nextTimestamp]. apply is_u64_u64. }
  destruct (Commit_log d disk t d' disk' t' Hcommit Hw) as (w & offs & Ew & Hlog).
  destruct Hlog as [-> ->].
  { unfold NumSSTablesForTesting, len in Hnum. lia. }
  set (x := commit_ltxn t (nextTimestamp d)).
  assert (ltxn_ok x) as Hx by (by apply commit_ltxn_ok).
  assert (wal.holds w ((log_recs txns ++ tail) ++ ltxn_recs x)) as Hw'.
  { apply (AppendAll_ltxn (db_wal d) w offs); [|done| |done].
    - rewrite <- Hd. cbn [opened db_wal]. apply wal.holds_reopened; [done|lia].
    - unfold x. rewrite len_commit_ltxn. lia. }
  rewrite (wal.holds_f _ _ Hw').
  destruct tail as [|r tl]; [done|].
  assert (record.Timestamp r <> record.Timestamp (lt_commit x)) as Hrne.
  { pose proof (max_rec_ts_le mts (log_recs txns ++ r :: tl) r
                  ltac:(apply elem_of_app; right; apply elem_of_cons; auto)). cbn. lia. }
  destruct (replay_blocked txns r tl x disk mts c' Htx Htl Hx Hrne) as (st2 & E2).
  exists (record.Timestamp r).
  rewrite <- (app_nil_r (record.encs _)).
  rewrite (OpenWith_scan _ [] disk o c' ssts mts mapp); [|apply Hw'|apply Hw'|by left|done].
  by rewrite E2.
Qed.

(** ** Witnesses *)

Definition demo_coins : coins := fun n h => Nat.odd n && (h <? 2)%nat.

Definition demo_txns : list ltxn :=
  [MkLTxn [record.MkRec OpPut 1 [x61] [x31]] (record.MkRec OpCommit 1 [x73] (dbdisk.encodeSeq 5))].

(** A put whose marker was lost. *)
Definition demo_tail : list record.Rec := [record.MkRec OpPut 2 [x62] [x32]].

Definition no_disk : Disk := MkDisk ∅ None None.
Definition demo_opts : Options := MkOptions true 0 0 true.

#[local] Instance data_ok_decision r : Decision (data_ok r).
Proof. unfold data_ok. apply _. Defined.

#[local] Instance ltxn_ok_decision x : Decision (ltxn_ok x).
Proof. unfold ltxn_ok. apply _. Defined.

Lemma recovery_committed_witness :
  exists d, OpenWith (Some (record.encs (log_recs demo_txns ++ demo_tail) ++ [x01; x02])) no_disk demo_opts
              demo_coins = Ok d
    /\ holds_versions (memtable d) (committed demo_txns) /\ SessionLastSeq d [x73] = 5
    /\ RecoveredAppliedIndex d = 1.
Proof.
  destruct (recovery_committed demo_txns demo_tail [x01; x02] no_disk demo_opts demo_coins [] 0 0)
    as (d & E & Hm & _ & _ & Hs & Ha & _).
  - by_decide.
  - by_decide.
  - right. left. vm_compute. reflexivity.
  - by_decide.
  - vm_compute. reflexivity.
  - exists d. split; [exact E|]. split; [exact Hm|]. unfold SessionLastSeq. rewrite Hs, Ha.
    split; vm_compute; reflexivity.
Defined.

Definition demo_write : Txn := MkTxn 0 2 {[ [x63] := (OpPut, [x33]) ]} false [] 0.

Definition empty_db : DB :=
  MkDB demo_opts (wal.MkWAL [] 0 0 0 true false) Memtable.New None [] [] 1 1 0 0 0 ∅ false false ∅
    false demo_coins.

Definition demo_db : DB :=
  get_ok empty_db
    (OpenWith (Some (record.encs (log_recs demo_txns ++ demo_tail))) no_disk demo_opts demo_coins).

Definition demo_committed : DB * Disk * Txn * commit_result :=
  default (empty_db, no_disk, demo_write, Delegated) (Commit demo_db no_disk demo_write).

(** One put after the torn commit, and the store does not open any more. *)
Lemma torn_commit_blocks_reopen_witness :
  exists ts, OpenWith (Some (wal.f (db_wal demo_committed.1.1.1))) demo_committed.1.1.2 demo_opts demo_coins
             = Err (ErrReplayTS ts (nextTimestamp demo_db)).
Proof.
  apply (torn_commit_blocks_reopen demo_txns demo_tail no_disk demo_opts demo_coins [] 0 0 demo_db
           demo_write demo_committed.1.1.1 demo_committed.1.1.2 demo_committed.1.2 demo_coins).
  - by_decide.
  - by_decide.
  - by_decide.
  - vm_compute. reflexivity.
  - apply is_ok_get. vm_compute. reflexivity.
  - done.
  - by_decide.
  - intros H. apply (f_equal (lookup [x63])) in H. vm_compute in H. discriminate H.
  - by_decide.
  - by_decide.
  - assert (demo_committed.2 = Committed) as E by (vm_compute; reflexivity).
    rewrite <- E, <- !surjective_pairing. apply is_Some_default. vm_compute. reflexivity.
  - vm_compute. reflexivity.
Defined.

End replay.
