(* ===== verification/DbStore.v ===== *)
(** * The store against its specification (internal/db/db.go, txn.go)

    The abstract store is one map of versions: the union of the memtables and the
    tables.  [models] says when a [DB] implements it; this file proves the reads,
    the commit with its conflict check, the flush and the replicated apply against
    it. *)

From Stdlib Require Import ZArith Lia.
From Stdlib Require Import Strings.Byte.
From stdpp Require Import base list gmap sorting.
From S2P Require Import Prelude.
From S2P Require Import MvccKey.
From S2P Require Import OrderedMap.
From S2P Require Import Skiplist.
From S2P Require Import Versions.
From S2P Require Import Memtable.
From S2P Require Import RecordFmt.
From S2P Require Import Bloom.
From S2P Require Import Wal.
From S2P Require Import SSTable.
From S2P Require Import DbDisk.
From S2P Require Import Db.
From S2P Require Import Layers.
From S2P Require Import DbReplay.

#[local] Open Scope Z_scope.
#[local] Open Scope bytes_scope.

Module store.
Import db replay.

Abbreviation adds := (list sstable.add).

Definition frozen_layer (VF : option vmap) : list vmap :=
  match VF with Some V => [V] | None => [] end.

Definition layers (VM : vmap) (VF : option vmap) (tables : list adds) : list vmap :=
  VM :: frozen_layer VF ++ (sstable.versions <$> tables).

Definition contents (VM : vmap) (VF : option vmap) (tables : list adds) : vmap :=
  stack (layers VM VF tables).

Definition frozen_models (f : option MT) (VF : option vmap) : Prop :=
  match f, VF with
  | None, None => True
  | Some fm, Some V => exists l, Memtable.models fm V l
  | _, _ => False
  end.

(** The open store [d] holds the versions [VM] in its memtable, [VF] in the
    frozen one, and [tables]; its log holds the transactions of the memtable. *)
Record models (d : DB) (VM : vmap) (VF : option vmap) (tables : list adds) : Prop := {
  sm_mem : holds_versions (memtable d) VM;
  sm_frozen : frozen_models (frozen d) VF;
  sm_tables : Forall2 table_ok (sstables d) tables;
  sm_ordered : ordered (layers VM VF tables);
  sm_below : forall k t, is_Some (contents VM VF tables !! (k, t)) -> t < nextTimestamp d;
  sm_next : 1 <= nextTimestamp d
}.

Lemma models_frame d d' VM VF tables :
  models d VM VF tables -> memtable d' = memtable d -> frozen d' = frozen d ->
  Forall2 table_ok (sstables d') tables -> nextTimestamp d' = nextTimestamp d ->
  models d' VM VF tables.
Proof. intros [] E1 E2 H E3. split; rewrite ?E1, ?E2, ?E3; done. Qed.

(** ** Reads *)

Lemma mem_GetAsOf fm V l k s :
  Memtable.models fm V l -> readable V k -> 0 <= s < 2 ^ 56 ->
  exists res, Memtable.GetAsOf fm k s = Some res /\ sees V k s res.
Proof.
  intros Hm Hc Hs. rewrite (Memtable.GetAsOf_seek _ _ _ _ _ Hm). eexists. split; [done|].
  destruct (seek_visible V l k s (Memtable.models_encodes _ _ _ Hm) (readable_clustered _ _ Hc) Hs)
    as [(t & op & v & Hv & ->)|[Hv ->]]; cbn; [|done]. by exists t, (op, v).
Qed.

Lemma getAsOfSnapshot_spec d VM VF tables k s :
  models d VM VF tables -> readable (contents VM VF tables) k -> 0 <= s < 2 ^ 56 ->
  exists ssts res, getAsOfSnapshot d k s = (set_sstables d ssts, client res)
    /\ Forall2 table_ok ssts tables /\ sees (contents VM VF tables) k s res.
Proof.
  intros [[[l Hm] _] Hf Htab Hord _ _] Hc Hs. unfold contents, layers in *. cbn [ordered] in Hord.
  destruct Hord as [HabM Hord]. rewrite stack_cons in *. unfold getAsOfSnapshot.
  assert (forall V W : vmap, readable (V ∪ W) k -> readable V k /\ readable W k) as Hsub.
  { intros V W H. split; eapply readable_sub; try exact H; intros kt; rewrite union_dom; auto. }
  apply Hsub in Hc as [HcM Hc].
  destruct (mem_GetAsOf _ _ _ k s Hm HcM Hs) as (res & -> & Hres). destruct res as [x|].
  { exists (sstables d), (Some x). rewrite set_sstables_id. split_and!; [done..|]. by apply sees_first. }
  destruct (frozen d) as [fm|], VF as [VF|]; cbn in Hf; try done.
  - destruct Hf as [lf Hf]. cbn [frozen_layer app] in *. rewrite stack_cons in *. destruct Hord as [HabF Hord].
    apply Hsub in Hc as [HcF Hc].
    destruct (mem_GetAsOf _ _ _ k s Hf HcF Hs) as (res & -> & HresF). destruct res as [x|].
    { exists (sstables d), (Some x). rewrite set_sstables_id. split_and!; [done..|].
      apply sees_second; [done|done|]. by apply sees_first. }
    destruct (getInTables_layered (sstables d) tables k s Htab Hord Hc Hs) as (ssts & res & -> & Htab' & Hres').
    exists ssts, res. split_and!; [by destruct res|done|].
    apply sees_second; [done|done|]. by apply sees_second.
  - cbn [frozen_layer app] in *.
    destruct (getInTables_layered (sstables d) tables k s Htab Hord Hc Hs) as (ssts & res & -> & Htab' & Hres').
    exists ssts, res. split_and!; [by destruct res|done|]. by apply sees_second.
Qed.

(** ** The conflict check *)

(** The condition under which the newest version of [k] is found: text keys, and
    no stored key extends [k]. *)
Definition findable (V : vmap) (k : bytes) : Prop :=
  text_map V /\ text_key k /\ forall k' t, is_Some (V !! (k', t)) -> k `prefix_of` k' -> k' = k.

Lemma findable_sub V W k : dom_sub V W -> findable W k -> findable V k.
Proof.
  intros H (H1 & H2 & H3). split_and!; [|done|].
  - intros k' t Hk. by apply H1, H.
  - intros k' t Hk. by apply (H3 k' t), H.
Qed.

Definition has_newer (V : vmap) (k : bytes) (s : Z) : Prop := exists t, is_Some (V !! (k, t)) /\ s < t.

Lemma has_newer_union V W k s : has_newer (V ∪ W) k s <-> has_newer V k s \/ has_newer W k s.
Proof. unfold has_newer. setoid_rewrite union_dom. naive_solver. Qed.

Lemma newest_newer V k s (found : option Z) :
  match found with Some t => newest V k t | None => forall t, V !! (k, t) = None end ->
  (match found with Some ts => bool_decide (ts > s) | None => false end) = true <-> has_newer V k s.
Proof.
  destruct found as [t|].
  - intros [Ht Hmax]. rewrite bool_decide_eq_true. split.
    + intros Hts. exists t. split; [done|lia].
    + intros (t' & Ht' & Hlt). specialize (Hmax t' Ht'). lia.
  - intros Hn. split; [done|]. intros (t & [ov Ht] & _). by rewrite Hn in Ht.
Qed.

Lemma newerInMem_spec fm V l k s :
  Memtable.models fm V l -> findable V k ->
  exists b, newerInMem fm k s = Some b /\ (b = true <-> has_newer V k s).
Proof.
  intros Hm (Htx & Hk & Hext). unfold newerInMem. rewrite (Memtable.NewestVersionTS_seek _ _ _ _ Hm).
  cbn [mbind option_bind]. eexists. split; [done|]. apply newest_newer.
  destruct (seek_newest V l k (Memtable.models_encodes _ _ _ Hm) Htx Hk Hext)
    as [(t & op & v & Hn & ->)|[Hn ->]]; cbn; [|done].
  rewrite Timestamp_Encode; [done|]. apply (text_map_u64 _ Htx k). by apply Hn.
Qed.

Lemma newerInTables_spec ssts tables k s :
  Forall2 table_ok ssts tables -> findable (layered tables) k ->
  exists ssts' b, newerInTables ssts k s = (ssts', Ok b) /\ Forall2 table_ok ssts' tables
    /\ (b = true <-> has_newer (layered tables) k s).
Proof.
  intros Htab Hf. induction Htab as [|r a ssts tables [Hok Hr] Htab IH].
  { exists [], false. split_and!; [done|constructor|]. split; [done|].
    intros (t & H & _). by apply stack_dom in H as (U & HU%elem_of_nil & _). }
  rewrite layered_cons in *. cbn [newerInTables].
  assert (findable (sstable.versions a) k /\ findable (layered tables) k) as [Hfa Hft].
  { split; eapply findable_sub; try exact Hf; intros kt; rewrite union_dom; auto. }
  destruct (sstable.sst_NewestVersionTS_seek r _ k Hr) as (r' & Hr' & ->).
  destruct Hfa as (Htx & Hk & Hext).
  pose proof (seek_newest (sstable.versions a) _ k (sstable.versions_encodes a Hok) Htx Hk Hext) as Hsk.
  set (found := (fun e => Timestamp e.1) <$> _).
  assert ((match found with Some ts => bool_decide (ts > s) | None => false end) = true
          <-> has_newer (sstable.versions a) k s) as Hb.
  { apply newest_newer. unfold found. destruct Hsk as [(t & op & v & Hn & ->)|[Hn ->]]; cbn; [|done].
    rewrite Timestamp_Encode; [done|]. apply (text_map_u64 _ Htx k). by apply Hn. }
  destruct (match found with Some ts => bool_decide (ts > s) | None => false end).
  - exists (r' :: ssts), true. split_and!; [done|by constructor|]. rewrite has_newer_union. naive_solver.
  - destruct (IH Hft) as (ssts' & b & -> & Htab' & Hb'). exists (r' :: ssts'), b.
    split_and!; [done|by constructor|]. rewrite has_newer_union, Hb'. naive_solver.
Qed.

Lemma hasCommitNewer_spec d VM VF tables k s :
  models d VM VF tables -> findable (contents VM VF tables) k ->
  exists ssts b, hasCommitNewerThanLocked d k s = (set_sstables d ssts, Ok b)
    /\ Forall2 table_ok ssts tables /\ (b = true <-> has_newer (contents VM VF tables) k s).
Proof.
  intros [[[l Hm] _] Hf Htab _ _ _] Hc. unfold contents, layers in *. rewrite stack_cons in *.
  assert (forall V W : vmap, findable (V ∪ W) k -> findable V k /\ findable W k) as Hsub.
  { intros V W H. split; eapply findable_sub; try exact H; intros kt; rewrite union_dom; auto. }
  apply Hsub in Hc as [HcM Hc]. unfold hasCommitNewerThanLocked.
  destruct (newerInMem_spec _ _ _ k s Hm HcM) as (b & -> & Hb). destruct b.
  { exists (sstables d), true. rewrite set_sstables_id, has_newer_union. split_and!; naive_solver. }
  assert (forall W b, (false = true <-> has_newer VM k s) -> (b = true <-> has_newer W k s) ->
    (b = true <-> has_newer (VM ∪ W) k s)) as Hcomb by (intros W b; rewrite has_newer_union; naive_solver).
  destruct (frozen d) as [fm|], VF as [VF|]; cbn in Hf; try done.
  - destruct Hf as [lf Hf]. cbn [frozen_layer app] in *. rewrite stack_cons in *. apply Hsub in Hc as [HcF Hc].
    destruct (newerInMem_spec _ _ _ k s Hf HcF) as (b & -> & HbF). destruct b.
    { exists (sstables d), true. rewrite set_sstables_id, !has_newer_union. split_and!; naive_solver. }
    destruct (newerInTables_spec (sstables d) tables k s Htab Hc) as (ssts & b & -> & Htab' & Hb').
    exists ssts, b. split_and!; [done..|]. apply Hcomb; [done|]. rewrite has_newer_union. naive_solver.
  - cbn [frozen_layer app] in *.
    destruct (newerInTables_spec (sstables d) tables k s Htab Hc) as (ssts & b & -> & Htab' & Hb').
    exists ssts, b. split_and!; [done..|]. by apply Hcomb.
Qed.

Lemma set_sstables_twice d a b : set_sstables (set_sstables d a) b = set_sstables d b.
Proof. done. Qed.

(** The check over the write set finds exactly the conflicts. *)
Lemma checkConflicts_spec keys s : forall d VM VF tables,
  models d VM VF tables -> (forall k, k ∈ keys -> findable (contents VM VF tables) k) ->
  exists ssts res, checkConflicts d keys s = (set_sstables d ssts, res) /\ Forall2 table_ok ssts tables
    /\ ((res = Ok tt /\ forall k, k ∈ keys -> ~ has_newer (contents VM VF tables) k s)
        \/ (res = Err ErrConflict /\ exists k, k ∈ keys /\ has_newer (contents VM VF tables) k s)).
Proof.
  induction keys as [|k keys IH]; intros d VM VF tables Hm Hc; cbn [checkConflicts].
  - exists (sstables d), (Ok tt). rewrite set_sstables_id. split_and!; [done|apply Hm|]. left.
    split; [done|]. intros k Hk. by apply elem_of_nil in Hk.
  - destruct (hasCommitNewer_spec d VM VF tables k s Hm) as (ssts & b & -> & Htab & Hb).
    { apply Hc, elem_of_cons. auto. }
    destruct b.
    + exists ssts, (Err ErrConflict). split_and!; [done..|]. right. split; [done|]. exists k.
      split; [apply elem_of_cons; auto|by apply Hb].
    + destruct (IH (set_sstables d ssts) VM VF tables) as (ssts' & res & -> & Htab' & Hres).
      { apply (models_frame d); done. }
      { intros k' Hk'. apply Hc, elem_of_cons. auto. }
      exists ssts', res. split_and!; [done..|]. destruct Hres as [[-> Hno]|[-> (k' & Hk' & Hy)]].
      * left. split; [done|]. intros k' [->|Hk']%elem_of_cons; [|by apply Hno].
        intros H. by apply Hb in H.
      * right. split; [done|]. exists k'. split; [apply elem_of_cons; auto|done].
Qed.

(** ** The flush *)

Definition mem_add (e : bytes * bytes) : sstable.add :=
  sstable.MkAdd (Memtable.decodeValue e.2).1 (UserKey e.1) (Memtable.decodeValue e.2).2 (Timestamp e.1).

Definition mem_adds (l : list (bytes * bytes)) : adds := mem_add <$> l.

Definition enc_shaped (l : list (bytes * bytes)) : Prop :=
  Forall (fun e => exists k t op v, is_u64 t /\ e = (Encode k t, op :: v)) l.

Lemma encodes_shaped V l : encodes V l -> enc_shaped l.
Proof. intros H. apply Forall_forall, (enc_shape _ _ H). Qed.

Lemma mem_adds_table l : enc_shaped l -> sstable.table_of (sstable.recs_of (mem_adds l)) = l.
Proof.
  induction 1 as [|e l (k & t & op & v & Ht & ->) _ IH]; [done|].
  unfold sstable.table_of, sstable.recs_of, mem_adds in *. rewrite !fmap_cons, IH. f_equal.
  unfold mem_add. cbn. by rewrite UserKey_Encode, (Timestamp_Encode k t Ht).
Qed.

Lemma encodes_map_unique V V' l : encodes V l -> encodes V' l -> V = V'.
Proof.
  intros H H'. apply map_eq. intros [k t]. apply option_eq. intros [op v].
  destruct (decide (is_u64 t)) as [Ht|Ht].
  - by rewrite <- (enc_elem _ _ H), <- (enc_elem _ _ H').
  - split; intros E; exfalso; apply Ht; [apply (enc_u64 _ _ H k)|apply (enc_u64 _ _ H' k)]; eauto.
Qed.

Lemma encodes_tail V k t op v l : is_u64 t ->
  encodes V ((Encode k t, op :: v) :: l) ->
  V !! (k, t) = Some (op, v) /\ encodes (delete (k, t) V) l.
Proof.
  intros Ht [Hs Hu He Hsh].
  assert (V !! (k, t) = Some (op, v)) as HV by (apply He; [done|apply elem_of_cons; auto]).
  apply sorted_keys_cons in Hs as [Hgt Hs]. rewrite Forall_forall in Hgt.
  split; [done|]. split; [done| | |].
  - intros k' t' [ov H]. apply lookup_delete_Some in H as [_ H]. apply (Hu k' t'). eauto.
  - intros k' t' op' v' Ht'. rewrite lookup_delete_Some, <- (He k' t' op' v' Ht'), elem_of_cons. split.
    + intros Hin. split; [|auto]. intros [= -> ->]. specialize (Hgt _ Hin). cbn in Hgt. by apply blt_irrefl in Hgt.
    + intros [Hne [[= E _ _]|?]]; [|done]. apply Encode_inj in E as [-> ->]; done.
  - intros e Hin. apply Hsh, elem_of_cons. auto.
Qed.

(** The table of a memtable is no larger than its footprint. *)
Lemma mem_adds_size l : forall V, encodes V l ->
  0 <= len (record.encs (sstable.recs_of (mem_adds l))) <= Memtable.footprint V.
Proof.
  induction l as [|e l IH]; intros V He.
  - assert (V = ∅) as -> by (eapply encodes_map_unique; [exact He|apply encodes_empty]). done.
  - pose proof (encodes_shaped _ _ He) as Hsh. apply Forall_cons in Hsh as [(k & t & op & v & Ht & ->) _].
    destruct (encodes_tail V k t op v l Ht He) as [HV He']. specialize (IH _ He').
    unfold mem_adds, sstable.recs_of in *. rewrite !fmap_cons, record.encs_cons, len_app.
    rewrite record.len_record_Encode, (Memtable.footprint_delete V (k, t) (op, v) HV).
    set (rest := record.encs (sstable.rec_of <$> (mem_add <$> l))) in *.
    unfold record.size, record.HeaderSize, Memtable.cost, mem_add, Memtable.entryOverhead.
    cbn [sstable.rec_of record.Key record.Value sstable.a_key sstable.a_ts sstable.a_value sstable.a_op fst snd
         Memtable.decodeValue].
    rewrite UserKey_Encode, (Timestamp_Encode k t Ht), len_Encode. unfold TimestampSize.
    pose proof (len_nonneg k). pose proof (len_nonneg v). rewrite ?len_cons. lia.
Qed.

(** Every version can be written to a table. *)
Definition writable (V : vmap) : Prop :=
  (forall k t op v, V !! (k, t) = Some (op, v) -> record.wf (record.MkRec op t (Encode k t) v))
  /\ Memtable.footprint V < 2 ^ 60.

Lemma mem_adds_ok V l : encodes V l -> writable V ->
  sstable.adds_ok (mem_adds l) /\ sstable.versions (mem_adds l) = V.
Proof.
  intros He [Hwf Hsz]. pose proof (encodes_shaped _ _ He) as Hsh.
  assert (sstable.adds_ok (mem_adds l)) as Hok.
  { split_and!.
    - apply Forall_fmap, Forall_forall. intros e Hin. destruct (enc_shape _ _ He e Hin) as (k & t & op & v & Ht & ->).
      cbn. unfold sstable.rec_of, mem_add. cbn. rewrite UserKey_Encode, (Timestamp_Encode k t Ht).
      apply Hwf. by apply (enc_elem _ _ He).
    - unfold sstable.sorted_recs. rewrite (mem_adds_table l Hsh). apply He.
    - pose proof (mem_adds_size l V He). lia. }
  split; [done|]. eapply encodes_map_unique; [|exact He].
  rewrite <- (mem_adds_table l Hsh) at 2. by apply sstable.versions_encodes.
Qed.

Lemma addFrozen_spec fm V l w w' :
  Memtable.models fm V l -> sstable.AddAll w (mem_adds l) = Ok w' -> addFrozen fm w = Some (Ok w').
Proof.
  intros [Hr He _ _] E. unfold addFrozen, Memtable.Iterate. rewrite (om_iterate_repr _ l) by done. f_equal.
  pose proof (encodes_shaped _ _ He) as Hsh. clear He Hr. revert w E.
  induction Hsh as [|e l (k & t & op & v & Ht & ->) _ IH]; intros w E; [cbn in E; by injection E as ->|].
  cbn [iter_list]. rewrite (Decode_Encode k t Ht). cbn [default].
  unfold mem_adds in E. rewrite fmap_cons in E. cbn [sstable.AddAll mem_add] in E.
  cbn [sstable.a_op sstable.a_key sstable.a_value sstable.a_ts mem_add Memtable.decodeValue fst snd] in E.
  rewrite UserKey_Encode, (Timestamp_Encode k t Ht) in E. cbn [Memtable.decodeValue].
  cbv beta iota delta [from_option id].
  destruct (sstable.Add w op k v t) as [w1| |]; [|done..]. cbn [mbind outcome_bind] in E. by apply IH.
Qed.

(** What [d'] keeps of [d] across a flush. *)
Definition flushed (d d' : DB) (r : sstable.Reader) : Prop :=
  exists w mt, wal.OpenWith None 0 (SyncOnWrite (opts d)) = Ok w /\ mt = Memtable.New
    /\ d' = set_after_flush (set_frozen d (Memtable.Freeze (memtable d)) mt) w mt r.

(** A flush always succeeds, and turns the memtable into the newest table. *)
Lemma flushLocked_spec d disk VM VF tables :
  models d VM VF tables -> writable VM -> is_u64 (appliedIndex d) -> VM <> ∅ ->
  exists d' disk' file r a, flushLocked d disk = Some (d', disk', None)
    /\ flushed d d' r /\ table_ok r a /\ sstable.versions a = VM
    /\ sstable.OpenReader file = Ok r /\ sstable.AppliedIndex r = appliedIndex d
    /\ sstable.MaxTimestamp r = sstable.max_ts a
    /\ d_ssts disk' = <[nextID d := file]> (d_ssts disk)
    /\ d_base disk' = dbdisk.writeAppliedBase (appliedIndex d)
    /\ d_sessions disk' = dbdisk.writeSessionsFile (sessions d).
Proof.
  intros [[[l Hm] Hfr] _ _ _ _ _] Hwr Hai Hne. unfold flushLocked.
  assert (Memtable.Len (memtable d) = Z.of_nat (size VM)) as Hlen.
  { unfold Memtable.Len. rewrite (om_len_repr _ l) by apply Hm. unfold len.
    by rewrite (Memtable.models_len _ _ _ Hm). }
  rewrite decide_False.
  2: { rewrite Hlen. intros H. apply Hne, map_size_empty_iff. lia. }
  destruct (mem_adds_ok VM l (Memtable.models_encodes _ _ _ Hm) Hwr) as [Hok Hv].
  set (fm := Memtable.Freeze (memtable d)).
  assert (Memtable.models fm VM l) as Hfm by (destruct Hm; by split).
  destruct (sstable.AddAll_models (mem_adds l) _ []
              (sstable.NewWriter_models (Memtable.Len fm) (appliedIndex d)) Hok) as (w & Ew & Hw & Hwa).
  cbn [app] in Hw. rewrite (addFrozen_spec fm VM l _ w Hfm Ew). cbn [mbind option_bind].
  pose proof Hok as (Hwf & Hs & Hlt).
  destruct (sstable.Finish_Open w _ Hw Hwf Hs Hlt ltac:(by rewrite Hwa))
    as (w' & file & r & -> & _ & _ & Er & Hr & Hmx & Ha).
  rewrite Er. destruct (wal.OpenWith None 0 (SyncOnWrite (opts d))) as [nw| |] eqn:Ewal; [|by vm_compute in Ewal..].
  eexists _, _, file, r, (mem_adds l). split_and!; [done| |done|done|done| | |done|done|done].
  - exists nw, Memtable.New. done.
  - by rewrite Ha, Hwa.
  - exact Hmx.
Qed.

(** [file] opens as a table that holds [a]. *)
Definition opens_as (file : bytes) (a : adds) : Prop :=
  exists r, sstable.OpenReader file = Ok r /\ table_ok r a /\ sstable.MaxTimestamp r = sstable.max_ts a
    /\ is_u64 (sstable.AppliedIndex r).

(** At most one table was written, under the next id. *)
Definition filed (d : DB) (disk : Disk) (tables : list adds) (d' : DB) (disk' : Disk) (tables' : list adds) : Prop :=
  (sstableIDs d' = sstableIDs d /\ nextID d' = nextID d /\ d_ssts disk' = d_ssts disk /\ tables' = tables)
  \/ exists file a, sstableIDs d' = nextID d :: sstableIDs d /\ nextID d' = nextID d + 1
       /\ d_ssts disk' = <[nextID d := file]> (d_ssts disk) /\ tables' = a :: tables /\ opens_as file a.

(** The log holds exactly the transactions of the memtable. *)
Definition logged (d : DB) (VM : vmap) : Prop :=
  exists txns, Forall ltxn_ok txns /\ VM = committed txns /\ wal.holds (db_wal d) (log_recs txns)
    /\ Forall (fun x => record.Timestamp (lt_commit x) < nextTimestamp d) txns.

(** The fields a flush leaves alone. *)
Definition same_meta (d d' : DB) : Prop :=
  nextTimestamp d' = nextTimestamp d /\ appliedIndex d' = appliedIndex d /\ appliedTS d' = appliedTS d
  /\ sessions d' = sessions d /\ closed d' = closed d /\ opts d' = opts d
  /\ commitOverride d' = commitOverride d /\ activeTxns d' = activeTxns d.

Lemma stack_empty_cons Vs : stack (∅ :: Vs) = stack Vs.
Proof. rewrite stack_cons. apply (left_id_L ∅ (∪)). Qed.

Lemma above_empty V : above ∅ V.
Proof. intros k t t' [ov H]. by rewrite lookup_empty in H. Qed.

Lemma contents_flushed VM tables a :
  sstable.versions a = VM -> contents ∅ None (a :: tables) = contents VM None tables.
Proof. intros <-. apply stack_empty_cons. Qed.

Lemma ordered_drop VM VF tables : ordered (layers VM VF tables) -> ordered (layers VM None tables).
Proof.
  unfold layers. cbn [ordered]. destruct VF as [V|]; [|done]. cbn [frozen_layer app ordered].
  intros [H1 [H2 H3]]. split; [|done]. intros k t t' H H'. apply (H1 k t t' H).
  rewrite stack_cons, union_dom. auto.
Qed.

Lemma contents_drop VM VF tables :
  dom_sub (contents VM None tables) (contents VM VF tables).
Proof.
  intros kt. unfold contents, layers. rewrite !stack_dom. intros (V & HV & H). exists V. split; [|done].
  apply elem_of_cons in HV as [->|HV]; apply elem_of_cons; [by left|right]. apply elem_of_app. by right.
Qed.

(** The store after a flush: what the frozen memtable of an earlier failed flush
    held is no longer in it. *)
Lemma flushLocked_models d disk VM VF tables :
  models d VM VF tables -> writable VM -> is_u64 (appliedIndex d) -> VM <> ∅ ->
  exists d' disk' a, flushLocked d disk = Some (d', disk', None)
    /\ models d' ∅ None (a :: tables) /\ sstable.versions a = VM
    /\ contents ∅ None (a :: tables) = contents VM None tables
    /\ logged d' ∅ /\ same_meta d d' /\ wal.f (db_wal d') = [] /\ filed d disk tables d' disk' (a :: tables).
Proof.
  intros Hm Hwr Hai Hne.
  destruct (flushLocked_spec d disk VM VF tables Hm Hwr Hai Hne)
    as (d' & disk' & file & r & a & E & (w & mt & Ew & -> & ->) & Hr & Hv & Er & Ea & Emx & Efile & _).
  eexists _, disk', a. split; [exact E|].
  pose proof (contents_flushed VM tables a Hv) as Hc.
  pose proof (ordered_drop _ _ _ (sm_ordered _ _ _ _ Hm)) as Hord. unfold layers in Hord. cbn [frozen_layer app] in Hord.
  split_and!; [|done|exact Hc| | | |].
  - split; cbn.
    + split; [|done]. exists []. apply Memtable.New_models.
    + done.
    + constructor; [done|apply Hm].
    + split; [apply above_empty|]. rewrite Hv. exact Hord.
    + intros k t H. apply (sm_below _ _ _ _ Hm k t). apply (contents_drop VM VF tables). by rewrite <- Hc.
    + apply Hm.
  - exists []. split_and!; [done|done| |done]. vm_compute in Ew. injection Ew as <-. cbn.
    apply (wal.holds_reopened [] [] (SyncOnWrite (opts d))); [done|]. vm_compute. reflexivity.
  - by split_and!.
  - vm_compute in Ew. by injection Ew as <-.
  - right. exists file, a. split_and!; [done..|]. exists r. by rewrite Ea.
Qed.

Lemma maybeFlush_models d disk VM tables :
  models d VM None tables -> logged d VM -> writable VM -> is_u64 (appliedIndex d) ->
  exists d' disk' VM' tables', maybeFlush d disk = Some (d', disk', None)
    /\ models d' VM' None tables' /\ contents VM' None tables' = contents VM None tables
    /\ logged d' VM' /\ same_meta d d' /\ filed d disk tables d' disk' tables'
    /\ (db_wal d' = db_wal d /\ VM' = VM \/ wal.f (db_wal d') = [] /\ VM' = ∅ \/ db_wal d' = db_wal d /\ VM' = ∅).
Proof.
  intros Hm Hlog Hwr Hai. unfold maybeFlush. case_decide as Hsz.
  2: { exists d, disk, VM, tables. split_and!; try done; by left. }
  destruct (decide (VM = ∅)) as [->|Hne].
  - unfold flushLocked. rewrite decide_True.
    2: { destruct (sm_mem _ _ _ _ Hm) as [[l Hl] _]. unfold Memtable.Len. rewrite (om_len_repr _ l) by apply Hl.
         unfold len. by rewrite (Memtable.models_len _ _ _ Hl). }
    cbn [mbind option_bind]. exists (signalCompact d), disk, ∅, tables.
    unfold signalCompact. destruct (closed d || _); split_and!; try done; try (by right; right); try (by left).
    by apply (models_frame d); try done; apply Hm.
  - destruct (flushLocked_models d disk VM None tables Hm Hwr Hai Hne)
      as (d' & disk' & a & -> & Hm' & _ & Hc & Hlog' & Hmeta & Hw & Hfd). cbn [mbind option_bind].
    exists (signalCompact d'), disk', ∅, (a :: tables). unfold signalCompact.
    destruct (closed d' || _); split_and!; try done; try (by right; left).
    by apply (models_frame d'); try done; apply Hm'.
Qed.

(** ** Writing a transaction *)

Lemma applyRecords_spec rs : forall mt V c,
  holds_versions mt V -> Forall data_ok rs ->
  exists mt' c', applyRecords rs mt c = Ok (mt', c') /\ holds_versions mt' (put_recs V rs).
Proof.
  induction rs as [|r rs IH]; intros mt V c Hm Hrs; cbn [applyRecords]; [eauto|].
  apply Forall_cons in Hrs as [Hr Hrs].
  destruct (apply_one mt V r (c 0%nat) Hm Hr) as (mt1 & -> & Hm1). by apply IH.
Qed.

(** What [Put] and [Delete] leave in the write set, within the size limits of a
    record. *)
Definition txn_ok (t : Txn) : Prop :=
  map_Forall (fun k ov => (ov.1 = OpPut \/ ov = (OpDelete, [])) /\ len k + 29 < 2 ^ 32 /\ len ov.2 < 2 ^ 32)
    (writes t).

Lemma elem_of_sortedKeys t k : k ∈ sortedKeys t <-> is_Some (writes t !! k).
Proof.
  unfold sortedKeys. rewrite merge_sort_Permutation, list_elem_of_fmap. split.
  - intros ([k' ov] & -> & H). apply elem_of_map_to_list in H. eauto.
  - intros [ov H]. exists (k, ov). split; [done|]. by apply elem_of_map_to_list.
Qed.

Lemma dataRecords_elem t ts r : r ∈ dataRecords t ts <->
  exists k op v, writes t !! k = Some (op, v) /\ r = record.MkRec op ts k v.
Proof.
  unfold dataRecords. rewrite list_elem_of_fmap. setoid_rewrite elem_of_sortedKeys. split.
  - intros (k & -> & [[op v] H]). rewrite H. cbn. eauto.
  - intros (k & op & v & H & ->). exists k. rewrite H. cbn. eauto.
Qed.

Lemma dataRecords_ok t ts : txn_ok t -> is_u64 ts -> Forall data_ok (dataRecords t ts).
Proof.
  intros Ht Hts. apply Forall_forall. intros r (k & op & v & H & ->)%dataRecords_elem.
  destruct (Ht k (op, v) H) as (Hop & Hk & Hv). cbn in *. split.
  - split_and!; [|done| |done]; cbn.
    + destruct Hop as [->|[= -> _]]; reflexivity.
    + unfold record.HeaderSize. lia.
  - cbn. destruct Hop as [->|[= -> _]]; auto.
Qed.

Lemma put_recs_lookup rs : forall V k t ov,
  Forall (fun r => data_ok r) rs ->
  (forall r r', r ∈ rs -> r' ∈ rs -> record.Key r = record.Key r' -> r = r') ->
  (forall r, r ∈ rs -> record.Op r = OpPut \/ record.Value r = []) ->
  put_recs V rs !! (k, t) = Some ov <->
  (exists r, r ∈ rs /\ record.Key r = k /\ record.Timestamp r = t /\ ov = (record.Op r, record.Value r))
  \/ ((forall r, r ∈ rs -> record.Key r = k -> record.Timestamp r <> t) /\ V !! (k, t) = Some ov).
Proof.
  induction rs as [|r rs IH]; intros V k t ov Hok Huniq Hval; unfold put_recs; cbn [foldl].
  - split; [intros H; right; split; [|done]; intros r Hr; by apply elem_of_nil in Hr|].
    intros [(r & Hr & _)|[_ H]]; [by apply elem_of_nil in Hr|done].
  - apply Forall_cons in Hok as [Hr Hok]. fold (put_recs (put_rec V r) rs). rewrite IH; [|done| |].
    2: { intros a b Ha Hb. apply Huniq; apply elem_of_cons; auto. }
    2: { intros a Ha. apply Hval, elem_of_cons. auto. }
    assert (put_rec V r !! (k, t) = Some ov <->
      (record.Key r = k /\ record.Timestamp r = t /\ ov = (record.Op r, record.Value r))
      \/ (~ (record.Key r = k /\ record.Timestamp r = t) /\ V !! (k, t) = Some ov)) as Hput.
    { unfold put_rec. rewrite lookup_insert_Some.
      assert ((if decide (record.Op r = OpPut) then record.Value r else []) = record.Value r) as ->.
      { case_decide as Hd; [done|]. destruct (Hval r ltac:(apply elem_of_cons; auto)) as [?| ->]; done. }
      split.
      - intros [[[= <- <-] <-]|[Hne H]]; [by left|right]. split; [|done]. intros [<- <-]. done.
      - intros [(<- & <- & ->)|[Hne H]]; [by left|right]. split; [|done]. intros [= <- <-]. by apply Hne. }
    rewrite Hput. setoid_rewrite elem_of_cons. split.
    + intros [(r' & Hr' & H)|[Hno [H|[Hne H]]]].
      * left. exists r'. auto.
      * left. exists r. destruct H as (? & ? & ?). auto.
      * right. split; [|done]. intros r' [->|Hr'] Hk Ht; [tauto|by apply (Hno r')].
    + intros [(r' & [Er|Hr'] & H1 & H2 & H3)|[Hno H]]; [subst r'| |].
      * destruct (decide (Exists (fun a => record.Key a = k /\ record.Timestamp a = t) rs)) as [Hex|Hn];
          [apply Exists_exists in Hex as (a & Ha & Hak & Hat)|rewrite Exists_exists in Hn].
        -- left. exists a. assert (a = r) as ->; [|done].
           apply Huniq; [apply elem_of_cons; auto|apply elem_of_cons; auto|congruence].
        -- right. split; [|left; done]. intros a Ha Hak Hat. apply Hn. eauto.
      * left. eauto.
      * right. split; [intros r' Hr'; by apply Hno; right|]. right. split; [|done]. intros [Hk Ht].
        by apply (Hno r ltac:(auto)).
Qed.

(** The write set, stamped. *)
Lemma put_recs_writes t ts V k t' :
  txn_ok t -> is_u64 ts -> (forall k, V !! (k, ts) = None) ->
  put_recs V (dataRecords t ts) !! (k, t') = if decide (t' = ts) then writes t !! k else V !! (k, t').
Proof.
  intros Ht Hts Hfresh. apply option_eq. intros ov. rewrite put_recs_lookup.
  2: { by apply dataRecords_ok. }
  2: { intros r r' (k1 & o1 & v1 & H1 & ->)%dataRecords_elem (k2 & o2 & v2 & H2 & ->)%dataRecords_elem.
       cbn. intros ->. congruence. }
  2: { intros r (k1 & o1 & v1 & H1 & ->)%dataRecords_elem. cbn.
       destruct (Ht _ _ H1) as ([H|[= _ ->]] & _); auto. }
  setoid_rewrite dataRecords_elem. case_decide as Hd.
  - subst t'. split.
    + intros [(r & (k1 & o1 & v1 & H1 & ->) & <- & _ & ->)|[_ H]]; [done|]. by rewrite Hfresh in H.
    + intros H. destruct ov as [o v]. left. exists (record.MkRec o ts k v). split_and!; eauto.
  - split.
    + intros [(r & (k1 & o1 & v1 & H1 & ->) & _ & E & _)|[_ H]]; [by cbn in E|done].
    + intros H. right. split; [|done]. intros r (k1 & o1 & v1 & H1 & ->) _. cbn. congruence.
Qed.

Lemma committed_snoc txns x : committed (txns ++ [x]) = put_recs (committed txns) (lt_data x).
Proof.
  unfold committed. rewrite fmap_app, concat_app. cbn. rewrite app_nil_r. unfold put_recs.
  by rewrite foldl_app.
Qed.

Lemma log_recs_snoc txns x : log_recs (txns ++ [x]) = log_recs txns ++ ltxn_recs x.
Proof. unfold log_recs. rewrite fmap_app, concat_app. cbn. by rewrite app_nil_r. Qed.

Lemma logged_frame d d' VM :
  logged d VM -> db_wal d' = db_wal d -> nextTimestamp d <= nextTimestamp d' -> logged d' VM.
Proof.
  intros (txns & H1 & H2 & H3 & H4) E Hle. exists txns. rewrite E. split_and!; [done..|].
  eapply Forall_impl; [exact H4|]. cbn. intros x Hx. lia.
Qed.

(** Room in the log for [n] more bytes. *)
Definition log_room (d : DB) (n : Z) : Prop := len (wal.f (db_wal d)) + n < 2 ^ 63.

Lemma log_append d VM x :
  logged d VM -> ltxn_ok x -> log_room d (len (record.encs (ltxn_recs x))) ->
  exists w offs, wal.AppendAll (db_wal d) (ltxn_recs x) = Ok (w, offs)
    /\ forall d', db_wal d' = w -> nextTimestamp d <= nextTimestamp d' ->
         record.Timestamp (lt_commit x) < nextTimestamp d' -> logged d' (put_recs VM (lt_data x))
         /\ len (wal.f (db_wal d')) = len (wal.f (db_wal d)) + len (record.encs (ltxn_recs x)).
Proof.
  intros (txns & Htx & -> & Hw & Hmk) Hx Hroom. unfold log_room in Hroom. rewrite (wal.holds_f _ _ Hw) in Hroom.
  destruct (wal.AppendAll_holds (ltxn_recs x) _ _ Hw) as (w & E & Hw' & _); [|done|].
  { pose proof (ltxn_recs_wf [x]) as H. unfold log_recs in H. cbn in H. rewrite app_nil_r in H.
    apply H. by apply Forall_singleton. }
  eexists w, _. split; [exact E|]. intros d' <- Hle Hlt. split.
  2: { by rewrite (wal.holds_f _ _ Hw'), (wal.holds_f _ _ Hw), record.encs_app, len_app. }
  exists (txns ++ [x]).
  rewrite committed_snoc, log_recs_snoc. split_and!; [|done|done|].
  - apply Forall_app. split; [done|by apply Forall_singleton].
  - apply Forall_app. split; [|by apply Forall_singleton].
    eapply Forall_impl; [exact Hmk|]. cbn. intros y Hy. lia.
Qed.

Definition newer_than_all (V : vmap) (ts : Z) : Prop := forall k t, is_Some (V !! (k, t)) -> t < ts.

(** Writing versions at a timestamp above everything stored. *)
Lemma models_write d d' VM VF tables VM' ts :
  models d VM VF tables -> holds_versions (memtable d') VM' ->
  frozen d' = frozen d -> sstables d' = sstables d -> ts < nextTimestamp d' ->
  nextTimestamp d <= nextTimestamp d' -> newer_than_all (contents VM VF tables) ts ->
  (forall k t, is_Some (VM' !! (k, t)) -> t = ts \/ is_Some (VM !! (k, t))) ->
  models d' VM' VF tables.
Proof.
  intros [_ Hf Htab Hord Hbel Hnx] Hmem Ef Es Hts Hle Hge Hnew.
  assert (forall k t, is_Some (contents VM' VF tables !! (k, t)) ->
    t = ts \/ is_Some (contents VM VF tables !! (k, t))) as Hc.
  { intros k t. unfold contents, layers. rewrite !stack_cons, !union_dom.
    intros [H|H]; [|auto]. destruct (Hnew k t H); auto. }
  split; rewrite ?Ef, ?Es; [done..| | |].
  - unfold layers in *. cbn [ordered] in *. destruct Hord as [Hab Hord]. split; [|done].
    intros k t t' H H'. destruct (Hnew k t H) as [->|H0]; [|by apply (Hab k t t')].
    apply (Hge k t'). unfold contents, layers. rewrite stack_cons, union_dom. auto.
  - intros k t H. destruct (Hc k t H) as [->|H0]; [done|]. specialize (Hbel k t H0). lia.
  - lia.
Qed.

(** The bytes of the log entry of [t]. *)
Definition entry_size (t : Txn) (ts : Z) : Z := len (record.encs (dataRecords t ts)) + 21.

Lemma contents_fresh (V : vmap) ts k : newer_than_all V ts -> V !! (k, ts) = None.
Proof. intros H. apply eq_None_not_Some. intros Hs. specialize (H _ _ Hs). lia. Qed.

Lemma newer_than_mem VM VF tables ts :
  newer_than_all (contents VM VF tables) ts -> newer_than_all VM ts.
Proof.
  intros H k t Hk. apply (H k t). unfold contents, layers. rewrite stack_cons, union_dom. auto.
Qed.

(** The version map after the write set of [t] at [ts]. *)
Definition stamped (V : vmap) (t : Txn) (ts : Z) (V' : vmap) : Prop :=
  forall k t', V' !! (k, t') = if decide (t' = ts) then writes t !! k else V !! (k, t').

Lemma stamped_contents VM VF tables t ts :
  newer_than_all (contents VM VF tables) ts -> txn_ok t -> is_u64 ts ->
  stamped (contents VM VF tables) t ts (contents (put_recs VM (dataRecords t ts)) VF tables).
Proof.
  intros Hnew Ht Hts k t'. unfold contents, layers. rewrite !stack_cons, !lookup_union.
  rewrite put_recs_writes; [|done|done|intros k'; eapply contents_fresh, newer_than_mem, Hnew].
  case_decide as Hd; [|done]. subst t'. pose proof (contents_fresh _ _ k Hnew) as Hc.
  unfold contents, layers in Hc. rewrite stack_cons, lookup_union in Hc.
  destruct (stack _ !! (k, ts)) as [x|].
  - by destruct (VM !! (k, ts)).
  - by destruct (writes t !! k).
Qed.

(** ** Commit *)

(** What a commit of [t] at [ts] leaves alone, and how much it adds to the log and
    the memtable at most. *)
Record grown (t : Txn) (ts : Z) (d : DB) (disk : Disk) (VM : vmap) (tables : list adds)
  (d' : DB) (disk' : Disk) (VM' : vmap) (tables' : list adds) : Prop := {
  grown_closed : closed d' = closed d;
  grown_override : commitOverride d' = commitOverride d;
  grown_applied : appliedIndex d' = appliedIndex d;
  grown_log : len (wal.f (db_wal d')) <= len (wal.f (db_wal d)) + entry_size t ts;
  grown_mem : VM' = VM \/ VM' = ∅ \/ VM' = put_recs VM (dataRecords t ts);
  grown_files : filed d disk tables d' disk' tables'
}.

Lemma entry_size_pos t ts : 0 <= entry_size t ts.
Proof. unfold entry_size. pose proof (len_nonneg (record.encs (dataRecords t ts))). lia. Qed.

(** The outcome of [Commit] on an open store: first committer wins. *)
Lemma Commit_run d disk t VM tables :
  models d VM None tables -> logged d VM ->
  finished t = false -> commitOverride d = false -> closed d = false -> writes t <> ∅ -> txn_ok t ->
  (forall k, is_Some (writes t !! k) -> findable (contents VM None tables) k) ->
  nextTimestamp d < 2 ^ 64 - 1 -> log_room d (entry_size t (nextTimestamp d)) ->
  writable (put_recs VM (dataRecords t (nextTimestamp d))) -> is_u64 (appliedIndex d) ->
  exists d' disk' r VM' tables', Commit d disk t = Some (d', disk', finish t, r)
    /\ models d' VM' None tables' /\ logged d' VM' /\ grown t (nextTimestamp d) d disk VM tables d' disk' VM' tables'
    /\ ((r = Failed ErrConflict /\ contents VM' None tables' = contents VM None tables
         /\ nextTimestamp d' = nextTimestamp d /\ appliedTS d' = appliedTS d
         /\ exists k, is_Some (writes t !! k) /\ has_newer (contents VM None tables) k (readSnap t))
        \/ (r = Committed
         /\ stamped (contents VM None tables) t (nextTimestamp d) (contents VM' None tables')
         /\ nextTimestamp d' = nextTimestamp d + 1 /\ appliedTS d' = nextTimestamp d
         /\ forall k, is_Some (writes t !! k) -> ~ has_newer (contents VM None tables) k (readSnap t))).
Proof.
  intros Hm Hlog Hfin Hov Hcl Hne Htx Hfind Hnx Hroom Hwr Hai.
  assert (is_u64 (nextTimestamp d)) as Hts by (pose proof (sm_next _ _ _ _ Hm); unfold is_u64; lia).
  unfold Commit. rewrite Hfin. cbn [unregisterTxn set_activeTxns commitOverride closed]. rewrite Hov, Hcl.
  rewrite decide_False by (by rewrite map_size_empty_iff).
  set (d0 := unregisterTxn d t).
  assert (models d0 VM None tables) as Hm0 by (apply (models_frame d); try done; apply Hm).
  assert (forall k, k ∈ (map_to_list (writes t)).*1 <-> is_Some (writes t !! k)) as Hkeys.
  { intros k. rewrite list_elem_of_fmap. split.
    - intros ([k' ov] & -> & H). apply elem_of_map_to_list in H. eauto.
    - intros [ov H]. exists (k, ov). split; [done|]. by apply elem_of_map_to_list. }
  destruct (checkConflicts_spec (map_to_list (writes t)).*1 (readSnap t) d0 VM None tables Hm0)
    as (ssts & res & -> & Htab & [[-> Hno]|[-> (k & Hk & Hconf)]]).
  { intros k Hk. by apply Hfind, Hkeys. }
  2: { exists (set_sstables d0 ssts), disk, (Failed ErrConflict), VM, tables. split_and!; [done| |done| |].
       - by apply (models_frame d0).
       - pose proof (entry_size_pos t (nextTimestamp d)). split; cbn; try done; [lia|by left|by left].
       - left. split_and!; [done..|]. exists k. split; [by apply Hkeys|done]. }
  set (d1 := set_sstables d0 ssts). set (ts := nextTimestamp d).
  change (nextTimestamp d1) with ts.
  assert (models d1 VM None tables) as Hm1 by (by apply (models_frame d0)).
  set (x := commit_ltxn t ts).
  assert (ltxn_ok x) as Hx by (apply commit_ltxn_ok; [done|by apply dataRecords_ok]).
  assert (u64 (ts + 1) = ts + 1) as Hu by (apply u64_small; unfold is_u64, ts in *; lia).
  set (d2 := set_nextTimestamp d1 (u64 (ts + 1))).
  assert (logged d2 VM) as Hlog2 by (apply (logged_frame d); [done..|cbn; rewrite Hu; fold ts; lia]).
  destruct (log_append d2 VM x Hlog2 Hx) as (w & offs & Ew & Hlog').
  { unfold log_room, entry_size in *. unfold x. rewrite len_commit_ltxn. exact Hroom. }
  change (dataRecords t ts ++ [record.MkRec OpCommit ts [] []]) with (ltxn_recs x). rewrite Ew.
  set (d3 := set_wal d2 w).
  destruct (applyRecords_spec (dataRecords t ts) (memtable d3) VM (rng d3)) as (mt & c & -> & Hmt).
  { apply Hm. }
  { by apply dataRecords_ok. }
  set (d4 := set_applied (set_memtable d3 mt c) (appliedIndex d3) ts).
  set (VM1 := put_recs VM (dataRecords t ts)).
  assert (newer_than_all (contents VM None tables) ts) as Hnew by (exact (sm_below _ _ _ _ Hm)).
  assert (models d4 VM1 None tables) as Hm4.
  { apply (models_write d1 d4 VM None tables VM1 ts); try done.
    - cbn. rewrite Hu. lia.
    - cbn. rewrite Hu. fold ts. lia.
    - intros k t' [ov H]. unfold VM1 in H. rewrite put_recs_writes in H; [|done|done|].
      + case_decide; [by left|right; eauto].
      + intros k'. eapply contents_fresh, newer_than_mem, Hnew. }
  destruct (Hlog' d4 eq_refl ltac:(cbn; lia) ltac:(cbn; rewrite Hu; lia)) as [Hlog4 Hlen].
  destruct (maybeFlush_models d4 disk VM1 tables Hm4 Hlog4 Hwr Hai)
    as (d5 & disk5 & VM5 & tables5 & -> & Hm5 & Hc5 & Hlog5 & Hmeta & Hfd & Hgr). cbn [mbind option_bind].
  destruct Hmeta as (E1 & Ea & E2 & _ & Ecl & _ & Eov & _).
  exists d5, disk5, Committed, VM5, tables5. split_and!; [done|done|done| |].
  { split; [done..| | |exact Hfd].
    - unfold x in Hlen. rewrite len_commit_ltxn in Hlen. fold (entry_size t ts) in Hlen. change (db_wal d2) with (db_wal d) in Hlen.
      destruct Hgr as [[E _]|[[E _]|[E _]]]; rewrite E; rewrite ?Hlen; [done| |done].
      pose proof (len_nonneg (wal.f (db_wal d))). pose proof (entry_size_pos t ts). change (len (A := byte) []) with 0. lia.
    - destruct Hgr as [[_ ->]|[[_ ->]|[_ ->]]]; auto. }
  right. rewrite Hc5, E1, E2. split_and!; [done| |exact Hu|done|].
  - by apply stamped_contents.
  - intros k Hk. by apply Hno, Hkeys.
Qed.

(** ** Replicated commits *)

Lemma decodeEntry_spec rs : forall pre fuel acc,
  Forall record.wf rs -> (length rs < fuel)%nat ->
  decodeEntry fuel (record.encs pre ++ record.encs rs) (len (record.encs pre)) acc = Ok (acc ++ rs).
Proof.
  induction rs as [|r rs IH]; intros pre fuel acc Hrs Hf;
    (destruct fuel as [|fuel]; [cbn in Hf; lia|]); cbn [decodeEntry].
  - rewrite !app_nil_r, decide_False by (change (record.encs []) with ([] : bytes); rewrite ?app_nil_r; lia). done.
  - apply Forall_cons in Hrs as [Hr Hrs]. rewrite record.encs_cons, record.drop_encs.
    rewrite decide_True by (rewrite !len_app, record.len_record_Encode;
      pose proof (record.size_pos r); pose proof (len_nonneg (record.encs rs)); lia).
    rewrite record.Decode_record by done.
    rewrite <- record.len_encs_snoc, app_assoc.
    replace (record.encs pre ++ record.Encode r) with (record.encs (pre ++ [r]))
      by (rewrite record.encs_app, record.encs_cons; change (record.encs []) with ([] : bytes); by rewrite app_nil_r).
    rewrite (IH (pre ++ [r]) fuel (acc ++ [r])); [by rewrite <- app_assoc|done|cbn in Hf; lia].
Qed.

Lemma decodeEntry_encs rs : Forall record.wf rs ->
  decodeEntry (S (length (record.encs rs))) (record.encs rs) 0 [] = Ok rs.
Proof.
  intros H. pose proof (decodeEntry_spec rs [] (S (length (record.encs rs))) [] H) as E.
  cbn in E. apply E. pose proof (record.length_encs rs). lia.
Qed.

Lemma checkEntry_ok rs ts :
  Forall (fun r => data_ok r /\ record.Timestamp r = ts) rs -> checkEntry rs ts = Ok tt.
Proof.
  induction 1 as [|r rs [[_ Hop] Ht] _ IH]; [done|]. cbn [checkEntry].
  rewrite decide_False by tauto. rewrite decide_False by tauto. exact IH.
Qed.

(** The commit marker a leader puts in an entry. *)
Definition commitRec (t : Txn) (ts : Z) : record.Rec :=
  if decide (len (session t) > 0)
  then record.MkRec OpCommit ts (session t) (dbdisk.encodeSeq (seq t))
  else record.MkRec OpCommit ts [] [].

Definition session_ok (t : Txn) : Prop :=
  is_u64 (seq t) /\ len (session t) + 21 < 2 ^ 32.

Lemma commitRec_wf t ts : is_u64 ts -> session_ok t -> record.wf (commitRec t ts).
Proof.
  intros Hts [_ Hs]. unfold commitRec. case_decide.
  - split_and!; [done|done| |]; cbn [record.Key record.Value]; [unfold record.HeaderSize; lia|].
    unfold dbdisk.encodeSeq. rewrite len_le_bytes. lia.
  - split_and!; [done|done|by_decide|by_decide].
Qed.

Definition entry_ltxn (t : Txn) (ts : Z) : ltxn := MkLTxn (dataRecords t ts) (commitRec t ts).

Lemma entry_ltxn_ok t ts : is_u64 ts -> session_ok t -> txn_ok t -> ltxn_ok (entry_ltxn t ts).
Proof.
  intros Hts Hs Htx. split; [|split].
  - pose proof (dataRecords_ok t ts Htx Hts) as Hd. apply Forall_forall. intros y Hy.
    rewrite Forall_forall in Hd. split; [by apply Hd|]. cbn in Hy.
    apply dataRecords_elem in Hy as (k & op & v & _ & ->). cbn. unfold commitRec. by case_decide.
  - by apply commitRec_wf.
  - cbn. unfold commitRec. by case_decide.
Qed.

(** The sequence number of [t], zero without a session. *)
Definition entry_bytes (t : Txn) (ts : Z) : bytes := record.encs (ltxn_recs (entry_ltxn t ts)).

(** Already applied: the session has a number at or above this one. *)
Definition duplicate (d : DB) (t : Txn) : Prop :=
  session t <> [] /\ seq t <= default 0 (sessions d !! session t).

#[export] Instance duplicate_decision d t : Decision (duplicate d t).
Proof. unfold duplicate. apply _. Defined.

Lemma models_raise d d' VM VF tables :
  models d VM VF tables -> memtable d' = memtable d -> frozen d' = frozen d ->
  sstables d' = sstables d -> nextTimestamp d <= nextTimestamp d' -> models d' VM VF tables.
Proof.
  intros [Hmem Hf Htab Hord Hbel Hnx] E1 E2 E3 Hle. split; rewrite ?E1, ?E2, ?E3; try done; [|lia].
  intros k t H. specialize (Hbel k t H). lia.
Qed.

Lemma advanceApplied_fields d idx ts : ts < 2 ^ 64 - 1 -> 0 <= ts ->
  let d' := advanceApplied d idx ts in
  nextTimestamp d' = Z.max (nextTimestamp d) (ts + 1)
  /\ appliedIndex d' = Z.max (appliedIndex d) idx /\ appliedTS d' = Z.max (appliedTS d) ts
  /\ memtable d' = memtable d /\ frozen d' = frozen d /\ sstables d' = sstables d
  /\ db_wal d' = db_wal d /\ sessions d' = sessions d /\ opts d' = opts d.
Proof.
  intros Hts H0. unfold advanceApplied.
  assert (u64 (ts + 1) = ts + 1) as Hu by (apply u64_small; unfold is_u64; lia).
  destruct (decide (ts >= nextTimestamp d)); cbn; rewrite ?Hu; split_and!; try done; try lia;
    case_decide; lia.
Qed.

Definition commit_key (t : Txn) : bytes := if decide (len (session t) > 0) then session t else [].

Lemma commit_key_session t : commit_key t = session t.
Proof.
  unfold commit_key. case_decide as H; [done|]. destruct (session t) as [|b l]; [done|].
  rewrite len_cons in H. pose proof (len_nonneg l). lia.
Qed.

Lemma commitRec_fields t ts : is_u64 (seq t) ->
  record.Key (commitRec t ts) = session t /\ record.Op (commitRec t ts) = OpCommit
  /\ record.Timestamp (commitRec t ts) = ts
  /\ (session t <> [] -> dbdisk.decodeSeq (record.Value (commitRec t ts)) = seq t).
Proof.
  intros Hs. pose proof (commit_key_session t) as Hk. unfold commitRec, commit_key in *.
  case_decide; cbn; split_and!; try done.
  intros _. by apply dbdisk.decodeSeq_encodeSeq.
Qed.

(** The apply of an entry a leader prepared from [t]. *)
Lemma ApplyEntry_run d disk idx t ts VM tables :
  models d VM None tables -> logged d VM -> closed d = false ->
  txn_ok t -> session_ok t -> is_u64 ts -> ts < 2 ^ 64 - 1 ->
  log_room d (len (entry_bytes t ts)) -> is_u64 (appliedIndex d) -> is_u64 idx ->
  (if decide (duplicate d t) then writable VM
   else newer_than_all (contents VM None tables) ts /\ writable (put_recs VM (dataRecords t ts))) ->
  exists d' disk' VM' tables', ApplyEntry d disk idx (entry_bytes t ts) = Some (d', disk', None)
    /\ models d' VM' None tables' /\ logged d' VM'
    /\ appliedIndex d' = Z.max (appliedIndex d) idx /\ appliedTS d' = Z.max (appliedTS d) ts
    /\ nextTimestamp d' = Z.max (nextTimestamp d) (ts + 1)
    /\ if decide (duplicate d t)
       then contents VM' None tables' = contents VM None tables /\ sessions d' = sessions d
       else stamped (contents VM None tables) t ts (contents VM' None tables')
            /\ sessions d' = if decide (session t = []) then sessions d
                             else <[session t := seq t]> (sessions d).
Proof.
  intros Hm Hlog Hcl Htx Hse Hts Hmax Hroom Hai Hidx Hcase.
  set (x := entry_ltxn t ts).
  assert (ltxn_ok x) as Hx by (by apply entry_ltxn_ok).
  assert (Forall record.wf (ltxn_recs x)) as Hwf.
  { pose proof (ltxn_recs_wf [x]) as H. unfold log_recs in H. cbn in H. rewrite app_nil_r in H.
    apply H. by apply Forall_singleton. }
  destruct (commitRec_fields t ts (proj1 Hse)) as (Fk & Fo & Ft & Fv).
  unfold ApplyEntry. rewrite Hcl. unfold entry_bytes. fold x. rewrite (decodeEntry_encs _ Hwf).
  unfold ltxn_recs at 1. rewrite last_snoc. cbn [lt_commit x entry_ltxn]. rewrite Fo, decide_False by tauto.
  rewrite Ft, Fk.
  assert (take (length (ltxn_recs x) - 1) (ltxn_recs x) = lt_data x) as Htake.
  { unfold ltxn_recs. rewrite length_app. cbn [length].
    replace (length (lt_data x) + 1 - 1)%nat with (length (lt_data x)) by lia. apply take_app_length. }
  rewrite Htake.
  destruct Hx as (Hd & Hc & Hco). pose proof Hd as Hd'. cbn [lt_commit x entry_ltxn] in Hd'. rewrite Ft in Hd'.
  rewrite (checkEntry_ok _ _ Hd').
  assert ((session t <> [] /\ (if decide (session t <> []) then dbdisk.decodeSeq (record.Value (commitRec t ts)) else 0)
             <= default 0 (sessions d !! session t)) <-> duplicate d t) as Hdup.
  { unfold duplicate. split; intros [H1 H2]; (split; [done|]); rewrite ?decide_True in * by done;
      by rewrite Fv in *. }
  assert (0 <= ts) as Hts0 by (unfold is_u64 in Hts; lia).
  destruct (decide (duplicate d t)) as [Hy|Hn].
  - rewrite decide_True by (by apply Hdup).
    set (x' := MkLTxn [] (commitRec t ts)).
    assert (ltxn_ok x') as Hx' by (split_and!; [by constructor|exact Hc|exact Hco]).
    destruct Hlog as (txns & Htn & -> & Hw & Hmk).
    destruct (wal.Append_holds (db_wal d) _ (commitRec t ts) Hw Hc) as (w & -> & Hw' & _).
    { unfold log_room, entry_bytes, ltxn_recs in Hroom. rewrite (wal.holds_f _ _ Hw) in Hroom.
      rewrite record.len_encs_snoc in Hroom. cbn [entry_ltxn lt_data lt_commit] in Hroom.
      pose proof (len_nonneg (record.encs (dataRecords t ts))). lia. }
    destruct (advanceApplied_fields (set_wal d w) idx ts Hmax Hts0) as (A1 & A2 & A3 & A4 & A5 & A6 & A7 & A8 & A9).
    set (d1 := advanceApplied (set_wal d w) idx ts) in *.
    assert (models d1 (committed txns) None tables) as Hm1.
    { apply (models_raise d); try done. rewrite A1. cbn. lia. }
    assert (logged d1 (committed txns)) as Hlog1.
    { exists (txns ++ [x']). rewrite committed_snoc, log_recs_snoc, A7. split_and!; [|done|done|].
      - apply Forall_app. split; [done|by apply Forall_singleton].
      - rewrite A1. apply Forall_app. split.
        + eapply Forall_impl; [exact Hmk|]. cbn. intros y Hlt. lia.
        + apply Forall_singleton. cbn. rewrite Ft. lia. }
    destruct (maybeFlush_models d1 disk (committed txns) tables Hm1 Hlog1 Hcase)
      as (d5 & disk5 & VM5 & tables5 & -> & Hm5 & Hc5 & Hlog5 & (E1 & E2 & E3 & E4 & _) & _).
    { rewrite A2. unfold is_u64 in *. cbn. lia. }
    exists d5, disk5, VM5, tables5. rewrite E1, E2, E3, E4, A1, A2, A3, A8. split_and!; done.
  - rewrite decide_False by (by rewrite Hdup). destruct Hcase as [Hnew Hwr].
    destruct (log_append d VM x Hlog ltac:(by split_and!) Hroom) as (w & offs & -> & Hlog').
    destruct (applyRecords_spec (lt_data x) (memtable (set_wal d w)) VM (rng (set_wal d w))) as (mt & c & -> & Hmt).
    { apply Hm. }
    { eapply Forall_impl; [exact Hd|]. tauto. }
    set (d2 := set_memtable (set_wal d w) mt c).
    set (d3 := if decide (session t <> []) then _ else d2).
    destruct (advanceApplied_fields d3 idx ts Hmax Hts0) as (A1 & A2 & A3 & A4 & A5 & A6 & A7 & A8 & A9).
    assert (nextTimestamp d3 = nextTimestamp d /\ appliedIndex d3 = appliedIndex d /\ appliedTS d3 = appliedTS d
            /\ memtable d3 = mt /\ frozen d3 = frozen d /\ sstables d3 = sstables d /\ db_wal d3 = w
            /\ sessions d3 = if decide (session t = []) then sessions d else <[session t := seq t]> (sessions d))
      as (B1 & B2 & B3 & B4 & B5 & B6 & B7 & B8).
    { unfold d3. destruct (decide (session t <> [])) as [Hs|Hs]; cbn; split_and!; try done.
      - rewrite decide_False by done. by rewrite Fv.
      - rewrite decide_True; [done|]. by apply dec_stable. }
    set (d4 := advanceApplied d3 idx ts) in *. set (VM1 := put_recs VM (lt_data x)) in *.
    assert (models d4 VM1 None tables) as Hm4.
    { apply (models_write d d4 VM None tables VM1 ts); try done; rewrite ?A4, ?A5, ?A6, ?A1, ?B1, ?B4, ?B5, ?B6; try done; try lia.
      intros k t' [ov H]. unfold VM1 in H. cbn [lt_data x entry_ltxn] in H.
      rewrite put_recs_writes in H; [|done|done|].
      + case_decide; [by left|right; eauto].
      + intros k'. eapply contents_fresh, newer_than_mem, Hnew. }
    destruct (maybeFlush_models d4 disk VM1 tables Hm4) as (d5 & disk5 & VM5 & tables5 & -> & Hm5 & Hc5 & Hlog5 & (E1 & E2 & E3 & E4 & _) & _).
    { apply (Hlog' d4); rewrite ?A7, ?A1, ?B1, ?B7; [done|cbn; lia|]. cbn. rewrite Ft. lia. }
    { exact Hwr. }
    { rewrite A2, B2. unfold is_u64 in *. lia. }
    exists d5, disk5, VM5, tables5. rewrite E1, E2, E3, E4, A1, A2, A3, A8, B1, B2, B3, B8. split_and!; try done.
    rewrite Hc5. by apply stamped_contents.
Qed.

Lemma PrepareCommit_entry d t d1 t1 entry ts :
  PrepareCommit d t = Some (d1, t1, Ok (Some (entry, ts))) ->
  entry = entry_bytes t ts /\ ts = nextTimestamp d /\ nextTimestamp d1 = u64 (ts + 1) /\ t1 = finish t
  /\ ~ duplicate d t.
Proof.
  unfold PrepareCommit. destruct (finished t); [done|]. destruct (closed d); [done|].
  case_decide as H1; [done|]. case_decide as H2; [done|].
  pose proof (checkConflicts_frame (map_to_list (writes t)).*1 (readSnap t) d) as (ss & E & _).
  destruct (checkConflicts d _ (readSnap t)) as [d0 [[]|e|]]; [|done..]. cbn in E. subst d0. cbn.
  intros [= <- <- <- <-]. split_and!; try done. intros [Hs Hq]. apply H2. split; [|done].
  destruct (session t) as [|b l]; [done|]. rewrite len_cons. pose proof (len_nonneg l). lia.
Qed.

(** ** Reopening *)

(** The files of the tables, under six-digit names, newest first. *)
Record files_ok (disk : Disk) (ids : list Z) (tables : list adds) : Prop := {
  fo_files : Forall2 (fun id a => exists file r, d_ssts disk !! id = Some file
                /\ sstable.OpenReader file = Ok r /\ table_ok r a
                /\ sstable.MaxTimestamp r = sstable.max_ts a) ids tables;
  fo_only : forall id, is_Some (d_ssts disk !! id) -> id ∈ ids;
  fo_sorted : StronglySorted (fun a b => b < a) ids;
  fo_digits : Forall (fun id => 0 <= id < 10 ^ 6) ids
}.

Lemma files_lookup disk ids tables id : files_ok disk ids tables -> id ∈ ids -> is_Some (d_ssts disk !! id).
Proof.
  intros [Hf _ _ _] Hin. apply list_elem_of_lookup in Hin as [i Hi].
  destruct (Forall2_lookup_l _ _ _ _ _ Hf Hi) as (a & _ & file & r & H & _). eauto.
Qed.

Lemma desc_nodup ids : StronglySorted (fun a b : Z => b < a) ids -> NoDup ids.
Proof.
  induction 1 as [|x ids _ IH Hx]; constructor; [|done]. intros Hin. rewrite Forall_forall in Hx.
  specialize (Hx x Hin). lia.
Qed.

Lemma desc_reverse ids : StronglySorted (fun a b : Z => b < a) ids -> StronglySorted Z.le (reverse ids).
Proof.
  induction 1 as [|x ids Hs IH Hx]; [constructor|]. rewrite reverse_cons.
  assert (forall l, StronglySorted Z.le l -> Forall (fun y => y < x) l -> StronglySorted Z.le (l ++ [x])) as H.
  { induction 1 as [|y l Hl IHl Hy]; intros Hlt; cbn; [repeat constructor|].
    apply Forall_cons in Hlt as [H1 H2]. constructor; [by apply IHl|].
    apply Forall_app. split; [done|]. constructor; [lia|constructor]. }
  apply H; [done|]. apply Forall_forall. intros y Hy. rewrite elem_of_reverse in Hy.
  rewrite Forall_forall in Hx. by apply Hx.
Qed.

Lemma discover_files disk ids tables :
  files_ok disk ids tables -> discoverSSTables (d_ssts disk) = reverse ids.
Proof.
  intros Hf. pose proof Hf as [_ Honly Hs Hd]. unfold discoverSSTables.
  apply (StronglySorted_unique Z.le).
  - apply Sorted_StronglySorted; [intros ? ? ?; lia|]. apply Sorted_merge_sort. intros x y. lia.
  - by apply desc_reverse.
  - rewrite merge_sort_Permutation, reverse_Permutation. apply NoDup_Permutation.
    + apply NoDup_filter, NoDup_fst_map_to_list.
    + by apply desc_nodup.
    + intros id. rewrite list_elem_of_filter, list_elem_of_fmap. rewrite Forall_forall in Hd. split.
      * intros [_ ([id' f] & -> & H)]. apply elem_of_map_to_list in H. apply Honly. eauto.
      * intros Hin. split; [by apply Hd|]. destruct (files_lookup disk ids tables id Hf Hin) as [f H].
        exists (id, f). split; [done|]. by apply elem_of_map_to_list.
Qed.

Lemma openTables_spec ssts ids tables n : forall acc m0 a0,
  Forall2 (fun id a => exists file r, ssts !! id = Some file
                /\ sstable.OpenReader file = Ok r /\ table_ok r a
                /\ sstable.MaxTimestamp r = sstable.max_ts a) ids tables ->
  m0 < n -> Forall (fun a => sstable.max_ts a < n) tables ->
  exists rs mts mapp, openTables ssts ids acc m0 a0 = Ok (acc ++ rs, mts, mapp)
    /\ Forall2 table_ok rs tables /\ m0 <= mts /\ Forall (fun a => sstable.max_ts a <= mts) tables
    /\ mts < n.
Proof.
  intros acc m0 a0 H. revert acc m0 a0.
  induction H as [|id a ids tables (file & r & E1 & E2 & Hr & Hmax) _ IH]; intros acc m0 a0 Hn Hall; cbn [openTables].
  - exists [], m0, a0. rewrite app_nil_r. split_and!; [done|constructor|lia|constructor|done].
  - apply Forall_cons in Hall as [Ha Hall]. rewrite E1, E2.
    set (m1 := if decide (sstable.MaxTimestamp r > m0) then sstable.MaxTimestamp r else m0).
    assert (m1 < n /\ m0 <= m1 /\ sstable.max_ts a <= m1) as (Hm1 & Hm01 & Ham1)
      by (unfold m1; case_decide; lia).
    edestruct (IH (acc ++ [r]) m1) as (rs & mts & mapp & -> & Hrs & Hle & Hall' & Hlt); [done|exact Hall|].
    exists (r :: rs), mts, mapp. rewrite <- app_assoc. split_and!; [done|by constructor|lia| |done].
    constructor; [lia|done].
Qed.

Lemma max_ts_bound l : forall (m0 : Z) (a : sstable.add),
  m0 <= foldl (fun m a => Z.max m (sstable.a_ts a)) m0 l
  /\ (a ∈ l -> sstable.a_ts a <= foldl (fun m a => Z.max m (sstable.a_ts a)) m0 l).
Proof.
  induction l as [|b l IH]; intros m0 a; cbn [foldl]; [split; [lia|intros H; by apply elem_of_nil in H]|].
  destruct (IH (Z.max m0 (sstable.a_ts b)) a) as [H1 H2]. split; [lia|].
  intros [->|H]%elem_of_cons; [lia|by apply H2].
Qed.

Lemma versions_elem l k t : is_Some (sstable.versions l !! (k, t)) ->
  exists a, a ∈ l /\ sstable.a_key a = k /\ sstable.a_ts a = t.
Proof.
  unfold sstable.versions. induction l as [|b l IH] using rev_ind; intros [ov H].
  - cbn in H. by rewrite lookup_empty in H.
  - rewrite foldl_app in H. cbn in H. apply lookup_insert_Some in H as [[E _]|[_ H]].
    + exists b. injection E as -> ->. split_and!; [|done..]. apply elem_of_app. right. by apply list_elem_of_singleton.
    + destruct IH as (a & Ha & H1); [eauto|]. exists a. split; [apply elem_of_app; auto|done].
Qed.

Lemma max_rec_ts_lt rs n : forall m, m < n -> Forall (fun r => record.Timestamp r < n) rs -> max_rec_ts m rs < n.
Proof.
  induction rs as [|r rs IH]; intros m Hm Hrs; [done|]. apply Forall_cons in Hrs as [Hr Hrs].
  apply (IH (Z.max m (record.Timestamp r))); [lia|done].
Qed.

Lemma max_rec_ts_ge rs : forall m, m <= max_rec_ts m rs.
Proof.
  induction rs as [|r rs IH]; intros m; [done|]. etransitivity; [|apply (IH (Z.max m (record.Timestamp r)))]. lia.
Qed.

Lemma put_recs_dom rs : forall V k t, is_Some (put_recs V rs !! (k, t)) ->
  is_Some (V !! (k, t)) \/ exists r, r ∈ rs /\ record.Timestamp r = t.
Proof.
  induction rs as [|r rs IH]; intros V k t H; [by left|]. unfold put_recs in H. cbn [foldl] in H.
  apply IH in H as [[ov H]|(r' & Hr' & Ht)].
  - unfold put_rec in H. apply lookup_insert_Some in H as [[[= _ <-] _]|[_ H]]; [|left; eauto].
    right. exists r. split; [apply elem_of_cons; auto|done].
  - right. exists r'. split; [apply elem_of_cons; auto|done].
Qed.

Lemma log_recs_elem txns r : r ∈ log_recs txns <-> exists x, x ∈ txns /\ r ∈ ltxn_recs x.
Proof.
  unfold log_recs. rewrite list_elem_of_In, in_concat. setoid_rewrite <- list_elem_of_In. split.
  - intros (l & Hl & Hr). apply list_elem_of_fmap in Hl as (x & -> & Hx). eauto.
  - intros (x & Hx & Hr). exists (ltxn_recs x). split; [by apply list_elem_of_fmap_2|done].
Qed.

Lemma committed_bound txns k t :
  is_Some (committed txns !! (k, t)) -> exists r, r ∈ log_recs txns /\ record.Timestamp r = t.
Proof.
  intros [[ov H]|(r & Hr & Ht)]%put_recs_dom; [by rewrite lookup_empty in H|].
  exists r. split; [|done]. apply log_recs_elem. rewrite list_elem_of_In, in_concat in Hr.
  destruct Hr as (l & Hl & Hr). apply list_elem_of_In in Hl, Hr.
  apply list_elem_of_fmap in Hl as (x & -> & Hx). exists x. split; [done|]. apply elem_of_app. by left.
Qed.

Lemma log_recs_ts txns n :
  Forall ltxn_ok txns -> Forall (fun x => record.Timestamp (lt_commit x) < n) txns ->
  Forall (fun r => record.Timestamp r < n) (log_recs txns).
Proof.
  intros Hok Hn. apply Forall_forall. intros r (x & Hx & Hr)%log_recs_elem.
  rewrite Forall_forall in Hok, Hn. specialize (Hok x Hx) as (Hd & _). specialize (Hn x Hx). cbn in Hn.
  apply elem_of_app in Hr as [Hr| ->%list_elem_of_singleton]; [|done].
  rewrite Forall_forall in Hd. destruct (Hd r Hr) as [_ ->]. done.
Qed.

Lemma versions_some l a : a ∈ l -> is_Some (sstable.versions l !! (sstable.a_key a, sstable.a_ts a)).
Proof.
  unfold sstable.versions. induction l as [|b l IH] using rev_ind; [intros H; by apply elem_of_nil in H|].
  intros [H| ->%list_elem_of_singleton]%elem_of_app; rewrite foldl_app; cbn.
  - apply lookup_insert_is_Some'. auto.
  - apply lookup_insert_is_Some'. auto.
Qed.

Lemma max_ts_lt l n : 0 < n -> (forall a, a ∈ l -> sstable.a_ts a < n) -> sstable.max_ts l < n.
Proof.
  unfold sstable.max_ts. intros Hn. enough (forall m : Z, m < n -> (forall a, a ∈ l -> sstable.a_ts a < n) ->
    foldl (fun m a => Z.max m (sstable.a_ts a)) m l < n) as H by (by apply H).
  induction l as [|a l IH]; intros m Hm Hl; [done|]. cbn. apply IH.
  - specialize (Hl a ltac:(apply elem_of_cons; auto)). lia.
  - intros b Hb. apply Hl, elem_of_cons. auto.
Qed.

(** What the store opens to after a process crash. *)
Lemma openTables_applied ssts ids : forall acc m0 a0 rs mts mapp,
  openTables ssts ids acc m0 a0 = Ok (rs, mts, mapp) -> is_u64 a0 ->
  (forall id file r, id ∈ ids -> ssts !! id = Some file -> sstable.OpenReader file = Ok r -> is_u64 (sstable.AppliedIndex r)) ->
  is_u64 mapp.
Proof.
  induction ids as [|id ids IH]; intros acc m0 a0 rs mts mapp E Ha Hall; cbn [openTables] in E; [by injection E as _ _ <-|].
  destruct (ssts !! id) as [file|] eqn:Ef; [|done]. destruct (sstable.OpenReader file) as [r| |] eqn:Er; [|done..].
  apply (IH _ _ _ _ _ _ E).
  - destruct (decide (sstable.AppliedIndex r > a0)); [|done]. apply (Hall id file r); [by left|done|done].
  - intros id' file' r' Hin. apply Hall. by right.
Qed.

(** What an open puts into the fields that no read looks at. *)
Record reopened (disk : Disk) (ids : list Z) (d d' : DB) : Prop := {
  ro_override : commitOverride d' = false;
  ro_last : appliedTS d' = nextTimestamp d' - 1;
  ro_ids : sstableIDs d' = ids;
  ro_next : nextID d' = match ids with id :: _ => id + 1 | [] => 1 end;
  ro_log : wal.f (db_wal d') = wal.f (db_wal d);
  ro_applied : (forall id file r, id ∈ ids -> d_ssts disk !! id = Some file -> sstable.OpenReader file = Ok r ->
                  is_u64 (sstable.AppliedIndex r)) -> is_u64 (appliedIndex d')
}.

Lemma reopen_models d disk VM tables o c ids :
  models d VM None tables -> logged d VM -> files_ok disk ids tables -> nextTimestamp d < 2 ^ 64 ->
  exists d', OpenWith (Some (wal.f (db_wal d))) disk o c = Ok d' /\ models d' VM None tables
    /\ logged d' VM /\ closed d' = false /\ nextTimestamp d' <= nextTimestamp d /\ reopened disk ids d d'.
Proof.
  intros Hm (txns & Htx & -> & Hw & Hmk) Hfo Hbound.
  pose proof (sm_next _ _ _ _ Hm) as Hn1. pose proof (wal.holds_small _ _ Hw) as Hsmall.
  assert (Forall (fun a => sstable.max_ts a < nextTimestamp d) tables) as Hmts.
  { apply Forall_forall. intros a Ha. apply max_ts_lt; [lia|]. intros b Hb.
    apply (sm_below _ _ _ _ Hm (sstable.a_key b)). unfold contents, layers. rewrite stack_dom.
    exists (sstable.versions a). split; [|by apply versions_some]. apply elem_of_cons. right.
    cbn [frozen_layer app]. by apply list_elem_of_fmap_2. }
  destruct (openTables_spec (d_ssts disk) ids tables (nextTimestamp d) [] 0 0 (fo_files _ _ _ Hfo) ltac:(lia) Hmts)
    as (rs & mts & mapp & Eop & Hrs & Hm0 & Hall & Hlt).
  pose proof (ltxn_recs_wf txns Htx) as Hwf.
  rewrite (wal.holds_f _ _ Hw), <- (app_nil_r (record.encs (log_recs txns))).
  rewrite (OpenWith_scan (log_recs txns) [] disk o c rs mts mapp); [|done|done|by left|].
  2: { by rewrite (discover_files _ _ _ Hfo), reverse_involutive. }
  destruct (replay_log txns [] disk mts c Htx ltac:(constructor)) as (st & Est & [Hmt Hmax _ _ _]).
  rewrite app_nil_r in Est, Hmax. rewrite Est.
  pose proof (log_recs_ts txns _ Htx Hmk) as Hrts.
  pose proof (max_rec_ts_lt (log_recs txns) (nextTimestamp d) mts Hlt Hrts) as Hup.
  pose proof (max_rec_ts_ge (log_recs txns) mts) as Hlow.
  assert (u64 (rp_maxTS st + 1) = rp_maxTS st + 1) as Hu by (apply u64_small; rewrite Hmax; unfold is_u64; lia).
  eexists. split; [done|]. split_and!; [| |done|cbn; rewrite Hu, Hmax; lia|].
  - split; cbn; rewrite ?Hu; [done|done|exact Hrs|apply Hm| |lia].
    intros k t H. rewrite Hmax. change (is_Some (stack (layers (committed txns) None tables) !! (k, t))) in H.
    unfold layers in H. apply stack_dom in H as (V & HV & HVt).
    apply elem_of_cons in HV as [->|HV].
    + apply committed_bound in HVt as (r & Hr & <-). pose proof (max_rec_ts_le mts _ _ Hr). lia.
    + cbn [frozen_layer app] in HV. apply list_elem_of_fmap in HV as (a & -> & Ha).
      rewrite Forall_forall in Hall. specialize (Hall a Ha). apply versions_elem in HVt as (b & Hb & _ & <-).
      pose proof (proj2 (max_ts_bound a 0 b) Hb). unfold sstable.max_ts in Hall. cbn in Hall. lia.
  - exists txns. cbn. rewrite Hu, Hmax. split_and!; [done|done|by apply wal.holds_reopened|].
    apply Forall_forall. intros x Hx. assert (lt_commit x ∈ log_recs txns) as Hin.
    { apply log_recs_elem. exists x. split; [done|]. apply elem_of_app. right. by apply list_elem_of_singleton. }
    pose proof (max_rec_ts_le mts _ _ Hin). lia.
  - unfold opened. rewrite (discover_files _ _ _ Hfo), reverse_involutive.
    assert (last (reverse ids) = head ids) as El by (destruct ids as [|id ids]; [done|by rewrite reverse_cons, last_snoc]).
    split; cbn [commitOverride appliedTS nextTimestamp sstableIDs nextID db_wal appliedIndex wal.f]; try done.
    + rewrite Hu. lia.
    + rewrite El. by destruct ids.
    + by rewrite (wal.holds_f _ _ Hw).
    + intros Hai. pose proof (openTables_applied _ _ _ _ _ _ _ _ Eop ltac:(unfold is_u64; lia) Hai).
      pose proof (is_u64_u64 (dbdisk.readAppliedBase (d_base disk) + rp_commits st)). by case_decide.
Qed.

(** ** Properties *)

Definition same_store_reads (d d' : DB) (V : vmap) : Prop :=
  forall k s, readable V k -> 0 <= s < 2 ^ 56 -> (GetAsOf d' k s).2 = (GetAsOf d k s).2.

Lemma GetAsOf_client d VM VF tables k s :
  models d VM VF tables -> closed d = false -> readable (contents VM VF tables) k -> 0 <= s < 2 ^ 56 ->
  exists d' res, GetAsOf d k s = (d', client res) /\ models d' VM VF tables
    /\ sees (contents VM VF tables) k s res.
Proof.
  intros Hm Hcl Hr Hs. unfold GetAsOf. rewrite Hcl.
  destruct (getAsOfSnapshot_spec d VM VF tables k s Hm Hr Hs) as (ssts & res & -> & Htab & Hsees).
  exists (set_sstables d ssts), res. split_and!; [done| |done]. by apply (models_frame d).
Qed.

(** Stores that agree on what is live answer alike. *)
Lemma reads_agree d d' VM VF tables VM' VF' tables' k s :
  models d VM VF tables -> models d' VM' VF' tables' -> closed d = false -> closed d' = false ->
  readable (contents VM VF tables) k -> readable (contents VM' VF' tables') k -> 0 <= s < 2 ^ 56 ->
  (forall v, live (contents VM' VF' tables') k s v <-> live (contents VM VF tables) k s v) ->
  (GetAsOf d' k s).2 = (GetAsOf d k s).2.
Proof.
  intros Hm Hm' Hc Hc' Hr Hr' Hs Hlive.
  destruct (GetAsOf_client d VM VF tables k s Hm Hc Hr Hs) as (d1 & r1 & -> & _ & H1).
  destruct (GetAsOf_client d' VM' VF' tables' k s Hm' Hc' Hr' Hs) as (d2 & r2 & -> & _ & H2).
  cbn. by eapply client_eq.
Qed.

(** Below the new timestamp nothing changes. *)
Lemma stamped_live V t ts V' k s v :
  stamped V t ts V' -> s < ts -> live V' k s v <-> live V k s v.
Proof.
  intros Hst Hs. unfold live, visible.
  assert (forall t' ov, t' <= s -> V' !! (k, t') = Some ov <-> V !! (k, t') = Some ov) as H.
  { intros t' ov Ht'. rewrite Hst, decide_False by lia. done. }
  split; intros (t' & op & (H1 & H2 & H3) & H4); exists t', op; (split; [|done]); split_and!; try done.
  - by apply H.
  - intros t2 ov2 Hv Hle. apply (H3 t2 ov2); [by apply H|done].
  - by apply H.
  - intros t2 ov2 Hv Hle. apply (H3 t2 ov2); [by apply H|done].
Qed.

(** C9.  Reads are exact where the byte order can be trusted: when all stored keys
    are text (no 0xFF byte, timestamps below 2^56), or the key is no prefix of
    another stored key nor the other way round, and the snapshot is below 2^56,
    [GetAsOf] on an open store with any number of layers returns the value of the
    newest version of the key at or below the snapshot, over the memtable, the
    frozen memtable and all tables, and ErrKeyNotFound exactly when there is none
    or it is a tombstone; it changes no version. *)
Theorem db_get_as_of d VM VF tables k s :
  models d VM VF tables -> closed d = false -> readable (contents VM VF tables) k -> 0 <= s < 2 ^ 56 ->
  (exists d', (GetAsOf d k s).1 = d' /\ models d' VM VF tables)
  /\ match (GetAsOf d k s).2 with
     | Ok v => live (contents VM VF tables) k s v
     | Err e => e = ErrKeyNotFound /\ forall v, ~ live (contents VM VF tables) k s v
     | Panic => False
     end.
Proof.
  intros Hm Hcl Hr Hs. destruct (GetAsOf_client d VM VF tables k s Hm Hcl Hr Hs) as (d' & res & -> & Hm' & Hres).
  split; [by exists d'|]. by apply client_live.
Qed.

(** C1.  Snapshot isolation of [Commit], on a store whose keys are text (no 0xFF
    byte, timestamps below 2^56) and none of them extends a key that is written,
    and with room in the log: a transaction fails with ErrConflict exactly when a
    key it writes has a version newer than its read snapshot, and then nothing is
    stored; otherwise all its writes, and nothing else, are added at the next
    timestamp, in the memtable or in the table a flush made of it, and the log
    holds it.  Reads at snapshots below that timestamp answer as before.  (With a
    stored key that extends a written one the check can miss a conflict.) *)
Theorem db_commit d disk t VM tables :
  models d VM None tables -> logged d VM ->
  finished t = false -> commitOverride d = false -> closed d = false -> writes t <> ∅ -> txn_ok t ->
  (forall k, is_Some (writes t !! k) -> findable (contents VM None tables) k) ->
  nextTimestamp d < 2 ^ 64 - 1 -> log_room d (entry_size t (nextTimestamp d)) ->
  writable (put_recs VM (dataRecords t (nextTimestamp d))) -> is_u64 (appliedIndex d) ->
  exists d' disk' r VM' tables', Commit d disk t = Some (d', disk', finish t, r)
    /\ models d' VM' None tables' /\ logged d' VM'
    /\ (forall k s v, s < nextTimestamp d ->
          live (contents VM' None tables') k s v <-> live (contents VM None tables) k s v)
    /\ ((r = Failed ErrConflict /\ contents VM' None tables' = contents VM None tables
         /\ nextTimestamp d' = nextTimestamp d /\ appliedTS d' = appliedTS d
         /\ exists k, is_Some (writes t !! k) /\ has_newer (contents VM None tables) k (readSnap t))
        \/ (r = Committed
         /\ stamped (contents VM None tables) t (nextTimestamp d) (contents VM' None tables')
         /\ nextTimestamp d' = nextTimestamp d + 1 /\ appliedTS d' = nextTimestamp d
         /\ forall k, is_Some (writes t !! k) -> ~ has_newer (contents VM None tables) k (readSnap t))).
Proof.
  intros. destruct (Commit_run d disk t VM tables) as (d' & disk' & r & VM' & tables' & E & Hm' & Hl' & _ & Hcase);
    [done..|]. exists d', disk', r, VM', tables'. split_and!; [done..| |done].
  intros k s v Hs. destruct Hcase as [(_ & -> & _)|(_ & Hst & _)]; [done|]. by eapply stamped_live.
Qed.

(** C12.  A flush keeps the store, if no frozen memtable is left over: the
    memtable becomes the newest table, the log is emptied, every read the byte
    order can be trusted for ([readable], snapshots below 2^56) answers as before
    and the next timestamp, the sessions and the applied index stay. *)
Theorem db_flush d disk VM tables :
  models d VM None tables -> writable VM -> is_u64 (appliedIndex d) -> VM <> ∅ -> closed d = false ->
  exists d' disk' a, FlushForTesting d disk = Some (d', disk', None)
    /\ models d' ∅ None (a :: tables) /\ sstable.versions a = VM /\ logged d' ∅ /\ same_meta d d'
    /\ same_store_reads d d' (contents VM None tables).
Proof.
  intros Hm Hw Hai Hne Hcl. unfold FlushForTesting. rewrite Hcl.
  destruct (flushLocked_models d disk VM None tables Hm Hw Hai Hne)
    as (d1 & disk' & a & -> & Hm1 & Hv & Hc & Hlog & Hmeta & _). cbn [mbind option_bind].
  assert (models (signalCompact d1) ∅ None (a :: tables)) as Hm2.
  { unfold signalCompact. destruct (closed d1 || _); [done|]. apply (models_frame d1); try done. apply Hm1. }
  exists (signalCompact d1), disk', a. split_and!; [done|done|done| | |].
  - apply (logged_frame d1); [done|unfold signalCompact; by destruct (_ || _)|
      unfold signalCompact; destruct (_ || _); cbn; lia].
  - unfold signalCompact. by destruct (_ || _).
  - intros k s Hr Hs. eapply reads_agree; [exact Hm|exact Hm2|done| |done| |done|].
    + destruct Hmeta as (_ & _ & _ & _ & E & _). unfold signalCompact. destruct (closed d1 || _); cbn; congruence.
    + by rewrite Hc.
    + intros v. by rewrite Hc.
Qed.

(** A flush that follows a failed one forgets data: a failed flush leaves its
    memtable frozen, and the next flush replaces the frozen memtable without
    writing it, then empties the log; every version only the old frozen memtable
    had is gone from the store and from the log. *)
Theorem db_flush_forgets_frozen d disk VM VF tables :
  models d VM (Some VF) tables -> writable VM -> is_u64 (appliedIndex d) -> VM <> ∅ -> closed d = false ->
  exists d' disk' a, FlushForTesting d disk = Some (d', disk', None)
    /\ models d' ∅ None (a :: tables) /\ logged d' ∅
    /\ forall k t, is_Some (VF !! (k, t)) -> VM !! (k, t) = None -> layered tables !! (k, t) = None ->
         is_Some (contents VM (Some VF) tables !! (k, t))
         /\ contents ∅ None (a :: tables) !! (k, t) = None.
Proof.
  intros Hm Hw Hai Hne Hcl. unfold FlushForTesting. rewrite Hcl.
  destruct (flushLocked_models d disk VM (Some VF) tables Hm Hw Hai Hne)
    as (d1 & disk' & a & -> & Hm1 & Hv & Hc & Hlog & Hmeta & _). cbn [mbind option_bind].
  exists (signalCompact d1), disk', a. split_and!; [done| | |].
  - unfold signalCompact. destruct (closed d1 || _); [done|]. apply (models_frame d1); try done. apply Hm1.
  - apply (logged_frame d1); [done|unfold signalCompact; by destruct (_ || _)|
      unfold signalCompact; destruct (_ || _); cbn; lia].
  - intros k t Hf Hn Hl. split.
    + unfold contents, layers. rewrite stack_dom. exists VF. split; [|done]. cbn.
      apply elem_of_cons. right. apply elem_of_cons. by left.
    + rewrite Hc. unfold contents, layers. cbn [frozen_layer app]. rewrite stack_cons, lookup_union, Hn.
      change (None ∪ layered tables !! (k, t) = None). by rewrite Hl.
Qed.

(** C6. Replicated commits apply exactly once: the entry a leader prepares from a
    transaction is decoded and applied by any replica that is behind it; if the
    transaction's session already has this sequence number, the store and the
    session table stay as they are, otherwise exactly its writes are added at the
    leader's timestamp and the session is advanced; either way the applied index,
    the applied timestamp and the next timestamp move up to the entry. *)
Theorem db_apply_prepared dl dl' t t' entry ts d disk idx VM tables :
  PrepareCommit dl t = Some (dl', t', Ok (Some (entry, ts))) -> is_u64 ts -> ts < 2 ^ 64 - 1 ->
  models d VM None tables -> logged d VM -> closed d = false ->
  txn_ok t -> session_ok t -> log_room d (len entry) -> is_u64 (appliedIndex d) -> is_u64 idx ->
  (if decide (duplicate d t) then writable VM
   else newer_than_all (contents VM None tables) ts /\ writable (put_recs VM (dataRecords t ts))) ->
  exists d' disk' VM' tables', ApplyEntry d disk idx entry = Some (d', disk', None)
    /\ models d' VM' None tables' /\ logged d' VM'
    /\ appliedIndex d' = Z.max (appliedIndex d) idx /\ appliedTS d' = Z.max (appliedTS d) ts
    /\ nextTimestamp d' = Z.max (nextTimestamp d) (ts + 1)
    /\ if decide (duplicate d t)
       then contents VM' None tables' = contents VM None tables /\ sessions d' = sessions d
       else stamped (contents VM None tables) t ts (contents VM' None tables')
            /\ sessions d' = if decide (session t = []) then sessions d
                             else <[session t := seq t]> (sessions d).
Proof.
  intros Hp Hts Hmax Hm Hlog Hcl Htx Hse Hroom Hai Hidx Hcase.
  apply PrepareCommit_entry in Hp as (-> & _). by apply ApplyEntry_run.
Qed.

(** C10.  A process crash loses nothing: opening the directory again, from the log
    as written and the table files, gives a store with the same versions, whose
    reads answer as before where the byte order can be trusted ([readable],
    snapshots below 2^56) and whose next timestamp is above every stored one. *)
Theorem db_reopen d disk VM tables o c ids :
  models d VM None tables -> logged d VM -> files_ok disk ids tables -> nextTimestamp d < 2 ^ 64 ->
  closed d = false ->
  exists d', OpenWith (Some (wal.f (db_wal d))) disk o c = Ok d' /\ models d' VM None tables
    /\ logged d' VM /\ nextTimestamp d' <= nextTimestamp d
    /\ same_store_reads d d' (contents VM None tables).
Proof.
  intros Hm Hlog Hf Hb Hcl. destruct (reopen_models d disk VM tables o c ids Hm Hlog Hf Hb)
    as (d' & E & Hm' & Hlog' & Hcl' & Hle & _). exists d'. split_and!; [done..|].
  intros k s Hr Hs. by eapply reads_agree.
Qed.

(** ** Witnesses *)

Definition start_db : option DB :=
  match OpenWith None (MkDisk ∅ None None) (MkOptions true 0 2 true) (fun _ _ => false) with
  | Ok d => Some d
  | _ => None
  end.

Definition put_txn (k : bytes) : Txn := MkTxn 0 0 {[ k := (OpPut, [x31]) ]} false [x73] 1.

Lemma start_facts d : start_db = Some d ->
  models d ∅ None [] /\ logged d ∅ /\ closed d = false /\ commitOverride d = false
  /\ nextTimestamp d = 1 /\ appliedIndex d = 0 /\ sessions d = ∅ /\ db_wal d = wal.MkWAL [] 0 0 0 true false.
Proof.
  intros E.
  assert ((fun d => (memtable d, frozen d, sstables d)) <$> start_db = Some (Memtable.New, None, [])) as H1
    by (vm_compute; reflexivity).
  assert ((fun d => (closed d, commitOverride d, nextTimestamp d, appliedIndex d, sessions d, db_wal d)) <$> start_db
    = Some (false, false, 1, 0, ∅, wal.MkWAL [] 0 0 0 true false)) as H2 by (vm_compute; reflexivity).
  rewrite E in H1, H2. cbn in H1, H2. injection H1 as Hm Hf Hs. injection H2 as Hc Ho Hn Ha Hse Hw.
  split_and!; try done.
  - split; rewrite ?Hm, ?Hf, ?Hs, ?Hn; [|done|constructor| | |lia].
    + split; [|done]. exists []. apply Memtable.New_models.
    + split; [apply above_empty|done].
    + intros k t [ov H]. unfold contents, layers in H. cbn in H. rewrite lookup_union in H.
      change (None ∪ None = Some ov) in H. done.
  - exists []. rewrite Hw, Hn. split_and!; [done|done| |done].
    apply (wal.holds_reopened [] [] true); [done|]. vm_compute. reflexivity.
Qed.

Lemma writable_check V :
  map_Forall (fun kt ov => record.wf (record.MkRec ov.1 kt.2 (Encode kt.1 kt.2) ov.2)) V ->
  Memtable.footprint V < 2 ^ 60 -> writable V.
Proof. intros H Hf. split; [|done]. intros k t op v Hk. exact (H (k, t) (op, v) Hk). Qed.

Lemma put_txn_facts k : len k < 1000 -> text_key k ->
  writes (put_txn k) <> ∅ /\ txn_ok (put_txn k) /\ session_ok (put_txn k)
  /\ forall k', is_Some (writes (put_txn k) !! k') -> k' = k.
Proof.
  intros Hk Ht. split; [|split; [|split]].
  - unfold put_txn. cbn. apply map_non_empty_singleton.
  - intros k' ov H. cbn in H. apply lookup_singleton_Some in H as [<- <-]. cbn.
    split_and!; [by left|lia|by vm_compute].
  - split; by_decide.
  - intros k' [ov H]. cbn in H. by apply lookup_singleton_Some in H as [<- _].
Qed.

Definition ka : bytes := [x61].

Lemma contents_mem V : contents V None [] = V.
Proof. change ((V ∪ ∅ : vmap) = V). apply (right_id_L ∅ (∪)). Qed.

Lemma contents_start : contents ∅ None [] = ∅.
Proof. change ((∅ ∪ ∅ : vmap) = ∅). apply (left_id_L ∅ (∪)). Qed.

Lemma findable_start k : text_key k -> findable (contents ∅ None []) k.
Proof.
  intros Hk. rewrite contents_start.
  split_and!; [|done|]; [intros k' t [ov H]|intros k' t [ov H]]; by rewrite lookup_empty in H.
Qed.

(** The store after one committed put of "a". *)
Lemma demo_committed :
  exists d0 d disk VM tables, start_db = Some d0
    /\ Commit d0 (MkDisk ∅ None None) (put_txn ka) = Some (d, disk, finish (put_txn ka), Committed)
    /\ models d VM None tables /\ logged d VM
    /\ stamped ∅ (put_txn ka) 1 (contents VM None tables) /\ nextTimestamp d = 2 /\ closed d = false
    /\ tables = [] /\ d_ssts disk = ∅.
Proof.
  destruct start_db as [d0|] eqn:E; [|by vm_compute in E].
  destruct (start_facts d0 E) as (Hm & Hlog & Hc & Ho & Hn & Ha & Hs & Hw).
  destruct (put_txn_facts ka ltac:(by_decide) ltac:(by_decide)) as (Hne & Htx & _ & Honly).
  destruct (Commit_run d0 (MkDisk ∅ None None) (put_txn ka) ∅ [] Hm Hlog eq_refl Ho Hc Hne Htx)
    as (d & disk & r & VM & tables & Er & Hm' & Hlog' & [G1 _ _ _ _ G6] & [(_ & _ & _ & _ & k & _ & (t & Ht & _))|(-> & Hst & Hn' & _ & _)]).
  - intros k ->%Honly. apply findable_start. by_decide.
  - rewrite Hn. lia.
  - unfold log_room. rewrite Hw, Hn. by_decide.
  - rewrite Hn. apply writable_check; by_decide.
  - rewrite Ha. by_decide.
  - exfalso. destruct Ht as [ov Ht]. by rewrite contents_start, lookup_empty in Ht.
  - exists d0, d, disk, VM, tables. rewrite Hn, contents_start in *.
    assert ((fun x => d_ssts x.1.1.2) <$> (d ← start_db; Commit d (MkDisk ∅ None None) (put_txn ka)) = Some ∅) as Hd
      by (vm_compute; reflexivity).
    rewrite E in Hd. cbn [mbind option_bind] in Hd. rewrite Er in Hd. cbn in Hd. injection Hd as Hd.
    split_and!; try done; [by rewrite G1|]. destruct G6 as [(_ & _ & _ & ->)|(file & a & _ & _ & Hf & _)]; [done|].
    rewrite Hd in Hf. cbn in Hf. by apply eq_sym, insert_non_empty in Hf.
Qed.

Definition rec1 (k : bytes) : record.Rec := record.MkRec OpPut 1 k [x31].

(** A store whose memtable holds one version of [k], and its frozen memtable
    possibly another. *)
Lemma demo_mem k VF f :
  text_key k -> len k < 1000 -> frozen_models f VF -> ordered (frozen_layer VF) ->
  (forall V k' t, VF = Some V -> is_Some (V !! (k', t)) -> k' <> k /\ t < 2) ->
  exists d, models d (put_rec ∅ (rec1 k)) VF [] /\ closed d = false /\ appliedIndex d = 0
    /\ writable (put_rec ∅ (rec1 k)) /\ nextTimestamp d = 2.
Proof.
  intros Hk Hlen Hf Hord HVF. destruct start_db as [d0|] eqn:E; [|by vm_compute in E].
  destruct (start_facts d0 E) as (Hm & Hlog & Hc & Ho & Hn & Ha & Hs & Hw).
  assert (record.wf (record.MkRec OpPut 1 (Encode k 1) [x31])) as Hwf.
  { split; [done|split; [done|split; [|by vm_compute]]]. cbn [record.Key].
    rewrite len_Encode. unfold record.HeaderSize. lia. }
  assert (data_ok (rec1 k)) as Hd.
  { split; [|by left]. split; [done|split; [done|split; [|by vm_compute]]]. cbn. unfold record.HeaderSize. lia. }
  destruct (apply_one (memtable d0) ∅ (rec1 k) (fun _ => false) (sm_mem _ _ _ _ Hm) Hd) as (mt & _ & Hmt).
  set (d := MkDB (opts d0) (db_wal d0) mt f [] [] 1 2 0 0 0 ∅ false false ∅ false (rng d0)).
  assert (forall k' t, is_Some (put_rec ∅ (rec1 k) !! (k', t)) -> k' = k /\ t = 1) as Hdom.
  { intros k' t [ov H]. unfold put_rec in H. apply lookup_insert_Some in H as [[[= <- <-] _]|[_ H]]; [done|].
    by rewrite lookup_empty in H. }
  assert (stack (frozen_layer VF) = default ∅ VF) as Hst.
  { destruct VF as [V|]; [|done]. cbn. apply (right_id_L ∅ (∪)). }
  exists d. split_and!; [|done|done| |done].
  - split; cbn; [done|done|constructor| | |lia].
    + unfold layers. cbn [ordered]. rewrite ?fmap_nil, app_nil_r. split; [|done].
      intros k' t t' H H'. apply Hdom in H as [-> ->]. rewrite Hst in H'.
      destruct VF as [V|]; cbn in H'; [|destruct H' as [ov H']; by rewrite lookup_empty in H'].
      destruct (HVF V k t' eq_refl H') as [[] _]. done.
    + intros k' t H. change (is_Some (stack (layers (put_rec ∅ (rec1 k)) VF []) !! (k', t))) in H.
      unfold layers in H. rewrite ?fmap_nil, app_nil_r, stack_cons, union_dom, Hst in H.
      destruct H as [H|H]; [apply Hdom in H as [_ ->]; lia|].
      destruct VF as [V|]; cbn in H; [|destruct H as [ov H]; by rewrite lookup_empty in H].
      destruct (HVF V k' t eq_refl H) as [_ H2]. lia.
  - split.
    + intros k' t op v H. unfold put_rec in H. apply lookup_insert_Some in H as [[[= <- <-] E2]|[_ H]].
      * cbn in E2. injection E2 as <- <-. exact Hwf.
      * by rewrite lookup_empty in H.
    + unfold put_rec. rewrite Memtable.footprint_insert, Memtable.footprint_empty, lookup_empty.
      unfold Memtable.cost, TimestampSize, Memtable.entryOverhead. cbn [rec1 record.Key record.Timestamp fst snd].
      change (len (if decide (record.Op (rec1 k) = OpPut) then record.Value (rec1 k) else [])) with 1. lia.
Qed.

Lemma put_rec_nonempty r : put_rec ∅ r <> ∅.
Proof. unfold put_rec. apply insert_non_empty. Qed.

Lemma db_get_as_of_witness :
  exists d VM tables, models d VM None tables
    /\ match (GetAsOf d ka 1).2 with
       | Ok v => live (contents VM None tables) ka 1 v
       | Err e => e = ErrKeyNotFound /\ forall v, ~ live (contents VM None tables) ka 1 v
       | Panic => False
       end.
Proof.
  destruct (demo_mem ka None None ltac:(by_decide) ltac:(by_decide) I I ltac:(done)) as (d & Hm & Hc & _).
  exists d, (put_rec ∅ (rec1 ka)), []. split; [exact Hm|].
  apply (db_get_as_of d _ None [] ka 1 Hm Hc); [|lia]. left.
  rewrite contents_mem. intros k t [ov H].
  unfold put_rec in H. apply lookup_insert_Some in H as [[[= <- <-] _]|[_ H]]; [by_decide|].
  by rewrite lookup_empty in H.
Defined.

Lemma db_commit_witness :
  exists d0 d' disk' r VM' tables', start_db = Some d0
    /\ Commit d0 (MkDisk ∅ None None) (put_txn ka) = Some (d', disk', finish (put_txn ka), r)
    /\ models d' VM' None tables' /\ (r = Committed \/ r = Failed ErrConflict).
Proof.
  destruct start_db as [d0|] eqn:E; [|by vm_compute in E].
  destruct (start_facts d0 E) as (Hm & Hlog & Hc & Ho & Hn & Ha & Hs & Hw).
  destruct (put_txn_facts ka ltac:(by_decide) ltac:(by_decide)) as (Hne & Htx & _ & Honly).
  destruct (db_commit d0 (MkDisk ∅ None None) (put_txn ka) ∅ [] Hm Hlog eq_refl Ho Hc Hne Htx)
    as (d & disk & r & VM & tables & Er & Hm' & _ & _ & Hcase).
  - intros k ->%Honly. apply findable_start. by_decide.
  - rewrite Hn. lia.
  - unfold log_room. rewrite Hw, Hn. by_decide.
  - rewrite Hn. apply writable_check; by_decide.
  - rewrite Ha. by_decide.
  - exists d0, d, disk, r, VM, tables. split; [done|]. split; [exact Er|]. split; [exact Hm'|].
    destruct Hcase as [[-> _]|[-> _]]; auto.
Defined.

Lemma db_flush_witness :
  exists d d' disk' a, FlushForTesting d (MkDisk ∅ None None) = Some (d', disk', None)
    /\ models d' ∅ None [a] /\ sstable.versions a = put_rec ∅ (rec1 ka).
Proof.
  destruct (demo_mem ka None None ltac:(by_decide) ltac:(by_decide) I I ltac:(done)) as (d & Hm & Hc & Ha & Hwr & _).
  destruct (db_flush d (MkDisk ∅ None None) _ [] Hm Hwr ltac:(rewrite Ha; by_decide) (put_rec_nonempty _) Hc)
    as (d' & disk' & a & E & Hm' & Hv & _).
  exists d, d', disk', a. split; [exact E|]. split; [exact Hm'|exact Hv].
Defined.

Definition kb : bytes := [x62].

Lemma db_flush_forgets_frozen_witness :
  exists d VF d' disk' a, models d (put_rec ∅ (rec1 kb)) (Some VF) []
    /\ FlushForTesting d (MkDisk ∅ None None) = Some (d', disk', None)
    /\ is_Some (contents (put_rec ∅ (rec1 kb)) (Some VF) [] !! (ka, 1))
    /\ contents ∅ None [a] !! (ka, 1) = None.
Proof.
  destruct (demo_mem ka None None ltac:(by_decide) ltac:(by_decide) I I ltac:(done)) as (d0 & Hm0 & _).
  destruct (sm_mem _ _ _ _ Hm0) as [[l Hl] _].
  set (VF := put_rec ∅ (rec1 ka)) in *.
  destruct (demo_mem kb (Some VF) (Some (memtable d0)) ltac:(by_decide) ltac:(by_decide)) as (d & Hm & Hc & Ha & Hwr & _).
  - exists l. exact Hl.
  - split; [|done]. intros k t t' _ H. by apply stack_dom in H as (U & HU%elem_of_nil & _).
  - intros V k' t [= <-] [ov H]. unfold VF, put_rec in H.
    apply lookup_insert_Some in H as [[[= <- <-] _]|[_ H]]; [split; [by vm_compute|lia]|].
    by rewrite lookup_empty in H.
  - destruct (db_flush_forgets_frozen d (MkDisk ∅ None None) _ VF [] Hm Hwr ltac:(rewrite Ha; by_decide)
                (put_rec_nonempty _) Hc) as (d' & disk' & a & E & _ & _ & Hf).
    exists d, VF, d', disk', a. split; [exact Hm|]. split; [exact E|].
    apply (Hf ka 1); [by eexists|vm_compute; reflexivity|vm_compute; reflexivity].
Defined.

Definition prepared_ts : option Z :=
  match start_db with
  | Some d =>
      match PrepareCommit d (put_txn ka) with
      | Some (_, _, Ok (Some (_, ts))) => Some ts
      | _ => None
      end
  | None => None
  end.

Lemma db_apply_prepared_witness :
  exists d0 dl' entry d' disk' VM' tables', start_db = Some d0
    /\ PrepareCommit d0 (put_txn ka) = Some (dl', finish (put_txn ka), Ok (Some (entry, 1)))
    /\ ApplyEntry d0 (MkDisk ∅ None None) 7 entry = Some (d', disk', None)
    /\ models d' VM' None tables' /\ appliedIndex d' = 7 /\ sessions d' = {[ [x73] := 1 ]}.
Proof.
  destruct start_db as [d0|] eqn:E; [|by vm_compute in E].
  destruct (start_facts d0 E) as (Hm & Hlog & Hc & Ho & Hn & Ha & Hs & Hw).
  destruct (put_txn_facts ka ltac:(by_decide) ltac:(by_decide)) as (Hne & Htx & Hse & Honly).
  assert (prepared_ts = Some 1) as Hp by (vm_compute; reflexivity).
  unfold prepared_ts in Hp. rewrite E in Hp.
  destruct (PrepareCommit d0 (put_txn ka)) as [[[dl' t'] [[[entry ts]|]|er|]]|] eqn:Ep; try done.
  injection Hp as ->. pose proof (PrepareCommit_entry _ _ _ _ _ _ Ep) as (He & _ & _ & -> & _).
  destruct (db_apply_prepared d0 dl' (put_txn ka) _ entry 1 d0 (MkDisk ∅ None None) 7 ∅ [] Ep
              ltac:(by_decide) ltac:(lia) Hm Hlog Hc Htx Hse)
    as (d' & disk' & VM' & tables' & E1 & Hm' & _ & E2 & _ & _ & Hcase).
  - unfold log_room. rewrite Hw, He. by_decide.
  - rewrite Ha. by_decide.
  - by_decide.
  - rewrite decide_False by (unfold duplicate; rewrite Hs; intros [_ Hq]; by vm_compute in Hq). split.
    + intros k t [ov H]. by rewrite contents_start, lookup_empty in H.
    + apply writable_check; by_decide.
  - rewrite decide_False in Hcase by (unfold duplicate; rewrite Hs; intros [_ Hq]; by vm_compute in Hq).
    destruct Hcase as [_ Hcase]. exists d0, dl', entry, d', disk', VM', tables'.
    split; [done|]. split; [exact Ep|]. split; [exact E1|]. split; [exact Hm'|]. split.
    + rewrite E2, Ha. reflexivity.
    + rewrite Hcase, Hs. vm_compute. reflexivity.
Defined.

(** The store after a put, reopened from its log. *)
Lemma db_reopen_witness :
  exists d disk d' VM, models d VM None [] /\ VM !! (ka, 1) = Some (OpPut, [x31])
    /\ OpenWith (Some (wal.f (db_wal d))) disk (MkOptions true 0 2 true) (fun _ _ => false) = Ok d'
    /\ models d' VM None [] /\ nextTimestamp d' <= 2.
Proof.
  destruct demo_committed as (d0 & d & disk & VM & tables & E & _ & Hm & Hlog & Hst & Hn & Hc & -> & Hd).
  destruct (db_reopen d disk VM [] (MkOptions true 0 2 true) (fun _ _ => false) [] Hm Hlog)
    as (d' & E1 & Hm' & _ & Hle & _).
  - split; [constructor| |constructor|constructor]. intros id [f H]. by rewrite Hd, lookup_empty in H.
  - rewrite Hn. lia.
  - exact Hc.
  - exists d, disk, d', VM. split; [exact Hm|]. rewrite Hn in Hle. split; [|split; [exact E1|split; [exact Hm'|exact Hle]]].
    specialize (Hst ka 1). rewrite contents_mem in Hst. rewrite Hst. reflexivity.
Defined.

End store.
