(* ===== verification/DbScan.v ===== *)
(** * Range scans (internal/db/scan.go)

    A scan captures the layers of the store under the lock, opens a cursor on
    each, merges the cursors with container/heap and walks the merged versions
    key by key, yielding the newest version visible at its snapshot.  Definitions,
    and the proof that the merge iterator yields the merged table of Merge.v. *)

From Stdlib Require Import ZArith Lia.
From Stdlib Require Import Strings.Byte.
From stdpp Require Import base list gmap sorting.
From S2P Require Import Prelude.
From S2P Require Import MvccKey.
From S2P Require Import OrderedMap.
From S2P Require Import Skiplist.
From S2P Require Import Versions.
From S2P Require Import Memtable.
From S2P Require Import RecordFmt.
From S2P Require Import SSTable.
From S2P Require Import SSTIter.
From S2P Require Import Merge.
From S2P Require Import Db.
From S2P Require Import Layers.
From S2P Require Import Compaction.

#[local] Open Scope Z_scope.
#[local] Open Scope bytes_scope.

Module scan.
Import db.

(** ** Cursors *)

(** The two implementations of the interface [versionCursor].  A table cursor
    carries its reader; what the store may change of a reader meanwhile is its
    test counter of block reads, and closing it. *)
Inductive versionCursor :=
| SliceCursor (entries : list Memtable.VersionEntry) (i : nat)
| TableCursor (r : sstable.Reader) (it : iterator.Iterator).

Definition cur_Valid (c : versionCursor) : bool :=
  match c with
  | SliceCursor es i => bool_decide (i < length es)%nat
  | TableCursor _ it => iterator.Valid it
  end.

(** [None] is an index out of range. *)
Definition cur_EncKey (c : versionCursor) : option bytes :=
  match c with
  | SliceCursor es i => Memtable.EncKey <$> es !! i
  | TableCursor _ it => Some (iterator.EncKey it)
  end.
Definition cur_Op (c : versionCursor) : option byte :=
  match c with
  | SliceCursor es i => Memtable.Op <$> es !! i
  | TableCursor _ it => Some (iterator.Op it)
  end.
Definition cur_Value (c : versionCursor) : option bytes :=
  match c with
  | SliceCursor es i => Memtable.Value <$> es !! i
  | TableCursor _ it => Some (iterator.Value it)
  end.

Definition cur_Advance (c : versionCursor) : option versionCursor :=
  match c with
  | SliceCursor es i => Some (SliceCursor es (S i))
  | TableCursor r it => '(r', it') ← iterator.Advance r it; Some (TableCursor r' it')
  end.

Definition cur_Err (c : versionCursor) : option sstable.error :=
  match c with SliceCursor _ _ => None | TableCursor _ it => iterator.Err_ it end.

Definition cur_Close (c : versionCursor) : versionCursor :=
  match c with
  | SliceCursor es i => c
  | TableCursor r it => TableCursor r (iterator.Close it)
  end.

(** ** The merge iterator *)

(** A [heapCursor] points to one of the cursors; its priority is the index of
    that cursor, so the index stands for both. *)
Abbreviation cursorHeap := (list nat).

(** Only valid cursors are on the heap, so the default is never compared. *)
Definition keyAt (cs : list versionCursor) (i : nat) : bytes := default [] (cs !! i ≫= cur_EncKey).

Definition Less (cs : list versionCursor) (i j : nat) : bool :=
  match bcompare (keyAt cs i) (keyAt cs j) with
  | Eq => bool_decide (i < j)%nat
  | c => bool_decide (c = Lt)
  end.

Record mergeIterator := MkMerge {
  m_h : cursorHeap;
  m_cursors : list versionCursor;
  m_encKey : bytes;
  m_value : bytes;
  m_op : byte;
  m_valid : bool;
  m_err : option sstable.error;
  m_lastEnc : option bytes
}.

Definition set_heap (m : mergeIterator) (h : cursorHeap) (cs : list versionCursor) : mergeIterator :=
  MkMerge h cs (m_encKey m) (m_value m) (m_op m) (m_valid m) (m_err m) (m_lastEnc m).

Definition set_valid (m : mergeIterator) (b : bool) : mergeIterator :=
  MkMerge (m_h m) (m_cursors m) (m_encKey m) (m_value m) (m_op m) b (m_err m) (m_lastEnc m).

(** The cursor on top is advanced in place and put back, or dropped when it is
    exhausted.  [append(nil, enc...)] is nil for an empty [enc]. *)
Fixpoint Advance_loop (fuel : nat) (m : mergeIterator) : option mergeIterator :=
  match fuel with
  | O => None
  | S fuel' =>
      match heap_pop (Less (m_cursors m)) (m_h m) with
      | None => Some (set_valid m false)
      | Some (i, rest) =>
          c ← m_cursors m !! i;
          enc ← cur_EncKey c;
          o ← cur_Op c;
          val ← cur_Value c;
          c' ← cur_Advance c;
          let cs := <[i := c']> (m_cursors m) in
          match cur_Err c' with
          | Some e =>
              Some (MkMerge (m_h m) cs (m_encKey m) (m_value m) (m_op m) false (Some e) (m_lastEnc m))
          | None =>
              let h := if cur_Valid c' then i :: rest else rest in
              if (match m_lastEnc m with Some l => bool_decide (enc = l) | None => false end)
              then Advance_loop fuel' (set_heap m h cs)
              else Some (MkMerge h cs enc val o true (m_err m) (compaction.append0 None enc))
          end
      end
  end.

(** A bound on what the cursors still hold. *)
Definition cur_fuel (c : versionCursor) : nat :=
  match c with
  | SliceCursor es i => length es
  | TableCursor r _ => iterator.positionFuel r
  end.
Definition fuel_of (cs : list versionCursor) : nat := S (foldr (fun c n => (cur_fuel c + n)%nat) 0%nat cs).

Definition Advance (m : mergeIterator) : option mergeIterator := Advance_loop (fuel_of (m_cursors m)) m.

Definition validIndices (cs : list versionCursor) : list nat :=
  filter (fun i => from_option cur_Valid false (cs !! i) = true) (List.seq 0%nat (length cs)).

Definition newMergeIterator (cs : list versionCursor) : option mergeIterator :=
  Advance (MkMerge (validIndices cs) cs [] [] x00 false None None).

(** ** The iterator *)

Inductive scan_error := ErrMalformed | ErrCursor (e : sstable.error).

Record Iterator := MkIterator {
  it_merge : mergeIterator;
  it_snapshot : Z;
  it_key : bytes;
  it_value : bytes;
  it_err : option scan_error;
  it_done : bool;
  it_closed : bool
}.

Definition set_merge (it : Iterator) (m : mergeIterator) : Iterator :=
  MkIterator m (it_snapshot it) (it_key it) (it_value it) (it_err it) (it_done it) (it_closed it).
Definition set_err (it : Iterator) (e : scan_error) : Iterator :=
  MkIterator (it_merge it) (it_snapshot it) (it_key it) (it_value it) (Some e) (it_done it) (it_closed it).
Definition set_done (it : Iterator) : Iterator :=
  MkIterator (it_merge it) (it_snapshot it) (it_key it) (it_value it) (it_err it) true (it_closed it).
Definition set_current (it : Iterator) (k v : bytes) : Iterator :=
  MkIterator (it_merge it) (it_snapshot it) k v (it_err it) (it_done it) (it_closed it).

(** The walk over the versions of [curUK].  The second component is [None] when
    an error was recorded, else what is to be emitted. *)
Fixpoint walkKey (fuel : nat) (it : Iterator) (curUK : bytes) (decided : bool) (emitVal : option bytes)
  : option (Iterator * option (option bytes)) :=
  match fuel with
  | O => None
  | S fuel' =>
      let m := it_merge it in
      if m_valid m then
        match Decode (m_encKey m) with
        | None => Some (set_err it ErrMalformed, None)
        | Some (vuk, vts) =>
            if decide (vuk <> curUK) then Some (it, Some emitVal)
            else
              let now := negb decided && bool_decide (vts <= it_snapshot it) in
              let emitVal' := if now && bool_decide (m_op m = OpPut) then Some (m_value m) else emitVal in
              m' ← Advance m;
              match m_err m' with
              | Some e => Some (set_err (set_merge it m') (ErrCursor e), None)
              | None => walkKey fuel' (set_merge it m') curUK (decided || now) emitVal'
              end
        end
      else Some (it, Some emitVal)
  end.

Fixpoint Next_loop (fuel : nat) (it : Iterator) : option (Iterator * bool) :=
  match fuel with
  | O => None
  | S fuel' =>
      if m_valid (it_merge it) then
        match Decode (m_encKey (it_merge it)) with
        | None => Some (set_err it ErrMalformed, false)
        | Some (curUK, _) =>
            '(it', res) ← walkKey (S (fuel_of (m_cursors (it_merge it)))) it curUK false None;
            match res with
            | None => Some (it', false)
            | Some (Some v) => Some (set_current it' curUK v, true)
            | Some None => Next_loop fuel' it'
            end
        end
      else Some (set_done it, false)
  end.

Definition Next (it : Iterator) : option (Iterator * bool) :=
  if it_done it || it_closed it || bool_decide (it_err it <> None) then Some (it, false)
  else Next_loop (S (fuel_of (m_cursors (it_merge it)))) it.

Definition Close (it : Iterator) : Iterator :=
  if it_closed it then it
  else
    let m := it_merge it in
    MkIterator (set_heap m (m_h m) (cur_Close <$> m_cursors m)) (it_snapshot it) (it_key it) (it_value it)
      (it_err it) (it_done it) true.

(** ** Opening a scan *)

(** What the read lock protects: the pointers to the layers. *)
Record view := MkView { v_memtable : MT; v_frozen : option MT; v_ssts : list sstable.Reader }.

Definition capture (d : DB) : view := MkView (memtable d) (frozen d) (sstables d).

Fixpoint tableCursors (ssts : list sstable.Reader) (start end_ : option bytes)
  : list sstable.Reader * outcome error (list versionCursor) :=
  match ssts with
  | [] => ([], Ok [])
  | r :: ssts' =>
      match iterator.NewIterator r start end_ with
      | (r', Ok it) =>
          let '(rs, o) := tableCursors ssts' start end_ in
          (r' :: rs, o ≫= fun cs => Ok (TableCursor r' it :: cs))
      | (r', Err e) => (r' :: ssts', Err (ErrSST e))
      | (r', Panic) => (r' :: ssts', Panic)
      end
  end.

Definition memCursor (mt : MT) (start end_ : option bytes) : option versionCursor :=
  es ← Memtable.RangeSnapshot mt start end_; Some (SliceCursor es 0).

(** After the lock has been released: the cursors on the captured layers, the
    active memtable first.  [None] is a panic. *)
Definition openScan (v : view) (start end_ : option bytes) (snapshot : Z)
  : option (list sstable.Reader * outcome error Iterator) :=
  active ← memCursor (v_memtable v) start end_;
  older ← match v_frozen v with
          | None => Some []
          | Some fm => c ← memCursor fm start end_; Some [c]
          end;
  match tableCursors (v_ssts v) start end_ with
  | (rs, Err e) => Some (rs, Err e)
  | (_, Panic) => None
  | (rs, Ok cs) =>
      m ← newMergeIterator (active :: older ++ cs);
      Some (rs, Ok (MkIterator m snapshot [] [] (ErrCursor <$> m_err m) false false))
  end.

Definition Scan (d : DB) (start end_ : option bytes) (snapshot : Z) : option (DB * outcome error Iterator) :=
  if closed d then Some (d, Err errClosed)
  else '(rs, o) ← openScan (capture d) start end_ snapshot; Some (set_sstables d rs, o).

(** The applied index and timestamp are read with the layers. *)
Definition SnapshotScan (d : DB) : option (DB * outcome error (Iterator * Z * Z)) :=
  if closed d then Some (d, Err errClosed)
  else
    '(rs, o) ← openScan (capture d) None None (appliedTS d);
    Some (set_sstables d rs, it ← o; Ok (it, appliedIndex d, appliedTS d)).

Definition ScanNow (d : DB) (start end_ : option bytes) : option (DB * outcome error Iterator) :=
  if closed d then Some (d, Err errClosed)
  else Scan d start end_ (if decide (nextTimestamp d > 0) then nextTimestamp d - 1 else nextTimestamp d).

(** ** Cursors yield lists *)

Abbreviation entry := (bytes * (byte * bytes))%type.

Definition ve_kv (e : Memtable.VersionEntry) : entry := (Memtable.EncKey e, (Memtable.Op e, Memtable.Value e)).

(** The cursor [c] still has to yield [R]. *)
Definition yields (c : versionCursor) (R : list entry) : Prop :=
  match c with
  | SliceCursor es i => R = ve_kv <$> drop i es
  | TableCursor r it => exists rs rest, iterator.shows r rs it rest
      /\ R = range_list (iterator.endUser it) (compaction.kvs rest)
  end.

Lemma range_list_tables end_ rest :
  range_list end_ (compaction.kvs rest) = [] <-> range_list end_ (sstable.table_of rest) = [].
Proof. destruct rest as [|x rest]; [done|]. cbn. by destruct (past_end end_ (UserKey (record.Key x))). Qed.

Lemma yields_valid c R : yields c R -> cur_Valid c = true <-> R <> [].
Proof.
  destruct c as [es i|r it]; cbn [yields cur_Valid].
  - intros ->. rewrite bool_decide_eq_true. split.
    + intros Hi E. apply fmap_nil_inv, (f_equal length) in E. rewrite length_drop in E. cbn in E. lia.
    + intros H. apply Nat.nle_gt. intros Hle. apply H. by rewrite drop_ge.
  - intros (rs & rest & (_ & _ & H) & ->). unfold iterator.Valid. destruct (iterator.valid it).
    + destruct H as (x & rest' & -> & Hp & _). cbn. by rewrite Hp.
    + apply range_list_tables in H. rewrite H. done.
Qed.

(** What a valid cursor shows, and how it moves on. *)
Lemma yields_cons c e R : yields c (e :: R) ->
  cur_EncKey c = Some e.1 /\ cur_Op c = Some e.2.1 /\ cur_Value c = Some e.2.2
  /\ exists c', cur_Advance c = Some c' /\ yields c' R /\ cur_Err c' = None.
Proof.
  intros Hy. pose proof (proj2 (yields_valid _ _ Hy) ltac:(done)) as Hv.
  destruct c as [es i|r it]; cbn [yields cur_Valid cur_EncKey cur_Op cur_Value cur_Advance] in *.
  - apply bool_decide_eq_true in Hv. destruct (lookup_lt_is_Some_2 es i Hv) as [x Hx].
    rewrite (drop_S es x i Hx), fmap_cons in Hy. injection Hy as -> ->. rewrite Hx.
    repeat split. by exists (SliceCursor es (S i)).
  - destruct Hy as (rs & rest & Hs & E). unfold iterator.Valid in Hv. pose proof Hs as (_ & _ & H). rewrite Hv in H.
    destruct H as (x & rest' & -> & Hp & Hk & Hval & Hop & _). cbn in E. rewrite Hp in E. injection E as -> ->.
    unfold iterator.EncKey, iterator.Value, iterator.Op. rewrite Hk, Hval, Hop. repeat split.
    destruct (iterator.Advance_shows r rs it x rest' Hv Hs) as (r' & it' & -> & Hs' & He).
    exists (TableCursor r' it'). split; [done|]. split; [|apply Hs']. exists rs, rest'. by rewrite He.
Qed.

Lemma length_range_list {A} end_ (l : list (bytes * A)) : (length (range_list end_ l) <= length l)%nat.
Proof. apply prefix_length, range_list_prefix. Qed.

Lemma yields_length c R : yields c R -> (length R <= cur_fuel c)%nat.
Proof.
  destruct c as [es i|r it]; cbn [yields cur_fuel].
  - intros ->. rewrite length_fmap, length_drop. lia.
  - intros (rs & rest & (_ & _ & H) & ->). destruct (iterator.valid it).
    + pose proof (length_range_list (iterator.endUser it) (compaction.kvs rest)) as Hl.
      unfold compaction.kvs in Hl at 2. rewrite length_fmap in Hl.
      destruct H as (x & rest' & -> & _ & _ & _ & _ & Hb).
      destruct Hb as (_ & _ & blocks & tail & pre & post & Hf & Hi & -> & _ & Hbl & _ & _ & ->).
      pose proof (iterator.positionFuel_enough r blocks tail Hf Hi ltac:(by intros ->)) as Hfuel.
      assert (length (post ++ concat (drop (S (iterator.blockIdx it)) blocks)) <= length (concat blocks))%nat.
      { rewrite <- (take_drop_middle _ _ _ Hbl) at 2. rewrite concat_app. cbn [concat].
        rewrite !length_app. lia. }
      cbn [length] in *. lia.
    + apply range_list_tables in H. rewrite H. cbn. lia.
Qed.

(** ** The merge iterator yields the merged table *)

Lemma scan_Less_false cs a b : Less cs b a = false <->
  keyAt cs a <b keyAt cs b \/ (keyAt cs a = keyAt cs b /\ (a <= b)%nat).
Proof.
  unfold Less. destruct (bcompare (keyAt cs b) (keyAt cs a)) eqn:E.
  - apply bcompare_eq in E. rewrite bool_decide_eq_false, E. split; [|intros [H|[_ H]]; [by apply blt_irrefl in H|lia]].
    intros H. right. split; [done|lia].
  - rewrite bool_decide_eq_false. split; [done|]. intros [H|[H _]].
    + exfalso. eapply blt_irrefl. etrans; [exact E|exact H].
    + rewrite H, bcompare_refl in E. done.
  - apply bcompare_gt in E. rewrite bool_decide_eq_false. split; [by left|done].
Qed.

Lemma scan_Less_asym cs a b : Less cs a b = true -> Less cs b a = false.
Proof.
  intros H. destruct (Less cs b a) eqn:E; [|done]. exfalso.
  assert (~ (Less cs a b = false)) as H1 by congruence. assert (~ (Less cs b a = false)) as H2 by congruence.
  rewrite scan_Less_false in H1, H2. destruct (bcompare (keyAt cs a) (keyAt cs b)) eqn:C.
  - apply bcompare_eq in C. destruct (Nat.le_ge_cases a b); [apply H2|apply H1]; right; auto.
  - apply H2. by left.
  - apply bcompare_gt in C. apply H1. by left.
Qed.

Lemma scan_Less_negtrans cs a b c : Less cs b a = false -> Less cs c b = false -> Less cs c a = false.
Proof.
  rewrite !scan_Less_false. intros [H1|[H1 L1]] [H2|[H2 L2]].
  - left. by etrans.
  - left. by rewrite <- H2.
  - left. by rewrite H1.
  - right. split; [congruence|lia].
Qed.

Definition enc_keys (Rs : list (list entry)) : Prop := Forall encoded_keys Rs.

(** The heap holds the cursors that are not exhausted. *)
Record merging (m : mergeIterator) (Rs : list (list entry)) : Prop := {
  mg_cursors : Forall2 yields (m_cursors m) Rs;
  mg_heap : forall i, i ∈ m_h m <-> exists e R, Rs !! i = Some (e :: R);
  mg_nodup : NoDup (m_h m);
  mg_sorted : Forall sorted_keys Rs;
  mg_keys : enc_keys Rs;
  mg_last : forall l, m_lastEnc m = Some l -> forall i (e : entry) R, Rs !! i = Some (e :: R) -> l <=b e.1;
  mg_err : m_err m = None
}.

(** What the iterator shows: [out] is the current version and all to come. *)
Definition stream (m : mergeIterator) (out : list entry) : Prop :=
  exists Rs, merging m Rs
    /\ if m_valid m
       then out = (m_encKey m, (m_op m, m_value m)) :: emit (m_lastEnc m) (merged Rs)
            /\ exists k t, is_u64 t /\ m_encKey m = Encode k t
       else out = [].

Lemma keyAt_head cs Rs i e R :
  Forall2 yields cs Rs -> Rs !! i = Some (e :: R) -> keyAt cs i = e.1.
Proof.
  intros Hc Hi. destruct (Forall2_lookup_r _ _ _ _ _ Hc Hi) as (c & Hci & Hy).
  unfold keyAt. rewrite Hci. cbn. by destruct (yields_cons _ _ _ Hy) as [-> _].
Qed.

Lemma merging_pick m Rs i rest :
  merging m Rs -> heap_pop (Less (m_cursors m)) (m_h m) = Some (i, rest) ->
  i :: rest ≡ₚ m_h m /\ exists e R, pick Rs i e R.
Proof.
  intros [Hc Hh Hnd _ _ _ _] Hp.
  apply (heap_pop_spec _ (scan_Less_asym _) (scan_Less_negtrans _)) in Hp as [Hperm Hmin]. split; [done|].
  assert (i ∈ m_h m) as Hi by (rewrite <- Hperm; apply elem_of_cons; auto).
  apply Hh in Hi as (e & R & Hi). exists e, R. split; [done|].
  intros j e' R' Hj. assert (j ∈ m_h m) as Hjh by (apply Hh; eauto).
  specialize (Hmin j Hjh). apply scan_Less_false in Hmin.
  by rewrite (keyAt_head _ _ _ _ _ Hc Hi), (keyAt_head _ _ _ _ _ Hc Hj) in Hmin.
Qed.

Lemma heads_after (Rs : list (list entry)) i e R : Forall sorted_keys Rs -> pick Rs i e R ->
  forall j x R', <[i := R]> Rs !! j = Some (x :: R') -> e.1 <=b x.1.
Proof.
  intros Hs Hp j x R' Hj. pose proof Hp as [Hi Hmin]. destruct (decide (i = j)) as [->|Hne].
  - rewrite list_lookup_insert_eq in Hj by (by eapply lookup_lt_Some). injection Hj as ->.
    rewrite Forall_lookup in Hs. specialize (Hs _ _ Hi). destruct e as [k v].
    apply sorted_keys_cons in Hs as [Hf _]. apply Forall_cons in Hf as [Hf _]. by apply blt_ble.
  - rewrite list_lookup_insert_ne in Hj by done. destruct (Hmin _ _ _ Hj) as [H|[H _]]; [by apply blt_ble|].
    rewrite H. apply ble_refl.
Qed.

(** Taking the top of the heap. *)
Lemma merging_step m Rs i rest e R c' :
  merging m Rs -> i :: rest ≡ₚ m_h m -> pick Rs i e R -> yields c' R -> forall m',
  m_cursors m' = <[i := c']> (m_cursors m) -> m_h m' = (if cur_Valid c' then i :: rest else rest) ->
  m_lastEnc m' = Some e.1 -> m_err m' = None ->
  merging m' (<[i := R]> Rs).
Proof.
  intros [Hc Hh Hnd Hs Hk Hl He] Hperm Hp Hy m' Ec Eh El Ee. pose proof Hp as [Hi _].
  assert (NoDup (i :: rest)) as Hnd' by (by rewrite Hperm). apply NoDup_cons in Hnd' as Hnd2.
  split; rewrite ?Ec, ?Eh, ?El, ?Ee; [|intros j| | | | |done].
  - by apply Forall2_insert.
  - pose proof (yields_valid _ _ Hy) as Hv. assert (j ∈ i :: rest <-> exists e R, Rs !! j = Some (e :: R)) as Hj
      by (by rewrite Hperm). rewrite elem_of_cons in Hj. destruct (decide (j = i)) as [->|Hne].
    + rewrite list_lookup_insert_eq by (by eapply lookup_lt_Some). destruct R as [|x R].
      * destruct (cur_Valid c'); [by destruct (proj1 Hv eq_refl)|]. split; [tauto|].
        by intros (? & ? & ?).
      * rewrite (proj2 Hv) by done. split; [by eauto|]. intros _. apply elem_of_cons. auto.
    + rewrite list_lookup_insert_ne by done. destruct (cur_Valid c'); rewrite ?elem_of_cons; tauto.
  - destruct (cur_Valid c'); tauto.
  - by eapply pick_rest_sorted.
  - apply Forall_insert; [done|]. unfold enc_keys in Hk. rewrite Forall_lookup in Hk.
    by specialize (Hk _ _ Hi) as [_ ?]%Forall_cons.
  - intros l [= <-]. by apply heads_after.
Qed.

Lemma total_yields cs Rs : Forall2 yields cs Rs -> (compaction.total Rs < fuel_of cs)%nat.
Proof.
  unfold fuel_of. induction 1 as [|c R cs Rs Hy _ IH]; cbn [foldr]; [cbn; lia|].
  rewrite compaction.total_cons. apply yields_length in Hy. lia.
Qed.

Lemma append0_Encode k t : compaction.append0 None (Encode k t) = Some (Encode k t).
Proof.
  unfold compaction.append0. destruct (Encode k t) as [|b l] eqn:E; [|done].
  apply (f_equal len) in E. rewrite len_Encode in E. pose proof (len_nonneg k). unfold TimestampSize in E.
  change (len []) with 0 in E. lia.
Qed.

Lemma Advance_loop_spec fuel : forall m Rs,
  merging m Rs -> (compaction.total Rs < fuel)%nat ->
  exists m', Advance_loop fuel m = Some m' /\ stream m' (emit (m_lastEnc m) (merged Rs)) /\ m_err m' = None.
Proof.
  induction fuel as [|fuel IH]; intros m Rs Hm Hf; [lia|]. cbn [Advance_loop].
  pose proof Hm as [Hc Hh Hnd Hs Hk Hl He].
  destruct (heap_pop (Less (m_cursors m)) (m_h m)) as [[i rest]|] eqn:Ep.
  2: { apply heap_pop_None in Ep. eexists. split; [done|]. split; [|done].
       assert (Forall (fun R => R = []) Rs) as Hn.
       { apply Forall_lookup. intros i [|e R] Hi; [done|]. exfalso.
         assert (i ∈ m_h m) as Hin by (apply Hh; eauto). rewrite Ep in Hin. by apply elem_of_nil in Hin. }
       rewrite (merged_nil Rs Hn), emit_nil. exists Rs. split; [by split|done]. }
  destruct (merging_pick m Rs i rest Hm Ep) as (Hperm & e & R & Hpick). pose proof Hpick as [Hi _].
  destruct (Forall2_lookup_r _ _ _ _ _ Hc Hi) as (c & Hci & Hy). rewrite Hci.
  destruct (yields_cons c e R Hy) as (Ek & Eo & Ev & c' & Ea & Hy' & Ee).
  cbn [mbind option_bind]. rewrite Ek. cbn [mbind option_bind]. rewrite Eo. cbn [mbind option_bind].
  rewrite Ev. cbn [mbind option_bind]. rewrite Ea. cbn [mbind option_bind]. rewrite Ee.
  assert (forall l, m_lastEnc m = Some l -> l <=b e.1) as Hl1 by (intros l E; by eapply Hl).
  rewrite (emit_step Rs i e R (m_lastEnc m) Hs Hpick Hl1).
  assert (exists k t, is_u64 t /\ e.1 = Encode k t) as Henc.
  { unfold enc_keys in Hk. rewrite Forall_lookup in Hk. by specialize (Hk _ _ Hi) as [? _]%Forall_cons. }
  pose proof (compaction.total_insert _ _ _ _ Hi) as Ht.
  set (h := if cur_Valid c' then i :: rest else rest). set (cs := <[i := c']> (m_cursors m)).
  pose proof (merging_step m Rs i rest e R c' Hm Hperm Hpick Hy') as Hstep.
  destruct (decide (m_lastEnc m = Some e.1)) as [Hd|Hd].
  - rewrite Hd. rewrite bool_decide_true by done. cbn [app].
    destruct (IH (set_heap m h cs) (<[i := R]> Rs)) as (m' & -> & Hst & Herr); [by apply Hstep|lia|].
    exists m'. split; [done|]. split; [|done]. cbn [m_lastEnc set_heap] in Hst. by rewrite Hd in Hst.
  - assert (match m_lastEnc m with Some l => bool_decide (e.1 = l) | None => false end = false) as ->.
    { destruct (m_lastEnc m) as [l|]; [|done]. apply bool_decide_eq_false. congruence. }
    destruct Henc as (k & t & Htu & Eenc).
    assert (compaction.append0 None e.1 = Some e.1) as -> by (rewrite Eenc; apply append0_Encode).
    eexists. split; [done|]. split; [|done].
    exists (<[i := R]> Rs). split; [by apply Hstep|]. cbn. split; [by destruct e as [? [? ?]]|].
    by exists k, t.
Qed.

Lemma Advance_spec m Rs : merging m Rs ->
  exists m', Advance m = Some m' /\ stream m' (emit (m_lastEnc m) (merged Rs)) /\ m_err m' = None.
Proof. intros Hm. apply (Advance_loop_spec _ m Rs Hm). apply total_yields, Hm. Qed.

(** Advancing drops the version shown. *)
Lemma Advance_stream m x out : stream m (x :: out) ->
  exists m', Advance m = Some m' /\ stream m' out /\ m_err m' = None.
Proof.
  intros (Rs & Hm & H). destruct (m_valid m) eqn:Hv; [|done]. destruct H as [[= _ ->] _]. by apply Advance_spec.
Qed.

Lemma stream_valid m out : stream m out -> m_valid m = bool_decide (out <> []).
Proof.
  intros (Rs & _ & H). destruct (m_valid m).
  - destruct H as [-> _]. by rewrite bool_decide_true.
  - subst out. by rewrite bool_decide_false by tauto.
Qed.

Lemma newMergeIterator_spec cs Rs :
  Forall2 yields cs Rs -> Forall sorted_keys Rs -> enc_keys Rs ->
  exists m, newMergeIterator cs = Some m /\ stream m (merged Rs) /\ m_err m = None.
Proof.
  intros Hc Hs Hk. destruct (Advance_spec (MkMerge (validIndices cs) cs [] [] x00 false None None) Rs) as (m & E & Hst & He).
  - split; cbn; [done| | |done|done|done|done].
    + intros i. unfold validIndices. rewrite list_elem_of_filter, elem_of_seq. split.
      * intros [Hv _]. destruct (cs !! i) as [c|] eqn:Hci; [|done].
        destruct (Forall2_lookup_l _ _ _ _ _ Hc Hci) as (R & HR & Hy). apply (yields_valid _ _ Hy) in Hv.
        destruct R as [|e R]; [done|]. eauto.
      * intros (e & R & Hi). destruct (Forall2_lookup_r _ _ _ _ _ Hc Hi) as (c & Hci & Hy). rewrite Hci.
        split; [by apply (yields_valid _ _ Hy)|]. apply lookup_lt_Some in Hci. lia.
    + apply NoDup_filter, NoDup_seq.
  - exists m. split; [exact E|]. cbn [m_lastEnc] in Hst. by rewrite emit_None in Hst.
Qed.

(** ** The iterator against a single pass over the merged versions *)

(** What the scan yields, from the key it is in and whether its visible version
    has been met. *)
Fixpoint results (snap : Z) (cur : option bytes) (decided : bool) (out : list entry) : list (bytes * bytes) :=
  match out with
  | [] => []
  | (enc, (o, v)) :: out' =>
      let k := UserKey enc in
      let decided := bool_decide (cur = Some k) && decided in
      if negb decided && bool_decide (Timestamp enc <= snap)
      then (if decide (o = OpPut) then [(k, v)] else []) ++ results snap (Some k) true out'
      else results snap (Some k) decided out'
  end.

(** The iterator [it] shows [out]. *)
Definition scanning (it : Iterator) (out : list entry) : Prop :=
  stream (it_merge it) out /\ m_err (it_merge it) = None /\ it_err it = None
  /\ it_closed it = false /\ encoded_keys out.

Lemma stream_bound m out : stream m out -> (length out <= fuel_of (m_cursors m))%nat.
Proof.
  intros (Rs & Hm & H). destruct (m_valid m); [|subst out; apply Nat.le_0_l].
  destruct H as [-> _]. cbn [length]. pose proof (total_yields _ _ (mg_cursors _ _ Hm)) as Ht.
  enough (length (emit (m_lastEnc m) (merged Rs)) <= compaction.total Rs)%nat by lia.
  unfold emit. etrans; [apply length_filter|].
  clear. induction Rs as [|R Rs IH]; [done|]. rewrite compaction.total_cons. cbn [merged foldr].
  enough (length (overlay R (merged Rs)) <= length R + length (merged Rs))%nat by (unfold merged in *; lia).
  clear IH. induction R as [|[k v] R IH]; [done|]. cbn [overlay foldr length fst snd].
  enough (forall m : list entry, length (ins k v m) <= S (length m))%nat as Hi
    by (specialize (Hi (overlay R (merged Rs))); unfold overlay in *; lia).
  induction m as [|[k' v'] m IHm]; cbn [ins]; [done|]. destruct (bcompare k k'); cbn [length]; lia.
Qed.

Lemma walkKey_spec fuel : forall it out uk decided ev,
  scanning it out -> (length out < fuel)%nat ->
  exists it' nf out', walkKey fuel it uk decided ev = Some (it', Some (from_option Some ev nf))
    /\ scanning it' out' /\ it_snapshot it' = it_snapshot it /\ it_done it' = it_done it
    /\ (length out' <= length out)%nat /\ (decided = true -> nf = None)
    /\ (forall e out1, out = e :: out1 -> UserKey e.1 = uk -> (length out' <= length out1)%nat)
    /\ results (it_snapshot it) (Some uk) decided out
       = from_option (fun v => [(uk, v)]) [] nf ++ results (it_snapshot it) None false out'.
Proof.
  induction fuel as [|fuel IH]; intros it out uk decided ev Hsc Hf; [lia|]. cbn [walkKey].
  pose proof Hsc as (Hst & Hme & Hie & Hc & Henc). rewrite (stream_valid _ _ Hst).
  destruct out as [|[enc [o v]] out].
  { rewrite bool_decide_false by tauto. exists it, None, []. by repeat split; try done; try lia. }
  rewrite bool_decide_true by done.
  assert (m_encKey (it_merge it) = enc /\ m_op (it_merge it) = o /\ m_value (it_merge it) = v) as (-> & -> & ->).
  { destruct Hst as (Rs & _ & H). destruct (m_valid (it_merge it)); [|done]. by destruct H as [[= -> -> -> _] _]. }
  apply Forall_cons in Henc as [(k & t & Ht & Ek) Henc]. cbn [fst] in Ek. subst enc.
  rewrite (Decode_Encode k t Ht). destruct (decide (k <> uk)) as [Hk|Hk].
  { exists it, None, ((Encode k t, (o, v)) :: out). do 4 (split; [done|]). split; [lia|]. split; [done|].
    split; [intros e out1 [= <- _]; cbn; by rewrite UserKey_Encode|].
    cbn [results]. rewrite UserKey_Encode, !bool_decide_false by congruence. done. }
  assert (k = uk) as -> by (by destruct (decide (k = uk))). clear Hk.
  destruct (Advance_stream _ _ _ Hst) as (m' & -> & Hst' & Herr). cbn [mbind option_bind]. rewrite Herr.
  cbn [results]. rewrite UserKey_Encode, (Timestamp_Encode uk t Ht), (bool_decide_true (Some uk = Some uk)) by done.
  cbn [andb]. set (now := negb decided && bool_decide (t <= it_snapshot it)).
  destruct (IH (set_merge it m') out uk (decided || now)
              (if now && bool_decide (o = OpPut) then Some v else ev)) as (it' & nf & out' & -> & Hsc' & Hs' & Hd' & Hlen & Hnf & _ & Hres).
  { by repeat split. }
  { cbn in Hf. lia. }
  cbn [it_snapshot set_merge it_done] in *.
  assert (forall e out1, (Encode uk t, (o, v)) :: out = e :: out1 -> UserKey e.1 = uk ->
            (length out' <= length out1)%nat) as Hl1 by (intros e out1 [= _ <-] _; exact Hlen).
  assert (length out' <= S (length out))%nat as Hl2 by lia.
  destruct now eqn:Hn; cbn [andb].
  - rewrite (Hnf ltac:(apply orb_true_r)), orb_true_r in *. cbn [from_option app] in *.
    exists it', (if decide (o = OpPut) then Some v else None), out'.
    split; [by destruct (decide (o = OpPut)) as [Ho|Ho]; [rewrite bool_decide_true by done|rewrite bool_decide_false by done]|].
    do 3 (split; [done|]). split; [exact Hl2|].
    split; [intros ->; unfold now in Hn; done|]. split; [done|].
    rewrite Hres. by destruct (decide (o = OpPut)).
  - rewrite orb_false_r in *. exists it', nf, out'. split; [done|].
    do 3 (split; [done|]). split; [exact Hl2|]. split; [exact Hnf|]. by split.
Qed.

Lemma results_fresh snap cur out :
  results snap cur false out = results snap None false out.
Proof. destruct out as [|[enc [o v]] out]; [done|]. cbn [results]. by rewrite !andb_false_r. Qed.

(** [Next] moves to the next result, or ends the scan. *)
Definition steps_to (it : Iterator) (rs : list (bytes * bytes)) (it' : Iterator) (b : bool) : Prop :=
  match rs with
  | [] => b = false /\ it_done it' = true /\ it_err it' = None
  | (k, v) :: rs' => b = true /\ it_key it' = k /\ it_value it' = v /\ it_done it' = it_done it
      /\ it_snapshot it' = it_snapshot it
      /\ exists out', scanning it' out' /\ results (it_snapshot it) None false out' = rs'
  end.

Lemma Next_loop_spec fuel : forall it out,
  scanning it out -> (length out < fuel)%nat ->
  exists it' b, Next_loop fuel it = Some (it', b)
    /\ steps_to it (results (it_snapshot it) None false out) it' b.
Proof.
  induction fuel as [|fuel IH]; intros it out Hsc Hf; [lia|]. cbn [Next_loop].
  pose proof Hsc as (Hst & Hme & Hie & Hc & Henc). rewrite (stream_valid _ _ Hst).
  destruct out as [|[enc [o v]] out].
  { rewrite bool_decide_false by tauto. exists (set_done it), false. by repeat split. }
  rewrite bool_decide_true by done.
  assert (m_encKey (it_merge it) = enc) as ->.
  { destruct Hst as (Rs & _ & H). destruct (m_valid (it_merge it)); [|done]. by destruct H as [[= -> _] _]. }
  pose proof Henc as [(k & t & Ht & Ek) _]%Forall_cons. cbn [fst] in Ek. subst enc.
  rewrite (Decode_Encode k t Ht).
  destruct (walkKey_spec (S (fuel_of (m_cursors (it_merge it)))) it _ k false None Hsc)
    as (it' & nf & out' & -> & Hsc' & Hs' & Hd' & _ & _ & Hlen & Hres).
  { pose proof (stream_bound _ _ Hst). lia. }
  specialize (Hlen _ _ eq_refl (UserKey_Encode k t)). rewrite results_fresh in Hres. rewrite Hres.
  cbn [mbind option_bind]. destruct nf as [v'|]; cbn [from_option app].
  - exists (set_current it' k v'), true. split; [done|]. unfold steps_to. do 5 (split; [done|]).
    exists out'. split; [|done]. exact Hsc'.
  - destruct (IH it' out' Hsc') as (it2 & b & -> & Hst2); [cbn in Hf; lia|]. rewrite Hs' in Hst2.
    exists it2, b. split; [done|]. unfold steps_to in *. rewrite Hd', Hs' in Hst2. exact Hst2.
Qed.

Lemma Next_spec it out : scanning it out -> it_done it = false ->
  exists it' b, Next it = Some (it', b) /\ steps_to it (results (it_snapshot it) None false out) it' b.
Proof.
  intros Hsc Hd. pose proof Hsc as (Hst & _ & He & Hc & _). unfold Next. rewrite Hd, Hc, He.
  rewrite bool_decide_false by tauto. cbn [orb]. apply Next_loop_spec; [done|].
  pose proof (stream_bound _ _ Hst). lia.
Qed.

(** The loop of every client of a scan: [for it.Next() { ... it.Key(), it.Value() }]. *)
Fixpoint collect (fuel : nat) (it : Iterator) : option (Iterator * list (bytes * bytes)) :=
  match fuel with
  | O => None
  | S fuel' =>
      '(it', more) ← Next it;
      if (more : bool) then '(it2, rs) ← collect fuel' it'; Some (it2, (it_key it', it_value it') :: rs)
      else Some (it', [])
  end.

Lemma collect_spec rs : forall fuel it out,
  scanning it out -> it_done it = false -> results (it_snapshot it) None false out = rs ->
  (length rs < fuel)%nat ->
  exists it', collect fuel it = Some (it', rs) /\ it_err it' = None /\ it_done it' = true.
Proof.
  induction rs as [|[k v] rs IH]; intros [|fuel] it out Hsc Hd Hr Hf; cbn in Hf; try lia; cbn [collect];
    destruct (Next_spec it out Hsc Hd) as (it1 & b & -> & Hst); rewrite Hr in Hst; cbn [mbind option_bind].
  - destruct Hst as (-> & Hd1 & He1). by exists it1.
  - destruct Hst as (-> & Hk & Hv & Hd1 & Hs1 & out' & Hsc' & Hr').
    destruct (IH fuel it1 out' Hsc') as (it' & -> & He' & Hd'); [congruence|by rewrite Hs1|lia|].
    cbn [mbind option_bind]. rewrite Hk, Hv. by exists it'.
Qed.

(** ** What the results are *)

(** Nothing between the versions of a key, timestamps below 2^56. *)
Definition clustered (V : vmap) : Prop :=
  small_map V /\ forall k t, is_Some (V !! (k, t)) -> clustered_at V k.

Section results.
Context (snap : Z) (V : vmap) (m : list entry).
Hypothesis Htab : compaction.tabulates V m.
Hypothesis Hclus : clustered V.

Definition scan_state (m1 : list entry) (cur : option bytes) (decided : bool) : Prop :=
  match last m1 with
  | None => cur = None
  | Some l => exists k t, is_u64 t /\ l.1 = Encode k t /\ cur = Some k
      /\ (decided = true <-> exists t', is_u64 t' /\ compaction.seen m1 k t' /\ t' <= snap)
  end.

(** Whether the visible version of the key at hand has been met. *)
Lemma scan_state_key m1 cur decided k t ov m2 :
  m = m1 ++ (Encode k t, ov) :: m2 -> is_u64 t -> scan_state m1 cur decided ->
  (bool_decide (cur = Some k) && decided) = true
  <-> exists t', is_u64 t' /\ compaction.seen m1 k t' /\ t' <= snap.
Proof.
  intros E Ht Hst. unfold scan_state in Hst. destruct (last m1) as [l|] eqn:El.
  - apply last_Some in El as [m0 ->]. destruct Hst as (k0 & t0 & Ht0 & El & -> & Hd).
    rewrite andb_true_iff, bool_decide_eq_true. split.
    + intros [[= ->] H]. by apply Hd.
    + intros (t' & Ht' & Hsn & Hle).
      pose proof (compaction.seen_last V m Htab (proj1 Hclus) (proj2 Hclus) _ _ _ _ _ _ _ E Ht Ht' Hsn) as Hk.
      rewrite El, UserKey_Encode in Hk. subst k0. split; [done|]. apply Hd. eauto.
  - subst cur. apply last_None in El as ->. split; [done|]. intros (t' & _ & [ov' H] & _). by apply elem_of_nil in H.
Qed.

Lemma scan_state_snoc m1 k t ov m2 decided :
  m = m1 ++ (Encode k t, ov) :: m2 -> is_u64 t ->
  (decided = true <-> t <= snap \/ exists t', is_u64 t' /\ compaction.seen m1 k t' /\ t' <= snap) ->
  scan_state (m1 ++ [(Encode k t, ov)]) (Some k) decided.
Proof.
  intros E Ht Hd. unfold scan_state. rewrite last_snoc. exists k, t. split; [done|]. split; [done|]. split; [done|].
  rewrite Hd. split.
  - intros [H|(t' & Ht' & [ov' Hs] & Hw)].
    + exists t. split; [done|]. split; [|done]. exists ov. apply elem_of_app. right. by apply list_elem_of_singleton.
    + exists t'. split; [done|]. split; [|done]. exists ov'. apply elem_of_app. by left.
  - intros (t' & Ht' & [ov' [Hs|Hs%list_elem_of_singleton]%elem_of_app] & Hw).
    + right. exists t'. split; [done|]. split; [by exists ov'|done].
    + left. injection Hs as Hs _. apply Encode_inj in Hs as [_ ->]; done.
Qed.

(** The results are the visible puts, each key once. *)
Lemma results_elem m2 : forall m1 cur decided k v,
  m = m1 ++ m2 -> scan_state m1 cur decided ->
  (k, v) ∈ results snap cur decided m2
  <-> exists t, is_u64 t /\ (Encode k t, (OpPut, v)) ∈ m2 /\ visible V k snap t (OpPut, v).
Proof.
  induction m2 as [|[enc [o w]] m2 IH]; intros m1 cur decided k v E Hst.
  { cbn. rewrite elem_of_nil. split; [done|]. intros (t & _ & H & _). by apply elem_of_nil in H. }
  assert ((enc, (o, w)) ∈ m) as Hin by (rewrite E, elem_of_app, elem_of_cons; auto).
  destruct (compaction.tb_shape _ _ Htab _ Hin) as (k0 & t0 & Ht0 & Ek). cbn in Ek. subst enc.
  assert (V !! (k0, t0) = Some (o, w)) as HV by (by apply (compaction.tb_elem _ _ Htab)).
  cbn [results]. rewrite UserKey_Encode, (Timestamp_Encode k0 t0 Ht0).
  pose proof (scan_state_key _ _ _ _ _ _ _ E Ht0 Hst) as Hd.
  set (dec := bool_decide (cur = Some k0) && decided) in *.
  assert (m = (m1 ++ [(Encode k0 t0, (o, w))]) ++ m2) as E' by (by rewrite <- app_assoc).
  assert (visible V k0 snap t0 (o, w) <-> dec = false /\ t0 <= snap) as Hvis.
  { rewrite <- not_true_iff_false, Hd. split.
    - intros (_ & Hle & Hmax). split; [|done]. intros (t' & Ht' & Hsn & Hle').
      apply (compaction.before_is_newer V m Htab _ _ _ _ _ _ E Ht0 Ht') in Hsn as [[ov' Hov] Hlt].
      specialize (Hmax t' ov' Hov Hle'). lia.
    - intros [Hno Hle]. split; [done|]. split; [done|]. intros t' ov' Hov Hle'. apply Z.nlt_ge. intros Hlt.
      assert (is_u64 t') as Ht' by (apply (compaction.tb_u64 _ _ Htab k0); eauto).
      apply Hno. exists t'. split; [done|]. split; [|done].
      apply (compaction.before_is_newer V m Htab _ _ _ _ _ _ E Ht0 Ht'). eauto. }
  assert (forall x, (exists t, is_u64 t /\ (Encode k t, (OpPut, v)) ∈ (Encode k0 t0, x) :: m2
                       /\ visible V k snap t (OpPut, v))
          <-> (k = k0 /\ x = (OpPut, v) /\ visible V k0 snap t0 (OpPut, v))
              \/ exists t, is_u64 t /\ (Encode k t, (OpPut, v)) ∈ m2 /\ visible V k snap t (OpPut, v)) as Hsplit.
  { intros x. split.
    - intros (t & Ht & [[= He <-]|H]%elem_of_cons & Hv); [left|right; eauto].
      apply Encode_inj in He as [-> ->]; done.
    - intros [(-> & -> & Hv)|(t & Ht & H & Hv)]; [exists t0|exists t]; rewrite elem_of_cons; auto. }
  rewrite Hsplit. clear Hsplit.
  assert (forall d', (d' = true <-> t0 <= snap \/ exists t', is_u64 t' /\ compaction.seen m1 k0 t' /\ t' <= snap) ->
            (k, v) ∈ results snap (Some k0) d' m2
            <-> exists t, is_u64 t /\ (Encode k t, (OpPut, v)) ∈ m2 /\ visible V k snap t (OpPut, v)) as IH'.
  { intros d' Hd'. apply (IH _ _ _ k v E'). by eapply scan_state_snoc. }
  destruct (negb dec && bool_decide (t0 <= snap)) eqn:En.
  - apply andb_true_iff in En as [Hdec%negb_true_iff Hle%bool_decide_eq_true].
    rewrite elem_of_app, IH' by tauto. apply or_iff_compat_r. destruct (decide (o = OpPut)) as [->|Ho].
    + rewrite list_elem_of_singleton. split.
      * intros [= -> ->]. split; [done|]. split; [done|]. by apply Hvis.
      * by intros (-> & [= ->] & _).
    + rewrite elem_of_nil. split; [done|]. intros (_ & [= ? _] & _). done.
  - rewrite IH'.
    + split; [auto|]. intros [(-> & [= -> ->] & Hv)|?]; [|done]. apply Hvis in Hv as [Hv1 Hv2].
      rewrite Hv1, bool_decide_true in En; done.
    + rewrite Hd. split; [auto|]. intros [Hle|?]; [|done]. rewrite (bool_decide_true (t0 <= snap)) in En by done.
      apply Hd. by destruct dec.
Qed.

Lemma results_iff k v : (k, v) ∈ results snap None false m <-> exists t, visible V k snap t (OpPut, v).
Proof.
  rewrite (results_elem m [] None false k v eq_refl) by done. split.
  - intros (t & _ & _ & H). by exists t.
  - intros (t & Hv). assert (is_u64 t) as Ht by (apply (compaction.tb_u64 _ _ Htab k); destruct Hv; eauto).
    exists t. split; [done|]. split; [|done]. apply (compaction.tb_elem _ _ Htab); [done|]. by destruct Hv.
Qed.

End results.

(** Keys in table order are related by [R]. *)
Definition ordered_by (V : vmap) (R : bytes -> bytes -> Prop) : Prop :=
  forall k t k' t', is_Some (V !! (k, t)) -> is_Some (V !! (k', t')) ->
    Encode k t <b Encode k' t' -> k <> k' -> R k k'.

Section order.
Context (snap : Z) (V : vmap) (m : list entry) (R : bytes -> bytes -> Prop).
Hypothesis Htab : compaction.tabulates V m.
Hypothesis Hclus : clustered V.
Hypothesis HR : ordered_by V R.

(** The keys of the results come in the order of the encoded keys. *)
Lemma results_order m2 : forall m1 cur decided,
  m = m1 ++ m2 -> scan_state snap m1 cur decided -> StronglySorted R (results snap cur decided m2).*1.
Proof.
  induction m2 as [|[enc [o w]] m2 IH]; intros m1 cur decided E Hst; [constructor|].
  assert ((enc, (o, w)) ∈ m) as Hin by (rewrite E, elem_of_app, elem_of_cons; auto).
  destruct (compaction.tb_shape _ _ Htab _ Hin) as (k0 & t0 & Ht0 & Ek). cbn in Ek. subst enc.
  cbn [results]. rewrite UserKey_Encode, (Timestamp_Encode k0 t0 Ht0).
  pose proof (scan_state_key snap V m Htab Hclus _ _ _ _ _ _ _ E Ht0 Hst) as Hd.
  set (dec := bool_decide (cur = Some k0) && decided) in *.
  assert (m = (m1 ++ [(Encode k0 t0, (o, w))]) ++ m2) as E' by (by rewrite <- app_assoc).
  assert (forall d', (d' = true <-> t0 <= snap \/ exists t', is_u64 t' /\ compaction.seen m1 k0 t' /\ t' <= snap) ->
            scan_state snap (m1 ++ [(Encode k0 t0, (o, w))]) (Some k0) d') as Hst'.
  { intros d' Hd'. by eapply scan_state_snoc. }
  destruct (negb dec && bool_decide (t0 <= snap)) eqn:En.
  - apply andb_true_iff in En as [Hdec%negb_true_iff Hle%bool_decide_eq_true].
    assert (scan_state snap (m1 ++ [(Encode k0 t0, (o, w))]) (Some k0) true) as Hst2 by (apply Hst'; tauto).
    specialize (IH _ _ _ E' Hst2). destruct (decide (o = OpPut)) as [->|Ho]; [|done]. cbn [app fmap list_fmap fst].
    constructor; [done|]. apply Forall_forall. intros k ([k2 v] & -> & Hk)%list_elem_of_fmap. cbn [fst].
    apply (results_elem snap V m Htab Hclus m2 _ _ _ k2 v E' Hst2) in Hk as (t & Ht & Hm2 & Hvis).
    pose proof (compaction.tb_sorted _ _ Htab) as Hs. rewrite E in Hs. apply sorted_keys_app in Hs as (_ & Hs & _).
    apply sorted_keys_cons in Hs as [Hgt _]. rewrite Forall_forall in Hgt. specialize (Hgt _ Hm2). cbn [fst] in Hgt.
    apply (HR k0 t0 k2 t); [|destruct Hvis; eauto|done|].
    + exists (OpPut, w). by apply (compaction.tb_elem _ _ Htab).
    + intros <-. apply blt_Encode_same in Hgt; [|done..]. destruct Hvis as (_ & _ & Hmax).
      specialize (Hmax t0 (OpPut, w) ltac:(by apply (compaction.tb_elem _ _ Htab)) Hle). lia.
  - apply (IH _ _ _ E'). apply Hst'. rewrite Hd. split; [auto|]. intros [Hle|?]; [|done].
    rewrite (bool_decide_true (t0 <= snap)) in En by done. apply Hd. by destruct dec.
Qed.

End order.

Lemma results_keys snap V m R : compaction.tabulates V m -> clustered V -> ordered_by V R ->
  StronglySorted R (results snap None false m).*1.
Proof. intros Htab Hclus HR. by apply (results_order snap V m R Htab Hclus HR m [] None false). Qed.

Lemma prefix_free_ordered V : prefix_free V -> ordered_by V blt.
Proof.
  intros Hpf k t k' t' Hk Hk' Hlt Hne. destruct (Hpf k t Hk k' t' Hk' (not_eq_sym Hne)) as [H1 H2].
  unfold Encode, blt in Hlt. by rewrite bcompare_diverge in Hlt.
Qed.

Lemma ordered_nodup (l : list bytes) : StronglySorted (fun a b => a <> b) l -> NoDup l.
Proof.
  induction 1 as [|k ks _ IH Hk]; [constructor|]. apply NoDup_cons. split; [|done].
  intros Hin. rewrite Forall_forall in Hk. by apply (Hk k Hin).
Qed.

(** ** Cursors on the layers *)

Definition mem_kvs (l : list (bytes * bytes)) : list entry := (fun e => (e.1, Memtable.decodeValue e.2)) <$> l.

Lemma drop_lt_fmap {A B} (f : A -> B) t (l : list (bytes * A)) :
  drop_lt t ((fun e => (e.1, f e.2)) <$> l) = (fun e => (e.1, f e.2)) <$> drop_lt t l.
Proof. induction l as [|[k v] l IH]; [done|]. cbn. by case_decide. Qed.

Lemma range_list_fmap {A B} (f : A -> B) end_ (l : list (bytes * A)) :
  range_list end_ ((fun e => (e.1, f e.2)) <$> l) = (fun e => (e.1, f e.2)) <$> range_list end_ l.
Proof. induction l as [|[k v] l IH]; [done|]. cbn. destruct (past_end end_ (UserKey k)); [done|]. cbn. by f_equal. Qed.

Lemma encodes_tabulates V l : encodes V l -> compaction.tabulates V (mem_kvs l).
Proof.
  intros [Hs Hu He Hsh].
  assert (forall k t op v, is_u64 t -> (Encode k t, (op, v)) ∈ mem_kvs l <-> (Encode k t, op :: v) ∈ l) as Hel.
  { intros k t op v Ht. unfold mem_kvs. rewrite list_elem_of_fmap. split.
    - intros (e & E & Hin). destruct (Hsh e Hin) as (k' & t' & op' & v' & _ & ->). cbn in E. congruence.
    - intros H. by exists (Encode k t, op :: v). }
  split.
  - unfold sorted_keys, mem_kvs in *. by rewrite <- list_fmap_compose.
  - intros k t [op v] Ht. by rewrite Hel, He.
  - intros e Hin. apply list_elem_of_fmap in Hin as (e' & -> & Hin). destruct (Hsh e' Hin) as (k & t & op & v & Ht & ->).
    by exists k, t.
  - exact Hu.
Qed.

Lemma memCursor_yields mt V l start end_ :
  Memtable.models mt V l ->
  exists c, memCursor mt start end_ = Some c /\ yields c (range_of start end_ (mem_kvs l)).
Proof.
  intros Hm. unfold memCursor. rewrite (Memtable.RangeSnapshot_list _ _ _ _ _ Hm). eexists. split; [done|].
  cbn [yields]. rewrite drop_0. unfold range_of, mem_kvs. rewrite drop_lt_fmap, range_list_fmap, <- list_fmap_compose.
  apply list_fmap_ext. intros i [k v] Hi. unfold compose, ve_kv, Memtable.entry_of. cbn [fst snd Memtable.EncKey Memtable.Value Memtable.Op]. by destruct (Memtable.decodeValue v).
Qed.

Lemma kvs_skip st rs : compaction.kvs (iterator.skip st rs) = drop_lt (default [] st) (compaction.kvs rs).
Proof.
  induction rs as [|x rs IH]; [done|]. cbn [iterator.skip].
  change (compaction.kvs (x :: rs)) with (compaction.kv_rec x :: compaction.kvs rs). cbn [drop_lt compaction.kv_rec].
  destruct st as [t|]; cbn [from_option id default].
  - destruct (decide (record.Key x <b t)) as [H|H]; [by rewrite bool_decide_true|by rewrite bool_decide_false].
  - rewrite decide_False; [done|]. by destruct (record.Key x).
Qed.

Lemma tableCursors_yields ssts tables start end_ :
  Forall2 table_ok ssts tables ->
  exists rs cs, tableCursors ssts start end_ = (rs, Ok cs) /\ Forall2 table_ok rs tables
    /\ Forall2 yields cs ((fun a => range_of start end_ (compaction.kvs (sstable.recs_of a))) <$> tables).
Proof.
  induction 1 as [|r a ssts tables [Hok Hr] _ (rs & cs & E & Hrs & Hcs)]; cbn [tableCursors fmap list_fmap].
  { exists [], []. split; [done|]. split; constructor. }
  destruct (iterator.NewIterator_shows r _ start end_ Hr) as (r' & it & -> & He & Hs). rewrite E.
  exists (r' :: rs), (TableCursor r' it :: cs). split; [done|]. split.
  - constructor; [split; [done|apply Hs]|done].
  - constructor; [|done]. exists (sstable.recs_of a), (iterator.skip ((fun s => Encode s max_u64) <$> start) (sstable.recs_of a)).
    split; [done|]. rewrite He, kvs_skip. unfold range_of, start_target. by destruct start.
Qed.

End scan.
