(* ===== verification/DbScanSpec.v ===== *)
(** * Scans of the store (internal/db/scan.go)

    A scan of an open store yields, in the range asked for, exactly the versions
    visible at its snapshot that are puts; [ScanNow] agrees with [Get] key by key. *)

From Stdlib Require Import ZArith Lia.
From Stdlib Require Import Strings.Byte.
From stdpp Require Import base list gmap sorting.
From S2P Require Import Prelude.
From S2P Require Import MvccKey.
From S2P Require Import OrderedMap.
From S2P Require Import Skiplist.
From S2P Require Import Versions.
From S2P Require Import Memtable.
From S2P Require Import RecordFmt.
From S2P Require Import SSTable.
From S2P Require Import Merge.
From S2P Require Import Db.
From S2P Require Import Layers.
From S2P Require Import Compaction.
From S2P Require Import DbReplay.
From S2P Require Import DbStore.
From S2P Require Import DbScan.

#[local] Open Scope Z_scope.
#[local] Open Scope bytes_scope.

Module scanspec.
Import db replay store scan.

(** ** Ranges of version maps *)

#[export] Instance in_range_dec start end_ k : Decision (in_range start end_ k).
Proof. unfold in_range. destruct start, end_; apply _. Defined.

Definition restrict (start end_ : option bytes) (V : vmap) : vmap :=
  filter (fun kv => in_range start end_ kv.1.1) V.

(** The bounds under which a range in byte order is a range of keys. *)
Definition rangeable (V : vmap) (start end_ : option bytes) : Prop :=
  (start = None /\ end_ = None)
  \/ (prefix_free V /\ forall k t, is_Some (V !! (k, t)) ->
        match start with Some s => k `prefix_of` s -> k = s | None => True end).

Lemma restrict_lookup start end_ V k t :
  restrict start end_ V !! (k, t) = if decide (in_range start end_ k) then V !! (k, t) else None.
Proof.
  apply option_eq. intros ov. unfold restrict. rewrite map_lookup_filter_Some. cbn.
  case_decide; naive_solver.
Qed.

Lemma restrict_stack start end_ Vs k t :
  stack (restrict start end_ <$> Vs) !! (k, t) = if decide (in_range start end_ k) then stack Vs !! (k, t) else None.
Proof.
  induction Vs as [|V Vs IH]; [cbn; by case_decide|].
  rewrite fmap_cons, !stack_cons, !lookup_union, IH, restrict_lookup. by case_decide.
Qed.

Lemma rangeable_sub V W start end_ : dom_sub V W -> rangeable W start end_ -> rangeable V start end_.
Proof.
  intros H [?|[Hp Hs]]; [by left|right]. split.
  - intros k t Hk k' t' Hk'. apply (Hp k t (H _ Hk) k' t' (H _ Hk')).
  - intros k t Hk. by apply (Hs k t), H.
Qed.

Lemma range_of_all {A} (l : list (bytes * A)) : range_of None None l = l.
Proof.
  unfold range_of, start_target. assert (drop_lt [] l = l) as ->.
  { destruct l as [|[k v] l]; [done|]. cbn. rewrite decide_False; [done|]. by destruct k. }
  induction l as [|e l IH]; [done|]. cbn. by f_equal.
Qed.

Lemma tabulates_keys V m : compaction.tabulates V m -> encoded_keys m.
Proof. intros H. apply Forall_forall, (compaction.tb_shape _ _ H). Qed.

Lemma tabulates_prefix_free V m : compaction.tabulates V m -> prefix_free V -> keys_prefix_free m.
Proof.
  intros H Hp e e' He He' Hne. destruct (compaction.tb_shape _ _ H e He) as (k & t & Ht & Ek).
  destruct (compaction.tb_shape _ _ H e' He') as (k' & t' & Ht' & Ek').
  rewrite Ek, Ek', !UserKey_Encode in *. destruct e as [enc ov], e' as [enc' ov']. cbn in Ek, Ek'. subst enc enc'.
  apply (compaction.tb_elem _ _ H) in He; [|done]. apply (compaction.tb_elem _ _ H) in He'; [|done].
  apply (Hp k t ltac:(eauto) k' t'); eauto.
Qed.

Lemma tabulates_start V m start : compaction.tabulates V m ->
  (forall k t, is_Some (V !! (k, t)) -> match start with Some s => k `prefix_of` s -> k = s | None => True end) ->
  start_ok start m.
Proof.
  intros H Hst. destruct start as [s|]; [|done]. intros e Hin.
  destruct (compaction.tb_shape _ _ H e Hin) as (k & t & Ht & Ek). rewrite Ek, UserKey_Encode.
  destruct e as [enc ov]. cbn in Ek. subst enc. apply (compaction.tb_elem _ _ H) in Hin; [|done].
  apply (Hst k t). eauto.
Qed.

Lemma range_tabulates V m start end_ :
  compaction.tabulates V m -> rangeable V start end_ ->
  compaction.tabulates (restrict start end_ V) (range_of start end_ m).
Proof.
  intros H Hr. pose proof H as [Hs He Hsh Hu].
  assert (u64_map (restrict start end_ V)) as Hu'.
  { intros k t [ov Hov]. rewrite restrict_lookup in Hov. case_decide; [|done]. apply (Hu k t). eauto. }
  assert (forall e, e ∈ range_of start end_ m <-> e ∈ m /\ in_range start end_ (UserKey e.1)) as Hel.
  { intros e. destruct Hr as [[-> ->]|[Hp Hst]].
    - rewrite range_of_all. unfold in_range. tauto.
    - apply range_of_elem; [done|by eapply tabulates_keys|by eapply tabulates_prefix_free|by eapply tabulates_start]. }
  split; [by apply sorted_range_of| | |done].
  - intros k t ov Ht. rewrite Hel, restrict_lookup, He by done. cbn. rewrite UserKey_Encode.
    case_decide; naive_solver.
  - intros e [Hin _]%Hel. by apply Hsh.
Qed.

Lemma clustered_sub V W : dom_sub V W -> clustered W -> clustered V.
Proof.
  intros H [Hsm Hcl]. split; [intros k t Hk; by apply (Hsm k t), H|].
  intros k t Hk k' t' s t0 Hk' Hk0. by apply (Hcl k t (H _ Hk) k' t' s t0); apply H.
Qed.

Lemma text_clustered_map V : text_map V -> clustered V.
Proof. intros H. split; [intros k t Hk; by apply (H k t)|]. intros k t _. by apply text_clustered. Qed.

Lemma prefix_free_clustered_map V : small_map V -> prefix_free V -> clustered V.
Proof. intros Hs H. split; [done|]. intros k t Hk. by apply prefix_free_clustered, (H k t). Qed.

Lemma restrict_stack_sub start end_ Vs : dom_sub (stack (restrict start end_ <$> Vs)) (stack Vs).
Proof. intros [k t]. rewrite restrict_stack. case_decide; [done|by intros [? ?]]. Qed.

Lemma restrict_visible start end_ Vs k s t ov :
  visible (stack (restrict start end_ <$> Vs)) k s t ov <-> in_range start end_ k /\ visible (stack Vs) k s t ov.
Proof.
  unfold visible. split.
  - intros (H & Ht & Hmax). rewrite restrict_stack in H. case_decide as Hin; [|done]. split; [done|].
    split; [done|]. split; [done|]. intros t' ov' H'. apply (Hmax t' ov'). rewrite restrict_stack. by case_decide.
  - intros (Hin & H & Ht & Hmax). split; [rewrite restrict_stack; by case_decide|]. split; [done|].
    intros t' ov'. rewrite restrict_stack. case_decide; [|done]. apply Hmax.
Qed.

(** ** Opening a scan *)

(** The memtable, frozen by a flush meanwhile or not, holds [V]. *)
Definition mem_models (mt : MT) (V : vmap) : Prop := exists l, Memtable.models mt V l.

(** The tables of the layers. *)
Lemma layers_tabulate mt fz VM VF tables :
  mem_models mt VM -> frozen_models fz VF -> Forall sstable.adds_ok tables ->
  forall start end_, exists cs Ms,
    (forall rs tcs, Forall2 yields tcs ((fun a => range_of start end_ (compaction.kvs (sstable.recs_of a))) <$> tables) ->
       forall ssts, tableCursors ssts start end_ = (rs, Ok tcs) -> forall snap,
       openScan (MkView mt fz ssts) start end_ snap
       = (m ← newMergeIterator (cs ++ tcs);
          Some (rs, Ok (MkIterator m snap [] [] (ErrCursor <$> m_err m) false false))))
    /\ Forall2 compaction.tabulates (layers VM VF tables) Ms
    /\ forall tcs, Forall2 yields tcs ((fun a => range_of start end_ (compaction.kvs (sstable.recs_of a))) <$> tables) ->
         Forall2 yields (cs ++ tcs) (range_of start end_ <$> Ms).
Proof.
  intros [l Hm] Hf Hok start end_.
  destruct (memCursor_yields mt VM l start end_ Hm) as (c & Ec & Hy).
  pose proof (encodes_tabulates _ _ (Memtable.models_encodes _ _ _ Hm)) as HtM.
  assert (Forall2 compaction.tabulates (sstable.versions <$> tables)
            ((fun a => compaction.kvs (sstable.recs_of a)) <$> tables)) as Htab.
  { apply Forall2_fmap, Forall_Forall2_diag. eapply Forall_impl; [exact Hok|]. intros a. apply compaction.versions_tabulates. }
  assert (range_of start end_ <$> ((fun a => compaction.kvs (sstable.recs_of a)) <$> tables)
          = (fun a => range_of start end_ (compaction.kvs (sstable.recs_of a))) <$> tables) as Efm
    by (by rewrite <- list_fmap_compose).
  unfold openScan, layers. destruct fz as [fm|], VF as [VF|]; cbn in Hf; try done.
  - destruct Hf as [lf Hf]. destruct (memCursor_yields fm VF lf start end_ Hf) as (cf & Ecf & Hyf).
    pose proof (encodes_tabulates _ _ (Memtable.models_encodes _ _ _ Hf)) as HtF.
    exists [c; cf], (mem_kvs l :: mem_kvs lf :: ((fun a => compaction.kvs (sstable.recs_of a)) <$> tables)).
    split; [|split].
    + intros rs tcs _ ssts Et snap. cbn [v_memtable v_frozen v_ssts]. rewrite Ec. cbn [mbind option_bind].
      rewrite Ecf. cbn [mbind option_bind]. by rewrite Et.
    + constructor; [done|]. by constructor.
    + intros tcs Ht. rewrite !fmap_cons, Efm. constructor; [done|]. by constructor.
  - exists [c], (mem_kvs l :: ((fun a => compaction.kvs (sstable.recs_of a)) <$> tables)).
    split; [|split].
    + intros rs tcs _ ssts Et snap. cbn [v_memtable v_frozen v_ssts]. rewrite Ec. cbn [mbind option_bind].
      by rewrite Et.
    + by constructor.
    + intros tcs Ht. rewrite !fmap_cons, Efm. by constructor.
Qed.

(** [rs] lists the keys in the range with their values at [snap]. *)
Definition lists (V : vmap) (start end_ : option bytes) (snap : Z) (rs : list (bytes * bytes)) : Prop :=
  (forall k v, (k, v) ∈ rs <-> in_range start end_ k /\ exists t, visible V k snap t (OpPut, v))
  /\ forall R, ordered_by V R -> StronglySorted R rs.*1.

(** [it] will yield [rs]. *)
Definition will_yield (it : Iterator) (rs : list (bytes * bytes)) : Prop :=
  it_done it = false
  /\ exists out, scanning it out /\ results (it_snapshot it) None false out = rs.

Lemma openScan_spec mt fz ssts VM VF tables start end_ snap :
  mem_models mt VM -> frozen_models fz VF -> Forall2 table_ok ssts tables ->
  rangeable (contents VM VF tables) start end_ -> clustered (contents VM VF tables) ->
  exists ssts' it rs, openScan (MkView mt fz ssts) start end_ snap = Some (ssts', Ok it)
    /\ Forall2 table_ok ssts' tables /\ it_snapshot it = snap /\ it_err it = None
    /\ will_yield it rs /\ lists (contents VM VF tables) start end_ snap rs.
Proof.
  intros HM Hf Htab Hrg Hcl.
  assert (Forall sstable.adds_ok tables) as Hok.
  { apply Forall_lookup. intros i a Ha. by destruct (Forall2_lookup_r _ _ _ _ _ Htab Ha) as (r & _ & [? _]). }
  destruct (layers_tabulate mt fz VM VF tables HM Hf Hok start end_) as (cs & Ms & Eopen & HMs & Hcs).
  destruct (tableCursors_yields ssts tables start end_ Htab) as (ssts' & tcs & Et & Htab' & Hy).
  rewrite (Eopen _ _ Hy _ Et). specialize (Hcs _ Hy).
  assert (Forall2 compaction.tabulates (restrict start end_ <$> layers VM VF tables) (range_of start end_ <$> Ms)) as HRs.
  { apply Forall2_fmap, Forall2_same_length_lookup. apply Forall2_same_length_lookup in HMs as [Hlen HMs].
    split; [done|]. intros i V m HV Hm. apply range_tabulates; [by eapply HMs|].
    eapply rangeable_sub; [|exact Hrg]. intros kt Hk. apply stack_dom. exists V.
    split; [by eapply list_elem_of_lookup_2|done]. }
  destruct (newMergeIterator_spec (cs ++ tcs) (range_of start end_ <$> Ms) Hcs) as (m & -> & Hst & Herr).
  { apply Forall_lookup. intros i R Hi. destruct (Forall2_lookup_r _ _ _ _ _ HRs Hi) as (V & _ & HV). apply HV. }
  { apply Forall_lookup. intros i R Hi. destruct (Forall2_lookup_r _ _ _ _ _ HRs Hi) as (V & _ & HV).
    by eapply tabulates_keys. }
  pose proof (compaction.stack_tabulates _ _ HRs) as Htm.
  assert (clustered (stack (restrict start end_ <$> layers VM VF tables))) as Hcl'
    by (eapply clustered_sub; [apply restrict_stack_sub|exact Hcl]).
  cbn [mbind option_bind]. eexists ssts', _, (results snap None false (merged (range_of start end_ <$> Ms))).
  split; [done|]. split; [done|]. split; [done|]. split; [cbn; by rewrite Herr|]. split; [split; [done|]|].
  - eexists. split; [|done]. repeat split; cbn; rewrite ?Herr; [exact Hst|done..|]. by eapply tabulates_keys.
  - split.
    + intros k v. rewrite (results_iff snap _ _ Htm Hcl' k v). setoid_rewrite restrict_visible. naive_solver.
    + intros R HR. apply (results_keys snap _ _ R Htm Hcl'). intros k t k' t' Hk Hk'.
      apply HR; by eapply restrict_stack_sub.
Qed.

Lemma lists_nodup V start end_ snap rs : lists V start end_ snap rs -> NoDup rs.*1.
Proof. intros [_ H]. apply ordered_nodup, H. by intros k t k' t' _ _ _. Qed.

Lemma will_yield_collect it rs : will_yield it rs -> forall fuel, (length rs < fuel)%nat ->
  exists it', collect fuel it = Some (it', rs) /\ it_err it' = None /\ it_done it' = true.
Proof. intros (Hd & out & Hsc & Hr) fuel. by apply collect_spec with (out := out). Qed.

Lemma visible_same V W k s :
  (forall t, t <= s -> V !! (k, t) = W !! (k, t)) -> forall t ov, visible V k s t ov <-> visible W k s t ov.
Proof.
  intros H t ov. unfold visible. split; intros (Ha & Hle & Hb).
  - rewrite H in Ha by done. split; [done|]. split; [done|]. intros t' ov' H' Hle'.
    apply (Hb t' ov'); [by rewrite H|done].
  - rewrite <- H in Ha by done. split; [done|]. split; [done|]. intros t' ov' H' Hle'.
    apply (Hb t' ov'); [by rewrite <- H|done].
Qed.

(** ** Properties *)

Lemma contents_same VM VM' VF tables snap :
  (forall k t, t <= snap -> VM' !! (k, t) = VM !! (k, t)) ->
  forall k t, t <= snap -> contents VM' VF tables !! (k, t) = contents VM VF tables !! (k, t).
Proof.
  intros H k t Ht. unfold contents, layers. rewrite !stack_cons, !lookup_union. by rewrite H.
Qed.

(** C13.  A scan is a consistent snapshot of a range, for the ranges a scan can be
    asked for: the whole store, or any range if no stored key is a prefix of
    another nor of the start; timestamps are below 2^56 and no other key's
    versions lie between those of a key, as with text keys.  The layers are
    captured under the lock, the memtable is read afterwards, when later commits
    may have added versions to it and a flush may have frozen it: whatever was
    added, as long as their timestamps are above the snapshot, walking the
    iterator to its end yields exactly the keys in the range whose newest version
    at or below the snapshot is a put, with that value, each once, without an
    error, and, only if no key is a prefix of another, in ascending order. *)
Theorem scan_correct d VM VF tables mt VM' start end_ snap :
  models d VM VF tables -> closed d = false ->
  mem_models mt VM' -> (forall k t, t <= snap -> VM' !! (k, t) = VM !! (k, t)) ->
  rangeable (contents VM' VF tables) start end_ -> clustered (contents VM' VF tables) ->
  exists ssts it rs,
    openScan (MkView mt (v_frozen (capture d)) (v_ssts (capture d))) start end_ snap = Some (ssts, Ok it)
    /\ models (set_sstables d ssts) VM VF tables
    /\ (mt = memtable d -> Scan d start end_ snap = Some (set_sstables d ssts, Ok it))
    /\ (forall fuel, (length rs < fuel)%nat -> exists it', collect fuel it = Some (it', rs)
          /\ it_err it' = None /\ Next it' = Some (it', false))
    /\ (forall k v, (k, v) ∈ rs <-> in_range start end_ k
          /\ exists t, visible (contents VM VF tables) k snap t (OpPut, v))
    /\ NoDup rs.*1 /\ (prefix_free (contents VM' VF tables) -> StronglySorted blt rs.*1).
Proof.
  intros Hm Hcl Hmt Hsame Hrg Hclus.
  destruct (openScan_spec mt (frozen d) (sstables d) VM' VF tables start end_ snap)
    as (ssts & it & rs & E & Htab & _ & _ & Hy & Hlist); [done|apply Hm|apply Hm|done|done|].
  exists ssts, it, rs. split; [exact E|]. split; [by apply (models_frame d)|].
  split; [intros ->; unfold Scan, capture; by rewrite Hcl, E|]. split.
  - intros fuel Hf. destruct (will_yield_collect it rs Hy fuel Hf) as (it' & Ec & He & Hd).
    exists it'. split; [done|]. split; [done|]. unfold Next. by rewrite Hd.
  - pose proof (lists_nodup _ _ _ _ _ Hlist) as Hnd. destruct Hlist as [Hl Hs].
    split; [|split; [done|intros Hp; by apply Hs, prefix_free_ordered]]. intros k v. rewrite Hl.
    by setoid_rewrite (visible_same _ _ k snap (contents_same VM VM' VF tables snap Hsame k)).
Qed.

(** What [Get] answers, as visibility. *)
Lemma Get_visible d VM VF tables k v :
  models d VM VF tables -> closed d = false -> readable (contents VM VF tables) k -> nextTimestamp d < 2 ^ 56 ->
  (forall t op w, contents VM VF tables !! (k, t) = Some (op, w) -> op = OpPut \/ op = OpDelete) ->
  (Get d k).2 = Ok v <-> exists t, visible (contents VM VF tables) k (nextTimestamp d - 1) t (OpPut, v).
Proof.
  intros Hm Hcl Hr Hs Hops. pose proof (sm_next _ _ _ _ Hm) as Hn.
  destruct (getAsOfSnapshot_spec d VM VF tables k (nextTimestamp d) Hm Hr ltac:(lia)) as (ssts & res & E & _ & Hsees).
  unfold Get. rewrite Hcl, E. cbn [snd]. pose proof (client_live _ _ _ _ Hsees) as Hc.
  assert (live (contents VM VF tables) k (nextTimestamp d) v
          <-> exists t, visible (contents VM VF tables) k (nextTimestamp d - 1) t (OpPut, v)) as Hl.
  { assert (forall t ov, contents VM VF tables !! (k, t) = Some ov -> t < nextTimestamp d) as Hb
      by (intros t ov H; apply (sm_below _ _ _ _ Hm k t); eauto).
    split.
    - intros (t & op & (Ha & Hle & Hmax) & Hop). exists t. assert (op = OpPut) as -> by (by destruct (Hops _ _ _ Ha)).
      specialize (Hb _ _ Ha) as Hlt. split; [done|]. split; [lia|]. intros t' ov' H' _. apply (Hmax t' ov' H').
      specialize (Hb _ _ H'). lia.
    - intros (t & Ha & Hle & Hmax). exists t, OpPut. split; [|done]. split; [done|]. split; [lia|].
      intros t' ov' H' _. apply (Hmax t' ov' H'). specialize (Hb _ _ H'). lia. }
  rewrite <- Hl. destruct (client res) as [v'|e|].
  - split; [by intros [= ->]|]. intros (t & op & Hv & _). destruct Hc as (t' & op' & Hv' & _).
    destruct (visible_unique _ _ _ _ _ _ _ Hv Hv') as [_ [= _ ->]]. done.
  - destruct Hc as [_ Hc]. split; [done|]. intros H. by destruct (Hc v).
  - done.
Qed.

(** [ScanNow] is the range form of [Get]: it opens without an error on an
    open store, and the pairs it yields are exactly the keys of the range for
    which [Get] succeeds, with the value [Get] returns. *)
Theorem scan_now_agrees d VM VF tables start end_ :
  models d VM VF tables -> closed d = false -> nextTimestamp d < 2 ^ 56 ->
  rangeable (contents VM VF tables) start end_ -> clustered (contents VM VF tables) ->
  (forall k t op w, contents VM VF tables !! (k, t) = Some (op, w) -> op = OpPut \/ op = OpDelete) ->
  exists d' it rs, ScanNow d start end_ = Some (d', Ok it) /\ models d' VM VF tables
    /\ (forall fuel, (length rs < fuel)%nat -> exists it', collect fuel it = Some (it', rs))
    /\ forall k v, readable (contents VM VF tables) k ->
         (k, v) ∈ rs <-> in_range start end_ k /\ (Get d k).2 = Ok v.
Proof.
  intros Hm Hcl Hs Hrg Hclus Hops. pose proof (sm_next _ _ _ _ Hm) as Hn.
  destruct (openScan_spec (memtable d) (frozen d) (sstables d) VM VF tables start end_ (nextTimestamp d - 1))
    as (ssts & it & rs & E & Htab & _ & _ & Hy & Hl & _); [apply (sm_mem _ _ _ _ Hm)|apply Hm|apply Hm|done|done|].
  exists (set_sstables d ssts), it, rs. split; [unfold ScanNow, Scan, capture|].
  - rewrite Hcl, decide_True by lia. by rewrite E.
  - split; [by apply (models_frame d)|]. split.
    + intros fuel Hf. destruct (will_yield_collect it rs Hy fuel Hf) as (it' & Ec & _). by exists it'.
    + intros k v Hr. rewrite Hl, (Get_visible d VM VF tables k v Hm Hcl Hr Hs); [done|]. intros t op w. apply Hops.
Qed.

(** A closed store refuses all three. *)
Lemma scan_closed d start end_ snap : closed d = true ->
  Scan d start end_ snap = Some (d, Err errClosed) /\ ScanNow d start end_ = Some (d, Err errClosed)
  /\ SnapshotScan d = Some (d, Err errClosed).
Proof. intros H. unfold Scan, ScanNow, SnapshotScan. by rewrite H. Qed.

(** ** Witnesses *)

(** "b" in the memtable, "a" in the frozen one. *)
Definition demo_mt : vmap := put_rec ∅ (rec1 kb).
Definition demo_frozen : vmap := put_rec ∅ (rec1 ka).

Lemma demo_two : exists d, models d demo_mt (Some demo_frozen) [] /\ closed d = false /\ nextTimestamp d = 2.
Proof.
  destruct (demo_mem ka None None ltac:(by_decide) ltac:(by_decide) I I ltac:(done)) as (d0 & Hm0 & _).
  destruct (sm_mem _ _ _ _ Hm0) as [[l Hl] _].
  destruct (demo_mem kb (Some demo_frozen) (Some (memtable d0)) ltac:(by_decide) ltac:(by_decide))
    as (d & Hm & Hc & _ & _ & Hn).
  - by exists l.
  - split; [|done]. intros k t t' _ H. by apply stack_dom in H as (U & HU%elem_of_nil & _).
  - intros V k' t [= <-] [ov H]. unfold demo_frozen, put_rec in H.
    apply lookup_insert_Some in H as [[[= <- <-] _]|[_ H]]; [split; [by vm_compute|lia]|].
    by rewrite lookup_empty in H.
  - by exists d.
Qed.

(** A later deletion of "b". *)
Definition demo_later : record.Rec := record.MkRec OpDelete 5 kb [].

Lemma demo_text VM' : VM' = demo_mt \/ VM' = put_rec demo_mt demo_later ->
  text_map (contents VM' (Some demo_frozen) []) /\ prefix_free (contents VM' (Some demo_frozen) []).
Proof. intros [-> | ->]; (split; [apply text_map_check|apply prefix_free_check]; by_decide). Qed.

Lemma demo_start VM' : VM' = demo_mt \/ VM' = put_rec demo_mt demo_later ->
  rangeable (contents VM' (Some demo_frozen) []) (Some ka) None.
Proof.
  intros H. right. split; [by apply demo_text|].
  assert (map_Forall (fun (kt : bytes * Z) (_ : byte * bytes) => kt.1 `prefix_of` ka -> kt.1 = ka)
            (contents VM' (Some demo_frozen) [])) as Hall by (destruct H as [-> | ->]; by_decide).
  intros k t [ov Hk]. exact (Hall (k, t) ov Hk).
Qed.

Lemma scan_correct_witness :
  exists d mt ssts it rs, models d demo_mt (Some demo_frozen) []
    /\ openScan (MkView mt (frozen d) (sstables d)) (Some ka) None 3 = Some (ssts, Ok it)
    /\ (forall fuel, (length rs < fuel)%nat -> exists it', collect fuel it = Some (it', rs))
    /\ (kb, [x31]) ∈ rs.
Proof.
  destruct demo_two as (d & Hm & Hc & Hn).
  assert (data_ok demo_later) as Hd.
  { split; [|by right]. split; [done|split; [done|split; [|by vm_compute]]]. by_decide. }
  destruct (apply_one (memtable d) demo_mt demo_later (fun _ => false) (sm_mem _ _ _ _ Hm) Hd) as (mt & _ & Hmt).
  destruct (scan_correct d demo_mt (Some demo_frozen) [] mt (put_rec demo_mt demo_later) (Some ka) None 3 Hm Hc (proj1 Hmt))
    as (ssts & it & rs & E & _ & _ & Hcol & Hrs & _).
  - intros k t Ht. unfold put_rec. rewrite lookup_insert_ne; [done|]. intros [= _ E]. cbn in E. lia.
  - apply demo_start. by right.
  - apply text_clustered_map, demo_text. by right.
  - exists d, mt, ssts, it, rs. split; [exact Hm|]. split; [exact E|]. split.
    + intros fuel Hf. destruct (Hcol fuel Hf) as (it' & Ec & _). by exists it'.
    + apply Hrs. split; [by_decide|]. exists 1. split; [vm_compute; reflexivity|]. split; [lia|].
      intros t' ov' H _. unfold contents, layers, demo_mt in H.
      assert (map_Forall (fun (kt : bytes * Z) (_ : byte * bytes) => kt.2 <= 1)
                (contents demo_mt (Some demo_frozen) [])) as Hall by by_decide.
      exact (Hall (kb, t') ov' H).
Defined.

Lemma scan_now_agrees_witness :
  exists d d' it rs, models d demo_mt (Some demo_frozen) []
    /\ ScanNow d (Some ka) None = Some (d', Ok it)
    /\ (forall fuel, (length rs < fuel)%nat -> exists it', collect fuel it = Some (it', rs))
    /\ forall v, (kb, v) ∈ rs <-> in_range (Some ka) None kb /\ (Get d kb).2 = Ok v.
Proof.
  destruct demo_two as (d & Hm & Hc & Hn).
  destruct (scan_now_agrees d demo_mt (Some demo_frozen) [] (Some ka) None Hm Hc)
    as (d' & it & rs & E & _ & Hcol & Hrs).
  - rewrite Hn. by_decide.
  - apply demo_start. by left.
  - apply text_clustered_map, demo_text. by left.
  - assert (map_Forall (fun (kt : bytes * Z) (ov : byte * bytes) => ov.1 = OpPut \/ ov.1 = OpDelete)
              (contents demo_mt (Some demo_frozen) [])) as Hall by by_decide.
    intros k t op w H. exact (Hall (k, t) (op, w) H).
  - exists d, d', it, rs. split; [exact Hm|]. split; [exact E|]. split; [exact Hcol|].
    intros v. apply Hrs. left. apply demo_text. by left.
Defined.


End scanspec.
