(* ===== verification/DbSnapshot.v ===== *)
(** * Snapshots of the store (internal/db/snapshot.go)

    [BuildSnapshotDB] writes a key/value set, a session table and an applied index
    into an empty directory.  With [SnapshotScan] (scan.go) on the sender's side
    it moves the state of one store to another: the composition is proved to
    preserve every read. *)

From Stdlib Require Import ZArith Lia.
From Stdlib Require Import Strings.Byte.
From stdpp Require Import base list gmap sorting.
From S2P Require Import Prelude.
From S2P Require Import MvccKey.
From S2P Require Import OrderedMap.
From S2P Require Import Skiplist.
From S2P Require Import Versions.
From S2P Require Import Memtable.
From S2P Require Import RecordFmt.
From S2P Require Import SSTable.
From S2P Require Import Wal.
From S2P Require Import DbDisk.
From S2P Require Import Merge.
From S2P Require Import Db.
From S2P Require Import Layers.
From S2P Require Import Compaction.
From S2P Require Import DbReplay.
From S2P Require Import DbStore.
From S2P Require Import DbScan.
From S2P Require Import DbScanSpec.

#[local] Open Scope Z_scope.
#[local] Open Scope bytes_scope.

Module snapshot.
Import db replay store scan scanspec.

Record KV := MkKV { kv_Key : bytes; kv_Value : bytes }.

(** The loop of adds; an error aborts the writer and is returned. *)
Fixpoint addKVs (w : sstable.Writer) (kvs : list KV) (snapshotTS : Z) : outcome sstable.error sstable.Writer :=
  match kvs with
  | [] => Ok w
  | kv :: kvs' => w' ← sstable.Add w OpPut (kv_Key kv) (kv_Value kv) snapshotTS; addKVs w' kvs' snapshotTS
  end.

(** The one table, with id 1. *)
Definition snapshotTable (kvs : list KV) (lastIncludedIndex snapshotTS : Z) : outcome sstable.error (gmap Z bytes) :=
  if decide (len kvs > 0) then
    w ← addKVs (sstable.NewWriter (len kvs) lastIncludedIndex) kvs snapshotTS;
    '(_, file) ← sstable.Finish w;
    Ok {[ 1 := file ]}
  else Ok ∅.

Definition BuildSnapshotDB (kvs : list KV) (sess : gmap bytes Z) (lastIncludedIndex snapshotTS : Z)
  : outcome error Disk :=
  match snapshotTable kvs lastIncludedIndex snapshotTS with
  | Err e => Err (ErrSST e)
  | Panic => Panic
  | Ok ssts =>
      Ok (MkDisk ssts (dbdisk.writeAppliedBase lastIncludedIndex)
            (if decide (0 < size sess)%nat then dbdisk.writeSessionsFile sess else None))
  end.

(** ** What the built store opens to *)

Definition kv_add (snapshotTS : Z) (kv : KV) : sstable.add :=
  sstable.MkAdd OpPut (kv_Key kv) (kv_Value kv) snapshotTS.

Definition kv_adds (kvs : list KV) (snapshotTS : Z) : adds := kv_add snapshotTS <$> kvs.

Definition kv_tables (kvs : list KV) (snapshotTS : Z) : list adds :=
  if decide (len kvs > 0) then [kv_adds kvs snapshotTS] else [].

Lemma addKVs_AddAll kvs ts : forall w, addKVs w kvs ts = sstable.AddAll w (kv_adds kvs ts).
Proof.
  induction kvs as [|kv kvs IH]; intros w; [done|]. cbn [addKVs kv_adds fmap list_fmap sstable.AddAll kv_add
    sstable.a_op sstable.a_key sstable.a_value sstable.a_ts].
  destruct (sstable.Add w OpPut (kv_Key kv) (kv_Value kv) ts) as [w'| |]; [|done..]. apply IH.
Qed.

Lemma kv_versions kvs ts k t ov :
  NoDup (kv_Key <$> kvs) ->
  sstable.versions (kv_adds kvs ts) !! (k, t) = Some ov
  <-> t = ts /\ ov.1 = OpPut /\ MkKV k ov.2 ∈ kvs.
Proof.
  unfold sstable.versions, kv_adds. induction kvs as [|kv kvs IH] using rev_ind; intros Hnd.
  - cbn. rewrite lookup_empty. split; [done|]. intros (_ & _ & H). by apply elem_of_nil in H.
  - rewrite fmap_app in Hnd. apply NoDup_app in Hnd as (Hnd & Hdis & _). specialize (IH Hnd).
    rewrite fmap_app, foldl_app. cbn [fmap list_fmap foldl kv_add sstable.a_op sstable.a_key sstable.a_value sstable.a_ts].
    rewrite elem_of_app, list_elem_of_singleton. destruct (decide (k = kv_Key kv /\ t = ts)) as [[-> ->]|Hne].
    + rewrite lookup_insert_eq. split.
      * intros [= <-]. split; [done|]. split; [done|]. right. by destruct kv.
      * intros (_ & Ho & [H|H]); [|by rewrite <- H; destruct ov; cbn in *; subst].
        exfalso. apply (Hdis (kv_Key kv)); [apply list_elem_of_fmap; eexists; split; [|exact H]; done|].
        by apply list_elem_of_singleton.
    + rewrite lookup_insert_ne by (intros [= <- <-]; by apply Hne). rewrite IH. split; [tauto|].
      intros (-> & Ho & [H|H]); [done|]. exfalso. apply Hne. by rewrite <- H.
Qed.

Lemma kv_max_ts kvs ts : 0 <= ts -> sstable.max_ts (kv_adds kvs ts) = if decide (len kvs > 0) then ts else 0.
Proof.
  intros Ht. unfold sstable.max_ts. destruct kvs as [|kv kvs]; [done|].
  rewrite decide_True by (rewrite len_cons; pose proof (len_nonneg kvs); lia). cbn [kv_adds fmap list_fmap foldl kv_add sstable.a_ts].
  rewrite Z.max_r by lia. induction kvs as [|kv' kvs IH]; [done|].
  cbn [fmap list_fmap foldl kv_add sstable.a_ts]. by rewrite Z.max_id.
Qed.

(** What the format can carry, with the keys in the table's order. *)
Definition kvs_ok (kvs : list KV) (ts : Z) : Prop := sstable.adds_ok (kv_adds kvs ts).

Lemma kvs_ok_nodup kvs ts : is_u64 ts -> kvs_ok kvs ts -> NoDup (kv_Key <$> kvs).
Proof.
  intros Ht (_ & Hs & _). unfold sstable.sorted_recs, sorted_keys in Hs.
  assert ((sstable.table_of (sstable.recs_of (kv_adds kvs ts))).*1 = (fun k => Encode k ts) <$> (kv_Key <$> kvs)) as E
    by (unfold sstable.table_of, sstable.recs_of, kv_adds; by rewrite <- !list_fmap_compose).
  rewrite E in Hs. clear E. induction (kv_Key <$> kvs) as [|k ks IH]; [constructor|].
  cbn in Hs. apply StronglySorted_inv in Hs as [Hs Hk]. apply NoDup_cons. split; [|by apply IH].
  intros Hin. rewrite Forall_forall in Hk. apply (blt_irrefl (Encode k ts)), Hk.
  by apply (list_elem_of_fmap_2 (fun k => Encode k ts)).
Qed.

(** The files of a snapshot. *)
Lemma snapshotTable_spec kvs idx ts : kvs_ok kvs ts -> is_u64 idx -> 0 <= ts ->
  exists ssts, snapshotTable kvs idx ts = Ok ssts
    /\ exists rs mapp, openTables ssts (reverse (discoverSSTables ssts)) [] 0 0
         = Ok (rs, if decide (len kvs > 0) then ts else 0, mapp)
       /\ mapp <= idx /\ Forall2 table_ok rs (kv_tables kvs ts).
Proof.
  intros Hok Hidx Ht. unfold snapshotTable, kv_tables. destruct (decide (len kvs > 0)) as [Hl|Hl].
  2: { exists ∅. split; [done|]. exists [], 0. split; [by vm_compute|]. split; [unfold is_u64 in Hidx; lia|constructor]. }
  rewrite addKVs_AddAll.
  destruct (sstable.AddAll_models (kv_adds kvs ts) _ [] (sstable.NewWriter_models (len kvs) idx) Hok) as (w & -> & Hw & Hwa).
  cbn [app] in Hw. pose proof Hok as (Hwf & Hs & Hlt).
  destruct (sstable.Finish_Open w _ Hw Hwf Hs Hlt ltac:(by rewrite Hwa)) as (w' & file & r & Ef & _ & _ & Er & Hr & Hm & Ha).
  cbn [mbind outcome_bind]. rewrite Ef. cbn [mbind outcome_bind]. eexists. split; [done|].
  rewrite kv_max_ts, decide_True in Hm by done. rewrite Hwa in Ha. cbn in Ha.
  change (discoverSSTables {[1 := file]}) with (discoverSSTables (d_ssts (MkDisk {[1 := file]} None None))).
  rewrite (discover_files (MkDisk {[1 := file]} None None) [1] [kv_adds kvs ts]).
  - cbn [reverse rev_append]. unfold reverse. cbn [rev_append openTables]. rewrite lookup_singleton_eq, Er, Hm, Ha.
    eexists _, _. split; [f_equal; f_equal; f_equal; by destruct (decide (ts > 0)); lia|].
    split; [unfold is_u64 in Hidx; case_decide; lia|]. constructor; [by split|constructor].
  - split.
    + constructor; [|constructor]. exists file, r. cbn. rewrite lookup_singleton_eq, kv_max_ts, decide_True by done.
      split; [done|]. split; [done|]. by split; [split|].
    + intros id [f H]. cbn in H. apply lookup_singleton_Some in H as [<- _]. by apply list_elem_of_singleton.
    + repeat constructor.
    + constructor; [lia|constructor].
Qed.

(** The state of the store opened from a built snapshot. *)
Record installed (d : DB) (kvs : list KV) (sess : gmap bytes Z) (idx ts : Z) : Prop := {
  in_models : models d ∅ None (kv_tables kvs ts);
  in_closed : closed d = false;
  in_applied : RecoveredAppliedIndex d = idx /\ appliedIndex d = idx;
  in_ts : appliedTS d = (if decide (len kvs > 0) then ts else 0) /\ nextTimestamp d = appliedTS d + 1;
  in_sessions : SessionTable d = sess
}.

Definition sessions_ok (sess : gmap bytes Z) : Prop :=
  Forall dbdisk.entry_ok (map_to_list sess) /\ len (map_to_list sess) < 2 ^ 64.

Lemma BuildSnapshotDB_open kvs sess idx ts o c :
  kvs_ok kvs ts -> sessions_ok sess -> is_u64 idx -> 0 <= ts < 2 ^ 64 - 1 ->
  exists disk d, BuildSnapshotDB kvs sess idx ts = Ok disk /\ OpenWith None disk o c = Ok d
    /\ installed d kvs sess idx ts.
Proof.
  intros Hok [Hse Hsl] Hidx Hts.
  destruct (snapshotTable_spec kvs idx ts Hok Hidx ltac:(lia)) as (ssts & Et & rs & mapp & Eo & Hmapp & Hrs).
  unfold BuildSnapshotDB. rewrite Et. set (disk := MkDisk _ _ _). exists disk.
  destruct (dbdisk.sidefiles_roundtrip sess (map_to_list sess) idx 0 ltac:(done) Hse Hsl Hidx ltac:(by_decide))
    as (_ & Hsess & Hnone & Hbase & _).
  assert (dbdisk.readSessionsFile (d_sessions disk) = sess) as Hse'.
  { unfold disk. cbn [d_sessions]. destruct (decide (0 < size sess)%nat) as [Hz|Hz]; [exact Hsess|]. rewrite Hnone. symmetry. apply map_size_empty_iff. lia. }
  eexists. split; [done|]. assert (OpenWith None disk o c = OpenWith (Some (record.encs [] ++ [])) disk o c) as -> by reflexivity.
  rewrite (OpenWith_scan [] [] disk o c _ _ _ ltac:(constructor) ltac:(done) ltac:(by left) Eo).
  cbn [wal.offsets wal.scan_list]. split; [done|]. split; [|done| | |exact Hse'].
  - set (top := if decide (len kvs > 0) then ts else 0).
    assert (u64 (top + 1) = top + 1) as Hu by (apply u64_small; unfold top, is_u64; case_decide; lia).
    split; cbn; rewrite ?Hu; [split; [exists []; apply Memtable.New_models|done]|done|exact Hrs| | |unfold top; case_decide; lia].
    + split; [apply above_empty|]. unfold kv_tables. destruct (decide (len kvs > 0)); [|done]. split; [|done].
      intros k t t' _ H. by apply stack_dom in H as (U & HU%elem_of_nil & _).
    + intros k t H. change (is_Some (stack (layers ∅ None (kv_tables kvs ts)) !! (k, t))) in H.
      apply stack_dom in H as (V & HV & H). apply elem_of_cons in HV as [->|HV]; [by destruct H as [? H]; rewrite lookup_empty in H|].
      cbn [frozen_layer app] in HV. unfold top, kv_tables in *. destruct (decide (len kvs > 0)); [|by apply elem_of_nil in HV].
      apply list_elem_of_fmap in HV as (a & -> & ->%list_elem_of_singleton).
      apply versions_elem in H as (a & Ha & _ & <-). apply list_elem_of_fmap in Ha as (kv & -> & _). cbn. lia.
  - assert (dbdisk.readAppliedBase (d_base disk) = idx) as Hb by exact Hbase.
    unfold RecoveredAppliedIndex, opened. cbn [recoveredApplied appliedIndex rp_commits start_state]. rewrite Hb, Z.add_0_r, (u64_small idx Hidx). rewrite decide_False by lia. done.
  - split; [reflexivity|]. unfold opened. cbn [appliedTS nextTimestamp rp_maxTS start_state].
    apply u64_small. unfold is_u64. destruct (decide (len kvs > 0)); lia.
Qed.


(** ** Sending a snapshot *)

(** [rs] as the message carries it. *)
Definition kvs_of (rs : list (bytes * bytes)) : list KV := (fun e => MkKV e.1 e.2) <$> rs.

Lemma kvs_of_keys rs : kv_Key <$> kvs_of rs = rs.*1.
Proof. unfold kvs_of. by rewrite <- list_fmap_compose. Qed.

Lemma elem_of_kvs_of rs k v : MkKV k v ∈ kvs_of rs <-> (k, v) ∈ rs.
Proof.
  unfold kvs_of. rewrite list_elem_of_fmap. split.
  - by intros ([k' v'] & [= -> ->] & H).
  - intros H. by exists (k, v).
Qed.

(** The table order at one timestamp is the table order at any. *)
Lemma same_ts_order V s : text_map V \/ prefix_free V -> small_ts s ->
  ordered_by V (fun k k' => Encode k s <b Encode k' s).
Proof.
  intros [HV|HV] Hs k t k' t' Hk Hk' Hlt Hne.
  - destruct (HV _ _ Hk) as [Htk Ht], (HV _ _ Hk') as [Htk' Ht']. unfold blt in *.
    rewrite bcompare_Encode_text in * by done.
    destruct (bcompare (k ++ [xff]) (k' ++ [xff])) eqn:E; try done.
    apply bcompare_eq in E. apply app_inj_2 in E as [? _]; done.
  - destruct (HV k t Hk k' t' Hk' (not_eq_sym Hne)) as [H1 H2].
    unfold Encode, blt in *. by rewrite bcompare_diverge in *.
Qed.

Lemma lists_kvs_ok V start end_ snap rs s :
  lists V start end_ snap rs -> text_map V \/ prefix_free V -> small_ts s ->
  Forall (fun e => len e.1 + 8 + record.HeaderSize < 2 ^ 32 /\ len e.2 < 2 ^ 32) rs ->
  len (record.encs (sstable.recs_of (kv_adds (kvs_of rs) s))) < 2 ^ 60 ->
  kvs_ok (kvs_of rs) s.
Proof.
  intros [_ Hord] HV Hs Hsz Hlt. split; [|split; [|done]].
  - unfold kv_adds, kvs_of. rewrite <- list_fmap_compose. apply Forall_fmap. eapply Forall_impl; [exact Hsz|].
    intros [k v] [H1 H2]. split; [done|]. split; [by apply small_ts_u64|].
    unfold compose, kv_add, sstable.rec_of. cbn [kv_Key kv_Value record.Key record.Value sstable.a_key sstable.a_value
      sstable.a_ts fst snd] in *. rewrite len_Encode. split; [lia|done].
  - specialize (Hord _ (same_ts_order V s HV Hs)). unfold sstable.sorted_recs, sorted_keys.
    assert ((sstable.table_of (sstable.recs_of (kv_adds (kvs_of rs) s))).*1 = (fun k => Encode k s) <$> rs.*1) as ->
      by (unfold sstable.table_of, sstable.recs_of, kv_adds, kvs_of; by rewrite <- !list_fmap_compose).
    induction Hord as [|k ks _ IH Hk]; [constructor|]. cbn. constructor; [done|]. by apply Forall_fmap.
Qed.

(** The table is no larger than the versions it was taken from. *)
Lemma kvs_footprint ts rs : forall V, NoDup rs.*1 ->
  (forall k v, (k, v) ∈ rs -> exists t, V !! (k, t) = Some (OpPut, v)) ->
  len (record.encs (sstable.recs_of (kv_adds (kvs_of rs) ts))) <= Memtable.footprint V.
Proof.
  induction rs as [|[k v] rs IH]; intros V Hnd HV.
  - cbn. change (0 <= Memtable.footprint V). apply Memtable.footprint_nonneg.
  - apply NoDup_cons in Hnd as [Hk Hnd]. destruct (HV k v) as [t Ht]; [apply elem_of_cons; auto|].
    rewrite (Memtable.footprint_delete V (k, t) (OpPut, v) Ht).
    specialize (IH (delete (k, t) V) Hnd). unfold kvs_of, kv_adds, sstable.recs_of in *. rewrite !fmap_cons, record.encs_cons, len_app.
    rewrite record.len_record_Encode. etrans; [|apply Z.add_le_mono_l, IH].
    + unfold record.size, record.HeaderSize, Memtable.cost, Memtable.entryOverhead, kv_add, sstable.rec_of.
      cbn [kv_Key kv_Value record.Key record.Value sstable.a_key sstable.a_value sstable.a_ts fst snd].
      rewrite len_Encode. unfold TimestampSize. lia.
    + intros k' v' Hin. destruct (HV k' v') as [t' Ht']; [apply elem_of_cons; auto|]. exists t'.
      rewrite lookup_delete_ne; [done|]. intros [= <- <-]. apply Hk. by apply (list_elem_of_fmap_2 fst _ (k, v')).
Qed.

Lemma lists_footprint V start end_ snap rs ts : lists V start end_ snap rs ->
  len (record.encs (sstable.recs_of (kv_adds (kvs_of rs) ts))) <= Memtable.footprint V.
Proof.
  intros Hl. apply kvs_footprint; [by eapply lists_nodup|]. intros k v Hin.
  apply Hl in Hin as (_ & t & H & _). by exists t.
Qed.

Lemma built_lookup V rs snap ts : lists V None None snap rs ->
  forall k t ov, contents ∅ None (kv_tables (kvs_of rs) ts) !! (k, t) = Some ov
  <-> t = ts /\ ov.1 = OpPut /\ (k, ov.2) ∈ rs.
Proof.
  intros Hl k t ov. pose proof (lists_nodup _ _ _ _ _ Hl) as Hnd. rewrite <- kvs_of_keys in Hnd.
  rewrite <- elem_of_kvs_of, <- (kv_versions (kvs_of rs) ts k t ov Hnd).
  unfold contents, layers, kv_tables. cbn [frozen_layer app]. rewrite stack_cons, (left_id_L ∅ (∪)).
  destruct (decide (len (kvs_of rs) > 0)) as [Hz|Hz].
  - cbn [fmap list_fmap]. rewrite stack_cons. change (stack []) with (∅ : vmap). by rewrite (right_id_L ∅ (∪)).
  - destruct (kvs_of rs) as [|x l]; [done|]. rewrite len_cons in Hz. pose proof (len_nonneg l). lia.
Qed.

(** The keys of the built store are keys of the sender. *)
Lemma built_readable V rs snap ts k : lists V None None snap rs -> small_ts ts -> readable V k ->
  readable (contents ∅ None (kv_tables (kvs_of rs) ts)) k.
Proof.
  intros Hl Hts Hr. pose proof (built_lookup V rs snap ts Hl) as Hb.
  assert (forall k' t, is_Some (contents ∅ None (kv_tables (kvs_of rs) ts) !! (k', t)) ->
            t = ts /\ exists t', is_Some (V !! (k', t'))) as Hkey.
  { intros k' t [ov H]. apply Hb in H as (-> & _ & H). split; [done|].
    apply Hl in H as (_ & t' & H & _). eauto. }
  destruct Hr as [Hr|Hr]; [left|right].
  - intros k' t Hk. destruct (Hkey k' t Hk) as [-> [t' Ht']]. split; [by apply (Hr k' t')|done].
  - intros k' t Hk. destruct (Hkey k' t Hk) as [_ [t' Ht']]. by apply (Hr k' t').
Qed.

(** What a scan listed is what the built store holds. *)
Lemma built_live V rs snap ts : lists V None None snap rs ->
  forall k s v, ts <= s -> live (contents ∅ None (kv_tables (kvs_of rs) ts)) k s v
  <-> exists t, visible V k snap t (OpPut, v).
Proof.
  intros Hl k s v Hs. pose proof (built_lookup V rs snap ts Hl) as Hc.
  destruct Hl as [Hl _]. unfold in_range in Hl. split.
  - intros (t & op & (H & _ & _) & _). apply Hc in H as (_ & _ & H). by apply Hl in H as [_ ?].
  - intros H. exists ts, OpPut. split; [|done]. split; [apply Hc; split; [done|]; split; [done|]; by apply Hl|].
    split; [done|]. intros t' ov' H' _. apply Hc in H' as [-> _]. done.
Qed.

(** A store a snapshot can be taken of: the keys are text or prefix free, the
    versions are puts and tombstones, and everything fits the formats. *)
Record sendable (d : DB) (VM : vmap) (VF : option vmap) (tables : list adds) : Prop := {
  se_models : models d VM VF tables;
  se_open : closed d = false;
  se_keys : text_map (contents VM VF tables) \/ prefix_free (contents VM VF tables);
  se_small : small_map (contents VM VF tables);
  se_ops k t op w : contents VM VF tables !! (k, t) = Some (op, w) -> op = OpPut \/ op = OpDelete;
  se_sizes k t op w : contents VM VF tables !! (k, t) = Some (op, w) ->
    len k + 8 + record.HeaderSize < 2 ^ 32 /\ len w < 2 ^ 32;
  se_total : Memtable.footprint (contents VM VF tables) < 2 ^ 60;
  se_ts : small_ts (appliedTS d);
  se_idx : is_u64 (appliedIndex d);
  se_sessions : sessions_ok (sessions d)
}.

Section sending.
Context {d : DB} {VM : vmap} {VF : option vmap} {tables : list adds} (Hd : sendable d VM VF tables).

(** The sender's side. *)
Lemma SnapshotScan_run :
  exists d1 it rs, SnapshotScan d = Some (d1, Ok (it, appliedIndex d, appliedTS d))
    /\ (exists ssts, d1 = set_sstables d ssts) /\ models d1 VM VF tables
    /\ (forall fuel, (length rs < fuel)%nat -> exists it', collect fuel it = Some (it', rs) /\ it_err it' = None)
    /\ lists (contents VM VF tables) None None (appliedTS d) rs /\ kvs_ok (kvs_of rs) (appliedTS d).
Proof.
  destruct Hd as [Hm Hcl HV Hsm Hops Hsz Htot Hts Hidx Hse].
  assert (clustered (contents VM VF tables)) as Hclus
    by (destruct HV as [HV|HV]; [by apply text_clustered_map|by apply prefix_free_clustered_map]).
  destruct (openScan_spec (memtable d) (frozen d) (sstables d) VM VF tables None None (appliedTS d))
    as (ssts & it & rs & E & Htab & _ & _ & Hy & Hl);
    [apply (sm_mem _ _ _ _ Hm)|apply Hm|apply Hm|by left|done|].
  exists (set_sstables d ssts), it, rs. split; [unfold SnapshotScan, capture; by rewrite Hcl, E|].
  split; [by exists ssts|]. split; [by apply (models_frame d)|]. split.
  { intros fuel Hf. destruct (will_yield_collect it rs Hy fuel Hf) as (it' & Ec & He & _). by exists it'. }
  split; [exact Hl|].
  apply (lists_kvs_ok _ _ _ _ _ _ Hl); [done..| |by eapply Z.le_lt_trans; [apply (lists_footprint _ _ _ _ _ _ Hl)|]].
  apply Forall_forall. intros [k v] Hin. apply Hl in Hin as (_ & t & H & _). by apply (Hsz _ _ _ _ H).
Qed.

(** Reads of a store installed from the pairs listed. *)
Lemma installed_reads rs d2 sess idx k s :
  lists (contents VM VF tables) None None (appliedTS d) rs -> installed d2 (kvs_of rs) sess idx (appliedTS d) ->
  readable (contents VM VF tables) k -> appliedTS d <= s < 2 ^ 56 ->
  (GetAsOf d2 k s).2 = (GetAsOf d k (appliedTS d)).2.
Proof.
  intros Hl Hin Hr Hs. destruct Hd as [Hm Hcl HV Hsm Hops _ _ Hts _ _].
  pose proof (built_readable _ _ _ _ k Hl Hts Hr) as Hr2.
  destruct (GetAsOf_client d2 _ _ _ k s (in_models _ _ _ _ _ Hin) (in_closed _ _ _ _ _ Hin) Hr2 ltac:(unfold small_ts in Hts; lia))
    as (d2' & r2 & -> & _ & Hs2).
  destruct (GetAsOf_client d VM VF tables k (appliedTS d) Hm Hcl Hr Hts) as (d' & r1 & -> & _ & Hs1).
  cbn [snd]. apply (client_eq _ _ _ _ _ _ _ Hs2 Hs1). intros v.
  rewrite (built_live _ _ _ _ Hl k s v) by lia. split.
  - intros (t & Hv). by exists t, OpPut.
  - intros (t & op & Hv & Hop). exists t. pose proof Hv as (Ha & _). by destruct (Hops _ _ _ _ Ha) as [->| ->].
Qed.

End sending.

(** C14.  A snapshot carries the state of a store to another, for stores whose
    keys are text or no prefixes of one another, with timestamps below 2^56.
    [SnapshotScan] on an open store captures its applied index and timestamp with
    an iterator; the pairs the iterator yields, with the session table, are
    accepted by [BuildSnapshotDB]; and the store that opens from the built
    directory answers every read of such a key as the sender does at that
    timestamp (the sender's tombstones and older versions are gone), has the same
    applied index and session table, and continues with the next timestamp. *)
Theorem snapshot_transfer d VM VF tables o c :
  sendable d VM VF tables ->
  exists d1 it rs disk d2,
    SnapshotScan d = Some (d1, Ok (it, appliedIndex d, appliedTS d)) /\ models d1 VM VF tables
    /\ (forall fuel, (length rs < fuel)%nat -> exists it', collect fuel it = Some (it', rs) /\ it_err it' = None)
    /\ BuildSnapshotDB (kvs_of rs) (SessionTable d) (appliedIndex d) (appliedTS d) = Ok disk
    /\ OpenWith None disk o c = Ok d2
    /\ installed d2 (kvs_of rs) (SessionTable d) (appliedIndex d) (appliedTS d)
    /\ forall k s, readable (contents VM VF tables) k -> appliedTS d <= s < 2 ^ 56 ->
         (GetAsOf d2 k s).2 = (GetAsOf d k (appliedTS d)).2.
Proof.
  intros Hd. destruct (SnapshotScan_run Hd) as (d1 & it & rs & E & _ & Hm1 & Hc & Hl & Hok).
  pose proof (se_ts _ _ _ _ Hd) as Hts. assert (0 <= appliedTS d < 2 ^ 64 - 1) as Hts' by (unfold small_ts in Hts; lia).
  destruct (BuildSnapshotDB_open (kvs_of rs) (sessions d) (appliedIndex d) (appliedTS d) o c Hok
              (se_sessions _ _ _ _ Hd) (se_idx _ _ _ _ Hd) Hts') as (disk & d2 & Eb & Eo & Hin).
  exists d1, it, rs, disk, d2. do 6 (split; [done|]). intros k s. intros Hr Hs. exact (installed_reads Hd rs d2 _ _ k s Hl Hin Hr Hs).
Qed.

(** ** Witness *)

(** A store with a memtable and a frozen one, at applied index 3 and timestamp 1. *)
Lemma demo_sendable : exists d, sendable d demo_mt (Some demo_frozen) []
  /\ appliedIndex d = 3 /\ appliedTS d = 1 /\ sessions d = {[ [x73] := 7 ]}.
Proof.
  destruct demo_two as (d0 & Hm0 & Hc0 & Hn0).
  set (d := set_sessions (set_applied d0 3 1) {[ [x73] := 7 ]}).
  assert (models d demo_mt (Some demo_frozen) []) as Hm
    by (apply (models_frame d0); [exact Hm0|done|done|apply Hm0|done]).
  assert (map_Forall (fun (kt : bytes * Z) (ov : byte * bytes) =>
            (ov.1 = OpPut \/ ov.1 = OpDelete) /\ len kt.1 < 10 /\ len ov.2 < 10 /\ 0 <= kt.2 < 10)
            (contents demo_mt (Some demo_frozen) [])) as Hall by by_decide.
  exists d. split; [|by split].
  split; [exact Hm|exact Hc0|left; apply demo_text; by left| | | |vm_compute; reflexivity|vm_compute; by split
         |vm_compute; by split|split; by_decide].
  - intros k t [[op w] H]. destruct (Hall (k, t) (op, w) H) as (_ & _ & _ & Ht). cbn in Ht. unfold small_ts. lia.
  - intros k t op w H. by destruct (Hall (k, t) (op, w) H).
  - intros k t op w H. destruct (Hall (k, t) (op, w) H) as (_ & H1 & H2 & _). cbn in H1, H2.
    unfold record.HeaderSize. split; lia.
Qed.

Lemma snapshot_transfer_witness :
  exists d d1 it rs disk d2, models d demo_mt (Some demo_frozen) []
    /\ SnapshotScan d = Some (d1, Ok (it, 3, 1))
    /\ BuildSnapshotDB (kvs_of rs) {[ [x73] := 7 ]} 3 1 = Ok disk
    /\ OpenWith None disk (MkOptions true 0 2 true) (fun _ _ => false) = Ok d2
    /\ installed d2 (kvs_of rs) {[ [x73] := 7 ]} 3 1
    /\ (GetAsOf d2 kb 5).2 = (GetAsOf d kb 1).2.
Proof.
  destruct demo_sendable as (d & Hd & Hidx & Hts & Hse).
  destruct (snapshot_transfer d demo_mt (Some demo_frozen) [] (MkOptions true 0 2 true) (fun _ _ => false) Hd)
    as (d1 & it & rs & disk & d2 & E1 & _ & _ & E2 & E3 & E4 & Hget).
  unfold SessionTable in *. rewrite Hidx, Hts in *. rewrite Hse in *.
  exists d, d1, it, rs, disk, d2. split; [apply Hd|]. split; [exact E1|]. split; [exact E2|]. split; [exact E3|].
  split; [exact E4|]. apply Hget; [left; apply demo_text; by left|]. lia.
Defined.


(** ** Snapshots without keys *)

(** A leader prepares a write of [v] ([None] deletes), and applies it at [idx]. *)
Definition propose (d : DB) (k : bytes) (v : option bytes) : option (DB * bytes) :=
  let '(d1, t) := Begin d in
  match (match v with Some v => txn_Put t k v | None => txn_Delete t k end) with
  | Ok t1 => match PrepareCommit d1 t1 with Some (d2, _, Ok (Some (e, _))) => Some (d2, e) | _ => None end
  | _ => None
  end.

Definition apply_at (d : DB) (idx : Z) (e : bytes) : option DB :=
  match ApplyEntry d (MkDisk ∅ None None) idx e with Some (d', _, None) => Some d' | _ => None end.

Definition opened_from (disk : Disk) : option DB :=
  match OpenWith None disk (MkOptions true 0 2 true) (fun _ _ => false) with Ok d => Some d | _ => None end.

(** A node writes "k" twice and deletes it; its snapshot, which has no keys, is
    installed on a second node; that node becomes leader (its first entry is a
    no-op) and writes "k".  Both apply the same two entries. *)
Definition empty_snapshot_run : option (outcome error bytes * outcome error bytes * (Z * Z)) :=
  d0 ← opened_from (MkDisk ∅ None None);
  '(d, e1) ← propose d0 [x6b] (Some [x31]); d ← apply_at d 1 e1;
  '(d, e2) ← propose d [x6b] (Some [x32]); d ← apply_at d 2 e2;
  '(d, e3) ← propose d [x6b] None; d ← apply_at d 3 e3;
  '(d, res) ← SnapshotScan d;
  match res with
  | Ok (it, idx, ts) =>
      '(_, rs) ← collect 10 it;
      match BuildSnapshotDB (kvs_of rs) (SessionTable d) idx ts with
      | Ok disk =>
          f ← opened_from disk;
          match PrepareNoop f with
          | (f, Ok (e4, _)) =>
              f ← apply_at f 4 e4; d ← apply_at d 4 e4;
              '(f, e5) ← propose f [x6b] (Some [x33]);
              f ← apply_at f 5 e5; d ← apply_at d 5 e5;
              Some ((Get f [x6b]).2, (Get d [x6b]).2, (appliedIndex f, appliedIndex d))
          | _ => None
          end
      | _ => None
      end
  | _ => None
  end.

(** A snapshot with no live keys forgets the timestamps: the node that
    installed it starts again at timestamp one, so as a leader it stamps new
    writes below the tombstones the other nodes still hold.  After both nodes
    have applied the same five entries, the write is visible on one and missing
    on the other. *)
Theorem empty_snapshot_diverges :
  empty_snapshot_run = Some (Ok [x33], Err ErrKeyNotFound, (5, 5)).
Proof. vm_compute. reflexivity. Qed.


End snapshot.
