(* ===== verification/KV.v ===== *)
(** * Key-value stores

    The interface through which the shell uses a store (internal/repl/repl.go,
    [Store]), and what it promises: an open store stands for a map, and [Put],
    [Delete] and [Get] are insertion, removal and lookup.  The promise has the
    limits the storage engine has: keys none of which extends another, and a
    budget of bytes. *)

From Stdlib Require Import ZArith Lia.
From Stdlib Require Import Strings.Byte.
From stdpp Require Import base list gmap.
From S2P Require Import Prelude.
From S2P Require Import MvccKey.

#[local] Open Scope Z_scope.

Module kv.

Abbreviation contents := (gmap bytes bytes).

(** [None] is a panic. *)
Class Store (S E : Type) := {
  Put : bytes -> bytes -> S -> option (S * option E);
  Get : bytes -> S -> option (S * (E + bytes));
  Delete : bytes -> S -> option (S * option E);
  not_found : E -> bool
}.

(** What a write takes of the budget: more than its log record and its place in
    the memtable. *)
Definition cost (k v : bytes) : Z := 4 * len k + 4 * len v + 400.
Definition capacity : Z := 2 ^ 55.

(** Keys the engine can tell apart: text, none a prefix of another. *)
Definition key_set (K : bytes -> Prop) : Prop :=
  forall k, K k -> text_key k /\ len k < 2 ^ 31 /\ forall k', K k' -> k `prefix_of` k' -> k' = k.

(** [represents K n s m]: [s] holds [m], has only ever held keys of [K], and [n]
    of the budget is spent. *)
Class MapStore (S E : Type) {ST : Store S E} := {
  represents : (bytes -> Prop) -> Z -> S -> contents -> Prop;
  Put_law K n s m k v :
    key_set K -> represents K n s m -> K k -> len v < 2 ^ 31 -> n + cost k v <= capacity ->
    exists s', Put k v s = Some (s', None) /\ represents K (n + cost k v) s' (<[k := v]> m);
  Delete_law K n s m k :
    key_set K -> represents K n s m -> K k -> n + cost k [] <= capacity ->
    exists s', Delete k s = Some (s', None) /\ represents K (n + cost k []) s' (delete k m);
  Get_law K n s m k :
    key_set K -> represents K n s m -> K k -> n <= capacity ->
    exists s' r, Get k s = Some (s', r) /\ represents K n s' m
      /\ match m !! k with Some v => r = inr v | None => exists e, r = inl e /\ not_found e = true end
}.

(** The map itself. *)
#[export] Instance map_store : Store contents unit := {
  Put k v m := Some (<[k := v]> m, None);
  Get k m := Some (m, match m !! k with Some v => inr v | None => inl tt end);
  Delete k m := Some (delete k m, None);
  not_found _ := true
}.

(** ** Operations as data *)

Inductive op := OPut (k v : bytes) | OGet (k : bytes) | ODelete (k : bytes).

Definition op_key (o : op) : bytes := match o with OPut k _ | OGet k | ODelete k => k end.
Definition op_value (o : op) : bytes := match o with OPut _ v => v | _ => [] end.
Definition op_cost (o : op) : Z := match o with OGet _ => 0 | _ => cost (op_key o) (op_value o) end.

(** The answers: the value read, if there is one, and otherwise the error. *)
Inductive answer (E : Type) := Done (e : option E) | Read (r : E + bytes).
#[global] Arguments Done {E}.
#[global] Arguments Read {E}.

Section run.
Context {S E : Type} {ST : Store S E}.

Definition do_op (o : op) (s : S) : option (S * answer E) :=
  match o with
  | OPut k v => '(s', e) ← Put k v s; Some (s', Done e)
  | OGet k => '(s', r) ← Get k s; Some (s', Read r)
  | ODelete k => '(s', e) ← Delete k s; Some (s', Done e)
  end.

End run.

(** The same answer, whatever the error for an absent key is called. *)
Definition same_answer {S1 E1 S2 E2} {ST1 : Store S1 E1} {ST2 : Store S2 E2} (a : answer E1) (b : answer E2) : Prop :=
  match a, b with
  | Done None, Done None => True
  | Read (inr v), Read (inr w) => v = w
  | Read (inl e), Read (inl e') => not_found (S := S1) e = true /\ not_found (S := S2) e' = true
  | _, _ => False
  end.

Lemma cost_pos k v : 400 <= cost k v.
Proof. unfold cost. pose proof (len_nonneg k). pose proof (len_nonneg v). lia. Qed.

Lemma op_cost_nonneg o : 0 <= op_cost o.
Proof. destruct o as [k v|k|k]; cbn [op_cost op_key op_value]; [pose proof (cost_pos k v)|done|pose proof (cost_pos k [])]; lia. Qed.

End kv.
