(* ===== verification/DbMap.v ===== *)
(** * The storage engine is a key-value map

    The engine of Db.v as a [Store], and the promise of KV.v kept: any sequence
    of puts, deletes and gets on an open store, with crashes of the process and
    reopenings in between, gives what the same sequence gives on a finite map,
    whatever was flushed to tables. *)

From Stdlib Require Import ZArith Lia.
From Stdlib Require Import Strings.Byte.
From stdpp Require Import base list gmap sorting.
From S2P Require Import Prelude.
From S2P Require Import MvccKey.
From S2P Require Import OrderedMap.
From S2P Require Import Skiplist.
From S2P Require Import Versions.
From S2P Require Import Memtable.
From S2P Require Import RecordFmt.
From S2P Require Import Wal.
From S2P Require Import SSTable.
From S2P Require Import DbDisk.
From S2P Require Import Db.
From S2P Require Import Layers.
From S2P Require Import DbReplay.
From S2P Require Import DbStore.
From S2P Require Import KV.

#[local] Open Scope Z_scope.

Module dbmap.
Import db replay store kv.

(** A store without a commit override, so [Delegated] does not occur. *)
Definition written (r : option (DB * Disk * commit_result)) : option ((DB * Disk) * option error) :=
  '(d, disk, c) ← r;
  match c with Committed => Some ((d, disk), None) | Failed e => Some ((d, disk), Some e) | Delegated => None end.

#[export] Instance db_store : Store (DB * Disk) error := {
  Put k v s := written (db.Put s.1 s.2 k v);
  Get k s := let '(d, r) := db.Get s.1 k in
             match r with Ok v => Some ((d, s.2), inr v) | Err e => Some ((d, s.2), inl e) | Panic => None end;
  Delete k s := written (db.Delete s.1 s.2 k);
  not_found e := match e with ErrKeyNotFound => true | _ => false end
}.

(** ** What an open store represents *)

Definition only_keys (K : bytes -> Prop) (V : vmap) : Prop := forall k t, is_Some (V !! (k, t)) -> K k /\ 0 <= t.

Definition records_ok (V : vmap) : Prop :=
  forall k t op v, V !! (k, t) = Some (op, v) -> record.wf (record.MkRec op t (Encode k t) v).

Record holds_map (K : bytes -> Prop) (n : Z) (d : DB) (m : kv.contents) (VM : vmap) (tables : list adds) : Prop := {
  hm_models : models d VM None tables;
  hm_logged : logged d VM;
  hm_open : closed d = false;
  hm_own : commitOverride d = false;
  hm_index : is_u64 (appliedIndex d);
  hm_last : appliedTS d = nextTimestamp d - 1;
  hm_keys : only_keys K (store.contents VM None tables);
  hm_live : forall k v, m !! k = Some v <-> live (store.contents VM None tables) k (appliedTS d) v;
  hm_records : records_ok VM;
  hm_spent : Memtable.footprint VM + len (wal.f (db_wal d)) + nextTimestamp d <= n
}.

Definition represents (K : bytes -> Prop) (n : Z) (s : DB * Disk) (m : kv.contents) : Prop :=
  exists VM tables, holds_map K n s.1 m VM tables.

Lemma spent_bounds K n d m VM tables : holds_map K n d m VM tables ->
  0 <= Memtable.footprint VM <= n /\ 0 <= len (wal.f (db_wal d)) <= n /\ 1 <= nextTimestamp d <= n.
Proof.
  intros [Hm _ _ _ _ _ _ _ _ Hs]. pose proof (Memtable.footprint_nonneg VM). pose proof (len_nonneg (wal.f (db_wal d))).
  pose proof (sm_next _ _ _ _ Hm). lia.
Qed.

Lemma map_text K n d m VM tables : key_set K -> n <= capacity -> holds_map K n d m VM tables ->
  text_map (store.contents VM None tables).
Proof.
  intros HK Hn H k t Ht. pose proof (spent_bounds _ _ _ _ _ _ H) as (_ & _ & ?). unfold capacity in Hn.
  destruct (hm_keys _ _ _ _ _ _ H k t Ht) as [Hk Ht0]. split; [by apply HK|].
  pose proof (sm_below _ _ _ _ (hm_models _ _ _ _ _ _ H) k t Ht). unfold small_ts. lia.
Qed.

Lemma holds_map_frame K n d d' m VM tables :
  holds_map K n d m VM tables -> memtable d' = memtable d -> frozen d' = frozen d ->
  Forall2 table_ok (sstables d') tables -> nextTimestamp d' = nextTimestamp d -> db_wal d' = db_wal d ->
  closed d' = closed d -> commitOverride d' = commitOverride d -> appliedIndex d' = appliedIndex d ->
  appliedTS d' = appliedTS d -> holds_map K n d' m VM tables.
Proof.
  intros [] E1 E2 Ht E3 E4 E5 E6 E7 E8. split; rewrite ?E3, ?E4, ?E5, ?E6, ?E7, ?E8; try done.
  - by apply (models_frame d).
  - apply (logged_frame d); [done..|]. rewrite E3. lia.
Qed.

(** ** Reads *)

(** At or above all timestamps of a key it does not matter at which one reads. *)
Lemma live_after V k s s' v :
  (forall t, is_Some (V !! (k, t)) -> t <= s /\ t <= s') -> live V k s v <-> live V k s' v.
Proof.
  intros Hb. unfold live, visible.
  split; intros (t & op & (H1 & H2 & H3) & H4); exists t, op; (split; [|done]); pose proof (Hb t (mk_is_Some _ _ H1));
    split_and!; try done; try lia; intros t' ov' Ht' _; apply (H3 t' ov' Ht'); pose proof (Hb t' (mk_is_Some _ _ Ht')); lia.
Qed.

Lemma get_step K n d m VM tables k :
  key_set K -> holds_map K n d m VM tables -> K k -> n <= capacity ->
  exists d' r, db.Get d k = (d', r) /\ holds_map K n d' m VM tables /\ (sstableIDs d' = sstableIDs d /\ nextID d' = nextID d)
    /\ match m !! k with Some v => r = Ok v | None => r = Err ErrKeyNotFound end.
Proof.
  intros HK H Hk Hn. pose proof (map_text _ _ _ _ _ _ HK Hn H) as Htext.
  pose proof (spent_bounds _ _ _ _ _ _ H) as (_ & _ & Hts). unfold capacity in Hn.
  unfold db.Get. rewrite (hm_open _ _ _ _ _ _ H).
  destruct (getAsOfSnapshot_spec d VM None tables k (nextTimestamp d) (hm_models _ _ _ _ _ _ H)) as (ssts & res & -> & Ht & Hs);
    [by left|lia|].
  eexists _, _. split; [done|]. split; [by apply (holds_map_frame _ _ d); try done|]. split; [done|].
  assert (forall v, live (store.contents VM None tables) k (nextTimestamp d) v <-> m !! k = Some v) as Hlive.
  { intros v. rewrite (hm_live _ _ _ _ _ _ H), (hm_last _ _ _ _ _ _ H). apply live_after. intros t Htk.
    pose proof (sm_below _ _ _ _ (hm_models _ _ _ _ _ _ H) k t Htk). lia. }
  pose proof (client_live _ _ _ _ Hs) as Hc. destruct (client res) as [v|e|]; [| |done].
  - apply Hlive in Hc. by rewrite Hc.
  - destruct Hc as [-> Hno]. destruct (m !! k) as [v|] eqn:E; [|done]. by destruct (Hno v); apply Hlive.
Qed.

(** ** Writes *)

(** What is live just after one write. *)
Lemma live_write V V' t ts k op v k' w :
  newer_than_all V ts -> stamped V t ts V' -> writes t = {[k := (op, v)]} ->
  live V' k' ts w <-> if decide (k' = k) then op <> OpDelete /\ w = v else live V k' (ts - 1) w.
Proof.
  intros Hnew Hst Hw. pose proof (Hst k' ts) as Hts. rewrite decide_True, Hw in Hts by done.
  assert (forall t', t' <> ts -> V' !! (k', t') = V !! (k', t')) as Hold by (intros t' Ht'; by rewrite Hst, decide_False).
  case_decide as Hk.
  - subst k'. rewrite lookup_singleton_eq in Hts. split.
    + intros (t1 & op1 & (H1 & H2 & H3) & H4). assert (t1 = ts) as -> by (specialize (H3 _ _ Hts); lia).
      by rewrite Hts in H1; simplify_eq.
    + intros [Hop ->]. exists ts, op. split; [|done]. split_and!; [done|lia|lia].
  - rewrite lookup_singleton_ne in Hts by done. split.
    + intros (t1 & op1 & (H1 & H2 & H3) & H4). exists t1, op1. assert (t1 <> ts) by (intros ->; congruence).
      rewrite Hold in H1 by done. split; [|done]. split_and!; [done|lia|]. intros t' ov' Ht' Hle.
      apply (H3 t' ov'); [|lia]. by rewrite Hold by lia.
    + intros (t1 & op1 & (H1 & H2 & H3) & H4). exists t1, op1. split; [|done]. split_and!; [by rewrite Hold by lia|lia|].
      intros t' ov' Ht' Hle. destruct (decide (t' = ts)) as [->|Hne]; [congruence|]. rewrite Hold in Ht' by done.
      apply (H3 t' ov' Ht'). lia.
Qed.

Section write.
Context (k : bytes) (op : byte) (v : bytes).
Context (Hop : op = OpPut \/ (op, v) = (OpDelete, [])) (Hlk : len k < 2 ^ 31) (Hlv : len v < 2 ^ 31).

Definition one_write (t : Txn) : Txn := set_writes t {[k := (op, v)]}.

Lemma one_write_ok t : txn_ok (one_write t).
Proof.
  intros k' ov H. cbn in H. apply lookup_singleton_Some in H as [<- <-]. cbn.
  split_and!; [|lia..]. destruct Hop as [->|E]; [by left|by right].
Qed.

Lemma one_write_records t ts : dataRecords (one_write t) ts = [record.MkRec op ts k v].
Proof.
  unfold dataRecords, sortedKeys, one_write. cbn [writes set_writes]. rewrite map_to_list_singleton. cbn.
  by rewrite lookup_singleton_eq.
Qed.

Lemma one_write_mem t ts VM : put_recs VM (dataRecords (one_write t) ts) = <[(k, ts) := (op, v)]> VM.
Proof.
  rewrite one_write_records. unfold put_recs, put_rec. cbn. f_equal. f_equal. case_decide as E; [done|].
  destruct Hop as [->|[= -> ->]]; done.
Qed.

Lemma one_write_size t ts : entry_size (one_write t) ts = 42 + len k + len v.
Proof.
  unfold entry_size. rewrite one_write_records, record.encs_cons, app_nil_r, record.len_record_Encode.
  unfold record.size, record.HeaderSize. cbn. lia.
Qed.

Lemma records_insert VM ts : is_u64 ts -> records_ok VM -> records_ok (<[(k, ts) := (op, v)]> VM).
Proof.
  intros Hts H k' t' op' v' Hl. apply lookup_insert_Some in Hl as [[[= <- <-] [= <- <-]]|[_ Hl]]; [|by apply H].
  split; cbn; [destruct Hop as [->|[= -> _]]; done|]. rewrite len_Encode. unfold record.HeaderSize. split_and!; [done|lia..].
Qed.

Lemma footprint_write VM ts : Memtable.footprint (<[(k, ts) := (op, v)]> VM) <= Memtable.footprint VM + len k + len v + 200.
Proof.
  rewrite Memtable.footprint_insert. unfold Memtable.cost, TimestampSize, Memtable.entryOverhead. cbn [fst snd].
  destruct (VM !! (k, ts)) as [ov|]; [|lia]. pose proof (len_nonneg k). pose proof (len_nonneg ov.2). lia.
Qed.

Lemma write_step K n d disk m VM tables :
  key_set K -> holds_map K n d m VM tables -> K k -> n + kv.cost k v <= capacity ->
  let t := one_write (Begin d).2 in
  exists d' disk' VM' tables', Commit (Begin d).1 disk t = Some (d', disk', finish t, Committed)
    /\ holds_map K (n + kv.cost k v) d' (if decide (op = OpDelete) then delete k m else <[k := v]> m) VM' tables'
    /\ filed d disk tables d' disk' tables'.
Proof.
  intros HK H Hk Hn t. set (d1 := (Begin d).1). unfold kv.cost, capacity in *.
  pose proof (len_nonneg k) as Hk0. pose proof (len_nonneg v) as Hv0.
  assert (holds_map K n d1 m VM tables) as H1 by (apply (holds_map_frame K n d); try done; apply H).
  pose proof (map_text K n d1 m VM tables HK ltac:(unfold capacity; lia) H1) as Htext.
  pose proof (spent_bounds _ _ _ _ _ _ H1) as (Hfp & Hlog & Hts).
  assert (is_u64 (nextTimestamp d1)) as Hu by (unfold is_u64; lia).
  pose proof H1 as [Hm Hl Hc Ho Hi Ha Hkeys Hlive Hrec Hs].
  destruct (Commit_run d1 disk t VM tables Hm Hl) as (d' & disk' & r & VM' & tables' & E & Hm' & Hl' & Hg & Hcase).
  - done.
  - done.
  - done.
  - apply map_non_empty_singleton.
  - apply one_write_ok.
  - intros k' [ov Hk']. cbn in Hk'. apply lookup_singleton_Some in Hk' as [<- _]. split; [done|].
    split; [by apply HK|]. intros k' t' Ht' Hp. destruct (Hkeys k' t' Ht') as [Hk' _]. by apply (HK k).
  - lia.
  - unfold log_room, t. rewrite one_write_size. lia.
  - unfold t. rewrite one_write_mem. split; [by apply records_insert|].
    pose proof (footprint_write VM (nextTimestamp d1)). lia.
  - done.
  - destruct Hcase as [(_ & _ & _ & _ & k' & _ & t' & Ht' & Hlt)|(-> & Hst & Hnx & Hap & _)].
    { exfalso. pose proof (sm_below _ _ _ _ Hm k' t' Ht'). change (readSnap t) with (appliedTS d1) in Hlt. lia. }
    exists d', disk', VM', tables'. split; [done|]. destruct Hg as [G1 G2 G3 G4 G5 G6].
    split; [|exact G6]. split; rewrite ?G1, ?G2, ?G3; try done.
    + rewrite Hap, Hnx. lia.
    + intros k' t' [ov Ht']. rewrite Hst in Ht'. case_decide as Hd; [|by apply (Hkeys k' t')]. subst t'.
      cbn in Ht'. apply lookup_singleton_Some in Ht' as [<- _]. split; [done|lia].
    + intros k' w. rewrite Hap, (live_write _ _ t _ k op v k' w (sm_below _ _ _ _ Hm) Hst eq_refl).
      specialize (Hlive k' w). rewrite Ha in Hlive.
      destruct (decide (op = OpDelete)) as [Eo|Eo], (decide (k' = k)) as [->|Ek].
      * rewrite lookup_delete_eq. split; [done|by intros [? _]].
      * by rewrite lookup_delete_ne by done.
      * rewrite lookup_insert_eq. split; [by intros [= ->]|by intros [_ ->]].
      * by rewrite lookup_insert_ne by done.
    + destruct G5 as [->|[->| ->]]; [done| |].
      * intros k' t' op' v' Hl0. by rewrite lookup_empty in Hl0.
      * unfold t. rewrite one_write_mem. by apply records_insert.
    + rewrite Hnx. unfold t in G4. rewrite one_write_size in G4.
      assert (Memtable.footprint VM' <= Memtable.footprint VM + len k + len v + 200); [|lia].
      destruct G5 as [->|[->| ->]]; [lia|rewrite Memtable.footprint_empty; lia|].
      unfold t. rewrite one_write_mem. apply footprint_write.
Qed.

End write.

(** ** The promise kept *)

Lemma put_step K n d disk m VM tables k v :
  key_set K -> holds_map K n d m VM tables -> K k -> len v < 2 ^ 31 -> n + kv.cost k v <= capacity ->
  exists d' disk' VM' tables', kv.Put k v (d, disk) = Some ((d', disk'), None)
    /\ holds_map K (n + kv.cost k v) d' (<[k := v]> m) VM' tables' /\ filed d disk tables d' disk' tables'.
Proof.
  intros HK H Hk Hv Hn. destruct (HK k Hk) as (_ & Hl & _).
  destruct (write_step k OpPut v ltac:(by left) Hl Hv K n d disk m VM tables HK H Hk Hn) as (d' & disk' & VM' & tables' & E & H' & Hf).
  exists d', disk', VM', tables'. split; [|done]. cbn. unfold db.Put. cbn. unfold one_write, Begin in E. cbn in E.
  change (<[k:=(OpPut, v)]> ∅) with ({[k := (OpPut, v)]} : gmap bytes (byte * bytes)). by rewrite E.
Qed.

Lemma delete_step K n d disk m VM tables k :
  key_set K -> holds_map K n d m VM tables -> K k -> n + kv.cost k [] <= capacity ->
  exists d' disk' VM' tables', kv.Delete k (d, disk) = Some ((d', disk'), None)
    /\ holds_map K (n + kv.cost k []) d' (delete k m) VM' tables' /\ filed d disk tables d' disk' tables'.
Proof.
  intros HK H Hk Hn. destruct (HK k Hk) as (_ & Hl & _).
  destruct (write_step k OpDelete [] ltac:(by right) Hl ltac:(done) K n d disk m VM tables HK H Hk Hn)
    as (d' & disk' & VM' & tables' & E & H' & Hf).
  exists d', disk', VM', tables'. split; [|done]. cbn. unfold db.Delete. cbn. unfold one_write, Begin in E. cbn in E.
  change (<[k:=(OpDelete, [])]> ∅) with ({[k := (OpDelete, [])]} : gmap bytes (byte * bytes)). by rewrite E.
Qed.

#[export] Program Instance db_map : MapStore (DB * Disk) error := {| kv.represents := represents |}.
Next Obligation.
  intros K n [d disk] m k v HK (VM & tables & H) Hk Hv Hn.
  destruct (put_step K n d disk m VM tables k v HK H Hk Hv Hn) as (d' & disk' & VM' & tables' & E & H' & _).
  exists (d', disk'). split; [done|]. by exists VM', tables'.
Qed.
Next Obligation.
  intros K n [d disk] m k HK (VM & tables & H) Hk Hn.
  destruct (delete_step K n d disk m VM tables k HK H Hk Hn) as (d' & disk' & VM' & tables' & E & H' & _).
  exists (d', disk'). split; [done|]. by exists VM', tables'.
Qed.
Next Obligation.
  intros K n [d disk] m k HK (VM & tables & H) Hk Hn.
  destruct (get_step K n d m VM tables k HK H Hk Hn) as (d' & r & E & H' & _ & Hr).
  exists (d', disk). cbn. rewrite E. destruct (m !! k) as [v|]; subst r; eexists; (split; [done|]); (split; [by exists VM, tables|]); [done|].
  by exists ErrKeyNotFound.
Qed.

(** An empty store holds the empty map. *)
Lemma start_holds K d disk : start_db = Some d -> kv.represents K 1 (d, disk) ∅.
Proof.
  intros E. destruct (start_facts d E) as (Hm & Hlog & Hc & Ho & Hn & Ha & _ & Hw).
  assert (appliedTS <$> start_db = Some 0) as Hts by (vm_compute; reflexivity). rewrite E in Hts. injection Hts as Hts.
  exists ∅, []. cbn [fst]. split; try done.
  - rewrite Ha. by_decide.
  - by rewrite Hts, Hn.
  - intros k t [ov H]. by rewrite contents_start, lookup_empty in H.
  - intros k v. rewrite contents_start, lookup_empty. split; [done|]. intros (t & op & (H & _) & _). by rewrite lookup_empty in H.
  - rewrite Hw, Hn. by_decide.
Qed.

(** ** Crashes *)

(** The directory of an open store that has written fewer than [c] tables. *)
Record on_disk (c : Z) (d : DB) (disk : Disk) (tables : list adds) : Prop := {
  od_files : Forall2 (fun id a => exists file, d_ssts disk !! id = Some file /\ opens_as file a) (sstableIDs d) tables;
  od_only : forall id, is_Some (d_ssts disk !! id) -> id ∈ sstableIDs d;
  od_sorted : StronglySorted (fun a b => b < a) (sstableIDs d);
  od_ids : Forall (fun id => 0 <= id < nextID d) (sstableIDs d);
  od_next : 1 <= nextID d <= c
}.

Lemma on_disk_frame c d d' disk tables :
  on_disk c d disk tables -> sstableIDs d' = sstableIDs d -> nextID d' = nextID d -> on_disk c d' disk tables.
Proof. intros [] E1 E2. split; by rewrite ?E1, ?E2. Qed.

Lemma on_disk_filed c d disk tables d' disk' tables' :
  on_disk c d disk tables -> filed d disk tables d' disk' tables' -> on_disk (c + 1) d' disk' tables'.
Proof.
  intros [Hf Ho Hs Hi Hn] [(E1 & E2 & E3 & ->)|(file & a & E1 & E2 & E3 & -> & Hop)].
  - split; rewrite ?E1, ?E2, ?E3; try done. lia.
  - assert (nextID d ∉ sstableIDs d) as Hfresh by (intros Hin; rewrite Forall_forall in Hi; specialize (Hi _ Hin); lia).
    split; rewrite ?E1, ?E2, ?E3; [| | | |lia].
    + constructor; [exists file; by rewrite lookup_insert_eq|]. apply Forall2_same_length_lookup in Hf as [Hl Hf].
      apply Forall2_same_length_lookup. split; [done|]. intros i id a' Hid Ha. destruct (Hf i id a' Hid Ha) as (f & Hfl & Ha').
      exists f. rewrite lookup_insert_ne; [done|]. intros <-. by apply Hfresh, (list_elem_of_lookup_2 _ i).
    + intros id Hid. destruct (decide (id = nextID d)) as [->|Hne]; [by left|right].
      rewrite lookup_insert_ne in Hid by done. by apply Ho.
    + constructor; [done|]. eapply Forall_impl; [exact Hi|]. cbn. intros id. lia.
    + constructor; [lia|]. eapply Forall_impl; [exact Hi|]. cbn. intros id. lia.
Qed.

Lemma on_disk_files_ok c d disk tables : on_disk c d disk tables -> c <= 10 ^ 6 -> files_ok disk (sstableIDs d) tables.
Proof.
  intros [Hf Ho Hs Hi Hn] Hc. split; [|done|done|].
  - eapply Forall2_impl; [exact Hf|]. intros id a (file & E & r & Er & Ht & Hm & _). by exists file, r.
  - eapply Forall_impl; [exact Hi|]. cbn. intros id. lia.
Qed.

(** The process dies and the directory is opened again. *)
Definition reopen (o : Options) (c : coins) (s : DB * Disk) : option (DB * Disk) :=
  match OpenWith (Some (wal.f (db_wal s.1))) s.2 o c with Ok d => Some (d, s.2) | _ => None end.

Lemma reopen_step K n c d disk m VM tables o cs :
  holds_map K n d m VM tables -> on_disk c d disk tables -> n <= capacity -> c <= 10 ^ 6 ->
  exists d', reopen o cs (d, disk) = Some (d', disk) /\ holds_map K n d' m VM tables /\ on_disk c d' disk tables.
Proof.
  intros H Hd Hn Hc. pose proof (spent_bounds _ _ _ _ _ _ H) as (_ & _ & Hts). unfold capacity in Hn.
  destruct (reopen_models d disk VM tables o cs (sstableIDs d) (hm_models _ _ _ _ _ _ H) (hm_logged _ _ _ _ _ _ H)
              (on_disk_files_ok c d disk tables Hd Hc) ltac:(lia)) as (d' & E & Hm' & Hl' & Hcl' & Hle & [R1 R2 R3 R4 R5 R6]).
  exists d'. unfold reopen. cbn [fst snd]. rewrite E. split; [done|]. split.
  - destruct H as [Hm Hlog Hop Hown Hix Hlast Hkeys Hlive Hrec Hspent].
    split; rewrite ?R5; try done; [|intros k v|lia].
    + apply R6. intros id file r Hin Hfile Hr. destruct Hd as [Hf _ _ _ _]. apply list_elem_of_lookup in Hin as [i Hi].
      destruct (Forall2_lookup_l _ _ _ _ _ Hf Hi) as (a & _ & file' & Hfile' & r' & Hr' & _ & _ & Hu).
      rewrite Hfile in Hfile'. injection Hfile' as <-. rewrite Hr in Hr'. by injection Hr' as <-.
    + rewrite (Hlive k v). apply live_after. intros t Ht. rewrite Hlast, R2.
      pose proof (sm_below _ _ _ _ Hm k t Ht). pose proof (sm_below _ _ _ _ Hm' k t Ht). lia.
  - destruct Hd as [Hf Ho Hs Hi Hx]. split; rewrite ?R3; try done.
    + rewrite R4. destruct (sstableIDs d) as [|id ids]; [by constructor|]. apply Forall_cons in Hi as [Hid Hi].
      apply StronglySorted_inv in Hs as [_ Hs]. constructor; [lia|]. rewrite Forall_forall in *. intros id' Hin.
      specialize (Hs id' Hin). specialize (Hi id' Hin). cbn in *. lia.
    + rewrite R4. destruct (sstableIDs d) as [|id ids]; [lia|]. apply Forall_cons in Hi as [Hid _]. lia.
Qed.

(** ** Runs *)

Inductive event := Do (o : op) | Reopen (o : Options) (c : coins).

(** An open store over its directory holds [m]; [n] bytes and [c] table ids are
    spent. *)
Definition durable (K : bytes -> Prop) (n c : Z) (s : DB * Disk) (m : kv.contents) : Prop :=
  exists VM tables, holds_map K n s.1 m VM tables /\ on_disk c s.1 s.2 tables.

Definition event_cost (e : event) : Z := match e with Do o => op_cost o | Reopen _ _ => 0 end.
Definition event_ok (K : bytes -> Prop) (e : event) : Prop :=
  match e with Do o => K (op_key o) /\ len (op_value o) < 2 ^ 31 | Reopen _ _ => True end.

(** The answers of the operations; a crash has none, and leaves a map alone. *)
Definition do_event (e : event) (s : DB * Disk) : option ((DB * Disk) * list (answer error)) :=
  match e with
  | Do o => '(s', a) ← do_op o s; Some (s', [a])
  | Reopen o c => s' ← reopen o c s; Some (s', [])
  end.

Definition do_map (e : event) (m : kv.contents) : option (kv.contents * list (answer unit)) :=
  match e with
  | Do o => '(m', a) ← do_op o m; Some (m', [a])
  | Reopen _ _ => Some (m, [])
  end.

Fixpoint do_all {A B} (f : event -> A -> option (A * list B)) (es : list event) (s : A) : option (A * list B) :=
  match es with
  | [] => Some (s, [])
  | e :: es' => '(s1, a) ← f e s; '(s2, l) ← do_all f es' s1; Some (s2, a ++ l)
  end.

Definition events_cost (es : list event) : Z := foldr (fun e n => event_cost e + n) 0 es.

Lemma event_cost_nonneg e : 0 <= event_cost e.
Proof. destruct e as [o|o c]; [apply op_cost_nonneg|done]. Qed.

Lemma events_cost_nonneg es : 0 <= events_cost es.
Proof.
  induction es as [|e es IH]; [done|]. change (events_cost (e :: es)) with (event_cost e + events_cost es).
  pose proof (event_cost_nonneg e). lia.
Qed.

Section events.
Context (K : bytes -> Prop) (HK : key_set K).

Abbreviation agree := (Forall2 (same_answer (S1 := DB * Disk) (S2 := kv.contents))).

Lemma event_step n c s m e :
  durable K n c s m -> event_ok K e -> n + event_cost e <= capacity -> c <= 10 ^ 6 ->
  exists s' l m' l', do_event e s = Some (s', l) /\ do_map e m = Some (m', l')
    /\ durable K (n + event_cost e) (c + 1) s' m' /\ agree l l'.
Proof.
  destruct s as [d disk]. intros (VM & tables & H & Hd) He Hn Hc. cbn [fst snd] in *.
  assert (forall d', on_disk c d' disk tables -> on_disk (c + 1) d' disk tables) as Hmore.
  { intros d' [? ? ? ? ?]. split; try done. lia. }
  destruct e as [[k v|k|k]|o cs]; cbn [event_ok event_cost op_key op_value op_cost] in *.
  - destruct He as [Hk Hv].
    destruct (put_step K n d disk m VM tables k v HK H Hk Hv Hn) as (d' & disk' & VM' & tables' & E & H' & Hf).
    unfold do_event, do_op. rewrite E. exists (d', disk'), [Done None], (<[k := v]> m), [Done None].
    split; [done|]. split; [done|]. split; [|by repeat constructor]. exists VM', tables'. split; [done|]. by eapply on_disk_filed.
  - destruct He as [Hk _]. destruct (get_step K n d m VM tables k HK H Hk ltac:(lia)) as (d' & r & E & H' & [E1 E2] & Hr).
    rewrite Z.add_0_r. assert (exists a, do_event (Do (OGet k)) (d, disk) = Some ((d', disk), [Read a])
      /\ match m !! k with Some v => a = inr v | None => a = inl ErrKeyNotFound end) as (a & Ea & Ha).
    { unfold do_event, do_op. cbn. rewrite E. destruct (m !! k) as [v|]; subst r; by eexists. }
    rewrite Ea. eexists _, _, m, _. split; [done|]. split; [done|].
    split; [exists VM, tables; split; [done|]; by apply Hmore, (on_disk_frame c d)|]. constructor; [|constructor].
    destruct (m !! k) as [v|]; by subst a.
  - destruct He as [Hk _].
    destruct (delete_step K n d disk m VM tables k HK H Hk Hn) as (d' & disk' & VM' & tables' & E & H' & Hf).
    unfold do_event, do_op. rewrite E. exists (d', disk'), [Done None], (delete k m), [Done None].
    split; [done|]. split; [done|]. split; [|by repeat constructor]. exists VM', tables'. split; [done|]. by eapply on_disk_filed.
  - destruct (reopen_step K n c d disk m VM tables o cs H Hd ltac:(lia) Hc) as (d' & E & H' & Hd').
    rewrite Z.add_0_r. unfold do_event. rewrite E. exists (d', disk), [], m, [].
    split; [done|]. split; [done|]. split; [|constructor]. exists VM, tables. split; [done|by apply Hmore].
Qed.

Lemma events_run es : forall n c s m,
  durable K n c s m -> Forall (event_ok K) es -> n + events_cost es <= capacity -> c + len es <= 10 ^ 6 ->
  exists s' l m' l', do_all do_event es s = Some (s', l) /\ do_all do_map es m = Some (m', l')
    /\ durable K (n + events_cost es) (c + len es) s' m' /\ agree l l'.
Proof.
  induction es as [|e es IH]; intros n c s m Hr Hok Hn Hc.
  - exists s, [], m, []. change (events_cost []) with 0. change (len (A := event) []) with 0. by rewrite !Z.add_0_r.
  - apply Forall_cons in Hok as [He Hok]. change (events_cost (e :: es)) with (event_cost e + events_cost es) in *.
    rewrite len_cons in *. pose proof (events_cost_nonneg es). pose proof (len_nonneg es).
    destruct (event_step n c s m e Hr He ltac:(lia) ltac:(lia)) as (s1 & a & m1 & b & E1 & E2 & Hr1 & Ha).
    destruct (IH (n + event_cost e) (c + 1) s1 m1 Hr1 Hok ltac:(lia) ltac:(lia)) as (s2 & l & m2 & l' & E3 & E4 & Hr2 & Hl).
    exists s2, (a ++ l), m2, (b ++ l'). cbn [do_all]. rewrite E1, E2. cbn [mbind option_bind]. rewrite E3, E4.
    split; [done|]. split; [done|]. rewrite !Z.add_assoc. split; [done|by apply Forall2_app].
Qed.

End events.

(** C5. The store is a durable map.  On an open store that holds [m], any sequence
    of [Put], [Delete], [Get] and crashes of the process, each followed by opening
    the directory again, over text keys none of which extends another, within
    2^55 bytes and 10^6 events: everything succeeds and answers as the same
    sequence does on the map [m], where a crash does nothing: a get returns the
    value last put, or ErrKeyNotFound if there is none or it was deleted since; and
    the store then holds what the map does.  It does not matter which writes went
    from the memtable to tables in between; compactions are not among the events. *)
Theorem db_is_a_map K n c (s : DB * Disk) m es :
  key_set K -> durable K n c s m -> Forall (event_ok K) es -> n + events_cost es <= capacity -> c + len es <= 10 ^ 6 ->
  exists s' l m' l', do_all do_event es s = Some (s', l) /\ do_all do_map es m = Some (m', l')
    /\ durable K (n + events_cost es) (c + len es) s' m'
    /\ Forall2 (same_answer (S1 := DB * Disk) (S2 := kv.contents)) l l'.
Proof. intros HK. apply (events_run K HK). Qed.

Definition one_key (k : bytes) : Prop := k = [x61].

Lemma one_key_set : key_set one_key.
Proof. intros k ->. split; [by_decide|]. split; [by_decide|]. by intros k' ->. Qed.

Definition demo_events : list event :=
  [Do (OPut [x61] [x31]); Reopen (MkOptions true 0 2 true) (fun _ _ => false); Do (OGet [x61]); Do (ODelete [x61]);
   Reopen (MkOptions true 0 2 true) (fun _ _ => true); Do (OGet [x61])].

Lemma demo_events_ok : Forall (event_ok one_key) demo_events /\ 1 + events_cost demo_events <= capacity
  /\ 1 + len demo_events <= 10 ^ 6.
Proof. split; [|split; by_decide]. repeat constructor; by_decide. Qed.

Lemma demo_answers (m : kv.contents) l :
  do_all do_map demo_events (∅ : kv.contents) = Some (m, l) -> l = [Done None; Read (inr [x31]); Done None; Read (inl tt)].
Proof.
  intros H. assert (snd <$> do_all do_map demo_events (∅ : kv.contents) = Some [Done None; Read (inr [x31]); Done None; Read (inl tt)]) as E
    by (vm_compute; reflexivity). rewrite H in E. by injection E.
Qed.

Lemma start_durable K d : start_db = Some d -> durable K 1 1 (d, MkDisk ∅ None None) ∅.
Proof.
  intros E. destruct (start_holds K d (MkDisk ∅ None None) E) as (VM & tables & H). exists VM, tables. split; [exact H|].
  assert ((fun d => (sstableIDs d, nextID d, sstables d)) <$> start_db = Some ([], 1, [])) as Ef by (vm_compute; reflexivity).
  rewrite E in Ef. cbn in Ef. injection Ef as Ei Ex Es. pose proof (sm_tables _ _ _ _ (hm_models _ _ _ _ _ _ H)) as Ht.
  cbn [fst snd] in *. rewrite Es in Ht. apply Forall2_nil_inv_l in Ht as ->.
  split; rewrite ?Ei, ?Ex; try constructor; try done. intros id [f Hf]. cbn in Hf. by rewrite lookup_empty in Hf.
Qed.

Lemma db_is_a_map_witness :
  exists d s' l, start_db = Some d /\ do_all do_event demo_events (d, MkDisk ∅ None None) = Some (s', l)
    /\ Forall2 (same_answer (S1 := DB * Disk) (S2 := kv.contents)) l [Done None; Read (inr [x31]); Done None; Read (inl tt)].
Proof.
  destruct start_db as [d|] eqn:E; [|by vm_compute in E].
  destruct (db_is_a_map one_key 1 1 (d, MkDisk ∅ None None) ∅ demo_events one_key_set (start_durable one_key d E)
              (proj1 demo_events_ok) (proj1 (proj2 demo_events_ok)) (proj2 (proj2 demo_events_ok)))
    as (s' & l & m' & l' & E1 & E2 & _ & Hl).
  exists d, s', l. split; [reflexivity|]. split; [exact E1|]. rewrite (demo_answers m' l' E2) in Hl. exact Hl.
Defined.

End dbmap.
