(* ===== verification/Repl.v ===== *)
(** * The shell (internal/repl/repl.go)

    [Run] over any store: the lines of the input, the commands they hold, what is
    printed.  The input is all of it, the output is a list of pieces, an error of
    the store being one (its text is not modelled).  Over a store that keeps its
    promise (KV.v) a session prints what it prints over a map. *)

From Stdlib Require Import ZArith Lia.
From Stdlib Require Import Strings.Byte Strings.String.
From stdpp Require Import base list gmap.
From S2P Require Import Prelude.
From S2P Require Import MvccKey.
From S2P Require Import Db.
From S2P Require Import DbStore.
From S2P Require Import DbDisk.
From S2P Require Import KV.
From S2P Require Import DbMap.

#[local] Open Scope Z_scope.

Module repl.
Import kv.

(** ** The standard library's functions on strings

    [strings.Fields] and [strings.TrimSpace] look for the code points of
    [unicode.IsSpace], here by their UTF-8 forms: the first byte of a longer one
    never continues another character, so looking at every byte finds the same
    ones as decoding does. *)
Definition lit (s : string) : bytes := list_byte_of_string s.

Definition ascii_space (b : byte) : bool := bool_decide (b ∈ [x09; x0a; x0b; x0c; x0d; x20]).
Definition space2 (b c : byte) : bool := bool_decide ((b, c) ∈ [(xc2, x85); (xc2, xa0)]).
Definition space3 (b c d : byte) : bool :=
  bool_decide ((b, c, d) ∈ [(xe1, x9a, x80); (xe2, x80, x80); (xe2, x80, x81); (xe2, x80, x82); (xe2, x80, x83);
    (xe2, x80, x84); (xe2, x80, x85); (xe2, x80, x86); (xe2, x80, x87); (xe2, x80, x88); (xe2, x80, x89); (xe2, x80, x8a);
    (xe2, x80, xa8); (xe2, x80, xa9); (xe2, x80, xaf); (xe2, x81, x9f); (xe3, x80, x80)]).

(** The number of bytes of the white space at the front, 0 if there is none. *)
Definition space_len (s : bytes) : nat :=
  match s with
  | [] => 0
  | b :: s1 =>
      if ascii_space b then 1
      else match s1 with
           | [] => 0
           | c :: s2 =>
               if space2 b c then 2
               else match s2 with [] => 0 | d :: _ => if space3 b c d then 3 else 0 end
           end
  end.

Definition flush (cur : bytes) : list bytes := if decide (cur = []) then [] else [reverse cur].

(** [cur]: the word so far, backwards; [skip]: bytes of white space to go. *)
Fixpoint fields (s : bytes) (cur : bytes) (skip : nat) : list bytes :=
  match s with
  | [] => flush cur
  | b :: s' =>
      match skip with
      | S skip' => fields s' [] skip'
      | O => match space_len s with
             | O => fields s' (b :: cur) 0
             | S n => flush cur ++ fields s' [] n
             end
      end
  end.

Definition Fields (s : bytes) : list bytes := fields s [] 0.

Definition blank (s : bytes) : bool := bool_decide (Fields s = []).

Fixpoint trim_left (s : bytes) (skip : nat) : bytes :=
  match s with
  | [] => []
  | b :: s' => match skip with S skip' => trim_left s' skip' | O => match space_len s with O => s | S n => trim_left s' n end end
  end.

(** Cut where only white space follows. *)
Fixpoint trim_right (s : bytes) : bytes :=
  match s with [] => [] | b :: s' => if blank s then [] else b :: trim_right s' end.

Definition TrimSpace (s : bytes) : bytes := trim_right (trim_left s 0).

(** As far as it matters to a comparison with a word of ASCII capitals: besides
    the small letters, the dotless i and the long s have capitals in ASCII; all
    other characters stay out of it. *)
Definition upper (b : byte) : byte :=
  if decide (97 <= b2z b <= 122) then z2b (b2z b - 32) else b.

Fixpoint ToUpper (s : bytes) : bytes :=
  match s with
  | xc4 :: (xb1 :: s') => x49 :: ToUpper s'
  | xc5 :: (xbf :: s') => x53 :: ToUpper s'
  | b :: s' => upper b :: ToUpper s'
  | [] => []
  end.

(** ** The input

    [bufio.Scanner] with its lines: without the end of line, and a carriage
    return before it; a line of [maxLine] bytes or more is an error. *)
Definition maxLine : Z := 2 ^ 20.

Definition dropCR (line : bytes) : bytes := match reverse line with x0d :: l => reverse l | _ => line end.

(** The lines, and whether one was too long. *)
Fixpoint scan (input : bytes) (cur : bytes) : list bytes * bool :=
  match input with
  | [] =>
      if decide (cur = []) then ([], false)
      else if decide (maxLine <= len cur) then ([], true)
      else ([dropCR (reverse cur)], false)
  | b :: input' =>
      if decide (b = x0a) then
        if decide (maxLine <= len cur) then ([], true)
        else let '(ls, long) := scan input' [] in (dropCR (reverse cur) :: ls, long)
      else scan input' (b :: cur)
  end.

(** ** The commands *)

(** A piece of the output; [ErrorText e] is what [e] says. *)
Inductive piece (E : Type) := Text (t : bytes) | ErrorText (e : E).
#[global] Arguments Text {E}.
#[global] Arguments ErrorText {E}.

#[export] Instance Text_inj {E} : Inj (=) (=) (@Text E).
Proof. by injection 1. Qed.

Definition newline : bytes := [x0a].
Definition println {E} (s : string) : list (piece E) := [Text (lit s ++ newline)].
Definition error_line {E} (e : E) : list (piece E) := [Text (lit "ERROR: "); ErrorText e; Text newline].
Definition prompt {E} : list (piece E) := [Text (lit "> ")].

Section shell.
Context {S E : Type} {ST : Store S E}.

(** The store, what is printed, and whether the shell ends; [None] is a panic of
    the store. *)
Definition dispatch (s : S) (line : bytes) : option (S * list (piece E) * bool) :=
  match Fields line with
  | [] => Some (s, [], false)
  | word :: args =>
      let cmd := ToUpper word in
      if decide (cmd = lit "PUT") then
        match args with
        | [k; v] =>
            '(s', e) ← Put k v s;
            Some (s', match e with Some e => error_line e | None => println "OK" end, false)
        | _ => Some (s, println "usage: PUT <key> <value>", false)
        end
      else if decide (cmd = lit "GET") then
        match args with
        | [k] =>
            '(s', r) ← Get k s;
            Some (s', match r with
                      | inr v => [Text (v ++ newline)]
                      | inl e => if not_found (S := S) e then println "(not found)" else error_line e
                      end, false)
        | _ => Some (s, println "usage: GET <key>", false)
        end
      else if decide (cmd = lit "DELETE" \/ cmd = lit "DEL") then
        match args with
        | [k] =>
            '(s', e) ← Delete k s;
            Some (s', match e with Some e => error_line e | None => println "OK" end, false)
        | _ => Some (s, println "usage: DELETE <key>", false)
        end
      else if decide (cmd = lit "EXIT" \/ cmd = lit "QUIT") then Some (s, [], true)
      else if decide (cmd = lit "HELP" \/ cmd = lit "?") then
        Some (s, println "commands:" ++ println "  PUT <key> <value>" ++ println "  GET <key>"
                 ++ println "  DELETE <key>" ++ println "  EXIT", false)
      else Some (s, [Text (lit "unknown command: "); Text word; Text (lit " (try HELP)" ++ newline)], false)
  end.

Inductive read_error := ErrTooLong.

(** [cancelled]: whether the context is done when a line has been read. *)
Fixpoint loop (lines : list bytes) (long : bool) (cancelled : list bool) (s : S)
  : option (S * list (piece E) * option read_error) :=
  match lines with
  | [] => if long then Some (s, [], Some ErrTooLong) else Some (s, [Text newline], None)
  | line :: lines' =>
      if default false (head cancelled) then Some (s, [Text newline], None)
      else
        let line := TrimSpace line in
        if decide (line = []) then
          '(s', out, r) ← loop lines' long (tail cancelled) s; Some (s', prompt ++ out, r)
        else
          '(s1, o, done) ← dispatch s line;
          if (done : bool) then Some (s1, o, None)
          else '(s', out, r) ← loop lines' long (tail cancelled) s1; Some (s', o ++ prompt ++ out, r)
  end.

Definition Run (input : bytes) (cancelled : list bool) (s : S) : option (S * list (piece E) * option read_error) :=
  let '(lines, long) := scan input [] in
  '(s', out, r) ← loop lines long cancelled s; Some (s', prompt ++ out, r).

End shell.

(** The operation of a line, if it is one. *)
Definition line_op (line : bytes) : option op :=
  match Fields (TrimSpace line) with
  | [] => None
  | word :: args =>
      let cmd := ToUpper word in
      if decide (cmd = lit "PUT") then match args with [k; v] => Some (OPut k v) | _ => None end
      else if decide (cmd = lit "GET") then match args with [k] => Some (OGet k) | _ => None end
      else if decide (cmd = lit "DELETE" \/ cmd = lit "DEL") then match args with [k] => Some (ODelete k) | _ => None end
      else None
  end.

(** ** A session over a store is one over a map *)

Section session.
Context {S E : Type} {ST : Store S E} {MS : MapStore S E}.
Context (K : bytes -> Prop) (HK : key_set K).

Definition op_ok (o : op) : Prop := K (op_key o) /\ len (op_value o) < 2 ^ 31.

(** What a line may spend. *)
Definition line_cost (line : bytes) : Z := match line_op line with Some o => op_cost o | None => 0 end.
Definition line_ok (line : bytes) : Prop := match line_op line with Some o => op_ok o | None => True end.

Lemma line_cost_nonneg line : 0 <= line_cost line.
Proof. unfold line_cost. destruct (line_op line); [apply op_cost_nonneg|done]. Qed.

(** One line. *)
Lemma dispatch_sim n s m line :
  represents K n s m -> line_ok line -> n + line_cost line <= capacity ->
  exists s' m' out done, dispatch s (TrimSpace line) = Some (s', Text <$> out, done)
    /\ dispatch m (TrimSpace line) = Some (m', Text <$> out, done) /\ represents K (n + line_cost line) s' m'.
Proof.
  unfold line_ok, line_cost, line_op, dispatch. intros Hr Hok Hn.
  destruct (Fields (TrimSpace line)) as [|word args]; [by exists s, m, [], false; rewrite Z.add_0_r|].
  assert (forall (out : list bytes) (done : bool), exists s' m' out' done',
    Some (s, @Text E <$> out, done) = Some (s', @Text E <$> out', done')
    /\ Some (m, @Text unit <$> out, done) = Some (m', @Text unit <$> out', done') /\ represents K (n + 0) s' m') as Hsame.
  { intros out done. exists s, m, out, done. by rewrite Z.add_0_r. }
  destruct (decide (ToUpper word = lit "PUT")).
  { destruct args as [|k [|v [|]]]; try by exact (Hsame [_] false).
    destruct (Put_law K n s m k v HK Hr (proj1 Hok) (proj2 Hok) Hn) as (s' & -> & Hr').
    by exists s', (<[k := v]> m), [lit "OK" ++ newline], false. }
  destruct (decide (ToUpper word = lit "GET")).
  { destruct args as [|k [|]]; try by exact (Hsame [_] false).
    destruct (Get_law K n s m k HK Hr (proj1 Hok)) as (s' & r & E1 & Hr' & Hres); [cbn in Hn; lia|]. rewrite E1.
    cbn -[println]. rewrite Z.add_0_r. destruct (m !! k) as [v|].
    - subst r. by exists s', m, [v ++ newline], false.
    - destruct Hres as (e0 & -> & He). cbn -[println]. rewrite He. by exists s', m, [lit "(not found)" ++ newline], false. }
  destruct (decide (ToUpper word = lit "DELETE" \/ ToUpper word = lit "DEL")).
  { destruct args as [|k [|]]; try by exact (Hsame [_] false).
    destruct (Delete_law K n s m k HK Hr (proj1 Hok) Hn) as (s' & -> & Hr').
    by exists s', (delete k m), [lit "OK" ++ newline], false. }
  destruct (decide (ToUpper word = lit "EXIT" \/ ToUpper word = lit "QUIT")); [by exact (Hsame [] true)|].
  destruct (decide (ToUpper word = lit "HELP" \/ ToUpper word = lit "?")); [by exact (Hsame [_; _; _; _; _] false)|].
  by exact (Hsame [_; _; _] false).
Qed.

Lemma loop_sim lines long : forall cancelled n s m,
  represents K n s m -> Forall line_ok lines -> n + foldr (fun l c => line_cost l + c) 0 lines <= capacity ->
  exists s' m' out r n', loop lines long cancelled s = Some (s', Text <$> out, r)
    /\ loop lines long cancelled m = Some (m', Text <$> out, r) /\ represents K n' s' m'
    /\ n' <= n + foldr (fun l c => line_cost l + c) 0 lines.
Proof.
  induction lines as [|line lines IH]; intros cancelled n s m Hr Hok Hn; cbn [loop].
  - destruct long; [by exists s, m, [], (Some ErrTooLong), n; split_and!; try done; cbn; lia|].
    exists s, m, [newline], None, n. split_and!; try done. cbn. lia.
  - apply Forall_cons in Hok as [Hl Hok]. cbn [foldr] in *. set (rest := foldr _ 0 lines) in *.
    pose proof (line_cost_nonneg line) as Hc0.
    assert (0 <= rest) as Hrest by (unfold rest; clear; induction lines as [|l ls IH]; cbn; [done|]; pose proof (line_cost_nonneg l); lia).
    destruct (default false (head cancelled)).
    { exists s, m, [newline], None, n. split_and!; try done. lia. }
    destruct (decide (TrimSpace line = [])).
    { destruct (IH (tail cancelled) n s m Hr Hok ltac:(lia)) as (s' & m' & out & r & n' & -> & -> & Hr' & Hn').
      exists s', m', (lit "> " :: out), r, n'. split_and!; try done. lia. }
    destruct (dispatch_sim n s m line Hr Hl ltac:(lia)) as (s1 & m1 & o & done & -> & -> & Hr1). cbn [mbind option_bind].
    destruct done; [exists s1, m1, o, None, (n + line_cost line); split_and!; try done; lia|].
    destruct (IH (tail cancelled) (n + line_cost line) s1 m1 Hr1 Hok ltac:(lia)) as (s' & m' & out & r & n' & -> & -> & Hr' & Hn').
    exists s', m', (o ++ lit "> " :: out), r, n'. split_and!; try done; [| |lia]; cbn [mbind option_bind]; by rewrite fmap_app.
Qed.

End session.

#[local] Existing Instances dbmap.db_store dbmap.db_map.

(** C30.  A session over the storage engine is one over a map.  [Run] on an open
    store that holds [m], for an input whose put, get and delete commands name
    text keys none of which extends another one used, and cost less than the 2^55
    bytes of the store's budget, wherever the context is cancelled: it prints,
    piece by piece, what it prints over the map [m], no error of the store among
    it, ends the same way, and leaves a store that holds what the map does.  What
    else is in the input does not matter. *)
Theorem shell_is_map K n (d : db.DB) (disk : db.Disk) m input cancelled :
  key_set K -> represents K n (d, disk) m -> Forall (line_ok K) (scan input []).1 ->
  n + foldr (fun l c => line_cost l + c) 0 (scan input []).1 <= capacity ->
  exists s' m' out r n', Run input cancelled (d, disk) = Some (s', Text <$> out, r)
    /\ Run input cancelled m = Some (m', Text <$> out, r) /\ represents K n' s' m'.
Proof.
  intros HK Hr Hok Hn. unfold Run. destruct (scan input []) as [lines long].
  destruct (loop_sim K HK lines long cancelled n (d, disk) m Hr Hok Hn) as (s' & m' & out & r & n' & -> & -> & Hr' & _).
  by exists s', m', (lit "> " :: out), r, n'.
Qed.

Definition demo_input : bytes := lit "PUT a 1" ++ newline ++ lit " get  a " ++ newline ++ lit "del a" ++ newline ++ lit "Get a" ++ newline.

Example demo_session : (fun x => x.1.2) <$> Run demo_input [] (∅ : kv.contents)
  = Some (Text <$> [lit "> "; lit "OK" ++ newline; lit "> "; lit "1" ++ newline; lit "> "; lit "OK" ++ newline; lit "> ";
                    lit "(not found)" ++ newline; lit "> "; newline]).
Proof. vm_compute. reflexivity. Qed.

Definition demo_lines : list bytes := (scan demo_input []).1.

Lemma demo_lines_ok : Forall (line_ok dbmap.one_key) demo_lines
  /\ 1 + foldr (fun l c => line_cost l + c) 0 demo_lines <= capacity.
Proof.
  assert (line_op <$> demo_lines = Some <$> [OPut [x61] [x31]; OGet [x61]; ODelete [x61]; OGet [x61]]) as E
    by (vm_compute; reflexivity).
  split.
  - assert (Forall (fun o => match o with Some o => op_ok dbmap.one_key o | None => True end) (line_op <$> demo_lines)) as H
      by (rewrite E; repeat constructor; by_decide).
    by rewrite Forall_fmap in H.
  - by_decide.
Qed.

Lemma demo_result (m : kv.contents) out r : Run demo_input [] (∅ : kv.contents) = Some (m, out, r) -> r = None.
Proof.
  intros H. assert (snd <$> Run demo_input [] (∅ : kv.contents) = Some None) as E by (vm_compute; reflexivity).
  rewrite H in E. by injection E.
Qed.

Lemma shell_is_map_witness :
  exists d s' m' out, store.start_db = Some d /\ Run demo_input [] (d, db.MkDisk ∅ None None) = Some (s', Text <$> out, None)
    /\ Run demo_input [] (∅ : kv.contents) = Some (m', Text <$> out, None).
Proof.
  destruct store.start_db as [d|] eqn:E; [|by vm_compute in E].
  destruct (shell_is_map dbmap.one_key 1 d (db.MkDisk ∅ None None) ∅ demo_input [] dbmap.one_key_set
              (dbmap.start_holds dbmap.one_key d _ E) (proj1 demo_lines_ok) (proj2 demo_lines_ok))
    as (s' & m' & out & r & n' & E1 & E2 & _).
  exists d, s', m', out. split; [reflexivity|].
  assert (r = None) as -> by (exact (demo_result _ _ _ E2)). split; [exact E1|exact E2].
Defined.

(** ** What is typed is what is stored *)

(** A word: no white space anywhere, not even in the middle of a character. *)
Fixpoint plain (w : bytes) : bool :=
  match w with [] => true | b :: w' => bool_decide (space_len w = 0%nat) && plain w' end.

Definition is_word (w : bytes) : Prop := w <> [] /\ plain w = true /\ len w < 2 ^ 18.

Fixpoint unwords (ws : list bytes) : bytes :=
  match ws with [] => [] | [w] => w | w :: ws' => w ++ x20 :: unwords ws' end.

Lemma space2_blank b : space2 b x20 = false.
Proof. by destruct b. Qed.

Lemma space3_blank b c : space3 b x20 c = false /\ space3 b c x20 = false.
Proof.
  unfold space3. split; apply bool_decide_eq_false_2; intros H;
    repeat (apply elem_of_cons in H as [H|H]; [by simplify_eq|]); by apply elem_of_nil in H.
Qed.

Lemma plain_cons b w : plain (b :: w) = true <-> space_len (b :: w) = 0%nat /\ plain w = true.
Proof. cbn [plain]. by rewrite andb_true_iff, bool_decide_eq_true. Qed.

(** A blank after a word ends no longer white space. *)
Lemma space_len_word b w rest : space_len (b :: w) = 0%nat -> space_len ((b :: w) ++ x20 :: rest) = 0%nat.
Proof.
  unfold space_len. cbn [app]. destruct (ascii_space b); [done|]. destruct w as [|c [|d w]]; cbn [app].
  - intros _. rewrite space2_blank. destruct rest as [|d rest]; [done|]. by rewrite (proj1 (space3_blank b d)).
  - destruct (space2 b c); [done|]. by rewrite (proj2 (space3_blank b c)).
  - done.
Qed.

Lemma fields_word w : forall cur rest, plain w = true ->
  fields (w ++ x20 :: rest) cur 0 = flush (reverse w ++ cur) ++ fields rest [] 0.
Proof.
  induction w as [|b w IH]; intros cur rest Hp.
  - done.
  - apply plain_cons in Hp as [Hb Hp]. change ((b :: w) ++ x20 :: rest) with (b :: (w ++ x20 :: rest)). cbn [fields].
    change (b :: (w ++ x20 :: rest)) with ((b :: w) ++ x20 :: rest). rewrite space_len_word by done.
    rewrite IH by done. by rewrite reverse_cons, <- (assoc_L app).
Qed.

Lemma fields_last w : forall cur, plain w = true -> fields w cur 0 = flush (reverse w ++ cur).
Proof.
  induction w as [|b w IH]; intros cur Hp; [done|]. apply plain_cons in Hp as [Hb Hp]. cbn [fields]. rewrite Hb, IH by done.
  by rewrite reverse_cons, <- (assoc_L app).
Qed.

Lemma flush_word w : w <> [] -> flush (reverse w ++ []) = [w].
Proof.
  intros Hw. rewrite app_nil_r. unfold flush. rewrite decide_False; [by rewrite reverse_involutive|].
  intros E. apply Hw. by rewrite <- (reverse_involutive w), E.
Qed.

(** Splitting undoes joining. *)
Lemma Fields_unwords ws : Forall is_word ws -> Fields (unwords ws) = ws.
Proof.
  unfold Fields. induction 1 as [|w ws (Hw & Hp & _) Hws IH]; [done|]. destruct ws as [|w2 ws].
  - cbn [unwords]. by rewrite fields_last, flush_word.
  - change (unwords (w :: w2 :: ws)) with (w ++ x20 :: unwords (w2 :: ws)). by rewrite fields_word, flush_word, IH.
Qed.

Lemma trim_right_word w : plain w = true -> trim_right w = w.
Proof.
  induction w as [|b w IH]; intros Hp; [done|]. cbn [trim_right]. unfold blank, Fields.
  rewrite fields_last, flush_word, bool_decide_eq_false_2 by done. apply plain_cons in Hp as [_ Hp]. by rewrite IH.
Qed.

Lemma trim_right_app w s : plain w = true -> Fields s <> [] -> trim_right s = s -> trim_right (w ++ x20 :: s) = w ++ x20 :: s.
Proof.
  intros Hp Hs Hts. assert (forall w, plain w = true -> blank (w ++ x20 :: s) = false) as Hb.
  { intros w' Hp'. unfold blank, Fields. rewrite fields_word by done. apply bool_decide_eq_false_2.
    intros [_ E]%app_eq_nil. by apply Hs. }
  induction w as [|b w IH]; cbn [app trim_right].
  - assert (blank (x20 :: s) = false) as -> by exact (Hb [] eq_refl). by rewrite Hts.
  - change (b :: (w ++ x20 :: s)) with ((b :: w) ++ x20 :: s) at 1. rewrite Hb by done.
    apply plain_cons in Hp as [_ Hp]. by rewrite IH.
Qed.

Lemma TrimSpace_unwords ws : Forall is_word ws -> TrimSpace (unwords ws) = unwords ws.
Proof.
  intros Hws. unfold TrimSpace. assert (trim_left (unwords ws) 0 = unwords ws) as ->.
  { destruct Hws as [|w ws (Hw & Hp & _) _]; [done|]. destruct w as [|b w]; [done|]. apply plain_cons in Hp as [Hb _].
    destruct ws as [|w2 ws].
    - cbn [unwords trim_left]. by rewrite Hb.
    - change (unwords ((b :: w) :: w2 :: ws)) with ((b :: w) ++ x20 :: unwords (w2 :: ws)).
      pose proof (space_len_word b w (unwords (w2 :: ws)) Hb) as E. cbn [app trim_left] in *. by rewrite E. }
  induction Hws as [|w ws (Hw & Hp & _) Hws IH]; [done|]. destruct ws as [|w2 ws]; [by apply trim_right_word|].
  change (unwords (w :: w2 :: ws)) with (w ++ x20 :: unwords (w2 :: ws)). apply trim_right_app; [done| |done].
  by rewrite Fields_unwords.
Qed.

Lemma plain_no w b : space_len [b] = 1%nat -> plain w = true -> b ∉ w.
Proof.
  intros Hb. induction w as [|c w IH]; intros Hp H; [by apply elem_of_nil in H|]. apply plain_cons in Hp as [Hc Hp].
  apply elem_of_cons in H as [->|H]; [|by apply IH]. unfold space_len in *. destruct (ascii_space c); [|done]. done.
Qed.

Lemma unwords_no ws b : space_len [b] = 1%nat -> b <> x20 -> Forall is_word ws -> b ∉ unwords ws.
Proof.
  intros Hb Hne. induction 1 as [|w ws (_ & Hp & _) Hws IH]; [by intros ?%elem_of_nil|].
  pose proof (plain_no w b Hb Hp). destruct ws as [|w2 ws]; [done|].
  change (unwords (w :: w2 :: ws)) with (w ++ x20 :: unwords (w2 :: ws)). rewrite elem_of_app, elem_of_cons. naive_solver.
Qed.

Lemma scan_line l : forall cur rest, x0a ∉ l -> len l + len cur < maxLine ->
  scan (l ++ x0a :: rest) cur = (dropCR (reverse cur ++ l) :: (scan rest []).1, (scan rest []).2).
Proof.
  induction l as [|b l IH]; intros cur rest Hl Hn; cbn [app scan].
  - rewrite decide_True by done. rewrite decide_False by (change (len (A := byte) []) with 0 in Hn; lia).
    rewrite app_nil_r. by destruct (scan rest []).
  - apply not_elem_of_cons in Hl as [Hb Hl]. rewrite decide_False by done. rewrite len_cons in Hn.
    rewrite IH by (done || rewrite len_cons; lia). by rewrite reverse_cons, <- (assoc_L app).
Qed.

Lemma dropCR_id l : x0d ∉ l -> dropCR l = l.
Proof.
  intros H. unfold dropCR. destruct (reverse l) as [|b r] eqn:E; [done|].
  assert (b <> x0d); [|by destruct b]. intros ->. apply H, elem_of_reverse. rewrite E. by left.
Qed.

Lemma scan_words ws rest : Forall is_word ws -> len (unwords ws) < maxLine ->
  scan (unwords ws ++ newline ++ rest) [] = (unwords ws :: (scan rest []).1, (scan rest []).2).
Proof.
  intros Hws Hn. change (newline ++ rest) with (x0a :: rest). rewrite scan_line.
  - by rewrite dropCR_id by (by apply unwords_no).
  - by apply unwords_no.
  - change (len (A := byte) []) with 0. lia.
Qed.

Section typed.
Context (k v : bytes) (Hwk : is_word k) (Hwv : is_word v).

Definition typed_lines : list bytes := [unwords [lit "PUT"; k; v]; unwords [lit "GET"; k]].
Definition typed : bytes := unwords [lit "PUT"; k; v] ++ newline ++ unwords [lit "GET"; k] ++ newline.

Lemma typed_words : Forall is_word [lit "PUT"; k; v] /\ Forall is_word [lit "GET"; k].
Proof using Hwk Hwv.
  assert (is_word (lit "PUT") /\ is_word (lit "GET")) as [] by (split; split_and!; by_decide).
  by rewrite !Forall_cons, !Forall_nil.
Qed.

Lemma scan_typed : scan typed [] = (typed_lines, false).
Proof using Hwk Hwv.
  destruct typed_words as [H1 H2]. destruct Hwk as (_ & _ & Hk), Hwv as (_ & _ & Hv). unfold typed.
  assert (scan (unwords [lit "GET"; k] ++ newline) [] = ([unwords [lit "GET"; k]], false)) as Eg.
  { rewrite <- (app_nil_r newline). rewrite scan_words; [done|done|].
    unfold maxLine. cbn [unwords]. rewrite len_app, len_cons. change (len (lit "GET")) with 3. lia. }
  rewrite scan_words, Eg; [done|done|].
  - unfold maxLine. cbn [unwords]. rewrite len_app, len_cons, len_app, len_cons. change (len (lit "PUT")) with 3. lia.
Qed.

Lemma typed_ops : line_op <$> typed_lines = [Some (OPut k v); Some (OGet k)].
Proof using Hwk Hwv.
  destruct typed_words as [H1 H2]. unfold typed_lines, line_op. cbn [fmap list_fmap].
  by rewrite !TrimSpace_unwords, !Fields_unwords by done.
Qed.

Definition typed_out : list bytes := [lit "OK" ++ newline; lit "> "; v ++ newline; lit "> "; newline].

(** Over the map. *)
Lemma dispatch_put (m : kv.contents) :
  dispatch m (unwords [lit "PUT"; k; v]) = Some (<[k := v]> m, Text <$> [lit "OK" ++ newline], false).
Proof using Hwk Hwv. unfold dispatch. by rewrite Fields_unwords by apply typed_words. Qed.

Lemma dispatch_get (m : kv.contents) :
  m !! k = Some v -> dispatch m (unwords [lit "GET"; k]) = Some (m, Text <$> [v ++ newline], false).
Proof using Hwk Hwv.
  intros H. unfold dispatch. rewrite Fields_unwords by apply typed_words.
  change (ToUpper (lit "GET")) with (lit "GET"). rewrite decide_False, decide_True by done. cbn. by rewrite H.
Qed.

Lemma unwords_cons w ws : w <> [] -> unwords (w :: ws) <> [].
Proof. destruct w as [|b w]; [done|]. by destruct ws. Qed.

Lemma loop_typed (m : kv.contents) : loop typed_lines false [] m = Some (<[k := v]> m, Text <$> typed_out, None).
Proof using Hwk Hwv.
  destruct typed_words as [H1 H2]. unfold typed_lines. cbn [loop head default tail].
  rewrite TrimSpace_unwords, decide_False by (done || by apply unwords_cons). rewrite dispatch_put. cbn [mbind option_bind].
  rewrite TrimSpace_unwords, decide_False by (done || by apply unwords_cons). by rewrite dispatch_get by apply lookup_insert_eq.
Qed.

End typed.

Lemma line_costs ls : foldr (fun l c => line_cost l + c) 0 ls
  = foldr (fun o c => match o with Some o => op_cost o | None => 0 end + c) 0 (line_op <$> ls).
Proof. induction ls as [|l ls IH]; [done|]. cbn [foldr fmap list_fmap]. by rewrite IH. Qed.

(** C31.  What is typed is what is stored.  On an open store, for a key and a
    value that are words of fewer than 2^18 bytes without white space, the key a
    text key that neither extends nor is extended by another key used, typing "PUT
    k v" and then "GET k" stores [v], of any bytes, under [k], prints OK and then
    the bytes of [v]. *)
Theorem typed_is_stored K n (d : db.DB) (disk : db.Disk) m k v :
  key_set K -> represents K n (d, disk) m -> K k -> is_word k -> is_word v -> n + 2 ^ 30 <= capacity ->
  exists s' n', Run (typed k v) [] (d, disk) = Some (s', Text <$> (lit "> " :: typed_out v), None)
    /\ represents K n' s' (<[k := v]> m).
Proof.
  intros HK Hr Hk Hwk Hwv Hn. unfold Run. rewrite scan_typed by done. pose proof (typed_ops k v Hwk Hwv) as Hops.
  pose proof Hwk as (_ & _ & Hlk). pose proof Hwv as (_ & _ & Hlv).
  destruct (loop_sim K HK (typed_lines k v) false [] n (d, disk) m Hr) as (s' & m' & out & r & n' & E & Em & Hr' & _).
  - assert (Forall (fun o => match o with Some o => op_ok K o | None => True end) (line_op <$> typed_lines k v)) as H'
      by (rewrite Hops; repeat constructor; cbn; done || lia). by rewrite Forall_fmap in H'.
  - rewrite line_costs, Hops. cbn [foldr op_cost op_key op_value]. unfold cost. lia.
  - rewrite loop_typed in Em by done. injection Em as <- Eo <-. change (@Text unit <$> typed_out v = Text <$> out) in Eo.
    apply (inj (fmap (M := list) (@Text unit))) in Eo as <-.
    exists s', n'. split; [|done]. by rewrite E.
Qed.

Lemma typed_is_stored_witness :
  exists d s', store.start_db = Some d
    /\ Run (typed [x61] [xff]) [] (d, db.MkDisk ∅ None None) = Some (s', Text <$> (lit "> " :: typed_out [xff]), None).
Proof.
  destruct store.start_db as [d|] eqn:E; [|by vm_compute in E].
  destruct (typed_is_stored dbmap.one_key 1 d (db.MkDisk ∅ None None) ∅ [x61] [xff] dbmap.one_key_set
              (dbmap.start_holds dbmap.one_key d _ E) eq_refl) as (s' & n' & E1 & _);
    [split_and!; by_decide|split_and!; by_decide|by_decide|].
  exists d, s'. split; [reflexivity|exact E1].
Defined.

End repl.
