(* ===== verification/RaftLog.v ===== *)
(** * The in-memory Raft log (internal/cluster/raftlog.go, entry types of
      internal/cluster/transport.go)

    A log whose prefix up to [baseIndex] was compacted away.  The abstract state
    is the full log, every entry since index 1; the operations are proved to be
    the list operations on it.  The owner's mutex makes each method atomic. *)

From Stdlib Require Import ZArith Lia.
From Stdlib Require Import Strings.Byte.
From stdpp Require Import base list gmap.
From S2P Require Import Prelude.

#[local] Open Scope Z_scope.

Module raftlog.

(** [EntryKind] is a [uint8]. *)
Abbreviation EntryKind := byte.
Definition EntryData : EntryKind := x00.
Definition EntryConfig : EntryKind := x01.

(** [persistedEntry] of raftlogfile.go has the same three fields. *)
Record logEntry := MkLogEntry { e_term : Z; e_kind : EntryKind; e_bytes : bytes }.

Record RaftLog := MkRaftLog {
  baseIndex : Z;
  baseTerm : Z;
  entries : list logEntry
}.

#[export] Instance logEntry_eq_dec : EqDecision logEntry.
Proof. solve_decision. Defined.

Definition NewRaftLog : RaftLog := MkRaftLog 0 0 [].
Definition NewRaftLogWithBase (baseIndex baseTerm : Z) : RaftLog := MkRaftLog baseIndex baseTerm [].

Definition lastIndex (l : RaftLog) : Z := u64 (baseIndex l + len (entries l)).

(** [l.entries[idx-l.baseIndex-1]]: unsigned subtraction, and [None] is the
    index-out-of-range panic. *)
Definition entry (l : RaftLog) (idx : Z) : option logEntry :=
  entries l !! Z.to_nat (u64 (idx - baseIndex l - 1)).

(** [None] is a panic, here and below. *)
Definition term (l : RaftLog) (idx : Z) : option Z :=
  if decide (idx = baseIndex l) then Some (baseTerm l)
  else if decide (idx < baseIndex l) then None
  else e_term <$> entry l idx.

Definition lastTerm (l : RaftLog) : option Z := term l (lastIndex l).

Definition has (l : RaftLog) (idx : Z) : bool :=
  bool_decide (idx >= baseIndex l /\ idx <= lastIndex l).

Definition entryAt (l : RaftLog) (idx : Z) : option bytes := e_bytes <$> entry l idx.
Definition kindAt (l : RaftLog) (idx : Z) : option EntryKind := e_kind <$> entry l idx.

Definition append (l : RaftLog) (t : Z) (kind : EntryKind) (b : bytes) : RaftLog * Z :=
  let l' := MkRaftLog (baseIndex l) (baseTerm l) (entries l ++ [MkLogEntry t kind b]) in
  (l', lastIndex l').

Definition truncateFrom (l : RaftLog) (idx : Z) : RaftLog :=
  if decide (idx <= baseIndex l) then l
  else if decide (idx <= lastIndex l)
  then MkRaftLog (baseIndex l) (baseTerm l) (take (Z.to_nat (u64 (idx - baseIndex l - 1))) (entries l))
  else l.

Definition matchesPrev (l : RaftLog) (prevLogIndex prevLogTerm : Z) : option bool :=
  if decide (prevLogIndex < baseIndex l) then Some true
  else if decide (prevLogIndex = baseIndex l) then Some (bool_decide (prevLogTerm = baseTerm l))
  else if decide (prevLogIndex <= lastIndex l)
  then t ← term l prevLogIndex; Some (bool_decide (t = prevLogTerm))
  else Some false.

Definition compactTo (l : RaftLog) (newBaseIndex newBaseTerm : Z) : RaftLog :=
  if decide (newBaseIndex <= baseIndex l \/ newBaseIndex > lastIndex l) then l
  else MkRaftLog newBaseIndex newBaseTerm (drop (Z.to_nat (u64 (newBaseIndex - baseIndex l))) (entries l)).

Definition resetToBase (l : RaftLog) (newBaseIndex newBaseTerm : Z) : RaftLog :=
  MkRaftLog newBaseIndex newBaseTerm [].

(** The capacity [make] accepts: 2^48 bytes of address space, 40 bytes each. *)
Definition maxPersisted : Z := 2 ^ 48 / 40.

Definition entriesAfter (l : RaftLog) (idx : Z) : option (list logEntry) :=
  let start := u64 (idx - baseIndex l) in
  if decide (u64 (len (entries l) - start) > maxPersisted) then None
  else Some (drop (Z.to_nat start) (entries l)).

(** ** The full log *)

(** The term of the entry at an index of a full log; 0 at the sentinel 0. *)
Definition full_term (L : list logEntry) (i : Z) : Z :=
  if decide (i = 0) then 0 else default 0 (e_term <$> L !! Z.to_nat (i - 1)).

(** [l] is the log [L] with a prefix compacted away. *)
Record represents (l : RaftLog) (L : list logEntry) : Prop := {
  rep_base : 0 <= baseIndex l <= len L;
  rep_entries : entries l = drop (Z.to_nat (baseIndex l)) L;
  rep_term : baseTerm l = full_term L (baseIndex l);
  rep_small : len L <= maxPersisted
}.

(** The well-formed logs: those a full log exists for. *)
Record wf (l : RaftLog) : Prop := {
  wf_base : 0 <= baseIndex l;
  wf_zero : baseIndex l = 0 -> baseTerm l = 0;
  wf_small : baseIndex l + len (entries l) <= maxPersisted
}.

(** ** Lemmas *)

Lemma maxPersisted_bound : 0 < maxPersisted < 2 ^ 63.
Proof. split; reflexivity. Qed.

Lemma len_drop {A} (l : list A) n : 0 <= n <= len l -> len (drop (Z.to_nat n) l) = len l - n.
Proof. intros H. unfold len in *. rewrite length_drop. lia. Qed.

Lemma len_take {A} (l : list A) n : 0 <= n <= len l -> len (take (Z.to_nat n) l) = n.
Proof. intros H. unfold len in *. rewrite length_take. lia. Qed.

Lemma represents_wf l L : represents l L -> wf l.
Proof.
  intros [Hb He Ht Hs]. split; [lia| |].
  - intros H0. rewrite Ht, H0. done.
  - rewrite He, len_drop by lia. lia.
Qed.

Lemma wf_represents l : wf l -> exists L, represents l L.
Proof.
  intros [Hb H0 Hs]. pose proof (len_nonneg (entries l)).
  exists (replicate (Z.to_nat (baseIndex l)) (MkLogEntry (baseTerm l) EntryData []) ++ entries l).
  assert (len (replicate (Z.to_nat (baseIndex l)) (MkLogEntry (baseTerm l) EntryData [])) = baseIndex l) as Hl
    by (unfold len; rewrite length_replicate; lia).
  split.
  - rewrite len_app, Hl. lia.
  - by rewrite drop_len_app.
  - unfold full_term. case_decide as E; [by apply H0|].
    rewrite lookup_app_l by (rewrite length_replicate; lia).
    rewrite lookup_replicate_2 by lia. done.
  - rewrite len_app, Hl. lia.
Qed.

Section represented.
Context {l : RaftLog} {L : list logEntry} (HL : represents l L).

#[local] Ltac rep := destruct HL as [Hb He Ht Hs]; pose proof maxPersisted_bound.

Lemma rep_lastIndex : lastIndex l = len L.
Proof.
  rep. unfold lastIndex. rewrite He, len_drop by lia.
  rewrite u64_small by (unfold is_u64; lia). lia.
Qed.

Lemma rep_entry i : baseIndex l < i -> i < 2 ^ 64 -> entry l i = L !! Z.to_nat (i - 1).
Proof.
  intros Hi Hi'. rep. unfold entry. rewrite u64_small by (unfold is_u64; lia).
  rewrite He, lookup_drop. f_equal. lia.
Qed.

Lemma rep_lookup i : 0 < i <= len L -> exists e, L !! Z.to_nat (i - 1) = Some e /\ full_term L i = e_term e.
Proof.
  intros Hi. destruct (lookup_lt_is_Some_2 L (Z.to_nat (i - 1))) as [e E]; [unfold len in Hi; lia|].
  exists e. split; [done|]. unfold full_term. by rewrite decide_False, E by lia.
Qed.

Lemma rep_term_at i : baseIndex l <= i <= len L -> term l i = Some (full_term L i).
Proof.
  intros Hi. unfold term. case_decide as E; [rep; by rewrite Ht, E|].
  rewrite decide_False by lia.
  pose proof HL as [? _ _ ?]. pose proof maxPersisted_bound.
  rewrite rep_entry by lia. destruct (rep_lookup i) as (e & He' & ->); [lia|]. by rewrite He'.
Qed.

Lemma rep_term_out i : is_u64 i -> i < baseIndex l \/ len L < i -> term l i = None.
Proof.
  intros Hu Hi. unfold term. pose proof HL as [? _ _ ?]. rewrite decide_False by lia. case_decide; [done|].
  unfold is_u64 in Hu. rewrite rep_entry by lia.
  rewrite lookup_ge_None_2; [done|]. unfold len in Hi. lia.
Qed.

Lemma rep_append t k b :
  len L < maxPersisted -> append l t k b = (MkRaftLog (baseIndex l) (baseTerm l) (entries l ++ [MkLogEntry t k b]), len L + 1)
  /\ represents (append l t k b).1 (L ++ [MkLogEntry t k b]).
Proof.
  intros Hlt. rep. unfold append. cbn [fst].
  assert (represents (MkRaftLog (baseIndex l) (baseTerm l) (entries l ++ [MkLogEntry t k b])) (L ++ [MkLogEntry t k b])) as Hr.
  { split; cbn [baseIndex baseTerm entries].
    - rewrite len_app. pose proof (len_nonneg [MkLogEntry t k b]). lia.
    - rewrite He, drop_app_le; [done|]. unfold len in Hb. lia.
    - rewrite Ht. unfold full_term. case_decide; [done|].
      rewrite lookup_app_l; [done|]. unfold len in Hb. lia.
    - rewrite len_app. change (len [MkLogEntry t k b]) with 1. lia. }
  split; [|done]. f_equal. unfold lastIndex. cbn [baseIndex entries]. rewrite He, len_app, len_drop by lia.
  change (len [MkLogEntry t k b]) with 1. rewrite u64_small by (unfold is_u64; lia). lia.
Qed.

Lemma full_term_take n i : 0 <= i <= n -> full_term (take (Z.to_nat n) L) i = full_term L i.
Proof.
  intros Hi. unfold full_term. case_decide; [done|]. by rewrite lookup_take_lt by lia.
Qed.

Lemma rep_truncateFrom i :
  baseIndex l < i -> is_u64 i -> represents (truncateFrom l i) (take (Z.to_nat (i - 1)) L)
    /\ baseIndex (truncateFrom l i) = baseIndex l.
Proof.
  intros Hi Hu. unfold truncateFrom. rewrite decide_False, rep_lastIndex by lia. rep.
  case_decide as E; (split; [|done]).
  - split; cbn [baseIndex baseTerm entries].
    + rewrite len_take by lia. lia.
    + unfold is_u64 in Hu. rewrite u64_small by (unfold is_u64; lia).
      rewrite He, skipn_firstn_comm. f_equal. lia.
    + by rewrite full_term_take by lia.
    + rewrite len_take; lia.
  - rewrite take_ge; [done|]. unfold len in E. lia.
Qed.

Lemma rep_matchesPrev p t :
  is_u64 p -> matchesPrev l p t
  = Some (bool_decide (p < baseIndex l \/ (p <= len L /\ full_term L p = t))).
Proof.
  intros Hu. unfold matchesPrev. rewrite rep_lastIndex. pose proof HL as [Hb _ Ht _].
  destruct (decide (p < baseIndex l)); [by rewrite bool_decide_eq_true_2 by auto|].
  destruct (decide (p = baseIndex l)); [|destruct (decide (p <= len L))].
  - subst p. apply f_equal, bool_decide_ext. rewrite <- Ht. intuition (lia || done).
  - rewrite rep_term_at by lia. cbn. apply f_equal, bool_decide_ext. intuition lia.
  - by rewrite bool_decide_eq_false_2 by lia.
Qed.

Lemma rep_compactTo i :
  baseIndex l < i <= len L ->
  represents (compactTo l i (full_term L i)) L /\ baseIndex (compactTo l i (full_term L i)) = i.
Proof.
  intros Hi. unfold compactTo. rewrite rep_lastIndex, decide_False by lia. rep. split; [|done].
  split; cbn [baseIndex baseTerm entries]; [lia| |done|done].
  rewrite u64_small by (unfold is_u64; lia). rewrite He, drop_drop. f_equal. lia.
Qed.

Lemma compactTo_id i t : i <= baseIndex l \/ len L < i -> compactTo l i t = l.
Proof. intros Hi. unfold compactTo. rewrite rep_lastIndex. by rewrite decide_True by lia. Qed.

Lemma rep_entriesAfter i :
  baseIndex l <= i <= len L -> entriesAfter l i = Some (drop (Z.to_nat i) L).
Proof.
  intros Hi. rep. unfold entriesAfter.
  rewrite (u64_small (i - _)) by (unfold is_u64; lia).
  rewrite He, len_drop by lia. rewrite u64_small by (unfold is_u64; lia).
  rewrite decide_False by lia. rewrite drop_drop. do 2 f_equal. lia.
Qed.

Lemma entriesAfter_past i : len L < i < 2 ^ 63 -> entriesAfter l i = None.
Proof.
  intros Hi. rep. unfold entriesAfter.
  rewrite (u64_small (i - _)) by (unfold is_u64; lia).
  rewrite He, len_drop by lia.
  rewrite decide_True; [done|]. unfold u64.
  rewrite <- (Z.mod_unique (len L - baseIndex l - (i - baseIndex l)) (2 ^ 64) (-1) (2 ^ 64 + len L - i)); lia.
Qed.

End represented.

Lemma rep_resetToBase l L i t :
  len L = i -> i <= maxPersisted -> full_term L i = t -> represents (resetToBase l i t) L.
Proof.
  intros Hl Hs Ht. pose proof (len_nonneg L). split; cbn; [lia| |done|lia].
  rewrite drop_ge; [done|]. unfold len in *. lia.
Qed.

(** ** Properties *)

(** The compacted log implements the full log: on the indices from the base
    to the end every query answers as on the full list of entries, outside them
    it panics; appending adds one entry and returns its index, truncating keeps
    the entries before the given index (and never touches the compacted
    prefix), and compacting changes no answer above the new base. *)
Theorem raftlog_refines_full_log l L i t k b :
  represents l L -> len L < maxPersisted -> is_u64 i ->
  (has l i = true <-> baseIndex l <= i <= len L)
  /\ lastIndex l = len L /\ lastTerm l = Some (full_term L (len L))
  /\ term l i = (if decide (baseIndex l <= i <= len L) then Some (full_term L i) else None)
  /\ (baseIndex l < i -> entryAt l i = e_bytes <$> L !! Z.to_nat (i - 1)
      /\ kindAt l i = e_kind <$> L !! Z.to_nat (i - 1))
  /\ (exists l', append l t k b = (l', len L + 1) /\ represents l' (L ++ [MkLogEntry t k b]))
  /\ represents (truncateFrom l i) (if decide (i <= baseIndex l) then L else take (Z.to_nat (i - 1)) L)
  /\ matchesPrev l i t = Some (bool_decide (i < baseIndex l \/ (i <= len L /\ full_term L i = t)))
  /\ (represents (compactTo l i (full_term L i)) L
      /\ baseIndex (compactTo l i (full_term L i))
         = if decide (baseIndex l < i <= len L) then i else baseIndex l)
  /\ (baseIndex l <= i < 2 ^ 63 -> entriesAfter l i
      = if decide (i <= len L) then Some (drop (Z.to_nat i) L) else None).
Proof.
  intros HL Hlt Hu. pose proof (rep_base _ _ HL). pose proof (rep_small _ _ HL). split_and!.
  - unfold has. rewrite bool_decide_eq_true, (rep_lastIndex HL). lia.
  - by apply rep_lastIndex.
  - unfold lastTerm. rewrite (rep_lastIndex HL). apply (rep_term_at HL). lia.
  - case_decide; [by apply (rep_term_at HL)|]. apply (rep_term_out HL); [done|lia].
  - intros Hi. unfold entryAt, kindAt. unfold is_u64 in Hu. by rewrite !(rep_entry HL) by lia.
  - destruct (rep_append HL t k b Hlt) as [E Hr]. eexists. split; [exact E|]. by rewrite E in Hr.
  - case_decide; [|by apply (rep_truncateFrom HL); [lia|]].
    unfold truncateFrom. by rewrite decide_True by lia.
  - by apply rep_matchesPrev.
  - destruct (decide (baseIndex l < i <= len L)); [by apply (rep_compactTo HL)|].
    by rewrite (compactTo_id HL) by lia.
  - case_decide; [apply (rep_compactTo HL); lia|]. by rewrite (compactTo_id HL) by lia.
  - intros Hi. case_decide; [apply (rep_entriesAfter HL); lia|]. apply (entriesAfter_past HL); lia.
Qed.

(** ** Witnesses *)

Definition demo_full : list logEntry :=
  [MkLogEntry 1 EntryData [x61]; MkLogEntry 1 EntryConfig []; MkLogEntry 3 EntryData [x62]].
Definition demo_log : RaftLog := MkRaftLog 1 1 (drop 1 demo_full).

Lemma demo_represents : represents demo_log demo_full.
Proof. split; [by_decide|reflexivity..|by_decide]. Qed.

Lemma raftlog_refines_full_log_witness :
  term demo_log 3 = Some 3 /\ represents (truncateFrom demo_log 3) (take 2 demo_full)
  /\ represents (compactTo demo_log 3 3) demo_full.
Proof.
  destruct (raftlog_refines_full_log demo_log demo_full 3 5 EntryData [] demo_represents)
    as (_ & _ & _ & H1 & _ & _ & H2 & _ & [H3 _] & _).
  - vm_compute. reflexivity.
  - unfold is_u64. lia.
  - split; [exact H1|]. split; [exact H2|exact H3].
Defined.

End raftlog.
