(* ===== verification/RaftConfig.v ===== *)
(** * Voting configurations (internal/cluster/config.go) and the durable hard
      state (internal/cluster/raftstate.go)

    A [map[NodeID]bool] is a finite map; its encoding sorts the members, so it
    does not depend on the map's iteration order.  Both files are replaced
    atomically (temp file, fsync, rename, directory fsync): a file is a byte
    list or missing. *)

From Stdlib Require Import ZArith Lia.
From Stdlib Require Import Strings.Byte.
From stdpp Require Import base list gmap sorting.
From S2P Require Import Prelude.
From S2P Require Import RecordFmt.
From S2P Require Import RaftLog.

#[local] Open Scope Z_scope.

Module config.

Abbreviation NodeID := Z.
Abbreviation Members := (gmap NodeID bool).

(** The ids whose value is [true], ascending. *)
Definition sortedIds (members : Members) : list NodeID :=
  merge_sort Z.le (filter (fun e => e.2 = true) (map_to_list members)).*1.

Definition encodeConfig (members : Members) : bytes :=
  let ids := sortedIds members in
  le_bytes 4 (u32 (len ids)) ++ concat ((fun id => le_bytes 8 (u64 id)) <$> ids).

(** [n] counts down the announced members still to read. *)
Fixpoint decodeConfig_loop (n : nat) (data : bytes) (off : Z) (out : Members) : Members :=
  match n with
  | O => out
  | S n' =>
      if decide (off + 8 <= len data)
      then decodeConfig_loop n' data (off + 8) (<[i64 (record.Uint64 data off) := true]> out)
      else out
  end.

(** The loop also stops at the end of the data, so no more rounds than bytes. *)
Definition decodeConfig (data : bytes) : Members :=
  if decide (len data < 4) then ∅
  else decodeConfig_loop (Nat.min (Z.to_nat (record.Uint32 data 0)) (length data)) data 4 ∅.

Definition copyConfig (c : Members) : Members := filter (fun e => e.2 = true) c.

Definition configEqual (a b : Members) : bool :=
  bool_decide (size a = size b)
  && forallb (fun k => default false (b !! k)) (map_to_list a).*1.

Definition readBaseConfigFile (file : option bytes) : option Members := decodeConfig <$> file.

(** Replacing a file through a temporary one (write, fsync, rename, directory
    fsync).  [fault]: 0, a failure up to and including the rename, which leaves
    the file as it was; more, the failure of the directory's fsync after it. *)
Definition replaceFile (file : option bytes) (new : bytes) (fault : option nat) : option bytes * bool :=
  match fault with
  | None => (Some new, true)
  | Some 0%nat => (file, false)
  | Some _ => (Some new, false)
  end.

(** The file afterwards, and whether the write succeeded. *)
Definition writeBaseConfigFile (file : option bytes) (members : Members) (fault : option nat)
  : option bytes * bool := replaceFile file (encodeConfig members) fault.

(** The newest configuration entry of a log at or below [idx] and above the
    base: the loop of [deriveConfigLocked], [configAsOfLocked],
    [latestConfigEntryCommittedLocked] and [buildNode].  One round per entry. *)
Fixpoint findConfig (fuel : nat) (l : raftlog.RaftLog) (i : Z) : option (option (Z * bytes)) :=
  match fuel with
  | O => Some None
  | S fuel' =>
      if decide (i > raftlog.baseIndex l) then
        k ← raftlog.kindAt l i;
        if decide (k = raftlog.EntryConfig)
        then b ← raftlog.entryAt l i; Some (Some (i, b))
        else findConfig fuel' l (i - 1)
      else Some None
  end.

Definition configFuel (l : raftlog.RaftLog) (i : Z) : nat := Z.to_nat (i - raftlog.baseIndex l).

(** [None] is a panic. *)
Definition configAsOf (l : raftlog.RaftLog) (baseConfig : Members) (idx : Z) : option Members :=
  found ← findConfig (configFuel l idx) l idx;
  Some (match found with Some (_, b) => decodeConfig b | None => copyConfig baseConfig end).

Definition deriveConfig (l : raftlog.RaftLog) (baseConfig : Members) : option Members :=
  configAsOf l baseConfig (raftlog.lastIndex l).

(** ** The hard state *)

Definition noVote : NodeID := -1.
Definition raftStateFileSize : Z := 16.

Record hardState := MkHard { currentTerm : Z; votedFor : NodeID; present : bool }.

Definition openRaftStateFile (file : option bytes) : hardState :=
  match file with
  | None => MkHard 0 noVote false
  | Some buf =>
      if decide (len buf < raftStateFileSize) then MkHard 0 noVote false
      else MkHard (record.Uint64 buf 0) (i64 (record.Uint64 buf 8)) true
  end.

Definition stateBytes (currentTerm : Z) (votedFor : NodeID) : bytes :=
  le_bytes 8 currentTerm ++ le_bytes 8 (u64 votedFor).

Definition save (file : option bytes) (currentTerm : Z) (votedFor : NodeID) (fault : option nat)
  : option bytes * bool := replaceFile file (stateBytes currentTerm votedFor) fault.

(** The file after a successful save. *)
Definition saved (currentTerm : Z) (votedFor : NodeID) : option bytes := Some (stateBytes currentTerm votedFor).

(** ** Lemmas *)

(** Well-formed configurations: 64-bit ids, all of them in. *)
Definition wf (c : Members) : Prop :=
  (forall id v, c !! id = Some v -> - 2 ^ 63 <= id < 2 ^ 63 /\ v = true) /\ Z.of_nat (size c) < 2 ^ 32.

Lemma copyConfig_lookup c id v : copyConfig c !! id = Some v <-> c !! id = Some v /\ v = true.
Proof. unfold copyConfig. by rewrite map_lookup_filter_Some. Qed.

Lemma copyConfig_id c : (forall id v, c !! id = Some v -> v = true) -> copyConfig c = c.
Proof. intros H. apply map_filter_id. intros id v Hv. cbn. by eapply H. Qed.

Lemma sortedIds_elem c id : id ∈ sortedIds c <-> c !! id = Some true.
Proof.
  unfold sortedIds. rewrite merge_sort_Permutation, list_elem_of_fmap. split.
  - intros ([id' v] & -> & [Hv Hin]%list_elem_of_filter). cbn in *. subst v.
    by apply elem_of_map_to_list in Hin.
  - intros H. exists (id, true). split; [done|]. apply list_elem_of_filter. split; [done|].
    by apply elem_of_map_to_list.
Qed.

Lemma sortedIds_perm c : sortedIds c ≡ₚ (map_to_list (copyConfig c)).*1.
Proof.
  unfold sortedIds, copyConfig. rewrite merge_sort_Permutation.
  apply fmap_Permutation. symmetry. apply NoDup_Permutation.
  - apply NoDup_map_to_list.
  - apply NoDup_filter, NoDup_map_to_list.
  - intros [id v]. rewrite elem_of_map_to_list, list_elem_of_filter, elem_of_map_to_list.
    rewrite map_lookup_filter_Some. tauto.
Qed.

Lemma sortedIds_nodup c : NoDup (sortedIds c).
Proof. rewrite sortedIds_perm. apply NoDup_fst_map_to_list. Qed.

Lemma sortedIds_sorted c : StronglySorted Z.le (sortedIds c).
Proof. apply Sorted_StronglySorted; [intros ? ? ?; lia|]. apply Sorted_merge_sort. intros x y. lia. Qed.

Lemma sortedIds_len c : len (sortedIds c) = Z.of_nat (size (copyConfig c)).
Proof. unfold len. by rewrite sortedIds_perm, length_fmap, length_map_to_list. Qed.
Definition encodeIds (ids : list NodeID) : bytes := concat ((fun id => le_bytes 8 (u64 id)) <$> ids).

Lemma encodeIds_cons id ids : encodeIds (id :: ids) = le_bytes 8 (u64 id) ++ encodeIds ids.
Proof. done. Qed.

Lemma len_encodeIds ids : len (encodeIds ids) = 8 * len ids.
Proof.
  induction ids as [|id ids IH]; [done|]. rewrite encodeIds_cons, len_app, len_le_bytes, IH, len_cons. lia.
Qed.

Lemma decodeConfig_loop_spec ids : forall pre n out,
  Forall (fun id => - 2 ^ 63 <= id < 2 ^ 63) ids -> (length ids <= n)%nat ->
  decodeConfig_loop n (pre ++ encodeIds ids) (len pre) out
  = foldl (fun m id => <[id := true]> m) out ids.
Proof.
  induction ids as [|id ids IH]; intros pre n out Hok Hn.
  - destruct n; [done|]. cbn [decodeConfig_loop encodeIds fmap list_fmap concat].
    rewrite app_nil_r, decide_False by lia. done.
  - destruct n as [|n]; [cbn in Hn; lia|]. apply Forall_cons in Hok as [Hid Hok].
    cbn [decodeConfig_loop foldl]. rewrite encodeIds_cons.
    rewrite decide_True by (rewrite !len_app, len_le_bytes, len_encodeIds; pose proof (len_nonneg ids); lia).
    rewrite record.Uint64_mid by done. rewrite (u64_small (u64 id)) by apply is_u64_u64.
    rewrite i64_u64 by done. rewrite app_assoc.
    replace (len pre + 8) with (len (pre ++ le_bytes 8 (u64 id))) by (rewrite len_app, len_le_bytes; lia).
    apply IH; [done|]. cbn in Hn. lia.
Qed.

Lemma foldl_members ids (m : Members) id :
  foldl (fun m id => <[id := true]> m) m ids !! id = if decide (id ∈ ids) then Some true else m !! id.
Proof.
  revert m. induction ids as [|x ids IH]; intros m; cbn [foldl]; [done|]. rewrite IH.
  destruct (decide (id ∈ ids)); [by rewrite decide_True by (apply elem_of_cons; auto)|].
  destruct (decide (x = id)) as [->|].
  - by rewrite lookup_insert_eq, decide_True by (apply elem_of_cons; auto).
  - rewrite lookup_insert_ne, decide_False by (done || (rewrite elem_of_cons; naive_solver)). done.
Qed.

Lemma Uint32_head x c : record.Uint32 (le_bytes 4 x ++ c) 0 = u32 x.
Proof. apply (record.Uint32_mid []). done. Qed.

Lemma decode_encode c :
  Forall (fun id => - 2 ^ 63 <= id < 2 ^ 63) (sortedIds c) -> len (sortedIds c) < 2 ^ 32 ->
  decodeConfig (encodeConfig c) = copyConfig c.
Proof.
  intros Hok Hlt. unfold decodeConfig, encodeConfig. fold (encodeIds (sortedIds c)).
  pose proof (len_nonneg (sortedIds c)) as Hn. pose proof (len_encodeIds (sortedIds c)) as Hl.
  rewrite len_app, len_le_bytes, decide_False by lia.
  rewrite Uint32_head. unfold u32 at 1 2. rewrite Zmod_mod, Z.mod_small by lia.
  rewrite length_app, length_le_bytes.
  assert (Nat.min (Z.to_nat (len (sortedIds c))) (4 + length (encodeIds (sortedIds c)))
          = length (sortedIds c)) as -> by (unfold len in *; lia).
  pose proof (decodeConfig_loop_spec (sortedIds c) (le_bytes 4 (u32 (len (sortedIds c))))
                (length (sortedIds c)) ∅ Hok (le_n _)) as E.
  rewrite len_le_bytes in E. change (Z.of_nat 4) with 4 in E. rewrite E.
  apply map_eq. intros id. rewrite foldl_members, lookup_empty. apply option_eq. intros v.
  rewrite copyConfig_lookup. case_decide as Hin.
  - apply sortedIds_elem in Hin. rewrite Hin. naive_solver.
  - split; [done|]. intros [H ->]. exfalso. apply Hin. by apply sortedIds_elem.
Qed.

Lemma wf_sortedIds c : wf c -> Forall (fun id => - 2 ^ 63 <= id < 2 ^ 63) (sortedIds c)
  /\ len (sortedIds c) < 2 ^ 32 /\ copyConfig c = c.
Proof.
  intros [H Hs]. assert (copyConfig c = c) as Hc by (apply copyConfig_id; intros id v Hv; apply (H id v Hv)).
  split; [|split; [by rewrite sortedIds_len, Hc|done]].
  apply Forall_forall. intros id Hid%sortedIds_elem. apply (H id true Hid).
Qed.

Lemma decode_encode_wf c : wf c -> decodeConfig (encodeConfig c) = c.
Proof. intros (H1 & H2 & H3)%wf_sortedIds. by rewrite decode_encode, H3. Qed.

Lemma configEqual_spec a b :
  (forall id v, a !! id = Some v -> v = true) -> (forall id v, b !! id = Some v -> v = true) ->
  configEqual a b = true <-> a = b.
Proof.
  intros Ha Hb. unfold configEqual. rewrite andb_true_iff, bool_decide_eq_true, forallb_forall. split.
  - intros [Hsz Hall]. apply map_subseteq_size_eq; [|by rewrite Hsz]. apply map_subseteq_spec. intros id v Hv.
    pose proof (Ha _ _ Hv) as ->.
    assert (id ∈ (map_to_list a).*1) as Hin.
    { apply list_elem_of_fmap. exists (id, true). split; [done|]. by apply elem_of_map_to_list. }
    apply list_elem_of_In, Hall in Hin. destruct (b !! id) as [v|] eqn:E; [|done]. by rewrite (Hb _ _ E).
  - intros <-. split; [done|]. intros id Hin%list_elem_of_In%list_elem_of_fmap.
    destruct Hin as ([id' v] & -> & Hin%elem_of_map_to_list). cbn. rewrite Hin. cbn. by eapply Ha.
Qed.

Lemma openRaftStateFile_save t v :
  is_u64 t -> - 2 ^ 63 <= v < 2 ^ 63 -> openRaftStateFile (saved t v) = MkHard t v true.
Proof.
  intros Ht Hv. unfold openRaftStateFile, saved, stateBytes. rewrite len_app, !len_le_bytes, decide_False by (unfold raftStateFileSize; lia).
  rewrite record.Uint64_head, u64_small by done.
  pose proof (record.Uint64_mid (le_bytes 8 t) (u64 v) [] 8) as E. rewrite app_nil_r in E.
  rewrite E by (by rewrite len_le_bytes). rewrite (u64_small (u64 v)) by apply is_u64_u64. by rewrite i64_u64.
Qed.

Lemma openRaftStateFile_range file :
  is_u64 (currentTerm (openRaftStateFile file)) /\ - 2 ^ 63 <= votedFor (openRaftStateFile file) < 2 ^ 63.
Proof.
  unfold openRaftStateFile. destruct file as [buf|]; cbn [currentTerm votedFor];
    [case_decide as Hl; cbn [currentTerm votedFor]|]; unfold raftStateFileSize in *.
  2:{ split; [apply record.Uint64_range; lia|]. unfold i64.
      pose proof (Z.mod_pos_bound (record.Uint64 buf 8 + 2 ^ 63) (2 ^ 64)). lia. }
  all: unfold is_u64, noVote; lia.
Qed.

(** ** Properties *)

(** The durable Raft files round trip: a membership of 64-bit ids reads back
    from its encoding (so do two maps with the same members, whatever the
    iteration order), equal memberships are exactly those [configEqual] accepts,
    and the hard state reads back from its file, the no-vote sentinel included;
    a missing or short file is no state at all; whenever a write fails, the file
    holds the old contents or the new ones. *)
Theorem raft_files_roundtrip (c c' : Members) t v file :
  wf c -> wf c' -> is_u64 t -> - 2 ^ 63 <= v < 2 ^ 63 ->
  decodeConfig (encodeConfig c) = c
  /\ readBaseConfigFile (writeBaseConfigFile file c None).1 = Some c
  /\ (encodeConfig c = encodeConfig c' <-> c = c')
  /\ (configEqual c c' = true <-> c = c')
  /\ openRaftStateFile (save file t v None).1 = MkHard t v true
  /\ openRaftStateFile (save file t noVote None).1 = MkHard t (-1) true
  /\ (forall fault, openRaftStateFile (save file t v fault).1
        = (if decide (fault = Some 0%nat) then openRaftStateFile file else MkHard t v true)
      /\ ((save file t v fault).2 = true <-> fault = None))
  /\ (forall file, len file < raftStateFileSize -> openRaftStateFile (Some file) = openRaftStateFile None).
Proof.
  intros Hc Hc' Ht Hv. split_and!.
  - by apply decode_encode_wf.
  - unfold readBaseConfigFile, writeBaseConfigFile. cbn [replaceFile fst fmap option_fmap option_map]. by rewrite decode_encode_wf.
  - split; [|by intros ->]. intros E. by rewrite <- (decode_encode_wf c), <- (decode_encode_wf c'), E.
  - apply configEqual_spec; intros id b Hb; [by apply (proj1 Hc) in Hb as [_ ?]|by apply (proj1 Hc') in Hb as [_ ?]].
  - by apply openRaftStateFile_save.
  - apply openRaftStateFile_save; [done|unfold noVote; lia].
  - intros [[|k]|]; (split; [|done]); [done|..]; by apply openRaftStateFile_save.
  - intros short Hl. cbn. by rewrite decide_True.
Qed.

(** ** Witnesses *)

Definition demo_members : Members := <[0 := true]> (<[2 := true]> (<[1 := true]> ∅)).

Lemma demo_members_wf : wf demo_members.
Proof.
  split; [|by_decide]. intros id v H. unfold demo_members in H.
  rewrite !lookup_insert_Some, lookup_empty in H. naive_solver lia.
Qed.

Lemma raft_files_roundtrip_witness :
  decodeConfig (encodeConfig demo_members) = demo_members
  /\ openRaftStateFile (save None 7 2 None).1 = MkHard 7 2 true.
Proof.
  destruct (raft_files_roundtrip demo_members demo_members 7 2 None demo_members_wf demo_members_wf)
    as (H1 & _ & _ & _ & H2 & _).
  - unfold is_u64. lia.
  - lia.
  - split; [exact H1|exact H2].
Defined.

End config.
