(* ===== verification/RaftLogFile.v ===== *)
(** * The durable Raft log (internal/cluster/raftlogfile.go)

    An open log file: the contents of the inode the descriptor refers to, its
    write position, what the path names when that is another inode (only after
    a compaction that failed past its rename), and the offsets of the frames.
    The operations that report I/O errors take the failure as an argument, so
    the state an error leaves behind is part of the model; [load] runs with
    working I/O.  The contract is the mirror of the in-memory log of RaftLog.v. *)

From Stdlib Require Import ZArith Lia.
From Stdlib Require Import Strings.Byte.
From stdpp Require Import base list gmap.
From S2P Require Import Prelude.
From S2P Require Import RecordFmt.
From S2P Require Import RaftLog.

#[local] Open Scope Z_scope.

Module raftlogfile.
Import raftlog.

Definition raftLogMagic : Z := 0x524146544C4F4722.
Definition raftLogHeaderSize : Z := 24.
Definition raftEntryHeaderSize : Z := 13.

Inductive error := ErrBadRaftLog | ErrClosed | ErrIO.

Record raftLogFile := MkLogFile {
  f : bytes;
  pos : Z;
  elsewhere : option bytes;   (* contents of the path when it is not [f] *)
  is_open : bool;
  sync : bool;
  lf_baseIndex : Z;
  lf_baseTerm : Z;
  offsets : list Z;
  size : Z
}.

(** What a crash (or a reopen) finds at the path. *)
Definition at_path (lf : raftLogFile) : bytes := default (f lf) (elsewhere lf).

Definition header (baseIndex baseTerm : Z) : bytes :=
  le_bytes 8 raftLogMagic ++ le_bytes 8 baseIndex ++ le_bytes 8 baseTerm.

Definition frame (e : logEntry) : bytes :=
  (le_bytes 8 (e_term e) ++ [e_kind e] ++ le_bytes 4 (u32 (len (e_bytes e)))) ++ e_bytes e.

(** ** Opening *)

Definition writeFreshHeader (syncOn : bool) (baseIndex baseTerm : Z) : raftLogFile :=
  MkLogFile (header baseIndex baseTerm) raftLogHeaderSize None true syncOn baseIndex baseTerm []
    raftLogHeaderSize.

(** The frames from [off] on; a torn frame ends the loop. Every frame takes at
    least 13 bytes, so the file length is enough fuel. *)
Fixpoint load_loop (fuel : nat) (buf : bytes) (off : Z) (entries : list logEntry) (offs : list Z)
  : list logEntry * list Z * Z :=
  match fuel with
  | O => (entries, offs, off)
  | S fuel' =>
      if decide (off < len buf) then
        if decide (off + raftEntryHeaderSize > len buf) then (entries, offs, off)
        else
          let term := record.Uint64 buf off in
          let kind := default x00 (buf !! Z.to_nat (off + 8)) in
          let n := record.Uint32 buf (off + 9) in
          let end_ := off + raftEntryHeaderSize + n in
          if decide (end_ > len buf) then (entries, offs, off)
          else
            load_loop fuel' buf end_
              (entries ++ [MkLogEntry term kind (slice (off + raftEntryHeaderSize) end_ buf)])
              (offs ++ [off])
      else (entries, offs, off)
  end.

Definition load (buf : bytes) (syncOn : bool) : outcome error (raftLogFile * list logEntry) :=
  if decide (len buf = 0) then Ok (writeFreshHeader syncOn 0 0, [])
  else if decide (len buf < 8) then Ok (writeFreshHeader syncOn 0 0, [])
  else if decide (record.Uint64 buf 0 <> raftLogMagic) then Err ErrBadRaftLog
  else if decide (len buf < raftLogHeaderSize) then Ok (writeFreshHeader syncOn 0 0, [])
  else
    let '(entries, offs, off) := load_loop (S (length buf)) buf raftLogHeaderSize [] [] in
    Ok (MkLogFile (take (Z.to_nat off) buf) off None true syncOn
          (record.Uint64 buf 8) (record.Uint64 buf 16) offs off, entries).

(** [None] is a missing file, which is created. *)
Definition openRaftLogFile (file : option bytes) (syncOn : bool)
  : outcome error (raftLogFile * list logEntry) := load (default [] file) syncOn.

(** ** Append

    [fault = Some k]: the writes or the fsync fail once [k] bytes of the frame
    have reached the file. *)
Definition append (lf : raftLogFile) (term : Z) (kind : EntryKind) (data : bytes) (fault : option nat)
  : raftLogFile * option error :=
  if negb (is_open lf) then (lf, Some ErrClosed)
  else
    let fr := frame (MkLogEntry term kind data) in
    match fault with
    | Some k =>
        let written := take k fr in
        (MkLogFile (pwrite (f lf) (pos lf) written) (pos lf + len written) (elsewhere lf) (is_open lf)
           (sync lf) (lf_baseIndex lf) (lf_baseTerm lf) (offsets lf) (size lf), Some ErrIO)
    | None =>
        (MkLogFile (pwrite (f lf) (pos lf) fr) (pos lf + len fr) (elsewhere lf) (is_open lf)
           (sync lf) (lf_baseIndex lf) (lf_baseTerm lf) (offsets lf ++ [size lf])
           (i64 (size lf + (raftEntryHeaderSize + len data))), None)
    end.

(** ** Truncation

    [fault]: 0, the truncation fails; 1, the fsync after it; more, the seek. *)
Definition truncateFrom (lf : raftLogFile) (index : Z) (fault : option nat) : raftLogFile * option error :=
  if negb (is_open lf) then (lf, Some ErrClosed)
  else if decide (index <= lf_baseIndex lf) then (lf, None)
  else
    let p := u64 (index - lf_baseIndex lf - 1) in
    match offsets lf !! Z.to_nat p with
    | None => (lf, None)
    | Some off =>
        let set (f' : bytes) (pos' : Z) (offs : list Z) (sz : Z) :=
          MkLogFile f' pos' (elsewhere lf) (is_open lf) (sync lf) (lf_baseIndex lf) (lf_baseTerm lf) offs sz in
        let f' := take (Z.to_nat off) (f lf) in
        let offs' := take (Z.to_nat p) (offsets lf) in
        match fault with
        | None => (set f' off offs' off, None)
        | Some 0%nat => (lf, Some ErrIO)
        | Some 1%nat => (set f' (pos lf) (offsets lf) (size lf), Some ErrIO)
        | Some _ => (set f' (pos lf) offs' off, Some ErrIO)
        end
    end.

(** ** Compaction *)

Fixpoint frameOffsets (off : Z) (es : list logEntry) : list Z :=
  match es with
  | [] => []
  | e :: es' => off :: frameOffsets (off + (raftEntryHeaderSize + len (e_bytes e))) es'
  end.

Definition frames (es : list logEntry) : bytes := concat (frame <$> es).

(** [fault]: 0, a failure up to and including the rename, which leaves the file
    as it was; more, a failure after the rename (directory fsync, reopen, seek),
    when the path already names the new file but the descriptor is the old one. *)
Definition compact (lf : raftLogFile) (newBaseIndex newBaseTerm : Z) (survivors : list logEntry)
  (fault : option nat) : raftLogFile * option error :=
  if negb (is_open lf) then (lf, Some ErrClosed)
  else
    let content := header newBaseIndex newBaseTerm ++ frames survivors in
    match fault with
    | Some 0%nat => (lf, Some ErrIO)
    | Some _ =>
        (MkLogFile (f lf) (pos lf) (Some content) (is_open lf) (sync lf) (lf_baseIndex lf)
           (lf_baseTerm lf) (offsets lf) (size lf), Some ErrIO)
    | None =>
        (MkLogFile content (len content) None (is_open lf) (sync lf) newBaseIndex newBaseTerm
           (frameOffsets raftLogHeaderSize survivors) (len content), None)
    end.

Definition resetToBase (lf : raftLogFile) (newBaseIndex newBaseTerm : Z) (fault : option nat)
  : raftLogFile * option error := compact lf newBaseIndex newBaseTerm [] fault.

Definition close (lf : raftLogFile) : raftLogFile :=
  MkLogFile (f lf) (pos lf) (elsewhere lf) false (sync lf) (lf_baseIndex lf) (lf_baseTerm lf)
    (offsets lf) (size lf).

(** What is at the path afterwards, and the result. *)
Definition resetRaftLogFileTo (file : option bytes) (idx term : Z) (syncOn : bool)
  (fault : option nat) : option bytes * outcome error unit :=
  match openRaftLogFile file syncOn with
  | Ok (lf, _) =>
      let '(lf', err) := compact lf idx term [] fault in
      (Some (at_path (close lf')), match err with None => Ok tt | Some e => Err e end)
  | Err e => (file, Err e)
  | Panic => (file, Panic)
  end.

(** ** The mirror *)

Definition contents (l : RaftLog) : bytes := header (baseIndex l) (baseTerm l) ++ frames (entries l).

(** Entries the frame format can carry. *)
Definition entry_ok (e : logEntry) : Prop := is_u64 (e_term e) /\ len (e_bytes e) < 2 ^ 32.

Record mirrors (lf : raftLogFile) (l : RaftLog) : Prop := {
  mir_f : f lf = contents l;
  mir_pos : pos lf = len (contents l);
  mir_size : size lf = len (contents l);
  mir_path : elsewhere lf = None;
  mir_open : is_open lf = true;
  mir_base : lf_baseIndex lf = baseIndex l;
  mir_baseTerm : lf_baseTerm lf = baseTerm l;
  mir_offsets : offsets lf = frameOffsets raftLogHeaderSize (entries l);
  mir_ok : Forall entry_ok (entries l);
  mir_bounds : is_u64 (baseIndex l) /\ is_u64 (baseTerm l);
  mir_small : len (contents l) < 2 ^ 63
}.
(** ** Lemmas *)

(** A proper prefix of a frame, what an interrupted append leaves. *)
Definition torn (tail : bytes) : Prop :=
  exists e n, entry_ok e /\ tail = take n (frame e) /\ (n < length (frame e))%nat.

Lemma len_header b t : len (header b t) = 24.
Proof. unfold header. rewrite !len_app, !len_le_bytes. done. Qed.

Lemma len_frame e : len (frame e) = 13 + len (e_bytes e).
Proof. unfold frame. rewrite !len_app, !len_le_bytes. change (len [e_kind e]) with 1. lia. Qed.

Lemma frames_cons e es : frames (e :: es) = frame e ++ frames es.
Proof. done. Qed.

Lemma frames_app es es' : frames (es ++ es') = frames es ++ frames es'.
Proof. unfold frames. by rewrite fmap_app, concat_app. Qed.

Lemma frames_snoc es e : frames (es ++ [e]) = frames es ++ frame e.
Proof. by rewrite frames_app, frames_cons, app_nil_r. Qed.

Lemma len_contents l : len (contents l) = 24 + len (frames (entries l)).
Proof. unfold contents. by rewrite len_app, len_header. Qed.

Lemma frameOffsets_app o es es' :
  frameOffsets o (es ++ es') = frameOffsets o es ++ frameOffsets (o + len (frames es)) es'.
Proof.
  revert o. induction es as [|e es IH]; intros o; cbn [frameOffsets app].
  - change (len (frames [])) with 0. by rewrite Z.add_0_r.
  - rewrite IH, frames_cons, len_app, len_frame. unfold raftEntryHeaderSize. do 3 f_equal. lia.
Qed.

Lemma length_frameOffsets o es : length (frameOffsets o es) = length es.
Proof. revert o. induction es as [|e es IH]; intros o; cbn; [done|by rewrite IH]. Qed.

Lemma frameOffsets_lookup o es j :
  (j < length es)%nat -> frameOffsets o es !! j = Some (o + len (frames (take j es))).
Proof.
  intros Hj. rewrite <- (take_drop j es) at 1. rewrite frameOffsets_app.
  assert (length (take j es) = j) as Hl by (rewrite length_take; lia).
  rewrite lookup_app_r by (rewrite length_frameOffsets; lia).
  rewrite length_frameOffsets, Hl, Nat.sub_diag.
  destruct (drop j es) as [|e es'] eqn:E; [|done].
  apply (f_equal length) in E. rewrite length_drop in E. cbn in E. lia.
Qed.

Lemma frameOffsets_take o es j : take j (frameOffsets o es) = frameOffsets o (take j es).
Proof.
  destruct (decide (j <= length es)%nat) as [Hj|Hj].
  - rewrite <- (take_drop j es) at 1. rewrite frameOffsets_app.
    rewrite take_app_le by (rewrite length_frameOffsets, length_take; lia).
    apply take_ge. rewrite length_frameOffsets, length_take. lia.
  - rewrite !take_ge; [done|lia|rewrite length_frameOffsets; lia].
Qed.

(** The fields of a frame inside a file. *)
Lemma frame_fields pre e rest :
  entry_ok e ->
  let buf := pre ++ frame e ++ rest in let off := len pre in
  record.Uint64 buf off = e_term e
  /\ buf !! Z.to_nat (off + 8) = Some (e_kind e)
  /\ record.Uint32 buf (off + 9) = len (e_bytes e)
  /\ slice (off + 13) (off + 13 + len (e_bytes e)) buf = e_bytes e.
Proof.
  intros [Ht Hd]. cbn zeta. pose proof (len_nonneg (e_bytes e)). unfold frame.
  assert (u32 (len (e_bytes e)) = len (e_bytes e)) as Hu by (unfold u32; apply Z.mod_small; lia).
  rewrite <- !app_assoc. split_and!.
  - rewrite record.Uint64_mid by done. by apply u64_small.
  - rewrite (app_assoc pre).
    assert (Z.to_nat (len pre + 8) = length (pre ++ le_bytes 8 (e_term e)))%nat as ->
      by (rewrite length_app, length_le_bytes; unfold len; lia).
    by rewrite lookup_app_r, Nat.sub_diag by lia.
  - rewrite (app_assoc pre), (app_assoc _ [_]), record.Uint32_mid, Hu; [exact Hu|].
    rewrite !len_app, len_le_bytes. change (len [e_kind e]) with 1. lia.
  - rewrite (app_assoc pre), (app_assoc _ [_]), (app_assoc _ (le_bytes 4 _)).
    apply slice_mid; rewrite !len_app, !len_le_bytes; change (len [e_kind e]) with 1; lia.
Qed.

Lemma load_loop_spec es tail : forall pre fuel acc offs,
  Forall entry_ok es -> torn tail -> (length es < fuel)%nat ->
  load_loop fuel (pre ++ frames es ++ tail) (len pre) acc offs
  = (acc ++ es, offs ++ frameOffsets (len pre) es, len (pre ++ frames es)).
Proof.
  induction es as [|e es IH]; intros pre fuel acc offs Hok Ht Hf; (destruct fuel as [|fuel]; [cbn in Hf; lia|]);
    cbn [load_loop].
  - cbn [frames fmap list_fmap concat app frameOffsets]. rewrite !app_nil_r.
    destruct Ht as (e & n & He & -> & Hn).
    assert (len (take n (frame e)) = Z.of_nat n) as Hl by (unfold len; rewrite length_take; lia).
    pose proof (len_frame e) as Hfr. rewrite len_app, Hl.
    case_decide; [|done]. case_decide as Hh; [done|]. unfold raftEntryHeaderSize in *.
    rewrite decide_True; [done|].
    destruct He as [He1 He2]. pose proof (len_nonneg (e_bytes e)).
    enough (record.Uint32 (pre ++ take n (frame e)) (len pre + 9) = len (e_bytes e)) as ->
      by (unfold len in Hfr |- *; unfold len in Hn; lia).
    pose proof (frame_fields pre e [] (conj He1 He2)) as (_ & _ & E & _). rewrite app_nil_r in E.
    rewrite <- E. unfold record.Uint32. f_equal.
    rewrite <- (take_drop n (frame e)) at 2. rewrite app_assoc. symmetry.
    apply slice_app_l; [pose proof (len_nonneg pre); lia|lia|]. rewrite len_app, Hl. lia.
  - apply Forall_cons in Hok as [He Hok]. rewrite frames_cons, <- app_assoc.
    pose proof (frame_fields pre e (frames es ++ tail) He) as (E1 & E2 & E3 & E4).
    pose proof (len_nonneg (e_bytes e)) as H0. pose proof (len_frame e) as Hl.
    pose proof (len_nonneg (frames es ++ tail)).
    assert (len (pre ++ frame e ++ frames es ++ tail) = len pre + 13 + len (e_bytes e) + len (frames es ++ tail))
      as Hlen by (rewrite (app_assoc pre), len_app, len_app, Hl; lia).
    unfold raftEntryHeaderSize in *. rewrite decide_True by lia. rewrite decide_False by lia.
    rewrite E1, E2, E3. cbn [default from_option id]. rewrite decide_False by lia. rewrite E4.
    replace (MkLogEntry (e_term e) (e_kind e) (e_bytes e)) with e by by destruct e.
    replace (len pre + 13 + len (e_bytes e)) with (len (pre ++ frame e)) by (rewrite len_app, Hl; lia).
    rewrite app_assoc, IH by (done || (cbn in Hf; lia)).
    rewrite <- !app_assoc. cbn [app frameOffsets]. do 5 f_equal.
    rewrite len_app, Hl. unfold raftEntryHeaderSize. lia.
Qed.

Lemma length_frames es : (length es <= length (frames es))%nat.
Proof.
  induction es as [|e es IH]; [done|]. rewrite frames_cons, length_app. cbn.
  pose proof (len_frame e) as H. pose proof (len_nonneg (e_bytes e)). unfold len in H, H0. lia.
Qed.

Lemma torn_nil : torn [].
Proof.
  exists (MkLogEntry 0 EntryData []), 0%nat. split; [|split; [done|by_decide]].
  split; [split; by_decide|by_decide].
Qed.

(** Loading a whole log with a torn append at its end. *)
Lemma load_contents l tail s :
  Forall entry_ok (entries l) -> is_u64 (baseIndex l) -> is_u64 (baseTerm l) -> torn tail ->
  load (contents l ++ tail) s
  = Ok (MkLogFile (contents l) (len (contents l)) None true s (baseIndex l) (baseTerm l)
          (frameOffsets 24 (entries l)) (len (contents l)), entries l).
Proof.
  intros Hok Hb Ht Htail. unfold load. pose proof (len_contents l) as Hl.
  pose proof (len_nonneg (frames (entries l))). pose proof (len_nonneg tail).
  rewrite len_app, !decide_False by (unfold raftLogHeaderSize; lia).
  assert (record.Uint64 (contents l ++ tail) 0 = raftLogMagic) as ->.
  { unfold contents, header. rewrite <- !app_assoc. by rewrite record.Uint64_head. }
  rewrite decide_False by (intros H1; by apply H1). rewrite decide_False by (unfold raftLogHeaderSize; lia).
  assert (record.Uint64 (contents l ++ tail) 8 = baseIndex l) as ->.
  { unfold contents, header. rewrite <- !app_assoc, record.Uint64_mid by by rewrite len_le_bytes.
    by apply u64_small. }
  assert (record.Uint64 (contents l ++ tail) 16 = baseTerm l) as ->.
  { unfold contents, header. rewrite <- !app_assoc, (app_assoc (le_bytes 8 raftLogMagic)), record.Uint64_mid
      by (rewrite len_app, !len_le_bytes; lia). by apply u64_small. }
  unfold contents at 1 2. rewrite <- app_assoc.
  replace raftLogHeaderSize with (len (header (baseIndex l) (baseTerm l))) by by rewrite len_header.
  rewrite load_loop_spec; [|done|done|].
  - cbn [app]. fold (contents l). rewrite take_len_app by done. by rewrite len_header.
  - pose proof (length_frames (entries l)). rewrite !length_app. lia.
Qed.

Lemma mirrors_loaded l s :
  Forall entry_ok (entries l) -> is_u64 (baseIndex l) -> is_u64 (baseTerm l) -> len (contents l) < 2 ^ 63 ->
  mirrors (MkLogFile (contents l) (len (contents l)) None true s (baseIndex l) (baseTerm l)
             (frameOffsets 24 (entries l)) (len (contents l))) l.
Proof. intros. by split. Qed.

Lemma append_mirrors lf l t k d :
  mirrors lf l -> entry_ok (MkLogEntry t k d) -> len (contents l) + (13 + len d) < 2 ^ 63 ->
  exists lf', append lf t k d None = (lf', None) /\ mirrors lf' (raftlog.append l t k d).1.
Proof.
  intros [Hf Hp Hs He Ho Hb Ht Hoff Hok Hu Hsm] Hent Hlt. unfold append. rewrite Ho. cbn [negb].
  eexists. split; [done|]. rewrite Hf, Hp, pwrite_end, Hs, Hoff.
  set (e := MkLogEntry t k d) in *. pose proof (len_contents l) as Hl. pose proof (len_nonneg d).
  assert (contents l ++ frame e = contents (raftlog.append l t k d).1) as E.
  { unfold contents. cbn [raftlog.append fst baseIndex baseTerm entries]. by rewrite frames_snoc, app_assoc. }
  assert (len (contents (raftlog.append l t k d).1) = len (contents l) + (13 + len d)) as El.
  { rewrite <- E, len_app, len_frame. done. }
  pose proof (len_nonneg (frames (entries l))).
  split; cbn [f pos size elsewhere is_open lf_baseIndex lf_baseTerm offsets]; rewrite ?E.
  - reflexivity.
  - by rewrite El, len_frame.
  - rewrite El. unfold raftEntryHeaderSize. rewrite i64_small; lia.
  - exact He.
  - reflexivity.
  - exact Hb.
  - exact Ht.
  - cbn [raftlog.append fst entries]. rewrite frameOffsets_app. f_equal. cbn [frameOffsets].
    f_equal. rewrite Hl. done.
  - cbn [raftlog.append fst entries]. apply Forall_app. split; [done|]. by apply Forall_singleton.
  - exact Hu.
  - lia.
Qed.

Lemma truncateFrom_mirrors lf l i :
  mirrors lf l -> wf l -> is_u64 i ->
  exists lf', truncateFrom lf i None = (lf', None) /\ mirrors lf' (raftlog.truncateFrom l i).
Proof.
  intros Hm [Hb0 _ Hsmall] Hi. pose proof Hm as [Hf Hp Hs He Ho Hb Ht Hoff Hok Hu Hsm].
  pose proof maxPersisted_bound. pose proof (len_nonneg (entries l)).
  assert (lastIndex l = baseIndex l + len (entries l)) as Hlast
    by (unfold lastIndex; rewrite u64_small by (unfold is_u64; lia); done).
  unfold truncateFrom, raftlog.truncateFrom. rewrite Ho, Hb, Hoff, Hlast. cbn [negb].
  case_decide as H1; [by exists lf|].
  assert (u64 (i - baseIndex l - 1) = i - baseIndex l - 1) as ->
    by (apply u64_small; unfold is_u64 in *; lia).
  set (j := Z.to_nat (i - baseIndex l - 1)).
  case_decide as H2.
  - rewrite frameOffsets_lookup by (unfold j, len in *; lia). eexists. split; [done|].
    rewrite frameOffsets_take, Hf.
    set (l' := MkRaftLog (baseIndex l) (baseTerm l) (take j (entries l))).
    assert (24 + len (frames (take j (entries l))) = len (contents l')) as El by (by rewrite len_contents).
    assert (take (Z.to_nat (len (contents l'))) (contents l) = contents l') as E.
    { unfold contents at 2. rewrite <- (take_drop j (entries l)), frames_app, app_assoc.
      by apply take_len_app. }
    unfold raftLogHeaderSize. rewrite El, E.
    split; cbn [f pos size elsewhere is_open lf_baseIndex lf_baseTerm offsets]; try done.
    + cbn [l' entries]. by apply Forall_take.
    + apply (f_equal len) in E. rewrite <- E. unfold len in *. rewrite length_take. lia.
  - rewrite lookup_ge_None_2; [by exists lf|]. rewrite length_frameOffsets. unfold j, len in *. lia.
Qed.

(** The compacted log [l'] written over the old one. *)
Lemma compact_mirrors lf l l' :
  mirrors lf l -> Forall entry_ok (entries l') -> is_u64 (baseIndex l') -> is_u64 (baseTerm l') ->
  len (contents l') < 2 ^ 63 ->
  exists lf', compact lf (baseIndex l') (baseTerm l') (entries l') None = (lf', None) /\ mirrors lf' l'.
Proof.
  intros Hm Hok Hb Ht Hlt. unfold compact. rewrite (mir_open _ _ Hm). cbn [negb].
  eexists. split; [done|]. split; cbn [f pos size elsewhere is_open lf_baseIndex lf_baseTerm offsets]; done.
Qed.

Lemma len_frames_drop j es : len (frames (drop j es)) <= len (frames es).
Proof.
  rewrite <- (take_drop j es) at 2. rewrite frames_app, len_app.
  pose proof (len_nonneg (frames (take j es))). lia.
Qed.

(** ** The paired operations of the node

    What the node does to its two logs while the disk works: both are changed
    together under its mutex. *)

Inductive op :=
| OAppend (t : Z) (k : EntryKind) (d : bytes)
| OTruncate (i : Z)
| OCompact (i : Z)
| OReset (i t : Z)
| OCrash (tail : bytes).   (* reopened with [tail] after the whole frames *)

Definition op_ok (l : RaftLog) (o : op) : Prop :=
  match o with
  | OAppend t k d => entry_ok (MkLogEntry t k d) /\ len (contents l) + (13 + len d) < 2 ^ 63
      /\ baseIndex l + len (entries l) < maxPersisted
  | OTruncate i => is_u64 i
  | OCompact i => baseIndex l < i <= lastIndex l
  | OReset i t => 0 < i <= maxPersisted /\ is_u64 t
  | OCrash tail => torn tail
  end.

Definition run_op (lf : raftLogFile) (l : RaftLog) (o : op) : option (raftLogFile * RaftLog) :=
  let both r l' := match r with (lf', None) => Some (lf', l') | _ => None end in
  match o with
  | OAppend t k d => both (append lf t k d None) (raftlog.append l t k d).1
  | OTruncate i => both (truncateFrom lf i None) (raftlog.truncateFrom l i)
  | OCompact i =>
      t ← term l i;
      es ← entriesAfter l i;
      both (compact lf i t es None) (compactTo l i t)
  | OReset i t => both (resetToBase lf i t None) (raftlog.resetToBase l i t)
  | OCrash tail =>
      match openRaftLogFile (Some (at_path lf ++ tail)) (sync lf) with
      | Ok (lf', es) =>
          Some (lf', foldl (fun l e => (raftlog.append l (e_term e) (e_kind e) (e_bytes e)).1)
                       (NewRaftLogWithBase (lf_baseIndex lf') (lf_baseTerm lf')) es)
      | _ => None
      end
  end.

(** The states a node's pair of logs goes through. *)
Inductive reachable (s : bool) : raftLogFile -> RaftLog -> Prop :=
| reach_new lf : openRaftLogFile None s = Ok (lf, []) -> reachable s lf NewRaftLog
| reach_op lf l o lf' l' :
    reachable s lf l -> op_ok l o -> run_op lf l o = Some (lf', l') -> reachable s lf' l'.

Lemma rebuild_log es : forall l,
  foldl (fun l e => (raftlog.append l (e_term e) (e_kind e) (e_bytes e)).1) l es
  = MkRaftLog (baseIndex l) (baseTerm l) (entries l ++ es).
Proof.
  induction es as [|e es IH]; intros l; cbn [foldl]; [by rewrite app_nil_r; destruct l|].
  rewrite IH. cbn [raftlog.append fst baseIndex baseTerm entries]. rewrite <- app_assoc. by destruct e.
Qed.

Lemma run_op_mirrors lf l o :
  mirrors lf l -> wf l -> op_ok l o ->
  exists lf' l', run_op lf l o = Some (lf', l') /\ mirrors lf' l' /\ wf l'
    /\ match o with OCrash _ => l' = l | _ => True end.
Proof.
  intros Hm Hwf Ho. pose proof maxPersisted_bound. pose proof Hwf as [Hb0 Hb1 Hsm].
  pose proof (len_nonneg (entries l)).
  assert (lastIndex l = baseIndex l + len (entries l)) as Hlast
    by (unfold lastIndex; rewrite u64_small by (unfold is_u64; lia); done).
  destruct o as [t k d|i|i|i t|tail]; cbn [op_ok run_op] in *.
  - destruct Ho as (He & Hl & Hn). destruct (append_mirrors lf l t k d Hm He Hl) as (lf' & -> & Hm').
    eexists _, _. split; [done|]. split_and!; [done| |done]. split; cbn [raftlog.append fst baseIndex baseTerm entries]; [done..|].
    rewrite len_app. change (len [_]) with 1. lia.
  - destruct (truncateFrom_mirrors lf l i Hm Hwf Ho) as (lf' & -> & Hm').
    eexists _, _. split; [done|]. split_and!; [done| |done]. unfold raftlog.truncateFrom.
    repeat case_decide; [done| |done]. split; cbn; [done..|]. unfold len in *. rewrite length_take. lia.
  - destruct (wf_represents l Hwf) as [L HL]. rewrite (rep_lastIndex HL) in Ho.
    rewrite (rep_term_at HL) by lia. rewrite (rep_entriesAfter HL) by lia. cbn [mbind option_bind].
    destruct (rep_compactTo HL i Ho) as [HL' Hi'].
    assert (entries (compactTo l i (full_term L i)) = drop (Z.to_nat i) L) as E
      by (rewrite (rep_entries _ _ HL'), Hi'; done).
    assert (baseTerm (compactTo l i (full_term L i)) = full_term L i) as E2
      by (rewrite (rep_term _ _ HL'), Hi'; done).
    destruct (rep_lookup i (L := L)) as (e & He & Hte); [lia|].
    assert (Forall entry_ok (entries l)) as Hok by apply Hm. rewrite (rep_entries _ _ HL) in Hok.
    destruct (compact_mirrors lf l (compactTo l i (full_term L i))) as (lf' & Hc & Hm'); [done|..].
    + rewrite E. replace (Z.to_nat i) with (Z.to_nat (baseIndex l) + Z.to_nat (i - baseIndex l))%nat by lia.
      rewrite <- drop_drop. by apply Forall_drop.
    + rewrite Hi'. pose proof (rep_small _ _ HL). unfold is_u64. lia.
    + rewrite E2, Hte. rewrite Forall_lookup in Hok.
      apply (Hok (Z.to_nat (i - 1) - Z.to_nat (baseIndex l))%nat e). rewrite lookup_drop.
      replace (Z.to_nat (baseIndex l) + (Z.to_nat (i - 1) - Z.to_nat (baseIndex l)))%nat with (Z.to_nat (i - 1)) by lia.
      done.
    + pose proof (mir_small _ _ Hm) as Hs. rewrite len_contents in Hs |- *. rewrite E.
      rewrite (rep_entries _ _ HL) in Hs.
      replace (Z.to_nat i) with (Z.to_nat (baseIndex l) + Z.to_nat (i - baseIndex l))%nat by lia.
      rewrite <- drop_drop. pose proof (len_frames_drop (Z.to_nat (i - baseIndex l)) (drop (Z.to_nat (baseIndex l)) L)). lia.
    + rewrite E, E2, Hi' in Hc. rewrite Hc. eexists _, _. split; [done|]. split_and!; [done| |done].
      by eapply represents_wf.
  - destruct Ho as [Hi Ht].
    destruct (compact_mirrors lf l (raftlog.resetToBase l i t) Hm) as (lf' & Hc & Hm');
      cbn [raftlog.resetToBase baseIndex baseTerm entries]; [done|unfold is_u64; lia|done|by_decide|].
    unfold resetToBase. cbn [raftlog.resetToBase baseIndex baseTerm entries] in Hc. rewrite Hc.
    eexists _, _. split; [done|]. split_and!; [done| |done]. split; cbn; [lia|lia|].
    change (len (@nil logEntry)) with 0. lia.
  - pose proof Hm as [Hf _ _ He _ _ _ _ Hok [Hu1 Hu2] Hlt]. unfold openRaftLogFile, at_path.
    rewrite He, Hf. cbn [default from_option id]. rewrite load_contents by done.
    rewrite rebuild_log. cbn [lf_baseIndex lf_baseTerm NewRaftLogWithBase baseIndex baseTerm entries app].
    eexists _, _. split; [done|].
    replace (MkRaftLog (baseIndex l) (baseTerm l) (entries l)) with l by by destruct l.
    split_and!; [by apply mirrors_loaded|done..].
Qed.

Lemma reachable_mirrors s lf l : reachable s lf l -> mirrors lf l /\ wf l.
Proof.
  induction 1 as [lf Ho|lf l o lf' l' _ [Hm Hwf] Hok Hr].
  - injection Ho as <-. split.
    + split; (done || by_decide).
    + split; [done..|]. by_decide.
  - destruct (run_op_mirrors lf l o Hm Hwf Hok) as (lf'' & l'' & E & Hm' & Hwf' & _). naive_solver.
Qed.

(** ** Properties *)

(** C29. The durable log mirrors the in-memory one: start from a missing file and
    run any sequence of appends, truncations, compactions, snapshot resets and
    crashes that leave a torn frame behind the last whole one. Then the two logs
    agree (contents, offsets, size, base), so a crash here, torn append or not,
    reopens to exactly the in-memory log; and every further operation of the
    sequence succeeds. *)
Theorem raftlogfile_durable s lf l tail :
  reachable s lf l -> torn tail ->
  mirrors lf l
  /\ (exists lf', openRaftLogFile (Some (at_path lf ++ tail)) s = Ok (lf', entries l)
        /\ lf_baseIndex lf' = baseIndex l /\ lf_baseTerm lf' = baseTerm l /\ at_path lf' = contents l)
  /\ run_op lf l (OCrash tail) = Some (MkLogFile (contents l) (len (contents l)) None true (sync lf)
       (baseIndex l) (baseTerm l) (frameOffsets raftLogHeaderSize (entries l)) (len (contents l)), l)
  /\ (forall o, op_ok l o -> exists lf' l', run_op lf l o = Some (lf', l') /\ reachable s lf' l').
Proof.
  intros Hr Ht. destruct (reachable_mirrors s lf l Hr) as [Hm Hwf].
  pose proof Hm as [Hf _ _ He _ _ _ _ Hok [Hu1 Hu2] _].
  pose proof (fun s' => load_contents l tail s' Hok Hu1 Hu2 Ht) as Hload.
  assert (at_path lf = contents l) as Ha by (unfold at_path; by rewrite He, Hf).
  split_and!; [done| | |].
  - unfold openRaftLogFile. rewrite Ha. cbn [default from_option id]. rewrite Hload.
    eexists. split; [done|]. done.
  - cbn [run_op]. unfold openRaftLogFile. rewrite Ha. cbn [default from_option id].
    rewrite Hload, rebuild_log. cbn [lf_baseIndex lf_baseTerm NewRaftLogWithBase baseIndex baseTerm entries app].
    by destruct l.
  - intros o Ho. destruct (run_op_mirrors lf l o Hm Hwf Ho) as (lf' & l' & E & _).
    exists lf', l'. split; [done|]. by eapply reach_op.
Qed.

(** A failed append is not undone: the node retries it, and the retry is
    written behind the bytes the failed one left ([n] of them), so from then on
    the size and the offsets the file keeps are wrong and no log is mirrored.
    (A truncation or a compaction that fails before it took effect changes
    nothing.) *)
Theorem raftlogfile_failed_append lf l t k d n :
  mirrors lf l -> len (contents l) + (13 + len d) < 2 ^ 63 -> 0 < Z.of_nat n <= 13 + len d ->
  (forall i, (truncateFrom lf i (Some 0%nat)).1 = lf)
  /\ (forall i bt es, compact lf i bt es (Some 0%nat) = (lf, Some ErrIO))
  /\ exists lf1 lf2, append lf t k d (Some n) = (lf1, Some ErrIO) /\ append lf1 t k d None = (lf2, None)
       /\ f lf2 = contents l ++ take n (frame (MkLogEntry t k d)) ++ frame (MkLogEntry t k d)
       /\ size lf2 = len (f lf2) - Z.of_nat n
       /\ last (offsets lf2) = Some (len (contents l))
       /\ forall l', ~ mirrors lf2 l'.
Proof.
  intros [Hf Hp Hs He Ho Hb Ht Hoff Hok Hu Hsm] Hlt Hn.
  set (fr := frame (MkLogEntry t k d)). assert (len fr = 13 + len d) as Hfr by apply len_frame.
  assert (len (take n fr) = Z.of_nat n) as Hln by (unfold len in *; rewrite length_take; lia).
  pose proof (len_contents l) as Hl. pose proof (len_nonneg (frames (entries l))).
  split_and!.
  - intros i. unfold truncateFrom. rewrite Ho. cbn [negb]. case_decide; [done|]. by case_match.
  - intros i bt es. unfold compact. by rewrite Ho.
  - unfold append. rewrite Ho. cbn [negb]. eexists _, _. split; [reflexivity|].
    cbn [is_open negb f pos size offsets elsewhere sync lf_baseIndex lf_baseTerm].
    split; [reflexivity|]. cbn [f size offsets]. fold fr.
    rewrite Hf, Hp, pwrite_end, <- len_app, pwrite_end, Hs, <- app_assoc.
    rewrite !len_app, Hln, Hfr. unfold raftEntryHeaderSize. rewrite i64_small by lia.
    split; [done|]. split; [lia|]. split; [by rewrite last_snoc|].
    intros l' Hm. pose proof (mir_f _ _ Hm) as H1. pose proof (mir_size _ _ Hm) as H2.
    cbn [f size] in H1, H2. rewrite <- H1, !len_app, Hln, Hfr in H2. lia.
Qed.

(** A compaction that fails after its rename is reported as an error although
    the path already names the new file: the descriptor keeps writing to the old
    one, so an entry appended (and fsynced) afterwards is not there when the node
    restarts. *)
Theorem raftlogfile_failed_compact lf l i t es t' k d :
  mirrors lf l -> Forall entry_ok es -> is_u64 i -> is_u64 t ->
  exists lf1 lf2, compact lf i t es (Some 1%nat) = (lf1, Some ErrIO) /\ append lf1 t' k d None = (lf2, None)
    /\ f lf2 = contents l ++ frame (MkLogEntry t' k d)
    /\ exists lf3, openRaftLogFile (Some (at_path lf2)) (sync lf) = Ok (lf3, es)
         /\ lf_baseIndex lf3 = i /\ lf_baseTerm lf3 = t.
Proof.
  intros [Hf Hp Hs He Ho _ _ _ _ _ _] Hes Hi Ht. unfold compact, append. rewrite Ho. cbn [negb].
  eexists _, _. split; [reflexivity|]. cbn [is_open negb]. split; [reflexivity|].
  cbn [f pos]. rewrite Hf, Hp, pwrite_end. split; [done|].
  unfold openRaftLogFile, at_path. cbn [elsewhere default from_option id].
  pose proof (load_contents (MkRaftLog i t es) [] (sync lf) Hes Hi Ht torn_nil) as E.
  rewrite app_nil_r in E. unfold contents in E at 1. cbn [baseIndex baseTerm entries] in E.
  rewrite E. by eexists.
Qed.

(** ** Witnesses *)

Definition demo_file : raftLogFile := writeFreshHeader true 0 0.

Lemma demo_reach : reachable true demo_file NewRaftLog.
Proof. apply reach_new. reflexivity. Qed.

Definition demo_entry : logEntry := MkLogEntry 1 EntryData [x61].
Definition demo_file1 : raftLogFile := (append demo_file 1 EntryData [x61] None).1.
Definition demo_log1 : RaftLog := (raftlog.append NewRaftLog 1 EntryData [x61]).1.

Lemma demo_entry_ok : entry_ok demo_entry.
Proof. split; [split; by_decide|by_decide]. Qed.

Lemma demo_reach1 : reachable true demo_file1 demo_log1.
Proof.
  eapply (reach_op true demo_file NewRaftLog (OAppend 1 EntryData [x61])); [apply demo_reach| |reflexivity].
  split; [apply demo_entry_ok|]. split; by_decide.
Qed.

Lemma raftlogfile_durable_witness :
  exists lf', openRaftLogFile (Some (at_path demo_file1 ++ take 5 (frame demo_entry))) true = Ok (lf', [demo_entry]).
Proof.
  destruct (raftlogfile_durable true demo_file1 demo_log1 (take 5 (frame demo_entry)) demo_reach1)
    as (_ & (lf' & H & _) & _).
  - exists demo_entry, 5%nat. split; [apply demo_entry_ok|]. split; [reflexivity|by_decide].
  - exists lf'. exact H.
Defined.

(** After the failed append and its retry, a restart reads an entry nobody wrote,
    of a term far in the future, in place of the acknowledged one. *)
Lemma raftlogfile_failed_append_witness :
  exists lf1 lf2, append demo_file1 1 EntryData [x62] (Some 5%nat) = (lf1, Some ErrIO)
    /\ append lf1 1 EntryData [x62] None = (lf2, None) /\ (forall l', ~ mirrors lf2 l')
    /\ (load (f lf2) true ≫= fun r => Ok r.2) = Ok [demo_entry; MkLogEntry (2 ^ 40 + 1) EntryData []].
Proof.
  pose proof (reachable_mirrors _ _ _ demo_reach1) as [Hm _].
  destruct (raftlogfile_failed_append demo_file1 demo_log1 1 EntryData [x62] 5 Hm) as (_ & _ & lf1 & lf2 & H1 & H2 & H3 & _ & _ & H4).
  - by_decide.
  - by_decide.
  - exists lf1, lf2. split; [exact H1|]. split; [exact H2|]. split; [exact H4|].
    rewrite H3. vm_compute. reflexivity.
Defined.

Lemma raftlogfile_failed_compact_witness :
  exists lf1 lf2 lf3, compact demo_file1 1 1 [] (Some 1%nat) = (lf1, Some ErrIO)
    /\ append lf1 1 EntryData [x62] None = (lf2, None)
    /\ openRaftLogFile (Some (at_path lf2)) true = Ok (lf3, []).
Proof.
  pose proof (reachable_mirrors _ _ _ demo_reach1) as [Hm _].
  destruct (raftlogfile_failed_compact demo_file1 demo_log1 1 1 [] 1 EntryData [x62] Hm)
    as (lf1 & lf2 & H1 & H2 & _ & lf3 & H3 & _).
  - by_decide.
  - split; by_decide.
  - split; by_decide.
  - exists lf1, lf2, lf3. split; [exact H1|]. split; [exact H2|exact H3].
Defined.

End raftlogfile.
