(* ===== verification/RaftNode.v ===== *)
(** * A Raft node (internal/cluster/cluster.go, election.go, replication.go):
      definitions

    The fields of [Node] that [raftMu] guards, with the durable files behind
    them, and one function per critical section.  A function runs on the node
    and on the outside world: it consumes the outcomes of its disk operations
    and produces the messages it sends and the goroutines it wakes.  Channels
    and timers are not modelled; what a goroutine does when woken is. *)

From Stdlib Require Import ZArith Lia.
From Stdlib Require Import Strings.Byte.
From stdpp Require Import base list gmap sorting.
From S2P Require Import Prelude.
From S2P Require Import RaftLog.
From S2P Require Import RaftConfig.
From S2P Require Import RaftLogFile.

#[local] Open Scope Z_scope.

Module node.
Import raftlog.

Abbreviation NodeID := Z.
Abbreviation Members := (gmap NodeID bool).
Abbreviation raftLogFile := raftlogfile.raftLogFile.
Definition noVote : NodeID := config.noVote.
Definition bootstrapLeader : NodeID := 0.

Inductive Role := Follower | Candidate | Leader.

#[export] Instance Role_eq_dec : EqDecision Role.
Proof. solve_decision. Defined.

(** The fields of [Config] the critical sections read. *)
Record Cfg := MkCfg { ElectionMin : Z; SnapshotThreshold : Z }.

(** ** Messages: the fields of [Message] that each type sets *)

Inductive Body :=
| MsgAppendEntries (PrevLogIndex PrevLogTerm : Z) (Entries : list logEntry) (LeaderCommit : Z)
| MsgAppendResponse (Success : bool) (MatchIndex ConflictHint : Z)
| MsgRequestVote (CandidateID : NodeID) (LastLogIndex LastLogTerm : Z) (LeaderTransfer : bool)
| MsgRequestVoteResponse (VoteGranted : bool)
| MsgInstallSnapshot (LastIncludedIndex LastIncludedTerm SnapshotTS : Z)
    (Snapshot : list (bytes * bytes)) (Config : bytes) (Sessions : list (bytes * Z)) (LeaderCommit : Z)
| MsgInstallSnapshotResponse (Success : bool) (MatchIndex : Z)
| MsgTimeoutNow.

Record Message := MkMessage { From : NodeID; Term : Z; body : Body }.

(** ** The node

    [logFile] and [stateFile] are [None] for the nil handles of bare test nodes;
    [stateFile] carries what is on disk, and so does [configPath] ([None] for
    the empty path). [replSignal] holds the keys of [respCh] and [replSignal]. *)
Record Node := MkNode {
  id : NodeID;
  peers : list NodeID;
  cfg : Cfg;
  role : Role;
  currentTerm : Z;
  votedFor : NodeID;
  config : option Members;
  baseConfig : Members;
  configPath : option (option bytes);
  transferring : bool;
  installing : bool;
  log : RaftLog;
  logFile : option raftLogFile;
  stateFile : option (option bytes);
  commitIndex : Z;
  lastApplied : Z;
  lastLeaderContact : option Z;
  votesReceived : Z;
  nextIndex : gmap NodeID Z;
  matchIndex : gmap NodeID Z;
  replSignal : gset NodeID
}.

Definition set_peers (x : list NodeID) (n : Node) : Node :=
  MkNode (id n) x (cfg n) (role n) (currentTerm n) (votedFor n) (config n) (baseConfig n)
    (configPath n) (transferring n) (installing n) (log n) (logFile n) (stateFile n)
    (commitIndex n) (lastApplied n) (lastLeaderContact n) (votesReceived n) (nextIndex n)
    (matchIndex n) (replSignal n).
Definition set_role (x : Role) (n : Node) : Node :=
  MkNode (id n) (peers n) (cfg n) x (currentTerm n) (votedFor n) (config n) (baseConfig n)
    (configPath n) (transferring n) (installing n) (log n) (logFile n) (stateFile n)
    (commitIndex n) (lastApplied n) (lastLeaderContact n) (votesReceived n) (nextIndex n)
    (matchIndex n) (replSignal n).
Definition set_currentTerm (x : Z) (n : Node) : Node :=
  MkNode (id n) (peers n) (cfg n) (role n) x (votedFor n) (config n) (baseConfig n)
    (configPath n) (transferring n) (installing n) (log n) (logFile n) (stateFile n)
    (commitIndex n) (lastApplied n) (lastLeaderContact n) (votesReceived n) (nextIndex n)
    (matchIndex n) (replSignal n).
Definition set_votedFor (x : NodeID) (n : Node) : Node :=
  MkNode (id n) (peers n) (cfg n) (role n) (currentTerm n) x (config n) (baseConfig n)
    (configPath n) (transferring n) (installing n) (log n) (logFile n) (stateFile n)
    (commitIndex n) (lastApplied n) (lastLeaderContact n) (votesReceived n) (nextIndex n)
    (matchIndex n) (replSignal n).
Definition set_config (x : option Members) (n : Node) : Node :=
  MkNode (id n) (peers n) (cfg n) (role n) (currentTerm n) (votedFor n) x (baseConfig n)
    (configPath n) (transferring n) (installing n) (log n) (logFile n) (stateFile n)
    (commitIndex n) (lastApplied n) (lastLeaderContact n) (votesReceived n) (nextIndex n)
    (matchIndex n) (replSignal n).
Definition set_baseConfig (x : Members) (n : Node) : Node :=
  MkNode (id n) (peers n) (cfg n) (role n) (currentTerm n) (votedFor n) (config n) x
    (configPath n) (transferring n) (installing n) (log n) (logFile n) (stateFile n)
    (commitIndex n) (lastApplied n) (lastLeaderContact n) (votesReceived n) (nextIndex n)
    (matchIndex n) (replSignal n).
Definition set_configPath (x : option (option bytes)) (n : Node) : Node :=
  MkNode (id n) (peers n) (cfg n) (role n) (currentTerm n) (votedFor n) (config n)
    (baseConfig n) x (transferring n) (installing n) (log n) (logFile n) (stateFile n)
    (commitIndex n) (lastApplied n) (lastLeaderContact n) (votesReceived n) (nextIndex n)
    (matchIndex n) (replSignal n).
Definition set_transferring (x : bool) (n : Node) : Node :=
  MkNode (id n) (peers n) (cfg n) (role n) (currentTerm n) (votedFor n) (config n)
    (baseConfig n) (configPath n) x (installing n) (log n) (logFile n) (stateFile n)
    (commitIndex n) (lastApplied n) (lastLeaderContact n) (votesReceived n) (nextIndex n)
    (matchIndex n) (replSignal n).
Definition set_installing (x : bool) (n : Node) : Node :=
  MkNode (id n) (peers n) (cfg n) (role n) (currentTerm n) (votedFor n) (config n)
    (baseConfig n) (configPath n) (transferring n) x (log n) (logFile n) (stateFile n)
    (commitIndex n) (lastApplied n) (lastLeaderContact n) (votesReceived n) (nextIndex n)
    (matchIndex n) (replSignal n).
Definition set_log (x : RaftLog) (n : Node) : Node :=
  MkNode (id n) (peers n) (cfg n) (role n) (currentTerm n) (votedFor n) (config n)
    (baseConfig n) (configPath n) (transferring n) (installing n) x (logFile n) (stateFile n)
    (commitIndex n) (lastApplied n) (lastLeaderContact n) (votesReceived n) (nextIndex n)
    (matchIndex n) (replSignal n).
Definition set_logFile (x : option raftLogFile) (n : Node) : Node :=
  MkNode (id n) (peers n) (cfg n) (role n) (currentTerm n) (votedFor n) (config n)
    (baseConfig n) (configPath n) (transferring n) (installing n) (log n) x (stateFile n)
    (commitIndex n) (lastApplied n) (lastLeaderContact n) (votesReceived n) (nextIndex n)
    (matchIndex n) (replSignal n).
Definition set_stateFile (x : option (option bytes)) (n : Node) : Node :=
  MkNode (id n) (peers n) (cfg n) (role n) (currentTerm n) (votedFor n) (config n)
    (baseConfig n) (configPath n) (transferring n) (installing n) (log n) (logFile n) x
    (commitIndex n) (lastApplied n) (lastLeaderContact n) (votesReceived n) (nextIndex n)
    (matchIndex n) (replSignal n).
Definition set_commitIndex (x : Z) (n : Node) : Node :=
  MkNode (id n) (peers n) (cfg n) (role n) (currentTerm n) (votedFor n) (config n)
    (baseConfig n) (configPath n) (transferring n) (installing n) (log n) (logFile n)
    (stateFile n) x (lastApplied n) (lastLeaderContact n) (votesReceived n) (nextIndex n)
    (matchIndex n) (replSignal n).
Definition set_lastApplied (x : Z) (n : Node) : Node :=
  MkNode (id n) (peers n) (cfg n) (role n) (currentTerm n) (votedFor n) (config n)
    (baseConfig n) (configPath n) (transferring n) (installing n) (log n) (logFile n)
    (stateFile n) (commitIndex n) x (lastLeaderContact n) (votesReceived n) (nextIndex n)
    (matchIndex n) (replSignal n).
Definition set_lastLeaderContact (x : option Z) (n : Node) : Node :=
  MkNode (id n) (peers n) (cfg n) (role n) (currentTerm n) (votedFor n) (config n)
    (baseConfig n) (configPath n) (transferring n) (installing n) (log n) (logFile n)
    (stateFile n) (commitIndex n) (lastApplied n) x (votesReceived n) (nextIndex n)
    (matchIndex n) (replSignal n).
Definition set_votesReceived (x : Z) (n : Node) : Node :=
  MkNode (id n) (peers n) (cfg n) (role n) (currentTerm n) (votedFor n) (config n)
    (baseConfig n) (configPath n) (transferring n) (installing n) (log n) (logFile n)
    (stateFile n) (commitIndex n) (lastApplied n) (lastLeaderContact n) x (nextIndex n)
    (matchIndex n) (replSignal n).
Definition set_nextIndex (x : gmap NodeID Z) (n : Node) : Node :=
  MkNode (id n) (peers n) (cfg n) (role n) (currentTerm n) (votedFor n) (config n)
    (baseConfig n) (configPath n) (transferring n) (installing n) (log n) (logFile n)
    (stateFile n) (commitIndex n) (lastApplied n) (lastLeaderContact n) (votesReceived n) x
    (matchIndex n) (replSignal n).
Definition set_matchIndex (x : gmap NodeID Z) (n : Node) : Node :=
  MkNode (id n) (peers n) (cfg n) (role n) (currentTerm n) (votedFor n) (config n)
    (baseConfig n) (configPath n) (transferring n) (installing n) (log n) (logFile n)
    (stateFile n) (commitIndex n) (lastApplied n) (lastLeaderContact n) (votesReceived n)
    (nextIndex n) x (replSignal n).
Definition set_replSignal (x : gset NodeID) (n : Node) : Node :=
  MkNode (id n) (peers n) (cfg n) (role n) (currentTerm n) (votedFor n) (config n)
    (baseConfig n) (configPath n) (transferring n) (installing n) (log n) (logFile n)
    (stateFile n) (commitIndex n) (lastApplied n) (lastLeaderContact n) (votesReceived n)
    (nextIndex n) (matchIndex n) x.

(** ** The world: disk faults in, effects out *)

Inductive effect :=
| Send (to : NodeID) (m : Message)
| SignalApply
| SignalReplicators
| ResetElectionTimer
| Broadcast.               (* appliedCond *)

(** Each disk operation takes the next of [faults]: [None], or none left, is
    success, [Some k] a failure at stage [k] (as in RaftLogFile.v; for the
    atomically replaced files 0 is up to the rename and more is after it). *)
Record World := MkWorld { faults : list (option nat); out : list effect }.

(** [None] is a panic. *)
Definition M (A : Type) : Type := Node -> World -> option (A * Node * World).

#[export] Instance M_ret : MRet M := fun A a n w => Some (a, n, w).
#[export] Instance M_bind : MBind M := fun A B k m n w =>
  match m n w with
  | Some (a, n', w') => k a n' w'
  | None => None
  end.

Definition gets {A} (f : Node -> A) : M A := fun n w => Some (f n, n, w).
Definition modify (f : Node -> Node) : M unit := fun n w => Some (tt, f n, w).
Definition emit (e : effect) : M unit := fun n w => Some (tt, n, MkWorld (faults w) (out w ++ [e])).
Definition next_fault : M (option nat) := fun n w =>
  match faults w with
  | [] => Some (None, n, w)
  | x :: fs => Some (x, n, MkWorld fs (out w))
  end.
(** A Go expression that may panic. *)
Definition expr {A} (f : Node -> option A) : M A := fun n w =>
  match f n with Some a => Some (a, n, w) | None => None end.
Definition skip : M unit := mret tt.

Fixpoint forM {A} (l : list A) (f : A -> M unit) : M unit :=
  match l with
  | [] => skip
  | x :: l' => _ ← f x; forM l' f
  end.

Definition send (to : NodeID) (body : Node -> Body) (term : Z) : M unit :=
  b ← gets body; from ← gets id; emit (Send to (MkMessage from term b)).

(** ** Membership *)

Definition majority (n : Node) : Z :=
  match config n with
  | None => (len (peers n) + 1) / 2 + 1
  | Some c => Z.of_nat (size c) / 2 + 1
  end.

(** The keys of the configuration other than the node, ascending. *)
Definition votingPeers (n : Node) : list NodeID :=
  match config n with
  | None => peers n
  | Some c => merge_sort Z.le (filter (fun p => p <> id n) (map_to_list c).*1)
  end.

Definition inConfigLocked (n : Node) : bool :=
  match config n with
  | None => true
  | Some c => default false (c !! id n)
  end.

(** The members [in] and other than the node, in the order of the map. *)
Definition ensurePeerLocked (p : NodeID) : M unit :=
  me ← gets id;
  exists_ ← gets (fun n => bool_decide (p ∈ replSignal n));
  if decide (p = me) then skip
  else if (exists_ : bool) then skip
  else
    modify (fun n =>
      set_nextIndex (<[p := u64 (lastIndex (log n) + 1)]> (nextIndex n))
        (set_matchIndex (<[p := 0]> (matchIndex n))
          (set_replSignal ({[p]} ∪ replSignal n)
            (set_peers (peers n ++ [p]) n)))).

Definition reconcilePeersLocked : M unit :=
  c ← gets config;
  me ← gets id;
  forM (filter (fun e => e.2 = true /\ e.1 <> me) (map_to_list (default ∅ c))).*1 ensurePeerLocked.

Definition adoptConfigLocked (data : bytes) : M unit :=
  modify (set_config (Some (config.decodeConfig data))).

Definition deriveConfigLocked : M unit :=
  c ← expr (fun n => config.deriveConfig (log n) (baseConfig n));
  modify (set_config (Some c)).

Definition configAsOfLocked (n : Node) (idx : Z) : option Members :=
  config.configAsOf (log n) (baseConfig n) idx.

Definition latestConfigEntryCommittedLocked (n : Node) : option bool :=
  found ← config.findConfig (config.configFuel (log n) (lastIndex (log n))) (log n) (lastIndex (log n));
  Some (match found with Some (i, _) => bool_decide (i <= commitIndex n) | None => true end).

(** ** Hard state *)

(** [true] on success. *)
Definition persistHardStateLocked : M bool :=
  s ← gets stateFile;
  match s with
  | None => mret true
  | Some file =>
      t ← gets currentTerm;
      v ← gets votedFor;
      f ← next_fault;
      let '(file', ok) := config.save file t v f in
      _ ← modify (set_stateFile (Some file'));
      mret ok
  end.

Definition stepDownLocked (term : Z) : M unit :=
  _ ← modify (set_currentTerm term);
  _ ← modify (set_role Follower);
  _ ← modify (set_votedFor noVote);
  _ ← modify (set_transferring false);
  _ ← persistHardStateLocked;
  _ ← emit Broadcast;
  emit ResetElectionTimer.

(** ** Elections *)

Definition withinLeaderStickinessLocked (now : Z) (n : Node) : bool :=
  match lastLeaderContact n with
  | None => false
  | Some t =>
      if decide (ElectionMin (cfg n) <= 0) then false
      else bool_decide (now - t < ElectionMin (cfg n))
  end.

Definition becomeLeaderLocked : M unit :=
  _ ← modify (set_role Leader);
  _ ← modify (set_transferring false);
  _ ← reconcilePeersLocked;
  last ← gets (fun n => lastIndex (log n));
  ps ← gets votingPeers;
  _ ← forM ps (fun p => modify (fun n =>
        set_nextIndex (<[p := u64 (last + 1)]> (nextIndex n))
          (set_matchIndex (<[p := 0]> (matchIndex n)) n)));
  emit SignalReplicators.

Definition maybeStartElection (leaderTransfer : bool) : M unit :=
  r ← gets role;
  inst ← gets installing;
  inC ← gets inConfigLocked;
  if decide (r = Leader) then skip
  else if (inst : bool) then skip
  else if negb inC then skip
  else
    prevTerm ← gets currentTerm;
    prevVote ← gets votedFor;
    prevVotes ← gets votesReceived;
    _ ← modify (set_currentTerm (u64 (prevTerm + 1)));
    _ ← modify (set_role Candidate);
    _ ← modify (fun n => set_votedFor (id n) n);
    _ ← modify (set_votesReceived 1);
    ok ← persistHardStateLocked;
    if negb ok then
      modify (fun n => set_votesReceived prevVotes (set_votedFor prevVote
                         (set_role r (set_currentTerm prevTerm n))))
    else
      term ← gets currentTerm;
      li ← gets (fun n => lastIndex (log n));
      lt ← expr (fun n => lastTerm (log n));
      ps ← gets votingPeers;
      _ ← emit ResetElectionTimer;
      forM ps (fun p => send p (fun n => MsgRequestVote (id n) li lt leaderTransfer) term).

(** The two critical sections with nothing in between; see the actions of
    RaftElection.v for the rest. *)
Definition handleTimeoutNow (m : Message) : M unit :=
  t ← gets currentTerm;
  if decide (Term m < t) then skip else maybeStartElection true.

Definition candidateUpToDateLocked (n : Node) (candIndex candTerm : Z) : option bool :=
  myTerm ← lastTerm (log n);
  Some (if decide (candTerm <> myTerm) then bool_decide (candTerm > myTerm)
        else bool_decide (candIndex >= lastIndex (log n))).

(** The up-to-date check is evaluated only when the other conditions hold. *)
Definition handleRequestVote (now : Z) (m : Message) (candidateID lastLogIndex lastLogTerm : Z)
  (leaderTransfer : bool) : M unit :=
  sticky ← gets (withinLeaderStickinessLocked now);
  if negb leaderTransfer && sticky then
    t ← gets currentTerm;
    send (From m) (fun _ => MsgRequestVoteResponse false) t
  else
    t0 ← gets currentTerm;
    _ ← (if decide (Term m > t0) then stepDownLocked (Term m) else skip);
    t ← gets currentTerm;
    v ← gets votedFor;
    upToDate ← (if decide (Term m = t /\ (v = noVote \/ v = candidateID))
                then expr (fun n => candidateUpToDateLocked n lastLogIndex lastLogTerm)
                else mret false);
    grant ← (if (upToDate : bool) then
               _ ← modify (set_votedFor candidateID);
               ok ← persistHardStateLocked;
               if negb ok then _ ← modify (set_votedFor v); mret false
               else _ ← emit ResetElectionTimer; mret true
             else mret false);
    term ← gets currentTerm;
    send (From m) (fun _ => MsgRequestVoteResponse grant) term.

Definition handleVoteResponse (m : Message) (voteGranted : bool) : M unit :=
  t ← gets currentTerm;
  r ← gets role;
  if decide (Term m > t) then stepDownLocked (Term m)
  else if decide (r <> Candidate \/ Term m <> t) then skip
  else if voteGranted then
    _ ← modify (fun n => set_votesReceived (votesReceived n + 1) n);
    won ← gets (fun n => bool_decide (votesReceived n >= majority n));
    if (won : bool) then becomeLeaderLocked else skip
  else skip.

(** One tick of [heartbeatTicker]. *)
Definition heartbeatTick : M unit :=
  r ← gets role;
  if decide (r = Leader) then emit SignalReplicators else skip.

(** ** Replication, the follower side *)

(** The log file's part of a change; [true] on success or with no file. *)
Definition fileAppend (e : logEntry) : M bool :=
  lf ← gets logFile;
  match lf with
  | None => mret true
  | Some lf =>
      f ← next_fault;
      let '(lf', err) := raftlogfile.append lf (e_term e) (e_kind e) (e_bytes e) f in
      _ ← modify (set_logFile (Some lf'));
      mret (match err with None => true | Some _ => false end)
  end.

Definition fileTruncate (idx : Z) : M bool :=
  lf ← gets logFile;
  match lf with
  | None => mret true
  | Some lf =>
      f ← next_fault;
      let '(lf', err) := raftlogfile.truncateFrom lf idx f in
      _ ← modify (set_logFile (Some lf'));
      mret (match err with None => true | Some _ => false end)
  end.

Definition appendBoth (e : logEntry) : M bool :=
  ok ← fileAppend e;
  if negb ok then mret false
  else
    _ ← modify (fun n => set_log (append (log n) (e_term e) (e_kind e) (e_bytes e)).1 n);
    mret true.

(** The loop of [handleAppendEntries]; the result is [configTouched], or [None]
    for the early returns. *)
Fixpoint appendEntries_loop (es : list logEntry) (idx : Z) (configTouched : bool) : M (option bool) :=
  match es with
  | [] => mret (Some configTouched)
  | e :: es' =>
      base ← gets (fun n => baseIndex (log n));
      last ← gets (fun n => lastIndex (log n));
      if decide (idx <= base) then appendEntries_loop es' (u64 (idx + 1)) configTouched
      else
        conflict ← (if decide (idx <= last)
                    then t ← expr (fun n => term (log n) idx); mret (Some (bool_decide (t <> e_term e)))
                    else mret None);
        match conflict with
        | Some false => appendEntries_loop es' (u64 (idx + 1)) configTouched
        | _ =>
            ok ← (match conflict with
                  | Some _ =>
                      ok ← fileTruncate idx;
                      if negb ok then mret false
                      else _ ← modify (fun n => set_log (truncateFrom (log n) idx) n); mret true
                  | None => mret true
                  end);
            let touched := match conflict with Some _ => true | None => configTouched end in
            if negb ok then mret None
            else
              ok ← appendBoth e;
              if negb ok then mret None
              else appendEntries_loop es' (u64 (idx + 1))
                     (touched || bool_decide (e_kind e = EntryConfig))
        end
  end.

Definition advanceFollowerCommit (leaderCommit : Z) (n : Node) : Node :=
  if decide (leaderCommit > commitIndex n) then
    let li := lastIndex (log n) in
    let ci := if decide (leaderCommit > li) then li else leaderCommit in
    if decide (ci > commitIndex n) then set_commitIndex ci n else n
  else n.

Definition handleAppendEntries (now : Z) (m : Message) (prevLogIndex prevLogTerm : Z)
  (entries : list logEntry) (leaderCommit : Z) : M unit :=
  t0 ← gets currentTerm;
  if decide (Term m < t0) then send (From m) (fun _ => MsgAppendResponse false 0 0) t0
  else
    _ ← (if decide (Term m > t0) then stepDownLocked (Term m) else skip);
    _ ← modify (set_role Follower);
    _ ← emit ResetElectionTimer;
    _ ← modify (set_lastLeaderContact (Some now));
    term ← gets currentTerm;
    matches ← expr (fun n => matchesPrev (log n) prevLogIndex prevLogTerm);
    if negb matches then
      hint ← gets (fun n => u64 (lastIndex (log n) + 1));
      send (From m) (fun _ => MsgAppendResponse false 0 hint) term
    else
      r ← appendEntries_loop entries (u64 (prevLogIndex + 1)) false;
      match r with
      | None =>
          cur ← gets currentTerm;
          send (From m) (fun _ => MsgAppendResponse false 0 (u64 (prevLogIndex + 1))) cur
      | Some configTouched =>
          _ ← (if (configTouched : bool) then deriveConfigLocked else skip);
          let matchIndex := u64 (prevLogIndex + len entries) in
          _ ← modify (advanceFollowerCommit leaderCommit);
          _ ← emit SignalApply;
          send (From m) (fun _ => MsgAppendResponse true matchIndex 0) term
      end.

(** ** Replication, the leader side *)

Definition onAppendSuccessLocked (p : NodeID) (match_ : Z) (n : Node) : Node :=
  let m := matchIndex n in
  let m' := if decide (match_ > default 0 (m !! p)) then <[p := match_]> m else m in
  set_nextIndex (<[p := u64 (default 0 (m' !! p) + 1)]> (nextIndex n)) (set_matchIndex m' n).

Definition onAppendRejectLocked (p : NodeID) (hint : Z) (n : Node) : Node :=
  set_nextIndex (<[p := if decide (hint < 1) then 1 else hint]> (nextIndex n)) n.

(** What each voter is known to hold; the node's own log only if it is a voter. *)
Definition commitVals (n : Node) : list Z :=
  (if inConfigLocked n then [lastIndex (log n)] else [])
  ++ ((fun p => default 0 (matchIndex n !! p)) <$> votingPeers n).

Definition maybeAdvanceCommitLocked : M unit :=
  vals ← gets commitVals;
  match merge_sort Z.ge vals !! Nat.div2 (length vals) with
  | None => skip
  | Some cand =>
      ci ← gets commitIndex;
      if decide (cand > ci) then
        t ← expr (fun n => term (log n) cand);
        cur ← gets currentTerm;
        if decide (t = cur) then
          _ ← modify (set_commitIndex cand);
          _ ← emit SignalApply;
          emit SignalReplicators
        else skip
      else skip
  end.

(** [writeBaseConfigFile] behind the guard of [maybeCompactLocked]; [true] to go
    on with the compaction. *)
Definition foldBaseConfig (safe : Z) : M bool :=
  path ← gets configPath;
  match path with
  | None => mret true
  | Some file =>
      c ← expr (fun n => configAsOfLocked n safe);
      same ← gets (fun n => config.configEqual c (baseConfig n));
      if (same : bool) then mret true
      else
        f ← next_fault;
        let '(file', ok) := config.writeBaseConfigFile file c f in
        _ ← modify (set_configPath (Some file'));
        if negb ok then mret false
        else _ ← modify (set_baseConfig c); mret true
  end.

Definition fileCompact (newBaseIndex newBaseTerm : Z) : M bool :=
  lf ← gets logFile;
  match lf with
  | None => mret true
  | Some lf =>
      es ← expr (fun n => entriesAfter (log n) newBaseIndex);
      f ← next_fault;
      let '(lf', err) := raftlogfile.compact lf newBaseIndex newBaseTerm es f in
      _ ← modify (set_logFile (Some lf'));
      mret (match err with None => true | Some _ => false end)
  end.

Definition maybeCompactLocked : M unit :=
  th ← gets (fun n => SnapshotThreshold (cfg n));
  held ← gets (fun n => len (entries (log n)));
  safe ← gets lastApplied;
  base ← gets (fun n => baseIndex (log n));
  if decide (th <= 0 \/ held < th) then skip
  else if decide (safe <= base) then skip
  else
    newBaseTerm ← expr (fun n => term (log n) safe);
    ok ← foldBaseConfig safe;
    if negb ok then skip
    else
      ok ← fileCompact safe newBaseTerm;
      if negb ok then skip
      else modify (fun n => set_log (compactTo (log n) safe newBaseTerm) n).

(** The entries [next..last], as the leader ships them. *)
Fixpoint entriesRange (fuel : nat) (l : RaftLog) (i : Z) : option (list logEntry) :=
  match fuel with
  | O => Some []
  | S fuel' =>
      t ← term l i;
      k ← kindAt l i;
      b ← entryAt l i;
      es ← entriesRange fuel' l (i + 1);
      Some (MkLogEntry t k b :: es)
  end.

(** What a replicator remembers of the round it is waiting for. *)
Record Round := MkRound { rd_term : Z; rd_prevLogIndex : Z; rd_count : Z }.

Inductive SendResult :=
| Idle                            (* not the leader *)
| NeedSnapshot (term : Z)
| Sent (r : Round).

(** [sendLoop] up to the [Send]. *)
Definition sendRound (p : NodeID) : M SendResult :=
  r ← gets role;
  if decide (r <> Leader) then mret Idle
  else
    term_ ← gets currentTerm;
    next ← gets (fun n => default 0 (nextIndex n !! p));
    base ← gets (fun n => baseIndex (log n));
    if decide (u64 (next - 1) < base) then mret (NeedSnapshot term_)
    else
      last ← gets (fun n => lastIndex (log n));
      let prevLogIndex := u64 (next - 1) in
      prevLogTerm ← expr (fun n => term (log n) prevLogIndex);
      es ← expr (fun n => entriesRange (Z.to_nat (last + 1 - next)) (log n) next);
      leaderCommit ← gets commitIndex;
      _ ← send p (fun _ => MsgAppendEntries prevLogIndex prevLogTerm es leaderCommit) term_;
      mret (Sent (MkRound term_ prevLogIndex (len es))).

(** Any message on the replicator's channel is taken as the reply of the current
    round; these are the fields [sendLoop] looks at. *)
Definition respSuccess (b : Body) : bool :=
  match b with
  | MsgAppendResponse s _ _ => s
  | MsgInstallSnapshotResponse s _ => s
  | _ => false
  end.
Definition respHint (b : Body) : Z := match b with MsgAppendResponse _ _ h => h | _ => 0 end.

(** [sendLoop] from the reply on; [true] when the replicator goes back to sleep. *)
Definition onReply (p : NodeID) (r : Round) (resp : Message) : M bool :=
  t ← gets currentTerm;
  if decide (Term resp > t) then _ ← stepDownLocked (Term resp); mret true
  else
    role_ ← gets role;
    if decide (role_ <> Leader \/ t <> rd_term r) then mret true
    else if respSuccess (body resp) then
      _ ← modify (onAppendSuccessLocked p (u64 (rd_prevLogIndex r + rd_count r)));
      _ ← maybeAdvanceCommitLocked;
      _ ← maybeCompactLocked;
      gets (fun n => bool_decide (default 0 (nextIndex n !! p) > lastIndex (log n)))
    else
      _ ← modify (onAppendRejectLocked p (respHint (body resp)));
      mret false.

(** ** Applying committed entries *)

(** What the node asks of its state machine; [None] is an error, on which the
    node panics. *)
Class StateMachine (S : Type) := {
  ApplyEntry : S -> Z -> bytes -> option S;
  ApplyControlEntry : S -> Z -> option S
}.

Section apply.
Context {S : Type} {SM : StateMachine S}.

Definition applyOne (s : S) (idx : Z) (e : logEntry) : option S :=
  if decide (e_kind e = EntryConfig) then ApplyControlEntry s idx else ApplyEntry s idx (e_bytes e).

(** One iteration of [applyCommitted]; [false] is its return. *)
Definition applyStep (s : S) : M (S * bool) :=
  inst ← gets installing;
  la ← gets lastApplied;
  ci ← gets commitIndex;
  if (inst || bool_decide (la >= ci) : bool) then mret (s, false)
  else
    let idx := u64 (la + 1) in
    b ← expr (fun n => entryAt (log n) idx);
    k ← expr (fun n => kindAt (log n) idx);
    s' ← expr (fun _ => applyOne s idx (MkLogEntry 0 k b));
    _ ← modify (set_lastApplied idx);
    _ ← emit Broadcast;
    _ ← maybeCompactLocked;
    mret (s', true).

(** Each iteration applies one entry, so the backlog bounds the rounds. *)
Fixpoint applyCommitted_loop (fuel : nat) (s : S) : M S :=
  match fuel with
  | O => mret s
  | Datatypes.S fuel' =>
      r ← applyStep s;
      let '(s', more) := r in
      if (more : bool) then applyCommitted_loop fuel' s' else mret s'
  end.

Definition applyCommitted (s : S) : M S :=
  n ← gets (fun n => Z.to_nat (commitIndex n - lastApplied n));
  applyCommitted_loop (Datatypes.S n) s.

End apply.

(** ** Proposals *)

Inductive error :=
| ErrNotLeader
| ErrAppend
| ErrMaybeCommitted
| ErrConfigChangeInProgress
| ErrCannotRemove
| ErrCatchupTimeout
| ErrTransferTarget
| ErrTransferTimeout.

(** [proposeAndAwait] up to its wait: the index of the new entry. *)
Definition propose (term : Z) (kind : EntryKind) (entry : bytes) : M (error + Z) :=
  r ← gets role;
  t ← gets currentTerm;
  tr ← gets transferring;
  if decide (r <> Leader \/ t <> term \/ tr = true) then mret (inl ErrNotLeader)
  else
    ok ← fileAppend (MkLogEntry term kind entry);
    if negb ok then mret (inl ErrAppend)
    else
      idx ← gets (fun n => (append (log n) term kind entry).2);
      _ ← modify (fun n => set_log (append (log n) term kind entry).1 n);
      _ ← (if decide (kind = EntryConfig) then adoptConfigLocked entry else skip);
      _ ← maybeAdvanceCommitLocked;
      _ ← emit SignalReplicators;
      mret (inr idx).

(** The wait loop looked at once: [None] to go on waiting. *)
Definition awaitApplied (idx : Z) (n : Node) : option (option error) :=
  if decide (lastApplied n >= idx) then Some None
  else if decide (role n <> Leader) then Some (Some ErrMaybeCommitted)
  else None.

(** [readBarrier] reports an uncertain no-op as lost leadership. *)
Definition barrierError (e : error) : error :=
  match e with ErrMaybeCommitted => ErrNotLeader | _ => e end.

(** ** Membership changes *)

(** [removeServer] up to the proposal: a final answer, or the configuration to
    propose and the term. *)
Definition removeServer_start (target : NodeID) : M (option error + Z * bytes) :=
  r ← gets role;
  if decide (r <> Leader) then mret (inl (Some ErrNotLeader))
  else
    settled ← expr latestConfigEntryCommittedLocked;
    if negb settled then mret (inl (Some ErrConfigChangeInProgress))
    else
      c ← gets config;
      if (match c with Some c => negb (default false (c !! target)) | None => false end : bool)
      then mret (inl None)
      else
        let newCfg := delete target (config.copyConfig (default ∅ c)) in
        if decide (size newCfg = 0%nat) then mret (inl (Some ErrCannotRemove))
        else t ← gets currentTerm; mret (inr (t, config.encodeConfig newCfg)).

Definition relinquishLeadershipLocked : M unit :=
  _ ← modify (set_role Follower);
  _ ← emit Broadcast;
  emit ResetElectionTimer.

(** After the change has committed. *)
Definition removeServer_finish (target : NodeID) : M unit :=
  me ← gets id;
  r ← gets role;
  inC ← gets inConfigLocked;
  if decide (target = me /\ r = Leader /\ inC = false) then relinquishLeadershipLocked else skip.

(** [addServer], phase 1: the term and the catch-up goal. *)
Definition addServer_start (target : NodeID) : M (option error + Z * Z) :=
  r ← gets role;
  c ← gets config;
  if decide (r <> Leader) then mret (inl (Some ErrNotLeader))
  else if (match c with Some c => default false (c !! target) | None => false end : bool)
  then mret (inl None)
  else
    t ← gets currentTerm;
    _ ← ensurePeerLocked target;
    goal ← gets commitIndex;
    _ ← emit SignalReplicators;
    mret (inr (t, goal)).

(** Phase 2, one poll; [None] to poll again. *)
Definition addServer_poll (target : NodeID) (term goal : Z) (expired : bool) (n : Node) : option (option error) :=
  if decide (role n <> Leader \/ currentTerm n <> term) then Some (Some ErrNotLeader)
  else if decide (default 0 (matchIndex n !! target) >= goal) then Some None
  else if expired then Some (Some ErrCatchupTimeout) else None.

(** Phase 3: the configuration to propose. *)
Definition addServer_promote (target : NodeID) (term : Z) : M (error + bytes) :=
  r ← gets role;
  t ← gets currentTerm;
  if decide (r <> Leader \/ t <> term) then mret (inl ErrNotLeader)
  else
    settled ← expr latestConfigEntryCommittedLocked;
    if negb settled then mret (inl ErrConfigChangeInProgress)
    else
      c ← gets config;
      mret (inr (config.encodeConfig (<[target := true]> (config.copyConfig (default ∅ c))))).

(** ** Leadership transfer *)

(** The term and the index the target must hold. *)
Definition transfer_start (target : NodeID) : M (option error + Z * Z) :=
  r ← gets role;
  me ← gets id;
  tr ← gets transferring;
  c ← gets config;
  if decide (r <> Leader) then mret (inl (Some ErrNotLeader))
  else if decide (target = me) then mret (inl None)
  else if (tr : bool) then mret (inl (Some ErrNotLeader))
  else if (match c with Some c => negb (default false (c !! target)) | None => false end : bool)
  then mret (inl (Some ErrTransferTarget))
  else
    t ← gets currentTerm;
    _ ← modify (set_transferring true);
    last ← gets (fun n => lastIndex (log n));
    _ ← emit SignalReplicators;
    mret (inr (t, last)).

Definition transfer_abort (e : error) : M error :=
  r ← gets role;
  _ ← (if decide (r = Leader) then modify (set_transferring false) else skip);
  mret e.

(** The catch-up wait looked at once; the timeout calls [transfer_abort]. *)
Definition transfer_poll (target : NodeID) (term last : Z) (n : Node) : option (option error) :=
  if decide (role n <> Leader \/ currentTerm n <> term) then Some (Some ErrNotLeader)
  else if decide (default 0 (matchIndex n !! target) >= last) then Some None
  else None.

Definition transfer_timeoutNow (target : NodeID) (term : Z) : M unit :=
  send target (fun _ => MsgTimeoutNow) term.

Definition transfer_stepped (n : Node) : bool := bool_decide (role n <> Leader).

(** ** Dispatch

    [run]: the messages handled on the node's own goroutine; replies go to the
    replicators, snapshots to RaftInstall.v. *)
Definition dispatch (now : Z) (m : Message) : M unit :=
  match body m with
  | MsgAppendEntries prev prevTerm es lc => handleAppendEntries now m prev prevTerm es lc
  | MsgRequestVote c li lt tr => handleRequestVote now m c li lt tr
  | MsgRequestVoteResponse g => handleVoteResponse m g
  | MsgTimeoutNow => handleTimeoutNow m
  | _ => skip
  end.

(** ** Construction *)

Definition fullConfig (n : nat) : Members :=
  foldr (fun i m => <[Z.of_nat i := true]> m) ∅ (seq 0 n).

Definition peersExcept (ids : list NodeID) (self : NodeID) : list NodeID :=
  merge_sort Z.le (filter (fun i => i <> self) ids).

Inductive build_error := ErrLog (e : raftlogfile.error) | ErrBelowBase (recovered base : Z) | ErrSaveState.

(** [buildNode] on the durable Raft files of the node (missing ones [None]) and
    the applied index its store recovered; installs are completed before
    (RaftInstall.v). The last argument is the fault of saving the hard state. *)
Definition buildNode (me : NodeID) (ps : list NodeID) (bootstrapConfig : Members) (c : Cfg)
  (syncOn : bool) (logDisk stateDisk configDisk : option bytes) (recovered : Z) (fault : option nat)
  : outcome build_error Node :=
  let fresh := bool_decide (logDisk = None /\ stateDisk = None) in
  match raftlogfile.openRaftLogFile logDisk syncOn with
  | Err e => Err (ErrLog e)
  | Panic => Panic
  | Ok (lf, persisted) =>
      let hard := config.openRaftStateFile stateDisk in
      let rlog := foldl (fun l pe => (append l (e_term pe) (e_kind pe) (e_bytes pe)).1)
                    (NewRaftLogWithBase (raftlogfile.lf_baseIndex lf) (raftlogfile.lf_baseTerm lf)) persisted in
      if decide (recovered < raftlogfile.lf_baseIndex lf)
      then Err (ErrBelowBase recovered (raftlogfile.lf_baseIndex lf))
      else
        let ps := peersExcept ps me in
        let baseCfg := default (config.copyConfig bootstrapConfig) (config.readBaseConfigFile configDisk) in
        match config.deriveConfig rlog baseCfg, lastTerm rlog with
        | Some cur, Some logTerm =>
            let '(role0, term0, vote0) :=
              if fresh && bool_decide (me = bootstrapLeader) then (Leader, 1, bootstrapLeader)
              else if fresh then (Follower, 1, noVote)
              else if decide (logTerm > config.currentTerm hard) then (Follower, logTerm, noVote)
              else (Follower, config.currentTerm hard, config.votedFor hard) in
            match config.save stateDisk term0 vote0 fault with
            | (_, false) => Err ErrSaveState
            | (state', true) =>
                Ok (MkNode me ps c role0 term0 vote0 (Some cur) baseCfg (Some configDisk) false false
                      rlog (Some lf) (Some state') recovered recovered None 0
                      (list_to_map ((fun p => (p, 1)) <$> ps)) (list_to_map ((fun p => (p, 0)) <$> ps))
                      (list_to_set ps))
            end
        | _, _ => Panic
        end
  end.

(** [start]: the bootstrap leader asserts itself. *)
Definition start : M unit :=
  r ← gets role;
  if decide (r = Leader) then becomeLeaderLocked else skip.

(** ** The cluster handle *)

(** The leader of the highest term, the first one of it. *)
Definition currentLeader (nodes : list Node) : option Node :=
  foldl (fun best nd =>
           match best with
           | None => if decide (role nd = Leader) then Some nd else None
           | Some b => if decide (role nd = Leader /\ currentTerm nd > currentTerm b) then Some nd else best
           end) None nodes.

End node.
