(* ===== verification/RaftRun.v ===== *)
(** * Reasoning about the critical sections of a Raft node

    Runs of RaftNode.v's computations related to their start by a preorder: a
    computation preserves the relation if its parts do.  With it, the frame
    lemmas of the node: which functions leave the election state, the terms and
    the vote messages alone. *)

From Stdlib Require Import ZArith Lia.
From Stdlib Require Import Strings.Byte.
From stdpp Require Import base list gmap sorting.
From S2P Require Import Prelude.
From S2P Require Import RaftLog.
From S2P Require Import RaftConfig.
From S2P Require Import RaftLogFile.
From S2P Require Import RaftNode.

#[local] Open Scope Z_scope.

Module run.
Import raftlog node.

Abbreviation rel := (Node -> World -> Node -> World -> Prop).

Class NodeRel (R : rel) := {
  nr_refl n w : R n w n w;
  nr_trans n w n1 w1 n2 w2 : R n w n1 w1 -> R n1 w1 n2 w2 -> R n w n2 w2
}.

(** [m], run from [n] and [w], ends related to them (if it does not panic). *)
Definition from (R : rel) {A} (m : M A) (n : Node) (w : World) : Prop :=
  forall a n' w', m n w = Some (a, n', w') -> R n w n' w'.

Definition pres (R : rel) {A} (m : M A) : Prop := forall n w, from R m n w.

Lemma bind_inv {A B} (m : M A) (k : A -> M B) n w b n' w' :
  (m ≫= k) n w = Some (b, n', w') ->
  exists a n1 w1, m n w = Some (a, n1, w1) /\ k a n1 w1 = Some (b, n', w').
Proof.
  unfold mbind, M_bind. destruct (m n w) as [[[a n1] w1]|]; [|done].
  intros H. by exists a, n1, w1.
Qed.

(** Running a sequence from its first step. *)
Lemma bind_run {A B} (m : M A) (k : A -> M B) n w a n' w' :
  m n w = Some (a, n', w') -> (m ≫= k) n w = k a n' w'.
Proof. intros E. unfold mbind, M_bind. by rewrite E. Qed.

Lemma bind_gets {A B} (f : Node -> A) (k : A -> M B) n w : (gets f ≫= k) n w = k (f n) n w.
Proof. done. Qed.
Lemma bind_modify {B} f (k : unit -> M B) n w : (modify f ≫= k) n w = k tt (f n) w.
Proof. done. Qed.
Lemma bind_emit {B} e (k : unit -> M B) n w :
  (emit e ≫= k) n w = k tt n (MkWorld (faults w) (out w ++ [e])).
Proof. done. Qed.
Lemma bind_ret {A B} (a : A) (k : A -> M B) n w : (mret a ≫= k) n w = k a n w.
Proof. done. Qed.
Lemma bind_skip {B} (k : unit -> M B) n w : (skip ≫= k) n w = k tt n w.
Proof. done. Qed.
Lemma run_send to b t n w :
  send to b t n w = Some (tt, n, MkWorld (faults w) (out w ++ [Send to (MkMessage (id n) t (b n))])).
Proof. done. Qed.
Lemma bind_expr {A B} (f : Node -> option A) (k : A -> M B) n w a :
  f n = Some a -> (expr f ≫= k) n w = k a n w.
Proof. intros E. apply bind_run. unfold expr. by rewrite E. Qed.
Lemma bind_fault {B} (k : option nat -> M B) n w :
  faults w = [] -> (next_fault ≫= k) n w = k None n w.
Proof. intros E. apply bind_run. unfold next_fault. by rewrite E. Qed.

#[export] Hint Rewrite @bind_gets @bind_modify @bind_emit @bind_ret @bind_skip run_send : run.

Section pres.
Context {R : rel} {HR : NodeRel R}.

Lemma from_bind {A B} (m : M A) (k : A -> M B) n w :
  from R m n w -> (forall a n1 w1, m n w = Some (a, n1, w1) -> from R (k a) n1 w1) -> from R (m ≫= k) n w.
Proof.
  intros Hm Hk b n' w' (a & n1 & w1 & E1 & E2)%bind_inv.
  eapply nr_trans; [by apply (Hm a)|by apply (Hk a n1 w1 E1 b)].
Qed.

Lemma pres_bind {A B} (m : M A) (k : A -> M B) : pres R m -> (forall a, pres R (k a)) -> pres R (m ≫= k).
Proof. intros Hm Hk n w. apply from_bind; [apply Hm|]. intros a n1 w1 _. apply Hk. Qed.

Lemma pres_ret {A} (a : A) : pres R (mret a).
Proof. intros n w b n' w' [= <- <- <-]. apply nr_refl. Qed.

Lemma pres_gets {A} (f : Node -> A) : pres R (gets f).
Proof. intros n w b n' w' [= <- <- <-]. apply nr_refl. Qed.

Lemma pres_expr {A} (f : Node -> option A) : pres R (expr f).
Proof. intros n w b n' w'. unfold expr. destruct (f n); [|done]. intros [= <- <- <-]. apply nr_refl. Qed.

Lemma pres_modify f : (forall n w, R n w (f n) w) -> pres R (modify f).
Proof. intros H n w a n' w' [= <- <- <-]. apply H. Qed.

Lemma pres_emit e : (forall n w, R n w n (MkWorld (faults w) (out w ++ [e]))) -> pres R (emit e).
Proof. intros H n w a n' w' [= <- <- <-]. apply H. Qed.

Lemma pres_fault : (forall n w fs, R n w n (MkWorld fs (out w))) -> pres R next_fault.
Proof.
  intros H n w a n' w'. unfold next_fault. destruct (faults w); intros [= <- <- <-]; [|apply H].
  apply nr_refl.
Qed.

Lemma pres_forM {A} (l : list A) (f : A -> M unit) : (forall x, pres R (f x)) -> pres R (forM l f).
Proof.
  intros H. induction l as [|x l IH]; cbn [forM]; [apply pres_ret|].
  apply pres_bind; [apply H|]. intros _. exact IH.
Qed.

(** A read at the start of a computation. *)
Lemma from_gets {A B} (f : Node -> A) (k : A -> M B) n w :
  from R (k (f n)) n w -> from R (gets f ≫= k) n w.
Proof. intros H a n' w'. exact (H a n' w'). Qed.

End pres.

(** ** What the election sees of a node *)

Definition is_vote (e : effect) : bool :=
  match e with
  | Send _ m => match body m with
                | MsgRequestVote _ _ _ _ => true
                | MsgRequestVoteResponse g => g
                | _ => false
                end
  | _ => false
  end.

Definition votes_of (es : list effect) : list effect := filter (fun e => is_vote e = true) es.

(** Nothing the election sees has changed, no vote message was sent. *)
Definition quiet : rel := fun n w n' w' =>
  id n' = id n /\ currentTerm n' = currentTerm n /\ votedFor n' = votedFor n /\ role n' = role n
  /\ votesReceived n' = votesReceived n /\ stateFile n' = stateFile n
  /\ votes_of (out w') = votes_of (out w).

#[export] Instance quiet_rel : NodeRel quiet.
Proof. split; unfold quiet; [done|]. intros; intuition congruence. Qed.

(** One rule per construct; the leaves about [modify], [emit] and faults are
    tried by computation, then the lemmas of [pres]. *)
Create HintDb pres.

Ltac pres_step :=
  match goal with
  | |- pres _ (?m ≫= ?k) => apply pres_bind; [|intros ?]
  | |- pres _ (mret _) => apply pres_ret
  | |- pres _ skip => apply pres_ret
  | |- pres _ (gets _) => apply pres_gets
  | |- pres _ (expr _) => apply pres_expr
  | |- pres _ (forM _ _) => apply pres_forM; intros ?
  | |- pres _ (if ?b then _ else _) => destruct b
  | |- pres _ (match ?x with _ => _ end) => destruct x
  | |- pres _ (let _ := _ in _) => cbv zeta
  | |- pres _ _ => solve [eauto with pres]
  end.
Ltac pres_auto := repeat pres_step.

Lemma votes_of_snoc es e : votes_of (es ++ [e]) = votes_of es ++ (if is_vote e then [e] else []).
Proof.
  unfold votes_of. rewrite filter_app. f_equal. destruct (is_vote e) eqn:E.
  - by rewrite filter_cons_True.
  - by rewrite filter_cons_False by (by rewrite E).
Qed.

Lemma quiet_modify f :
  (forall n, id (f n) = id n /\ currentTerm (f n) = currentTerm n /\ votedFor (f n) = votedFor n
             /\ role (f n) = role n /\ votesReceived (f n) = votesReceived n /\ stateFile (f n) = stateFile n) ->
  pres quiet (modify f).
Proof. intros H. apply pres_modify. intros n w. destruct (H n) as (? & ? & ? & ? & ? & ?). by unfold quiet. Qed.

Lemma quiet_emit e : is_vote e = false -> pres quiet (emit e).
Proof.
  intros H. apply pres_emit. intros n w. unfold quiet. cbn. rewrite votes_of_snoc, H, app_nil_r. done.
Qed.

Lemma quiet_fault : pres quiet next_fault.
Proof. apply pres_fault. done. Qed.

#[export] Hint Resolve quiet_fault : pres.
#[export] Hint Extern 1 (pres quiet (modify _)) => apply quiet_modify; done : pres.
#[export] Hint Extern 1 (pres quiet (emit _)) => apply quiet_emit; done : pres.

Lemma send_quiet to b term :
  (forall n, is_vote (Send to (MkMessage (id n) term (b n))) = false) -> pres quiet (send to b term).
Proof.
  intros H n w a n' w' E. unfold send in E. cbn in E. injection E as <- <- <-. unfold quiet. cbn.
  rewrite votes_of_snoc. rewrite (H n), app_nil_r. done.
Qed.
#[export] Hint Extern 1 (pres quiet (send _ _ _)) => apply send_quiet; done : pres.

Lemma fileAppend_quiet e : pres quiet (fileAppend e).
Proof. unfold fileAppend. pres_auto. Qed.
Lemma fileTruncate_quiet i : pres quiet (fileTruncate i).
Proof. unfold fileTruncate. pres_auto. Qed.
#[export] Hint Resolve fileAppend_quiet fileTruncate_quiet : pres.

Lemma appendBoth_quiet e : pres quiet (appendBoth e).
Proof. unfold appendBoth. pres_auto. Qed.
#[export] Hint Resolve appendBoth_quiet : pres.

Lemma appendEntries_loop_quiet es : forall idx c, pres quiet (appendEntries_loop es idx c).
Proof. induction es as [|e es IH]; intros idx c; cbn [appendEntries_loop]; pres_auto. Qed.
#[export] Hint Resolve appendEntries_loop_quiet : pres.

Lemma foldBaseConfig_quiet i : pres quiet (foldBaseConfig i).
Proof. unfold foldBaseConfig. pres_auto. Qed.
Lemma fileCompact_quiet i t : pres quiet (fileCompact i t).
Proof. unfold fileCompact. pres_auto. Qed.
#[export] Hint Resolve foldBaseConfig_quiet fileCompact_quiet : pres.

Lemma maybeCompact_quiet : pres quiet maybeCompactLocked.
Proof. unfold maybeCompactLocked. pres_auto. Qed.
#[export] Hint Resolve maybeCompact_quiet : pres.

Lemma maybeAdvanceCommit_quiet : pres quiet maybeAdvanceCommitLocked.
Proof. unfold maybeAdvanceCommitLocked. pres_auto. Qed.
#[export] Hint Resolve maybeAdvanceCommit_quiet : pres.

Lemma sendRound_quiet p : pres quiet (sendRound p).
Proof. unfold sendRound. pres_auto. Qed.

Lemma ensurePeer_quiet p : pres quiet (ensurePeerLocked p).
Proof. unfold ensurePeerLocked. pres_auto. Qed.
#[export] Hint Resolve ensurePeer_quiet : pres.

Lemma reconcilePeers_quiet : pres quiet reconcilePeersLocked.
Proof. unfold reconcilePeersLocked. pres_auto. Qed.
#[export] Hint Resolve reconcilePeers_quiet : pres.

Lemma propose_quiet t k b : pres quiet (propose t k b).
Proof. unfold propose, adoptConfigLocked. pres_auto. Qed.

Lemma applyStep_quiet {S} `{StateMachine S} (s : S) : pres quiet (applyStep s).
Proof. unfold applyStep. pres_auto. Qed.

Lemma deriveConfig_quiet : pres quiet deriveConfigLocked.
Proof. unfold deriveConfigLocked. pres_auto. Qed.
#[export] Hint Resolve deriveConfig_quiet : pres.

Lemma transfer_start_quiet p : pres quiet (transfer_start p).
Proof. unfold transfer_start. pres_auto. Qed.
Lemma transfer_abort_quiet e : pres quiet (transfer_abort e).
Proof. unfold transfer_abort. pres_auto. Qed.
Lemma transfer_timeoutNow_quiet p t : pres quiet (transfer_timeoutNow p t).
Proof. unfold transfer_timeoutNow. pres_auto. Qed.
Lemma addServer_start_quiet p : pres quiet (addServer_start p).
Proof. unfold addServer_start. pres_auto. Qed.
Lemma advanceFollowerCommit_quiet lc : pres quiet (modify (advanceFollowerCommit lc)).
Proof.
  apply quiet_modify. intros n. unfold advanceFollowerCommit. cbv zeta. repeat case_decide; done.
Qed.
#[export] Hint Resolve advanceFollowerCommit_quiet : pres.

End run.
