(* ===== verification/RaftVote.v ===== *)
(** * Leader election, abstractly

    What the election part of internal/cluster/election.go promises, without
    logs, timers or files: voters with a term, a vote and their durable copies,
    and a network that loses messages and delivers each at most once.
    RaftElection.v proves that the nodes of RaftNode.v implement it.  [given] and
    [counted] are history variables: who got each voter's vote of a term, and
    whose votes a candidate has counted. *)

From Stdlib Require Import ZArith Lia.
From stdpp Require Import base list gmap gmultiset.
From S2P Require Import Prelude.
From S2P Require Import RaftNode.

#[local] Open Scope Z_scope.

Module vote.
Import node.

Record voter := MkVoter {
  v_term : Z;
  v_vote : NodeID;
  v_role : Role;
  v_votes : Z;
  v_dterm : Z;        (* durable *)
  v_dvote : NodeID
}.

Record state := MkState {
  voters : gmap NodeID voter;
  requests : gmultiset (NodeID * NodeID * Z);   (* candidate, voter, term *)
  grants : gmultiset (NodeID * NodeID * Z);     (* voter, candidate, term *)
  given : gmap (NodeID * Z) NodeID;
  counted : gmap (NodeID * Z) (gset NodeID)
}.

(** Steps of one voter that neither use nor send a vote message. *)
Inductive tau (i : NodeID) (v : voter) : voter -> Prop :=
| tau_stepDown T ok : T > v_term v ->
    tau i v (MkVoter T noVote Follower (v_votes v)
               (if ok : bool then T else v_dterm v) (if ok then noVote else v_dvote v))
| tau_follow : tau i v (MkVoter (v_term v) (v_vote v) Follower (v_votes v) (v_dterm v) (v_dvote v))
| tau_failed_vote c : v_vote v = noVote \/ v_vote v = c ->
    tau i v (MkVoter (v_term v) (v_vote v) (v_role v) (v_votes v) (v_term v) c)
| tau_failed_election :
    tau i v (MkVoter (v_term v) (v_vote v) (v_role v) (v_votes v) (v_term v + 1) i)
| tau_restart logTerm :
    let t := if decide (logTerm > v_dterm v) then logTerm else v_dterm v in
    let w := if decide (logTerm > v_dterm v) then noVote else v_dvote v in
    tau i v (MkVoter t w Follower 0 t w).

Section election.
(** The voting configuration, which does not change. *)
Context (C : gset NodeID).

Definition quorum : Z := Z.of_nat (size C) / 2 + 1.

Definition set_voter (i : NodeID) (v : voter) (g : state) : state :=
  MkState (<[i := v]> (voters g)) (requests g) (grants g) (given g) (counted g).

Definition ballots (i : NodeID) (T : Z) : gmultiset (NodeID * NodeID * Z) :=
  list_to_set_disj ((fun p => (i, p, T)) <$> elements (C ∖ {[i]})).

Inductive step (g : state) : state -> Prop :=
| step_tau i v v' : voters g !! i = Some v -> tau i v v' -> step g (set_voter i v' g)
| step_elect i v : voters g !! i = Some v -> v_role v <> Leader -> i ∈ C -> i <> noVote ->
    let T := v_term v + 1 in
    step g (MkState (<[i := MkVoter T i Candidate 1 T i]> (voters g))
              (ballots i T ⊎ requests g) (grants g)
              (<[(i, T) := i]> (given g)) (<[(i, T) := {[i]}]> (counted g)))
| step_grant i v c T : voters g !! i = Some v -> (c, i, T) ∈ requests g -> v_term v = T ->
    v_vote v = noVote \/ v_vote v = c ->
    step g (MkState (<[i := MkVoter T c (v_role v) (v_votes v) T c]> (voters g))
              (requests g ∖ {[+ (c, i, T) +]}) ({[+ (i, c, T) +]} ⊎ grants g)
              (<[(i, T) := c]> (given g)) (counted g))
| step_count i v w T : voters g !! i = Some v -> (w, i, T) ∈ grants g -> v_term v = T ->
    v_role v = Candidate ->
    let role := if decide (v_votes v + 1 >= quorum) then Leader else Candidate in
    step g (MkState (<[i := MkVoter T (v_vote v) role (v_votes v + 1) (v_dterm v) (v_dvote v)]> (voters g))
              (requests g) (grants g ∖ {[+ (w, i, T) +]})
              (given g) (<[(i, T) := {[w]} ∪ default ∅ (counted g !! (i, T))]> (counted g)))
| step_lose rq gr : rq ⊆ requests g -> gr ⊆ grants g ->
    step g (MkState (voters g) rq gr (given g) (counted g)).

(** Only the bootstrap leader leads unelected, in term 1. *)
Record init (g : state) : Prop := {
  init_voters i v : voters g !! i = Some v ->
    1 <= v_term v /\ v_dterm v = v_term v /\ v_role v <> Candidate
    /\ (v_role v = Leader -> i = bootstrapLeader /\ v_term v = 1);
  init_requests : requests g = ∅;
  init_grants : grants g = ∅;
  init_given : given g = ∅;
  init_counted : counted g = ∅
}.

(** ** The invariant *)

Definition holds_vote (T : Z) (c : NodeID) (t : Z) (w : NodeID) : Prop := t > T \/ (t = T /\ w = c).

Definition token (g : state) (c w : NodeID) (T : Z) : nat :=
  multiplicity (c, w, T) (requests g) + multiplicity (w, c, T) (grants g)
  + (if decide (w ∈ default ∅ (counted g !! (c, T))) then 1 else 0).

Record inv (g : state) : Prop := {
  inv_given i T c : given g !! (i, T) = Some c ->
    c <> noVote /\ exists v, voters g !! i = Some v
      /\ holds_vote T c (v_term v) (v_vote v) /\ holds_vote T c (v_dterm v) (v_dvote v);
  inv_requests c w T : (c, w, T) ∈ requests g -> given g !! (c, T) = Some c /\ w ∈ C /\ w <> c;
  inv_grants w c T : (w, c, T) ∈ grants g ->
    given g !! (w, T) = Some c /\ given g !! (c, T) = Some c /\ w ∈ C /\ w <> c;
  inv_counted c T W : counted g !! (c, T) = Some W ->
    2 <= T /\ given g !! (c, T) = Some c /\ W ⊆ C /\ forall w, w ∈ W -> given g !! (w, T) = Some c;
  inv_token c w T : w <> c -> (token g c w T <= 1)%nat;
  inv_candidate i v : voters g !! i = Some v -> v_role v = Candidate ->
    exists W, counted g !! (i, v_term v) = Some W /\ Z.of_nat (size W) = v_votes v;
  inv_leader i v : voters g !! i = Some v -> v_role v = Leader ->
    (exists W, counted g !! (i, v_term v) = Some W /\ quorum <= Z.of_nat (size W))
    \/ (i = bootstrapLeader /\ v_term v = 1);
  inv_term i v : voters g !! i = Some v -> 1 <= v_term v /\ 1 <= v_dterm v
}.

Lemma init_inv g : init g -> inv g.
Proof.
  intros [Hv Hr Hg Hgi Hc]. split.
  - intros i T c. rewrite Hgi, lookup_empty. done.
  - intros c w T. rewrite Hr. multiset_solver.
  - intros w c T. rewrite Hg. multiset_solver.
  - intros c T W. rewrite Hc, lookup_empty. done.
  - intros c w T _. unfold token. rewrite Hr, Hg, Hc, !multiplicity_empty, lookup_empty. cbn.
    rewrite decide_False by set_solver. lia.
  - intros i v Hi Hcand. destruct (Hv _ _ Hi) as (_ & _ & ? & _). done.
  - intros i v Hi Hl. destruct (Hv _ _ Hi) as (_ & _ & _ & H). right. by apply H.
  - intros i v Hi. destruct (Hv _ _ Hi) as (? & -> & _). lia.
Qed.

(** What a silent step preserves of one voter. *)
Lemma tau_facts i v v' :
  tau i v v' -> 1 <= v_term v -> 1 <= v_dterm v ->
  (1 <= v_term v' /\ 1 <= v_dterm v')
  /\ (v_role v' = Follower \/ (v_role v' = v_role v /\ v_term v' = v_term v /\ v_votes v' = v_votes v))
  /\ (forall T c, c <> noVote -> holds_vote T c (v_term v) (v_vote v) -> holds_vote T c (v_dterm v) (v_dvote v) ->
        holds_vote T c (v_term v') (v_vote v') /\ holds_vote T c (v_dterm v') (v_dvote v')).
Proof.
  unfold holds_vote. intros Hs H1 H2. destruct Hs as [T ok HT| |c Hc| |lt t w]; cbn.
  - split_and!; [lia|destruct ok; lia|by left|]. intros T' c Hc. destruct ok; lia.
  - split_and!; [lia..|by left|]. lia.
  - split_and!; [lia..|by right|]. intros T' c' Hc' H3 H4. split; [done|].
    destruct H3 as [?|[? E]]; [by left|]. right. split; [done|]. naive_solver.
  - split_and!; [lia..|by right|]. lia.
  - subst t w. split_and!; [case_decide; lia..|by left|]. intros T c Hc _ H4. case_decide; lia.
Qed.

Lemma tau_inv g i v v' : inv g -> voters g !! i = Some v -> tau i v v' -> inv (set_voter i v' g).
Proof.
  intros [Hg Hrq Hgr Hco Htk Hca Hle Hte] Hi Hs.
  destruct (Hte _ _ Hi) as [H1 H2]. destruct (tau_facts i v v' Hs H1 H2) as (Ht & Hrole & Hh).
  split; cbn [set_voter voters requests grants given counted]; try done.
  - intros j T c Hj. destruct (Hg _ _ _ Hj) as (Hc & u & Hu & Hh1 & Hh2). split; [done|].
    destruct (decide (i = j)) as [<-|Hne].
    + rewrite lookup_insert_eq. exists v'. split; [done|]. rewrite Hi in Hu. injection Hu as <-. by apply Hh.
    + rewrite lookup_insert_ne by done. by exists u.
  - intros j u Hj Hr. destruct (decide (i = j)) as [<-|Hne].
    + rewrite lookup_insert_eq in Hj. injection Hj as <-. destruct Hrole as [E|(E & -> & ->)]; [congruence|].
      apply (Hca _ _ Hi). congruence.
    + rewrite lookup_insert_ne in Hj by done. by eapply Hca.
  - intros j u Hj Hr. destruct (decide (i = j)) as [<-|Hne].
    + rewrite lookup_insert_eq in Hj. injection Hj as <-. destruct Hrole as [E|(E & -> & _)]; [congruence|].
      apply (Hle _ _ Hi). congruence.
    + rewrite lookup_insert_ne in Hj by done. by eapply Hle.
  - intros j u Hj. destruct (decide (i = j)) as [<-|Hne].
    + rewrite lookup_insert_eq in Hj. injection Hj as <-. done.
    + rewrite lookup_insert_ne in Hj by done. by eapply Hte.
Qed.

Lemma multiplicity_ballots i T x :
  multiplicity x (ballots i T)
  = (if decide (x.1.1 = i /\ x.2 = T /\ x.1.2 ∈ C /\ x.1.2 <> i) then 1%nat else 0%nat).
Proof.
  unfold ballots. assert (forall l : list NodeID, NoDup l ->
    multiplicity x (list_to_set_disj ((fun p => (i, p, T)) <$> l))
    = if decide (x.1.1 = i /\ x.2 = T /\ x.1.2 ∈ l) then 1%nat else 0%nat) as Hl.
  { intros l Hnd. induction l as [|p l IH].
    - rewrite fmap_nil, list_to_set_disj_nil, multiplicity_empty. rewrite decide_False; [done|]. intros (_ & _ & H). by apply elem_of_nil in H.
    - inversion_clear Hnd as [|? ? Hp Hnd']. rewrite fmap_cons, list_to_set_disj_cons, multiplicity_disj_union, IH by done.
      destruct x as [[a b] t]. cbn in *. destruct (decide ((a, b, t) = (i, p, T))) as [[= -> -> ->]|Hne].
      + rewrite multiplicity_singleton, (decide_True (P := (i, p, T) = _)) by done.
        rewrite (decide_False (P := _ /\ _ /\ p ∈ l)) by naive_solver.
        rewrite (decide_True (P := _ /\ _ /\ p ∈ p :: l)); [done|]. rewrite elem_of_cons. auto.
      + rewrite multiplicity_singleton, decide_False by done. cbn. apply decide_ext. rewrite elem_of_cons. naive_solver. }
  rewrite Hl by apply NoDup_elements. apply decide_ext. rewrite elem_of_elements. set_solver.
Qed.

Lemma elem_of_ballots i T x : x ∈ ballots i T <-> x.1.1 = i /\ x.2 = T /\ x.1.2 ∈ C /\ x.1.2 <> i.
Proof. rewrite elem_of_multiplicity, multiplicity_ballots. case_decide; naive_solver lia. Qed.

(** A vote of term [T] is given by a voter whose term and durable term are at
    least [T]. *)
Lemma given_term g i T c v :
  inv g -> given g !! (i, T) = Some c -> voters g !! i = Some v -> T <= v_term v /\ T <= v_dterm v.
Proof.
  intros Hi Hg Hv. destruct (inv_given _ Hi _ _ _ Hg) as (_ & u & Hu & H1 & H2).
  rewrite Hv in Hu. injection Hu as <-. unfold holds_vote in *. lia.
Qed.

(** The part of the invariant on votes after voter [i] has voted for [c] in [T]. *)
Lemma given_vote g i v v' T c :
  inv g -> voters g !! i = Some v -> v_term v' = T -> v_vote v' = c -> v_dterm v' = T -> v_dvote v' = c ->
  c <> noVote -> (forall T' c', given g !! (i, T') = Some c' -> T' < T \/ (T' = T /\ c' = c)) ->
  forall j T' c', <[(i, T) := c]> (given g) !! (j, T') = Some c' ->
    c' <> noVote /\ exists u, <[i := v']> (voters g) !! j = Some u
      /\ holds_vote T' c' (v_term u) (v_vote u) /\ holds_vote T' c' (v_dterm u) (v_dvote u).
Proof.
  intros Hi Hv Ht Hc Hdt Hdc Hne Hold j T' c' Hj. unfold holds_vote.
  destruct (decide ((i, T) = (j, T'))) as [[= <- <-]|Hn].
  - rewrite lookup_insert_eq in Hj. injection Hj as <-. rewrite lookup_insert_eq. split; [done|].
    exists v'. split; [done|]. lia.
  - rewrite lookup_insert_ne in Hj by done. destruct (inv_given _ Hi _ _ _ Hj) as (H1 & u & Hu & H2 & H3).
    split; [done|]. destruct (decide (i = j)) as [<-|Hij].
    + rewrite lookup_insert_eq. exists v'. split; [done|]. destruct (Hold _ _ Hj) as [?|[-> ?]]; [lia|congruence].
    + rewrite lookup_insert_ne by done. by exists u.
Qed.

(** Votes already given stay. *)
Lemma given_mono g (i : NodeID) (T : Z) (c : NodeID) j T' c' :
  (forall T' c', given g !! (i, T') = Some c' -> T' < T \/ (T' = T /\ c' = c)) ->
  given g !! (j, T') = Some c' -> <[(i, T) := c]> (given g) !! (j, T') = Some c'.
Proof.
  intros Hold Hj. destruct (decide ((i, T) = (j, T'))) as [[= <- <-]|Hn].
  - rewrite lookup_insert_eq. destruct (Hold _ _ Hj) as [?|[_ ->]]; [lia|done].
  - by rewrite lookup_insert_ne.
Qed.

Lemma elect_inv g i v :
  inv g -> voters g !! i = Some v -> i ∈ C -> i <> noVote ->
  let T := v_term v + 1 in
  inv (MkState (<[i := MkVoter T i Candidate 1 T i]> (voters g)) (ballots i T ⊎ requests g) (grants g)
         (<[(i, T) := i]> (given g)) (<[(i, T) := {[i]}]> (counted g))).
Proof.
  intros Hi Hv HiC Hne T.
  assert (forall T' c', given g !! (i, T') = Some c' -> T' < T \/ (T' = T /\ c' = i)) as Hold.
  { intros T' c' Hg. destruct (given_term _ _ _ _ _ Hi Hg Hv). left. unfold T. lia. }
  assert (given g !! (i, T) = None) as Hfresh.
  { apply eq_None_not_Some. intros [c Hg]. destruct (given_term _ _ _ _ _ Hi Hg Hv). unfold T in *. lia. }
  assert (counted g !! (i, T) = None) as Hfresh2.
  { apply eq_None_not_Some. intros [W Hg]. destruct (inv_counted _ Hi _ _ _ Hg) as (_ & H & _). congruence. }
  assert (forall j T' c', given g !! (j, T') = Some c' -> <[(i, T) := i]> (given g) !! (j, T') = Some c') as Hmono
    by (intros; by apply given_mono).
  destruct (inv_term _ Hi _ _ Hv) as [Ht1 _].
  split; cbn [voters requests grants given counted].
  - by apply (given_vote g i v).
  - intros c w T' [Hin|Hin]%gmultiset_elem_of_disj_union.
    + apply elem_of_ballots in Hin as (<- & <- & ? & ?). cbn in *. by rewrite lookup_insert_eq.
    + destruct (inv_requests _ Hi _ _ _ Hin) as (H1 & H2 & H3). by split_and!; [apply Hmono| |].
  - intros w c T' Hin. destruct (inv_grants _ Hi _ _ _ Hin) as (H1 & H2 & H3 & H4).
    by split_and!; [apply Hmono|apply Hmono| |].
  - intros c T' W HW. destruct (decide ((i, T) = (c, T'))) as [[= <- <-]|Hn].
    + rewrite lookup_insert_eq in HW. injection HW as <-. rewrite lookup_insert_eq. split_and!; [unfold T; lia|done|set_solver|].
      intros w ->%elem_of_singleton. by rewrite lookup_insert_eq.
    + rewrite lookup_insert_ne in HW by done. destruct (inv_counted _ Hi _ _ _ HW) as (H1 & H2 & H3 & H4).
      split_and!; [done|by apply Hmono|done|]. intros w Hw. by apply Hmono, H4.
  - intros c w T' Hwc. pose proof (inv_token _ Hi c w T' Hwc) as Ht. unfold token in *.
    cbn [requests grants counted]. rewrite multiplicity_disj_union, multiplicity_ballots. cbn.
    destruct (decide ((i, T) = (c, T'))) as [[= <- <-]|Hn].
    + rewrite lookup_insert_eq. cbn. rewrite (decide_False (P := w ∈ {[i]})) by set_solver.
      assert (multiplicity (i, w, T) (requests g) = 0%nat) as ->.
      { destruct (multiplicity _ _) eqn:E; [done|]. exfalso.
        assert ((i, w, T) ∈ requests g) as Hin by (apply elem_of_multiplicity; lia).
        apply (inv_requests _ Hi) in Hin as (H & _). congruence. }
      assert (multiplicity (w, i, T) (grants g) = 0%nat) as ->.
      { destruct (multiplicity _ (grants g)) eqn:E; [done|]. exfalso.
        assert ((w, i, T) ∈ grants g) as Hin by (apply elem_of_multiplicity; lia).
        apply (inv_grants _ Hi) in Hin as (_ & H & _). congruence. }
      clear Ht. case_decide; lia.
    + rewrite lookup_insert_ne by done. rewrite (decide_False (P := c = i /\ _)); [done|]. intros (-> & -> & _). done.
  - intros j u Hj Hr. destruct (decide (i = j)) as [<-|Hij].
    + rewrite lookup_insert_eq in Hj. injection Hj as <-. cbn. exists {[i]}. rewrite lookup_insert_eq.
      split; [done|]. by rewrite size_singleton.
    + rewrite lookup_insert_ne in Hj by done. rewrite lookup_insert_ne by congruence. by apply (inv_candidate _ Hi).
  - intros j u Hj Hr. destruct (decide (i = j)) as [<-|Hij].
    + rewrite lookup_insert_eq in Hj. injection Hj as <-. done.
    + rewrite lookup_insert_ne in Hj by done. rewrite lookup_insert_ne by congruence. by apply (inv_leader _ Hi).
  - intros j u Hj. destruct (decide (i = j)) as [<-|Hij].
    + rewrite lookup_insert_eq in Hj. injection Hj as <-. cbn. unfold T. lia.
    + rewrite lookup_insert_ne in Hj by done. by apply (inv_term _ Hi j).
Qed.

Lemma multiplicity_take (x y : NodeID * NodeID * Z) (X : gmultiset (NodeID * NodeID * Z)) :
  y ∈ X -> multiplicity x (X ∖ {[+ y +]}) = (multiplicity x X - if decide (x = y) then 1 else 0)%nat
    /\ (x = y -> (1 <= multiplicity x X)%nat).
Proof.
  intros Hy. rewrite multiplicity_difference, multiplicity_singleton. split; [done|].
  intros ->. by apply elem_of_multiplicity.
Qed.

Lemma elem_of_take (x y : NodeID * NodeID * Z) (X : gmultiset (NodeID * NodeID * Z)) : x ∈ X ∖ {[+ y +]} -> x ∈ X.
Proof. rewrite !elem_of_multiplicity, multiplicity_difference. lia. Qed.

Lemma grant_inv g i v c T :
  inv g -> voters g !! i = Some v -> (c, i, T) ∈ requests g -> v_term v = T ->
  v_vote v = noVote \/ v_vote v = c ->
  inv (MkState (<[i := MkVoter T c (v_role v) (v_votes v) T c]> (voters g))
         (requests g ∖ {[+ (c, i, T) +]}) ({[+ (i, c, T) +]} ⊎ grants g)
         (<[(i, T) := c]> (given g)) (counted g)).
Proof.
  intros Hi Hv Hin HT Hvote.
  destruct (inv_requests _ Hi _ _ _ Hin) as (Hc & HiC & Hne).
  destruct (inv_given _ Hi _ _ _ Hc) as (Hcn & _).
  assert (forall T' c', given g !! (i, T') = Some c' -> T' < T \/ (T' = T /\ c' = c)) as Hold.
  { intros T' c' Hg. destruct (inv_given _ Hi _ _ _ Hg) as (H1 & u & Hu & H2 & _).
    rewrite Hv in Hu. injection Hu as <-. unfold holds_vote in H2. rewrite HT in H2.
    destruct H2 as [?|[? H2]]; [lia|]. right. split; [done|]. destruct Hvote; congruence. }
  assert (forall j T' c', given g !! (j, T') = Some c' -> <[(i, T) := c]> (given g) !! (j, T') = Some c') as Hmono
    by (intros; by apply given_mono).
  destruct (inv_term _ Hi _ _ Hv) as [Ht1 _].
  split; cbn [voters requests grants given counted].
  - by apply (given_vote g i v).
  - intros c' w T' H%elem_of_take. destruct (inv_requests _ Hi _ _ _ H) as (H1 & H2 & H3).
    by split_and!; [apply Hmono| |].
  - intros w c' T' [H|H]%gmultiset_elem_of_disj_union.
    + apply gmultiset_elem_of_singleton in H as [= -> -> ->].
      split_and!; [by rewrite lookup_insert_eq|by apply Hmono|done|done].
    + destruct (inv_grants _ Hi _ _ _ H) as (H1 & H2 & H3 & H4). by split_and!; [apply Hmono|apply Hmono| |].
  - intros c' T' W HW. destruct (inv_counted _ Hi _ _ _ HW) as (H1 & H2 & H3 & H4).
    split_and!; [done|by apply Hmono|done|]. intros w Hw. by apply Hmono, H4.
  - intros c' w T' Hwc. pose proof (inv_token _ Hi c' w T' Hwc) as Ht. unfold token in *.
    cbn [requests grants counted]. rewrite multiplicity_disj_union, multiplicity_singleton.
    destruct (multiplicity_take (c', w, T') (c, i, T) (requests g) Hin) as [-> Hle].
    destruct (decide ((c', w, T') = (c, i, T))) as [[= -> -> ->]|Hn].
    + rewrite (decide_True (P := (i, c, T) = _)) by done. specialize (Hle eq_refl). lia.
    + rewrite (decide_False (P := (w, c', T') = _)) by congruence. lia.
  - intros j u Hj Hr. destruct (decide (i = j)) as [<-|Hij].
    + rewrite lookup_insert_eq in Hj. injection Hj as <-. cbn in *.
      destruct (inv_candidate _ Hi _ _ Hv Hr) as (W & HW & Hs). exists W. by rewrite <- HT.
    + rewrite lookup_insert_ne in Hj by done. by apply (inv_candidate _ Hi).
  - intros j u Hj Hr. destruct (decide (i = j)) as [<-|Hij].
    + rewrite lookup_insert_eq in Hj. injection Hj as <-. cbn in *. rewrite <- HT. by apply (inv_leader _ Hi).
    + rewrite lookup_insert_ne in Hj by done. by apply (inv_leader _ Hi).
  - intros j u Hj. destruct (decide (i = j)) as [<-|Hij].
    + rewrite lookup_insert_eq in Hj. injection Hj as <-. cbn. lia.
    + rewrite lookup_insert_ne in Hj by done. by apply (inv_term _ Hi j).
Qed.

(** A vote that is still in flight is not counted yet. *)
Lemma counted_fresh g i w T W :
  inv g -> (w, i, T) ∈ grants g -> counted g !! (i, T) = Some W -> w ∉ W.
Proof.
  intros Hi Hin HW HwW. destruct (inv_grants _ Hi _ _ _ Hin) as (_ & _ & _ & Hne).
  pose proof (inv_token _ Hi i w T Hne) as Ht. unfold token in Ht.
  rewrite HW in Ht. cbn in Ht. rewrite decide_True in Ht by done.
  rewrite elem_of_multiplicity in Hin. lia.
Qed.

Lemma count_inv g i v w T :
  inv g -> voters g !! i = Some v -> (w, i, T) ∈ grants g -> v_term v = T -> v_role v = Candidate ->
  let role := if decide (v_votes v + 1 >= quorum) then Leader else Candidate in
  inv (MkState (<[i := MkVoter T (v_vote v) role (v_votes v + 1) (v_dterm v) (v_dvote v)]> (voters g))
         (requests g) (grants g ∖ {[+ (w, i, T) +]})
         (given g) (<[(i, T) := {[w]} ∪ default ∅ (counted g !! (i, T))]> (counted g))).
Proof.
  intros Hi Hv Hin HT Hrole role.
  destruct (inv_grants _ Hi _ _ _ Hin) as (Hw & Hig & HwC & Hne).
  destruct (inv_candidate _ Hi _ _ Hv Hrole) as (W & HW & Hsize). rewrite HT in HW.
  destruct (inv_counted _ Hi _ _ _ HW) as (HT2 & _ & HWC & HWg).
  pose proof (counted_fresh g i w T W Hi Hin HW) as Hfresh.
  assert (Z.of_nat (size ({[w]} ∪ W)) = v_votes v + 1) as Hsize'.
  { rewrite size_union by set_solver. rewrite size_singleton. lia. }
  rewrite HW. cbn [default from_option id].
  split; cbn [voters requests grants given counted]; try apply Hi.
  - intros j T' c Hj. destruct (inv_given _ Hi _ _ _ Hj) as (H1 & u & Hu & H2 & H3). split; [done|].
    destruct (decide (i = j)) as [<-|Hij].
    + rewrite lookup_insert_eq. eexists. split; [done|]. rewrite Hv in Hu. injection Hu as <-. cbn.
      by rewrite <- HT.
    + rewrite lookup_insert_ne by done. by exists u.
  - intros w' c T' H%elem_of_take. by apply (inv_grants _ Hi).
  - intros c T' W' HW'. destruct (decide ((i, T) = (c, T'))) as [[= <- <-]|Hn].
    + rewrite lookup_insert_eq in HW'. injection HW' as <-. split_and!; [done|done|set_solver|].
      intros w' [->%elem_of_singleton|H]%elem_of_union; [done|by apply HWg].
    + rewrite lookup_insert_ne in HW' by done. by apply (inv_counted _ Hi).
  - intros c w' T' Hwc. pose proof (inv_token _ Hi c w' T' Hwc) as Ht. unfold token in *.
    cbn [requests grants counted].
    destruct (multiplicity_take (w', c, T') (w, i, T) (grants g) Hin) as [-> Hle].
    destruct (decide ((w', c, T') = (w, i, T))) as [[= -> -> ->]|Hn].
    + rewrite lookup_insert_eq. cbn. specialize (Hle eq_refl). rewrite HW in Ht. cbn in Ht.
      rewrite (decide_False (P := w ∈ W)) in Ht by done. case_decide; lia.
    + destruct (decide ((i, T) = (c, T'))) as [[= <- <-]|Hn'].
      * rewrite lookup_insert_eq. cbn. rewrite HW in Ht. cbn in Ht.
        assert (w' <> w) by congruence.
        rewrite (decide_ext (w' ∈ {[w]} ∪ W) (w' ∈ W)) by set_solver. lia.
      * rewrite lookup_insert_ne by done. lia.
  - intros j u Hj Hr. destruct (decide (i = j)) as [<-|Hij].
    + rewrite lookup_insert_eq in Hj. injection Hj as <-. cbn in *. rewrite lookup_insert_eq.
      eexists. split; [done|]. done.
    + rewrite lookup_insert_ne in Hj by done. rewrite lookup_insert_ne by congruence. by apply (inv_candidate _ Hi).
  - intros j u Hj Hr. destruct (decide (i = j)) as [<-|Hij].
    + rewrite lookup_insert_eq in Hj. injection Hj as <-. cbn in *. left. rewrite lookup_insert_eq.
      eexists. split; [done|]. unfold role in Hr. case_decide; [lia|done].
    + rewrite lookup_insert_ne in Hj by done. rewrite lookup_insert_ne by congruence. by apply (inv_leader _ Hi).
  - intros j u Hj. destruct (decide (i = j)) as [<-|Hij].
    + rewrite lookup_insert_eq in Hj. injection Hj as <-. cbn. rewrite <- HT. exact (inv_term _ Hi _ _ Hv).
    + rewrite lookup_insert_ne in Hj by done. by apply (inv_term _ Hi j).
Qed.

Lemma lose_inv g rq gr :
  inv g -> rq ⊆ requests g -> gr ⊆ grants g -> inv (MkState (voters g) rq gr (given g) (counted g)).
Proof.
  intros Hi Hrq Hgr. split; cbn [voters requests grants given counted]; try apply Hi.
  - intros c w T H. apply (inv_requests _ Hi). multiset_solver.
  - intros w c T H. apply (inv_grants _ Hi). multiset_solver.
  - intros c w T Hne. pose proof (inv_token _ Hi c w T Hne) as Ht. unfold token in *. cbn [requests grants counted].
    specialize (Hrq (c, w, T)). specialize (Hgr (w, c, T)). lia.
Qed.

Lemma step_inv g g' : inv g -> step g g' -> inv g'.
Proof.
  intros Hi Hs. destruct Hs.
  - by eapply tau_inv.
  - by apply elect_inv.
  - by apply grant_inv.
  - by apply count_inv.
  - by apply lose_inv.
Qed.

Lemma steps_inv g g' : inv g -> rtc step g g' -> inv g'.
Proof. intros Hi Hs. induction Hs; [done|]. by eapply IHHs, step_inv. Qed.

(** Votes given stay given. *)
Lemma given_step g g' x c : inv g -> step g g' -> given g !! x = Some c -> given g' !! x = Some c.
Proof.
  intros Hi Hs Hx. destruct x as [j T0].
  destruct Hs as [i v v'|i v Hv|i v cd T Hv Hin HT Hvote|i v w T|rq gr]; cbn [set_voter given]; try done.
  - apply given_mono; [|done]. intros T' c' Hg. destruct (given_term _ _ _ _ _ Hi Hg Hv). left. lia.
  - apply given_mono; [|done]. intros T' c' Hg. destruct (inv_requests _ Hi _ _ _ Hin) as (Hc & _).
    destruct (inv_given _ Hi _ _ _ Hc) as (Hcn & _). destruct (inv_given _ Hi _ _ _ Hg) as (H1 & u & Hu & H2 & _).
    rewrite Hv in Hu. injection Hu as <-. unfold holds_vote in H2. rewrite HT in H2.
    destruct H2 as [?|[? H2]]; [lia|]. right. split; [done|]. destruct Hvote; congruence.
Qed.

Lemma given_steps g g' x c : inv g -> rtc step g g' -> given g !! x = Some c -> given g' !! x = Some c.
Proof.
  intros Hi Hs. induction Hs as [|g g1 g2 H1 _ IH]; [done|]. intros Hx.
  apply IH; [by eapply step_inv|]. by apply (given_step g).
Qed.

(** Two majorities of the configuration share a voter. *)
Lemma quorums_meet (W W' : gset NodeID) :
  W ⊆ C -> W' ⊆ C -> quorum <= Z.of_nat (size W) -> quorum <= Z.of_nat (size W') -> exists w, w ∈ W /\ w ∈ W'.
Proof.
  unfold quorum. intros HW HW' H1 H2.
  destruct (decide (W ∩ W' = ∅)) as [E|E].
  - exfalso. assert (size (W ∪ W') <= size C)%nat as Hle by (apply subseteq_size; set_solver).
    rewrite size_union in Hle by set_solver.
    pose proof (Z.div_mod (Z.of_nat (size C)) 2). pose proof (Z.mod_pos_bound (Z.of_nat (size C)) 2). lia.
  - apply set_choose_L in E as [w Hw]. exists w. set_solver.
Qed.

(** ** Winning a term *)

(** [i] was elected in term [T], or bootstrapped. *)
Definition won (g : state) (i : NodeID) (T : Z) : Prop :=
  (exists W, counted g !! (i, T) = Some W /\ quorum <= Z.of_nat (size W) /\ 2 <= Z.of_nat (size W))
  \/ (i = bootstrapLeader /\ T = 1).

(** One winner per term. *)
Lemma won_unique g i j T : inv g -> won g i T -> won g j T -> i = j.
Proof.
  intros Hi [(W & HW & HsW & _)|[-> H1]] [(W' & HW' & HsW' & _)|[-> H2]].
  - destruct (inv_counted _ Hi _ _ _ HW) as (_ & _ & HC & Hg), (inv_counted _ Hi _ _ _ HW') as (_ & _ & HC' & Hg').
    destruct (quorums_meet W W' HC HC' HsW HsW') as (w & Hw & Hw').
    specialize (Hg _ Hw). specialize (Hg' _ Hw'). congruence.
  - destruct (inv_counted _ Hi _ _ _ HW). lia.
  - destruct (inv_counted _ Hi _ _ _ HW'). lia.
  - done.
Qed.

Lemma won_step g g' i T : inv g -> step g g' -> won g i T -> won g' i T.
Proof.
  intros Hi Hs [(W & HW & Hq & H2)|?]; [|by right]. left.
  destruct Hs as [j v v'|j v Hv|j v c T'|j v w T' Hv Hin HT Hr|rq gr]; cbn [set_voter counted]; try by exists W.
  - destruct (decide ((j, v_term v + 1) = (i, T))) as [[= -> <-]|Hn]; [|rewrite lookup_insert_ne by done; by exists W].
    destruct (inv_counted _ Hi _ _ _ HW) as (_ & Hg & _). destruct (given_term _ _ _ _ _ Hi Hg Hv). lia.
  - destruct (decide ((j, T') = (i, T))) as [[= -> ->]|Hn]; [|rewrite lookup_insert_ne by done; by exists W].
    rewrite lookup_insert_eq, HW. cbn. exists ({[w]} ∪ W). split; [done|].
    assert (size W <= size ({[w]} ∪ W))%nat by (apply subseteq_size; set_solver). lia.
Qed.

Lemma won_steps g g' i T : inv g -> rtc step g g' -> won g i T -> won g' i T.
Proof.
  intros Hi Hs. induction Hs as [|g g1 g2 H1 _ IH]; [done|]. intros Hw.
  apply IH; [by eapply step_inv|]. by apply (won_step g).
Qed.

(** A leader has won its term; a candidate has not. *)
Record tally (g : state) : Prop := {
  tl_candidate i v : voters g !! i = Some v -> v_role v = Candidate ->
    1 <= v_votes v /\ (v_votes v = 1 \/ v_votes v < quorum);
  tl_leader i v : voters g !! i = Some v -> v_role v = Leader -> won g i (v_term v)
}.

Lemma init_tally g : init g -> tally g.
Proof.
  intros [Hv _ _ _ _]. split; intros i v Hi Hr; destruct (Hv i v Hi) as (_ & _ & H1 & H2); [done|].
  right. by apply H2.
Qed.

Lemma tally_voter g g' i v v' :
  inv g -> tally g -> step g g' -> voters g !! i = Some v -> voters g' = <[i := v']> (voters g) ->
  (v_role v' = Candidate -> 1 <= v_votes v' /\ (v_votes v' = 1 \/ v_votes v' < quorum)) ->
  (v_role v' = Leader -> won g' i (v_term v')) -> tally g'.
Proof.
  intros Hi [Hc Hl] Hs Hv Hvs H1 H2. split; intros j u; rewrite Hvs.
  - destruct (decide (i = j)) as [<-|Hij]; [rewrite lookup_insert_eq|rewrite lookup_insert_ne by done; by apply Hc].
    intros [= <-]. exact H1.
  - destruct (decide (i = j)) as [<-|Hij]; [rewrite lookup_insert_eq; intros [= <-]; exact H2|].
    rewrite lookup_insert_ne by done. intros Hj Hr. apply (won_step g); [done|done|]. by apply Hl.
Qed.

Lemma tally_step g g' : inv g -> tally g -> step g g' -> tally g'.
Proof.
  intros Hi Ht Hs. pose proof Ht as [Hc Hl].
  destruct Hs as [i v v' Hv Htau|i v Hv|i v c T Hv Hin HT Hvo|i v w T Hv Hin HT Hr role'|rq gr Hrq Hgr].
  - destruct (inv_term _ Hi _ _ Hv) as [H1 H2]. destruct (tau_facts i v v' Htau H1 H2) as (_ & Hrole & _).
    apply (tally_voter g _ i v v' Hi Ht ltac:(by eapply step_tau) Hv eq_refl); intros Hr;
      destruct Hrole as [?|(Hr' & Ht' & Hvo)]; try congruence.
    + rewrite Hvo. apply (Hc i v Hv). congruence.
    + rewrite Ht'. apply (Hl i v Hv). congruence.
  - eapply (tally_voter g _ i v _ Hi Ht); [by apply step_elect|done|done|cbn; lia|done].
  - eapply (tally_voter g _ i v _ Hi Ht); [by eapply step_grant|done|done|cbn; apply (Hc i v Hv)|].
    cbn. rewrite <- HT. exact (Hl i v Hv).
  - destruct (inv_candidate _ Hi _ _ Hv Hr) as (W & HW & Hsize). rewrite HT in HW.
    pose proof (counted_fresh g i w T W Hi Hin HW) as Hfresh. destruct (Hc i v Hv Hr) as [H1 _].
    eapply (tally_voter g _ i v _ Hi Ht); [by eapply step_count|done|done|cbn; unfold role'; case_decide; [done|lia]|].
    cbn. unfold role'. case_decide as Hq; [|done]. intros _. left. cbn [counted]. rewrite lookup_insert_eq, HW. cbn. eexists. split; [done|].
    rewrite size_union by set_solver. rewrite size_singleton. lia.
  - split; cbn; [exact Hc|exact Hl].
Qed.

Lemma tally_steps g g' : inv g -> tally g -> rtc step g g' -> tally g'.
Proof.
  intros Hi Ht Hs. induction Hs as [|g g1 g2 H1 _ IH]; [done|].
  apply IH; [by eapply step_inv|by eapply tally_step].
Qed.

(** A candidate's term is still open for it. *)
Lemma candidate_not_won g i v :
  inv g -> tally g -> voters g !! i = Some v -> v_role v = Candidate -> ~ won g i (v_term v).
Proof.
  intros Hi Ht Hv Hr [(W & HW & H1 & H2)|[_ H1]];
    destruct (inv_candidate _ Hi _ _ Hv Hr) as (W' & HW' & Hs); destruct (tl_candidate _ Ht _ _ Hv Hr).
  - rewrite HW in HW'. injection HW' as <-. lia.
  - destruct (inv_counted _ Hi _ _ _ HW') as (Hb & _). lia.
Qed.

(** Silent steps make no leader and no candidate. *)
Lemma taus_role i v v' :
  rtc (tau i) v v' -> 1 <= v_term v -> 1 <= v_dterm v ->
  v_role v' = Follower \/ (v_role v' = v_role v /\ v_term v' = v_term v).
Proof.
  intros Hs. induction Hs as [v|v v1 v2 H1 _ IH]; [by right|]. intros Ht Hd.
  destruct (tau_facts _ _ _ H1 Ht Hd) as ([Ht1 Hd1] & Hrole & _). destruct (IH Ht1 Hd1) as [?|[Hr1 Et]]; [by left|].
  destruct Hrole as [?|(Hr' & Ht' & _)]; [left|right; split]; congruence.
Qed.

(** Election safety: at most one leader per term. *)
Lemma one_leader g i j u v :
  inv g -> voters g !! i = Some u -> voters g !! j = Some v ->
  v_role u = Leader -> v_role v = Leader -> v_term u = v_term v -> i = j.
Proof.
  intros Hi Hu Hv Hlu Hlv HT.
  destruct (inv_leader _ Hi _ _ Hu Hlu) as [(W & HW & HsW)|[-> H1]],
    (inv_leader _ Hi _ _ Hv Hlv) as [(W' & HW' & HsW')|[-> H2]].
  - rewrite <- HT in HW'.
    destruct (inv_counted _ Hi _ _ _ HW) as (_ & _ & HC & Hg), (inv_counted _ Hi _ _ _ HW') as (_ & _ & HC' & Hg').
    destruct (quorums_meet W W' HC HC' HsW HsW') as (w & Hw & Hw').
    specialize (Hg _ Hw). specialize (Hg' _ Hw'). congruence.
  - destruct (inv_counted _ Hi _ _ _ HW). lia.
  - destruct (inv_counted _ Hi _ _ _ HW'). lia.
  - done.
Qed.

End election.

End vote.
