(* ===== verification/RaftElection.v ===== *)
(** * Election safety of the nodes

    A cluster of the nodes of RaftNode.v over a network that delivers each
    message at most once, in any order, with disk faults, crashes and restarts,
    while no node's configuration changes.  Every step is simulated by the
    abstract election of RaftVote.v, so no term ever has two leaders. *)

From Stdlib Require Import ZArith Lia.
From Stdlib Require Import Strings.Byte.
From stdpp Require Import base list gmap gmultiset sorting.
From S2P Require Import Prelude.
From S2P Require Import RaftLog.
From S2P Require Import RaftConfig.
From S2P Require Import RaftLogFile.
From S2P Require Import RaftNode.
From S2P Require Import RaftRun.
From S2P Require Import RaftVote.

#[local] Open Scope Z_scope.

Module election.
Import raftlog node run.

(** ** The cluster *)

Section cluster.
Context {S : Type} {SM : StateMachine S}.

(** What a node does without consuming a message.  A campaign starts with the
    election timer, or as the second critical section of [handleTimeoutNow] when
    something came between it and the first: the first changes nothing, so it is
    then the loss of the message and a campaign at some later point. *)
Inductive act :=
| ACampaign (leaderTransfer : bool)
| AHeartbeat
| APropose (term : Z) (kind : EntryKind) (entry : bytes)
| ASendRound (p : NodeID)
| AApply (s : S)
| ARemoveFinish (target : NodeID)
| AAddStart (target : NodeID)
| ATransferStart (target : NodeID)
| ATransferAbort (e : error)
| ATransferTimeoutNow (target : NodeID) (term : Z).

Definition run_act (a : act) : M unit :=
  match a with
  | ACampaign lt => maybeStartElection lt
  | AHeartbeat => heartbeatTick
  | APropose t k b => _ ← propose t k b; skip
  | ASendRound p => _ ← sendRound p; skip
  | AApply s => _ ← applyStep s; skip
  | ARemoveFinish p => removeServer_finish p
  | AAddStart p => _ ← addServer_start p; skip
  | ATransferStart p => _ ← transfer_start p; skip
  | ATransferAbort e => _ ← transfer_abort e; skip
  | ATransferTimeoutNow p t => transfer_timeoutNow p t
  end.

Record cluster := MkCluster { nodes : gmap NodeID Node; net : list (NodeID * Message) }.

Definition sends (es : list effect) : list (NodeID * Message) :=
  omap (fun e => match e with Send to m => Some (to, m) | _ => None end) es.

(** Replies that go to a replicator. *)
Definition is_reply (b : Body) : bool :=
  match b with MsgAppendResponse _ _ _ => true | MsgInstallSnapshotResponse _ _ => true | _ => false end.

(** [Term] is a [uint64]. *)
Definition typed (m : Message) : Prop := is_u64 (Term m).

(** [C] is everyone's configuration, before and after; terms stay below the
    largest [uint64]. A replicator may be waiting for any round. *)
Inductive step (C : Members) (c : cluster) : cluster -> Prop :=
| step_deliver i n m l1 l2 now fs n' w' :
    nodes c !! i = Some n -> net c = l1 ++ (i, m) :: l2 -> typed m -> currentTerm n < max_u64 ->
    dispatch now m n (MkWorld fs []) = Some (tt, n', w') -> config n' = Some C ->
    step C c (MkCluster (<[i := n']> (nodes c)) (l1 ++ l2 ++ sends (out w')))
| step_reply i n p r m l1 l2 fs b n' w' :
    nodes c !! i = Some n -> net c = l1 ++ (i, m) :: l2 -> typed m -> is_reply (body m) = true ->
    onReply p r m n (MkWorld fs []) = Some (b, n', w') -> config n' = Some C ->
    step C c (MkCluster (<[i := n']> (nodes c)) (l1 ++ l2 ++ sends (out w')))
| step_act i n a fs n' w' :
    nodes c !! i = Some n -> currentTerm n < max_u64 ->
    run_act a n (MkWorld fs []) = Some (tt, n', w') -> config n' = Some C ->
    step C c (MkCluster (<[i := n']> (nodes c)) (net c ++ sends (out w')))
| step_restart i n ps boot cf syncOn logDisk recovered n' :
    nodes c !! i = Some n ->
    buildNode i ps boot cf syncOn (Some logDisk) (default None (stateFile n)) (default None (configPath n))
      recovered None = Ok n' -> is_u64 (currentTerm n') -> config n' = Some C ->
    step C c (MkCluster (<[i := n']> (nodes c)) (net c))
| step_lose x l1 l2 : net c = l1 ++ x :: l2 -> step C c (MkCluster (nodes c) (l1 ++ l2)).

(** Freshly built and started nodes, nothing in flight. *)
Definition init (C : Members) (c : cluster) : Prop :=
  net c = []
  /\ forall i n, nodes c !! i = Some n -> 0 <= i < 2 ^ 63
       /\ exists ps cf syncOn n0 w,
            buildNode i ps C cf syncOn None None None 0 None = Ok n0
            /\ node.start n0 (MkWorld [] []) = Some (tt, n, w) /\ config n = Some C.

(** ** Abstraction *)

Definition dstate (n : Node) : config.hardState := config.openRaftStateFile (default None (stateFile n)).

Definition vs (n : Node) : vote.voter :=
  vote.MkVoter (currentTerm n) (votedFor n) (role n) (votesReceived n)
    (config.currentTerm (dstate n)) (config.votedFor (dstate n)).

Record node_ok (n : Node) : Prop := {
  ok_term : is_u64 (currentTerm n);
  ok_id : 0 <= id n < 2 ^ 63;
  ok_vote : - 2 ^ 63 <= votedFor n < 2 ^ 63;
  ok_file : is_Some (stateFile n)
}.

(** The node moves by silent steps and sends no vote message. *)
Definition silent : rel := fun n w n' w' =>
  node_ok n -> node_ok n' /\ id n' = id n /\ rtc (vote.tau (id n)) (vs n) (vs n')
    /\ votes_of (out w') = votes_of (out w).

#[local] Instance silent_rel : NodeRel silent.
Proof.
  split; unfold silent; [done|]. intros n w n1 w1 n2 w2 H1 H2 Hok.
  destruct (H1 Hok) as (Hok1 & Hid & Hs & Hv). destruct (H2 Hok1) as (Hok2 & Hid2 & Hs2 & Hv2).
  rewrite Hid in Hs2. split_and!; [done|congruence|by etrans|congruence].
Qed.

Lemma quiet_vs n w n' w' : quiet n w n' w' -> vs n' = vs n.
Proof. intros (? & H1 & H2 & H3 & H4 & H5 & _). unfold vs, dstate. by rewrite H1, H2, H3, H4, H5. Qed.

Lemma quiet_silent n w n' w' : quiet n w n' w' -> silent n w n' w'.
Proof.
  intros Hq Hok. rewrite (quiet_vs _ _ _ _ Hq). destruct Hq as (H0 & H1 & H2 & H3 & H4 & H5 & H6).
  destruct Hok. split_and!; [split|done|apply rtc_refl|done]; congruence.
Qed.

Lemma pres_silent {A} (m : M A) : pres quiet m -> pres silent m.
Proof. intros H n w a n' w' E. apply quiet_silent. by eapply H. Qed.

(** The outcomes of saving the hard state. *)
Lemma persist_run n w ok n' w' :
  is_Some (stateFile n) -> persistHardStateLocked n w = Some (ok, n', w') ->
  out w' = out w
  /\ ((ok = false /\ n' = n) \/ n' = set_stateFile (Some (config.saved (currentTerm n) (votedFor n))) n).
Proof.
  intros [d Hd]. unfold persistHardStateLocked, mbind, M_bind, gets, next_fault, modify, mret, M_ret.
  cbn. rewrite Hd. cbn. destruct (faults w) as [|[[|k]|] fs]; cbn;
    intros [= <- <- <-]; cbn; auto.
  split; [done|]. left. split; [done|]. destruct n. cbn in *. by rewrite Hd.
Qed.

Lemma vs_stateFile n t v :
  is_u64 t -> - 2 ^ 63 <= v < 2 ^ 63 ->
  vs (set_stateFile (Some (config.saved t v)) n)
  = vote.MkVoter (currentTerm n) (votedFor n) (role n) (votesReceived n) t v.
Proof.
  intros Ht Hv. unfold vs, dstate. cbn [set_stateFile stateFile currentTerm votedFor role votesReceived].
  change (default None (Some ?x)) with x. by rewrite config.openRaftStateFile_save.
Qed.

Lemma vs_saved n :
  node_ok n -> vs (set_stateFile (Some (config.saved (currentTerm n) (votedFor n))) n)
  = vote.MkVoter (currentTerm n) (votedFor n) (role n) (votesReceived n) (currentTerm n) (votedFor n).
Proof.
  intros [Ht Hi Hv _]. by apply vs_stateFile.
Qed.

(** [stepDownLocked] to a higher term. *)
Lemma stepDown_run T n w u n' w' :
  node_ok n -> is_u64 T -> T > currentTerm n -> stepDownLocked T n w = Some (u, n', w') ->
  node_ok n' /\ id n' = id n /\ vote.tau (id n) (vs n) (vs n') /\ votes_of (out w') = votes_of (out w)
  /\ currentTerm n' = T /\ votedFor n' = noVote /\ role n' = Follower /\ config n' = config n /\ log n' = log n.
Proof.
  intros Hok HT Hgt E. unfold stepDownLocked in E.
  apply bind_inv in E as ([] & n1 & w1 & [= <- <-] & E). apply bind_inv in E as ([] & n1 & w1 & [= <- <-] & E).
  apply bind_inv in E as ([] & n1 & w1 & [= <- <-] & E). apply bind_inv in E as ([] & n1 & w1 & [= <- <-] & E).
  set (n0 := set_transferring false (set_votedFor noVote (set_role Follower (set_currentTerm T n)))) in *.
  apply bind_inv in E as (ok & n1 & w1 & Ep & E).
  destruct Hok as [H1 H2 H3 H4]. apply persist_run in Ep as [Ho Ep]; [|exact H4].
  apply bind_inv in E as ([] & n2 & w2 & [= <- <-] & [= <- <- <-]). cbn [out].
  rewrite !votes_of_snoc. cbn [is_vote app]. rewrite !app_nil_r, Ho.
  assert (node_ok n0) as Hok0 by (split; [done|exact H2|change (votedFor n0) with (-1); lia|exact H4]).
  destruct Ep as [[-> ->] | ->].
  - split_and!; try done. exact (vote.tau_stepDown (id n) (vs n) T false Hgt).
  - split_and!; try done. rewrite (vs_saved n0 Hok0). exact (vote.tau_stepDown (id n) (vs n) T true Hgt).
Qed.

Lemma forM_sends ps (b : Node -> Body) term n w :
  forM ps (fun p => send p b term) n w
  = Some (tt, n, MkWorld (faults w) (out w ++ ((fun p => Send p (MkMessage (id n) term (b n))) <$> ps))).
Proof.
  revert w. induction ps as [|p ps IH]; intros w; cbn [forM fmap list_fmap].
  - rewrite app_nil_r. by destruct w.
  - change ((send p b term ≫= fun _ => forM ps (fun p => send p b term)) n w)
      with (forM ps (fun p => send p b term) n
              (MkWorld (faults w) (out w ++ [Send p (MkMessage (id n) term (b n))]))).
    rewrite IH. cbn. by rewrite <- app_assoc.
Qed.

Lemma votes_of_requests (ps : list NodeID) i T li lti lt :
  let es := (fun p => Send p (MkMessage i T (MsgRequestVote i li lti lt))) <$> ps in votes_of es = es.
Proof.
  cbn zeta. induction ps as [|p ps IH]; [done|]. rewrite fmap_cons. unfold votes_of in *.
  rewrite filter_cons_True by done. by rewrite IH.
Qed.

(** Standing for election: deferred or failed and silent, or a new term with the
    node's own vote and a request to every other voter. *)
Lemma election_run C lt n w u n' w' :
  node_ok n -> config n = Some C -> currentTerm n < max_u64 ->
  maybeStartElection lt n w = Some (u, n', w') ->
  let T := currentTerm n + 1 in
  node_ok n' /\ id n' = id n
  /\ ((rtc (vote.tau (id n)) (vs n) (vs n') /\ votes_of (out w') = votes_of (out w))
      \/ (role n <> Leader /\ id n ∈ dom C /\ vs n' = vote.MkVoter T (id n) Candidate 1 T (id n)
          /\ exists li lti, votes_of (out w') = votes_of (out w)
               ++ ((fun p => Send p (MkMessage (id n) T (MsgRequestVote (id n) li lti lt))) <$> votingPeers n))).
Proof.
  intros Hok HC Hmax E T. unfold maybeStartElection in E.
  apply bind_inv in E as (r & n1 & w1 & [= <- <- <-] & E). apply bind_inv in E as (ins & n1 & w1 & [= <- <- <-] & E).
  apply bind_inv in E as (inC & n1 & w1 & [= <- <- <-] & E).
  case_decide as Hr; [injection E as <- <- <-; split_and!; [done|done|by left]|].
  destruct (installing n); [injection E as <- <- <-; split_and!; [done|done|by left]|].
  destruct (inConfigLocked n) eqn:HinC; cbn [negb] in E;
    [|injection E as <- <- <-; split_and!; [done|done|by left]].
  apply bind_inv in E as (pt & n1 & w1 & [= <- <- <-] & E). apply bind_inv in E as (pv & n1 & w1 & [= <- <- <-] & E).
  apply bind_inv in E as (pvs & n1 & w1 & [= <- <- <-] & E).
  apply bind_inv in E as ([] & n1 & w1 & [= <- <-] & E). apply bind_inv in E as ([] & n1 & w1 & [= <- <-] & E).
  apply bind_inv in E as ([] & n1 & w1 & [= <- <-] & E). apply bind_inv in E as ([] & n1 & w1 & [= <- <-] & E).
  pose proof Hok as [Ht Hid Hv Hf].
  assert (u64 (currentTerm n + 1) = T) as HT by (apply u64_small; unfold is_u64, max_u64 in *; lia).
  rewrite HT in E.
  set (n0 := set_votesReceived 1 _) in E.
  assert (node_ok n0) as Hok0 by (split; [unfold is_u64, max_u64 in *; cbn; lia|done|cbn; lia|done]).
  apply bind_inv in E as (ok & n1 & w1 & Ep & E). apply persist_run in Ep as [Ho Ep]; [|done].
  assert (vs (set_stateFile (Some (config.saved (currentTerm n0) (votedFor n0))) n0)
          = vote.MkVoter T (id n) Candidate 1 T (id n)) as Hvs by by rewrite vs_saved.
  destruct ok; cbn [negb] in E.
  - destruct Ep as [[? _] | ->]; [done|].
    apply bind_inv in E as (t & n2 & w2 & [= <- <- <-] & E). apply bind_inv in E as (li & n2 & w2 & [= <- <- <-] & E).
    apply bind_inv in E as (lti & n2 & w2 & E2 & E). unfold expr in E2.
    destruct (lastTerm _) as [x|]; [|done]. injection E2 as <- <- <-.
    apply bind_inv in E as (ps & n2 & w2 & [= <- <- <-] & E). apply bind_inv in E as ([] & n2 & w2 & [= <- <-] & E).
    rewrite forM_sends in E. injection E as <- <- <-. split; [by destruct Hok0|]. split; [done|].
    right. split_and!; [done| |done|].
    + unfold inConfigLocked in HinC. rewrite HC in HinC. apply elem_of_dom.
      destruct (C !! id n); [done|]. done.
    + cbn [out]. eexists _, _. unfold votes_of at 1. rewrite filter_app. fold votes_of.
      rewrite votes_of_snoc. cbn [is_vote]. rewrite app_nil_r, Ho. f_equal. apply votes_of_requests.
  - unfold modify in E. injection E as <- <- <-. rewrite Ho.
    destruct Ep as [[_ ->] | ->].
    + split; [by split|]. split; [done|]. left. split; [|done]. apply rtc_refl.
    + split; [by split|]. split; [done|]. left. split; [|done]. apply rtc_once.
      match goal with |- context [vs (set_votesReceived ?a ?b)] =>
        assert (set_votesReceived a b = set_stateFile (Some (config.saved T (id n))) n) as -> by (by destruct n) end.
      rewrite vs_stateFile by (done || lia || apply Hok0).
      exact (vote.tau_failed_election (id n) (vs n)).
Qed.

(** The optional step down at the start of the message handlers. *)
Lemma maybeStepDown_run T n w u n' w' :
  node_ok n -> is_u64 T ->
  (if decide (T > currentTerm n) then stepDownLocked T else skip) n w = Some (u, n', w') ->
  node_ok n' /\ id n' = id n /\ rtc (vote.tau (id n)) (vs n) (vs n') /\ votes_of (out w') = votes_of (out w)
  /\ (T >= currentTerm n -> currentTerm n' = T).
Proof.
  intros Hok HT E. case_decide as Hgt.
  - destruct (stepDown_run _ _ _ _ _ _ Hok HT Hgt E) as (H1 & H2 & H3 & H4 & H5 & _).
    split; [done|]. split; [done|]. split; [by apply rtc_once|]. by split.
  - injection E as <- <- <-. split; [done|]. split; [done|]. split; [apply rtc_refl|]. split; [done|lia].
Qed.

(** A vote request: silent, or a vote for the candidate that is durable before
    the grant is sent. *)
Lemma requestVote_run now m c li lti lt n w u n' w' :
  node_ok n -> typed m -> 0 <= c < 2 ^ 63 ->
  handleRequestVote now m c li lti lt n w = Some (u, n', w') ->
  node_ok n' /\ id n' = id n
  /\ ((rtc (vote.tau (id n)) (vs n) (vs n') /\ votes_of (out w') = votes_of (out w))
      \/ exists v, rtc (vote.tau (id n)) (vs n) v /\ vote.v_term v = Term m
           /\ (vote.v_vote v = noVote \/ vote.v_vote v = c)
           /\ vs n' = vote.MkVoter (Term m) c (vote.v_role v) (vote.v_votes v) (Term m) c
           /\ votes_of (out w') = votes_of (out w)
                ++ [Send (From m) (MkMessage (id n) (Term m) (MsgRequestVoteResponse true))]).
Proof.
  intros Hok Hm Hc E. unfold handleRequestVote in E.
  apply bind_inv in E as (st & n1 & w1 & [= <- <- <-] & E).
  destruct (negb lt && withinLeaderStickinessLocked now n).
  { apply bind_inv in E as (t & n1 & w1 & [= <- <- <-] & E). unfold send in E. cbn in E.
    injection E as <- <- <-. split; [done|]. split; [done|]. left. split; [apply rtc_refl|].
    cbn [out]. by rewrite votes_of_snoc, app_nil_r. }
  apply bind_inv in E as (t0 & n1 & w1 & [= <- <- <-] & E).
  apply bind_inv in E as (u1 & n1 & w1 & E1 & E).
  destruct (maybeStepDown_run _ _ _ _ _ _ Hok Hm E1) as (Hok1 & Hid1 & Hs1 & Hv1 & _). clear E1.
  apply bind_inv in E as (t & n2 & w2 & [= <- <- <-] & E). apply bind_inv in E as (v & n2 & w2 & [= <- <- <-] & E).
  apply bind_inv in E as (up & n2 & w2 & Eup & E).
  assert (n2 = n1 /\ w2 = w1 /\ (up = true -> Term m = currentTerm n1 /\ (votedFor n1 = noVote \/ votedFor n1 = c)))
    as (-> & -> & Hup).
  { case_decide; [|injection Eup as <- <- <-; done]. unfold expr in Eup.
    destruct (candidateUpToDateLocked _ _ _); [|done]. injection Eup as <- <- <-. done. }
  clear Eup. apply bind_inv in E as (g & n3 & w3 & Eg & E).
  apply bind_inv in E as (tt' & n4 & w4 & [= <- <- <-] & E). unfold send in E. cbn in E. injection E as <- <- <-.
  cbn [out]. rewrite votes_of_snoc. destruct up.
  2:{ injection Eg as <- <- <-. cbn [is_vote body]. rewrite app_nil_r. split; [done|]. split; [done|]. by left. }
  destruct (Hup eq_refl) as [HT Hvote]. clear Hup.
  apply bind_inv in Eg as ([] & n2 & w2 & [= <- <-] & Eg).
  set (n0 := set_votedFor c n1) in *.
  assert (node_ok n0) as Hok0 by (destruct Hok1; split; [done|done|cbn; lia|done]).
  apply bind_inv in Eg as (ok & n2 & w2 & Ep & Eg). apply persist_run in Ep as [Ho Ep]; [|apply Hok0].
  assert (vs (set_stateFile (Some (config.saved (currentTerm n0) (votedFor n0))) n0)
          = vote.MkVoter (Term m) c (role n1) (votesReceived n1) (Term m) c) as Hvs
    by (rewrite vs_saved by done; rewrite HT; done).
  destruct ok; cbn [negb] in Eg.
  - destruct Ep as [[? _] | ->]; [done|].
    apply bind_inv in Eg as ([] & n4 & w4 & [= <- <-] & [= <- <- <-]). cbn [out is_vote body].
    rewrite votes_of_snoc, app_nil_r, Ho, Hv1.
    split; [by destruct Hok0; split|]. split; [done|]. right. exists (vs n1).
    split; [done|]. split; [done|]. split; [done|]. split; [exact Hvs|].
    change (currentTerm (set_stateFile _ _)) with (currentTerm n1). rewrite <- HT.
    change (id (set_stateFile _ _)) with (id n1). by rewrite Hid1.
  - apply bind_inv in Eg as ([] & n4 & w4 & [= <- <-] & [= <- <- <-]). cbn [is_vote body].
    rewrite app_nil_r, Ho.
    assert (set_votedFor (votedFor n1) n0 = n1) as E0 by by destruct n1.
    destruct Ep as [[_ ->] | ->].
    + rewrite E0. split; [done|]. split; [done|]. by left.
    + split; [by destruct Hok1; split|]. split; [done|]. left. split; [|done].
      etrans; [exact Hs1|]. apply rtc_once. rewrite <- Hid1.
      assert (set_votedFor (votedFor n1) (set_stateFile (Some (config.saved (currentTerm n0) (votedFor n0))) n0)
              = set_stateFile (Some (config.saved (currentTerm n1) c)) n1) as -> by (by destruct n1).
      rewrite vs_stateFile by (apply Hok1 || lia).
      exact (vote.tau_failed_vote (id n1) (vs n1) c Hvote).
Qed.

Lemma becomeLeader_run n w u n' w' :
  becomeLeaderLocked n w = Some (u, n', w') -> quiet (set_role Leader n) w n' w'.
Proof.
  intros E. unfold becomeLeaderLocked in E. apply bind_inv in E as ([] & n1 & w1 & [= <- <-] & E).
  revert E. apply (fun H : pres quiet _ => H (set_role Leader n) w). pres_auto.
Qed.

Lemma quorum_dom (C : Members) : vote.quorum (dom C) = Z.of_nat (size C) / 2 + 1.
Proof. unfold vote.quorum. by rewrite size_dom. Qed.

(** A vote response: silent, or one more vote counted, and won with the last. *)
Lemma voteResponse_run C m g n w u n' w' :
  node_ok n -> typed m -> config n = Some C -> handleVoteResponse m g n w = Some (u, n', w') ->
  node_ok n' /\ id n' = id n /\ votes_of (out w') = votes_of (out w)
  /\ (rtc (vote.tau (id n)) (vs n) (vs n')
      \/ (g = true /\ currentTerm n = Term m /\ role n = Candidate
          /\ vs n' = vote.MkVoter (Term m) (vote.v_vote (vs n))
               (if decide (vote.v_votes (vs n) + 1 >= vote.quorum (dom C)) then Leader else Candidate)
               (vote.v_votes (vs n) + 1) (vote.v_dterm (vs n)) (vote.v_dvote (vs n)))).
Proof.
  intros Hok Hm HC E. unfold handleVoteResponse in E.
  apply bind_inv in E as (t0 & n1 & w1 & [= <- <- <-] & E). apply bind_inv in E as (r & n1 & w1 & [= <- <- <-] & E).
  case_decide as Hgt.
  { destruct (stepDown_run _ _ _ _ _ _ Hok Hm Hgt E) as (H1 & H2 & H3 & H4 & _).
    split; [done|]. split; [done|]. split; [done|]. left. by apply rtc_once. }
  case_decide as Hst; [injection E as <- <- <-; split; [done|]; split; [done|]; split; [done|]; by left|].
  destruct g; [|injection E as <- <- <-; split; [done|]; split; [done|]; split; [done|]; by left].
  assert (role n = Candidate /\ Term m = currentTerm n) as [Hr HT].
  { destruct (decide (role n = Candidate)); [|tauto]. split; [done|].
    destruct (decide (Term m = currentTerm n)); tauto. }
  apply bind_inv in E as ([] & n1 & w1 & [= <- <-] & E). apply bind_inv in E as (won & n1 & w1 & [= <- <- <-] & E).
  set (n1 := set_votesReceived (votesReceived n + 1) n) in *.
  assert (majority n1 = vote.quorum (dom C)) as Hmaj.
  { rewrite quorum_dom. unfold majority. change (config n1) with (config n). by rewrite HC. }
  rewrite Hmaj in E. change (votesReceived n1) with (vote.v_votes (vs n) + 1) in E.
  destruct Hok as [H1 H2 H3 H4].
  case_bool_decide as Hq.
  - pose proof (becomeLeader_run _ _ _ _ _ E) as Hqt. pose proof (quiet_vs _ _ _ _ Hqt) as Hvs.
    destruct Hqt as (Q0 & Q1 & Q2 & _ & _ & Q5 & Q6).
    split; [split; rewrite ?Q1, ?Q0, ?Q2, ?Q5; done|]. split; [done|]. split; [done|]. right.
    split; [done|]. split; [done|]. split; [done|]. rewrite decide_True by done. rewrite Hvs, HT. done.
  - injection E as <- <- <-. split; [by split|]. split; [done|]. split; [done|]. right.
    split; [done|]. split; [done|]. split; [done|]. rewrite decide_False by done.
    rewrite HT. unfold vs. by rewrite <- Hr.
Qed.

Lemma follow_silent n w : silent n w (set_role Follower n) w.
Proof.
  intros [H1 H2 H3 H4]. split; [by split|]. split; [done|]. split; [|done].
  apply rtc_once. exact (vote.tau_follow (id n) (vs n)).
Qed.

Lemma appendEntries_silent now m prev prevTerm es lc n w u n' w' :
  typed m -> handleAppendEntries now m prev prevTerm es lc n w = Some (u, n', w') -> silent n w n' w'.
Proof.
  intros Hm E Hok. unfold handleAppendEntries in E.
  apply bind_inv in E as (t0 & n1 & w1 & [= <- <- <-] & E). case_decide as Hlt.
  { revert E Hok. apply (fun H : pres silent _ => H n w). apply pres_silent. pres_auto. }
  apply bind_inv in E as (u1 & n1 & w1 & E1 & E).
  destruct (maybeStepDown_run _ _ _ _ _ _ Hok Hm E1) as (Hok1 & Hid1 & Hs1 & Hv1 & _). clear E1.
  apply bind_inv in E as ([] & n2 & w2 & [= <- <-] & E).
  destruct (follow_silent n1 w1 Hok1) as (Hok2 & Hid2 & Hs2 & Hv2).
  assert (silent (set_role Follower n1) w1 n' w') as Hr.
  { revert E. apply (fun H : pres silent _ => H (set_role Follower n1) w1). apply pres_silent. pres_auto. }
  destruct (Hr Hok2) as (Hok3 & Hid3 & Hs3 & Hv3). rewrite Hid2, Hid1 in *.
  split; [done|]. split; [done|]. split; [by etrans; [|etrans]|congruence].
Qed.

Lemma onReply_silent p r m n w b n' w' :
  typed m -> onReply p r m n w = Some (b, n', w') -> silent n w n' w'.
Proof.
  intros Hm E Hok. unfold onReply in E. apply bind_inv in E as (t0 & n1 & w1 & [= <- <- <-] & E).
  case_decide as Hgt.
  - apply bind_inv in E as (u & n1 & w1 & E1 & [= <- <- <-]).
    destruct (stepDown_run _ _ _ _ _ _ Hok Hm Hgt E1) as (H1 & H2 & H3 & H4 & _).
    split; [done|]. split; [done|]. split; [by apply rtc_once|done].
  - revert E Hok. apply (fun H : pres silent _ => H n w). apply pres_silent. pres_auto.
    all: apply quiet_modify; intros n0; unfold onAppendSuccessLocked, onAppendRejectLocked; done.
Qed.

Lemma removeServer_finish_silent p n w u n' w' :
  removeServer_finish p n w = Some (u, n', w') -> silent n w n' w'.
Proof.
  intros E. unfold removeServer_finish in E. apply bind_inv in E as (me & n1 & w1 & [= <- <- <-] & E).
  apply bind_inv in E as (r & n1 & w1 & [= <- <- <-] & E). apply bind_inv in E as (c & n1 & w1 & [= <- <- <-] & E).
  case_decide; [|injection E as <- <- <-; apply nr_refl].
  unfold relinquishLeadershipLocked in E. apply bind_inv in E as ([] & n1 & w1 & [= <- <-] & E).
  eapply nr_trans; [apply follow_silent|].
  revert E. match goal with |- ?m ?a ?b = _ -> _ => apply (fun H : pres silent m => H a b) end.
  apply pres_silent. pres_auto.
Qed.

Lemma act_silent a n w u n' w' :
  match a with ACampaign _ => False | _ => True end ->
  run_act a n w = Some (u, n', w') -> silent n w n' w'.
Proof.
  intros Ha E. destruct a as [lt| |t k b|p|s|p|p|p|e|p t]; [done|..]; cbn [run_act] in E.
  5:{ by apply removeServer_finish_silent in E. }
  all: revert E; match goal with |- ?m _ _ = _ -> _ => apply (fun H : pres silent m => H n w) end; apply pres_silent.
  1: unfold heartbeatTick; pres_auto.
  all: try (apply pres_bind; [|intros ?; apply pres_ret]).
  all: auto using propose_quiet, sendRound_quiet, applyStep_quiet, addServer_start_quiet,
    transfer_start_quiet, transfer_abort_quiet, transfer_timeoutNow_quiet.
Qed.

(** ** Simulation *)

Definition req_of (x : NodeID * Message) : option (NodeID * NodeID * Z) :=
  match body x.2 with MsgRequestVote _ _ _ _ => Some (From x.2, x.1, Term x.2) | _ => None end.
Definition grant_of (x : NodeID * Message) : option (NodeID * NodeID * Z) :=
  match body x.2 with MsgRequestVoteResponse true => Some (From x.2, x.1, Term x.2) | _ => None end.

Definition reqs (l : list (NodeID * Message)) : gmultiset (NodeID * NodeID * Z) := list_to_set_disj (omap req_of l).
Definition grs (l : list (NodeID * Message)) : gmultiset (NodeID * NodeID * Z) := list_to_set_disj (omap grant_of l).

(** Candidates ask for votes in their own name. *)
Definition request_ok (x : NodeID * Message) : Prop :=
  match body x.2 with MsgRequestVote c _ _ _ => From x.2 = c /\ 0 <= c < 2 ^ 63 | _ => True end.

Record matches (C : Members) (c : cluster) (g : vote.state) : Prop := {
  m_voters : vote.voters g = vs <$> nodes c;
  m_requests : vote.requests g = reqs (net c);
  m_grants : vote.grants g = grs (net c);
  m_nodes i n : nodes c !! i = Some n -> id n = i /\ node_ok n /\ config n = Some C;
  m_net : Forall request_ok (net c)
}.

Lemma reqs_app a b : reqs (a ++ b) = reqs a ⊎ reqs b.
Proof. unfold reqs. by rewrite omap_app, list_to_set_disj_app. Qed.
Lemma grs_app a b : grs (a ++ b) = grs a ⊎ grs b.
Proof. unfold grs. by rewrite omap_app, list_to_set_disj_app. Qed.

Definition opt_set (o : option (NodeID * NodeID * Z)) : gmultiset (NodeID * NodeID * Z) :=
  match o with Some y => {[+ y +]} | None => ∅ end.

Lemma reqs_cons x l : reqs (x :: l) = opt_set (req_of x) ⊎ reqs l.
Proof. unfold reqs. cbn [omap list_omap]. destruct (req_of x); cbn [opt_set]; [done|multiset_solver]. Qed.
Lemma grs_cons x l : grs (x :: l) = opt_set (grant_of x) ⊎ grs l.
Proof. unfold grs. cbn [omap list_omap]. destruct (grant_of x); cbn [opt_set]; [done|multiset_solver]. Qed.

Lemma put_back (x : NodeID * NodeID * Z) (R : gmultiset (NodeID * NodeID * Z)) : ({[+ x +]} ⊎ R) ∖ {[+ x +]} = R.
Proof. multiset_solver. Qed.

Lemma reqs_remove l1 x l2 : reqs (l1 ++ x :: l2) = opt_set (req_of x) ⊎ reqs (l1 ++ l2).
Proof. rewrite !reqs_app, reqs_cons. multiset_solver. Qed.
Lemma grs_remove l1 x l2 : grs (l1 ++ x :: l2) = opt_set (grant_of x) ⊎ grs (l1 ++ l2).
Proof. rewrite !grs_app, grs_cons. multiset_solver. Qed.

(** Only vote messages count. *)
Lemma sends_votes es :
  reqs (sends es) = reqs (sends (votes_of es)) /\ grs (sends es) = grs (sends (votes_of es))
  /\ (Forall request_ok (sends (votes_of es)) -> Forall request_ok (sends es)).
Proof.
  induction es as [|e es (IH1 & IH2 & IH3)]; [done|]. unfold votes_of in *. rewrite filter_cons.
  destruct e as [to m| | | |]; cbn [is_vote]; try done. destruct m as [f t b].
  change (sends (Send to (MkMessage f t b) :: es)) with ([(to, MkMessage f t b)] ++ sends es).
  rewrite reqs_app, grs_app, Forall_app, IH1, IH2. case_decide as H.
  - change (sends (?e :: ?l)) with ([(to, MkMessage f t b)] ++ sends l). rewrite reqs_app, grs_app, Forall_app.
    split; [done|]. split; [done|]. intros [? ?]. auto.
  - cbn [body] in H. assert (reqs [(to, MkMessage f t b)] = ∅ /\ grs [(to, MkMessage f t b)] = ∅
      /\ request_ok (to, MkMessage f t b)) as (-> & -> & Ho).
    { unfold reqs, grs, request_ok. destruct b as [| | | | | |]; try done. cbn in *. by destruct VoteGranted. }
    split; [multiset_solver|]. split; [multiset_solver|]. intros ?. split; [by constructor|auto].
Qed.

Lemma sends_none es : votes_of es = [] -> reqs (sends es) = ∅ /\ grs (sends es) = ∅ /\ Forall request_ok (sends es).
Proof. intros H. destruct (sends_votes es) as (-> & -> & Hf). rewrite H in *. split_and!; [done..|]. by apply Hf. Qed.

Section simulation.
Context (C : Members).

Abbreviation vstep := (vote.step (dom C)).

Lemma lift_tau i v v' g :
  vote.voters g !! i = Some v -> rtc (vote.tau i) v v' -> rtc vstep g (vote.set_voter i v' g).
Proof.
  intros Hi Hs. revert g Hi. induction Hs as [v|v v1 v2 Ht _ IH]; intros g Hi.
  - replace (vote.set_voter i v g) with g; [apply rtc_refl|]. destruct g. unfold vote.set_voter. cbn in *.
    by rewrite insert_id.
  - eapply rtc_l; [by apply (vote.step_tau _ g i v v1)|].
    replace (vote.set_voter i v2 g) with (vote.set_voter i v2 (vote.set_voter i v1 g)).
    + apply IH. cbn. by rewrite lookup_insert_eq.
    + unfold vote.set_voter. cbn. by rewrite insert_insert_eq.
Qed.

(** The common end of a simulation: the network the concrete step leaves. *)
Lemma matches_after c g i n n' es rest voters' rq gr gi co :
  matches C c g -> nodes c !! i = Some n -> id n' = i -> node_ok n' -> config n' = Some C ->
  Forall request_ok rest -> Forall request_ok (sends (votes_of es)) ->
  voters' = <[i := vs n']> (vote.voters g) ->
  rq = reqs rest ⊎ reqs (sends (votes_of es)) -> gr = grs rest ⊎ grs (sends (votes_of es)) ->
  matches C (MkCluster (<[i := n']> (nodes c)) (rest ++ sends es)) (vote.MkState voters' rq gr gi co).
Proof.
  intros Hm Hi Hid Hok Hc Hr He Hv Hrq Hgr. destruct (sends_votes es) as (E1 & E2 & E3).
  split; cbn [vote.voters vote.requests vote.grants nodes net].
  - by rewrite Hv, (m_voters _ _ _ Hm), fmap_insert.
  - by rewrite Hrq, reqs_app, E1.
  - by rewrite Hgr, grs_app, E2.
  - intros j u Hj. destruct (decide (i = j)) as [<-|Hne].
    + rewrite lookup_insert_eq in Hj. injection Hj as <-. done.
    + rewrite lookup_insert_ne in Hj by done. by apply (m_nodes _ _ _ Hm).
  - apply Forall_app. auto.
Qed.

(** A step that does nothing for the election but may lose messages. *)
Lemma sim_silent c g i n n' es rest :
  matches C c g -> nodes c !! i = Some n -> id n' = id n -> node_ok n' -> config n' = Some C ->
  rtc (vote.tau (id n)) (vs n) (vs n') -> votes_of es = [] ->
  Forall request_ok rest -> reqs rest ⊆ reqs (net c) -> grs rest ⊆ grs (net c) ->
  exists g', rtc vstep g g' /\ matches C (MkCluster (<[i := n']> (nodes c)) (rest ++ sends es)) g'
    /\ vote.given g' = vote.given g.
Proof.
  intros Hm Hi Hid Hok Hc Hs He Hr Hrq Hgr. destruct (m_nodes _ _ _ Hm _ _ Hi) as (Hid0 & _). rewrite Hid0 in *.
  assert (vote.voters g !! i = Some (vs n)) as Hv by by rewrite (m_voters _ _ _ Hm), lookup_fmap, Hi.
  eexists. split.
  - etrans; [apply (lift_tau i (vs n) (vs n') g Hv Hs)|]. apply rtc_once.
    apply (vote.step_lose _ _ (reqs rest) (grs rest)); cbn; [rewrite (m_requests _ _ _ Hm)|rewrite (m_grants _ _ _ Hm)]; done.
  - split; [|done]. cbn. eapply matches_after; try done; rewrite He; cbn; [done|..]; unfold reqs, grs; cbn; multiset_solver.
Qed.

(** A step in which the node stands for election. *)
Lemma sim_elect c g i n n' es rest lt li lti :
  matches C c g -> nodes c !! i = Some n -> id n' = id n -> node_ok n' -> config n' = Some C ->
  role n <> Leader -> id n ∈ dom C ->
  let T := currentTerm n + 1 in
  vs n' = vote.MkVoter T (id n) Candidate 1 T (id n) ->
  votes_of es = (fun p => Send p (MkMessage (id n) T (MsgRequestVote (id n) li lti lt))) <$> votingPeers n ->
  Forall request_ok rest -> reqs rest ⊆ reqs (net c) -> grs rest ⊆ grs (net c) ->
  exists g', rtc vstep g g' /\ matches C (MkCluster (<[i := n']> (nodes c)) (rest ++ sends es)) g'
    /\ vote.given g' = <[(i, T) := i]> (vote.given g).
Proof.
  intros Hm Hi Hid Hok Hc Hrole HC T Hvs He Hr Hrq Hgr.
  destruct (m_nodes _ _ _ Hm _ _ Hi) as (Hid0 & Hok0 & Hc0). rewrite Hid0 in *.
  assert (vote.voters g !! i = Some (vs n)) as Hv by by rewrite (m_voters _ _ _ Hm), lookup_fmap, Hi.
  assert (i <> noVote) as Hne by (pose proof (ok_id _ Hok0); change noVote with (-1); lia).
  assert (omap req_of (sends (votes_of es)) = (fun p => (i, p, T)) <$> votingPeers n
          /\ omap grant_of (sends (votes_of es)) = [] /\ Forall request_ok (sends (votes_of es))) as (E1 & E2 & E3).
  { rewrite He. pose proof (ok_id _ Hok0) as Hb. rewrite Hid0 in Hb. clear -Hb.
    induction (votingPeers n) as [|p ps (IH1 & IH2 & IH3)]; [done|].
    rewrite !fmap_cons. split_and!.
    - cbn. f_equal. exact IH1.
    - exact IH2.
    - constructor; [done|exact IH3]. }
  assert (reqs (sends (votes_of es)) = vote.ballots (dom C) i T) as Hb.
  { unfold reqs, vote.ballots. rewrite E1. apply list_to_set_disj_perm, fmap_Permutation.
    unfold votingPeers. rewrite Hc0, merge_sort_Permutation, Hid0. apply NoDup_Permutation.
    - apply NoDup_filter, NoDup_fst_map_to_list.
    - apply NoDup_elements.
    - intros p. rewrite list_elem_of_filter, elem_of_elements, elem_of_difference, elem_of_dom, elem_of_singleton.
      rewrite list_elem_of_fmap. split.
      + intros (? & [q b] & -> & Hq%elem_of_map_to_list). cbn in *. by rewrite Hq.
      + intros [[b Hb] ?]. split; [done|]. exists (p, b). split; [done|]. by apply elem_of_map_to_list. }
  eexists. split.
  - etrans; [apply rtc_once, (vote.step_lose _ g (reqs rest) (grs rest));
      [rewrite (m_requests _ _ _ Hm)|rewrite (m_grants _ _ _ Hm)]; done|].
    apply rtc_once, (vote.step_elect _ _ i (vs n)); done.
  - split; [|done]. cbn. eapply matches_after; try done.
    + by rewrite Hvs.
    + rewrite Hb. apply (comm_L (⊎)).
    + unfold grs at 3. rewrite E2. symmetry. apply (right_id_L ∅ (⊎)).
Qed.

(** A delivered request that is granted. *)
Lemma sim_grant c g i n n' es m cand li lti tr l1 l2 v :
  matches C c g -> nodes c !! i = Some n -> id n' = id n -> node_ok n' -> config n' = Some C ->
  net c = l1 ++ (i, m) :: l2 -> body m = MsgRequestVote cand li lti tr ->
  rtc (vote.tau (id n)) (vs n) v -> vote.v_term v = Term m ->
  vote.v_vote v = noVote \/ vote.v_vote v = cand ->
  vs n' = vote.MkVoter (Term m) cand (vote.v_role v) (vote.v_votes v) (Term m) cand ->
  votes_of es = [Send (From m) (MkMessage (id n) (Term m) (MsgRequestVoteResponse true))] ->
  exists g', rtc vstep g g' /\ matches C (MkCluster (<[i := n']> (nodes c)) ((l1 ++ l2) ++ sends es)) g'
    /\ vote.given g' = <[(i, Term m) := cand]> (vote.given g).
Proof.
  intros Hm Hi Hid Hok Hc Hnet Hb Hs Ht Hvo Hvs He.
  destruct (m_nodes _ _ _ Hm _ _ Hi) as (Hid0 & _). rewrite Hid0 in *.
  assert (vote.voters g !! i = Some (vs n)) as Hv by by rewrite (m_voters _ _ _ Hm), lookup_fmap, Hi.
  pose proof (m_net _ _ _ Hm) as Hf. rewrite Hnet in Hf.
  apply Forall_app in Hf as [Hf1 [Hreq Hf2]%Forall_cons]. unfold request_ok in Hreq. cbn in Hreq.
  rewrite Hb in Hreq. destruct Hreq as [Hfrom _].
  assert (req_of (i, m) = Some (cand, i, Term m)) as Hro by (unfold req_of; cbn; by rewrite Hb, Hfrom).
  assert (grant_of (i, m) = None) as Hgo by (unfold grant_of; cbn; by rewrite Hb).
  pose proof (m_requests _ _ _ Hm) as Hrq. pose proof (m_grants _ _ _ Hm) as Hgr. rewrite Hnet in Hrq, Hgr.
  rewrite reqs_remove, Hro in Hrq. rewrite grs_remove, Hgo in Hgr. cbn [opt_set] in Hrq, Hgr.
  rewrite (left_id_L ∅ (⊎)) in Hgr.
  eexists. split.
  - etrans; [apply (lift_tau i (vs n) v g Hv Hs)|]. apply rtc_once.
    apply (vote.step_grant _ _ i v cand (Term m)); cbn; [by rewrite lookup_insert_eq| |done|done].
    rewrite Hrq. multiset_solver.
  - split; [|done]. cbn [vote.set_voter vote.voters vote.requests vote.grants vote.given vote.counted].
    rewrite insert_insert_eq.
    assert (reqs (sends (votes_of es)) = ∅) as E1 by by rewrite He.
    assert (grs (sends (votes_of es)) = {[+ (i, cand, Term m) +]}) as E2.
    { rewrite He. change (sends _) with [(From m, MkMessage i (Term m) (MsgRequestVoteResponse true))].
      rewrite grs_cons. unfold grant_of. cbn [body fst snd From Term opt_set]. rewrite Hfrom.
      apply (right_id_L ∅ (⊎)). }
    apply (matches_after c g i n n' es (l1 ++ l2)); try done.
    + by apply Forall_app.
    + rewrite He. by constructor.
    + by rewrite Hvs.
    + rewrite Hrq, E1, (right_id_L ∅ (⊎)). apply put_back.
    + rewrite Hgr, E2. apply (comm_L (⊎)).
Qed.

(** A delivered grant that is counted. *)
(** How a step of node [i] changes the votes given. *)
Definition stands (i : NodeID) (n n' : Node) (g g' : vote.state) : Prop :=
  role n <> Leader /\ role n' = Candidate /\ currentTerm n' = currentTerm n + 1
  /\ vote.given g' = <[(i, currentTerm n') := i]> (vote.given g).

Definition grants (i : NodeID) (n' : Node) (m : Message) (es : list effect) (g g' : vote.state) : Prop :=
  exists cand li lti tr, body m = MsgRequestVote cand li lti tr /\ currentTerm n' = Term m
    /\ Send (From m) (MkMessage i (Term m) (MsgRequestVoteResponse true)) ∈ es
    /\ vote.given g' = <[(i, Term m) := cand]> (vote.given g).

Lemma sim_count c g i n n' es m l1 l2 :
  matches C c g -> nodes c !! i = Some n -> id n' = id n -> node_ok n' -> config n' = Some C ->
  net c = l1 ++ (i, m) :: l2 -> body m = MsgRequestVoteResponse true ->
  currentTerm n = Term m -> role n = Candidate ->
  vs n' = vote.MkVoter (Term m) (vote.v_vote (vs n))
            (if decide (vote.v_votes (vs n) + 1 >= vote.quorum (dom C)) then Leader else Candidate)
            (vote.v_votes (vs n) + 1) (vote.v_dterm (vs n)) (vote.v_dvote (vs n)) ->
  votes_of es = [] ->
  exists g', rtc vstep g g' /\ matches C (MkCluster (<[i := n']> (nodes c)) ((l1 ++ l2) ++ sends es)) g'
    /\ vote.given g' = vote.given g.
Proof.
  intros Hm Hi Hid Hok Hc Hnet Hb Ht Hr Hvs He.
  destruct (m_nodes _ _ _ Hm _ _ Hi) as (Hid0 & _). rewrite Hid0 in *.
  assert (vote.voters g !! i = Some (vs n)) as Hv by by rewrite (m_voters _ _ _ Hm), lookup_fmap, Hi.
  pose proof (m_net _ _ _ Hm) as Hf. rewrite Hnet in Hf. apply Forall_app in Hf as [Hf1 [_ Hf2]%Forall_cons].
  assert (grant_of (i, m) = Some (From m, i, Term m)) as Hgo by (unfold grant_of; cbn; by rewrite Hb).
  assert (req_of (i, m) = None) as Hro by (unfold req_of; cbn; by rewrite Hb).
  pose proof (m_requests _ _ _ Hm) as Hrq. pose proof (m_grants _ _ _ Hm) as Hgr. rewrite Hnet in Hrq, Hgr.
  rewrite reqs_remove, Hro in Hrq. rewrite grs_remove, Hgo in Hgr. cbn [opt_set] in Hrq, Hgr.
  rewrite (left_id_L ∅ (⊎)) in Hrq.
  eexists. split.
  - apply rtc_once, (vote.step_count _ _ i (vs n) (From m) (Term m)); [done| |done|done].
    rewrite Hgr. multiset_solver.
  - split; [|done]. assert (reqs (sends (votes_of es)) = ∅) as E1 by by rewrite He.
    assert (grs (sends (votes_of es)) = ∅) as E2 by by rewrite He.
    apply (matches_after c g i n n' es (l1 ++ l2)); try done.
    + by apply Forall_app.
    + by rewrite He.
    + by rewrite Hvs.
    + rewrite Hrq, E1. multiset_solver.
    + rewrite Hgr, E2. multiset_solver.
Qed.

(** Standing for election, by timeout or on request. *)
Lemma sim_stand c g i n lt fs n' w' rest :
  matches C c g -> nodes c !! i = Some n -> currentTerm n < max_u64 ->
  maybeStartElection lt n (MkWorld fs []) = Some (tt, n', w') -> config n' = Some C ->
  Forall request_ok rest -> reqs rest ⊆ reqs (net c) -> grs rest ⊆ grs (net c) ->
  exists g', rtc vstep g g' /\ matches C (MkCluster (<[i := n']> (nodes c)) (rest ++ sends (out w'))) g'
    /\ (vote.given g' = vote.given g \/ stands i n n' g g').
Proof.
  intros Hm Hi Hmax El Hc Hr Hrq Hgr. destruct (m_nodes _ _ _ Hm _ _ Hi) as (Hid & Hok & Hc0).
  destruct (election_run C lt _ _ _ _ _ Hok Hc0 Hmax El) as (H1 & H2 & [[H3 H4]|(H3 & H4 & H5 & li & lti & H6)]).
  - destruct (sim_silent c g i n n' (out w') rest) as (g' & Hs & Hm' & Hgi); try done. exists g'. auto.
  - destruct (sim_elect c g i n n' (out w') rest lt li lti) as (g' & Hs & Hm' & Hgi); try done.
    exists g'. split; [done|]. split; [done|]. right. unfold stands.
    pose proof (f_equal vote.v_term H5) as Et. pose proof (f_equal vote.v_role H5) as Er. cbn in Et, Er.
    by rewrite Et.
Qed.

Lemma sim_deliver c g i n m l1 l2 now fs n' w' :
  matches C c g -> nodes c !! i = Some n -> net c = l1 ++ (i, m) :: l2 -> typed m -> currentTerm n < max_u64 ->
  dispatch now m n (MkWorld fs []) = Some (tt, n', w') -> config n' = Some C ->
  exists g', rtc vstep g g' /\ matches C (MkCluster (<[i := n']> (nodes c)) ((l1 ++ l2) ++ sends (out w'))) g'
    /\ (vote.given g' = vote.given g \/ stands i n n' g g' \/ grants i n' m (out w') g g').
Proof.
  intros Hm Hi Hnet Hty Hmax E Hc. destruct (m_nodes _ _ _ Hm _ _ Hi) as (Hid & Hok & Hc0).
  pose proof (m_net _ _ _ Hm) as Hf. rewrite Hnet in Hf. apply Forall_app in Hf as [Hf1 [Hreq Hf2]%Forall_cons].
  assert (Forall request_ok (l1 ++ l2)) as Hf by (by apply Forall_app).
  assert (reqs (l1 ++ l2) ⊆ reqs (net c) /\ grs (l1 ++ l2) ⊆ grs (net c)) as [Hsr Hsg].
  { rewrite Hnet, reqs_remove, grs_remove. split; apply gmultiset_disj_union_subseteq_r. }
  assert (id n' = id n -> node_ok n' -> rtc (vote.tau (id n)) (vs n) (vs n') -> votes_of (out w') = [] ->
    exists g', rtc vstep g g' /\ matches C (MkCluster (<[i := n']> (nodes c)) ((l1 ++ l2) ++ sends (out w'))) g'
      /\ (vote.given g' = vote.given g \/ stands i n n' g g' \/ grants i n' m (out w') g g')) as Hquiet.
  { intros H1 H2 H3 H4. destruct (sim_silent c g i n n' (out w') (l1 ++ l2)) as (g' & ? & ? & ?); try done. exists g'. auto. }
  assert (silent n (MkWorld fs []) n' w' ->
    exists g', rtc vstep g g' /\ matches C (MkCluster (<[i := n']> (nodes c)) ((l1 ++ l2) ++ sends (out w'))) g'
      /\ (vote.given g' = vote.given g \/ stands i n n' g g' \/ grants i n' m (out w') g g')) as Hsil.
  { intros Hs. destruct (Hs Hok) as (H1 & H2 & H3 & H4). by apply Hquiet. }
  unfold dispatch in E. destruct (body m) as [prev pt es lc| |cand li lti tr|gr| | |] eqn:Hb;
    try (injection E as <- <-; by apply Hsil, nr_refl).
  - apply Hsil. by eapply appendEntries_silent.
  - assert (0 <= cand < 2 ^ 63) as Hcand by (unfold request_ok in Hreq; cbn in Hreq; rewrite Hb in Hreq; tauto).
    destruct (requestVote_run _ _ _ _ _ _ _ _ _ _ _ Hok Hty Hcand E) as (H1 & H2 & [[H3 H4]|(v & H3 & H4 & H5 & H6 & H7)]).
    + by apply Hquiet.
    + destruct (sim_grant c g i n n' (out w') m cand li lti tr l1 l2 v) as (g' & Hs & Hm' & Hgi); try done.
      exists g'. split; [done|]. split; [done|]. right. right. exists cand, li, lti, tr. split; [done|].
      split; [exact (f_equal vote.v_term H6)|]. split; [|done]. rewrite Hid in H7.
      assert (Send (From m) (MkMessage i (Term m) (MsgRequestVoteResponse true)) ∈ votes_of (out w')) as Hin
        by (rewrite H7; by apply list_elem_of_singleton).
      by apply list_elem_of_filter in Hin as [_ ?].
  - destruct (voteResponse_run C _ _ _ _ _ _ _ Hok Hty Hc0 E) as (H1 & H2 & H3 & [H4|(-> & H4 & H5 & H6)]).
    + by apply Hquiet.
    + destruct (sim_count c g i n n' (out w') m l1 l2) as (g' & ? & ? & ?); try done. exists g'. auto.
  - unfold handleTimeoutNow in E. apply bind_inv in E as (t & n1 & w1 & [= <- <- <-] & E).
    case_decide; [injection E as <- <-; by apply Hsil, nr_refl|].
    destruct (sim_stand c g i n true fs n' w' (l1 ++ l2)) as (g' & ? & ? & Hst); try done. exists g'. tauto.
Qed.

End simulation.

(** A restart from the durable files. *)
Lemma restart_run i n ps boot cf syncOn logDisk recovered n' :
  0 <= i < 2 ^ 63 -> is_u64 (currentTerm n') ->
  buildNode i ps boot cf syncOn (Some logDisk) (default None (stateFile n)) (default None (configPath n))
    recovered None = Ok n' ->
  id n' = i /\ node_ok n' /\ vote.tau i (vs n) (vs n').
Proof.
  intros Hi Hu E. unfold buildNode in E. rewrite bool_decide_eq_false_2 in E by (by intros [? _]).
  destruct (raftlogfile.openRaftLogFile _ _) as [[lf persisted]| |]; [|done..].
  case_decide; [done|]. destruct (config.deriveConfig _ _) as [cur|]; [|done].
  destruct (lastTerm _) as [lt|]; [|done]. cbn [andb] in E. fold (dstate n) in E.
  pose proof (vote.tau_restart i (vs n) lt) as Htau.
  destruct (config.openRaftStateFile_range (default None (stateFile n))) as [_ Hdv]. fold (dstate n) in Hdv.
  cbn zeta in Htau. change (vote.v_dterm (vs n)) with (config.currentTerm (dstate n)) in Htau.
  change (vote.v_dvote (vs n)) with (config.votedFor (dstate n)) in Htau.
  revert E Htau. destruct (decide (lt > config.currentTerm (dstate n))); intros E Htau; injection E as <-;
    cbn [currentTerm] in Hu; (split; [done|]);
    match goal with |- _ /\ vote.tau _ _ (vs ?a) => set (n1 := a) end;
    (assert (node_ok n1) as Hok; [split; [done|done| |done]|split; [done|]]).
  1: change (votedFor n1) with (-1); lia.
  2: exact Hdv.
  all: assert (n1 = set_stateFile (Some (config.saved (currentTerm n1) (votedFor n1))) n1) as -> by done;
    rewrite (vs_saved n1 Hok); exact Htau.
Qed.

(** A node of the first run. *)
Lemma init_run i C ps cf syncOn n0 n w :
  0 <= i < 2 ^ 63 -> buildNode i ps C cf syncOn None None None 0 None = Ok n0 ->
  node.start n0 (MkWorld [] []) = Some (tt, n, w) ->
  id n = i /\ node_ok n
  /\ vs n = vote.MkVoter 1 (votedFor n) (role n) 0 1 (votedFor n)
  /\ role n <> Candidate /\ (role n = Leader -> i = bootstrapLeader).
Proof.
  intros Hi E Es. unfold buildNode in E. rewrite bool_decide_eq_true_2 in E by done.
  destruct (raftlogfile.openRaftLogFile _ _) as [[lf persisted]| |]; [|done..].
  case_decide; [done|]. destruct (config.deriveConfig _ _) as [cur|]; [|done].
  destruct (lastTerm _) as [lt|]; [|done]. cbn [andb] in E.
  assert (quiet n0 (MkWorld [] []) n w) as Hq.
  { unfold node.start in Es. apply bind_inv in Es as (r & n1 & w1 & [= <- <- <-] & Es). case_decide as Hr.
    - apply becomeLeader_run in Es. by replace (set_role Leader n0) with n0 in Es by (destruct n0; cbn in Hr; by rewrite Hr).
    - injection Es as <- <-. apply nr_refl. }
  rewrite (quiet_vs _ _ _ _ Hq). destruct Hq as (Q0 & Q1 & Q2 & Q3 & _ & Q5 & _). rewrite Q0, Q2, Q3.
  enough (id n0 = i /\ node_ok n0 /\ vs n0 = vote.MkVoter 1 (votedFor n0) (role n0) 0 1 (votedFor n0)
          /\ role n0 <> Candidate /\ (role n0 = Leader -> i = bootstrapLeader)) as (H1 & [? ? ? ?] & H3 & H4 & H5).
  { split; [done|]. split; [split; by rewrite ?Q0, ?Q1, ?Q2, ?Q5|]. done. }
  clear Es Q0 Q1 Q2 Q3 Q5. case_bool_decide as Hb; injection E as <-;
    match goal with |- _ /\ node_ok ?a /\ _ => set (n1 := a) end;
    (assert (node_ok n1) as Hok; [split; [split; by_decide|done| |done]|split; [done|split; [done|]]]).
  1: change (votedFor n1) with 0; lia.
  2: change (votedFor n1) with (-1); lia.
  all: assert (n1 = set_stateFile (Some (config.saved (currentTerm n1) (votedFor n1))) n1) as E1 by reflexivity.
  all: split; [rewrite E1 at 1; rewrite (vs_saved n1 Hok); reflexivity|].
  all: change (role n1) with Leader || change (role n1) with Follower; split; [discriminate|].
  - intros _. exact Hb.
  - discriminate.
Qed.

Lemma init_sim C c : init C c -> exists g, vote.init g /\ matches C c g.
Proof.
  intros [Hnet Hn]. exists (vote.MkState (vs <$> nodes c) ∅ ∅ ∅ ∅).
  assert (forall i n, nodes c !! i = Some n -> id n = i /\ node_ok n /\ config n = Some C
            /\ vs n = vote.MkVoter 1 (votedFor n) (role n) 0 1 (votedFor n)
            /\ role n <> Candidate /\ (role n = Leader -> i = bootstrapLeader)) as H.
  { intros i n Hi. destruct (Hn i n Hi) as (Hb & ps & cf & sy & n0 & w & E & Es & Hc).
    destruct (init_run _ _ _ _ _ _ _ _ Hb E Es) as (H1 & H2 & H3 & H4 & H5). done. }
  split.
  - split; cbn; [|done..]. intros i v Hv. rewrite lookup_fmap in Hv.
    destruct (nodes c !! i) as [n|] eqn:Hi; [|done]. injection Hv as <-.
    destruct (H i n Hi) as (_ & _ & _ & -> & H4 & H5). cbn. split_and!; [done..|]. auto.
  - split; cbn; [done|by rewrite Hnet..| |by rewrite Hnet].
    intros i n Hi. destruct (H i n Hi) as (? & ? & ? & _). done.
Qed.

Lemma sim_reply C c g i n p r m l1 l2 fs b n' w' :
  matches C c g -> nodes c !! i = Some n -> net c = l1 ++ (i, m) :: l2 -> typed m ->
  onReply p r m n (MkWorld fs []) = Some (b, n', w') -> config n' = Some C ->
  exists g', rtc (vote.step (dom C)) g g'
    /\ matches C (MkCluster (<[i := n']> (nodes c)) ((l1 ++ l2) ++ sends (out w'))) g' /\ vote.given g' = vote.given g.
Proof.
  intros Hm Hi Hnet Hty E Hc. destruct (m_nodes _ _ _ Hm _ _ Hi) as (Hid & Hok & Hc0).
  pose proof (m_net _ _ _ Hm) as Hf. rewrite Hnet in Hf. apply Forall_app in Hf as [Hf1 [_ Hf2]%Forall_cons].
  destruct (onReply_silent _ _ _ _ _ _ _ _ Hty E Hok) as (H1 & H2 & H3 & H4).
  apply (sim_silent C c g i n n'); try done; [by apply Forall_app|..];
    rewrite Hnet, ?reqs_remove, ?grs_remove; apply gmultiset_disj_union_subseteq_r.
Qed.

Lemma sim_act C c g i n a fs n' w' :
  matches C c g -> nodes c !! i = Some n -> currentTerm n < max_u64 ->
  run_act a n (MkWorld fs []) = Some (tt, n', w') -> config n' = Some C ->
  exists g', rtc (vote.step (dom C)) g g'
    /\ matches C (MkCluster (<[i := n']> (nodes c)) (net c ++ sends (out w'))) g'
    /\ (vote.given g' = vote.given g \/ ((exists lt, a = ACampaign lt) /\ stands i n n' g g')).
Proof.
  intros Hm Hi Hmax E Hc. destruct (m_nodes _ _ _ Hm _ _ Hi) as (Hid & Hok & Hc0). pose proof (m_net _ _ _ Hm) as Hf.
  assert (silent n (MkWorld fs []) n' w' ->
    exists g', rtc (vote.step (dom C)) g g' /\ matches C (MkCluster (<[i := n']> (nodes c)) (net c ++ sends (out w'))) g'
      /\ (vote.given g' = vote.given g \/ ((exists lt, a = ACampaign lt) /\ stands i n n' g g'))) as Hsil.
  { intros Hs. destruct (Hs Hok) as (H1 & H2 & H3 & H4).
    destruct (sim_silent C c g i n n' (out w') (net c)) as (g' & ? & ? & ?); try done. exists g'. auto. }
  destruct a as [lt| | | | | | | | |]; [|apply Hsil; refine (act_silent _ _ _ _ _ _ _ E); exact I ..].
  destruct (sim_stand C c g i n lt fs n' w' (net c)) as (g' & ? & ? & Hst); try done. exists g'. split; [done|]. split; [done|]. destruct Hst as [?|?]; [by left|right; eauto].
Qed.

Lemma sim_restart C c g i n ps boot cf syncOn logDisk recovered n' :
  matches C c g -> nodes c !! i = Some n ->
  buildNode i ps boot cf syncOn (Some logDisk) (default None (stateFile n)) (default None (configPath n))
    recovered None = Ok n' -> is_u64 (currentTerm n') -> config n' = Some C ->
  exists g', rtc (vote.step (dom C)) g g' /\ matches C (MkCluster (<[i := n']> (nodes c)) (net c)) g'
    /\ vote.given g' = vote.given g.
Proof.
  intros Hm Hi E Hu Hc. destruct (m_nodes _ _ _ Hm _ _ Hi) as (Hid & Hok & Hc0). pose proof (ok_id _ Hok) as Hb.
  rewrite Hid in Hb. destruct (restart_run i n ps boot cf syncOn logDisk recovered n' Hb Hu E) as (H1 & H2 & H3).
  pose proof (sim_silent C c g i n n' [] (net c) Hm Hi) as Hsim. cbn [sends omap list_omap] in Hsim.
  rewrite app_nil_r in Hsim. apply Hsim; try done; [congruence|rewrite Hid; by apply rtc_once|apply Hm].
Qed.

Lemma sim_lose C c g x l1 l2 : matches C c g -> net c = l1 ++ x :: l2 ->
  exists g', rtc (vote.step (dom C)) g g' /\ matches C (MkCluster (nodes c) (l1 ++ l2)) g' /\ vote.given g' = vote.given g.
Proof.
  intros Hm Hnet.
  exists (vote.MkState (vote.voters g) (reqs (l1 ++ l2)) (grs (l1 ++ l2)) (vote.given g) (vote.counted g)).
  pose proof (m_net _ _ _ Hm) as Hf. rewrite Hnet in Hf. apply Forall_app in Hf as [Hf1 [_ Hf2]%Forall_cons].
  split; [|split; [|done]].
  - apply rtc_once, vote.step_lose; [rewrite (m_requests _ _ _ Hm)|rewrite (m_grants _ _ _ Hm)];
      rewrite Hnet, ?reqs_remove, ?grs_remove; apply gmultiset_disj_union_subseteq_r.
  - split; cbn; [apply Hm|done|done|apply Hm|by apply Forall_app].
Qed.

Lemma step_sim C c c' g : matches C c g -> step C c c' ->
  exists g', rtc (vote.step (dom C)) g g' /\ matches C c' g'.
Proof.
  intros Hm [i n m l1 l2 now fs n' w' Hi Hnet Hty Hmax E Hc|i n p r m l1 l2 fs b n' w' Hi Hnet Hty Hrep E Hc
    |i n a fs n' w' Hi Hmax E Hc|i n ps boot cf sy ld rec n' Hi E Hu Hc|x l1 l2 Hnet].
  - destruct (sim_deliver C c g i n m l1 l2 now fs n' w') as (g' & ? & ? & _); try done. exists g'. by rewrite app_assoc.
  - destruct (sim_reply C c g i n p r m l1 l2 fs b n' w') as (g' & ? & ? & _); try done. exists g'. by rewrite app_assoc.
  - destruct (sim_act C c g i n a fs n' w') as (g' & ? & ? & _); try done. by exists g'.
  - destruct (sim_restart C c g i n ps boot cf sy ld rec n') as (g' & ? & ? & _); try done. by exists g'.
  - destruct (sim_lose C c g x l1 l2) as (g' & ? & ? & _); try done. by exists g'.
Qed.

Lemma reachable_inv C c0 c : init C c0 -> rtc (step C) c0 c ->
  exists g, vote.inv (dom C) g /\ matches C c g.
Proof.
  intros Hi Hs. destruct (init_sim C c0 Hi) as (g0 & Hg0 & Hm0). apply (vote.init_inv (dom C)) in Hg0.
  clear Hi. revert g0 Hg0 Hm0. induction Hs as [c|c c1 c2 H1 _ IH]; intros g Hg Hm; [by exists g|].
  destruct (step_sim C c c1 g Hm H1) as (g1 & Hg1 & Hm1). apply (IH g1); [|done].
  by eapply vote.steps_inv.
Qed.

(** ** Properties *)

(** C15.  Election safety, over a network that delivers each message at most once:
    while the configuration does not change, no term ever has two leaders,
    whatever the timeouts, message losses, reorderings, disk faults, crashes and
    restarts (also from a corrupted log file), and whatever reply a replicator
    mistakes for its own.  (Responses are counted, not voters: a network that
    repeats a granted vote is outside.) *)
Theorem election_safety C c0 c i j ni nj :
  init C c0 -> rtc (step C) c0 c ->
  nodes c !! i = Some ni -> nodes c !! j = Some nj ->
  role ni = Leader -> role nj = Leader -> currentTerm ni = currentTerm nj ->
  i = j.
Proof.
  intros Hi Hs Hni Hnj Hli Hlj HT. destruct (reachable_inv C c0 c Hi Hs) as (g & Hg & Hm).
  eapply (vote.one_leader (dom C) g i j (vs ni) (vs nj) Hg); [..|exact Hli|exact Hlj|exact HT];
    by rewrite (m_voters _ _ _ Hm), lookup_fmap, ?Hni, ?Hnj.
Qed.

(** A vote is durable before it is granted: a grant leaves the node only
    with that term and candidate in its memory and in its state file, so a
    restart from the file, whatever the log holds, never has a vote left for
    another candidate in that term. *)
Theorem grant_is_durable now m cand li lti lt n fs u n' w' to g :
  node_ok n -> typed m -> 0 <= cand < 2 ^ 63 ->
  handleRequestVote now m cand li lti lt n (MkWorld fs []) = Some (u, n', w') ->
  Send to g ∈ out w' -> body g = MsgRequestVoteResponse true ->
  to = From m /\ Term g = Term m /\ currentTerm n' = Term m /\ votedFor n' = cand
  /\ config.currentTerm (dstate n') = Term m /\ config.votedFor (dstate n') = cand
  /\ forall me ps boot cf syncOn logDisk configDisk recovered n2,
       buildNode me ps boot cf syncOn (Some logDisk) (default None (stateFile n')) configDisk recovered None = Ok n2 ->
       currentTerm n2 > Term m \/ (currentTerm n2 = Term m /\ votedFor n2 = cand).
Proof.
  intros Hok Hm Hc E Hin Hb.
  destruct (requestVote_run _ _ _ _ _ _ _ _ _ _ _ Hok Hm Hc E) as (_ & _ & [[_ Hv]|(v & _ & _ & _ & Hvs & Hv)]).
  all: assert (Send to g ∈ votes_of (out w')) as Hin' by (apply list_elem_of_filter; cbn; by rewrite Hb).
  all: rewrite Hv in Hin'; cbn [out votes_of] in Hin'.
  { by apply elem_of_nil in Hin'. }
  apply list_elem_of_singleton in Hin' as [= -> ->]. injection Hvs as H1 H2 _ _ H3 H4.
  split_and!; try done. intros me ps boot cf syncOn logDisk configDisk recovered n2 E2.
  unfold buildNode in E2. rewrite bool_decide_eq_false_2 in E2 by (by intros [? _]).
  destruct (raftlogfile.openRaftLogFile _ _) as [[lf persisted]| |]; [|done..].
  case_decide; [done|]. destruct (config.deriveConfig _ _) as [cur|]; [|done].
  destruct (lastTerm _) as [x|]; [|done]. cbn [andb] in E2. fold (dstate n') in E2. rewrite H3, H4 in E2.
  revert E2. case_decide; intros [= <-]; cbn; [left; done|right; done].
Qed.

End cluster.

(** ** Witnesses *)

(** A three-node cluster over a state machine that counts. *)
#[local] Instance counter : StateMachine nat := {|
  ApplyEntry := fun s _ _ => Some (s + 1)%nat;
  ApplyControlEntry := fun s _ => Some s
|}.

Definition demo_config : Members := fullConfig 3.
Definition demo_cfg : Cfg := MkCfg 0 0.

Lemma demo_config_wf : config.wf demo_config.
Proof.
  split; [|by_decide]. intros i v H. unfold demo_config, fullConfig in H. cbn in H.
  rewrite !lookup_insert_Some, lookup_empty in H. naive_solver lia.
Qed.

Definition blank_node : Node :=
  MkNode 0 [] demo_cfg Follower 0 noVote None ∅ None false false NewRaftLog None None 0 0 None 0 ∅ ∅ ∅.

(** The node built on an empty directory and started. *)
Definition demo_build (i : Z) : outcome build_error Node :=
  buildNode i [0; 1; 2] demo_config demo_cfg true None None None 0 None.
Definition demo_started (i : Z) : option (unit * Node * World) :=
  node.start (get_ok blank_node (demo_build i)) (MkWorld [] []).
Definition demo_node (i : Z) : Node := match demo_started i with Some (_, n, _) => n | None => blank_node end.

Definition demo_start : cluster := MkCluster (<[0 := demo_node 0]> (<[1 := demo_node 1]> (<[2 := demo_node 2]> ∅))) [].

Lemma demo_init : init demo_config demo_start.
Proof.
  split; [done|]. intros i n Hi. unfold demo_start in Hi. cbn [nodes] in Hi.
  rewrite !lookup_insert_Some, lookup_empty in Hi.
  assert (exists k, i = k /\ n = demo_node k /\ (k = 0 \/ k = 1 \/ k = 2)) as (k & -> & -> & Hk) by naive_solver.
  split; [lia|]. exists [0; 1; 2], demo_cfg, true, (get_ok blank_node (demo_build k)).
  destruct Hk as [->|[->| ->]]; eexists; (split; [apply is_ok_get; vm_compute; reflexivity|]);
    (split; [vm_compute; reflexivity|vm_compute; reflexivity]).
Qed.

(** Steps by evaluation. *)
Definition exec_act (C : Members) (c : cluster) (i : NodeID) (a : act (S := nat)) : option cluster :=
  n ← nodes c !! i;
  '(_, n', w') ← run_act a n (MkWorld [] []);
  if bool_decide (currentTerm n < max_u64 /\ config n' = Some C)
  then Some (MkCluster (<[i := n']> (nodes c)) (net c ++ sends (out w'))) else None.

Definition exec_deliver (C : Members) (c : cluster) (k : nat) : option cluster :=
  '(i, m) ← net c !! k;
  n ← nodes c !! i;
  '(_, n', w') ← dispatch 0 m n (MkWorld [] []);
  if bool_decide (0 <= Term m < 2 ^ 64 /\ currentTerm n < max_u64 /\ config n' = Some C)
  then Some (MkCluster (<[i := n']> (nodes c)) (take k (net c) ++ drop (Datatypes.S k) (net c) ++ sends (out w'))) else None.

Lemma exec_act_step C c i a c' : exec_act C c i a = Some c' -> step C c c'.
Proof.
  unfold exec_act. destruct (nodes c !! i) as [n|] eqn:Hi; [|done]. cbn.
  destruct (run_act a n _) as [[[[] n'] w']|] eqn:E; [|done]. cbn.
  case_bool_decide as H; [|done]. intros [= <-]. destruct H. by eapply step_act.
Qed.

Lemma exec_deliver_step C c k c' : exec_deliver C c k = Some c' -> step C c c'.
Proof.
  unfold exec_deliver. destruct (net c !! k) as [[i m]|] eqn:Hk; [|done]. cbn.
  destruct (nodes c !! i) as [n|] eqn:Hi; [|done]. cbn.
  destruct (dispatch 0 m n _) as [[[[] n'] w']|] eqn:E; [|done]. cbn.
  case_bool_decide as H; [|done]. intros [= <-]. destruct H as (? & ? & ?).
  eapply step_deliver; try done. symmetry. by apply take_drop_middle.
Qed.

(** Node 1 times out, node 2 votes for it, node 1 wins term 2. *)
Definition demo_run : option cluster :=
  c1 ← exec_act demo_config demo_start 1 (ACampaign false);
  c2 ← exec_deliver demo_config c1 1;
  exec_deliver demo_config c2 1.

Lemma demo_run_steps c : demo_run = Some c -> rtc (step demo_config) demo_start c.
Proof.
  unfold demo_run. destruct (exec_act _ _ _ _) as [c1|] eqn:E1; [|done]. cbn [mbind option_bind].
  destruct (exec_deliver _ c1 1) as [c2|] eqn:E2; [|done]. cbn [mbind option_bind]. intros E3.
  eapply rtc_l; [by eapply exec_act_step|]. eapply rtc_l; [by eapply exec_deliver_step|].
  apply rtc_once. by eapply exec_deliver_step.
Qed.

(** The new leader is the only one of its term, the old one leads term 1. *)
Lemma election_safety_witness :
  exists c n0 n1, demo_run = Some c /\ nodes c !! 0 = Some n0 /\ nodes c !! 1 = Some n1
    /\ role n0 = Leader /\ role n1 = Leader /\ currentTerm n1 = 2 /\ currentTerm n0 <> currentTerm n1.
Proof.
  assert (exists c, demo_run = Some c) as [c Hc] by (eexists; vm_compute; reflexivity).
  assert (exists n0, nodes c !! 0 = Some n0 /\ role n0 = Leader) as (n0 & H0 & L0).
  { assert (bool_decide ((c ← demo_run; n ← nodes c !! 0; Some (role n)) = Some Leader) = true) as H
      by (vm_compute; reflexivity).
    apply bool_decide_eq_true in H. rewrite Hc in H. cbn in H. destruct (nodes c !! 0) as [n|]; [|done].
    injection H as H. by exists n. }
  assert (exists n1, nodes c !! 1 = Some n1 /\ role n1 = Leader /\ currentTerm n1 = 2) as (n1 & H1 & L1 & T1).
  { assert (bool_decide ((c ← demo_run; n ← nodes c !! 1; Some (role n, currentTerm n)) = Some (Leader, 2)) = true)
      as H by (vm_compute; reflexivity).
    apply bool_decide_eq_true in H. rewrite Hc in H. cbn in H. destruct (nodes c !! 1) as [n|]; [|done].
    injection H as H H'. by exists n. }
  exists c, n0, n1. split_and!; [done..|]. intros HT.
  discriminate (election_safety demo_config demo_start c 0 1 n0 n1 demo_init (demo_run_steps c Hc) H0 H1 L0 L1 HT).
Defined.

Definition demo_request : Message := MkMessage 1 2 (MsgRequestVote 1 0 0 false).

Lemma grant_is_durable_witness :
  exists n' w' g, handleRequestVote 0 demo_request 1 0 0 false (demo_node 2) (MkWorld [] []) = Some (tt, n', w')
    /\ Send 1 g ∈ out w' /\ Term g = 2
    /\ config.currentTerm (dstate n') = 2 /\ config.votedFor (dstate n') = 1.
Proof.
  destruct (handleRequestVote 0 demo_request 1 0 0 false (demo_node 2) (MkWorld [] [])) as [[[[] n'] w']|] eqn:E;
    [|vm_compute in E; discriminate].
  assert (Send 1 (MkMessage 2 2 (MsgRequestVoteResponse true)) ∈ out w') as Hin.
  { vm_compute in E. injection E as _ <-. cbn. apply elem_of_cons. right. apply elem_of_cons. right.
    apply elem_of_cons. right. apply elem_of_cons. by left. }
  assert (node_ok (demo_node 2)) as Hok.
  { split; [split; by_decide|split; by_decide|split; by_decide|by_decide]. }
  destruct (grant_is_durable 0 demo_request 1 0 0 false (demo_node 2) [] tt n' w' 1
              (MkMessage 2 2 (MsgRequestVoteResponse true)) Hok) as (_ & H2 & _ & _ & H5 & H6 & _).
  - split; by_decide.
  - lia.
  - exact E.
  - exact Hin.
  - reflexivity.
  - exists n', w', (MkMessage 2 2 (MsgRequestVoteResponse true)). split_and!; [done|exact Hin|exact H2|exact H5|exact H6].
Defined.

End election.
