(* ===== verification/RaftCommit.v ===== *)
(** * Committing, membership changes and acknowledgements (leader side)

    The commit rule of internal/cluster/replication.go against the majority it
    stands for, the configurations that membership changes propose, and what a
    replicator concludes from a reply. *)

From Stdlib Require Import ZArith Lia.
From Stdlib Require Import Strings.Byte.
From stdpp Require Import base list gmap sorting.
From S2P Require Import Prelude.
From S2P Require Import RaftLog.
From S2P Require Import RaftConfig.
From S2P Require Import RaftLogFile.
From S2P Require Import RaftNode.
From S2P Require Import RaftRun.
From S2P Require Import RaftElection.

#[local] Open Scope Z_scope.

Module commit.
Import raftlog node run.

(** ** Order statistics *)

(** How many of the values are at least [x]. *)
Definition count_ge (x : Z) (l : list Z) : Z := len (filter (fun y => x <= y) l).

Lemma count_ge_app x a b : count_ge x (a ++ b) = count_ge x a + count_ge x b.
Proof. unfold count_ge. by rewrite filter_app, len_app. Qed.

Lemma count_ge_bound x l : 0 <= count_ge x l <= len l.
Proof. unfold count_ge, len. pose proof (length_filter (fun y => x <= y) l). lia. Qed.

Lemma count_ge_cons x y l : count_ge x (y :: l) = (if decide (x <= y) then 1 else 0) + count_ge x l.
Proof. unfold count_ge. rewrite filter_cons. case_decide; [by rewrite len_cons|done]. Qed.

Lemma count_ge_all x l : Forall (fun y => x <= y) l -> count_ge x l = len l.
Proof. induction 1 as [|y l Hy _ IH]; [done|]. by rewrite count_ge_cons, decide_True, len_cons, IH. Qed.

Lemma count_ge_none x l : Forall (fun y => y < x) l -> count_ge x l = 0.
Proof. induction 1 as [|y l Hy _ IH]; [done|]. by rewrite count_ge_cons, decide_False, IH by lia. Qed.

Lemma count_ge_perm x l k : l ≡ₚ k -> count_ge x l = count_ge x k.
Proof. intros H. unfold count_ge, len. by rewrite H. Qed.

(** The element at [i] of a descending list: at least [i + 1] values reach it,
    at most [i] exceed it. *)
Lemma descending_nth s i c :
  StronglySorted Z.ge s -> s !! i = Some c ->
  Z.of_nat i + 1 <= count_ge c s /\ forall x, c < x -> count_ge x s <= Z.of_nat i.
Proof.
  intros Hs Hi. pose proof (take_drop_middle s i c Hi) as E.
  assert (length (take i s) = i) as Hl by (rewrite length_take; apply lookup_lt_Some in Hi; lia).
  rewrite <- E in Hs |- *.
  assert (Forall (fun y => c <= y) (take i s) /\ Forall (fun y => y <= c) (drop (S i) s)) as [Hge Hle].
  { clear E Hi. revert Hs. generalize (take i s) as a, (drop (S i) s) as b. intros a b Hs. split.
    - induction a as [|y a IH]; [constructor|]. inversion Hs as [|? ? Hs' Hf]; subst. constructor; [|by apply IH].
      apply Forall_app in Hf as [_ [Hf _]%Forall_cons]. lia.
    - induction a as [|y a IH]; inversion Hs as [|? ? Hs' Hf]; subst; [|by apply IH].
      eapply Forall_impl; [exact Hf|]. cbn. lia. }
  split.
  - rewrite count_ge_app, count_ge_all by done. change (c :: drop (S i) s) with ([c] ++ drop (S i) s).
    rewrite count_ge_app, (count_ge_all c [c]) by (by constructor; [lia|]).
    pose proof (count_ge_bound c (drop (S i) s)). unfold len at 1. rewrite Hl. change (len [c]) with 1. lia.
  - intros x Hx. rewrite count_ge_app, (count_ge_none x (c :: _)).
    + pose proof (count_ge_bound x (take i s)). unfold len in H. rewrite Hl in H. lia.
    + constructor; [lia|]. eapply Forall_impl; [exact Hle|]. cbn. lia.
Qed.

Lemma sorted_desc l : StronglySorted Z.ge (merge_sort Z.ge l).
Proof. apply Sorted_StronglySorted; [intros ? ? ?; lia|]. apply Sorted_merge_sort. intros x y. lia. Qed.

(** ** The majority behind the commit index *)

(** Who counts: the voters, the node itself only while it is one. *)
Definition electorate (n : Node) (C : Members) : gset NodeID :=
  (dom C ∖ {[id n]}) ∪ (if inConfigLocked n then {[id n]} else ∅).

(** The last index a voter is known to hold. *)
Definition held (n : Node) (v : NodeID) : Z :=
  if decide (v = id n) then lastIndex (log n) else default 0 (matchIndex n !! v).

Definition supporters (n : Node) (C : Members) (i : Z) : gset NodeID :=
  filter (fun v => i <= held n v) (electorate n C).

Lemma commitVals_perm n C : config n = Some C -> commitVals n ≡ₚ held n <$> elements (electorate n C).
Proof.
  intros HC. unfold commitVals, electorate.
  assert (forall l, Forall (fun v => v <> id n) l -> (fun p => default 0 (matchIndex n !! p)) <$> l = held n <$> l) as Hh.
  { intros l H. apply list_fmap_ext. intros j v Hv. unfold held. rewrite decide_False; [done|].
    rewrite Forall_lookup in H. by eapply H. }
  assert (votingPeers n ≡ₚ elements (dom C ∖ {[id n]})) as Hp.
  { unfold votingPeers. rewrite HC, merge_sort_Permutation. apply NoDup_Permutation.
    - apply NoDup_filter, NoDup_fst_map_to_list.
    - apply NoDup_elements.
    - intros p. rewrite list_elem_of_filter, elem_of_elements, elem_of_difference, elem_of_dom, elem_of_singleton.
      rewrite list_elem_of_fmap. split.
      + intros (? & [q b] & -> & Hq%elem_of_map_to_list). cbn in *. by rewrite Hq.
      + intros [[b Hb] ?]. split; [done|]. exists (p, b). split; [done|]. by apply elem_of_map_to_list. }
  rewrite Hh.
  2:{ apply Forall_forall. intros v Hv. rewrite Hp, elem_of_elements in Hv. set_solver. }
  rewrite Hp. destruct (inConfigLocked n).
  - rewrite (union_comm_L (dom C ∖ {[id n]}) {[id n]}).
    rewrite (elements_union_singleton (dom C ∖ {[id n]}) (id n)) by set_solver. cbn [app fmap list_fmap]. unfold held at 2. by rewrite decide_True.
  - by rewrite union_empty_r_L.
Qed.
Lemma count_ge_held n (l : list NodeID) i : count_ge i (held n <$> l) = len (filter (fun v => i <= held n v) l).
Proof.
  induction l as [|v l IH]; [done|]. rewrite fmap_cons, count_ge_cons, IH, filter_cons.
  case_decide; [by rewrite len_cons|lia].
Qed.

Lemma supporters_count n C i :
  config n = Some C -> Z.of_nat (size (supporters n C i)) = count_ge i (commitVals n).
Proof.
  intros HC. rewrite (count_ge_perm _ _ _ (commitVals_perm n C HC)), count_ge_held.
  unfold size, set_size, len. cbn. f_equal. apply Permutation_length, NoDup_Permutation.
  - apply NoDup_elements.
  - apply NoDup_filter, NoDup_elements.
  - intros v. rewrite elem_of_elements, list_elem_of_filter, elem_of_elements. unfold supporters.
    by rewrite elem_of_filter.
Qed.

Lemma electorate_count n C : config n = Some C -> Z.of_nat (size (electorate n C)) = len (commitVals n).
Proof.
  intros HC. unfold len. rewrite (Permutation_length (commitVals_perm n C HC)), length_fmap. done.
Qed.

Lemma div2_Z m : Z.of_nat (Nat.div2 m) = Z.of_nat m / 2.
Proof. rewrite Nat.div2_div. by rewrite Nat2Z.inj_div. Qed.

(** The median of what the voters hold: a majority has it, none has more. *)
Lemma median_spec vals cand :
  merge_sort Z.ge vals !! Nat.div2 (length vals) = Some cand ->
  len vals / 2 + 1 <= count_ge cand vals /\ forall x, cand < x -> count_ge x vals < len vals / 2 + 1.
Proof.
  intros H. destruct (descending_nth _ _ cand (sorted_desc vals) H) as [H1 H2].
  pose proof (fun x => count_ge_perm x _ _ (merge_sort_Permutation Z.ge vals)) as Hp.
  rewrite div2_Z in H1. setoid_rewrite div2_Z in H2. rewrite Hp in H1. setoid_rewrite Hp in H2.
  unfold len. split; [lia|]. intros x Hx. specialize (H2 x Hx). lia.
Qed.

(** Where the commit index moves, a majority is. *)
Lemma advance_majority C n w u n' w' :
  config n = Some C -> maybeAdvanceCommitLocked n w = Some (u, n', w') ->
  n' = n
  \/ exists i, n' = set_commitIndex i n /\ commitIndex n < i /\ term (log n) i = Some (currentTerm n)
       /\ Z.of_nat (size (electorate n C)) / 2 + 1 <= Z.of_nat (size (supporters n C i)).
Proof.
  intros HC E. unfold maybeAdvanceCommitLocked in E. rewrite bind_gets in E.
  destruct (merge_sort Z.ge _ !! _) as [cand|] eqn:Hcand; [|injection E as _ <- _; by left].
  rewrite bind_gets in E. case_decide as Hgt; [|injection E as _ <- _; by left].
  apply bind_inv in E as (t & n1 & w1 & Et & E). unfold expr in Et.
  destruct (term (log n) cand) as [t'|] eqn:Hterm; [|done]. injection Et as <- <- <-.
  rewrite bind_gets in E. case_decide as Heq; [|injection E as _ <- _; by left].
  rewrite bind_modify, bind_emit in E. injection E as _ <- _. right. exists cand.
  rewrite (supporters_count n C _ HC), (electorate_count n C HC).
  split; [done|]. split; [lia|]. split; [by rewrite Hterm, Heq|]. by apply median_spec.
Qed.

(** ** Properties *)

(** The commit rule: the commit index moves only forwards, and only to an
    entry of the leader's current term that a strict majority of the voters
    hold (the leader counts itself only while it is a voter) and no higher
    entry has such a majority; it stays where it is only if every entry above it
    lacks a majority or lies below one of an earlier term. *)
Theorem commit_rule C n w u n' w' :
  config n = Some C -> maybeAdvanceCommitLocked n w = Some (u, n', w') ->
  let majority := Z.of_nat (size (electorate n C)) / 2 + 1 in
  let support i := Z.of_nat (size (supporters n C i)) in
  (exists i, n' = set_commitIndex i n /\ commitIndex n < i
     /\ term (log n) i = Some (currentTerm n) /\ majority <= support i
     /\ (forall j, i < j -> support j < majority)
     /\ out w' = out w ++ [SignalApply; SignalReplicators])
  \/ (n' = n /\ w' = w
      /\ forall i, commitIndex n < i -> majority <= support i ->
           exists j t, i <= j /\ majority <= support j /\ term (log n) j = Some t /\ t <> currentTerm n).
Proof.
  intros HC E. cbv zeta. setoid_rewrite (supporters_count n C _ HC). rewrite (electorate_count n C HC).
  unfold maybeAdvanceCommitLocked in E. apply bind_inv in E as (vals & n1 & w1 & [= <- <- <-] & E).
  destruct (merge_sort Z.ge _ !! _) as [cand|] eqn:Hcand.
  - destruct (median_spec _ _ Hcand) as [H1 H2].
    apply bind_inv in E as (ci & n1 & w1 & [= <- <- <-] & E). case_decide as Hgt.
    + apply bind_inv in E as (t & n1 & w1 & Et & E). unfold expr in Et.
      destruct (term (log n) cand) as [t'|] eqn:Hterm; [|done]. injection Et as <- <- <-.
      apply bind_inv in E as (cur & n1 & w1 & [= <- <- <-] & E). case_decide as Heq.
      * apply bind_inv in E as ([] & n1 & w1 & [= <- <-] & E). apply bind_inv in E as ([] & n1 & w1 & [= <- <-] & E).
        injection E as <- <- <-. left. exists cand. split_and!; [done|lia|by rewrite Hterm, Heq|lia| |].
        -- intros j Hj. specialize (H2 j ltac:(lia)). lia.
        -- cbn. by rewrite <- app_assoc.
      * injection E as <- <- <-. right. split_and!; [done..|]. intros i Hi Hmaj. exists cand, t'.
        split_and!; [|lia|done|done]. destruct (decide (i <= cand)); [done|].
        specialize (H2 i ltac:(lia)). lia.
    + injection E as <- <- <-. right. split_and!; [done..|]. intros i Hi Hmaj.
      specialize (H2 i ltac:(lia)). lia.
  - injection E as <- <- <-. right. split_and!; [done..|]. intros i Hi Hmaj. exfalso.
    apply lookup_ge_None in Hcand. rewrite (Permutation_length (merge_sort_Permutation Z.ge (commitVals n))) in Hcand.
    assert (len (commitVals n) = 0) as H0.
    { unfold len. pose proof (Nat.lt_div2 (length (commitVals n))). lia. }
    pose proof (count_ge_bound i (commitVals n)) as Hb. rewrite H0 in Hb, Hmaj. change (0 / 2) with 0 in Hmaj. lia.
Qed.

(** ** Single-server membership changes *)

Definition quorum (c : Members) : nat := Nat.div2 (size c) + 1.

(** Majorities of two configurations that differ in one server overlap. *)
Lemma majorities_overlap (c c' : Members) (W W' : gset NodeID) x :
  dom c' ⊆ dom c -> dom c ⊆ {[x]} ∪ dom c' -> W ⊆ dom c -> W' ⊆ dom c' ->
  (quorum c <= size W)%nat -> (quorum c' <= size W')%nat -> exists v, v ∈ W /\ v ∈ W'.
Proof.
  unfold quorum. intros H1 H2 HW HW' Hs Hs'.
  destruct (decide (W ∩ W' = ∅)) as [E|E].
  - exfalso. assert (size (W ∪ W') <= size (dom c))%nat as Hle by (apply subseteq_size; set_solver).
    rewrite size_union, size_dom in Hle by set_solver.
    apply subseteq_size in H2. rewrite size_dom in H2.
    assert (size ({[x]} ∪ dom c') <= 1 + size (dom c'))%nat as Hx.
    { destruct (decide (x ∈ dom c')).
      - replace ({[x]} ∪ dom c') with (dom c') by set_solver. lia.
      - rewrite size_union, size_singleton by set_solver. lia. }
    rewrite size_dom in Hx.
    pose proof (Nat.div2_odd (size c)) as Ho. pose proof (Nat.div2_odd (size c')) as Ho'.
    destruct (Nat.odd (size c)), (Nat.odd (size c')); cbn [Nat.b2n] in *; lia.
  - apply set_choose_L in E as [v Hv]. exists v. set_solver.
Qed.

Lemma copy_wf c : config.wf c -> config.copyConfig c = c.
Proof. intros H. apply config.copyConfig_id. intros id b Hb. by apply (proj1 H id). Qed.

(** A membership change proposes the current configuration with exactly that
    server removed or added, as its own entry format reads it back, and only by a
    leader whose previous change has committed; so every majority of the new
    configuration shares a voter with every majority of the old one. *)
Theorem membership_change C n w target :
  config n = Some C -> config.wf C -> - 2 ^ 63 <= target < 2 ^ 63 -> Z.of_nat (size C) + 1 < 2 ^ 32 ->
  let overlap C' := forall W W' : gset NodeID, W ⊆ dom C -> W' ⊆ dom C' ->
    (quorum C <= size W)%nat -> (quorum C' <= size W')%nat -> exists v, v ∈ W /\ v ∈ W' in
  (forall t b n' w', removeServer_start target n w = Some (inr (t, b), n', w') ->
     n' = n /\ w' = w /\ role n = Leader /\ t = currentTerm n
     /\ latestConfigEntryCommittedLocked n = Some true /\ C !! target = Some true
     /\ config.decodeConfig b = delete target C /\ delete target C <> ∅ /\ overlap (delete target C))
  /\ (forall t b n' w', addServer_promote target t n w = Some (inr b, n', w') ->
     n' = n /\ w' = w /\ role n = Leader /\ t = currentTerm n
     /\ latestConfigEntryCommittedLocked n = Some true
     /\ config.decodeConfig b = <[target := true]> C /\ overlap (<[target := true]> C)).
Proof.
  intros HC Hwf Hid Hsz overlap. pose proof (copy_wf C Hwf) as Hcopy. split; intros t b n' w' E.
  - unfold removeServer_start in E. apply bind_inv in E as (r & n1 & w1 & [= <- <- <-] & E).
    case_decide as Hr; [done|]. apply bind_inv in E as (st & n1 & w1 & Est & E). unfold expr in Est.
    destruct (latestConfigEntryCommittedLocked n) as [st'|]; [|done]. injection Est as <- <- <-.
    destruct st'; [|done]. cbn [negb] in E. apply bind_inv in E as (c & n1 & w1 & [= <- <- <-] & E).
    rewrite HC in E. cbn [default from_option] in E. unfold Datatypes.id in E. rewrite Hcopy in E.
    destruct (C !! target) as [[]|] eqn:Ht; cbn [default negb] in E; [|done|done].
    case_decide as Hne; [done|]. apply bind_inv in E as (t' & n1 & w1 & [= <- <- <-] & [= <- <- <- <-]).
    assert (config.wf (delete target C)) as Hwf'.
    { destruct Hwf as [H1 H2]. split.
      - intros i v Hi. apply lookup_delete_Some in Hi as [_ Hi]. by apply H1.
      - rewrite map_size_delete. case_match; unfold Datatypes.id; lia. }
    split_and!; try done.
    + by apply config.decode_encode_wf.
    + intros Hemp. apply Hne. by rewrite Hemp, map_size_empty.
    + intros W W' HW HW' Hs Hs'. apply (majorities_overlap C (delete target C) W W' target); try done; rewrite dom_delete_L;
        [set_solver|]. intros y Hy. destruct (decide (y = target)); set_solver.
  - unfold addServer_promote in E. apply bind_inv in E as (r & n1 & w1 & [= <- <- <-] & E).
    apply bind_inv in E as (t0 & n1 & w1 & [= <- <- <-] & E). case_decide as Hr; [done|].
    apply bind_inv in E as (st & n1 & w1 & Est & E). unfold expr in Est.
    destruct (latestConfigEntryCommittedLocked n) as [st'|]; [|done]. injection Est as <- <- <-.
    destruct st'; [|done]. cbn [negb] in E. apply bind_inv in E as (c & n1 & w1 & [= <- <- <-] & [= <- <- <-]).
    rewrite HC. cbn [default from_option]. unfold Datatypes.id. rewrite Hcopy.
    assert (config.wf (<[target := true]> C)) as Hwf'.
    { destruct Hwf as [H1 H2]. split.
      - intros i v Hi. apply lookup_insert_Some in Hi as [[<- <-]|[_ Hi]]; [done|]. by apply H1.
      - rewrite map_size_insert. case_match; unfold Datatypes.id; lia. }
    split_and!; try done.
    + destruct (decide (role n = Leader)); [done|tauto].
    + destruct (decide (currentTerm n = t)); [done|tauto].
    + by apply config.decode_encode_wf.
    + intros W W' HW HW' Hs Hs'.
      destruct (majorities_overlap (<[target := true]> C) C W' W target) as (v & ? & ?);
        [rewrite dom_insert_L; set_solver..|done|done|done|done|by exists v].
Qed.

(** ** Replies *)

(** A replicator's round that times out, and the reply it finds in the next one. *)
Definition stale_ack_run : option (Message * Round * Node * Node) :=
  '(_, leader, w1) ← sendRound 1 (election.demo_node 0) (MkWorld [] []);
  '(_, heartbeat) ← last (election.sends (out w1));
  '(_, follower, w2) ← dispatch 0 heartbeat (election.demo_node 1) (MkWorld [] []);
  '(_, ack) ← last (election.sends (out w2));
  '(_, leader, _) ← propose 1 EntryData [x61] leader (MkWorld [] []);
  '(s, leader, _) ← sendRound 1 leader (MkWorld [] []);
  match s with
  | Sent r =>
      '(_, leader, _) ← onReply 1 r ack leader (MkWorld [] []);
      Some (ack, r, leader, follower)
  | _ => None
  end.

(** A reply is taken for the round being waited for, whatever it says: the
    match index it carries is ignored. So when the acknowledgement of an empty
    heartbeat arrives after its round timed out, the leader of three nodes
    counts the entry of the next round as replicated and commits it, although
    the follower (which acknowledged index 0) and everybody else have nothing in
    their logs. *)
Theorem stale_ack_commits :
  (forall p r from t s m m' h n w,
     onReply p r (MkMessage from t (MsgAppendResponse s m h)) n w
     = onReply p r (MkMessage from t (MsgAppendResponse s m' h)) n w)
  /\ exists ack r leader follower, stale_ack_run = Some (ack, r, leader, follower)
       /\ body ack = MsgAppendResponse true 0 0 /\ rd_count r = 1
       /\ commitIndex leader = 1 /\ lastIndex (log leader) = 1
       /\ lastIndex (log follower) = 0 /\ size (default ∅ (config leader)) = 3%nat.
Proof.
  split; [done|]. eexists _, _, _, _. split; [vm_compute; reflexivity|].
  split_and!; vm_compute; reflexivity.
Qed.

(** ** Witnesses *)

(** The bootstrap leader with one entry that node 1 has acknowledged. *)
Definition demo_leader : Node :=
  match propose 1 EntryData [x61] (election.demo_node 0) (MkWorld [] []) with
  | Some (_, n, _) => set_matchIndex (<[1 := 1]> (matchIndex n)) n
  | None => election.demo_node 0
  end.

Lemma commit_rule_witness :
  exists n' w', maybeAdvanceCommitLocked demo_leader (MkWorld [] []) = Some (tt, n', w')
    /\ commitIndex n' = 1 /\ commitIndex demo_leader = 0
    /\ 2 <= Z.of_nat (size (supporters demo_leader election.demo_config 1)).
Proof.
  destruct (maybeAdvanceCommitLocked demo_leader (MkWorld [] [])) as [[[[] n'] w']|] eqn:E; [|vm_compute in E; discriminate].
  assert (config demo_leader = Some election.demo_config) as HC by (vm_compute; reflexivity).
  assert (size (electorate demo_leader election.demo_config) = 3%nat) as H3 by (vm_compute; reflexivity).
  assert (commitIndex n' = 1) as H1 by (vm_compute in E; injection E as <- _; reflexivity).
  destruct (commit_rule election.demo_config demo_leader (MkWorld [] []) tt n' w' HC E)
    as [(i & -> & _ & _ & H5 & _)|(-> & _ & _)].
  - cbn in H1. subst i. rewrite H3 in H5. eexists _, w'. split; [reflexivity|].
    split; [reflexivity|]. split; [vm_compute; reflexivity|]. exact H5.
  - exfalso. vm_compute in H1. discriminate.
Defined.

Lemma membership_change_witness :
  exists b, removeServer_start 2 (election.demo_node 0) (MkWorld [] [])
    = Some (inr (1, b), election.demo_node 0, MkWorld [] [])
    /\ config.decodeConfig b = delete 2 election.demo_config.
Proof.
  destruct (membership_change election.demo_config (election.demo_node 0) (MkWorld [] []) 2) as [H _].
  - vm_compute. reflexivity.
  - apply election.demo_config_wf.
  - lia.
  - by_decide.
  - eexists. assert (removeServer_start 2 (election.demo_node 0) (MkWorld [] [])
      = Some (inr (1, config.encodeConfig (delete 2 election.demo_config)), election.demo_node 0, MkWorld [] [])) as E
      by (vm_compute; reflexivity).
    split; [exact E|]. apply H in E as (_ & _ & _ & _ & _ & _ & E & _). exact E.
Defined.

End commit.
