(* ===== verification/RaftFollower.v ===== *)
(** * The follower side of replication

    [handleAppendEntries] (internal/cluster/cluster.go) against a reference
    merge of the leader's entries into the full log, with the log file and the
    configuration kept in step. *)

From Stdlib Require Import ZArith Lia.
From Stdlib Require Import Strings.Byte.
From stdpp Require Import base list gmap sorting.
From S2P Require Import Prelude.
From S2P Require Import RaftLog.
From S2P Require Import RaftConfig.
From S2P Require Import RaftLogFile.
From S2P Require Import RaftNode.
From S2P Require Import RaftRun.
From S2P Require Import RaftElection.

#[local] Open Scope Z_scope.

Module follower.
Import raftlog node run.

(** ** The configuration a log implies *)

(** The newest configuration entry. *)
Definition lastConfig (es : list logEntry) : option logEntry :=
  last (filter (fun e => e_kind e = EntryConfig) es).

Definition logConfig (es : list logEntry) (baseConfig : Members) : Members :=
  match lastConfig es with Some e => config.decodeConfig (e_bytes e) | None => config.copyConfig baseConfig end.

Lemma lastConfig_snoc es e :
  lastConfig (es ++ [e]) = if decide (e_kind e = EntryConfig) then Some e else lastConfig es.
Proof.
  unfold lastConfig. rewrite filter_app. rewrite filter_cons, filter_nil. case_decide.
  - apply last_snoc.
  - by rewrite app_nil_r.
Qed.

Section found.
Context {l : RaftLog} {L : list logEntry} (HL : represents l L).

Lemma findConfig_spec k :
  Z.of_nat k <= len (entries l) ->
  exists o, config.findConfig k l (baseIndex l + Z.of_nat k) = Some o
    /\ snd <$> o = e_bytes <$> lastConfig (take k (entries l))
    /\ forall i b, o = Some (i, b) -> baseIndex l < i <= baseIndex l + Z.of_nat k.
Proof.
  induction k as [|k IH]; intros Hk; cbn [config.findConfig]; [by exists None|].
  destruct (IH ltac:(lia)) as (o & Ho & Hs & Hi).
  rewrite decide_True by lia.
  pose proof (rep_base _ _ HL). pose proof (rep_small _ _ HL). pose proof maxPersisted_bound.
  pose proof (rep_entries _ _ HL) as He.
  assert (len (entries l) = len L - baseIndex l) as Hlen by (rewrite He, len_drop by lia; lia).
  destruct (lookup_lt_is_Some_2 (entries l) k) as [e Hx]; [unfold len in Hk; lia|].
  assert (entry l (baseIndex l + Z.of_nat (S k)) = Some e) as Hentry.
  { rewrite (rep_entry HL) by lia. rewrite He in Hx. rewrite lookup_drop in Hx. rewrite <- Hx. f_equal. lia. }
  unfold kindAt, entryAt. rewrite Hentry. cbn [fmap option_fmap option_map mbind option_bind].
  rewrite (take_S_r _ _ _ Hx), lastConfig_snoc. case_decide as Hc.
  - eexists. split; [done|]. split; [done|]. intros i b [= <- <-]. lia.
  - replace (baseIndex l + Z.of_nat (S k) - 1) with (baseIndex l + Z.of_nat k) by lia.
    exists o. split; [done|]. split; [done|]. intros i b Hob. specialize (Hi i b Hob). lia.
Qed.

Lemma configAsOf_spec c i :
  baseIndex l <= i <= len L ->
  config.configAsOf l c i = Some (logConfig (take (Z.to_nat (i - baseIndex l)) (entries l)) c).
Proof.
  intros Hi. unfold config.configAsOf, config.configFuel. pose proof (rep_base _ _ HL) as Hb.
  destruct (findConfig_spec (Z.to_nat (i - baseIndex l))) as (o & Ho & Hs & _).
  { rewrite (rep_entries _ _ HL), len_drop by lia. lia. }
  replace (baseIndex l + Z.of_nat (Z.to_nat (i - baseIndex l))) with i in Ho by lia.
  rewrite Ho. cbn [mbind option_bind]. unfold logConfig. f_equal.
  destruct (lastConfig _) as [e|]; destruct o as [[j b]|]; cbn in Hs; try done. by injection Hs as ->.
Qed.

Lemma deriveConfig_spec c : config.deriveConfig l c = Some (logConfig (entries l) c).
Proof.
  unfold config.deriveConfig. rewrite (rep_lastIndex HL).
  pose proof (rep_base _ _ HL). rewrite configAsOf_spec by lia. do 2 f_equal. apply take_ge.
  rewrite (rep_entries _ _ HL), length_drop. unfold len in *. lia.
Qed.

End found.

(** ** The reference merge *)

(** The leader's entries from index [i] on, merged into [L]: entries at or below
    the base, or already there with their term, are skipped; the first other one
    replaces the rest of the log. *)
Fixpoint merge (base : Z) (L : list logEntry) (i : Z) (es : list logEntry) : list logEntry :=
  match es with
  | [] => L
  | e :: es' =>
      if decide (i <= base \/ (i <= len L /\ full_term L i = e_term e)) then merge base L (i + 1) es'
      else take (Z.to_nat (i - 1)) L ++ e :: es'
  end.

Lemma merge_end base L es i : i = len L + 1 -> base <= len L -> merge base L i es = L ++ es.
Proof.
  intros -> Hb. destruct es as [|e es]; cbn [merge]; [by rewrite app_nil_r|].
  rewrite decide_False by lia. f_equal. apply take_ge. unfold len. lia.
Qed.

Lemma merge_len base L es i : 0 <= i - 1 -> len (merge base L i es) <= Z.max (len L) (i - 1 + len es).
Proof.
  revert i. induction es as [|e es IH]; intros i Hi; cbn [merge]; [lia|]. rewrite len_cons. case_decide.
  - specialize (IH (i + 1) ltac:(lia)). lia.
  - rewrite len_app, len_cons. unfold len at 1. rewrite length_take. unfold len. lia.
Qed.

(** Nothing before the first new index changes. *)
Lemma merge_take base L es i k :
  base <= len L -> 0 <= k < i -> i <= len L + 1 ->
  take (Z.to_nat k) (merge base L i es) = take (Z.to_nat k) L.
Proof.
  intros Hb. revert i. induction es as [|e es IH]; intros i Hk Hi; cbn [merge]; [done|].
  case_decide; [apply IH; lia|].
  rewrite take_app_le by (rewrite length_take; unfold len in *; lia). rewrite take_take. f_equal. lia.
Qed.

(** The merged log has the leader's terms. *)
Lemma merge_terms base L es i j e :
  base <= len L -> 1 <= i <= len L + 1 -> es !! j = Some e -> base < i + Z.of_nat j ->
  full_term (merge base L i es) (i + Z.of_nat j) = e_term e.
Proof.
  intros Hb. revert i j. induction es as [|x es IH]; intros i j Hi Hj Hgt; [done|]. cbn [merge]. case_decide as Hd.
  - destruct j as [|j]; cbn in Hj.
    + injection Hj as ->. rewrite Z.add_0_r in *. destruct Hd as [?|[Hl Ht]]; [lia|].
      rewrite <- (full_term_take (i)) by lia. rewrite merge_take by lia. rewrite full_term_take by lia. done.
    + replace (i + Z.of_nat (S j)) with (i + 1 + Z.of_nat j) by lia. apply IH; [lia|done|lia].
  - unfold full_term. rewrite decide_False by lia.
    rewrite lookup_app_r by (rewrite length_take; unfold len in *; lia).
    replace (Z.to_nat (i + Z.of_nat j - 1) - length (take (Z.to_nat (i - 1)) L))%nat with j
      by (rewrite length_take; unfold len in *; lia).
    by rewrite Hj.
Qed.

(** Entries that are already there leave the log alone, a longer log included. *)
Lemma merge_id base L es i :
  (forall j e, es !! j = Some e -> i + Z.of_nat j <= base
     \/ (i + Z.of_nat j <= len L /\ full_term L (i + Z.of_nat j) = e_term e)) ->
  merge base L i es = L.
Proof.
  revert i. induction es as [|e es IH]; intros i H; [done|]. cbn [merge]. rewrite decide_True.
  - apply IH. intros j x Hj. specialize (H (S j) x Hj).
    replace (i + Z.of_nat (S j)) with (i + 1 + Z.of_nat j) in H by lia. done.
  - specialize (H 0%nat e eq_refl). rewrite Z.add_0_r in H. done.
Qed.

(** ** The append loop *)

(** The two logs of a node: [L] in memory and on disk. *)
Record logs (n : Node) (lf : raftLogFile) (L : list logEntry) : Prop := {
  logs_rep : represents (log n) L;
  logs_file : logFile n = Some lf;
  logs_mirror : raftlogfile.mirrors lf (log n)
}.

Lemma logs_wf n lf L : logs n lf L -> wf (log n).
Proof. intros [H _ _]. by eapply represents_wf. Qed.

Lemma fileAppend_run n lf L e w :
  logs n lf L -> faults w = [] -> raftlogfile.entry_ok e -> len L < maxPersisted ->
  len (raftlogfile.contents (log n)) + (13 + len (e_bytes e)) < 2 ^ 63 ->
  exists lf', fileAppend e n w = Some (true, set_logFile (Some lf') n, w)
    /\ logs (set_log (append (log n) (e_term e) (e_kind e) (e_bytes e)).1 (set_logFile (Some lf') n)) lf' (L ++ [e]).
Proof.
  intros [Hr Hf Hm] Hw He Hlen Hb.
  assert (MkLogEntry (e_term e) (e_kind e) (e_bytes e) = e) as Ee by by destruct e.
  destruct (raftlogfile.append_mirrors lf (log n) (e_term e) (e_kind e) (e_bytes e) Hm) as (lf' & E & Hm');
    [by rewrite Ee|done|].
  exists lf'. split.
  - unfold fileAppend. rewrite bind_gets, Hf, (bind_fault _ _ _ Hw), E. done.
  - destruct (rep_append Hr (e_term e) (e_kind e) (e_bytes e) Hlen) as [_ Hr']. rewrite Ee in Hr'. by split.
Qed.

Lemma appendBoth_run n lf L e w :
  logs n lf L -> faults w = [] -> raftlogfile.entry_ok e -> len L < maxPersisted ->
  len (raftlogfile.contents (log n)) + (13 + len (e_bytes e)) < 2 ^ 63 ->
  exists lf', appendBoth e n w
      = Some (true, set_log (append (log n) (e_term e) (e_kind e) (e_bytes e)).1 (set_logFile (Some lf') n), w)
    /\ logs (set_log (append (log n) (e_term e) (e_kind e) (e_bytes e)).1 (set_logFile (Some lf') n)) lf' (L ++ [e]).
Proof.
  intros Hl Hw He Hlen Hb. destruct (fileAppend_run n lf L e w Hl Hw He Hlen Hb) as (lf' & E & Hl').
  exists lf'. split; [|done]. unfold appendBoth. by rewrite (bind_run _ _ _ _ _ _ _ E).
Qed.

Lemma truncateBoth_run n lf L i w :
  logs n lf L -> faults w = [] -> baseIndex (log n) < i -> is_u64 i ->
  exists lf', fileTruncate i n w = Some (true, set_logFile (Some lf') n, w)
    /\ logs (set_log (truncateFrom (log n) i) (set_logFile (Some lf') n)) lf' (take (Z.to_nat (i - 1)) L).
Proof.
  intros Hl Hw Hi Hu. pose proof (logs_wf _ _ _ Hl) as Hwf. destruct Hl as [Hr Hf Hm].
  destruct (raftlogfile.truncateFrom_mirrors lf (log n) i Hm Hwf Hu) as (lf' & E & Hm').
  exists lf'. split.
  - unfold fileTruncate, mbind, M_bind, gets, next_fault, modify, mret, M_ret. cbn.
    rewrite Hf. cbn. rewrite Hw. cbn. rewrite E. done.
  - destruct (rep_truncateFrom Hr i Hi Hu) as [Hr' _]. by split.
Qed.
(** A node whose two logs were replaced. *)
Definition upd (n : Node) (lf : raftLogFile) (l : RaftLog) : Node := set_log l (set_logFile (Some lf) n).

Lemma upd_upd n lf l lf' l' : upd (upd n lf l) lf' l' = upd n lf' l'.
Proof. done. Qed.

Lemma upd_id n lf L : logs n lf L -> upd n lf (log n) = n.
Proof. intros [_ Hf _]. destruct n. cbn in *. by rewrite Hf. Qed.

Lemma len_frames_take j es : len (raftlogfile.frames (take j es)) <= len (raftlogfile.frames es).
Proof.
  rewrite <- (take_drop j es) at 2. rewrite raftlogfile.frames_app, len_app.
  pose proof (len_nonneg (raftlogfile.frames (drop j es))). lia.
Qed.

Lemma len_contents_truncate l i :
  len (raftlogfile.contents (truncateFrom l i)) <= len (raftlogfile.contents l).
Proof.
  rewrite !raftlogfile.len_contents. unfold truncateFrom. case_decide; [done|]. case_decide; [|done].
  cbn [entries]. pose proof (len_frames_take (Z.to_nat (u64 (i - baseIndex l - 1))) (entries l)). lia.
Qed.

Lemma lastConfig_append l e :
  lastConfig (entries (append l (e_term e) (e_kind e) (e_bytes e)).1)
  = if decide (e_kind e = EntryConfig) then Some e else lastConfig (entries l).
Proof.
  cbn [append fst entries]. assert (MkLogEntry (e_term e) (e_kind e) (e_bytes e) = e) as -> by by destruct e.
  apply lastConfig_snoc.
Qed.

(** What the loop of [handleAppendEntries] does with a working disk: it ends with
    both logs at the reference merge, and reports [false] only if the newest
    configuration is still the same. *)
Definition loop_ends (r : option (option bool * Node * World)) (n : Node) (w : World) (b : bool)
  (L' : list logEntry) : Prop :=
  exists c lf' l', r = Some (Some c, upd n lf' l', w)
    /\ logs (upd n lf' l') lf' L'
    /\ baseIndex l' = baseIndex (log n)
    /\ (c = false -> lastConfig (entries l') = lastConfig (entries (log n)))
    /\ (b = true -> c = true).

Definition loop_ok (es : list logEntry) : Prop := forall n lf L i b w,
  logs n lf L -> faults w = [] -> 1 <= i <= len L + 1 -> Forall raftlogfile.entry_ok es ->
  len L + len es < maxPersisted ->
  len (raftlogfile.contents (log n)) + len (raftlogfile.frames es) < 2 ^ 63 ->
  loop_ends (appendEntries_loop es i b n w) n w b (merge (baseIndex (log n)) L i es).

(** From the first new entry on, all entries are appended. *)
Lemma append_step es e n lf L b w :
  loop_ok es -> logs n lf L -> faults w = [] -> Forall raftlogfile.entry_ok (e :: es) ->
  len L + len (e :: es) < maxPersisted ->
  len (raftlogfile.contents (log n)) + len (raftlogfile.frames (e :: es)) < 2 ^ 63 ->
  loop_ends ((ok ← appendBoth e;
              if negb ok then mret None
              else appendEntries_loop es (len L + 2) (b || bool_decide (e_kind e = EntryConfig))) n w)
    n w b (L ++ e :: es).
Proof.
  intros IH Hl Hw Hok Hlen Hc. apply Forall_cons in Hok as [Hoke Hok]. rewrite len_cons in Hlen.
  rewrite raftlogfile.frames_cons, len_app, raftlogfile.len_frame in Hc.
  pose proof (len_nonneg (raftlogfile.frames es)). pose proof (len_nonneg es).
  destruct (appendBoth_run n lf L e w Hl Hw Hoke) as (lf1 & E & Hl1); [lia..|].
  set (l1 := (append (log n) (e_term e) (e_kind e) (e_bytes e)).1) in *.
  assert (len (L ++ [e]) = len L + 1) as El by (rewrite len_app; done).
  pose proof (rep_base _ _ (logs_rep _ _ _ Hl)) as Hb.
  destruct (IH (upd n lf1 l1) lf1 (L ++ [e]) (len L + 2) (b || bool_decide (e_kind e = EntryConfig)) w)
    as (c & lf2 & l2 & E2 & Hl2 & Hb2 & Hc2 & Hb'); try done; [lia|lia| |].
  { cbn [upd log set_log set_logFile]. unfold l1. rewrite raftlogfile.len_contents. cbn [append fst entries].
    assert (MkLogEntry (e_term e) (e_kind e) (e_bytes e) = e) as -> by by destruct e.
    rewrite raftlogfile.frames_snoc, len_app, raftlogfile.len_frame. rewrite raftlogfile.len_contents in Hc. lia. }
  exists c, lf2, l2. split_and!.
  - unfold mbind, M_bind. rewrite E. cbn [negb]. exact E2.
  - cbn [upd log set_log set_logFile] in Hl2. unfold l1 in Hl2. cbn [append fst baseIndex] in Hl2.
    rewrite merge_end in Hl2 by lia. by rewrite <- app_assoc in Hl2.
  - exact Hb2.
  - intros ->. rewrite (Hc2 eq_refl). cbn [upd log set_log set_logFile]. unfold l1.
    rewrite lastConfig_append. case_decide as Hk; [|done].
    rewrite bool_decide_eq_true_2, orb_true_r in Hb' by done. by specialize (Hb' eq_refl).
  - intros ->. by apply Hb'.
Qed.

(** Truncating at a conflict leaves a log that ends just before it. *)
Lemma truncate_step n lf L i w :
  logs n lf L -> faults w = [] -> baseIndex (log n) < i <= len L ->
  exists lf', fileTruncate i n w = Some (true, set_logFile (Some lf') n, w)
    /\ logs (upd n lf' (truncateFrom (log n) i)) lf' (take (Z.to_nat (i - 1)) L)
    /\ baseIndex (truncateFrom (log n) i) = baseIndex (log n).
Proof.
  intros Hl Hw Hi. pose proof (logs_rep _ _ _ Hl) as Hr. pose proof (rep_base _ _ Hr).
  pose proof (rep_small _ _ Hr). pose proof maxPersisted_bound.
  assert (is_u64 i) as Hu by (unfold is_u64; lia).
  destruct (truncateBoth_run n lf L i w Hl Hw) as (lf' & E & Hl'); [lia|done|].
  exists lf'. split_and!; [done..|]. by apply (rep_truncateFrom Hr); [lia|].
Qed.

(** Once the flag is set, the configuration is recomputed whatever happened. *)
Lemma loop_ends_touched r n lf l w b L :
  baseIndex l = baseIndex (log n) -> loop_ends r (upd n lf l) w true L -> loop_ends r n w b L.
Proof.
  intros Hb (c & lf' & l' & E & Hl & Hb' & _ & Ht). rewrite (Ht eq_refl) in E.
  exists true, lf', l'. split_and!; [exact E|exact Hl|by rewrite Hb'|done|done].
Qed.

Lemma appendEntries_loop_spec es : loop_ok es.
Proof.
  induction es as [|e es IH]; intros n lf L i b w Hl Hw Hi Hok Hlen Hc; cbn [appendEntries_loop merge].
  { exists b, lf, (log n). rewrite (upd_id n lf L Hl). by split_and!. }
  pose proof (logs_rep _ _ _ Hl) as Hr. pose proof maxPersisted_bound. pose proof (len_nonneg es).
  pose proof (rep_base _ _ Hr). pose proof Hlen as Hlen'. rewrite len_cons in Hlen'.
  pose proof Hc as Hc'. rewrite raftlogfile.frames_cons, len_app, raftlogfile.len_frame in Hc'.
  pose proof (len_nonneg (raftlogfile.frames es)). pose proof (len_nonneg (e_bytes e)).
  pose proof Hok as [Hoke Hok']%Forall_cons.
  assert (u64 (i + 1) = i + 1) as Hu by (apply u64_small; unfold is_u64; lia).
  assert (i < len L + 1 -> loop_ends (appendEntries_loop es (i + 1) b n w) n w b
            (merge (baseIndex (log n)) L (i + 1) es)) as Hskip.
  { intros. eapply IH; try done; lia. }
  unfold mbind, M_bind at 1, gets. cbn beta iota zeta. unfold M_bind at 1. cbn beta iota zeta.
  rewrite (rep_lastIndex Hr), Hu.
  destruct (decide (i <= baseIndex (log n))) as [Hb|Hb].
  { rewrite (decide_True (P := _ \/ _)) by auto. apply Hskip. lia. }
  unfold M_bind at 1. destruct (decide (i <= len L)) as [Hle|Hle].
  - unfold M_bind at 1, expr. rewrite (rep_term_at Hr) by lia. cbn beta iota zeta. unfold mret, M_ret at 1.
    destruct (decide (full_term L i = e_term e)) as [Ht|Ht].
    + rewrite (bool_decide_eq_false_2 (full_term L i <> e_term e)) by auto.
      rewrite (decide_True (P := _ \/ _)) by auto. apply Hskip. lia.
    + rewrite (bool_decide_eq_true_2 (full_term L i <> e_term e)) by auto.
      rewrite (decide_False (P := _ \/ _)) by tauto.
      destruct (truncate_step n lf L i w Hl Hw) as (lf1 & E & Hl1 & Hb1); [lia|].
      apply (loop_ends_touched _ _ lf1 (truncateFrom (log n) i)); [done|].
      unfold M_bind. rewrite E. cbn [negb modify].
      assert (len (take (Z.to_nat (i - 1)) L) = i - 1) as Elt by (rewrite len_take; lia).
      pose proof (len_contents_truncate (log n) i).
      pose proof (append_step es e _ lf1 _ true w IH Hl1 Hw Hok) as A. rewrite Elt in A.
      replace (i - 1 + 2) with (i + 1) in A by lia. apply A; [lia|].
      cbn [upd log set_log set_logFile]. lia.
  - unfold M_ret at 1. rewrite (decide_False (P := _ \/ _)) by tauto.
    assert (i = len L + 1) as -> by lia. rewrite take_ge by (unfold len; lia).
    replace (len L + 1 + 1) with (len L + 2) by lia. by eapply append_step.
Qed.

(** ** The handler *)

Abbreviation sends := election.sends.

Lemma sends_snoc es e :
  sends (es ++ [e]) = sends es ++ match e with Send to m => [(to, m)] | _ => [] end.
Proof. unfold election.sends. rewrite omap_app. f_equal. by destruct e. Qed.

(** What adopting the leader's term leaves alone. *)
Definition same_store (n n' : Node) : Prop :=
  id n' = id n /\ cfg n' = cfg n /\ config n' = config n /\ baseConfig n' = baseConfig n
  /\ log n' = log n /\ logFile n' = logFile n /\ commitIndex n' = commitIndex n /\ lastApplied n' = lastApplied n.

Lemma adopt_run T n w :
  faults w = [] -> currentTerm n <= T ->
  exists n1 w1, (if decide (T > currentTerm n) then stepDownLocked T else skip) n w = Some (tt, n1, w1)
    /\ same_store n n1 /\ currentTerm n1 = T /\ faults w1 = [] /\ sends (out w1) = sends (out w).
Proof.
  intros Hw HT. destruct (decide _).
  - unfold stepDownLocked, persistHardStateLocked, mbind, M_bind, modify, gets, next_fault, emit, mret, M_ret.
    cbn. destruct (stateFile n); cbn; rewrite ?Hw; cbn; do 2 eexists;
      (split; [done|]); split_and!; try done; cbn; by rewrite !sends_snoc, !app_nil_r.
  - exists n, w. split_and!; try done. lia.
Qed.

Lemma logConfig_lastConfig es es' c : lastConfig es = lastConfig es' -> logConfig es c = logConfig es' c.
Proof. unfold logConfig. by intros ->. Qed.

Lemma logs_same n n' lf L : log n' = log n -> logFile n' = logFile n -> logs n lf L -> logs n' lf L.
Proof. intros E1 E2 [Hr Hf Hm]. split; by rewrite ?E1, ?E2. Qed.

Lemma advance_run lc n :
  advanceFollowerCommit lc n = set_commitIndex (Z.max (commitIndex n) (Z.min lc (lastIndex (log n)))) n.
Proof.
  unfold advanceFollowerCommit. cbv zeta.
  repeat case_decide; try (f_equal; lia); rewrite Z.max_l by lia; by destruct n.
Qed.

(** The part of the handler after the term is adopted, with matching logs. *)
Lemma accept_run es n lf L prev w b0 :
  logs n lf L -> faults w = [] -> 0 <= prev <= len L -> Forall raftlogfile.entry_ok es ->
  len L + len es < maxPersisted ->
  len (raftlogfile.contents (log n)) + len (raftlogfile.frames es) < 2 ^ 63 ->
  config n = Some (logConfig (entries (log n)) (baseConfig n)) ->
  exists c lf' l', appendEntries_loop es (u64 (prev + 1)) b0 n w = Some (Some c, upd n lf' l', w)
    /\ (if (c : bool) then deriveConfigLocked else skip) (upd n lf' l') w
       = Some (tt, set_config (Some (logConfig (entries l') (baseConfig n))) (upd n lf' l'), w)
    /\ logs (upd n lf' l') lf' (merge (baseIndex (log n)) L (prev + 1) es)
    /\ baseIndex l' = baseIndex (log n).
Proof.
  intros Hl Hw Hp Hok Hlen Hc Hcfg. pose proof maxPersisted_bound. pose proof (len_nonneg es).
  assert (u64 (prev + 1) = prev + 1) as -> by (apply u64_small; unfold is_u64; lia).
  destruct (appendEntries_loop_spec es n lf L (prev + 1) b0 w) as (c & lf' & l' & E & Hl' & Hb & Hk & _);
    [done..|lia|done|done|done|].
  exists c, lf', l'. split; [done|]. split; [|done]. destruct c.
  - unfold deriveConfigLocked, mbind, M_bind, expr, modify. cbn [upd log baseConfig set_log set_logFile].
    pose proof (deriveConfig_spec (logs_rep _ _ _ Hl') (baseConfig n)) as Hd.
    cbn [upd log set_log set_logFile] in Hd. by rewrite Hd.
  - unfold skip, mret, M_ret. do 2 f_equal. specialize (Hk eq_refl).
    rewrite (logConfig_lastConfig _ _ _ Hk), <- Hcfg. by destruct n.
Qed.

(** The handler on a message that is not of an older term. *)
Lemma handle_current now m prev prevTerm es lc n lf L w :
  logs n lf L -> faults w = [] -> is_u64 prev -> Forall raftlogfile.entry_ok es ->
  len L + len es < maxPersisted ->
  len (raftlogfile.contents (log n)) + len (raftlogfile.frames es) < 2 ^ 63 ->
  config n = Some (logConfig (entries (log n)) (baseConfig n)) ->
  currentTerm n <= Term m ->
  let base := baseIndex (log n) in
  let L' := merge base L (prev + 1) es in
  let reply w' b := sends (out w') = sends (out w) ++ [(From m, MkMessage (id n) (Term m) b)] in
  exists n' w',
    handleAppendEntries now m prev prevTerm es lc n w = Some (tt, n', w')
    /\ config n' = Some (logConfig (entries (log n')) (baseConfig n'))
    /\ currentTerm n' = Term m /\ role n' = Follower /\ lastLeaderContact n' = Some now /\ id n' = id n
    /\ baseIndex (log n') = base
    /\ if decide (prev < base \/ (prev <= len L /\ full_term L prev = prevTerm)) then
         (exists lf', logs n' lf' L')
         /\ commitIndex n' = Z.max (commitIndex n) (Z.min lc (len L'))
         /\ reply w' (MsgAppendResponse true (prev + len es) 0)
       else
         logs n' lf L /\ log n' = log n /\ commitIndex n' = commitIndex n
         /\ reply w' (MsgAppendResponse false 0 (len L + 1)).
Proof.
  intros Hl Hw Hp Hok Hlen Hc Hcfg Ht base L' reply. subst reply. pose proof maxPersisted_bound.
  pose proof (logs_rep _ _ _ Hl) as Hr. pose proof (rep_base _ _ Hr) as Hb. pose proof (len_nonneg es).
  unfold handleAppendEntries. rewrite bind_gets, decide_False by lia.
  destruct (adopt_run (Term m) n w Hw) as (n1 & w1 & E1 & Hs & Ht1 & Hw1 & Ho1); [lia|].
  unfold mbind at 1, M_bind at 1. rewrite E1. clear E1. destruct Hs as (Hid & _ & Hcf & Hbc & Hlog & Hlf & Hci & _).
  autorewrite with run. set (n2 := set_lastLeaderContact _ _). set (w2 := MkWorld _ _).
  assert (logs n2 lf L) as Hl2 by (by apply (logs_same n)).
  assert (faults w2 = []) as Hw2 by done.
  assert (sends (out w2) = sends (out w)) as Ho2 by (unfold w2; cbn [out]; by rewrite sends_snoc, app_nil_r).
  assert (log n2 = log n) as Hlog2 by done.
  erewrite bind_expr by (rewrite Hlog2; by apply (rep_matchesPrev Hr)). cbv zeta.
  fold base. case_decide as Hm.
  - rewrite bool_decide_eq_true_2 by done. cbn [negb]. fold L'.
    unfold is_u64 in Hp.
    destruct (accept_run es n2 lf L prev w2 false) as (c & lf' & l' & E1 & E2 & Hl' & Hb'); try done.
    { unfold base in Hm. lia. }
    { by rewrite Hlog2. }
    { rewrite Hlog2. change (config n1 = Some (logConfig (entries (log n)) (baseConfig n1))). by rewrite Hcf, Hbc. }
    rewrite Hlog2 in Hl', Hb'. fold base in Hl', Hb'. fold L' in Hl'.
    rewrite (bind_run _ _ _ _ _ _ _ E1). cbn beta iota. rewrite (bind_run _ _ _ _ _ _ _ E2).
    autorewrite with run. rewrite advance_run.
    assert (lastIndex l' = len L') as El by apply (rep_lastIndex (logs_rep _ _ _ Hl')).
    do 2 eexists. split; [done|]. split; [done|].
    split; [exact Ht1|]. split; [done|]. split; [done|]. split; [exact Hid|].
    split; [exact Hb'|].
    assert (u64 (prev + len es) = prev + len es) as Eu.
    { apply u64_small. unfold is_u64, base in *. lia. }
    cbn [out]. rewrite !sends_snoc, Ho2, Eu, app_nil_r. cbn.
    split; [exists lf'; by apply (logs_same (upd n2 lf' l'))|]. split; [by rewrite El, Hci|].
    by rewrite Hid, Ht1.
  - rewrite bool_decide_eq_false_2 by done. cbn [negb]. autorewrite with run.
    rewrite Hlog2, (rep_lastIndex Hr). pose proof (rep_small _ _ Hr).
    assert (u64 (len L + 1) = len L + 1) as Eu.
    { apply u64_small. unfold is_u64. unfold len in *. lia. }
    do 2 eexists. split; [done|]. split.
    { rewrite Hlog2. change (config n1 = Some (logConfig (entries (log n)) (baseConfig n1))). by rewrite Hcf, Hbc. }
    split; [exact Ht1|]. split; [done|]. split; [done|]. split; [exact Hid|]. split; [by rewrite Hlog2|].
    split; [done|]. split; [done|]. split; [done|].
    cbn [out]. rewrite sends_snoc, Ho2, Eu. cbn. by rewrite Hid, Ht1.
Qed.

(** C17. A follower's answer to AppendEntries, with a working disk.  A message of
    an older term changes nothing and is refused with the current term.  Any
    other is adopted as coming from the leader of its term; if the follower's
    log does not hold the entry before the new ones, its log is left alone and
    the refusal points just past its end; if it does (or has compacted it
    away), its log becomes the reference merge, which has the leader's terms at
    the leader's indexes and leaves everything before them alone, the file is
    kept in step, the commit index rises to the leader's as far as the log goes
    and never falls, and the index acknowledged is that of the last new entry.
    The configuration is always the newest one in the log. *)
Theorem follower_append now m prev prevTerm es lc n lf L w :
  logs n lf L -> faults w = [] -> is_u64 prev -> Forall raftlogfile.entry_ok es ->
  len L + len es < maxPersisted ->
  len (raftlogfile.contents (log n)) + len (raftlogfile.frames es) < 2 ^ 63 ->
  config n = Some (logConfig (entries (log n)) (baseConfig n)) ->
  let base := baseIndex (log n) in
  let L' := merge base L (prev + 1) es in
  let reply n' w' b := sends (out w') = sends (out w) ++ [(From m, MkMessage (id n) (currentTerm n') b)] in
  exists n' w',
    handleAppendEntries now m prev prevTerm es lc n w = Some (tt, n', w')
    /\ config n' = Some (logConfig (entries (log n')) (baseConfig n'))
    /\ if decide (Term m < currentTerm n) then
         n' = n /\ reply n' w' (MsgAppendResponse false 0 0)
       else
         currentTerm n' = Term m /\ role n' = Follower /\ lastLeaderContact n' = Some now
         /\ if decide (prev < base \/ (prev <= len L /\ full_term L prev = prevTerm)) then
              (exists lf', logs n' lf' L')
              /\ commitIndex n' = Z.max (commitIndex n) (Z.min lc (len L'))
              /\ reply n' w' (MsgAppendResponse true (prev + len es) 0)
              /\ take (Z.to_nat prev) L' = take (Z.to_nat prev) L
              /\ (forall j e, es !! j = Some e -> base < prev + 1 + Z.of_nat j ->
                   full_term L' (prev + 1 + Z.of_nat j) = e_term e)
            else
              logs n' lf L /\ commitIndex n' = commitIndex n
              /\ reply n' w' (MsgAppendResponse false 0 (len L + 1)).
Proof.
  intros Hl Hw Hp Hok Hlen Hc Hcfg base L' reply. subst reply.
  destruct (decide (Term m < currentTerm n)) as [Ht|Ht].
  { exists n. eexists. split.
    { unfold handleAppendEntries. by rewrite bind_gets, decide_True, run_send. }
    split; [done|]. split; [done|]. cbn [out]. by rewrite sends_snoc. }
  pose proof (rep_base _ _ (logs_rep _ _ _ Hl)) as Hb. pose proof (len_nonneg es). unfold is_u64 in Hp.
  destruct (handle_current now m prev prevTerm es lc n lf L w) as (n' & w' & E & Hc' & Ht' & Hro & Hll & _ & _ & Hm);
    [done..|lia|].
  exists n', w'. split; [exact E|]. split; [exact Hc'|]. split; [exact Ht'|]. split; [exact Hro|]. split; [exact Hll|].
  rewrite Ht'. fold base in Hm. fold L' in Hm. case_decide as Hcase.
  - destruct Hm as (H1 & H2 & H3). split; [exact H1|]. split; [exact H2|]. split; [exact H3|]. split.
    + unfold L'. apply merge_take; unfold base in *; lia.
    + intros j e Hj Hgt. apply merge_terms; unfold base in *; [lia|lia|done|lia].
  - destruct Hm as (H1 & _ & H2 & H3). by split.
Qed.

(** ** A failed append and the configuration *)

(** Node 0 sends the configuration without node 2 and a data entry. *)
Definition reconfig : list logEntry :=
  [MkLogEntry 1 EntryConfig (config.encodeConfig (delete 2 election.demo_config)); MkLogEntry 1 EntryData [x61]].
Definition reconfig_message : Message := MkMessage 0 1 (MsgAppendEntries 0 0 reconfig 0).

(** The disk of node 1 fails at the second entry; the leader sends both again. *)
Definition stale_config_run : option (Node * list (NodeID * Message)) :=
  '(_, n, w1) ← dispatch 0 reconfig_message (election.demo_node 1) (MkWorld [None; Some 0%nat] []);
  '(_, n, w2) ← dispatch 0 reconfig_message n (MkWorld [] (out w1));
  Some (n, sends (out w2)).

(** A disk failure in the middle of an AppendEntries returns before the
    configuration is recomputed, and the retry finds the configuration entry
    already there: node 1 acknowledges the entry and goes on counting its
    quorums over the old members, although its log says otherwise. *)
Theorem failed_append_keeps_old_config :
  exists n, stale_config_run
      = Some (n, [(0, MkMessage 1 1 (MsgAppendResponse false 0 1)); (0, MkMessage 1 1 (MsgAppendResponse true 2 0))])
    /\ entries (log n) = reconfig
    /\ config n = Some election.demo_config
    /\ config.deriveConfig (log n) (baseConfig n) = Some (delete 2 election.demo_config).
Proof. eexists. split; [vm_compute; reflexivity|]. split_and!; vm_compute; reflexivity. Qed.

(** ** Witnesses *)

Definition demo_file : raftLogFile := default raftlogfile.demo_file (logFile (election.demo_node 1)).

Lemma demo_logs : logs (election.demo_node 1) demo_file [].
Proof.
  split; [|vm_compute; reflexivity|].
  - split; vm_compute; done.
  - assert (log (election.demo_node 1) = NewRaftLog) as -> by (vm_compute; reflexivity).
    assert (demo_file = raftlogfile.demo_file) as -> by (vm_compute; reflexivity).
    apply (raftlogfile.mirrors_loaded NewRaftLog true); [constructor|split; by_decide..|by_decide].
Qed.

(** Node 1 takes the two entries of the message. *)
Lemma follower_append_witness :
  exists n' w', handleAppendEntries 0 reconfig_message 0 0 reconfig 1 (election.demo_node 1) (MkWorld [] [])
      = Some (tt, n', w')
    /\ config n' = Some (logConfig (entries (log n')) (baseConfig n'))
    /\ commitIndex n' = 1 /\ exists lf', logs n' lf' reconfig.
Proof.
  destruct (follower_append 0 reconfig_message 0 0 reconfig 1 (election.demo_node 1) demo_file [] (MkWorld [] []))
    as (n' & w' & E & Hc & H).
  - apply demo_logs.
  - reflexivity.
  - split; vm_compute; done.
  - repeat constructor; vm_compute; done.
  - vm_compute; done.
  - vm_compute; done.
  - vm_compute; reflexivity.
  - exists n', w'. split; [exact E|]. split; [exact Hc|].
    change (Term reconfig_message) with 1 in H.
    replace (currentTerm (election.demo_node 1)) with 1 in H by (vm_compute; reflexivity).
    rewrite decide_False in H by done. destruct H as (_ & _ & _ & H).
    rewrite decide_True in H by (right; vm_compute; done).
    destruct H as (Hl & Hci & _). split; [|exact Hl]. rewrite Hci. vm_compute. reflexivity.
Defined.

End follower.
