(* ===== verification/RaftApply.v ===== *)
(** * Applying, compacting and restarting

    [applyCommitted] and [buildNode] (internal/cluster/cluster.go) and
    [maybeCompactLocked] (internal/cluster/replication.go): what a node has
    committed is applied once and in order, and neither a compaction, failed
    disk operations included, nor a restart changes the log or the
    configuration. *)

From Stdlib Require Import ZArith Lia.
From Stdlib Require Import Strings.Byte.
From stdpp Require Import base list gmap sorting.
From S2P Require Import Prelude.
From S2P Require Import RecordFmt.
From S2P Require Import RaftLog.
From S2P Require Import RaftConfig.
From S2P Require Import RaftLogFile.
From S2P Require Import RaftNode.
From S2P Require Import RaftRun.
From S2P Require Import RaftElection.
From S2P Require Import RaftFollower.

#[local] Open Scope Z_scope.

Module applied.
Import raftlog node run follower.

(** ** Configurations across a compaction *)

Lemma decodeConfig_loop_wf n data : forall off (m : Members),
  (forall id v, m !! id = Some v -> - 2 ^ 63 <= id < 2 ^ 63 /\ v = true) ->
  (forall id v, config.decodeConfig_loop n data off m !! id = Some v -> - 2 ^ 63 <= id < 2 ^ 63 /\ v = true)
  /\ (size (config.decodeConfig_loop n data off m) <= size m + n)%nat.
Proof.
  induction n as [|n IH]; intros off m Hm; cbn [config.decodeConfig_loop]; [split; [done|lia]|].
  case_decide; [|split; [done|lia]].
  destruct (IH (off + 8) (<[i64 (record.Uint64 data off) := true]> m)) as [H1 H2].
  - intros id v [[<- <-]|[_ Hid]]%lookup_insert_Some; [|by apply Hm]. split; [|done].
    unfold i64. pose proof (Z.mod_pos_bound (record.Uint64 data off + 2 ^ 63) (2 ^ 64)). lia.
  - split; [done|]. etrans; [exact H2|].
    destruct (m !! i64 (record.Uint64 data off)) as [v|] eqn:E.
    + rewrite map_size_insert_Some by done. lia.
    + rewrite map_size_insert_None by done. lia.
Qed.

Lemma decodeConfig_wf data : config.wf (config.decodeConfig data).
Proof.
  unfold config.decodeConfig. case_decide.
  { split; [intros id v H1; by rewrite lookup_empty in H1|rewrite map_size_empty; lia]. }
  destruct (decodeConfig_loop_wf (Nat.min (Z.to_nat (record.Uint32 data 0)) (length data)) data 4 ∅) as [H1 H2];
    [intros id v Hid; by rewrite lookup_empty in Hid|].
  split; [exact H1|]. rewrite map_size_empty in H2. pose proof (record.Uint32_range data 0). lia.
Qed.

Lemma copyConfig_wf c : config.wf c -> config.copyConfig c = c.
Proof. by intros (_ & _ & ?)%config.wf_sortedIds. Qed.

Lemma logConfig_wf es c : config.wf c -> config.wf (logConfig es c).
Proof.
  intros Hc. unfold logConfig. destruct (lastConfig es); [apply decodeConfig_wf|by rewrite copyConfig_wf].
Qed.

(** The configuration survives folding a prefix of the log into the base. *)
Lemma logConfig_drop k es c :
  config.wf c -> logConfig (drop k es) (logConfig (take k es) c) = logConfig es c.
Proof.
  intros Hc.
  assert (lastConfig es = match lastConfig (drop k es) with Some e => Some e | None => lastConfig (take k es) end) as E.
  { unfold lastConfig. rewrite <- (take_drop k es) at 1. rewrite filter_app, last_app. done. }
  unfold logConfig at 1 3. rewrite E. destruct (lastConfig (drop k es)); [done|].
  rewrite copyConfig_wf by by apply logConfig_wf. done.
Qed.

(** If it is already folded, the base file and the whole log give it too. *)
Lemma logConfig_folded k es c :
  config.wf c -> logConfig es (logConfig (take k es) c) = logConfig es c.
Proof.
  intros Hc. unfold logConfig at 1 3. destruct (lastConfig es) as [e|] eqn:E; [done|].
  rewrite copyConfig_wf by by apply logConfig_wf. unfold logConfig.
  assert (lastConfig (take k es) = None) as ->; [|done].
  unfold lastConfig in *. apply last_None. apply last_None in E.
  rewrite <- (take_drop k es), filter_app in E. by apply app_eq_nil in E as [? _].
Qed.
(** ** The invariant of a node's store *)

(** The two logs, the configuration and its file agree; [boot] is the
    configuration used when there is no file yet. *)
Record store_ok (boot : Members) (n : Node) (lf : raftLogFile) (L : list logEntry) : Prop := {
  so_logs : logs n lf L;
  so_config : config n = Some (logConfig (entries (log n)) (baseConfig n));
  so_base : config.wf (baseConfig n);
  so_path : exists file, configPath n = Some file
              /\ default boot (config.readBaseConfigFile file) = baseConfig n
}.

Lemma full_term_u64 L i lf l :
  represents l L -> raftlogfile.mirrors lf l -> baseIndex l < i <= len L -> is_u64 (full_term L i).
Proof.
  intros Hr Hm Hi. pose proof (rep_base _ _ Hr). destruct (rep_lookup (L := L) i) as (e & He & ->); [lia|].
  pose proof (raftlogfile.mir_ok _ _ Hm) as Hok. rewrite Forall_lookup in Hok.
  apply (Hok (Z.to_nat (i - 1 - baseIndex l))). rewrite (rep_entries _ _ Hr), lookup_drop. rewrite <- He. f_equal. lia.
Qed.

(** The compacted log, and its image on disk. *)
Lemma compacted_log n lf L i :
  logs n lf L -> baseIndex (log n) < i <= len L ->
  let l' := compactTo (log n) i (full_term L i) in
  represents l' L /\ baseIndex l' = i /\ baseTerm l' = full_term L i
  /\ entries l' = drop (Z.to_nat (i - baseIndex (log n))) (entries (log n))
  /\ Forall raftlogfile.entry_ok (entries l') /\ is_u64 i /\ is_u64 (full_term L i)
  /\ len (raftlogfile.contents l') <= len (raftlogfile.contents (log n)).
Proof.
  intros [Hr Hf Hm] Hi l'. destruct (rep_compactTo Hr i Hi) as [Hr' Hb]. fold l' in Hr', Hb.
  pose proof (rep_base _ _ Hr). pose proof (rep_small _ _ Hr). pose proof maxPersisted_bound.
  assert (entries l' = drop (Z.to_nat (i - baseIndex (log n))) (entries (log n))) as He.
  { rewrite (rep_entries _ _ Hr'), (rep_entries _ _ Hr), Hb, drop_drop. f_equal. lia. }
  split; [done|]. split; [done|]. split; [by rewrite (rep_term _ _ Hr'), Hb|]. split; [done|].
  split; [rewrite He; apply Forall_drop, (raftlogfile.mir_ok _ _ Hm)|].
  split; [unfold is_u64; lia|]. split; [exact (full_term_u64 L i lf (log n) Hr Hm Hi)|].
  rewrite !raftlogfile.len_contents, He.
    pose proof (raftlogfile.len_frames_drop (Z.to_nat (i - baseIndex (log n))) (entries (log n))). lia.
Qed.

(** ** Restarting *)

Lemma peersExcept_ok ids me : me ∉ peersExcept ids me.
Proof.
  unfold peersExcept. rewrite merge_sort_Permutation, list_elem_of_filter. tauto.
Qed.

Section restart.
Context (boot : Members) {lf : raftLogFile} {l : RaftLog} {L : list logEntry}.
Context (Hr : represents l L) (Hm : raftlogfile.mirrors lf l).

Lemma rep_lastTerm : lastTerm l = Some (full_term L (len L)).
Proof. unfold lastTerm. rewrite (rep_lastIndex Hr). apply (rep_term_at Hr). pose proof (rep_base _ _ Hr). lia. Qed.

(** A node built on the image of a log, torn append or not, and any hard state
    and configuration files. *)
Lemma buildNode_run me ps bootstrap c s tail stateDisk configDisk recovered :
  config.copyConfig bootstrap = boot -> raftlogfile.torn tail ->
  let r := buildNode me ps bootstrap c s (Some (raftlogfile.contents l ++ tail)) stateDisk configDisk recovered None in
  let hard := config.openRaftStateFile stateDisk in
  let base := default boot (config.readBaseConfigFile configDisk) in
  if decide (recovered < baseIndex l) then r = Err (ErrBelowBase recovered (baseIndex l))
  else exists n' lf', r = Ok n'
    /\ log n' = l /\ logs n' lf' L /\ baseConfig n' = base /\ configPath n' = Some configDisk
    /\ config n' = Some (logConfig (entries l) base)
    /\ role n' = Follower /\ id n' = me /\ commitIndex n' = recovered /\ lastApplied n' = recovered
    /\ installing n' = false /\ cfg n' = c
    /\ currentTerm n' = Z.max (config.currentTerm hard) (full_term L (len L))
    /\ votedFor n' = (if decide (full_term L (len L) > config.currentTerm hard) then noVote
                      else config.votedFor hard)
    /\ stateFile n' = Some (config.saved (currentTerm n') (votedFor n')).
Proof.
  intros Hboot Htail r hard base. pose proof Hm as [_ _ _ _ _ _ _ _ Hok [Hu1 Hu2] _].
  unfold r, buildNode. rewrite bool_decide_eq_false_2 by (intros [? _]; done).
  unfold raftlogfile.openRaftLogFile. change (default [] (Some ?x)) with x.
  rewrite (raftlogfile.load_contents l tail s Hok Hu1 Hu2 Htail). cbv beta iota zeta.
  cbn [raftlogfile.lf_baseIndex raftlogfile.lf_baseTerm].
  rewrite raftlogfile.rebuild_log. cbn [NewRaftLogWithBase baseIndex baseTerm entries app].
  replace (MkRaftLog (baseIndex l) (baseTerm l) (entries l)) with l by by destruct l.
  rewrite Hboot. case_decide; [done|]. fold base. rewrite (deriveConfig_spec Hr), rep_lastTerm.
  cbn [andb]. fold hard.
  destruct (decide (full_term L (len L) > config.currentTerm hard)) as [Ht|Ht].
  all: eexists; eexists (raftlogfile.MkLogFile _ _ _ _ _ _ _ _ _); split; [reflexivity|].
  all: split_and!; try done; cbn; try lia.
  all: split; [done|done|]; by apply raftlogfile.mirrors_loaded, Hm.
Qed.

End restart.
(** ** Compaction *)

Section compact.
Context {boot : Members} {n : Node} {lf : raftLogFile} {L : list logEntry}.
Context (Hok : store_ok boot n lf L) (i : Z) (Hi : baseIndex (log n) < i <= len L).

Let Hr : represents (log n) L := logs_rep _ _ _ (so_logs _ _ _ _ Hok).
Let l' : RaftLog := compactTo (log n) i (full_term L i).
Let folded : Members := logConfig (take (Z.to_nat (i - baseIndex (log n))) (entries (log n))) (baseConfig n).

(** The configuration file during a compaction: as before, or with the prefix
    folded in. *)
Lemma foldBaseConfig_run w :
  exists ok file bc w', foldBaseConfig i n w = Some (ok, set_baseConfig bc (set_configPath (Some file) n), w')
    /\ out w' = out w
    /\ (if (ok : bool) then bc = folded else bc = baseConfig n)
    /\ (default boot (config.readBaseConfigFile file) = folded
        \/ (ok = false /\ default boot (config.readBaseConfigFile file) = baseConfig n))
    /\ (faults w = [] -> ok = true /\ faults w' = []).
Proof.
  destruct (so_path _ _ _ _ Hok) as (file & Hp & Hf). pose proof (so_base _ _ _ _ Hok) as Hb.
  assert (config.wf folded) as Hw by by apply logConfig_wf.
  assert (forall c : Members, config.wf c -> forall id v, c !! id = Some v -> v = true) as Hin
    by (intros c [Hc _] x v Hx; by apply (Hc x v)).
  unfold foldBaseConfig. rewrite bind_gets, Hp.
  erewrite bind_expr by (unfold configAsOfLocked; apply (configAsOf_spec Hr); lia). fold folded. rewrite bind_gets.
  destruct (config.configEqual folded (baseConfig n)) eqn:Heq.
  - apply config.configEqual_spec in Heq; [|by apply Hin..].
    exists true, file, folded, w. split_and!; [|done..|by left; rewrite Hf|done].
    unfold mret, M_ret. do 3 f_equal. rewrite Heq. destruct n. cbn in *. by rewrite Hp.
  - unfold mbind at 1, M_bind at 1, next_fault. destruct (faults w) as [|fl fs] eqn:Hfw.
    + do 4 eexists. split; [reflexivity|]. split_and!; [done..| |done].
      left. by apply config.decode_encode_wf.
    + destruct fl as [[|k]|]; cbn; do 4 eexists; (split; [reflexivity|]); split_and!; try done.
      * by right.
      * left. by apply config.decode_encode_wf.
      * left. by apply config.decode_encode_wf.
Qed.

(** The log file during a compaction. *)
Lemma fileCompact_run bc file w :
  let n1 := set_baseConfig bc (set_configPath file n) in
  exists ok lf' w', fileCompact i (full_term L i) n1 w = Some (ok, set_logFile (Some lf') n1, w')
    /\ out w' = out w
    /\ (if (ok : bool) then raftlogfile.mirrors lf' l'
        else raftlogfile.at_path lf' = raftlogfile.contents (log n)
             \/ raftlogfile.at_path lf' = raftlogfile.contents l')
    /\ (faults w = [] -> ok = true /\ faults w' = []).
Proof.
  intros n1. pose proof (logs_file _ _ _ (so_logs _ _ _ _ Hok)) as Hf.
  pose proof (logs_mirror _ _ _ (so_logs _ _ _ _ Hok)) as Hm.
  destruct (compacted_log n lf L i (so_logs _ _ _ _ Hok) Hi) as (Hr' & Hb & Ht & _ & Hoke & Hu1 & Hu2 & Hlen).
  fold l' in Hr', Hb, Ht, Hoke, Hlen. pose proof (raftlogfile.mir_small _ _ Hm).
  assert (drop (Z.to_nat i) L = entries l') as He by by rewrite (rep_entries _ _ Hr'), Hb.
  unfold fileCompact. rewrite bind_gets. unfold n1 at 1. cbn [logFile set_baseConfig set_configPath]. rewrite Hf.
  erewrite bind_expr by (unfold n1; cbn [log set_baseConfig set_configPath]; apply (rep_entriesAfter Hr); lia).
  rewrite He. unfold mbind at 1, M_bind at 1, next_fault.
  destruct (raftlogfile.compact_mirrors lf (log n) l' Hm Hoke) as (lf' & E & Hm'); [by rewrite Hb|by rewrite Ht|lia|].
  rewrite Hb, Ht in E.
  assert (forall k, raftlogfile.at_path (raftlogfile.compact lf i (full_term L i) (entries l') (Some k)).1
            = if decide (k = 0%nat) then raftlogfile.contents (log n) else raftlogfile.contents l') as Hk.
  { intros k. unfold raftlogfile.compact. rewrite (raftlogfile.mir_open _ _ Hm). cbn [negb].
    destruct k as [|k]; cbn.
    - unfold raftlogfile.at_path. by rewrite (raftlogfile.mir_path _ _ Hm), (raftlogfile.mir_f _ _ Hm).
    - unfold raftlogfile.at_path, raftlogfile.contents, raftlogfile.frames. cbn. by rewrite Hb, Ht. }
  assert (forall k, (raftlogfile.compact lf i (full_term L i) (entries l') (Some k)).2 = Some raftlogfile.ErrIO) as Hk2.
  { intros k. unfold raftlogfile.compact. rewrite (raftlogfile.mir_open _ _ Hm). by destruct k. }
  destruct (faults w) as [|[k|] fs] eqn:Hfw; cbn beta iota.
  1, 3: rewrite E; exists true, lf'; eexists; split; [reflexivity|]; by split_and!.
  specialize (Hk k). specialize (Hk2 k). destruct (raftlogfile.compact _ _ _ _ (Some k)) as [lf2 err].
  cbn in Hk, Hk2. subst err. exists false, lf2. eexists. split; [reflexivity|]. split_and!; [done| |done].
  rewrite Hk. case_decide; auto.
Qed.

End compact.
(** What a crash finds: a log with the same entries, compacted or not, and a
    configuration file that gives the same configuration with it. *)
Definition durable (boot : Members) (n : Node) (lf : raftLogFile) (L : list logEntry) (upto : Z) : Prop :=
  exists lp lfp, raftlogfile.at_path lf = raftlogfile.contents lp /\ raftlogfile.mirrors lfp lp
    /\ represents lp L /\ baseIndex lp <= upto
    /\ config n = Some (logConfig (entries lp)
                          (default boot (config.readBaseConfigFile (default None (configPath n))))).

Lemma store_durable boot n lf L :
  store_ok boot n lf L -> durable boot n lf L (baseIndex (log n)).
Proof.
  intros [[Hr Hf Hm] Hc Hb (file & Hp & Hfile)]. exists (log n), lf. split_and!; try done.
  - unfold raftlogfile.at_path. by rewrite (raftlogfile.mir_path _ _ Hm), (raftlogfile.mir_f _ _ Hm).
  - rewrite Hp. change (default None (Some file)) with file. by rewrite Hfile.
Qed.

(** A node whose log files and configuration base were replaced. *)
Definition upd_store (n : Node) (bc : Members) (file : option bytes) (lf : raftLogFile) (l : RaftLog) : Node :=
  upd (set_baseConfig bc (set_configPath (Some file) n)) lf l.

Lemma upd_store_id boot n lf L :
  store_ok boot n lf L -> exists file, upd_store n (baseConfig n) file lf (log n) = n.
Proof.
  intros [[_ Hf _] _ _ (file & Hp & _)]. exists file. destruct n. cbn in *. by rewrite Hp, Hf.
Qed.

Section maybe_compact.
Context {boot : Members} {n : Node} {lf : raftLogFile} {L : list logEntry}.
Context (Hok : store_ok boot n lf L) (Hla : baseIndex (log n) <= lastApplied n <= len L).

(** Nothing compacted yet: the log and the configuration are the old ones. *)
Lemma uncompacted bc file lf' :
  raftlogfile.at_path lf' = raftlogfile.contents (log n) ->
  (default boot (config.readBaseConfigFile file)
     = logConfig (take (Z.to_nat (lastApplied n - baseIndex (log n))) (entries (log n))) (baseConfig n)
   \/ default boot (config.readBaseConfigFile file) = baseConfig n) ->
  durable boot (upd_store n bc file lf' (log n)) lf' L (lastApplied n).
Proof.
  intros Hp Hf. exists (log n), lf. destruct (so_logs _ _ _ _ Hok) as [Hr _ Hm]. split_and!; try done; [lia|].
  cbn [upd_store upd config configPath set_log set_logFile set_baseConfig set_configPath].
  rewrite (so_config _ _ _ _ Hok). f_equal. change (default None (Some file)) with file.
  destruct Hf as [->| ->]; [|done]. by rewrite logConfig_folded by apply (so_base _ _ _ _ Hok).
Qed.

(** What [maybeCompactLocked] ends in, whatever fails. *)
Definition compacts (w : World) (r : option (unit * Node * World)) : Prop :=
  exists bc file lf' l w', r = Some (tt, upd_store n bc file lf' l, w')
    /\ out w' = out w
    /\ represents l L /\ baseIndex (log n) <= baseIndex l <= lastApplied n
    /\ config n = Some (logConfig (entries l) bc)
    /\ durable boot (upd_store n bc file lf' l) lf' L (lastApplied n)
    /\ (faults w = [] -> faults w' = [] /\ store_ok boot (upd_store n bc file lf' l) lf' L
          /\ (0 < SnapshotThreshold (cfg n) <= len (entries (log n)) -> baseIndex l = lastApplied n)).

Lemma not_compacted w :
  (0 < SnapshotThreshold (cfg n) <= len (entries (log n)) -> baseIndex (log n) = lastApplied n) ->
  compacts w (Some (tt, n, w)).
Proof.
  intros Hb. pose proof (logs_rep _ _ _ (so_logs _ _ _ _ Hok)).
  destruct (upd_store_id boot n lf L Hok) as [file Hid].
  exists (baseConfig n), file, lf, (log n), w. rewrite Hid. split_and!; try done; [lia|apply Hok|].
  destruct (store_durable boot n lf L Hok) as (lp & lfp & ?). exists lp, lfp. intuition lia.
Qed.

Lemma maybeCompact_run w : compacts w (maybeCompactLocked n w).
Proof.
  pose proof (logs_rep _ _ _ (so_logs _ _ _ _ Hok)) as Hr.
  unfold maybeCompactLocked. rewrite !bind_gets.
  destruct (decide _) as [Hth|Hth]; [apply not_compacted; lia|].
  destruct (decide _) as [Hle|Hle]; [apply not_compacted; lia|].
  assert (baseIndex (log n) < lastApplied n <= len L) as Hi by lia.
  erewrite bind_expr by (apply (rep_term_at Hr); lia).
  destruct (foldBaseConfig_run Hok (lastApplied n) Hi w) as (ok & file & bc & w1 & E1 & Ho1 & Hbc & Hfile & Hw1).
  rewrite (bind_run _ _ _ _ _ _ _ E1). destruct ok; cbn [negb].
  2:{ exists bc, file, lf, (log n), w1. subst bc. split_and!; try done; [|lia|apply Hok| |].
      - unfold skip, mret, M_ret. do 3 f_equal. destruct (so_logs _ _ _ _ Hok) as [_ Hf _].
        destruct n. cbn in *. by rewrite Hf.
      - apply uncompacted; [|destruct Hfile as [?|[_ ?]]; auto]. destruct (so_logs _ _ _ _ Hok) as [_ _ Hm].
        unfold raftlogfile.at_path. by rewrite (raftlogfile.mir_path _ _ Hm), (raftlogfile.mir_f _ _ Hm).
      - intros Hw. by destruct (Hw1 Hw). }
  destruct (fileCompact_run Hok (lastApplied n) Hi bc (Some file) w1) as (ok & lf' & w2 & E2 & Ho2 & Hlf & Hw2).
  rewrite (bind_run _ _ _ _ _ _ _ E2).
  assert (config n = Some (logConfig (entries (compactTo (log n) (lastApplied n) (full_term L (lastApplied n)))) bc)) as Hcfg.
  { destruct (compacted_log n lf L _ (so_logs _ _ _ _ Hok) Hi) as (_ & _ & _ & -> & _).
    rewrite Hbc, logConfig_drop by apply (so_base _ _ _ _ Hok). apply (so_config _ _ _ _ Hok). }
  set (l' := compactTo _ _ _) in *.
  destruct (compacted_log n lf L _ (so_logs _ _ _ _ Hok) Hi) as (Hr' & Hb' & Ht' & _ & Hoke & Hu1 & Hu2 & Hlen).
  fold l' in Hr', Hb', Ht', Hoke, Hlen. subst bc.
  set (bc := logConfig (take _ _) (baseConfig n)) in *.
  destruct Hfile as [Hfile|[? _]]; [|done].
  assert (forall m, raftlogfile.at_path m = raftlogfile.contents l' ->
            forall k, durable boot (upd_store n bc file m k) m L (lastApplied n)) as Hdur.
  { intros m Hm' k. eexists l', (raftlogfile.MkLogFile _ _ _ _ _ _ _ _ _). split_and!; [exact Hm'| |done|lia|].
    - apply (raftlogfile.mirrors_loaded l' true); [done|by rewrite Hb'|by rewrite Ht'|].
      pose proof (raftlogfile.mir_small _ _ (logs_mirror _ _ _ (so_logs _ _ _ _ Hok))). lia.
    - cbn [upd_store upd config configPath set_log set_logFile set_baseConfig set_configPath].
      change (default None (Some file)) with file. by rewrite Hfile. }
  destruct ok; cbn [negb].
  - exists bc, file, lf', l', w2. split_and!; try (done || lia); [by rewrite Ho2| |].
    + apply Hdur. unfold raftlogfile.at_path.
      by rewrite (raftlogfile.mir_path _ _ Hlf), (raftlogfile.mir_f _ _ Hlf).
    + intros Hw. split; [by apply Hw2, Hw1|]. split; [|done]. split; [by split|exact Hcfg| |by exists file].
      apply logConfig_wf, (so_base _ _ _ _ Hok).
  - exists bc, file, lf', (log n), w2. split_and!; try (done || lia); [by rewrite Ho2| | |].
    + rewrite (so_config _ _ _ _ Hok). f_equal. unfold bc.
      by rewrite logConfig_folded by apply (so_base _ _ _ _ Hok).
    + destruct Hlf as [Hlf|Hlf]; [|by apply Hdur]. apply uncompacted; auto.
    + intros Hw. exfalso. destruct (Hw2 (proj2 (Hw1 Hw))). done.
Qed.

End maybe_compact.
(** ** The apply loop *)

Section apply_loop.
Context {S : Type} {SM : StateMachine S}.

(** Applying a list of entries from an index on. *)
Fixpoint applyAll (s : S) (idx : Z) (es : list logEntry) : option S :=
  match es with
  | [] => Some s
  | e :: es' => s' ← applyOne s idx e; applyAll s' (idx + 1) es'
  end.

(** The entries after [i] up to [j]. *)
Definition entriesBetween (L : list logEntry) (i j : Z) : list logEntry :=
  take (Z.to_nat (j - i)) (drop (Z.to_nat i) L).

Lemma entriesBetween_cons L i j e :
  0 <= i < j -> L !! Z.to_nat i = Some e -> entriesBetween L i j = e :: entriesBetween L (i + 1) j.
Proof.
  intros Hi He. unfold entriesBetween. rewrite (drop_S _ _ _ He).
  replace (Z.to_nat (j - i)) with (Datatypes.S (Z.to_nat (j - (i + 1)))) by lia.
  cbn [take]. do 3 f_equal. lia.
Qed.

Lemma store_ok_lastApplied boot n lf L i : store_ok boot n lf L -> store_ok boot (set_lastApplied i n) lf L.
Proof. intros [[Hr Hf Hm] Hc Hb Hp]. split; [by split|done|done|done]. Qed.

Lemma applyOne_term (s : S) i t e : applyOne s i (MkLogEntry t (e_kind e) (e_bytes e)) = applyOne s i e.
Proof. done. Qed.

(** One iteration with work to do. *)
Lemma applyStep_run boot n lf L (s : S) w e :
  store_ok boot n lf L -> faults w = [] -> installing n = false ->
  baseIndex (log n) <= lastApplied n -> lastApplied n < commitIndex n <= len L ->
  L !! Z.to_nat (lastApplied n) = Some e ->
  match applyOne s (lastApplied n + 1) e with
  | None => applyStep s n w = None
  | Some s' => exists bc file lf' l w',
      let n' := upd_store (set_lastApplied (lastApplied n + 1) n) bc file lf' l in
      applyStep s n w = Some ((s', true), n', w') /\ store_ok boot n' lf' L /\ faults w' = []
      /\ baseIndex (log n) <= baseIndex l <= lastApplied n + 1
  end.
Proof.
  intros Hok Hw Hinst Hla Hci He. pose proof (logs_rep _ _ _ (so_logs _ _ _ _ Hok)) as Hr.
  pose proof (rep_base _ _ Hr). pose proof (rep_small _ _ Hr). pose proof maxPersisted_bound.
  unfold applyStep. rewrite !bind_gets, Hinst. cbn [orb].
  rewrite bool_decide_eq_false_2 by lia.
  assert (u64 (lastApplied n + 1) = lastApplied n + 1) as -> by (apply u64_small; unfold is_u64; lia).
  assert (entry (log n) (lastApplied n + 1) = Some e) as Hentry.
  { rewrite (rep_entry Hr) by lia. rewrite <- He. f_equal. lia. }
  erewrite bind_expr by (unfold entryAt; by rewrite Hentry).
  erewrite bind_expr by (unfold kindAt; by rewrite Hentry).
  destruct (applyOne s (lastApplied n + 1) e) as [s'|] eqn:Ea.
  2:{ unfold mbind, M_bind, expr. by rewrite applyOne_term, Ea. }
  erewrite bind_expr by (rewrite applyOne_term; exact Ea). autorewrite with run.
  set (n1 := set_lastApplied _ n). set (w1 := MkWorld _ _).
  pose proof (store_ok_lastApplied boot n lf L (lastApplied n + 1) Hok) as Hok1. fold n1 in Hok1.
  destruct (maybeCompact_run Hok1 ltac:(cbn; lia) w1) as (bc & file & lf' & l & w' & E & _ & _ & Hb & _ & _ & Hgood).
  destruct (Hgood Hw) as (Hw' & Hok' & _).
  exists bc, file, lf', l, w'. cbv zeta. rewrite (bind_run _ _ _ _ _ _ _ E). by split_and!; try apply Hb.
Qed.

(** The loop, with the backlog as fuel. *)
Lemma applyCommitted_loop_run boot L k : forall n lf (s : S) w,
  store_ok boot n lf L -> faults w = [] -> installing n = false ->
  baseIndex (log n) <= lastApplied n -> lastApplied n <= commitIndex n <= len L ->
  k = Z.to_nat (commitIndex n - lastApplied n) ->
  match applyAll s (lastApplied n + 1) (entriesBetween L (lastApplied n) (commitIndex n)) with
  | None => applyCommitted_loop (Datatypes.S k) s n w = None
  | Some s' => exists bc file lf' l w',
      let n' := upd_store (set_lastApplied (commitIndex n) n) bc file lf' l in
      applyCommitted_loop (Datatypes.S k) s n w = Some (s', n', w')
      /\ store_ok boot n' lf' L /\ faults w' = [] /\ baseIndex (log n) <= baseIndex l <= commitIndex n
  end.
Proof.
  induction k as [|k IH]; intros n lf s w Hok Hw Hinst Hla Hci Hk.
  - assert (commitIndex n = lastApplied n) as Heq by lia. unfold entriesBetween. rewrite <- Hk. cbn [take applyAll].
    destruct (upd_store_id boot n lf L Hok) as [file Hid].
    exists (baseConfig n), file, lf, (log n), w. rewrite Heq.
    assert (upd_store (set_lastApplied (lastApplied n) n) (baseConfig n) file lf (log n) = n) as ->.
    { rewrite <- Hid at 4. by destruct n. }
    cbv zeta. split_and!; try (done || lia).
    cbn [applyCommitted_loop]. rewrite (bind_run _ _ _ _ (s, false) n w); [done|].
    unfold applyStep. rewrite !bind_gets, Hinst, bool_decide_eq_true_2 by lia. done.
  - pose proof (logs_rep _ _ _ (so_logs _ _ _ _ Hok)) as Hr. pose proof (rep_base _ _ Hr).
    destruct (lookup_lt_is_Some_2 L (Z.to_nat (lastApplied n))) as [e He]; [unfold len in *; lia|].
    rewrite (entriesBetween_cons _ _ _ e) by (lia || done). cbn [applyAll].
    pose proof (applyStep_run boot n lf L s w e Hok Hw Hinst Hla ltac:(lia) He) as Hstep.
    cbn [applyCommitted_loop]. destruct (applyOne s (lastApplied n + 1) e) as [s1|]; cbn [mbind option_bind].
    2:{ unfold mbind, M_bind. by rewrite Hstep. }
    destruct Hstep as (bc & file & lf' & l & w1 & E & Hok1 & Hw1 & Hb1).
    rewrite (bind_run _ _ _ _ _ _ _ E). cbn beta iota.
    set (n1 := upd_store _ _ _ _ _) in *.
    pose proof (IH n1 lf' s1 w1 Hok1 Hw1 Hinst ltac:(cbn; lia) ltac:(cbn; lia) ltac:(cbn; lia)) as Hloop.
    change (lastApplied n1) with (lastApplied n + 1) in Hloop. change (commitIndex n1) with (commitIndex n) in Hloop.
    destruct (applyAll s1 _ _) as [s2|]; [|exact Hloop].
    destruct Hloop as (bc' & file' & lf2 & l2 & w2 & E2 & Hok2 & Hw2 & Hb2).
    exists bc', file', lf2, l2, w2. cbv zeta. change (baseIndex (log n1)) with (baseIndex l) in Hb2.
    split; [exact E2|]. split; [exact Hok2|]. split; [done|lia].
Qed.

End apply_loop.
(** One election of the only voter. *)
Lemma lone_election b n L w :
  represents (log n) L -> config n = Some {[id n := true]} -> role n <> Leader ->
  exists n' w', maybeStartElection b n w = Some (tt, n', w')
    /\ represents (log n') L /\ config n' = Some {[id n := true]} /\ role n' <> Leader /\ id n' = id n
    /\ sends (out w') = sends (out w).
Proof.
  intros Hr Hc Hrole. unfold maybeStartElection. rewrite !bind_gets, decide_False by done.
  destruct (installing n); [by exists n, w|].
  assert (inConfigLocked n = true) as -> by (unfold inConfigLocked; rewrite Hc; by rewrite lookup_singleton_eq).
  cbn [negb]. autorewrite with run.
  set (n0 := set_votesReceived 1 _).
  assert (exists ok n1 w1, persistHardStateLocked n0 w = Some (ok, n1, w1) /\ out w1 = out w
            /\ exists f, n1 = set_stateFile f n0) as (ok & n1 & w1 & E & Ho & f & ->).
  { unfold persistHardStateLocked. rewrite bind_gets. destruct (stateFile n0) as [file|] eqn:Hf.
    - rewrite !bind_gets. unfold mbind at 1, M_bind at 1, next_fault.
      destruct (faults w) as [|fl fs]; destruct (config.save _ _ _ _) as [file' ok];
        do 3 eexists; (split; [reflexivity|]); split; try done; by eexists.
    - exists true, n0, w. split_and!; try done. exists None. rewrite <- Hf. by destruct n0. }
  rewrite (bind_run _ _ _ _ _ _ _ E). destruct ok; cbn [negb].
  - autorewrite with run. erewrite bind_expr by (cbn; exact (rep_lastTerm Hr)). autorewrite with run.
    assert (votingPeers (set_stateFile f n0) = []) as ->.
    { unfold votingPeers. cbn [config set_stateFile n0 set_votesReceived set_votedFor set_role set_currentTerm].
      rewrite Hc, map_to_list_singleton. cbn. by rewrite decide_False by auto. }
    cbn [forM]. do 2 eexists. split; [reflexivity|]. split_and!; try done.
    cbn [out]. by rewrite sends_snoc, app_nil_r, Ho.
  - do 2 eexists. split; [reflexivity|]. split_and!; try done. by rewrite Ho.
Qed.

(** ** Properties *)

(** C20. What is committed is applied once, in order and completely: with a
    working disk, [applyCommitted] gives the state machine exactly the entries
    after the applied index up to the commit index, each under its own index
    (configuration entries as bare markers), and stops there; it panics exactly
    when the state machine refuses one of them.  Compacting on the way, it
    leaves the represented log, the file and the configuration as they were,
    and while a snapshot is being installed it does nothing. *)
Theorem apply_committed {S : Type} {SM : StateMachine S} boot n lf L (s : S) w :
  store_ok boot n lf L -> faults w = [] ->
  baseIndex (log n) <= lastApplied n -> lastApplied n <= commitIndex n <= len L ->
  (installing n = true -> applyCommitted s n w = Some (s, n, w))
  /\ (installing n = false ->
      match applyAll s (lastApplied n + 1) (entriesBetween L (lastApplied n) (commitIndex n)) with
      | None => applyCommitted s n w = None
      | Some s' => exists n' lf' w', applyCommitted s n w = Some (s', n', w')
          /\ lastApplied n' = commitIndex n /\ commitIndex n' = commitIndex n
          /\ store_ok boot n' lf' L /\ config n' = config n
          /\ baseIndex (log n) <= baseIndex (log n') <= lastApplied n'
          /\ role n' = role n /\ currentTerm n' = currentTerm n /\ votedFor n' = votedFor n
          /\ applyStep s' n' w' = Some ((s', false), n', w')
      end).
Proof.
  intros Hok Hw Hla Hci. split; intros Hinst; unfold applyCommitted; rewrite bind_gets.
  - cbn [applyCommitted_loop]. rewrite (bind_run _ _ _ _ (s, false) n w); [done|].
    unfold applyStep. rewrite !bind_gets, Hinst. done.
  - pose proof (applyCommitted_loop_run boot L _ n lf s w Hok Hw Hinst Hla Hci eq_refl) as H.
    destruct (applyAll _ _ _) as [s'|]; [|exact H].
    destruct H as (bc & file & lf' & l & w' & E & Hok' & _ & Hb).
    eexists _, lf', w'. split; [exact E|]. split; [done|]. split; [done|]. split; [done|].
    split; [done|]. split; [exact Hb|]. do 3 (split; [done|]).
    unfold applyStep. rewrite !bind_gets. cbn [installing lastApplied commitIndex upd_store upd set_log set_logFile
      set_baseConfig set_configPath set_lastApplied]. by rewrite Hinst, bool_decide_eq_true_2 by lia.
Qed.

(** Compaction loses nothing, whatever fails: it never panics; the log in
    memory goes on representing the same entries, with the same configuration
    newest in it, and is compacted at most up to the applied index; and at
    every point where the node may die, a restart from the files of that moment
    (some of the writes done, some not) comes back with the same entries and
    the same configuration.  If the disk works the two logs stay in step, and
    a log that has reached the threshold is compacted exactly up to the applied
    index. *)
Theorem compaction_keeps_log boot n lf L w :
  store_ok boot n lf L -> baseIndex (log n) <= lastApplied n <= len L ->
  exists n' lf' w', maybeCompactLocked n w = Some (tt, n', w') /\ logFile n' = Some lf'
    /\ represents (log n') L /\ baseIndex (log n) <= baseIndex (log n') <= lastApplied n
    /\ config n' = config n /\ config.deriveConfig (log n') (baseConfig n') = config n
    /\ lastApplied n' = lastApplied n /\ commitIndex n' = commitIndex n
    /\ (forall ps bootstrap c s tail sd recovered,
          config.copyConfig bootstrap = boot -> raftlogfile.torn tail -> lastApplied n <= recovered ->
          exists n2 lf2, buildNode (id n) ps bootstrap c s (Some (raftlogfile.at_path lf' ++ tail)) sd
              (default None (configPath n')) recovered None = Ok n2
            /\ logs n2 lf2 L /\ config n2 = config n)
    /\ (faults w = [] -> store_ok boot n' lf' L
          /\ (0 < SnapshotThreshold (cfg n) <= len (entries (log n)) -> baseIndex (log n') = lastApplied n)).
Proof.
  intros Hok Hla.
  destruct (maybeCompact_run Hok Hla w) as (bc & file & lf' & l & w' & E & _ & Hr & Hb & Hc & Hdur & Hgood).
  eexists _, lf', w'. split; [exact E|]. split; [done|]. split; [exact Hr|]. split; [exact Hb|]. split; [done|].
  split; [by rewrite (deriveConfig_spec Hr), Hc|]. do 2 (split; [done|]). split.
  - intros ps bootstrap c s tail sd recovered Hboot Ht Hrec.
    destruct Hdur as (lp & lfp & -> & Hmp & Hrp & Hbp & Hcp).
    pose proof (buildNode_run boot Hrp Hmp (id n) ps bootstrap c s tail sd
      (default None (configPath (upd_store n bc file lf' l))) recovered Hboot Ht) as Hbuild.
    cbv zeta in Hbuild. rewrite decide_False in Hbuild by lia.
    destruct Hbuild as (n2 & lf2 & E2 & _ & Hl2 & _ & _ & Hc2 & _). exists n2, lf2. split; [exact E2|].
    split; [done|]. rewrite Hc2. by rewrite <- Hcp.
  - intros Hw. destruct (Hgood Hw) as (_ & H1 & H2). by split.
Qed.

(** C21. Restarting is a round trip.  From the files of a node (a torn append at
    the end of the log included) [buildNode] rebuilds its log, its
    configuration and its hard state, and starts as a follower that has applied
    and knows committed exactly what the store recovered; if the store has lost
    entries below the log's base it refuses to start.  If the hard state on
    disk is older than the newest entry of the log, the term is that entry's
    and the vote is forgotten. *)
Theorem restart_recovers boot n lf L ps bootstrap c s tail sd recovered :
  store_ok boot n lf L -> config.copyConfig bootstrap = boot -> raftlogfile.torn tail ->
  let hard := config.openRaftStateFile sd in
  let r := buildNode (id n) ps bootstrap c s (Some (raftlogfile.at_path lf ++ tail)) sd
             (default None (configPath n)) recovered None in
  if decide (recovered < baseIndex (log n)) then r = Err (ErrBelowBase recovered (baseIndex (log n)))
  else exists n' lf', r = Ok n' /\ store_ok boot n' lf' L
    /\ log n' = log n /\ config n' = config n /\ id n' = id n /\ role n' = Follower
    /\ commitIndex n' = recovered /\ lastApplied n' = recovered
    /\ currentTerm n' = Z.max (config.currentTerm hard) (full_term L (len L))
    /\ votedFor n' = (if decide (full_term L (len L) > config.currentTerm hard) then noVote
                      else config.votedFor hard)
    /\ stateFile n' = Some (config.saved (currentTerm n') (votedFor n'))
    /\ (sd = config.saved (currentTerm n) (votedFor n) -> is_u64 (currentTerm n) ->
        - 2 ^ 63 <= votedFor n < 2 ^ 63 -> full_term L (len L) <= currentTerm n ->
        currentTerm n' = currentTerm n /\ votedFor n' = votedFor n).
Proof.
  intros [[Hr Hf Hm] Hcfg Hwf (file & Hp & Hfile)] Hboot Ht hard r. subst r.
  assert (raftlogfile.at_path lf = raftlogfile.contents (log n)) as ->.
  { unfold raftlogfile.at_path. by rewrite (raftlogfile.mir_path _ _ Hm), (raftlogfile.mir_f _ _ Hm). }
  rewrite Hp. change (default None (Some file)) with file.
  pose proof (buildNode_run boot Hr Hm (id n) ps bootstrap c s tail sd file recovered Hboot Ht) as H.
  cbv zeta in H. case_decide; [exact H|]. rewrite Hfile in H.
  destruct H as (n' & lf' & E & Hlog & Hl' & Hbc & Hcp & Hc' & Hrole & Hid & Hci & Hla & _ & _ & Hterm & Hvote & Hst).
  exists n', lf'. split; [exact E|]. split.
  { split; [done|by rewrite Hlog, Hbc|by rewrite Hbc|]. exists file. by rewrite Hbc. }
  split; [done|]. split; [by rewrite Hc'|]. do 7 (split; [done|]).
  intros -> Hu Hv Hlt. subst hard. rewrite config.openRaftStateFile_save in Hterm, Hvote by done.
  cbn [config.currentTerm config.votedFor] in Hterm, Hvote. rewrite decide_False in Hvote by lia. split; [lia|done].
Qed.
(** The elections of [bs] one after the other. *)
Definition elections (bs : list bool) : M unit := forM bs maybeStartElection.

(** A group of one never gets a leader back: the sole voter of a group
    (built from its files, so a follower) wins only when a vote response brings
    its count to the majority, which is 1, but it asks nobody, so no election of
    it makes it leader or sends a message. *)
Theorem lone_voter_never_leads bs : forall n L w,
  represents (log n) L -> config n = Some {[id n := true]} -> role n <> Leader ->
  exists n' w', elections bs n w = Some (tt, n', w')
    /\ role n' <> Leader /\ sends (out w') = sends (out w) /\ majority n' = 1 /\ id n' = id n.
Proof.
  unfold elections. induction bs as [|b bs IH]; intros n L w Hr Hc Hrole; cbn [forM].
  { exists n, w. split_and!; try done. unfold majority. rewrite Hc, map_size_singleton. done. }
  destruct (lone_election b n L w Hr Hc Hrole) as (n1 & w1 & E & Hr1 & Hc1 & Hrole1 & Hid & Hs).
  rewrite (bind_run _ _ _ _ _ _ _ E).
  destruct (IH n1 L w1 Hr1) as (n' & w' & E' & H1 & H2 & H3 & H4); [by rewrite Hid|done|].
  exists n', w'. split_and!; try done; [by rewrite H2|by rewrite H4].
Qed.

(** ** Witnesses *)

(** A state machine that records what it is given. *)
#[local] Instance recorder : StateMachine (list (Z * bytes)) := {
  ApplyEntry s idx b := Some (s ++ [(idx, b)]);
  ApplyControlEntry s idx := Some (s ++ [(idx, [])])
}.

(** Node 1, compacting from one entry on, holding the two entries of
    [reconfig], both committed. *)
Definition demo_built : Node :=
  get_ok election.blank_node (buildNode 1 [0; 1; 2] election.demo_config (MkCfg 0 1) true None None None 0 None).
Definition demo_holding : Node :=
  match handleAppendEntries 0 reconfig_message 0 0 reconfig 2 demo_built (MkWorld [] []) with
  | Some (_, n, _) => n
  | None => demo_built
  end.
Definition demo_holding_file : raftLogFile := default raftlogfile.demo_file (logFile demo_holding).

Lemma demo_store : store_ok election.demo_config demo_holding demo_holding_file reconfig.
Proof.
  split.
  - split; [|vm_compute; reflexivity|].
    + split; vm_compute; done.
    + set (l := log demo_holding).
      assert (demo_holding_file = raftlogfile.MkLogFile (raftlogfile.contents l) (len (raftlogfile.contents l)) None
        true true (baseIndex l) (baseTerm l) (raftlogfile.frameOffsets 24 (entries l)) (len (raftlogfile.contents l)))
        as -> by (vm_compute; reflexivity).
      apply raftlogfile.mirrors_loaded; [|split; by_decide..|by_decide].
      assert (entries l = reconfig) as -> by (vm_compute; reflexivity).
      repeat constructor; vm_compute; done.
  - vm_compute; reflexivity.
  - replace (baseConfig demo_holding) with election.demo_config by (vm_compute; reflexivity). apply election.demo_config_wf.
  - exists None. split; vm_compute; reflexivity.
Qed.

(** Both entries are applied, the log is compacted and the file with it. *)
Lemma apply_committed_witness :
  exists n' lf' w', applyCommitted ([] : list (Z * bytes)) demo_holding (MkWorld [] [])
      = Some ([(1, []); (2, [x61])], n', w')
    /\ lastApplied n' = 2 /\ store_ok election.demo_config n' lf' reconfig.
Proof.
  destruct (apply_committed (S := list (Z * bytes)) election.demo_config demo_holding demo_holding_file reconfig []
              (MkWorld [] []) demo_store) as [_ H].
  - reflexivity.
  - vm_compute; done.
  - split; vm_compute; done.
  - specialize (H ltac:(vm_compute; reflexivity)).
    assert (applyAll ([] : list (Z * bytes)) (lastApplied demo_holding + 1)
              (entriesBetween reconfig (lastApplied demo_holding) (commitIndex demo_holding))
            = Some [(1, []); (2, [x61])]) as E by (vm_compute; reflexivity).
    rewrite E in H. destruct H as (n' & lf' & w' & E' & Hl & _ & Hok & _).
    exists n', lf', w'. split; [exact E'|]. split; [|exact Hok].
    rewrite Hl. vm_compute. reflexivity.
Defined.

(** The same node after applying, whose rename of the compacted file fails
    half way. *)
Lemma compaction_keeps_log_witness :
  exists n' w', maybeCompactLocked (set_lastApplied 2 demo_holding) (MkWorld [None; Some 1%nat] []) = Some (tt, n', w')
    /\ config.deriveConfig (log n') (baseConfig n') = Some (delete 2 election.demo_config)
    /\ represents (log n') reconfig.
Proof.
  destruct (compaction_keeps_log election.demo_config (set_lastApplied 2 demo_holding) demo_holding_file reconfig
    (MkWorld [None; Some 1%nat] [])) as (n' & lf' & w' & E & _ & Hr & _ & _ & Hd & _).
  - apply store_ok_lastApplied, demo_store.
  - split; vm_compute; done.
  - exists n', w'. split; [exact E|]. split; [|exact Hr]. rewrite Hd. vm_compute. reflexivity.
Defined.

Lemma restart_recovers_witness :
  exists n' lf', buildNode 1 [0; 1; 2] election.demo_config (MkCfg 0 1) true
      (Some (raftlogfile.at_path demo_holding_file ++ [])) (config.saved 1 noVote) None 0 None = Ok n'
    /\ store_ok election.demo_config n' lf' reconfig /\ config n' = Some (delete 2 election.demo_config)
    /\ currentTerm n' = 1.
Proof.
  pose proof (restart_recovers election.demo_config demo_holding demo_holding_file reconfig [0; 1; 2]
    election.demo_config (MkCfg 0 1) true [] (config.saved 1 noVote) 0 demo_store) as H.
  specialize (H ltac:(vm_compute; reflexivity) raftlogfile.torn_nil). cbv zeta in H.
  rewrite decide_False in H by (vm_compute; done).
  destruct H as (n' & lf' & E & Hok & _ & Hc & _ & _ & _ & _ & Ht & _).
  exists n', lf'. split; [exact E|]. split; [exact Hok|]. split.
  - rewrite Hc. vm_compute. reflexivity.
  - rewrite Ht. vm_compute. reflexivity.
Defined.
(** A group of one: started for the first time it leads, and built again from
    its files it asks for ten elections in vain. *)
Definition lone_first : Node :=
  get_ok election.blank_node (buildNode 0 [0] (fullConfig 1) election.demo_cfg true None None None 0 None).
Definition lone_again : Node :=
  get_ok election.blank_node
    (buildNode 0 [0] (fullConfig 1) election.demo_cfg true
       (raftlogfile.at_path <$> logFile lone_first) (default None (stateFile lone_first)) None 0 None).

Lemma lone_voter_never_leads_witness :
  role lone_first = Leader
  /\ exists n' w', elections (replicate 10 false) lone_again (MkWorld [] []) = Some (tt, n', w')
       /\ role n' <> Leader /\ sends (out w') = [] /\ majority n' = 1.
Proof.
  split; [vm_compute; reflexivity|].
  destruct (lone_voter_never_leads (replicate 10 false) lone_again [] (MkWorld [] [])) as (n' & w' & E & H1 & H2 & H3 & _).
  - split; vm_compute; done.
  - vm_compute. reflexivity.
  - vm_compute. discriminate.
  - exists n', w'. split; [exact E|]. split; [exact H1|]. split; [exact H2|exact H3].
Defined.


End applied.
