(* ===== verification/RaftRepair.v ===== *)
(** * Repairing a follower's log (internal/cluster/replication.go, cluster.go)

    The leader's replicator and the follower's handler composed: one exchange is
    an AppendEntries, its handling and the handling of the reply.  A follower
    whose log is a prefix of the leader's is brought up to date; one whose log
    ends in entries the leader does not have is not. *)

From Stdlib Require Import ZArith Lia.
From Stdlib Require Import Strings.Byte.
From stdpp Require Import base list gmap sorting.
From S2P Require Import Prelude.
From S2P Require Import RaftLog.
From S2P Require Import RaftConfig.
From S2P Require Import RaftLogFile.
From S2P Require Import RaftNode.
From S2P Require Import RaftRun.
From S2P Require Import RaftElection.
From S2P Require Import RaftFollower.
From S2P Require Import RaftApply.

#[local] Open Scope Z_scope.

Module repair.
Import raftlog node run follower applied.

Definition quiet_world : World := MkWorld [] [].

Definition last_sent (w : World) : option Message := snd <$> last (election.sends (out w)).

(** One round of the replicator for [p], with working disks and no loss; [None]
    is a panic of either node. *)
Definition exchange (p : NodeID) (now : Z) (ld fo : Node) : option (Node * Node) :=
  '(s, ld, w) ← sendRound p ld quiet_world;
  match s with
  | Sent r =>
      request ← last_sent w;
      '(_, fo, w) ← dispatch now request fo quiet_world;
      answer ← last_sent w;
      '(_, ld, _) ← onReply p r answer ld quiet_world;
      Some (ld, fo)
  | _ => Some (ld, fo)
  end.

Fixpoint exchanges (k : nat) (p : NodeID) (now : Z) (ld fo : Node) : option (Node * Node) :=
  match k with
  | O => Some (ld, fo)
  | S k' => '(ld, fo) ← exchange p now ld fo; exchanges k' p now ld fo
  end.

(** ** The leader's round *)

Lemma entriesRange_spec l L k : represents l L -> forall i,
  baseIndex l < i -> i + Z.of_nat k <= len L + 1 ->
  entriesRange k l i = Some (take k (drop (Z.to_nat (i - 1)) L)).
Proof.
  intros Hr. pose proof (rep_small _ _ Hr). pose proof maxPersisted_bound. pose proof (rep_base _ _ Hr).
  induction k as [|k IH]; intros i Hi Hk; [done|]. cbn [entriesRange].
  rewrite (rep_term_at Hr) by lia. destruct (rep_lookup (L := L) i) as (e & He & Ht); [lia|].
  unfold kindAt, entryAt. rewrite (rep_entry Hr), He by lia. cbn [mbind option_bind fmap option_fmap option_map].
  rewrite IH by lia. cbn [mbind option_bind]. replace (Z.to_nat (i + 1 - 1)) with (S (Z.to_nat (i - 1))) by lia.
  rewrite (drop_S L e (Z.to_nat (i - 1))) by done. cbn [take]. rewrite Ht. by destruct e.
Qed.

Section sender.
Context {ld : Node} {L : list logEntry} (Hr : represents (log ld) L) (Hrole : role ld = Leader).

(** The round from [next] on ships the rest of the log. *)
Definition round_of (p : NodeID) : Round :=
  let prev := default 0 (nextIndex ld !! p) - 1 in
  MkRound (currentTerm ld) prev (len (drop (Z.to_nat prev) L)).

Definition request_of (p : NodeID) : Message :=
  let prev := default 0 (nextIndex ld !! p) - 1 in
  MkMessage (id ld) (currentTerm ld)
    (MsgAppendEntries prev (full_term L prev) (drop (Z.to_nat prev) L) (commitIndex ld)).

Lemma sendRound_run p w :
  baseIndex (log ld) < default 0 (nextIndex ld !! p) <= len L + 1 ->
  sendRound p ld w = Some (Sent (round_of p), ld, MkWorld (faults w) (out w ++ [Send p (request_of p)])).
Proof.
  intros Hn. pose proof (rep_base _ _ Hr). pose proof (rep_small _ _ Hr). pose proof maxPersisted_bound.
  unfold round_of, request_of. set (next := default 0 _) in *. cbv zeta.
  assert (u64 (next - 1) = next - 1) as Hu by (apply u64_small; unfold is_u64; lia).
  unfold sendRound. rewrite bind_gets, decide_False by tauto.
  rewrite !bind_gets. fold next. rewrite Hu, decide_False by lia. rewrite !bind_gets. cbv zeta.
  erewrite bind_expr by (apply (rep_term_at Hr); lia).
  rewrite (rep_lastIndex Hr).
  erewrite bind_expr by (apply (entriesRange_spec _ _ _ Hr); lia).
  rewrite !bind_gets.
  rewrite take_ge by (rewrite length_drop; unfold len in *; lia).
  unfold mbind, M_bind. rewrite run_send. done.
Qed.

(** Past the end of the log there is no entry to name: the round panics. *)
Lemma sendRound_panics p w :
  len L + 1 < default 0 (nextIndex ld !! p) < 2 ^ 64 -> sendRound p ld w = None.
Proof.
  intros Hn. pose proof (rep_base _ _ Hr). set (next := default 0 _) in *.
  assert (u64 (next - 1) = next - 1) as Hu by (apply u64_small; unfold is_u64; lia).
  unfold sendRound. rewrite bind_gets, decide_False by tauto.
  rewrite !bind_gets. fold next. rewrite Hu, decide_False by lia. rewrite !bind_gets. cbv zeta.
  unfold mbind, M_bind, expr. rewrite (rep_term_out Hr); [done|unfold is_u64; lia|lia].
Qed.

End sender.

(** ** One exchange *)

(** A leader with log [L] and a follower with log [F], both in good order. *)
Record paired (boot : Members) (ld fo : Node) (L F : list logEntry) : Prop := {
  pr_role : role ld = Leader;
  pr_leader : exists lf, store_ok boot ld lf L;
  pr_follower : exists lf, logs fo lf F;
  pr_config : config fo = Some (logConfig (entries (log fo)) (baseConfig fo));
  pr_term : currentTerm fo <= currentTerm ld;
  pr_entries : Forall raftlogfile.entry_ok L;
  pr_small : len F + len L < maxPersisted;
  pr_bytes : len (raftlogfile.contents (log fo)) + len (raftlogfile.frames L) < 2 ^ 63
}.

Lemma store_ok_same boot n n' lf L :
  log n' = log n -> logFile n' = logFile n -> config n' = config n -> baseConfig n' = baseConfig n ->
  configPath n' = configPath n -> store_ok boot n lf L -> store_ok boot n' lf L.
Proof.
  intros E1 E2 E3 E4 E5 [Hl Hc Hb Hp]. split; rewrite ?E1, ?E3, ?E4, ?E5; [|done..].
  by apply (logs_same n).
Qed.

Lemma paired_rep boot ld fo L F : paired boot ld fo L F -> represents (log ld) L /\ represents (log fo) F.
Proof.
  intros [_ (lf & Hok) (lf' & Hl) _ _ _ _ _]. split; [apply (so_logs _ _ _ _ Hok)|apply Hl].
Qed.

(** Whether the follower's log holds the entry before [next]. *)
Definition agrees (L F : list logEntry) (next : Z) : Prop :=
  next - 1 <= len F /\ full_term F (next - 1) = full_term L (next - 1).

#[export] Instance agrees_dec L F next : Decision (agrees L F next).
Proof. unfold agrees. apply _. Defined.

(** What follows does not need [next] to be inside the compacted prefix of
    either side: there the leader sends a snapshot, and the follower trusts it. *)
Definition in_reach (ld fo : Node) (L : list logEntry) (next : Z) : Prop :=
  baseIndex (log ld) < next <= len L + 1 /\ baseIndex (log fo) <= next - 1.

Section exchange.
Context {boot : Members} {ld fo : Node} {L F : list logEntry} (Hpair : paired boot ld fo L F).
Context (p : NodeID) (now : Z).
Notation next := (default 0 (nextIndex ld !! p)).
Context (Hreach : in_reach ld fo L next).

(** The follower's handling of the request. *)
Lemma request_handled :
  exists fo' w', dispatch now (request_of (ld := ld) (L := L) p) fo quiet_world = Some (tt, fo', w')
    /\ config fo' = Some (logConfig (entries (log fo')) (baseConfig fo'))
    /\ currentTerm fo' = currentTerm ld /\ baseIndex (log fo') = baseIndex (log fo)
    /\ if decide (agrees L F next) then
         (exists lf', logs fo' lf' (merge (baseIndex (log fo)) F next (drop (Z.to_nat (next - 1)) L)))
         /\ last_sent w' = Some (MkMessage (id fo) (currentTerm ld) (MsgAppendResponse true (len L) 0))
       else
         (exists lf', logs fo' lf' F) /\ log fo' = log fo
         /\ last_sent w' = Some (MkMessage (id fo) (currentTerm ld) (MsgAppendResponse false 0 (len F + 1))).
Proof.
  destruct Hpair as [_ _ (lf & Hl) Hc Ht Hent Hsm Hby]. destruct Hreach as [Hn Hb].
  destruct (paired_rep _ _ _ _ _ Hpair) as [HrL HrF]. pose proof (rep_base _ _ HrL). pose proof (rep_small _ _ HrL).
  pose proof maxPersisted_bound. unfold dispatch, request_of. cbn [body].
  assert (len (drop (Z.to_nat (next - 1)) L) = len L - (next - 1)) as Hlen by (apply len_drop; lia).
  assert (len (raftlogfile.frames (drop (Z.to_nat (next - 1)) L)) <= len (raftlogfile.frames L)) as Hfr
    by apply raftlogfile.len_frames_drop.
  destruct (handle_current now (MkMessage (id ld) (currentTerm ld)
      (MsgAppendEntries (next - 1) (full_term L (next - 1)) (drop (Z.to_nat (next - 1)) L) (commitIndex ld)))
    (next - 1) (full_term L (next - 1)) (drop (Z.to_nat (next - 1)) L) (commitIndex ld) fo lf F quiet_world)
    as (fo' & w' & E & Hc' & Ht' & _ & _ & _ & Hb' & Hm); try done.
  { unfold is_u64. lia. }
  { by apply Forall_drop. }
  { lia. }
  { lia. }
  cbn [From Term] in *. exists fo', w'. split; [exact E|]. split; [done|]. split; [done|]. split; [done|].
  replace (next - 1 + 1) with next in Hm by lia. destruct (decide (agrees L F next)) as [Hd|Hd].
  - rewrite decide_True in Hm by (right; done). destruct Hm as (Hl' & _ & Hs). split; [done|].
    unfold last_sent. rewrite Hs. cbn. by replace (next - 1 + _) with (len L) by lia.
  - rewrite decide_False in Hm by (intros [?|?]; [lia|done]). destruct Hm as (Hl' & El & _ & Hs).
    split; [by exists lf|]. split; [done|]. unfold last_sent. by rewrite Hs.
Qed.

(** A follower that lacks the entry before [next]: nothing moves but [next]. *)

(** A follower that lacks the entry before [next]: nothing moves but [next]. *)
Lemma exchange_refused : ~ agrees L F next ->
  exists fo', exchange p now ld fo = Some (set_nextIndex (<[p := len F + 1]> (nextIndex ld)) ld, fo')
    /\ log fo' = log fo /\ paired boot (set_nextIndex (<[p := len F + 1]> (nextIndex ld)) ld) fo' L F.
Proof.
  intros Hd. destruct request_handled as (fo' & w' & E & Hc & Ht & _ & Hm). rewrite decide_False in Hm by done.
  destruct Hm as (Hl & El & Hs). destruct (paired_rep _ _ _ _ _ Hpair) as [HrL HrF].
  destruct Hpair as [Hrole (lfl & Hok) _ _ _ Hent Hsm Hby]. destruct Hreach as [Hn Hb].
  exists fo'. split; [|split; [done|]].
  - unfold exchange. rewrite (sendRound_run HrL Hrole) by done. cbn [mbind option_bind].
    assert (forall m, last_sent (MkWorld [] [Send p m]) = Some m) as Hlast by done.
    cbn [out faults quiet_world app]. rewrite Hlast. cbn [mbind option_bind].
    rewrite E. cbn [mbind option_bind]. rewrite Hs. cbn [mbind option_bind].
    unfold onReply. rewrite !bind_gets. cbn [Term body respSuccess respHint rd_term round_of].
    rewrite decide_False by lia. rewrite bind_gets, decide_False by tauto. autorewrite with run.
    unfold onAppendRejectLocked. pose proof (len_nonneg F). rewrite decide_False by lia. done.
  - split; try done.
    + exists lfl. by apply (store_ok_same _ ld).
    + by rewrite Ht.
    + by rewrite El.
Qed.

End exchange.

(** ** The leader's handling of an acknowledgement *)

(** What the leader believes a peer holds is in its own log. *)
Definition matches_held (n : Node) (L : list logEntry) : Prop := map_Forall (fun _ m => m <= len L) (matchIndex n).

Lemma leader_advance_run n L w :
  represents (log n) L -> matches_held n L -> baseIndex (log n) <= commitIndex n ->
  exists n' w', maybeAdvanceCommitLocked n w = Some (tt, n', w') /\ faults w' = faults w
    /\ exists i, commitIndex n <= i /\ n' = set_commitIndex i n.
Proof.
  intros Hr Hm Hb. unfold maybeAdvanceCommitLocked. rewrite bind_gets.
  assert (exists i, commitIndex n <= i /\ n = set_commitIndex i n) as Hsame
    by (exists (commitIndex n); split; [lia|by destruct n]).
  destruct (_ !! _) as [cand|] eqn:Hc; [|by exists n, w].
  assert (cand <= len L) as Hcand.
  { assert (cand ∈ commitVals n) as Hin
      by (rewrite <- (merge_sort_Permutation Z.ge (commitVals n)); by eapply list_elem_of_lookup_2).
    unfold commitVals in Hin. apply elem_of_app in Hin as [Hin|Hin].
    - rewrite (rep_lastIndex Hr) in Hin. destruct (inConfigLocked n); [|by apply elem_of_nil in Hin].
      apply list_elem_of_singleton in Hin as ->. lia.
    - apply list_elem_of_fmap in Hin as (q & -> & _). destruct (matchIndex n !! q) as [m|] eqn:E; cbn.
      + exact (Hm q m E).
      + apply len_nonneg. }
  rewrite bind_gets. case_decide as Hgt; [|by exists n, w].
  erewrite bind_expr by (apply (rep_term_at Hr); lia). rewrite bind_gets. case_decide; [|by exists n, w].
  autorewrite with run. eexists _, _. split; [reflexivity|]. split; [done|]. exists cand. split; [lia|done].
Qed.

Lemma onReply_success boot n lf L p r resp w :
  store_ok boot n lf L -> role n = Leader -> rd_term r = currentTerm n -> Term resp <= currentTerm n ->
  respSuccess (body resp) = true -> rd_prevLogIndex r + rd_count r = len L -> faults w = [] ->
  matches_held n L -> baseIndex (log n) <= commitIndex n -> baseIndex (log n) <= lastApplied n <= len L ->
  exists b n' lf' w', onReply p r resp n w = Some (b, n', w') /\ faults w' = []
    /\ store_ok boot n' lf' L /\ role n' = Leader /\ currentTerm n' = currentTerm n
    /\ default 0 (matchIndex n' !! p) = len L /\ nextIndex n' !! p = Some (len L + 1)
    /\ commitIndex n <= commitIndex n'.
Proof.
  intros Hok Hrole Hterm Hle Hs Hsum Hw Hm Hci Hla. pose proof (so_logs _ _ _ _ Hok) as Hl.
  pose proof (logs_rep _ _ _ Hl) as Hr. pose proof (rep_small _ _ Hr). pose proof maxPersisted_bound.
  pose proof (len_nonneg L). unfold onReply. rewrite bind_gets, decide_False by lia.
  rewrite bind_gets, decide_False by (rewrite Hrole; intros [?|?]; [done|congruence]).
  rewrite Hs. rewrite bind_modify. rewrite Hsum, (u64_small (len L)) by (unfold is_u64; lia).
  set (m' := if decide (len L > default 0 (matchIndex n !! p)) then <[p := len L]> (matchIndex n) else matchIndex n).
  assert (default 0 (m' !! p) = len L) as Hmp.
  { unfold m'. case_decide as E; [by rewrite lookup_insert_eq|]. destruct (matchIndex n !! p) as [x|] eqn:Ex; cbn in *; [|unfold Datatypes.id in *; lia].
    specialize (Hm p x Ex). cbn in Hm. unfold Datatypes.id in *. lia. }
  assert (onAppendSuccessLocked p (len L) n = set_nextIndex (<[p := len L + 1]> (nextIndex n)) (set_matchIndex m' n)) as ->.
  { unfold onAppendSuccessLocked. cbv zeta. fold m'. by rewrite Hmp, u64_small by (unfold is_u64; lia). }
  set (n1 := set_nextIndex _ _).
  assert (store_ok boot n1 lf L) as Hok1 by (by apply (store_ok_same _ n)).
  assert (matches_held n1 L) as Hm1.
  { unfold matches_held, n1. cbn [matchIndex set_nextIndex set_matchIndex]. unfold m'. case_decide; [|done].
    by apply map_Forall_insert_2. }
  destruct (leader_advance_run n1 L w Hr Hm1 Hci) as (n2 & w2 & E2 & Hw2 & i & Hi & ->).
  rewrite (bind_run _ _ _ _ _ _ _ E2).
  assert (store_ok boot (set_commitIndex i n1) lf L) as Hok2 by (by apply (store_ok_same _ n1)).
  destruct (maybeCompact_run Hok2 Hla w2) as (bc & file & lf' & l & w3 & E3 & _ & _ & _ & _ & _ & Hgood).
  destruct Hgood as (Hw3 & Hok3 & _); [by rewrite Hw2|].
  rewrite (bind_run _ _ _ _ _ _ _ E3). unfold gets. do 4 eexists. split; [reflexivity|]. split; [exact Hw3|].
  split; [exact Hok3|]. split; [exact Hrole|]. split; [done|]. split; [exact Hmp|]. split; [|exact Hi].
  apply lookup_insert_eq.
Qed.

(** Merging what follows [i] of the leader's log into a prefix of it. *)
Lemma merge_prefix base L F : F `prefix_of` L -> base <= len F ->
  forall i, 1 <= i <= len F + 1 -> merge base F i (drop (Z.to_nat (i - 1)) L) = L.
Proof.
  intros [T ->] Hb i Hi. remember (Z.to_nat (len F + 1 - i)) as k eqn:Hk.
  revert i Hi Hk. induction k as [|k IH]; intros i Hi Hk.
  - assert (i = len F + 1) as -> by lia. rewrite merge_end by lia. f_equal.
    replace (Z.to_nat (len F + 1 - 1)) with (length F) by (unfold len; lia). apply drop_app_length.
  - assert (Z.to_nat (i - 1) < length F)%nat as Hlt by (unfold len in *; lia).
    destruct (lookup_lt_is_Some_2 F (Z.to_nat (i - 1)) Hlt) as [e He].
    rewrite (drop_S _ e) by by apply lookup_app_l_Some. cbn [merge].
    rewrite decide_True.
    + replace (S (Z.to_nat (i - 1))) with (Z.to_nat (i + 1 - 1)) by lia. apply IH; lia.
    + right. split; [lia|]. unfold full_term. rewrite decide_False by lia. by rewrite He.
Qed.

Lemma prefix_agrees L F next : F `prefix_of` L -> 1 <= next <= len F + 1 -> agrees L F next.
Proof.
  intros [T ->] Hn. split; [lia|]. unfold full_term. case_decide; [done|].
  rewrite lookup_app_l; [done|]. unfold len in Hn. lia.
Qed.

Section accepted.
Context {boot : Members} {ld fo : Node} {L F : list logEntry} (Hpair : paired boot ld fo L F).
Context (p : NodeID) (now : Z).
Notation next := (default 0 (nextIndex ld !! p)).
Context (Hreach : in_reach ld fo L next) (Hpre : F `prefix_of` L).
Context (Hheld : matches_held ld L) (Hci : baseIndex (log ld) <= commitIndex ld)
        (Hla : baseIndex (log ld) <= lastApplied ld <= len L).

(** What a completed repair leaves: the follower has the leader's log and the
    leader knows it. *)
Definition repaired (ld' fo' : Node) : Prop :=
  (exists lf', logs fo' lf' L) /\ config fo' = Some (logConfig (entries (log fo')) (baseConfig fo'))
  /\ role ld' = Leader /\ (exists lf', store_ok boot ld' lf' L)
  /\ default 0 (matchIndex ld' !! p) = len L /\ nextIndex ld' !! p = Some (len L + 1)
  /\ commitIndex ld <= commitIndex ld'.

Lemma exchange_accepted : next <= len F + 1 ->
  exists ld' fo', exchange p now ld fo = Some (ld', fo') /\ repaired ld' fo'.
Proof.
  intros Hnext. destruct (paired_rep _ _ _ _ _ Hpair) as [HrL HrF].
  destruct (request_handled Hpair p now Hreach) as (fo' & w' & E & Hc & Ht & Hb' & Hm).
  destruct Hpair as [Hrole (lfl & Hok) _ _ _ _ _ _]. destruct Hreach as [Hn Hb].
  pose proof (rep_base _ _ HrL). pose proof (rep_base _ _ HrF).
  rewrite decide_True in Hm by (apply prefix_agrees; [done|lia]). destruct Hm as (Hl & Hs).
  rewrite (merge_prefix _ L F) in Hl by (done || lia).
  assert (len (drop (Z.to_nat (next - 1)) L) = len L - (next - 1)) as Hlen by (apply len_drop; lia).
  destruct (onReply_success boot ld lfl L p (round_of (ld := ld) (L := L) p)
              (MkMessage (id fo) (currentTerm ld) (MsgAppendResponse true (len L) 0)) quiet_world)
    as (b & ld' & lf' & w2 & E2 & _ & Hok' & Hrole' & _ & Hma & Hni & Hco); try done.
  { cbn [round_of rd_prevLogIndex rd_count]. lia. }
  exists ld', fo'. split.
  - unfold exchange. rewrite (sendRound_run HrL Hrole) by done. cbn [mbind option_bind].
    assert (forall m, last_sent (MkWorld [] [Send p m]) = Some m) as Hlast by done.
    cbn [out faults quiet_world app]. rewrite Hlast. cbn [mbind option_bind].
    rewrite E. cbn [mbind option_bind]. rewrite Hs. cbn [mbind option_bind]. by rewrite E2.
  - split; [done|]. split; [done|]. split; [done|]. split; [by exists lf'|]. done.
Qed.

End accepted.

(** ** Properties *)

(** C28. Repair of a lagging follower.  A follower whose log is a prefix of the
    leader's (not so short that the rest has been compacted away) is brought up
    to date by at most two exchanges, wherever the leader's next index for it
    stands: one that finds it too far ahead, and one that ships what is missing.
    Then the follower's log, in memory and on disk, is the leader's, its
    configuration is the newest one in it, and the leader knows that it matches
    to the end and has not lowered its commit index. *)
Theorem lagging_follower_repaired boot ld fo L F p now :
  paired boot ld fo L F -> F `prefix_of` L ->
  in_reach ld fo L (default 0 (nextIndex ld !! p)) -> baseIndex (log ld) <= len F ->
  matches_held ld L -> baseIndex (log ld) <= commitIndex ld -> baseIndex (log ld) <= lastApplied ld <= len L ->
  exists k ld' fo', (k <= 2)%nat /\ exchanges k p now ld fo = Some (ld', fo')
    /\ repaired (boot := boot) (ld := ld) (L := L) p ld' fo'.
Proof.
  intros Hpair Hpre Hreach Hb Hheld Hci Hla. destruct (decide (default 0 (nextIndex ld !! p) <= len F + 1)) as [Hn|Hn].
  - destruct (exchange_accepted Hpair p now Hreach Hpre Hheld Hci Hla Hn) as (ld' & fo' & E & H).
    exists 1%nat, ld', fo'. split; [lia|]. split; [|done]. cbn [exchanges]. by rewrite E.
  - destruct (exchange_refused Hpair p now Hreach) as (fo1 & E1 & El & Hpair1); [intros [? _]; lia|].
    set (ld1 := set_nextIndex _ ld) in *.
    assert (default 0 (nextIndex ld1 !! p) = len F + 1) as Hn1 by (unfold ld1; cbn; by rewrite lookup_insert_eq).
    pose proof (prefix_length _ _ Hpre). destruct (paired_rep _ _ _ _ _ Hpair) as [_ HrF]. pose proof (rep_base _ _ HrF).
    destruct (exchange_accepted Hpair1 p now) as (ld' & fo' & E & H'); try done; rewrite ?Hn1; [|lia|].
    { unfold in_reach. rewrite El. unfold ld1, len in *. cbn [log set_nextIndex]. lia. }
    exists 2%nat, ld', fo'. split; [lia|]. split; [|exact H']. cbn [exchanges]. rewrite E1. cbn [mbind option_bind].
    by rewrite E.
Qed.

(** Divergence: each further exchange finds the two nodes as it left them. *)
Lemma exchanges_stuck boot p now L F k : forall ld fo,
  paired boot ld fo L F -> in_reach ld fo L (default 0 (nextIndex ld !! p)) ->
  ~ agrees L F (default 0 (nextIndex ld !! p)) -> baseIndex (log ld) <= len F <= len L ->
  full_term F (len F) <> full_term L (len F) ->
  exists ld' fo', exchanges (S k) p now ld fo = Some (ld', fo')
    /\ log fo' = log fo /\ log ld' = log ld /\ commitIndex ld' = commitIndex ld /\ matchIndex ld' = matchIndex ld
    /\ nextIndex ld' !! p = Some (len F + 1).
Proof.
  induction k as [|k IH]; intros ld fo Hpair Hreach Hd Hlen Hne;
    destruct (exchange_refused Hpair p now Hreach Hd) as (fo1 & E1 & El & Hpair1); cbn [exchanges];
    rewrite E1; cbn [mbind option_bind].
  - eexists _, fo1. split; [done|]. split; [done|]. do 3 (split; [done|]). apply lookup_insert_eq.
  - set (ld1 := set_nextIndex _ ld) in *.
    assert (default 0 (nextIndex ld1 !! p) = len F + 1) as Hn1 by (unfold ld1; cbn; by rewrite lookup_insert_eq).
    destruct (paired_rep _ _ _ _ _ Hpair) as [_ HrF]. pose proof (rep_base _ _ HrF).
    destruct (IH ld1 fo1 Hpair1) as (ld' & fo' & E & H1 & H2 & H3 & H4 & H5); rewrite ?Hn1; try done.
    + unfold in_reach. rewrite El. unfold ld1. cbn [log set_nextIndex]. lia.
    + intros [_ Hf]. by replace (len F + 1 - 1) with (len F) in Hf by lia.
    + exists ld', fo'. split; [exact E|]. split; [by rewrite H1|]. done.
Qed.

(** A diverged follower is never repaired.  The hint of a refusal is the end
    of the follower's own log, whatever the leader tried before.  So if the
    follower's last entry is not the leader's (it was appended under a leader
    that lost its term before committing it), then either the follower's log
    is longer and the leader, sent past the end of its own, panics in its next
    round; or the leader asks for the same entry for ever and is refused: after
    any number of exchanges neither log has changed and the leader knows of no
    entry the follower holds. *)
Theorem diverged_follower_stuck boot ld fo L F p now :
  paired boot ld fo L F -> in_reach ld fo L (default 0 (nextIndex ld !! p)) ->
  ~ agrees L F (default 0 (nextIndex ld !! p)) -> baseIndex (log ld) <= len F ->
  (len L < len F ->
     exists ld' fo', exchange p now ld fo = Some (ld', fo') /\ log fo' = log fo
       /\ forall w, sendRound p ld' w = None)
  /\ (len F <= len L -> full_term F (len F) <> full_term L (len F) -> forall k,
        exists ld' fo', exchanges (S k) p now ld fo = Some (ld', fo')
          /\ log fo' = log fo /\ log ld' = log ld /\ commitIndex ld' = commitIndex ld
          /\ matchIndex ld' = matchIndex ld /\ nextIndex ld' !! p = Some (len F + 1)).
Proof.
  intros Hpair Hreach Hd Hb. destruct (paired_rep _ _ _ _ _ Hpair) as [HrL HrF]. split.
  - intros Hlen. destruct (exchange_refused Hpair p now Hreach Hd) as (fo' & E & El & Hpair').
    eexists _, fo'. split; [exact E|]. split; [done|]. intros w. destruct Hpair' as [Hrole _ _ _ _ _ _ _].
    apply (sendRound_panics (L := L)); [done|done|]. cbn [nextIndex set_nextIndex]. rewrite lookup_insert_eq.
    cbn [default from_option]. unfold Datatypes.id. pose proof (rep_small _ _ HrF). pose proof maxPersisted_bound. lia.
  - intros Hle Hne k. by apply (exchanges_stuck boot _ _ L F).
Qed.

(** ** Witnesses *)

(** An election [cand] wins with the vote of [voter]. *)
Definition elect (cand voter : Node) : option (Node * Node) :=
  '(_, cand, w) ← maybeStartElection false cand quiet_world;
  '(_, request) ← head (filter (fun e => e.1 = id voter) (election.sends (out w)));
  '(_, voter, w) ← dispatch 0 request voter quiet_world;
  answer ← last_sent w;
  '(_, cand, _) ← dispatch 0 answer cand quiet_world;
  Some (cand, voter).

Definition proposes (n : Node) (data : bytes) : option Node :=
  '(_, n, _) ← propose (currentTerm n) EntryData data n quiet_world; Some n.

(** Node 0 leads term 1 and appends entries nobody receives; node 1 leads term 2
    and brings an entry to node 2; node 2 leads term 3 by the vote of node 1,
    and node 0 comes back. *)
Definition comeback (lost : list bytes) : option (Node * Node) :=
  n0 ← foldl (fun n b => n ← n; proposes n b) (Some (election.demo_node 0)) lost;
  '(n1, n2) ← elect (election.demo_node 1) (election.demo_node 2);
  n1 ← proposes n1 [x64];
  '(n1, n2) ← exchange 2 0 n1 n2;
  '(n2, _) ← elect n2 n1;
  Some (n2, n0).

Definition back_leader : Node := default election.blank_node (fst <$> comeback [[x61]; [x62]]).
Definition back_follower : Node := default election.blank_node (snd <$> comeback [[x61]; [x62]]).
Definition back_log : list logEntry := [MkLogEntry 2 EntryData [x64]].
Definition lost_log : list logEntry := [MkLogEntry 1 EntryData [x61]; MkLogEntry 1 EntryData [x62]].

(** A node whose files were only ever appended to. *)
Lemma logs_computed n L :
  log n = MkRaftLog 0 0 L -> len L <= maxPersisted -> Forall raftlogfile.entry_ok L ->
  len (raftlogfile.contents (log n)) < 2 ^ 63 ->
  logFile n = Some (raftlogfile.MkLogFile (raftlogfile.contents (log n)) (len (raftlogfile.contents (log n))) None true true
                      0 0 (raftlogfile.frameOffsets 24 L) (len (raftlogfile.contents (log n)))) ->
  exists lf, logs n lf L.
Proof.
  intros El Hs Hok Hlt Hf. eexists. split; [|exact Hf|].
  - rewrite El. split; cbn; [pose proof (len_nonneg L); lia|done|done|done].
  - rewrite El in *. apply (raftlogfile.mirrors_loaded (MkRaftLog 0 0 L)); try done; split; by_decide.
Qed.

Lemma store_computed n L :
  (exists lf, logs n lf L) -> config n = Some (logConfig (entries (log n)) (baseConfig n)) ->
  baseConfig n = election.demo_config -> configPath n = Some None -> exists lf, store_ok election.demo_config n lf L.
Proof.
  intros (lf & Hl) Hc Hb Hp. exists lf. split; try done.
  - rewrite Hb. apply election.demo_config_wf.
  - exists None. split; [done|]. by rewrite Hb.
Qed.

Lemma paired_computed ld fo L F :
  role ld = Leader -> (exists lf, logs ld lf L) -> (exists lf, logs fo lf F) ->
  config ld = Some (logConfig (entries (log ld)) (baseConfig ld)) -> baseConfig ld = election.demo_config ->
  configPath ld = Some None -> config fo = Some (logConfig (entries (log fo)) (baseConfig fo)) ->
  currentTerm fo <= currentTerm ld -> Forall raftlogfile.entry_ok L -> len F + len L < maxPersisted ->
  len (raftlogfile.contents (log fo)) + len (raftlogfile.frames L) < 2 ^ 63 ->
  paired election.demo_config ld fo L F.
Proof.
  intros Hr Hl Hf Hc Hb Hp Hcf Ht Hok Hs Hby. split; try done. by apply store_computed.
Qed.

#[local] Ltac run_logs := apply logs_computed;
  [vm_compute; reflexivity|by_decide|repeat constructor; vm_compute; done|vm_compute; done|vm_compute; reflexivity].
#[local] Ltac run_pair := apply paired_computed;
  [vm_compute; reflexivity|run_logs|run_logs|vm_compute; reflexivity..|vm_compute; discriminate
  |repeat constructor; vm_compute; done|vm_compute; reflexivity|vm_compute; reflexivity].

Lemma back_paired : paired election.demo_config back_leader back_follower back_log lost_log.
Proof. run_pair. Qed.

(** The leader of term 3 panics in the round after the refusal. *)
Lemma diverged_follower_stuck_witness :
  exists ld fo, exchange 0 0 back_leader back_follower = Some (ld, fo) /\ sendRound 0 ld quiet_world = None.
Proof.
  destruct (diverged_follower_stuck election.demo_config back_leader back_follower back_log lost_log 0 0 back_paired)
    as [H _].
  - split; vm_compute; done.
  - intros [_ H]. vm_compute in H. discriminate.
  - vm_compute. done.
  - destruct H as (ld & fo & E & _ & H); [vm_compute; done|]. exists ld, fo. split; [exact E|apply H].
Defined.

(** Had node 0 lost nothing, it would have been caught up. *)
Definition idle_leader : Node := default election.blank_node (fst <$> comeback []).
Definition idle_follower : Node := default election.blank_node (snd <$> comeback []).

Lemma lagging_follower_repaired_witness :
  exists k ld fo, exchanges k 0 0 idle_leader idle_follower = Some (ld, fo)
    /\ (exists lf, logs fo lf back_log) /\ default 0 (matchIndex ld !! 0) = 1.
Proof.
  destruct (lagging_follower_repaired election.demo_config idle_leader idle_follower back_log [] 0 0)
    as (k & ld & fo & _ & E & H1 & _ & _ & _ & H2 & _).
  - run_pair.
  - apply prefix_nil.
  - split; vm_compute; done.
  - vm_compute. done.
  - unfold matches_held. replace (matchIndex idle_leader) with ({[0 := 0; 1 := 0]} : gmap NodeID Z) by (vm_compute; reflexivity).
    apply map_Forall_insert_2; [by_decide|]. apply map_Forall_singleton. by_decide.
  - vm_compute. done.
  - split; vm_compute; done.
  - exists k, ld, fo. split; [exact E|]. split; [exact H1|exact H2].
Defined.

End repair.
