(* ===== verification/RaftMatching.v ===== *)
(** * Log matching

    The logs of the nodes of a group, over the runs of RaftElection.v in which
    disks work and nothing is compacted: two logs that have an entry of the same
    term at the same index agree up to it.  For each term that was won there is
    the log of its leader, a history variable; every entry of a term, in a log or
    in flight, is on the leader's log of that term with everything before it. *)

From Stdlib Require Import ZArith Lia.
From Stdlib Require Import Strings.Byte.
From stdpp Require Import base list gmap gmultiset sorting.
From S2P Require Import Prelude.
From S2P Require Import RaftLog.
From S2P Require Import RaftConfig.
From S2P Require Import RaftLogFile.
From S2P Require Import RaftNode.
From S2P Require Import RaftRun.
From S2P Require Import RaftVote.
From S2P Require Import RaftElection.
From S2P Require Import RaftFollower.
From S2P Require Import RaftApply.
From S2P Require Import RaftRepair.

#[local] Open Scope Z_scope.

Module matching.
Import raftlog node run election follower applied repair.

(** ** The leaders' logs *)

(** The log of the leader of each term, as far as it got. *)
Abbreviation ledger := (gmap Z (list logEntry)).

(** Each entry is on the log of its term's leader, with everything before it. *)
Definition sound (G : ledger) (L : list logEntry) : Prop :=
  forall k e, L !! k = Some e -> exists P, G !! e_term e = Some P /\ take (S k) L `prefix_of` P.

Definition grows (G G' : ledger) : Prop :=
  forall T P, G !! T = Some P -> exists P', G' !! T = Some P' /\ P `prefix_of` P'.

#[export] Instance grows_preorder : PreOrder grows.
Proof.
  split.
  - intros G T P H. by exists P.
  - intros G1 G2 G3 H1 H2 T P H. destruct (H1 T P H) as (P1 & HP1 & Hp1). destruct (H2 T P1 HP1) as (P2 & HP2 & Hp2).
    exists P2. split; [done|]. by etrans.
Qed.

Lemma sound_mono G G' L : grows G G' -> sound G L -> sound G' L.
Proof.
  intros Hg HL k e He. destruct (HL k e He) as (P & HP & Hpre). destruct (Hg _ _ HP) as (P' & HP' & Hpre').
  exists P'. split; [done|]. by etrans.
Qed.

Lemma sound_nil G : sound G [].
Proof. intros k e He. by rewrite lookup_nil in He. Qed.

Lemma prefix_take (l k : list logEntry) n : l `prefix_of` k -> take n l `prefix_of` take n k.
Proof. intros [r ->]. rewrite take_app. by exists (take (n - length l) r). Qed.

Lemma prefix_take_self (l : list logEntry) n : take n l `prefix_of` l.
Proof. exists (drop n l). by rewrite take_drop. Qed.

Lemma sound_prefix G L P : sound G P -> L `prefix_of` P -> sound G L.
Proof.
  intros HP Hpre k e He. destruct (HP k e) as (Q & HQ & Hq); [by eapply prefix_lookup_Some|].
  exists Q. split; [done|]. etrans; [by apply prefix_take|done].
Qed.

(** Two sound logs with the same term at an index agree up to it. *)
Lemma sound_matching G L P k a b :
  sound G L -> sound G P -> L !! k = Some a -> P !! k = Some b -> e_term a = e_term b ->
  take (S k) L = take (S k) P.
Proof.
  intros HL HP Ha Hb HT. destruct (HL k a Ha) as (Q & HQ & H1). destruct (HP k b Hb) as (Q' & HQ' & H2).
  rewrite <- HT, HQ in HQ'. injection HQ' as <-.
  apply lookup_lt_Some in Ha. apply lookup_lt_Some in Hb.
  destruct H1 as [r1 E1], H2 as [r2 E2]. rewrite E1 in E2.
  apply app_inj_1 in E2 as [E _]; [done|]. rewrite !length_take. lia.
Qed.

(** A leader's new entry extends its own log. *)
Lemma sound_snoc G L e : sound G L -> grows G (<[e_term e := L ++ [e]]> G) -> sound (<[e_term e := L ++ [e]]> G) (L ++ [e]).
Proof.
  intros HL Hg k x Hx. apply lookup_app_Some in Hx as [Hx|[Hlen Hx]].
  - destruct (sound_mono _ _ _ Hg HL k x Hx) as (P & HP & Hpre). exists P. split; [done|].
    rewrite take_app_le; [done|]. apply lookup_lt_Some in Hx. lia.
  - apply list_lookup_singleton_Some in Hx as [Hk <-]. exists (L ++ [e]). rewrite lookup_insert_eq. split; [done|].
    rewrite take_ge; [done|]. rewrite length_app. cbn. lia.
Qed.

(** Prefixes of the same log are comparable. *)
Lemma prefix_comparable (A B P : list logEntry) :
  A `prefix_of` P -> B `prefix_of` P -> (length A <= length B)%nat -> A `prefix_of` B.
Proof. intros HA HB Hl. destruct (prefix_weak_total A B P HA HB) as [?|HBA]; [done|].
  rewrite (prefix_length_eq B A); [done|done|lia]. Qed.

(** The merge of a slice [es] of a sound log [P] into a sound log [L] that agrees
    with it so far: [L] has all of it, or is cut off where they differ. *)
Lemma merge_shape_from G L P es : forall prev,
  sound G L -> sound G P -> (prev <= length L)%nat -> take prev L = take prev P ->
  es `prefix_of` drop prev P ->
  exists k, (k <= prev + length es)%nat /\ take k L = take k P
    /\ ((k = (prev + length es)%nat /\ merge 0 L (Z.of_nat prev + 1) es = L)
        \/ (merge 0 L (Z.of_nat prev + 1) es = take (prev + length es) P /\ (k < prev + length es)%nat
            /\ forall a b, L !! k = Some a -> P !! k = Some b -> e_term a <> e_term b)).
Proof.
  induction es as [|e es IH]; intros prev HL HP Hlen Hag [r Hes]; cbn [merge length].
  { exists prev. split; [lia|]. split; [done|]. left. split; [lia|done]. }
  assert (P !! prev = Some e) as HPe.
  { pose proof (lookup_drop P prev 0) as E. rewrite Hes, Nat.add_0_r in E. by rewrite <- E. }
  assert (es `prefix_of` drop (S prev) P) as Hpre.
  { exists r. rewrite (drop_S P e prev HPe) in Hes. by injection Hes. }
  replace (prev + S (length es))%nat with (S prev + length es)%nat by lia.
  case_decide as Hd.
  - destruct Hd as [?|[Hle Ht]]; [lia|].
    destruct (lookup_lt_is_Some_2 L prev) as [a Ha]; [unfold len in Hle; lia|].
    unfold full_term in Ht. rewrite decide_False in Ht by lia.
    replace (Z.to_nat (Z.of_nat prev + 1 - 1)) with prev in Ht by lia. rewrite Ha in Ht. cbn in Ht.
    replace (Z.of_nat prev + 1 + 1) with (Z.of_nat (S prev) + 1) by lia.
    apply IH; [done|done|unfold len in Hle; lia| |done].
    exact (sound_matching G L P prev a e HL HP Ha HPe Ht).
  - exists prev. split; [lia|]. split; [done|]. right. split; [|split; [lia|]].
    + replace (Z.to_nat (Z.of_nat prev + 1 - 1)) with prev by lia. rewrite Hag.
      assert (P = (take prev P ++ e :: es) ++ r) as EP by (by rewrite <- app_assoc, <- Hes, take_drop).
      rewrite EP at 2. symmetry. apply take_app_length'. rewrite length_app, length_take. cbn.
      apply lookup_lt_Some in HPe. lia.
    + intros a b Ha Hb E. rewrite HPe in Hb. injection Hb as <-. apply Hd. right.
      pose proof (lookup_lt_Some _ _ _ Ha). split; [unfold len; lia|].
      unfold full_term. rewrite decide_False by lia. replace (Z.to_nat (Z.of_nat prev + 1 - 1)) with prev by lia. by rewrite Ha.
Qed.

(** A follower's log agrees with a leader's up to an index where they have the
    same term. *)
Lemma agree_at G L P prev :
  sound G L -> sound G P -> 0 <= prev <= len P -> prev <= len L -> full_term L prev = full_term P prev ->
  take (Z.to_nat prev) L = take (Z.to_nat prev) P.
Proof.
  intros HL HP Hp Hle Ht. unfold len in *. destruct (decide (prev = 0)) as [->|Hne]; [done|].
  unfold full_term in Ht. rewrite !decide_False in Ht by done.
  destruct (lookup_lt_is_Some_2 L (Z.to_nat (prev - 1))) as [a Ha]; [lia|].
  destruct (lookup_lt_is_Some_2 P (Z.to_nat (prev - 1))) as [b Hb]; [lia|].
  rewrite Ha, Hb in Ht. cbn in Ht. replace (Z.to_nat prev) with (S (Z.to_nat (prev - 1))) by lia.
  exact (sound_matching G L P _ a b HL HP Ha Hb Ht).
Qed.

Section merged.
Context {G : ledger} {L P es : list logEntry} {prev : Z}.
Context (HL : sound G L) (HP : sound G P) (Hp : 0 <= prev <= len P) (Hle : prev <= len L)
  (Ht : full_term L prev = full_term P prev) (Hes : es `prefix_of` drop (Z.to_nat prev) P).

Lemma merge_shape : exists k, (k <= Z.to_nat (prev + len es))%nat /\ take k L = take k P
  /\ ((k = Z.to_nat (prev + len es) /\ merge 0 L (prev + 1) es = L)
      \/ (merge 0 L (prev + 1) es = take (Z.to_nat (prev + len es)) P /\ (k < Z.to_nat (prev + len es))%nat
          /\ forall a b, L !! k = Some a -> P !! k = Some b -> e_term a <> e_term b)).
Proof.
  pose proof (agree_at G L P prev HL HP Hp Hle Ht) as Hag.
  pose proof (merge_shape_from G L P es (Z.to_nat prev) HL HP ltac:(unfold len in *; lia) Hag Hes) as H.
  replace (Z.of_nat (Z.to_nat prev)) with prev in H by lia. unfold len.
  replace (Z.to_nat (prev + Z.of_nat (length es))) with (Z.to_nat prev + length es)%nat by lia. exact H.
Qed.

Lemma merge_sound : sound G (merge 0 L (prev + 1) es).
Proof.
  destruct merge_shape as (k & _ & _ & [[_ ->]|[-> _]]); [done|]. apply (sound_prefix G _ P HP), prefix_take_self.
Qed.

(** The merge has all of the slice ... *)
Lemma merge_covers : take (Z.to_nat (prev + len es)) (merge 0 L (prev + 1) es) = take (Z.to_nat (prev + len es)) P.
Proof. destruct merge_shape as (k & _ & Hk & [[<- ->]|[-> _]]); [done|]. by rewrite take_take, Nat.min_id. Qed.

(** ... and keeps what the logs have in common. *)
Lemma merge_keeps X : X `prefix_of` L -> X `prefix_of` P -> X `prefix_of` merge 0 L (prev + 1) es.
Proof.
  intros HXL HXP. destruct merge_shape as (k & _ & _ & [[_ ->]|(-> & Hk & Hne)]); [done|].
  destruct (decide (length X <= k)%nat) as [Hlen|Hlen].
  - apply (prefix_comparable X _ P HXP (prefix_take_self _ _)). rewrite length_take. apply prefix_length in HXP. lia.
  - exfalso. destruct (lookup_lt_is_Some_2 X k) as [x Hx]; [lia|].
    apply (Hne x x); [by eapply prefix_lookup_Some|by eapply prefix_lookup_Some|done].
Qed.

End merged.

(** ** What most steps leave alone *)

Definition is_append (x : NodeID * Message) : bool :=
  match body x.2 with MsgAppendEntries _ _ _ _ => true | _ => false end.

Definition appends (es : list effect) : list (NodeID * Message) := filter (fun x => is_append x = true) (sends es).

(** Log, configuration and file stay, no AppendEntries is sent. *)
Definition kept : rel := fun n w n' w' =>
  SnapshotThreshold (cfg n) <= 0 ->
  cfg n' = cfg n /\ log n' = log n /\ logFile n' = logFile n /\ config n' = config n
  /\ baseConfig n' = baseConfig n /\ appends (out w') = appends (out w).

#[export] Instance kept_rel : NodeRel kept.
Proof.
  split; unfold kept; [done|]. intros n w n1 w1 n2 w2 H1 H2 Hoff. specialize (H1 Hoff).
  destruct H1 as (E & H1). rewrite E in H2. specialize (H2 Hoff). intuition congruence.
Qed.

Lemma appends_snoc es e :
  appends (es ++ [e]) = appends es
    ++ match e with Send to m => if is_append (to, m) then [(to, m)] else [] | _ => [] end.
Proof.
  unfold appends. rewrite sends_snoc, filter_app. f_equal. destruct e as [to m| | | |]; try done.
  rewrite filter_cons, filter_nil. destruct (is_append (to, m)) eqn:E; by case_decide.
Qed.

Lemma kept_modify f :
  (forall n, cfg (f n) = cfg n /\ log (f n) = log n /\ logFile (f n) = logFile n /\ config (f n) = config n
             /\ baseConfig (f n) = baseConfig n) -> pres kept (modify f).
Proof. intros H. apply pres_modify. intros n w _. destruct (H n) as (?&?&?&?&?). done. Qed.

Lemma kept_emit e : match e with Send _ m => is_append (0, m) = false | _ => True end -> pres kept (emit e).
Proof.
  intros He. apply pres_emit. intros n w _. cbn [out]. rewrite appends_snoc.
  split_and!; try done. destruct e as [to m| | | |]; rewrite ?app_nil_r; try done.
  change (is_append (to, m)) with (is_append (0, m)). by rewrite He, app_nil_r.
Qed.

Lemma kept_send to b t :
  (forall n, is_append (0, MkMessage 0 0 (b n)) = false) -> pres kept (send to b t).
Proof.
  intros H n w a n' w' E. rewrite run_send in E. injection E as <- <- <-. intros _. cbn [out].
  rewrite appends_snoc. change (is_append (to, _)) with (is_append (0, MkMessage 0 0 (b n))).
  by rewrite H, app_nil_r.
Qed.

Lemma kept_fault : pres kept next_fault.
Proof. apply pres_fault. intros n w fs _. done. Qed.

#[local] Hint Resolve kept_fault : pres.
#[local] Hint Extern 1 (pres kept (modify _)) => apply kept_modify; done : pres.
#[local] Hint Extern 1 (pres kept (emit _)) => apply kept_emit; done : pres.
#[local] Hint Extern 1 (pres kept (send _ _ _)) => apply kept_send; done : pres.

Lemma persist_kept : pres kept persistHardStateLocked.
Proof. unfold persistHardStateLocked. pres_auto. Qed.
#[local] Hint Resolve persist_kept : pres.

Lemma stepDown_kept T : pres kept (stepDownLocked T).
Proof. unfold stepDownLocked. pres_auto. Qed.
Lemma ensurePeer_kept p : pres kept (ensurePeerLocked p).
Proof. unfold ensurePeerLocked. pres_auto. Qed.
#[local] Hint Resolve stepDown_kept ensurePeer_kept : pres.

Lemma becomeLeader_kept : pres kept becomeLeaderLocked.
Proof. unfold becomeLeaderLocked, reconcilePeersLocked. pres_auto. Qed.
#[local] Hint Resolve becomeLeader_kept : pres.

Lemma maybeAdvanceCommit_kept : pres kept maybeAdvanceCommitLocked.
Proof. unfold maybeAdvanceCommitLocked. pres_auto. Qed.

(** Compaction is off. *)
Lemma maybeCompact_kept : pres kept maybeCompactLocked.
Proof.
  intros n w u n' w' E Hoff. unfold maybeCompactLocked in E. rewrite !bind_gets, decide_True in E by auto.
  by injection E as _ <- <-.
Qed.
#[local] Hint Resolve maybeAdvanceCommit_kept maybeCompact_kept : pres.

Lemma election_kept lt : pres kept (maybeStartElection lt).
Proof. unfold maybeStartElection. pres_auto. Qed.
#[local] Hint Resolve election_kept : pres.

Lemma requestVote_kept now m c li lti lt : pres kept (handleRequestVote now m c li lti lt).
Proof. unfold handleRequestVote. pres_auto. Qed.

Lemma voteResponse_kept m g : pres kept (handleVoteResponse m g).
Proof. unfold handleVoteResponse. pres_auto. Qed.

Lemma timeoutNow_kept m : pres kept (handleTimeoutNow m).
Proof. unfold handleTimeoutNow. pres_auto. Qed.

Lemma onReply_kept p r m : pres kept (onReply p r m).
Proof. unfold onReply. pres_auto. Qed.

Lemma start_kept : pres kept node.start.
Proof. unfold node.start. pres_auto. Qed.

Section acts.
Context {S : Type} {SM : StateMachine S}.

Lemma act_kept (a : act (S := S)) :
  match a with APropose _ _ _ | ASendRound _ => False | _ => True end -> pres kept (run_act a).
Proof.
  destruct a as [| |t k b|p|s|p|p|p|e|p t]; intros Ha; try done; cbn [run_act]; unfold heartbeatTick, applyStep,
    removeServer_finish, relinquishLeadershipLocked, addServer_start, transfer_start, transfer_abort, transfer_timeoutNow;
    pres_auto.
Qed.

End acts.

(** The settings of a node do not change. *)
Definition same_cfg : rel := fun n _ n' _ => cfg n' = cfg n.

#[export] Instance same_cfg_rel : NodeRel same_cfg.
Proof. split; unfold same_cfg; [done|congruence]. Qed.

#[local] Hint Extern 1 (pres same_cfg (modify _)) => apply pres_modify; done : pres.
#[local] Hint Extern 1 (pres same_cfg (emit _)) => apply pres_emit; done : pres.
#[local] Hint Extern 1 (pres same_cfg next_fault) => apply pres_fault; done : pres.

Lemma send_cfg to b t : pres same_cfg (send to b t).
Proof. unfold send. pres_auto. Qed.
Lemma appendBoth_cfg e : pres same_cfg (appendBoth e).
Proof. unfold appendBoth, fileAppend. pres_auto. Qed.
Lemma fileTruncate_cfg j : pres same_cfg (fileTruncate j).
Proof. unfold fileTruncate. pres_auto. Qed.
Lemma advance_cfg lc : pres same_cfg (modify (advanceFollowerCommit lc)).
Proof. apply pres_modify. intros n w. unfold same_cfg. by rewrite advance_run. Qed.
#[local] Hint Resolve send_cfg appendBoth_cfg fileTruncate_cfg advance_cfg : pres.

Lemma append_loop_cfg es : forall j b, pres same_cfg (appendEntries_loop es j b).
Proof. induction es as [|e es IH]; intros j b; cbn [appendEntries_loop]; pres_auto. Qed.
#[local] Hint Resolve append_loop_cfg : pres.

Lemma append_cfg now m prev prevTerm es lc : pres same_cfg (handleAppendEntries now m prev prevTerm es lc).
Proof. unfold handleAppendEntries, stepDownLocked, persistHardStateLocked, deriveConfigLocked. pres_auto. Qed.

(** ** Runs with working disks *)

Section clean.
Context {S : Type} {SM : StateMachine S}.

(** The log and its file have room for [es]. *)
Definition fits (n : Node) (es : list logEntry) : Prop :=
  len (entries (log n)) + len es < maxPersisted
  /\ len (raftlogfile.contents (log n)) + len (raftlogfile.frames es) < 2 ^ 63.

Definition room (n : Node) (b : Body) : Prop :=
  match b with MsgAppendEntries _ _ es _ => fits n es | _ => True end.

Definition act_room (n : Node) (a : act (S := S)) : Prop :=
  match a with
  | APropose t k b => fits n [MkLogEntry t k b] /\ raftlogfile.entry_ok (MkLogEntry t k b)
  | ASendRound p => is_u64 (default 0 (nextIndex n !! p))
  | _ => True
  end.

(** The reply is that of the follower to the round it is taken for. *)
Definition answers (p : NodeID) (r : Round) (m : Message) : Prop :=
  From m = p /\ (respSuccess (body m) = true ->
    Term m = rd_term r /\ exists hint, body m = MsgAppendResponse true (u64 (rd_prevLogIndex r + rd_count r)) hint).

(** The steps of RaftElection.v whose disk operations succeed; a crash may tear
    the entry that is being appended off the file.  In a [strict] run a
    replicator takes no late reply for that of its current round, and a store
    recovers no entry that was not applied. *)
Inductive clean_step (strict : bool) (C : Members) (c : cluster) : cluster -> Prop :=
| clean_deliver i n m l1 l2 now n' w' :
    nodes c !! i = Some n -> net c = l1 ++ (i, m) :: l2 -> typed m -> currentTerm n < max_u64 ->
    dispatch now m n (MkWorld [] []) = Some (tt, n', w') -> config n' = Some C -> room n (body m) ->
    clean_step strict C c (MkCluster (<[i := n']> (nodes c)) (l1 ++ l2 ++ sends (out w')))
| clean_reply i n p r m l1 l2 b n' w' :
    nodes c !! i = Some n -> net c = l1 ++ (i, m) :: l2 -> typed m -> is_reply (body m) = true ->
    onReply p r m n (MkWorld [] []) = Some (b, n', w') -> config n' = Some C -> (strict = true -> answers p r m) ->
    clean_step strict C c (MkCluster (<[i := n']> (nodes c)) (l1 ++ l2 ++ sends (out w')))
| clean_act i n (a : act (S := S)) n' w' :
    nodes c !! i = Some n -> currentTerm n < max_u64 ->
    run_act a n (MkWorld [] []) = Some (tt, n', w') -> config n' = Some C -> act_room n a ->
    clean_step strict C c (MkCluster (<[i := n']> (nodes c)) (net c ++ sends (out w')))
| clean_restart i n lf tail ps boot cf syncOn recovered n' :
    nodes c !! i = Some n -> logFile n = Some lf -> raftlogfile.torn tail ->
    buildNode i ps boot cf syncOn (Some (raftlogfile.at_path lf ++ tail)) (default None (stateFile n))
      (default None (configPath n)) recovered None = Ok n' ->
    is_u64 (currentTerm n') -> config n' = Some C -> SnapshotThreshold cf <= 0 ->
    (strict = true -> recovered <= lastApplied n) ->
    clean_step strict C c (MkCluster (<[i := n']> (nodes c)) (net c))
| clean_lose x l1 l2 : net c = l1 ++ x :: l2 -> clean_step strict C c (MkCluster (nodes c) (l1 ++ l2)).

Lemma clean_is_step strict C c c' : clean_step strict C c c' -> step C c c'.
Proof.
  intros [i n m l1 l2 now n' w' ? ? ? ? ? ? _|i n p r m l1 l2 b n' w' ? ? ? ? ? ? _|i n a n' w' ? ? ? ? _
         |i n lf tail ps boot cf sy rec n' ? ? ? ? ? ? _ _|x l1 l2].
  - by eapply step_deliver.
  - by eapply step_reply.
  - by eapply step_act.
  - by eapply step_restart.
  - by eapply step_lose.
Qed.

(** ** The invariant *)

(** An AppendEntries carries a slice of its term's leader's log. *)
Definition msg_ok (G : ledger) (m : Message) : Prop :=
  match body m with
  | MsgAppendEntries prev pt es _ =>
      exists P, G !! Term m = Some P /\ 0 <= prev <= len P /\ pt = full_term P prev
        /\ es `prefix_of` drop (Z.to_nat prev) P
  | _ => True
  end.

Record tracked (G : ledger) (n : Node) : Prop := {
  tr_off : SnapshotThreshold (cfg n) <= 0;
  tr_config : config n = Some (logConfig (entries (log n)) (baseConfig n));
  tr_base : baseIndex (log n) = 0;
  tr_logs : exists lf, logs n lf (entries (log n));
  tr_sound : sound G (entries (log n));
  tr_leader : role n = Leader -> G !! currentTerm n = Some (entries (log n))
}.

Record book (C : Members) (g : vote.state) (G : ledger) : Prop := {
  bk_sound T P : G !! T = Some P -> sound G P;
  bk_small T P : G !! T = Some P -> Forall raftlogfile.entry_ok P /\ len P <= maxPersisted;
  bk_won T P : G !! T = Some P -> exists i, vote.won (dom C) g i T
}.

Record matching_inv (C : Members) (c : cluster) (g : vote.state) (G : ledger) : Prop := {
  mi_matches : matches C c g;
  mi_inv : vote.inv (dom C) g;
  mi_tally : vote.tally (dom C) g;
  mi_nodes i n : nodes c !! i = Some n -> tracked G n;
  mi_book : book C g G;
  mi_net : Forall (fun x => msg_ok G x.2) (net c)
}.

Lemma full_term_prefix P P' i : P `prefix_of` P' -> 0 <= i <= len P -> full_term P' i = full_term P i.
Proof.
  intros [r ->] Hi. unfold full_term. case_decide; [done|]. rewrite lookup_app_l; [done|]. unfold len in Hi. lia.
Qed.

Lemma msg_ok_mono G G' m : grows G G' -> msg_ok G m -> msg_ok G' m.
Proof.
  intros Hg. unfold msg_ok. destruct (body m); try done. intros (P & HP & Hp & -> & Hes).
  destruct (Hg _ _ HP) as (P' & HP' & Hpre). exists P'. split; [done|].
  assert (len P <= len P') by (apply prefix_length in Hpre; unfold len; lia).
  split; [lia|]. split; [by rewrite (full_term_prefix P P') by (done || lia)|].
  etrans; [exact Hes|]. destruct Hpre as [r ->]. rewrite drop_app_le by (unfold len in *; lia). by eexists.
Qed.

(** The log without a compacted prefix. *)
Lemma whole_log n lf L : baseIndex (log n) = 0 -> logs n lf L -> L = entries (log n).
Proof. intros Hb Hl. rewrite (rep_entries _ _ (logs_rep _ _ _ Hl)), Hb. done. Qed.

Lemma kept_logs n w n' w' lf L :
  SnapshotThreshold (cfg n) <= 0 -> kept n w n' w' -> logs n lf L -> logs n' lf L.
Proof. intros Hoff Hk [H1 H2 H3]. destruct (Hk Hoff) as (_ & E1 & E2 & _). split; by rewrite ?E1, ?E2. Qed.

(** A node that kept its log, and is no new leader. *)
Lemma kept_tracked G n w n' w' :
  tracked G n -> kept n w n' w' ->
  (role n' = Leader -> G !! currentTerm n' = Some (entries (log n))) -> tracked G n'.
Proof.
  intros [H1 H2 H3 (lf & H4) H5 H6] Hk Hr. destruct (Hk H1) as (E1 & E2 & E3 & E4 & E5 & _).
  split; rewrite ?E1, ?E2, ?E4, ?E5; try done. exists lf. by eapply kept_logs.
Qed.

Lemma tracked_mono G G' n :
  grows G G' -> (role n = Leader -> G' !! currentTerm n = G !! currentTerm n) -> tracked G n -> tracked G' n.
Proof.
  intros Hg Hr [H1 H2 H3 H4 H5 H6]. split; try done; [by eapply sound_mono|].
  intros HL. rewrite (Hr HL). by apply H6.
Qed.

(** The ledger after a step of a node. *)
Definition record_leader (G : ledger) (n' : Node) : ledger :=
  if decide (role n' = Leader) then <[currentTerm n' := entries (log n')]> G else G.

Lemma record_leader_lookup G n' T :
  record_leader G n' !! T = G !! T
  \/ (role n' = Leader /\ currentTerm n' = T /\ record_leader G n' !! T = Some (entries (log n'))).
Proof.
  unfold record_leader. case_decide; [|by left]. destruct (decide (currentTerm n' = T)) as [<-|].
  - right. by rewrite lookup_insert_eq.
  - left. by apply lookup_insert_ne.
Qed.

Lemma record_leader_grows G n' :
  (forall P, role n' = Leader -> G !! currentTerm n' = Some P -> P `prefix_of` entries (log n')) ->
  grows G (record_leader G n').
Proof.
  intros H T P HP. destruct (record_leader_lookup G n' T) as [->|(HL & <- & ->)]; [by exists P|].
  eexists. split; [done|]. by apply H.
Qed.

(** The roles a step can lead to: it falls back, stays, wins its term or stands
    for the next one. *)
Definition role_step (n n' : Node) : Prop :=
  role n' = Follower
  \/ (role n' = role n /\ currentTerm n' = currentTerm n)
  \/ (role n = Candidate /\ role n' = Leader /\ currentTerm n' = currentTerm n)
  \/ (role n <> Leader /\ role n' = Candidate /\ currentTerm n' = currentTerm n + 1).

Lemma role_step_leader n n' :
  role_step n n' -> role n' = Leader -> (role n = Leader \/ role n = Candidate) /\ currentTerm n' = currentTerm n.
Proof. intros [?|[[??]|[(?&?&?)|(?&?&?)]]] HL; try congruence; split; try congruence; [left|right]; congruence. Qed.

Section preserve.
Context {C : Members} {c : cluster} {g : vote.state} {G : ledger} (Hinv : matching_inv C c g G).
Context {i : NodeID} {n : Node} (Hi : nodes c !! i = Some n).

Lemma voter_of : vote.voters g !! i = Some (vs n).
Proof. by rewrite (m_voters _ _ _ (mi_matches _ _ _ _ Hinv)), lookup_fmap, Hi. Qed.

(** The invariant after a step of node [i]. *)
Lemma inv_after g' n' rest msgs :
  let G' := record_leader G n' in
  rtc (vote.step (dom C)) g g' -> matches C (MkCluster (<[i := n']> (nodes c)) (rest ++ msgs)) g' ->
  grows G G' -> tracked G' n' -> Forall (fun x => msg_ok G x.2) rest -> Forall (fun x => msg_ok G x.2) msgs ->
  matching_inv C (MkCluster (<[i := n']> (nodes c)) (rest ++ msgs)) g' G'.
Proof.
  intros G' Hs Hm Hg Htr Hrest Hmsgs. destruct Hinv as [Hm0 Hv Hta Hn [Hb1 Hb2 Hb3] Hnet].
  pose proof (vote.steps_inv _ _ _ Hv Hs) as Hv'. pose proof (vote.tally_steps _ _ _ Hv Hta Hs) as Hta'.
  assert (forall j u, nodes (MkCluster (<[i := n']> (nodes c)) (rest ++ msgs)) !! j = Some u ->
            vote.voters g' !! j = Some (vs u)) as Hvo.
  { intros j u Hj. by rewrite (m_voters _ _ _ Hm), lookup_fmap, Hj. }
  split; try done.
  - cbn [nodes]. intros j u Hj. destruct (decide (i = j)) as [<-|Hij].
    + rewrite lookup_insert_eq in Hj. by injection Hj as <-.
    + apply (tracked_mono G); [done| |rewrite lookup_insert_ne in Hj by done; by apply (Hn j)].
      intros HL. destruct (record_leader_lookup G n' (currentTerm u)) as [?|(HL' & HT & _)]; [done|]. destruct Hij.
      apply (vote.one_leader (dom C) g' i j (vs n') (vs u)); try done; apply Hvo; cbn [nodes]; [|done].
      apply lookup_insert_eq.
  - split.
    + intros T P HP. destruct (record_leader_lookup G n' T) as [E|(_ & _ & E)]; unfold G' in HP; rewrite E in HP.
      * by apply (sound_mono G), (Hb1 T).
      * injection HP as <-. apply Htr.
    + intros T P HP. destruct (record_leader_lookup G n' T) as [E|(_ & _ & E)]; unfold G' in HP; rewrite E in HP; [by apply (Hb2 T)|].
      injection HP as <-. destruct (tr_logs _ _ Htr) as (lf & [Hr _ Hmi]).
      split; [apply (raftlogfile.mir_ok _ _ Hmi)|apply (rep_small _ _ Hr)].
    + intros T P HP. destruct (record_leader_lookup G n' T) as [E|(HL & HT & E)]; unfold G' in HP; rewrite E in HP.
      * destruct (Hb3 T P HP) as (j & Hj). exists j. by apply (vote.won_steps _ g).
      * exists i. rewrite <- HT. apply (vote.tl_leader _ _ Hta' i (vs n')); [apply Hvo, lookup_insert_eq|done].
  - cbn [net]. apply Forall_app. split; (eapply Forall_impl; [eassumption|]); intros x; by apply msg_ok_mono.
Qed.

(** Nobody has led the term of a candidate that wins. *)
Lemma fresh_term g' n' :
  rtc (vote.step (dom C)) g g' -> vote.voters g' !! i = Some (vs n') ->
  role n = Candidate -> role n' = Leader -> currentTerm n' = currentTerm n -> G !! currentTerm n' = None.
Proof.
  intros Hs Hv' Hr Hr' HT. destruct (G !! currentTerm n') as [P|] eqn:HP; [|done]. exfalso.
  destruct Hinv as [Hm0 Hv Hta Hn [_ _ Hb3] _]. destruct (Hb3 _ _ HP) as (j & Hj).
  pose proof (vote.steps_inv _ _ _ Hv Hs) as Hi'. pose proof (vote.tally_steps _ _ _ Hv Hta Hs) as Hta'.
  assert (j = i) as ->.
  { apply (vote.won_unique (dom C) g' j i (currentTerm n')); [done|by apply (vote.won_steps _ g)|].
    exact (vote.tl_leader _ _ Hta' i (vs n') Hv' Hr'). }
  apply (vote.candidate_not_won (dom C) g i (vs n)); [done|done|apply voter_of|done|]. by rewrite HT in Hj.
Qed.

Lemma no_appends w' : appends (out w') = [] -> Forall (fun x => msg_ok G x.2) (sends (out w')).
Proof.
  unfold appends. intros H. apply Forall_forall. intros x Hx. unfold msg_ok.
  destruct (body x.2) eqn:E; try done. exfalso.
  assert (x ∈ filter (fun x => is_append x = true) (sends (out w'))) as Hin
    by (apply list_elem_of_filter; unfold is_append; by rewrite E).
  rewrite H in Hin. by apply elem_of_nil in Hin.
Qed.

(** A step that keeps the log. *)
Lemma kept_preserved g' n' w' rest :
  let c' := MkCluster (<[i := n']> (nodes c)) (rest ++ sends (out w')) in
  rtc (vote.step (dom C)) g g' -> matches C c' g' ->
  kept n (MkWorld [] []) n' w' -> role_step n n' -> Forall (fun x => msg_ok G x.2) rest ->
  matching_inv C c' g' (record_leader G n').
Proof.
  intros c' Hg Hm Hk Hro Hrest. pose proof (mi_nodes _ _ _ _ Hinv i n Hi) as Htr.
  destruct (Hk (tr_off _ _ Htr)) as (_ & El & _ & _ & _ & Ha).
  assert (forall P, role n' = Leader -> G !! currentTerm n' = Some P -> P = entries (log n')) as HP.
  { intros P HL HP. destruct (role_step_leader _ _ Hro HL) as [[HL0|HC0] HT].
    - rewrite HT, (tr_leader _ _ Htr HL0) in HP. injection HP as <-. by rewrite El.
    - rewrite (fresh_term g' n' Hg) in HP; try done. by rewrite (m_voters _ _ _ Hm), lookup_fmap; cbn [nodes c']; rewrite lookup_insert_eq. }
  assert (grows G (record_leader G n')) as Hgr.
  { apply record_leader_grows. intros P HL HP'. by rewrite (HP P HL HP'). }
  apply (inv_after g' n'); try done; [|by apply no_appends].
  destruct Htr as [H1 H2 H3 (lf & H4) H5 _]. destruct (Hk H1) as (E1 & _ & E3 & E4 & E5 & _).
  split; rewrite ?E1, ?El, ?E4, ?E5; try done.
  - exists lf. by eapply kept_logs.
  - by apply (sound_mono G).
  - intros HL. unfold record_leader. rewrite decide_True, El by done. apply lookup_insert_eq.
Qed.

(** *** A proposal *)

(** The node with a new entry, adopted if it is a configuration. *)
Definition proposed (n0 : Node) (lf' : raftLogFile) (e : logEntry) : Node :=
  let n1 := set_log (append (log n0) (e_term e) (e_kind e) (e_bytes e)).1 (set_logFile (Some lf') n0) in
  if decide (e_kind e = EntryConfig) then set_config (Some (config.decodeConfig (e_bytes e))) n1 else n1.

(** A proposal does nothing, or appends an entry of the leader's term and looks
    for what is committed. *)
Lemma propose_log t k b lf r n' w' :
  let e := MkLogEntry t k b in
  logs n lf (entries (log n)) -> baseIndex (log n) = 0 -> config n = Some (logConfig (entries (log n)) (baseConfig n)) ->
  act_room n (APropose t k b) -> propose t k b n (MkWorld [] []) = Some (r, n', w') ->
  (n' = n /\ w' = MkWorld [] [] /\ exists err, r = inl err)
  \/ (role n = Leader /\ currentTerm n = t /\ r = inr (len (entries (log n)) + 1)
      /\ exists lf' w2, logs (proposed n lf' e) lf' (entries (log n) ++ [e])
           /\ config (proposed n lf' e) = Some (logConfig (entries (log (proposed n lf' e))) (baseConfig n))
           /\ maybeAdvanceCommitLocked (proposed n lf' e) (MkWorld [] []) = Some (tt, n', w2)
           /\ w' = MkWorld (faults w2) (out w2 ++ [SignalReplicators])).
Proof.
  intros e Hl Hb0 Hcf [[Hf1 Hf2] Hok] E. fold e in Hf1, Hf2, Hok.
  change (len [e]) with 1 in Hf1. rewrite <- (app_nil_r [e]), raftlogfile.frames_app in Hf2.
  change (raftlogfile.frames [e]) with (raftlogfile.frame e ++ []) in Hf2.
  rewrite !len_app, raftlogfile.len_frame in Hf2. change (len (raftlogfile.frames [])) with 0 in Hf2.
  change (len (@nil Byte.byte)) with 0 in Hf2.
  destruct (fileAppend_run n lf _ e (MkWorld [] []) Hl eq_refl Hok) as (lf' & Ef & Hl'); [lia|lia|].
  unfold propose in E. rewrite !bind_gets in E. case_decide as Hd; [left; injection E as <- <- <-; split_and!; [done..|by eexists]|].
  right. rewrite (bind_run _ _ _ _ _ _ _ Ef) in E. cbn [negb] in E. rewrite bind_gets, bind_modify in E.
  assert (role n = Leader /\ currentTerm n = t) as [HL HT] by (split; apply dec_stable; tauto).
  assert ((append (log n) t k b).2 = len (entries (log n)) + 1) as Hidx.
  { destruct Hl as [Hr _ _]. destruct (rep_append Hr t k b) as [-> _]; [lia|done]. }
  split; [done|]. split; [done|].
  assert (lastConfig (entries (append (log n) (e_term e) (e_kind e) (e_bytes e)).1)
    = if decide (k = EntryConfig) then Some e else lastConfig (entries (log n))) as Elc by exact (lastConfig_append (log n) e).
  apply bind_inv in E as ([] & n2 & w2 & E2 & E). apply bind_inv in E as ([] & n3 & w3 & E3 & E).
  rewrite bind_emit in E. injection E as <- <- <-. split; [by rewrite <- Hidx|]. exists lf', w3. revert E2. unfold proposed. change (e_kind e) with k. 
  destruct (decide (k = EntryConfig)) as [Hk|Hk]; intros E2; injection E2 as <- <-; (split; [by eapply logs_same; [..|exact Hl']|]); (split; [|by split]).
  - unfold logConfig. change (log (set_config _ _)) with (append (log n) (e_term e) (e_kind e) (e_bytes e)).1. by rewrite Elc.
  - change (log (set_log _ _)) with (append (log n) (e_term e) (e_kind e) (e_bytes e)).1.
    by rewrite (logConfig_lastConfig _ _ _ Elc).
Qed.

Lemma propose_preserved g' t k b r n' w' :
  let c' := MkCluster (<[i := n']> (nodes c)) (net c ++ sends (out w')) in
  rtc (vote.step (dom C)) g g' -> matches C c' g' -> act_room n (APropose t k b) -> role_step n n' ->
  propose t k b n (MkWorld [] []) = Some (r, n', w') ->
  (role n = Leader -> role n' = Leader /\ currentTerm n' = currentTerm n) ->
  matching_inv C c' g' (record_leader G n').
Proof.
  intros c' Hg Hm Hroom Hro E Hlead. pose proof (mi_nodes _ _ _ _ Hinv i n Hi) as Htr.
  pose proof Htr as [H1 H2 H3 (lf & H4) H5 H6].
  destruct (propose_log t k b lf r n' w' H4 H3 H2 Hroom E) as [(-> & -> & _)|(HL & HT & _ & lf' & w2 & Hl' & Hcf & E2 & ->)].
  { apply (kept_preserved g' n _ (net c) Hg Hm); [apply (nr_refl (R := kept))|done|apply Hinv]. }
  destruct (Hlead HL) as [HL' HT']. set (e := MkLogEntry t k b) in *. set (n2 := proposed n lf' e) in *.
  assert (cfg n2 = cfg n /\ baseConfig n2 = baseConfig n /\ baseIndex (log n2) = 0) as (Hc2 & Hbc2 & Hb2)
    by (unfold n2, proposed; by case_decide).
  rewrite <- Hc2 in H1. destruct (maybeAdvanceCommit_kept _ _ _ _ _ E2 H1) as (K1 & K2 & K3 & K4 & K5 & K6).
  assert (logs n' lf' (entries (log n) ++ [e])) as Hl by (destruct Hl'; split; by rewrite ?K2, ?K3).
  assert (baseIndex (log n') = 0) as Hb by by rewrite K2.
  pose proof (whole_log _ _ _ Hb Hl) as EL. set (L := entries (log n)) in *. rewrite HT in HT'. specialize (H6 HL). rewrite HT in H6.
  assert (record_leader G n' = <[e_term e := L ++ [e]]> G) as EG.
  { unfold record_leader. rewrite decide_True by done. by rewrite HT', <- EL. }
  assert (grows G (record_leader G n')) as Hgr.
  { apply record_leader_grows. intros P _ HP. rewrite HT', H6 in HP. injection HP as <-. rewrite <- EL. by exists [e]. }
  apply (inv_after g' n'); try done; [|apply Hinv|apply no_appends; cbn [out]; by rewrite appends_snoc, app_nil_r].
  split; [by rewrite K1|by rewrite K4, K2, K5, Hcf, Hbc2|done|exists lf'; by rewrite <- EL| |].
  - rewrite <- EL, EG. apply sound_snoc; [done|by rewrite <- EG].
  - intros _. rewrite EG, HT', <- EL. apply lookup_insert_eq.
Qed.

(** *** A round of a replicator *)

Lemma sendRound_log p lf r n' w' :
  logs n lf (entries (log n)) -> baseIndex (log n) = 0 -> act_room n (ASendRound p) ->
  sendRound p n (MkWorld [] []) = Some (r, n', w') ->
  n' = n /\ (out w' = [] \/ (role n = Leader /\ 1 <= default 0 (nextIndex n !! p) <= len (entries (log n)) + 1
                /\ out w' = [Send p (request_of (ld := n) (L := entries (log n)) p)])).
Proof.
  intros [Hr _ _] Hb Hu E. cbn [act_room] in Hu. destruct (decide (role n = Leader)) as [HL|HL].
  2:{ unfold sendRound in E. rewrite bind_gets, decide_True in E by done. injection E as _ <- <-. auto. }
  destruct (decide (1 <= default 0 (nextIndex n !! p) <= len (entries (log n)) + 1)) as [Hin|Hout].
  - rewrite (sendRound_run Hr HL) in E by (rewrite Hb; lia). injection E as _ <- <-. auto.
  - exfalso. pose proof (rep_small _ _ Hr). pose proof maxPersisted_bound. unfold is_u64 in Hu.
    destruct (decide (default 0 (nextIndex n !! p) = 0)) as [E0|].
    2:{ rewrite (sendRound_panics Hr HL) in E by lia. done. }
    unfold sendRound in E. rewrite bind_gets, decide_False in E by tauto. rewrite !bind_gets, E0 in E.
    change (u64 (0 - 1)) with (2 ^ 64 - 1) in E. rewrite Hb, decide_False in E by lia. rewrite bind_gets in E. cbv zeta in E.
    apply bind_inv in E as (x & n1 & w1 & E1 & _). unfold expr in E1.
    rewrite (rep_term_out Hr) in E1 by (unfold is_u64; lia). done.
Qed.

Lemma same_leader : record_leader G n = G.
Proof.
  unfold record_leader. case_decide as HL; [|done]. apply insert_id.
  by apply (tr_leader _ _ (mi_nodes _ _ _ _ Hinv i n Hi)).
Qed.

Lemma sendRound_preserved g' p r n' w' :
  let c' := MkCluster (<[i := n']> (nodes c)) (net c ++ sends (out w')) in
  rtc (vote.step (dom C)) g g' -> matches C c' g' ->
  act_room n (ASendRound p) -> sendRound p n (MkWorld [] []) = Some (r, n', w') ->
  matching_inv C c' g' (record_leader G n').
Proof.
  intros c' Hg Hm Hroom E. pose proof (mi_nodes _ _ _ _ Hinv i n Hi) as Htr.
  pose proof Htr as [H1 H2 H3 (lf & H4) H5 H6].
  destruct (sendRound_log p lf r n' w' H4 H3 Hroom E) as [-> Ho].
  apply (inv_after g' n); rewrite ?same_leader; try done; [apply Hinv|].
  destruct Ho as [->|(HL & Hn & ->)]; [done|]. constructor; [|done]. unfold msg_ok, request_of. cbn [snd body Term].
  exists (entries (log n)). split; [by apply H6|]. split; [lia|]. split; [done|done].
Qed.

(** *** A delivered AppendEntries *)

Lemma append_preserved g' now m prev prevTerm es lc n' w' l1 l2 :
  let c' := MkCluster (<[i := n']> (nodes c)) ((l1 ++ l2) ++ sends (out w')) in
  rtc (vote.step (dom C)) g g' -> matches C c' g' -> net c = l1 ++ (i, m) :: l2 -> body m = MsgAppendEntries prev prevTerm es lc -> fits n es ->
  handleAppendEntries now m prev prevTerm es lc n (MkWorld [] []) = Some (tt, n', w') ->
  matching_inv C c' g' (record_leader G n').
Proof.
  intros c' Hg Hma Hnet Hb [Hf1 Hf2] E. pose proof (mi_nodes _ _ _ _ Hinv i n Hi) as Htr.
  pose proof Htr as [H1 H2 H3 (lf & H4) H5 H6]. pose proof (mi_net _ _ _ _ Hinv) as Hmsgs.
  rewrite Hnet, Forall_app, Forall_cons in Hmsgs. destruct Hmsgs as (Hm1 & Hmok & Hm2).
  assert (Forall (fun x => msg_ok G x.2) (l1 ++ l2)) as Hrest by (by apply Forall_app).
  destruct (decide (Term m < currentTerm n)) as [Hlt|Hge].
  { unfold handleAppendEntries in E. rewrite bind_gets, decide_True, run_send in E by done. injection E as <- <-.
    apply (kept_preserved g' n _ _ Hg Hma); [|by right; left|done]. done. }
  unfold msg_ok in Hmok. cbn [snd] in Hmok. rewrite Hb in Hmok. destruct Hmok as (P & HP & Hp & -> & Hes).
  destruct (bk_small _ _ _ (mi_book _ _ _ _ Hinv) _ _ HP) as [Hok Hlen].
  assert (Forall raftlogfile.entry_ok es) as Heok.
  { destruct Hes as [r Er]. apply (Forall_drop _ (Z.to_nat prev)) in Hok. rewrite Er in Hok. by apply Forall_app in Hok as [? _]. }
  pose proof maxPersisted_bound.
  destruct (handle_current now m prev (full_term P prev) es lc n lf _ (MkWorld [] []) H4 eq_refl) as
    (n1 & w1 & E1 & Hc' & Ht' & Hr' & _ & _ & Hb' & Hm); [unfold is_u64; lia|done|done|done|done|lia|].
  rewrite E in E1. injection E1 as <- <-. pose proof (append_cfg _ _ _ _ _ _ _ _ _ _ _ E) as Ecfg.
  rewrite H3 in Hm, Hb'.
  assert (appends (out w') = [] /\ exists lf', logs n' lf' (entries (log n')) /\ sound G (entries (log n'))) as (Ha & lf' & Hl' & Hsd).
  { unfold appends. case_decide as Hcase.
    - destruct Hm as ((lf' & Hl') & _ & ->). split; [done|]. exists lf'.
      rewrite <- (whole_log _ _ _ Hb' Hl'). split; [done|]. destruct Hcase as [?|[Hle Hte]]; [lia|].
      apply (merge_sound (P := P)); try done. apply (bk_sound _ _ _ (mi_book _ _ _ _ Hinv) _ _ HP).
    - destruct Hm as (Hl' & El & _ & ->). split; [done|]. exists lf. by rewrite El. }
  assert (record_leader G n' = G) as EG by (unfold record_leader; by rewrite decide_False by congruence).
  apply (inv_after g' n'); rewrite ?EG; try done; [|by apply no_appends].
  split; try done; [by rewrite Ecfg|by exists lf'|congruence].
Qed.

(** *** A restart *)

Lemma restart_preserved g' lf tail ps boot cf syncOn recovered n' :
  let c' := MkCluster (<[i := n']> (nodes c)) (net c) in
  rtc (vote.step (dom C)) g g' -> matches C c' g' -> logFile n = Some lf -> raftlogfile.torn tail -> SnapshotThreshold cf <= 0 ->
  buildNode i ps boot cf syncOn (Some (raftlogfile.at_path lf ++ tail)) (default None (stateFile n))
    (default None (configPath n)) recovered None = Ok n' ->
  matching_inv C c' g' (record_leader G n').
Proof.
  intros c' Hg Hma Hlf Htail Hcf E. pose proof (mi_nodes _ _ _ _ Hinv i n Hi) as Htr.
  pose proof Htr as [H1 H2 H3 (lf0 & H4) H5 H6]. pose proof H4 as [Hr Hlf0 Hm]. rewrite Hlf in Hlf0. injection Hlf0 as <-.
  assert (raftlogfile.at_path lf = raftlogfile.contents (log n)) as Ep.
  { unfold raftlogfile.at_path. by rewrite (raftlogfile.mir_path _ _ Hm), (raftlogfile.mir_f _ _ Hm). }
  rewrite Ep in E. pose proof (buildNode_run _ Hr Hm i ps boot cf syncOn tail (default None (stateFile n))
    (default None (configPath n)) recovered eq_refl Htail) as B. cbv zeta in B. rewrite E in B.
  case_decide; [done|]. destruct B as (n2 & lf' & [= <-] & El & Hl & Hbc & _ & Hc & Hr' & _ & _ & _ & _ & Hcfg & _).
  assert (record_leader G n' = G) as EG by (unfold record_leader; by rewrite decide_False by congruence).
  pose proof (inv_after g' n' (net c) []) as A. unfold c' in *. rewrite app_nil_r in A. cbv zeta in A. rewrite EG in *.
  apply A; try done; [|apply Hinv].
  split; rewrite ?El; try done; [by rewrite Hcfg|by rewrite Hc, Hbc|by exists lf'|congruence].
Qed.

(** *** Who leads after a step *)

Lemma voter_terms : 1 <= currentTerm n /\ 1 <= config.currentTerm (dstate n).
Proof. exact (vote.inv_term _ _ (mi_inv _ _ _ _ Hinv) _ _ voter_of). Qed.

Lemma taus_role_step n' j : rtc (vote.tau j) (vs n) (vs n') -> role_step n n'.
Proof.
  intros Ht. destruct voter_terms as [H1 H2].
  destruct (vote.taus_role _ _ _ Ht H1 H2) as [Hr|[Hr HT]]; [by left|right; left; done].
Qed.

Lemma silent_role w n' w' : silent n w n' w' -> role_step n n'.
Proof.
  intros Hs. destruct (m_nodes _ _ _ (mi_matches _ _ _ _ Hinv) _ _ Hi) as (_ & Hok & _).
  destruct (Hs Hok) as (_ & _ & Ht & _). by eapply taus_role_step.
Qed.

Lemma election_role lt n' w' :
  maybeStartElection lt n (MkWorld [] []) = Some (tt, n', w') -> currentTerm n < max_u64 -> role_step n n'.
Proof.
  intros E Hmax. destruct (m_nodes _ _ _ (mi_matches _ _ _ _ Hinv) _ _ Hi) as (_ & Hok & Hc).
  destruct (election_run C lt n _ _ _ _ Hok Hc Hmax E) as (_ & _ & [[Ht _]|(Hr & _ & Hvs & _)]); [by eapply taus_role_step|].
  pose proof (f_equal vote.v_role Hvs) as Er. pose proof (f_equal vote.v_term Hvs) as Et. cbn in Er, Et.
  right. right. right. done.
Qed.

Lemma deliver_role now m n' w' :
  request_ok (i, m) -> typed m -> currentTerm n < max_u64 ->
  is_append (i, m) = false ->
  dispatch now m n (MkWorld [] []) = Some (tt, n', w') -> role_step n n'.
Proof.
  intros Hreq Hty Hmax Hb E. destruct (m_nodes _ _ _ (mi_matches _ _ _ _ Hinv) _ _ Hi) as (_ & Hok & Hc).
  destruct voter_terms as [H1 H2]. unfold dispatch in E. unfold request_ok in Hreq.
  unfold is_append in Hb. cbn [snd] in Hreq, Hb. destruct (body m) as [| |cand li lti tr|gr| | |]; try done.
  all: try (injection E as <- <-; right; left; done).
  - destruct (requestVote_run _ _ _ _ _ _ _ _ _ _ _ Hok Hty (proj2 Hreq) E) as (_ & _ & [[Ht _]|(v & Ht & Hvt & _ & Hvs & _)]);
      [by eapply taus_role_step|].
    pose proof (f_equal vote.v_role Hvs) as Er. pose proof (f_equal vote.v_term Hvs) as Et. cbn in Er, Et.
    destruct (vote.taus_role _ _ _ Ht H1 H2) as [Hr|[Hr HT]]; [left; congruence|right; left].
    split; [etrans; [exact Er|exact Hr]|]. rewrite Et, <- Hvt. exact HT.
  - destruct (voteResponse_run C _ _ _ _ _ _ _ Hok Hty Hc E) as (_ & _ & _ & [Ht|(_ & HT & Hcand & Hvs)]);
      [by eapply taus_role_step|].
    pose proof (f_equal vote.v_role Hvs) as Er. pose proof (f_equal vote.v_term Hvs) as Et. cbn in Er, Et. right.
    case_decide; [right; left|left]; split_and!; congruence.
  - unfold handleTimeoutNow in E. rewrite bind_gets in E. case_decide; [injection E as <- <-; right; left; done|].
    by eapply election_role.
Qed.

Lemma deliver_kept now m :
  is_append (i, m) = false -> pres kept (dispatch now m).
Proof.
  unfold dispatch, is_append. cbn [snd]. destruct (body m); try done; intros _; try apply pres_ret;
    auto using requestVote_kept, voteResponse_kept, timeoutNow_kept.
Qed.

(** *** The steps *)

Lemma deliver_preserved g' m l1 l2 now n' w' :
  let c' := MkCluster (<[i := n']> (nodes c)) ((l1 ++ l2) ++ sends (out w')) in
  rtc (vote.step (dom C)) g g' -> matches C c' g' -> net c = l1 ++ (i, m) :: l2 -> typed m -> currentTerm n < max_u64 ->
  dispatch now m n (MkWorld [] []) = Some (tt, n', w') -> room n (body m) ->
  matching_inv C c' g' (record_leader G n').
Proof.
  intros c' Hg Hm Hnet Hty Hmax E Hroom. pose proof (mi_net _ _ _ _ Hinv) as Hmsgs.
  rewrite Hnet, Forall_app, Forall_cons in Hmsgs. destruct Hmsgs as (Hm1 & _ & Hm2).
  destruct (is_append (i, m)) eqn:Hb.
  2:{ apply (kept_preserved g' n' w' _ Hg Hm).
      * exact (deliver_kept now m Hb n _ tt n' w' E).
      * apply (deliver_role now m n' w'); try done. pose proof (m_net _ _ _ (mi_matches _ _ _ _ Hinv)) as Hf.
        rewrite Hnet, Forall_app, Forall_cons in Hf. apply Hf.
      * by apply Forall_app. }
  unfold is_append in Hb. cbn [snd] in Hb. destruct (body m) as [prev pt es lc| | | | | |] eqn:Eb; try done.
  apply (append_preserved g' now m prev pt es lc n' w' l1 l2 Hg Hm Hnet Eb Hroom). unfold dispatch in E. by rewrite Eb in E.
Qed.

Lemma reply_preserved g' p r m l1 l2 b n' w' :
  let c' := MkCluster (<[i := n']> (nodes c)) ((l1 ++ l2) ++ sends (out w')) in
  rtc (vote.step (dom C)) g g' -> matches C c' g' -> net c = l1 ++ (i, m) :: l2 -> typed m ->
  onReply p r m n (MkWorld [] []) = Some (b, n', w') -> matching_inv C c' g' (record_leader G n').
Proof.
  intros c' Hg Hm Hnet Hty E. pose proof (mi_net _ _ _ _ Hinv) as Hmsgs.
  rewrite Hnet, Forall_app, Forall_cons in Hmsgs. destruct Hmsgs as (Hm1 & _ & Hm2).
  apply (kept_preserved g' n' w' _ Hg Hm); [exact (onReply_kept p r m n _ b n' w' E)| |by apply Forall_app].
  by apply (silent_role (MkWorld [] []) n' w'), (onReply_silent p r m n _ b).
Qed.

Lemma act_preserved g' (a : act (S := S)) n' w' :
  let c' := MkCluster (<[i := n']> (nodes c)) (net c ++ sends (out w')) in
  rtc (vote.step (dom C)) g g' -> matches C c' g' -> currentTerm n < max_u64 ->
  run_act a n (MkWorld [] []) = Some (tt, n', w') -> act_room n a -> matching_inv C c' g' (record_leader G n').
Proof.
  intros c' Hg Hm Hmax E Hroom. destruct a as [lt| |t k b|p|s|p|p|p|e|p t].
  3:{ cbn [run_act] in E. apply bind_inv in E as (x & n1 & w1 & E & [= <- <-]).
      pose proof (propose_quiet t k b n (MkWorld [] []) x _ _ E) as Hq.
      apply (propose_preserved g' t k b x n1 w1 Hg Hm Hroom); [|done|destruct Hq as (_ & H1 & _ & H2 & _); by rewrite H1, H2].
      by apply (silent_role (MkWorld [] []) n1 w1), quiet_silent. }
  3:{ cbn [run_act] in E. apply bind_inv in E as (x & n1 & w1 & E & [= <- <-]).
      by apply (sendRound_preserved g' p x n1 w1). }
  all: apply (kept_preserved g' n' w' (net c) Hg Hm); [refine (act_kept _ _ n _ tt n' w' E); exact I| |apply Hinv].
  1: by apply (election_role lt n' w').
  all: apply (silent_role (MkWorld [] []) n' w'), (fun H => act_silent _ n _ tt n' w' H E); exact I.
Qed.

Lemma lose_preserved g' x l1 l2 :
  rtc (vote.step (dom C)) g g' -> matches C (MkCluster (nodes c) (l1 ++ l2)) g' -> net c = l1 ++ x :: l2 ->
  matching_inv C (MkCluster (nodes c) (l1 ++ l2)) g' G.
Proof.
  intros Hg Hm Hnet. destruct Hinv as [_ Hv Hta Hn [Hb1 Hb2 Hb3] Hmsgs]. split; try done.
  - by eapply vote.steps_inv.
  - by eapply vote.tally_steps.
  - split; try done. intros T P HP. destruct (Hb3 T P HP) as (j & Hj). exists j. by eapply vote.won_steps.
  - rewrite Hnet, Forall_app, Forall_cons in Hmsgs. apply Forall_app. tauto.
Qed.

End preserve.

Lemma clean_preserved strict C c g G c' :
  matching_inv C c g G -> clean_step strict C c c' -> exists g' G', matching_inv C c' g' G'.
Proof.
  intros Hinv Hst. pose proof (mi_matches _ _ _ _ Hinv) as Hm0.
  destruct Hst as [i n m l1 l2 now n' w' Hi Hnet Hty Hmax E Hc Hroom|i n p r m l1 l2 b n' w' Hi Hnet Hty Hrep E Hc _
    |i n a n' w' Hi Hmax E Hc Hroom|i n lf tail ps boot cf sy rec n' Hi Hlf Htail E Hu Hc Hcf _|x l1 l2 Hnet].
  - destruct (sim_deliver C c g i n m l1 l2 now [] n' w' Hm0 Hi Hnet Hty Hmax E Hc) as (g' & Hg & Hm & _).
    exists g', (record_leader G n'). rewrite app_assoc. by apply (deliver_preserved Hinv Hi g' m l1 l2 now n' w').
  - destruct (sim_reply C c g i n p r m l1 l2 [] b n' w' Hm0 Hi Hnet Hty E Hc) as (g' & Hg & Hm & _).
    exists g', (record_leader G n'). rewrite app_assoc. by apply (reply_preserved Hinv Hi g' p r m l1 l2 b n' w').
  - destruct (sim_act C c g i n a [] n' w' Hm0 Hi Hmax E Hc) as (g' & Hg & Hm & _).
    exists g', (record_leader G n'). by apply (act_preserved Hinv Hi g' a n' w').
  - destruct (sim_restart C c g i n ps boot cf sy _ rec n' Hm0 Hi E Hu Hc) as (g' & Hg & Hm & _).
    exists g', (record_leader G n'). by apply (restart_preserved Hinv Hi g' lf tail ps boot cf sy rec n').
  - destruct (sim_lose C c g x l1 l2 Hm0 Hnet) as (g' & Hg & Hm & _). exists g', G. by apply (lose_preserved Hinv g' x).
Qed.

(** ** The start *)

Lemma init_log i ps C cf syncOn n0 n w :
  buildNode i ps C cf syncOn None None None 0 None = Ok n0 -> node.start n0 (MkWorld [] []) = Some (tt, n, w) ->
  SnapshotThreshold (cfg n) <= 0 ->
  entries (log n) = [] /\ baseIndex (log n) = 0 /\ (exists lf, logs n lf []) /\ config n = Some (logConfig [] (baseConfig n)).
Proof.
  intros E Es Hoff. unfold buildNode in E. rewrite bool_decide_eq_true_2 in E by done.
  change (raftlogfile.openRaftLogFile None syncOn)
    with (Ok (E := raftlogfile.error) (raftlogfile.writeFreshHeader syncOn 0 0, @nil logEntry)) in E.
  cbv beta iota zeta in E. cbn [foldl raftlogfile.writeFreshHeader raftlogfile.lf_baseIndex raftlogfile.lf_baseTerm] in E.
  rewrite decide_False in E by lia.
  assert (represents (NewRaftLogWithBase 0 0) []) as Hr by (split; by_decide).
  rewrite (deriveConfig_spec Hr) in E. destruct (lastTerm _) as [x|]; [|done].
  assert (exists r t v bc st, n0 = MkNode i (peersExcept ps i) cf r t v (Some (logConfig [] bc)) bc (Some None) false false
     (NewRaftLogWithBase 0 0) (Some (raftlogfile.writeFreshHeader syncOn 0 0)) st 0 0 None 0
     (list_to_map ((fun p => (p, 1)) <$> peersExcept ps i)) (list_to_map ((fun p => (p, 0)) <$> peersExcept ps i))
     (list_to_set (peersExcept ps i))) as (r & t & v & bc & st & ->).
  { destruct (true && bool_decide (i = bootstrapLeader)); injection E as <-; by eexists _, _, _, _, _. }
  clear E. pose proof (start_kept _ _ _ _ _ Es) as Hk. set (n0 := MkNode _ _ _ _ _ _ _ _ _ _ _ _ _ _ _ _ _ _ _ _ _) in *.
  assert (cfg n = cfg n0) as Ec.
  { revert Es. match goal with |- ?m ?a ?b = _ -> _ => apply (fun H : pres same_cfg m => H a b) end.
    unfold node.start, becomeLeaderLocked, reconcilePeersLocked, ensurePeerLocked. pres_auto. }
  rewrite Ec in Hoff. destruct (Hk Hoff) as (_ & E1 & E2 & E3 & E4 & _). rewrite E1, E3, E4.
  split; [done|]. split; [done|]. split; [|done]. eexists. split; [by rewrite E1|by rewrite E2|].
  rewrite E1. exact (proj1 (raftlogfile.reachable_mirrors _ _ _ (raftlogfile.reach_new syncOn _ eq_refl))).
Qed.

Lemma init_matching C c : init C c ->
  (forall i n, nodes c !! i = Some n -> SnapshotThreshold (cfg n) <= 0) ->
  exists g, vote.init g /\ matching_inv C c g {[1 := []]}.
Proof.
  intros Hinit Hoff. destruct (init_sim C c Hinit) as (g & Hg & Hm). pose proof Hinit as [Hnet Hn].
  pose proof (vote.init_inv (dom C) g Hg) as Hv.
  assert (sound {[1 := []]} []) as Hs by apply sound_nil.
  exists g. split; [done|]. split; try done.
  - by apply vote.init_tally.
  - intros i n Hi. destruct (Hn i n Hi) as (Hb & ps & cf & sy & n0 & w & E & Es & Hc).
    destruct (init_run _ _ _ _ _ _ _ _ Hb E Es) as (_ & _ & Hvs & _).
    destruct (init_log _ _ _ _ _ _ _ _ E Es (Hoff i n Hi)) as (El & Hb0 & (lf & Hl) & Hcf).
    split; rewrite ?El; try done; [by apply (Hoff i)|by exists lf|].
    intros _. change (currentTerm n) with (vote.v_term (vs n)). rewrite Hvs. done.
  - split; intros T P HP; apply lookup_singleton_Some in HP as [<- <-]; [done|by split|].
    exists bootstrapLeader. by right.
  - by rewrite Hnet.
Qed.

Lemma reachable_matching strict C c0 c :
  init C c0 -> (forall i n, nodes c0 !! i = Some n -> SnapshotThreshold (cfg n) <= 0) ->
  rtc (clean_step strict C) c0 c -> exists g G, matching_inv C c g G.
Proof.
  intros Hi Hoff Hs. destruct (init_matching C c0 Hi Hoff) as (g & _ & Hinv). clear Hi Hoff. revert g Hinv.
  generalize ({[1 := []]} : ledger) as G. intros G g. revert G g.
  induction Hs as [c|c c1 c2 H1 _ IH]; intros G g Hinv; [by exists g, G|].
  destruct (clean_preserved strict C c g G c1 Hinv H1) as (g1 & G1 & Hinv1). by apply (IH G1 g1).
Qed.

(** C16. Log matching.  In every run of a group with working disks and without
    compaction (message losses, reorderings, elections, crashes and restarts
    included, a torn append too), whenever two nodes hold an entry of the same
    term at the same index, their logs agree up to it, and so do their files;
    and what an AppendEntries in flight carries agrees the same way with every
    node's log. *)
Theorem log_matching strict C c0 c :
  init C c0 -> (forall i n, nodes c0 !! i = Some n -> SnapshotThreshold (cfg n) <= 0) -> rtc (clean_step strict C) c0 c ->
  (forall i n, nodes c !! i = Some n ->
     exists lf, logFile n = Some lf /\ raftlogfile.at_path lf = raftlogfile.contents (log n) /\ baseIndex (log n) = 0)
  /\ (forall i j ni nj k a b, nodes c !! i = Some ni -> nodes c !! j = Some nj ->
        entries (log ni) !! k = Some a -> entries (log nj) !! k = Some b -> e_term a = e_term b ->
        take (Datatypes.S k) (entries (log ni)) = take (Datatypes.S k) (entries (log nj)))
  /\ (forall to m prev pt es lc i n k a b, (to, m) ∈ net c -> body m = MsgAppendEntries prev pt es lc ->
        nodes c !! i = Some n -> es !! k = Some a -> entries (log n) !! (Z.to_nat prev + k)%nat = Some b ->
        e_term a = e_term b -> take (Datatypes.S k) es = take (Datatypes.S k) (drop (Z.to_nat prev) (entries (log n)))).
Proof.
  intros Hi Hoff Hs. destruct (reachable_matching strict C c0 c Hi Hoff Hs) as (g & G & [_ _ _ Hn [Hb _ _] Hnet]).
  split_and!.
  - intros i n Hni. destruct (Hn i n Hni) as [_ _ H3 (lf & [_ Hlf Hm]) _ _]. exists lf. split; [done|]. split; [|done].
    unfold raftlogfile.at_path. by rewrite (raftlogfile.mir_path _ _ Hm), (raftlogfile.mir_f _ _ Hm).
  - intros i j ni nj k a b Hni Hnj Ha Hb' HT.
    apply (sound_matching G _ _ k a b); try done; [apply (Hn i ni Hni)|apply (Hn j nj Hnj)].
  - intros to m prev pt es lc i n k a b Hin Hbody Hni Ha Hb' HT. rewrite Forall_forall in Hnet.
    specialize (Hnet _ Hin). unfold msg_ok in Hnet. cbn [snd] in Hnet. rewrite Hbody in Hnet.
    destruct Hnet as (P & HP & _ & _ & r & Er).
    assert (P !! (Z.to_nat prev + k)%nat = Some a) as Ha'.
    { rewrite <- lookup_drop, Er. by apply lookup_app_l_Some. }
    pose proof (sound_matching G P _ _ a b (Hb _ _ HP) (tr_sound _ _ (Hn i n Hni)) Ha' Hb' HT) as E.
    apply (f_equal (drop (Z.to_nat prev))) in E. rewrite !skipn_firstn_comm in E.
    replace (Datatypes.S (Z.to_nat prev + k) - Z.to_nat prev)%nat with (Datatypes.S k) in E by lia.
    rewrite Er, take_app_le in E; [done|]. apply lookup_lt_Some in Ha. lia.
Qed.

End clean.

(** ** Witness *)

#[local] Existing Instance counter.

#[export] Instance room_dec n b : Decision (room n b).
Proof. unfold room, fits. destruct b; apply _. Defined.
#[export] Instance act_room_dec n (a : act (S := nat)) : Decision (act_room n a).
Proof. unfold act_room, fits, raftlogfile.entry_ok, is_u64. destruct a; apply _. Defined.

(** Steps by evaluation. *)
Definition exec_act (C : Members) (c : cluster) (i : NodeID) (a : act (S := nat)) : option cluster :=
  n ← nodes c !! i;
  '(_, n', w') ← run_act a n (MkWorld [] []);
  if bool_decide (currentTerm n < max_u64 /\ config n' = Some C /\ act_room n a)
  then Some (MkCluster (<[i := n']> (nodes c)) (net c ++ sends (out w'))) else None.

Definition exec_deliver (C : Members) (c : cluster) (k : nat) : option cluster :=
  '(i, m) ← net c !! k;
  n ← nodes c !! i;
  '(_, n', w') ← dispatch 0 m n (MkWorld [] []);
  if bool_decide (0 <= Term m < 2 ^ 64 /\ currentTerm n < max_u64 /\ config n' = Some C /\ room n (body m))
  then Some (MkCluster (<[i := n']> (nodes c)) (take k (net c) ++ drop (S k) (net c) ++ sends (out w'))) else None.

Lemma exec_act_clean strict C c i a c' : exec_act C c i a = Some c' -> clean_step strict C c c'.
Proof.
  unfold exec_act. destruct (nodes c !! i) as [n|] eqn:Hi; [|done]. cbn [mbind option_bind].
  destruct (run_act a n _) as [[[[] n'] w']|] eqn:E; [|done]. cbn [mbind option_bind].
  case_bool_decide as H; [|done]. intros [= <-]. destruct H as (?&?&?). by eapply clean_act.
Qed.

Lemma exec_deliver_clean strict C c k c' : exec_deliver C c k = Some c' -> clean_step (S := nat) strict C c c'.
Proof.
  unfold exec_deliver. destruct (net c !! k) as [[i m]|] eqn:Hk; [|done]. cbn [mbind option_bind].
  destruct (nodes c !! i) as [n|] eqn:Hi; [|done]. cbn [mbind option_bind].
  destruct (dispatch 0 m n _) as [[[[] n'] w']|] eqn:E; [|done]. cbn [mbind option_bind].
  case_bool_decide as H; [|done]. intros [= <-]. destruct H as (?&?&?&?). eapply clean_deliver; try done.
  symmetry. by apply take_drop_middle.
Qed.

(** Node 0 leads term 1, appends an entry and sends it to node 1. *)
Definition demo1 : cluster := default demo_start (exec_act demo_config demo_start 0 (APropose 1 EntryData [x61])).
Definition demo2 : cluster := default demo_start (exec_act demo_config demo1 0 (ASendRound 1)).
Definition demo3 : cluster := default demo_start (exec_deliver demo_config demo2 0).

Lemma demo_clean_run strict : rtc (clean_step (S := nat) strict demo_config) demo_start demo3.
Proof.
  eapply rtc_l; [apply (exec_act_clean _ _ _ 0 (APropose 1 EntryData [x61]) demo1); vm_compute; reflexivity|].
  eapply rtc_l; [apply (exec_act_clean _ _ _ 0 (ASendRound 1) demo2); vm_compute; reflexivity|].
  apply rtc_once, (exec_deliver_clean _ _ _ 0). vm_compute. reflexivity.
Qed.

Lemma demo_uncompacted i n : nodes demo_start !! i = Some n -> SnapshotThreshold (cfg n) <= 0.
Proof.
  unfold demo_start. cbn [nodes]. rewrite !lookup_insert_Some, lookup_empty. intros H.
  assert (exists k, n = demo_node k /\ (k = 0 \/ k = 1 \/ k = 2)) as (k & -> & Hk) by naive_solver.
  destruct Hk as [->|[->| ->]]; vm_compute; done.
Qed.

Lemma log_matching_witness :
  exists n0 n1 e, nodes demo3 !! 0 = Some n0 /\ nodes demo3 !! 1 = Some n1
    /\ entries (log n0) !! 0%nat = Some e /\ entries (log n1) !! 0%nat = Some e
    /\ take 1 (entries (log n0)) = take 1 (entries (log n1)).
Proof.
  destruct (log_matching false demo_config demo_start demo3 demo_init demo_uncompacted (demo_clean_run false)) as (_ & H & _).
  destruct (nodes demo3 !! 0) as [n0|] eqn:E0; [|vm_compute in E0; done].
  destruct (nodes demo3 !! 1) as [n1|] eqn:E1; [|vm_compute in E1; done].
  assert (entries (log n0) !! 0%nat = Some (MkLogEntry 1 EntryData [x61])) as H0.
  { assert ((entries ∘ log <$> nodes demo3 !! 0) = Some [MkLogEntry 1 EntryData [x61]]) as E by (vm_compute; reflexivity).
    rewrite E0 in E. injection E as E. cbn in E. by rewrite E. }
  assert (entries (log n1) !! 0%nat = Some (MkLogEntry 1 EntryData [x61])) as H1.
  { assert ((entries ∘ log <$> nodes demo3 !! 1) = Some [MkLogEntry 1 EntryData [x61]]) as E by (vm_compute; reflexivity).
    rewrite E1 in E. injection E as E. cbn in E. by rewrite E. }
  exists n0, n1, (MkLogEntry 1 EntryData [x61]). split; [done|]. split; [done|]. split; [exact H0|]. split; [exact H1|].
  exact (H 0 1 n0 n1 0%nat _ _ E0 E1 H0 H1 eq_refl).
Defined.

End matching.
