(* ===== verification/RaftFrame.v ===== *)
(** * What the steps of a node leave alone

    The parts of a node that its handlers do not touch, for the proof of
    RaftSafety.v: what is committed, applied and acknowledged, the promises in
    messages, and the term and vote on disk. *)

From Stdlib Require Import ZArith Lia.
From Stdlib Require Import Strings.Byte.
From stdpp Require Import base list gmap sorting.
From S2P Require Import Prelude.
From S2P Require Import RaftLog.
From S2P Require Import RaftConfig.
From S2P Require Import RaftLogFile.
From S2P Require Import RaftNode.
From S2P Require Import RaftRun.
From S2P Require Import RaftVote.
From S2P Require Import RaftElection.
From S2P Require Import RaftFollower.
From S2P Require Import RaftMatching.

#[local] Open Scope Z_scope.

Module frame.
Import raftlog node run election follower matching.

(** ** The relations *)

(** Nothing is applied, nobody's match index grows. *)
Definition calm : rel := fun n _ n' _ =>
  lastApplied n' = lastApplied n
  /\ forall p, matchIndex n' !! p = matchIndex n !! p \/ matchIndex n' !! p = Some 0.

Definition uncommitting : rel := fun n _ n' _ => commitIndex n' = commitIndex n.

(** Messages that promise something about the sender's log. *)
Definition is_claim (x : NodeID * Message) : bool :=
  match body x.2 with
  | MsgRequestVote _ _ _ _ => true
  | MsgAppendResponse success _ _ => success
  | _ => false
  end.

Definition claims (es : list effect) : list (NodeID * Message) := filter (fun x => is_claim x = true) (sends es).

Definition mute : rel := fun _ w _ w' => claims (out w') = claims (out w).

(** Term and vote on disk are those in memory. *)
Definition is_saved (n : Node) : Prop := stateFile n = Some (config.saved (currentTerm n) (votedFor n)).

(** With a working disk they stay so, and the term does not fall. *)
Definition hard : rel := fun n w n' w' =>
  is_saved n -> faults w = [] -> is_saved n' /\ faults w' = [] /\ currentTerm n <= currentTerm n'.

#[export] Instance calm_rel : NodeRel calm.
Proof.
  split; unfold calm; [by auto|]. intros n _ n1 _ n2 _ [A1 A2] [B1 B2]. split; [congruence|].
  intros p. destruct (B2 p) as [->|?]; auto.
Qed.
#[export] Instance uncommitting_rel : NodeRel uncommitting.
Proof. split; unfold uncommitting; congruence. Qed.
#[export] Instance mute_rel : NodeRel mute.
Proof. split; unfold mute; congruence. Qed.
#[export] Instance hard_rel : NodeRel hard.
Proof.
  split; unfold hard; [by auto with lia|]. intros n w n1 w1 n2 w2 H1 H2 Hs Hw.
  destruct (H1 Hs Hw) as (Hs1 & Hw1 & Ht1). destruct (H2 Hs1 Hw1) as (? & ? & ?). split_and!; [done|done|lia].
Qed.

Lemma claims_snoc es e :
  claims (es ++ [e])
  = claims es ++ match e with Send to m => if is_claim (to, m) then [(to, m)] else [] | _ => [] end.
Proof.
  unfold claims. rewrite sends_snoc, filter_app. f_equal. destruct e as [to m| | | |]; try done.
  rewrite filter_cons, filter_nil. destruct (is_claim (to, m)) eqn:E; by case_decide.
Qed.

Lemma mute_emit e : match e with Send _ m => is_claim (0, m) = false | _ => True end -> pres mute (emit e).
Proof.
  intros He. apply pres_emit. intros n w. unfold mute. cbn [out]. rewrite claims_snoc.
  destruct e as [to m| | | |]; rewrite ?app_nil_r; try done.
  change (is_claim (to, m)) with (is_claim (0, m)). by rewrite He, app_nil_r.
Qed.

Lemma mute_send to b t : (forall n, is_claim (0, MkMessage 0 0 (b n)) = false) -> pres mute (send to b t).
Proof.
  intros H n w a n' w' E. rewrite run_send in E. injection E as <- <- <-. unfold mute. cbn [out].
  rewrite claims_snoc. change (is_claim (to, _)) with (is_claim (0, MkMessage 0 0 (b n))).
  by rewrite H, app_nil_r.
Qed.

Lemma calm_modify f :
  (forall n, lastApplied (f n) = lastApplied n
     /\ forall p, matchIndex (f n) !! p = matchIndex n !! p \/ matchIndex (f n) !! p = Some 0) -> pres calm (modify f).
Proof. intros H. apply pres_modify. intros n w. apply H. Qed.

Lemma calm_same f :
  (forall n, lastApplied (f n) = lastApplied n /\ matchIndex (f n) = matchIndex n) -> pres calm (modify f).
Proof. intros H. apply calm_modify. intros n. destruct (H n) as [? E]. rewrite E. auto. Qed.

Lemma calm_reset p (f : Node -> Node) :
  (forall n, lastApplied (f n) = lastApplied n /\ matchIndex (f n) = <[p := 0]> (matchIndex n)) -> pres calm (modify f).
Proof.
  intros H. apply calm_modify. intros n. destruct (H n) as [? E]. rewrite E. split; [done|]. intros q.
  destruct (decide (p = q)) as [<-|?]; [right; apply lookup_insert_eq|left; by apply lookup_insert_ne].
Qed.

Lemma hard_modify f :
  (forall n, stateFile (f n) = stateFile n /\ currentTerm (f n) = currentTerm n /\ votedFor (f n) = votedFor n) ->
  pres hard (modify f).
Proof.
  intros H. apply pres_modify. intros n w Hs Hw. destruct (H n) as (E1 & E2 & E3).
  unfold is_saved in *. rewrite E1, E2, E3. done.
Qed.

Lemma hard_out n w n' w' :
  stateFile n' = stateFile n -> currentTerm n' = currentTerm n -> votedFor n' = votedFor n ->
  (faults w = [] -> faults w' = []) -> hard n w n' w'.
Proof. intros E1 E2 E3 H Hs Hw. unfold is_saved in *. rewrite E1, E2, E3. auto with lia. Qed.

Lemma hard_fault : pres hard next_fault.
Proof.
  intros n w a n' w' E. unfold next_fault in E. destruct (faults w) as [|x fs] eqn:Hw; injection E as <- <- <-.
  - apply nr_refl.
  - intros _ Hw'. congruence.
Qed.

#[export] Hint Extern 1 (pres calm (modify _)) => (apply calm_same; done) || (eapply calm_reset; done) : pres.
#[export] Hint Extern 1 (pres calm (emit _)) => apply pres_emit; intros; apply (nr_refl (R := calm)) : pres.
#[export] Hint Extern 1 (pres uncommitting (modify _)) => apply pres_modify; done : pres.
#[export] Hint Extern 1 (pres uncommitting (emit _)) => apply pres_emit; done : pres.
#[export] Hint Extern 1 (pres mute (modify _)) => apply pres_modify; done : pres.
#[export] Hint Extern 1 (pres mute (emit _)) => apply mute_emit; done : pres.
#[export] Hint Extern 1 (pres mute (send _ _ _)) => apply mute_send; done : pres.
#[export] Hint Extern 1 (pres hard (modify _)) => apply hard_modify; done : pres.
#[export] Hint Extern 1 (pres hard (emit _)) => apply pres_emit; intros; by apply hard_out : pres.
#[export] Hint Resolve hard_fault : pres.

Lemma calm_fault : pres calm next_fault.
Proof. apply pres_fault. intros. apply (nr_refl (R := calm)). exact w. Qed.
Lemma uncommitting_fault : pres uncommitting next_fault.
Proof. by apply pres_fault. Qed.
Lemma mute_fault : pres mute next_fault.
Proof. by apply pres_fault. Qed.
#[export] Hint Resolve calm_fault uncommitting_fault mute_fault : pres.

Lemma send_calm to b t : pres calm (send to b t).
Proof. unfold send. pres_auto. Qed.
Lemma send_uncommitting to b t : pres uncommitting (send to b t).
Proof. unfold send. pres_auto. Qed.
Lemma send_hard to b t : pres hard (send to b t).
Proof. unfold send. pres_auto. Qed.
#[export] Hint Resolve send_calm send_uncommitting send_hard : pres.

(** ** The handlers *)

Create HintDb node_defs.
#[export] Hint Unfold persistHardStateLocked stepDownLocked ensurePeerLocked reconcilePeersLocked becomeLeaderLocked
  maybeAdvanceCommitLocked foldBaseConfig fileCompact maybeCompactLocked adoptConfigLocked deriveConfigLocked
  fileAppend fileTruncate appendBoth maybeStartElection handleTimeoutNow handleRequestVote handleVoteResponse
  sendRound propose relinquishLeadershipLocked removeServer_finish addServer_start transfer_start
  transfer_abort transfer_timeoutNow heartbeatTick : node_defs.

Ltac frame_auto := repeat autounfold with node_defs; pres_auto.

Lemma stepDown_calm T : pres calm (stepDownLocked T).
Proof. frame_auto. Qed.
Lemma stepDown_uncommitting T : pres uncommitting (stepDownLocked T).
Proof. frame_auto. Qed.
Lemma stepDown_mute T : pres mute (stepDownLocked T).
Proof. frame_auto. Qed.
#[export] Hint Resolve stepDown_calm stepDown_uncommitting stepDown_mute : pres.

Lemma election_calm lt : pres calm (maybeStartElection lt).
Proof. frame_auto. Qed.
Lemma election_uncommitting lt : pres uncommitting (maybeStartElection lt).
Proof. frame_auto. Qed.

Lemma append_loop_calm es : forall j b, pres calm (appendEntries_loop es j b).
Proof. induction es as [|e es IH]; intros j b; cbn [appendEntries_loop]; frame_auto. Qed.
Lemma advance_calm lc : pres calm (modify (advanceFollowerCommit lc)).
Proof. apply calm_same. intros n. by rewrite advance_run. Qed.
#[export] Hint Resolve append_loop_calm advance_calm : pres.

Lemma append_calm now m prev pt es lc : pres calm (handleAppendEntries now m prev pt es lc).
Proof. unfold handleAppendEntries. frame_auto. Qed.

Lemma dispatch_calm now m : pres calm (dispatch now m).
Proof. unfold dispatch. destruct (body m); auto using append_calm; frame_auto. Qed.

(** *** Terms and votes *)

(** With a working disk the hard state is saved. *)
Lemma persist_works n w ok n' w' :
  is_Some (stateFile n) -> faults w = [] -> persistHardStateLocked n w = Some (ok, n', w') ->
  ok = true /\ n' = set_stateFile (Some (config.saved (currentTerm n) (votedFor n))) n /\ w' = w.
Proof.
  intros [f Hf] Hw E. unfold persistHardStateLocked in E. rewrite bind_gets, Hf in E.
  rewrite !bind_gets, (bind_fault _ _ _ Hw) in E. cbn in E. by injection E as <- <- <-.
Qed.

Lemma persist_hard : pres hard persistHardStateLocked.
Proof.
  intros n w ok n' w' E Hs Hw. apply persist_works in E as (_ & -> & ->); [|by eexists|done].
  split; [done|]. split; [done|]. cbn. lia.
Qed.
#[export] Hint Resolve persist_hard : pres.

Lemma stepDown_hard T n w : currentTerm n <= T -> from hard (stepDownLocked T) n w.
Proof.
  intros HT u n' w' E Hs Hw. unfold stepDownLocked in E. rewrite !bind_modify in E. set (n0 := set_transferring _ _) in E.
  apply bind_inv in E as (ok & n1 & w1 & E1 & E).
  apply persist_works in E1 as (_ & -> & ->); [|by exists (config.saved (currentTerm n) (votedFor n))|done].
  rewrite bind_emit in E. injection E as _ <- <-. done.
Qed.

Lemma adopt_hard T n w : from hard (if decide (T > currentTerm n) then stepDownLocked T else skip) n w.
Proof. case_decide; [by apply stepDown_hard; lia|]. intros u n' w' [= <- <- <-]. apply nr_refl. Qed.

Lemma election_hard lt n w :
  currentTerm n < max_u64 -> is_u64 (currentTerm n) -> from hard (maybeStartElection lt) n w.
Proof.
  intros Hmax Hu u n' w' E Hs Hw. unfold maybeStartElection in E. rewrite !bind_gets in E.
  case_decide; [injection E as _ <- <-; auto with lia|]. destruct (installing n); [injection E as _ <- <-; auto with lia|].
  destruct (inConfigLocked n); cbn [negb] in E; [|injection E as _ <- <-; auto with lia].
  rewrite !bind_gets, !bind_modify in E. set (n0 := set_votesReceived _ _) in E.
  apply bind_inv in E as (ok & n1 & w1 & E1 & E).
  apply persist_works in E1 as (-> & -> & ->); [|by exists (config.saved (currentTerm n) (votedFor n))|done].
  cbn [negb] in E. set (n1 := set_stateFile _ n0) in *.
  assert (hard n1 w n' w') as Hh.
  { revert E. match goal with |- ?m ?a ?b = _ -> _ => apply (fun H : pres hard m => H a b) end. pres_auto. }
  destruct (Hh eq_refl Hw) as (H1 & H2 & H3). split; [done|]. split; [done|]. change (currentTerm n1) with (u64 (currentTerm n + 1)) in H3.
  rewrite u64_small in H3 by (unfold is_u64, max_u64 in *; lia). lia.
Qed.

Lemma requestVote_hard now m c li lti lt n w : from hard (handleRequestVote now m c li lti lt) n w.
Proof.
  unfold handleRequestVote. apply from_gets. destruct (_ && _); [match goal with |- from _ ?m _ _ => apply (fun H : pres hard m => H n w) end; pres_auto|].
  apply from_gets, from_bind; [apply adopt_hard|]. intros _ n1 w1 _.
  match goal with |- from _ ?m _ _ => apply (fun H : pres hard m => H n1 w1) end. pres_step; [pres_step|]. pres_step; [pres_step|].
  pres_step; [pres_auto|]. pres_step; [|pres_auto].
  match goal with |- pres _ (if ?b then _ else _) => destruct b end; [|pres_auto].
  intros n2 w2 b n3 w3 E Hs Hw. rewrite bind_modify in E. apply bind_inv in E as (ok & n4 & w4 & E1 & E).
  apply persist_works in E1 as (-> & -> & ->); [|by exists (config.saved (currentTerm n2) (votedFor n2))|done].
  cbn [negb] in E. rewrite bind_emit in E. injection E as _ <- <-. done.
Qed.

Lemma voteResponse_hard m g n w : from hard (handleVoteResponse m g) n w.
Proof.
  unfold handleVoteResponse. apply from_gets, from_gets. destruct (decide (_ > _)).
  - apply stepDown_hard. lia.
  - match goal with |- from _ ?m _ _ => apply (fun H : pres hard m => H n w) end. frame_auto.
Qed.

Lemma advance_hard lc : pres hard (modify (advanceFollowerCommit lc)).
Proof. apply hard_modify. intros n. by rewrite advance_run. Qed.
Lemma append_loop_hard es : forall j b, pres hard (appendEntries_loop es j b).
Proof. induction es as [|e es IH]; intros j b; cbn [appendEntries_loop]; frame_auto. Qed.
#[export] Hint Resolve advance_hard append_loop_hard : pres.

Lemma append_hard now m prev pt es lc n w : from hard (handleAppendEntries now m prev pt es lc) n w.
Proof.
  unfold handleAppendEntries. apply from_gets. destruct (decide (_ < _)).
  { match goal with |- from _ ?m _ _ => apply (fun H : pres hard m => H n w) end. pres_auto. }
  apply from_bind; [apply adopt_hard|]. intros _ n1 w1 _.
  match goal with |- from _ ?m _ _ => apply (fun H : pres hard m => H n1 w1) end. frame_auto.
Qed.

Lemma dispatch_hard now m n w :
  currentTerm n < max_u64 -> is_u64 (currentTerm n) -> from hard (dispatch now m) n w.
Proof.
  intros Hmax Hu. unfold dispatch. destruct (body m); auto using append_hard, requestVote_hard, voteResponse_hard;
    try (intros u n' w' [= <- <- <-]; apply nr_refl).
  unfold handleTimeoutNow. apply from_gets. case_decide; [intros u n' w' [= <- <- <-]; apply nr_refl|by apply election_hard].
Qed.

Lemma onReply_hard p r m n w : from hard (onReply p r m) n w.
Proof.
  unfold onReply. apply from_gets. destruct (decide (_ > _)).
  - apply from_bind; [apply stepDown_hard; lia|]. intros ? n1 w1 _ u n' w' [= <- <- <-]. apply nr_refl.
  - match goal with |- from _ ?m _ _ => apply (fun H : pres hard m => H n w) end.
    assert (forall x, pres hard (modify (onAppendSuccessLocked p x))) by (intros; by apply hard_modify).
    assert (forall x, pres hard (modify (onAppendRejectLocked p x))) by (intros; by apply hard_modify).
    frame_auto.
Qed.

Section acts.
Context {S : Type} {SM : StateMachine S}.

Lemma act_hard (a : act (S := S)) n w :
  currentTerm n < max_u64 -> is_u64 (currentTerm n) -> from hard (run_act a) n w.
Proof.
  intros Hmax Hu. destruct a; cbn [run_act]; [by apply election_hard|..];
    match goal with |- from _ ?m _ _ => apply (fun H : pres hard m => H n w) end; unfold applyStep; frame_auto.
Qed.

Lemma act_calm (a : act (S := S)) : match a with AApply _ => False | _ => True end -> pres calm (run_act a).
Proof. intros Ha. destruct a; try done; cbn [run_act]; [apply election_calm|..]; frame_auto. Qed.

Lemma act_uncommitting (a : act (S := S)) : match a with APropose _ _ _ => False | _ => True end -> pres uncommitting (run_act a).
Proof. intros Ha. destruct a; try done; cbn [run_act]; [apply election_uncommitting|..]; unfold applyStep; frame_auto. Qed.

Lemma act_mute (a : act (S := S)) : match a with ACampaign _ => False | _ => True end -> pres mute (run_act a).
Proof. intros Ha. destruct a; try done; cbn [run_act]; unfold applyStep; frame_auto. Qed.

(** Applying moves one entry on, if one is committed. *)
Lemma applyStep_applied (s : S) n w r n' w' :
  applyStep s n w = Some (r, n', w') ->
  (lastApplied n' = lastApplied n
   \/ (lastApplied n < commitIndex n /\ lastApplied n' = u64 (lastApplied n + 1)))
  /\ forall p, matchIndex n' !! p = matchIndex n !! p \/ matchIndex n' !! p = Some 0.
Proof.
  intros E. unfold applyStep in E. rewrite !bind_gets in E. destruct (_ || _) eqn:Ed.
  { injection E as _ <- _. auto. }
  apply orb_false_iff in Ed as [_ Ed]. apply bool_decide_eq_false in Ed.
  apply bind_inv in E as (b & n1 & w1 & E1 & E). apply bind_inv in E as (k & n2 & w2 & E2 & E).
  apply bind_inv in E as (s' & n3 & w3 & E3 & E). unfold expr in E1, E2, E3.
  destruct (entryAt _ _); [|done]. injection E1 as _ <- <-. destruct (kindAt _ _); [|done]. injection E2 as _ <- <-.
  destruct (applyOne _ _ _); [|done]. injection E3 as _ <- <-.
  rewrite bind_modify, bind_emit in E. apply bind_inv in E as ([] & n4 & w4 & E4 & E). injection E as _ <- _.
  assert (pres calm maybeCompactLocked) as Hc by frame_auto.
  destruct (Hc _ _ _ _ _ E4) as [Hl Hm]. rewrite Hl. split; [right; split; [lia|done]|exact Hm].
Qed.

End acts.

Lemma requestVote_uncommitting now m c li lti lt : pres uncommitting (handleRequestVote now m c li lti lt).
Proof. frame_auto. Qed.
Lemma requestVote_mute now m c li lti lt : pres mute (handleRequestVote now m c li lti lt).
Proof. frame_auto. Qed.
Lemma voteResponse_uncommitting m g : pres uncommitting (handleVoteResponse m g).
Proof. frame_auto. Qed.
Lemma voteResponse_mute m g : pres mute (handleVoteResponse m g).
Proof. frame_auto. Qed.

Lemma deliver_uncommitting now m i : is_append (i, m) = false -> pres uncommitting (dispatch now m).
Proof.
  unfold dispatch, is_append. cbn [snd]. destruct (body m); try done; intros _; try apply pres_ret;
    auto using requestVote_uncommitting, voteResponse_uncommitting. frame_auto.
Qed.

Lemma maybeAdvanceCommit_mute : pres mute maybeAdvanceCommitLocked.
Proof. frame_auto. Qed.

Lemma onReply_mute p r m : pres mute (onReply p r m).
Proof. unfold onReply. frame_auto. Qed.

(** ** What the handlers do to the rest *)

Definition same_place : rel := fun n _ n' _ => config n' = config n /\ id n' = id n.
#[export] Instance same_place_rel : NodeRel same_place.
Proof. split; unfold same_place; [done|intuition congruence]. Qed.
#[export] Hint Extern 1 (pres same_place (modify _)) => apply pres_modify; done : pres.

(** Saving the hard state changes no log and no role, and grants nothing. *)
Definition aside : rel := fun n w n' w' => log n' = log n /\ role n' = role n /\ votes_of (out w') = votes_of (out w).
#[export] Instance aside_rel : NodeRel aside.
Proof. split; unfold aside; [done|intuition congruence]. Qed.

Lemma persist_aside : pres aside persistHardStateLocked.
Proof.
  assert (pres aside next_fault) by by apply pres_fault.
  assert (forall f, pres aside (modify (set_stateFile f))) by (intros; by apply pres_modify).
  unfold persistHardStateLocked. pres_auto.
Qed.

Lemma stepDown_aside T n w n' w' :
  stepDownLocked T n w = Some (tt, n', w') -> log n' = log n /\ role n' = Follower /\ votes_of (out w') = votes_of (out w).
Proof.
  intros E. unfold stepDownLocked in E. rewrite !bind_modify in E. apply bind_inv in E as (ok & n1 & w1 & E1 & E).
  rewrite bind_emit in E. injection E as <- <-. destruct (persist_aside _ _ _ _ _ E1) as (-> & -> & Hv).
  cbn [out]. by rewrite !votes_of_snoc, !app_nil_r.
Qed.

Lemma elem_of_votingPeers n C p : config n = Some C -> p ∈ votingPeers n <-> p ∈ dom C /\ p <> id n.
Proof.
  intros HC. unfold votingPeers. rewrite HC, merge_sort_Permutation, list_elem_of_filter, elem_of_dom, list_elem_of_fmap. split.
  - intros (? & [q b] & -> & Hq%elem_of_map_to_list). cbn in *. by rewrite Hq.
  - intros [[b Hb] ?]. split; [done|]. exists (p, b). split; [done|]. by apply elem_of_map_to_list.
Qed.

Lemma reset_all last ps p n w n' w' :
  p ∈ ps ->
  forM ps (fun p => modify (fun n =>
    set_nextIndex (<[p := u64 (last + 1)]> (nextIndex n)) (set_matchIndex (<[p := 0]> (matchIndex n)) n))) n w
    = Some (tt, n', w') ->
  matchIndex n' !! p = Some 0.
Proof.
  intros Hp. revert n w. induction ps as [|q ps IH]; [by apply elem_of_nil in Hp|].
  intros n w E. cbn [forM] in E. rewrite bind_modify in E. set (n1 := set_nextIndex _ _) in E.
  destruct (decide (p ∈ ps)) as [Hin|Hin]; [by apply (IH Hin n1 w)|].
  apply elem_of_cons in Hp as [->|?]; [|done].
  assert (calm n1 w n' w') as [_ Hc].
  { revert E. match goal with |- ?m ?a ?b = _ -> _ => apply (fun H : pres calm m => H a b) end. pres_auto. }
  destruct (Hc q) as [->|?]; [apply lookup_insert_eq|done].
Qed.

(** A new leader knows nothing of what its peers hold. *)
Lemma becomeLeader_reset C n w n' w' p :
  config n = Some C -> p ∈ dom C -> p <> id n -> becomeLeaderLocked n w = Some (tt, n', w') -> matchIndex n' !! p = Some 0.
Proof.
  intros HC Hp Hne E. unfold becomeLeaderLocked in E. rewrite !bind_modify in E. set (n1 := set_transferring _ _) in E.
  apply bind_inv in E as ([] & n2 & w2 & E2 & E).
  assert (same_place n1 w n2 w2) as [Hc2 Hi2].
  { revert E2. match goal with |- ?m ?a ?b = _ -> _ => apply (fun H : pres same_place m => H a b) end. frame_auto. }
  rewrite !bind_gets in E. apply bind_inv in E as ([] & n3 & w3 & E3 & E). injection E as <- <-.
  refine (reset_all _ _ p n2 w2 n3 w3 _ E3). apply (elem_of_votingPeers n2 C); [by rewrite Hc2|]. by rewrite Hi2.
Qed.

Lemma voteResponse_wins C m g n w n' w' p :
  config n = Some C -> p ∈ dom C -> p <> id n -> handleVoteResponse m g n w = Some (tt, n', w') ->
  role n <> Leader -> role n' = Leader -> matchIndex n' !! p = Some 0.
Proof.
  intros HC Hp Hne E Hr Hr'. unfold handleVoteResponse in E. rewrite !bind_gets in E. case_decide.
  { destruct (stepDown_aside _ _ _ _ _ E) as (_ & Hf & _). congruence. }
  case_decide; [injection E as <- <-; congruence|]. destruct g; [|injection E as <- <-; congruence].
  rewrite bind_modify, bind_gets in E. case_bool_decide.
  - revert E. by apply becomeLeader_reset with (C := C).
  - injection E as <- _. cbn in Hr'. congruence.
Qed.

(** What a candidate says about its log. *)
Lemma election_claims lt n n' w' :
  is_Some (stateFile n) -> maybeStartElection lt n (MkWorld [] []) = Some (tt, n', w') ->
  sends (out w') = []
  \/ (role n' = Candidate /\ exists lti, lastTerm (log n') = Some lti
      /\ sends (out w') = (fun p => (p, MkMessage (id n') (currentTerm n')
           (MsgRequestVote (id n') (lastIndex (log n')) lti lt))) <$> votingPeers n').
Proof.
  intros Hs E. unfold maybeStartElection in E. rewrite !bind_gets in E.
  case_decide; [injection E as <- <-; by left|]. destruct (installing n); [injection E as <- <-; by left|].
  destruct (inConfigLocked n); cbn [negb] in E; [|injection E as <- <-; by left].
  rewrite !bind_gets, !bind_modify in E. set (n0 := set_votesReceived _ _) in E.
  apply bind_inv in E as (ok & n1 & w1 & E1 & E). apply persist_works in E1 as (-> & -> & ->); [|done|done].
  cbn [negb] in E. set (n1 := set_stateFile _ n0) in *. rewrite !bind_gets in E.
  apply bind_inv in E as (lti & n2 & w2 & E2 & E). unfold expr in E2.
  destruct (lastTerm (log n1)) as [x|] eqn:Elt; [|done]. injection E2 as <- <- <-.
  rewrite bind_gets, bind_emit, forM_sends in E. injection E as <- <-. right. split; [done|]. exists x. split; [done|].
  cbn [out faults app]. induction (votingPeers n1) as [|p ps IH]; [done|]. cbn [fmap list_fmap].
  change (sends (?a :: ?b :: ?l)) with (sends ([a] ++ [b] ++ l)). unfold sends in *. rewrite !omap_app. cbn [omap list_omap app].
  f_equal. exact IH.
Qed.

(** A vote is granted to a candidate whose log is up to date. *)
Lemma requestVote_uptodate now m c li lti lt n w n' w' to i T :
  handleRequestVote now m c li lti lt n w = Some (tt, n', w') -> votes_of (out w) = [] ->
  Send to (MkMessage i T (MsgRequestVoteResponse true)) ∈ out w' ->
  candidateUpToDateLocked n li lti = Some true.
Proof.
  intros E Hout Hin. assert (Send to (MkMessage i T (MsgRequestVoteResponse true)) ∈ votes_of (out w')) as Hv
    by (by apply list_elem_of_filter).
  clear Hin. unfold handleRequestVote in E. rewrite bind_gets in E.
  destruct (_ && _).
  { rewrite bind_gets, run_send in E. injection E as <- <-. cbn [out] in Hv. rewrite votes_of_snoc, Hout in Hv.
    by apply elem_of_nil in Hv. }
  rewrite bind_gets in E. apply bind_inv in E as ([] & n1 & w1 & E1 & E).
  assert (log n1 = log n /\ votes_of (out w1) = []) as [El Ho1].
  { case_decide; [|by injection E1 as <- <-]. destruct (stepDown_aside _ _ _ _ _ E1) as (-> & _ & ->). done. }
  rewrite !bind_gets in E. apply bind_inv in E as (up & n2 & w2 & E2 & E).
  assert (n2 = n1 /\ w2 = w1 /\ (up = true -> candidateUpToDateLocked n li lti = Some true)) as (-> & -> & Hup).
  { case_decide; [|by injection E2 as <- <- <-]. unfold expr in E2. unfold candidateUpToDateLocked in *. rewrite El in E2.
    destruct (lastTerm (log n)) as [x|]; [|done]. cbn [mbind option_bind] in *. injection E2 as <- <- <-.
    split; [done|]. split; [done|]. by intros ->. }
  destruct up; [by apply Hup|]. rewrite bind_ret, bind_gets, run_send in E. injection E as <- <-.
  cbn [out] in Hv. rewrite votes_of_snoc, Ho1 in Hv. by apply elem_of_nil in Hv.
Qed.

(** A reply changes nothing that matters here, or counts for the entries of the
    round it is taken for. *)
Lemma onReply_cases p r m n w b n' w' :
  onReply p r m n w = Some (b, n', w') ->
  (calm n w n' w' /\ uncommitting n w n' w')
  \/ (role n = Leader /\ currentTerm n = rd_term r /\ respSuccess (body m) = true
      /\ exists n2 w2, maybeAdvanceCommitLocked (onAppendSuccessLocked p (u64 (rd_prevLogIndex r + rd_count r)) n) w
                         = Some (tt, n2, w2)
           /\ maybeCompactLocked n2 w2 = Some (tt, n', w')).
Proof.
  intros E. unfold onReply in E. rewrite bind_gets in E. case_decide.
  { left. apply bind_inv in E as ([] & n1 & w1 & E & [= <- <- <-]).
    split; [by apply (stepDown_calm (Term m) _ _ tt)|by apply (stepDown_uncommitting (Term m) _ _ tt)]. }
  rewrite bind_gets in E. case_decide as Hd; [left; injection E as _ <- <-; split; apply nr_refl|].
  destruct (respSuccess (body m)).
  - right. rewrite bind_modify in E. apply bind_inv in E as ([] & n2 & w2 & E2 & E).
    apply bind_inv in E as ([] & n3 & w3 & E3 & [= <- <- <-]). split; [apply dec_stable; tauto|].
    split; [apply dec_stable; tauto|]. split; [done|]. by exists n2, w2.
  - left. rewrite bind_modify in E. injection E as _ <- <-. split; [|done]. split; [done|by left].
Qed.

Lemma start_calm : pres calm node.start.
Proof. unfold node.start. frame_auto. Qed.
Lemma start_uncommitting : pres uncommitting node.start.
Proof. unfold node.start. frame_auto. Qed.
Lemma start_hard : pres hard node.start.
Proof. unfold node.start. frame_auto. Qed.

(** A node of the first run has nothing committed and knows of no match. *)
Lemma init_frame i ps C cf syncOn n0 n w :
  buildNode i ps C cf syncOn None None None 0 None = Ok n0 -> node.start n0 (MkWorld [] []) = Some (tt, n, w) ->
  is_saved n /\ commitIndex n = 0 /\ lastApplied n = 0 /\ forall p k, matchIndex n !! p = Some k -> k = 0.
Proof.
  intros E Es. destruct (start_calm _ _ _ _ _ Es) as [Ha Hm]. pose proof (start_uncommitting _ _ _ _ _ Es) as Hu.
  pose proof (start_hard _ _ _ _ _ Es) as Hh. clear Es.
  assert (is_saved n0 /\ commitIndex n0 = 0 /\ lastApplied n0 = 0 /\ forall p k, matchIndex n0 !! p = Some k -> k = 0)
    as (S1 & S2 & S3 & S4).
  { unfold buildNode in E. rewrite bool_decide_eq_true_2 in E by done.
    destruct (raftlogfile.openRaftLogFile _ _) as [[lf persisted]| |]; [|done..].
    case_decide; [done|]. destruct (config.deriveConfig _ _) as [cur|]; [|done].
    destruct (lastTerm _) as [lt|]; [|done]. cbn [andb] in E.
    case_bool_decide; injection E as <-; (split; [done|]); (split; [done|]); (split; [done|]);
      cbn [matchIndex]; intros p k Hk%elem_of_list_to_map_2; apply list_elem_of_fmap in Hk as (? & [= -> ->] & _); done. }
  destruct (Hh S1 eq_refl) as (Hs & _). split; [done|]. split; [by rewrite Hu|]. split; [by rewrite Ha|].
  intros p k Hk. destruct (Hm p) as [E1|E1]; rewrite E1 in Hk; [by apply (S4 p)|congruence].
Qed.

End frame.
