(* ===== verification/RaftHistory.v ===== *)
(** * Leader completeness, abstractly

    What the run of a group leaves behind for the proof that its logs are safe:
    the leaders' logs of RaftMatching.v, what each leader began with, which
    voter acknowledged what in which term, and the log each voter had when it
    voted.  From these alone: what a majority has acknowledged in a term is in
    every log a later leader begins with. *)

From Stdlib Require Import ZArith Lia.
From Stdlib Require Import Strings.Byte.
From stdpp Require Import base list gmap sorting.
From S2P Require Import Prelude.
From S2P Require Import RaftLog.
From S2P Require Import RaftConfig.
From S2P Require Import RaftNode.
From S2P Require Import RaftVote.
From S2P Require Import RaftMatching.

#[local] Open Scope Z_scope.

Module history.
Import raftlog node matching.

Record history := MkHistory {
  led : ledger;                                    (* by term *)
  began : ledger;
  acks : gset (NodeID * Z * Z);                    (* voter, term, index *)
  ballots : gmap (NodeID * Z) (list logEntry)      (* voter, term *)
}.

(** The first [k] entries of the leader of [T]. *)
Definition upto (h : history) (T k : Z) : list logEntry := take (Z.to_nat k) (default [] (led h !! T)).

(** Some leader between [T] and [T'] began without them. *)
Definition lost (h : history) (T k T' : Z) : Prop :=
  exists T'' P, T < T'' < T' /\ began h !! T'' = Some P /\ ~ upto h T k `prefix_of` P.

Definition acked (h : history) (v : NodeID) (T k : Z) : Prop := exists k', k <= k' /\ (v, T, k') ∈ acks h.

Definition last_term (L : list logEntry) : Z := full_term L (len L).

(** The order in which candidates and voters are compared. *)
Definition uptodate (Lc L : list logEntry) : Prop :=
  last_term Lc > last_term L \/ (last_term Lc = last_term L /\ len L <= len Lc).

Section history.
Context (C : gset NodeID).

Record history_ok (h : history) : Prop := {
  ho_led T P : led h !! T = Some P -> 1 <= T /\ sound (led h) P
    /\ exists P0 R, began h !! T = Some P0 /\ P = P0 ++ R
         /\ Forall (fun e => e_term e < T) P0 /\ Forall (fun e => e_term e = T) R;
  ho_began T P0 : began h !! T = Some P0 -> is_Some (led h !! T)
    /\ (T <= 1 \/ exists W : gset NodeID, W ⊆ C /\ vote.quorum C <= Z.of_nat (size W)
          /\ forall w, w ∈ W -> exists L, ballots h !! (w, T) = Some L /\ uptodate P0 L);
  ho_acks v T k : (v, T, k) ∈ acks h -> exists P, led h !! T = Some P /\ 0 <= k <= len P;
  ho_ballots v T L : ballots h !! (v, T) = Some L -> sound (led h) L;
  ho_vote v T k T' L : acked h v T k -> ballots h !! (v, T') = Some L -> T < T' ->
    upto h T k `prefix_of` L \/ lost h T k T'
}.

(** [k] entries are committed by the leader of [T]: the last of them is its own
    and a majority has them. *)
Definition committed (h : history) (T k : Z) : Prop :=
  1 <= k /\ full_term (default [] (led h !! T)) k = T
  /\ exists Q : gset NodeID, Q ⊆ C /\ vote.quorum C <= Z.of_nat (size Q) /\ forall v, v ∈ Q -> acked h v T k.

Section complete.
Context {h : history} (Hok : history_ok h).

(** Terms do not fall along a sound log. *)
Lemma sound_terms L a b x y :
  sound (led h) L -> L !! a = Some x -> L !! b = Some y -> (a <= b)%nat -> e_term x <= e_term y.
Proof.
  intros HL Ha Hb Hab. destruct (HL b y Hb) as (P & HP & Hpre).
  destruct (ho_led _ Hok _ _ HP) as (_ & _ & P0 & R & _ & -> & H0 & HR).
  assert (x ∈ P0 ++ R) as Hx.
  { apply (list_elem_of_lookup_2 _ a). eapply prefix_lookup_Some; [|exact Hpre]. rewrite lookup_take_lt by lia. done. }
  rewrite Forall_forall in H0, HR. apply elem_of_app in Hx as [Hx|Hx]; [specialize (H0 x Hx)|specialize (HR x Hx)]; lia.
Qed.

Lemma last_entry L : L <> [] -> exists e, L !! (length L - 1)%nat = Some e /\ last_term L = e_term e.
Proof.
  intros Hne. destruct (lookup_lt_is_Some_2 L (length L - 1)) as [e He]; [destruct L; cbn; [done|lia]|].
  exists e. split; [done|]. unfold last_term, full_term, len. rewrite decide_False by (destruct L; cbn; [done|lia]).
  replace (Z.to_nat (Z.of_nat (length L) - 1)) with (length L - 1)%nat by lia. by rewrite He.
Qed.

(** A sound log is a part of the log of the leader of its last term. *)
Lemma sound_last L : sound (led h) L -> L <> [] -> exists P, led h !! last_term L = Some P /\ L `prefix_of` P.
Proof.
  intros HL Hne. destruct (last_entry L Hne) as (e & He & ->). destruct (HL _ _ He) as (P & HP & Hpre).
  exists P. split; [done|]. rewrite take_ge in Hpre by lia. done.
Qed.

Lemma sound_last_ge L k x : sound (led h) L -> L !! k = Some x -> e_term x <= last_term L.
Proof.
  intros HL Hx. pose proof (lookup_lt_Some _ _ _ Hx). destruct (last_entry L) as (e & He & ->); [by destruct L|].
  apply (sound_terms L k (length L - 1)); try done. lia.
Qed.

Lemma upto_length T k P : led h !! T = Some P -> 0 <= k <= len P -> length (upto h T k) = Z.to_nat k.
Proof. intros HP Hk. unfold upto. rewrite HP. cbn. rewrite length_take. unfold len in Hk. lia. Qed.

(** What a log that was elected begins with is in every sound log with an entry
    of its term. *)
Lemma began_prefix L X : sound (led h) L -> L <> [] -> last_term L = X ->
  exists P0, began h !! X = Some P0 /\ P0 `prefix_of` L.
Proof.
  intros HL Hne HX. destruct (sound_last L HL Hne) as (P & HP & Hpre). rewrite HX in HP.
  destruct (ho_led _ Hok _ _ HP) as (_ & _ & P0 & R & H0 & -> & Ht & _). exists P0. split; [done|].
  apply (prefix_comparable P0 L (P0 ++ R)); [by exists R|done|].
  destruct (last_entry L Hne) as (e & He & Hl). rewrite HX in Hl.
  destruct (decide (length P0 <= length L)%nat) as [?|Hgt]; [done|]. exfalso.
  pose proof (prefix_lookup_Some _ _ _ _ He Hpre) as Hin. apply lookup_lt_Some in He as Hlt.
  rewrite lookup_app_l in Hin by lia. rewrite Forall_forall in Ht.
  specialize (Ht e (list_elem_of_lookup_2 _ _ _ Hin)). lia.
Qed.

(** Leader completeness. *)
Lemma leader_complete T k : committed h T k ->
  forall T' P, began h !! T' = Some P -> T < T' -> upto h T k `prefix_of` P.
Proof.
  intros (Hk & Hterm & Q & HQ & HQs & Hack) T'.
  induction T' as [T' IH] using (well_founded_ind (Z.lt_wf 1)). intros P HP HT.
  destruct (ho_began _ Hok _ _ HP) as ((P' & HP') & Hel).
  destruct (ho_led _ Hok _ _ HP') as (HT1 & HsP' & P0 & R & HP0 & -> & Hlt & _). rewrite HP in HP0. injection HP0 as <-.
  assert (sound (led h) P) as HsP by (eapply sound_prefix; [exact HsP'|by exists R]).
  assert (exists x D, led h !! T = Some D /\ upto h T k !! Z.to_nat (k - 1) = Some x /\ e_term x = T) as (x & D & HD & Hx & HxT).
  { destruct (vote.quorums_meet C Q Q HQ HQ HQs HQs) as (v & Hv & _). destruct (Hack v Hv) as (k' & Hk' & Hin).
    destruct (ho_acks _ Hok _ _ _ Hin) as (D & HD & Hb). rewrite HD in Hterm. cbn in Hterm.
    destruct (lookup_lt_is_Some_2 D (Z.to_nat (k - 1))) as [e He]; [unfold len in Hb; lia|].
    unfold full_term in Hterm. rewrite decide_False, He in Hterm by lia. cbn in Hterm.
    exists e, D. split; [done|]. split; [|done]. unfold upto. rewrite HD. cbn. by rewrite lookup_take_lt by lia. }
  destruct (ho_led _ Hok _ _ HD) as (HT0 & _).
  destruct Hel as [?|(W & HW & HWs & HWb)]; [lia|].
  destruct (vote.quorums_meet C Q W HQ HW HQs HWs) as (v & HvQ & HvW). destruct (HWb v HvW) as (L & HL & Hutd).
  pose proof (ho_ballots _ Hok _ _ _ HL) as HsL.
  assert (upto h T k `prefix_of` L) as HvL.
  { destruct (ho_vote _ Hok _ _ _ _ _ (Hack v HvQ) HL HT) as [?|(T'' & P'' & HT'' & HP'' & Hn)]; [done|].
    exfalso. apply Hn, (IH T''); [lia|done|lia]. }
  pose proof (sound_last_ge L _ x HsL (prefix_lookup_Some _ _ _ _ Hx HvL)) as HLT. rewrite HxT in HLT.
  assert (last_term P <> 0 -> P <> []) as HPne by (intros Hne ->; by apply Hne).
  assert (L <> []) as HLne by (intros ->; apply prefix_nil_inv in HvL; by rewrite HvL in Hx).
  assert (P <> []) as HPne' by (apply HPne; destruct Hutd; lia).
  destruct Hutd as [Hgt|[Heq Hlen]].
  - destruct (began_prefix P _ HsP HPne' eq_refl) as (P1 & HP1 & Hpre).
    destruct (last_entry P HPne') as (e & He & Hle). rewrite Forall_forall in Hlt.
    specialize (Hlt e (list_elem_of_lookup_2 _ _ _ He)). etrans; [|exact Hpre]. apply (IH (last_term P)); [lia|done|lia].
  - destruct (sound_last P HsP HPne') as (Q1 & HQ1 & HpP). destruct (sound_last L HsL HLne) as (Q2 & HQ2 & HpL).
    rewrite <- Heq, HQ1 in HQ2. injection HQ2 as <-. etrans; [exact HvL|].
    apply (prefix_comparable L P Q1 HpL HpP). unfold len in Hlen. lia.
Qed.

(** The prefix of a committed one, and what later leaders have. *)
Lemma committed_led_len T k : committed h T k -> exists P, led h !! T = Some P /\ 1 <= k <= len P.
Proof.
  intros (Hk & _ & Q & HQ & HQs & Hack). destruct (vote.quorums_meet C Q Q HQ HQ HQs HQs) as (v & Hv & _).
  destruct (Hack v Hv) as (k' & Hk' & Hin). destruct (ho_acks _ Hok _ _ _ Hin) as (P & HP & Hb). exists P. split; [done|lia].
Qed.

Lemma committed_led T k T' P : committed h T k -> led h !! T' = Some P -> T <= T' -> upto h T k `prefix_of` P.
Proof.
  intros Hc HP HT. destruct (decide (T = T')) as [<-|Hne].
  - unfold upto. rewrite HP. cbn. exists (drop (Z.to_nat k) P). by rewrite take_drop.
  - destruct (ho_led _ Hok _ _ HP) as (_ & _ & P0 & R & HP0 & -> & _).
    etrans; [apply (leader_complete T k Hc T' P0 HP0); lia|by exists R].
Qed.

Lemma upto_le T k k' : k' <= k -> upto h T k' `prefix_of` upto h T k.
Proof.
  intros Hk. unfold upto. set (D := default [] _). exists (drop (Z.to_nat k') (take (Z.to_nat k) D)).
  rewrite <- (take_drop (Z.to_nat k') (take (Z.to_nat k) D)) at 1. f_equal. rewrite take_take. f_equal. lia.
Qed.

End complete.

(** ** Growing histories *)

Record extends (h h' : history) : Prop := {
  ex_led : grows (led h) (led h');
  ex_began T P : began h !! T = Some P -> began h' !! T = Some P;
  ex_acks : acks h ⊆ acks h';
  ex_ballots v T L : ballots h !! (v, T) = Some L -> ballots h' !! (v, T) = Some L
}.

#[export] Instance extends_preorder : PreOrder extends.
Proof.
  split.
  - intros h. by split.
  - intros h1 h2 h3 [A1 A2 A3 A4] [B1 B2 B3 B4]. split; [by etrans|auto|set_solver|auto].
Qed.

Lemma upto_extends h h' T k P :
  extends h h' -> led h !! T = Some P -> k <= len P -> upto h' T k = upto h T k.
Proof.
  intros [Hg _ _ _] HP Hk. destruct (Hg _ _ HP) as (P' & HP' & r & ->). unfold upto. rewrite HP, HP'. cbn.
  rewrite take_app_le; [done|]. unfold len in Hk. lia.
Qed.

Section growing.
Context {h h' : history} (Hok : history_ok h) (Hex : extends h h').

Lemma acked_extends v T k : acked h v T k -> acked h' v T k.
Proof. intros (k' & Hk & Hin). exists k'. split; [done|]. by apply (ex_acks _ _ Hex). Qed.

Lemma acked_led v T k : acked h v T k -> exists P, led h !! T = Some P /\ k <= len P.
Proof. intros (k' & Hk & Hin). destruct (ho_acks _ Hok _ _ _ Hin) as (P & HP & Hb). exists P. split; [done|lia]. Qed.

Lemma lost_extends T k T' P : led h !! T = Some P -> k <= len P -> lost h T k T' -> lost h' T k T'.
Proof.
  intros HP Hk (T'' & P'' & H1 & H2 & H3). exists T'', P''. split; [done|]. split; [by apply (ex_began _ _ Hex)|].
  by rewrite (upto_extends h h' T k P).
Qed.

Lemma committed_extends T k : committed h T k -> committed h' T k.
Proof.
  intros Hc. destruct (committed_led_len Hok T k Hc) as (P & HP & Hb). destruct Hc as (Hk & Ht & Q & HQ & HQs & Hack).
  split; [done|]. split.
  - destruct (ex_led _ _ Hex _ _ HP) as (P' & HP' & r & ->). rewrite HP in Ht. rewrite HP'. cbn in *. transitivity (full_term P k); [|done].
    unfold full_term. case_decide; [done|]. rewrite lookup_app_l; [done|]. unfold len in Hb. lia.
  - exists Q. split; [done|]. split; [done|]. intros v Hv. by apply acked_extends, Hack.
Qed.

Lemma vote_extends v T k T' L :
  acked h v T k -> upto h T k `prefix_of` L \/ lost h T k T' -> upto h' T k `prefix_of` L \/ lost h' T k T'.
Proof.
  intros Ha. destruct (acked_led v T k Ha) as (P & HP & Hk). rewrite (upto_extends h h' T k P Hex HP Hk).
  intros [?|Hl]; [by left|]. right. by apply (lost_extends T k T' P).
Qed.

End growing.

(** ** The moves *)

(** The leader of [T] has log [L]. *)
Definition lead (T : Z) (L : list logEntry) (h : history) : history :=
  MkHistory (<[T := L]> (led h)) (match began h !! T with Some _ => began h | None => <[T := L]> (began h) end)
    (acks h) (ballots h).

Definition ack (v : NodeID) (T k : Z) (h : history) : history :=
  MkHistory (led h) (began h) ({[(v, T, k)]} ∪ acks h) (ballots h).

Definition ballot (v : NodeID) (T : Z) (L : list logEntry) (h : history) : history :=
  MkHistory (led h) (began h) (acks h) (<[(v, T) := L]> (ballots h)).

Definition may_lead (h : history) (T : Z) (L : list logEntry) : Prop :=
  match led h !! T with
  | Some P => exists R, L = P ++ R /\ Forall (fun e => e_term e = T) R
  | None => 1 <= T /\ Forall (fun e => e_term e < T) L
      /\ (T <= 1 \/ exists W : gset NodeID, W ⊆ C /\ vote.quorum C <= Z.of_nat (size W)
           /\ forall w, w ∈ W -> exists L0, ballots h !! (w, T) = Some L0 /\ uptodate L L0)
  end.

Lemma lead_extends h T L : history_ok h -> may_lead h T L -> extends h (lead T L h).
Proof.
  intros Hok Hm. unfold may_lead in Hm. split; cbn [lead led began acks ballots]; try done.
  - intros T' P HP. destruct (decide (T = T')) as [<-|Hne].
    + rewrite HP in Hm. destruct Hm as (R & -> & _). exists (P ++ R). rewrite lookup_insert_eq. split; [done|by exists R].
    + exists P. by rewrite lookup_insert_ne.
  - intros T' P HP. destruct (began h !! T) as [P0|] eqn:E; [done|]. rewrite lookup_insert_ne; [done|congruence].
Qed.

Lemma lead_ok h T L :
  history_ok h -> sound (<[T := L]> (led h)) L -> may_lead h T L -> history_ok (lead T L h).
Proof.
  intros Hok HL Hm. pose proof (lead_extends h T L Hok Hm) as Hex. unfold may_lead in Hm.
  pose proof (ex_led _ _ Hex) as Hg. cbn [lead led] in Hg.
  split.
  - intros T' P HP. cbn [lead led began] in *. destruct (decide (T = T')) as [<-|Hne].
    + rewrite lookup_insert_eq in HP. injection HP as <-. destruct (led h !! T) as [P|] eqn:E.
      * destruct (ho_led _ Hok _ _ E) as (H1 & _ & P0 & R0 & H0 & -> & Ha & Hb). destruct Hm as (R & -> & HR).
        split; [done|]. split; [done|]. exists P0, (R0 ++ R). rewrite H0, app_assoc. split; [done|]. split; [done|].
        split; [done|]. by apply Forall_app.
      * destruct Hm as (H1 & Hlt & _). split; [done|]. split; [done|]. exists L, []. rewrite app_nil_r.
        destruct (began h !! T) as [P0|] eqn:E0; [destruct (ho_began _ Hok _ _ E0) as ([? ?] & _); congruence|].
        by rewrite lookup_insert_eq.
    + rewrite lookup_insert_ne in HP by done. destruct (ho_led _ Hok _ _ HP) as (H1 & H2 & P0 & R & H0 & Hr).
      split; [done|]. split; [by apply (sound_mono (led h))|]. exists P0, R. split; [|done].
      exact (ex_began _ _ Hex _ _ H0).
  - intros T' P0 H0. cbn [lead led began ballots] in *. destruct (began h !! T) as [P1|] eqn:E1.
    + destruct (ho_began _ Hok _ _ H0) as ([P HP] & H). split; [|done]. destruct (Hg _ _ HP) as (P' & HP' & _). by exists P'.
    + destruct (decide (T = T')) as [<-|Hne].
      * rewrite lookup_insert_eq in H0 |- *. injection H0 as <-. split; [by eexists|].
        destruct (led h !! T) as [P|] eqn:E; [|by apply Hm].
        destruct (ho_led _ Hok _ _ E) as (_ & _ & P0 & R & H0 & _). congruence.
      * rewrite lookup_insert_ne in H0 by done. rewrite lookup_insert_ne by done. by apply (ho_began _ Hok).
  - intros v T' k Hin. destruct (ho_acks _ Hok _ _ _ Hin) as (P & HP & Hk). destruct (Hg _ _ HP) as (P' & HP' & r & ->).
    exists (P ++ r). split; [done|]. rewrite len_app. pose proof (len_nonneg r). lia.
  - intros v T' L' HL'. apply (sound_mono (led h)); [done|]. by apply (ho_ballots _ Hok v T').
  - intros v T' k T'' L' Ha Hb HT. apply (vote_extends Hok Hex v); [done|]. by apply (ho_vote _ Hok v).
Qed.

Lemma ack_extends h v T k : extends h (ack v T k h).
Proof. split; try done. cbn. set_solver. Qed.

Lemma ack_ok h v T k P :
  history_ok h -> led h !! T = Some P -> 0 <= k <= len P ->
  (forall T' L, ballots h !! (v, T') = Some L -> T' <= T) -> history_ok (ack v T k h).
Proof.
  intros Hok HP Hk Hb. pose proof (ack_extends h v T k) as Hex. destruct Hok as [H1 H2 H3 H4 H5]. split; try done.
  - intros v' T' k'. cbn. intros [[= -> -> ->]%elem_of_singleton|Hin]%elem_of_union; [by exists P|by apply (H3 v')].
  - intros v' T' k' T'' L (k2 & Hk2 & Hin) HL HT. cbn in Hin, HL.
    apply elem_of_union in Hin as [[= -> -> ->]%elem_of_singleton|Hin]; [specialize (Hb _ _ HL); lia|].
    by apply (H5 v' T' k' T'' L); [exists k2| |].
Qed.

Lemma ballot_extends h v T L : ballots h !! (v, T) = None -> extends h (ballot v T L h).
Proof. intros Hn. split; try done. cbn. intros v' T' L' HL'. rewrite lookup_insert_ne; [done|congruence]. Qed.

Lemma ballot_ok h v T L :
  history_ok h -> ballots h !! (v, T) = None -> sound (led h) L ->
  (forall T0 k, acked h v T0 k -> T0 < T -> upto h T0 k `prefix_of` L \/ lost h T0 k T) ->
  history_ok (ballot v T L h).
Proof.
  intros Hok Hn HL Ha. pose proof (ballot_extends h v T L Hn) as Hex. destruct Hok as [H1 H2 H3 H4 H5]. split; try done.
  - intros T' P0 H0. destruct (H2 _ _ H0) as (Hi & Hel). split; [done|].
    destruct Hel as [?|(W & HW & HWs & H)]; [by left|]. right. exists W. split; [done|]. split; [done|].
    intros w Hw. destruct (H w Hw) as (L0 & HL0 & Hu). exists L0. split; [|done]. by apply (ex_ballots _ _ Hex).
  - intros v' T' L'. cbn. intros [[[= -> ->] ->]|[_ ?]]%lookup_insert_Some; [done|by apply (H4 v' T')].
  - intros v' T' k T'' L' Hack. cbn. intros [[[= -> ->] ->]|[_ ?]]%lookup_insert_Some HT; [by apply Ha|by apply (H5 v')].
Qed.

(** ** Commit indexes *)

(** A log of a node in term [t] has the first [ci] of entries committed. *)
Definition backed (h : history) (t ci : Z) (L : list logEntry) : Prop :=
  0 <= ci /\ (ci = 0 \/ exists T k, committed h T k /\ ci <= k /\ T <= t /\ upto h T ci `prefix_of` L).

Lemma backed_extends h h' t t' ci L :
  history_ok h -> extends h h' -> t <= t' -> backed h t ci L -> backed h' t' ci L.
Proof.
  intros Hok Hex Ht [H0 [?|(T & k & Hc & Hk & HT & Hp)]]; (split; [done|]); [by left|right].
  destruct (committed_led_len Hok T k Hc) as (P & HP & Hb).
  exists T, k. split; [by apply (committed_extends Hok Hex)|]. split; [done|]. split; [lia|].
  by rewrite (upto_extends h h' T ci P) by (done || lia).
Qed.

Lemma backed_len h t ci L : history_ok h -> backed h t ci L -> ci <= len L.
Proof.
  intros Hok [H0 [->|(T & k & Hc & Hk & HT & Hp)]]; [apply len_nonneg|].
  destruct (committed_led_len Hok T k Hc) as (P & HP & Hb).
  apply prefix_length in Hp. rewrite (upto_length T ci P HP) in Hp by lia. unfold len. lia.
Qed.

Lemma prefix_take_eq (A L : list logEntry) n : A `prefix_of` L -> (n <= length A)%nat -> take n L = take n A.
Proof. intros [r ->] Hn. by rewrite take_app_le. Qed.

(** Two logs agree on what is committed in both. *)
Lemma backed_agree h t1 t2 c1 c2 c L1 L2 :
  history_ok h -> backed h t1 c1 L1 -> backed h t2 c2 L2 -> c <= c1 -> c <= c2 ->
  take (Z.to_nat c) L1 = take (Z.to_nat c) L2.
Proof.
  intros Hok [H1 B1] [H2 B2] Hc1 Hc2. destruct (decide (c <= 0)) as [Hz|Hpos]; [by replace (Z.to_nat c) with 0%nat by lia|].
  destruct B1 as [?|(T1 & k1 & Hk1 & Hl1 & _ & Hp1)]; [lia|]. destruct B2 as [?|(T2 & k2 & Hk2 & Hl2 & _ & Hp2)]; [lia|].
  destruct (committed_led_len Hok _ _ Hk1) as (P1 & HP1 & Hb1). destruct (committed_led_len Hok _ _ Hk2) as (P2 & HP2 & Hb2).
  rewrite (prefix_take_eq _ _ _ Hp1) by (rewrite (upto_length T1 c1 P1) by (done || lia); lia).
  rewrite (prefix_take_eq _ _ _ Hp2) by (rewrite (upto_length T2 c2 P2) by (done || lia); lia).
  assert (forall Ta ka Pa Tb Pb, committed h Ta ka -> c <= ka -> led h !! Ta = Some Pa -> ka <= len Pa -> led h !! Tb = Some Pb ->
            Ta <= Tb -> take (Z.to_nat c) Pa = take (Z.to_nat c) Pb) as Hcase.
  { intros Ta ka Pa Tb Pb Hka Hca HPa Hla HPb HT. pose proof (committed_led Hok Ta ka Tb Pb Hka HPb HT) as Hp.
    rewrite (prefix_take_eq _ _ _ Hp) by (rewrite (upto_length Ta ka Pa) by (done || lia); lia).
    unfold upto. rewrite HPa. cbn. rewrite take_take. f_equal. lia. }
  unfold upto. rewrite HP1, HP2. cbn. rewrite !take_take.
  replace (Z.to_nat c `min` Z.to_nat c1)%nat with (Z.to_nat c) by lia.
  replace (Z.to_nat c `min` Z.to_nat c2)%nat with (Z.to_nat c) by lia.
  destruct (decide (T1 <= T2)).
  - apply (Hcase T1 k1 P1 T2 P2); try done; lia.
  - symmetry. apply (Hcase T2 k2 P2 T1 P1); try done; lia.
Qed.

End history.
End history.
