(* ===== verification/RaftSafety.v ===== *)
(** * State machine safety

    Over the runs of RaftMatching.v in which late replies do not count: what a
    node knows to be committed is in the log of every later leader, and no two
    nodes ever differ on it.  The runs keep the history of RaftHistory.v. *)

From Stdlib Require Import ZArith Lia.
From Stdlib Require Import Strings.Byte.
From stdpp Require Import base list gmap gmultiset sorting.
From S2P Require Import Prelude.
From S2P Require Import RaftLog.
From S2P Require Import RaftConfig.
From S2P Require Import RaftLogFile.
From S2P Require Import RaftNode.
From S2P Require Import RaftRun.
From S2P Require Import RaftVote.
From S2P Require Import RaftElection.
From S2P Require Import RaftCommit.
From S2P Require Import RaftFollower.
From S2P Require Import RaftApply.
From S2P Require Import RaftRepair.
From S2P Require Import RaftMatching.
From S2P Require Import RaftFrame.
From S2P Require Import RaftHistory.

#[local] Open Scope Z_scope.

Module safety.
Import raftlog node run election follower applied repair matching frame history.

(** ** The invariant *)

Record node_safe (C : gset NodeID) (h : history) (n : Node) (i : NodeID) : Prop := {
  ns_terms : Forall (fun e => e_term e <= currentTerm n) (entries (log n));
  ns_saved : is_saved n;
  ns_acks T k : acked h i T k ->
    T <= currentTerm n /\ (upto h T k `prefix_of` entries (log n) \/ lost h T k (currentTerm n + 1));
  ns_applied : 0 <= lastApplied n <= commitIndex n;
  ns_commit : backed C h (currentTerm n) (commitIndex n) (entries (log n));
  ns_match : role n = Leader -> forall p k, p ∈ C -> p <> i -> matchIndex n !! p = Some k -> 0 < k ->
    acked h p (currentTerm n) k;
  ns_cand : role n = Candidate ->
    is_Some (led h !! currentTerm n) \/ ballots h !! (i, currentTerm n) = Some (entries (log n))
}.

(** What a message says of its sender's log held when it was sent. *)
Definition msg_safe (C : gset NodeID) (h : history) (m : Message) : Prop :=
  match body m with
  | MsgAppendEntries prev _ es lc =>
      exists P, led h !! Term m = Some P /\ lc <= prev + len es /\ backed C h (Term m) lc P
  | MsgAppendResponse true mi _ => acked h (From m) (Term m) mi
  | MsgRequestVote c li lti _ =>
      is_Some (led h !! Term m) \/ exists L, ballots h !! (c, Term m) = Some L /\ li = len L /\ lti = last_term L
  | _ => True
  end.

(** In a term without a leader so far every vote went to a log at least as up to
    date as the voter's. *)
Definition votes_safe (h : history) (g : vote.state) : Prop := forall w T c,
  vote.given g !! (w, T) = Some c ->
  is_Some (led h !! T)
  \/ exists Lc L, ballots h !! (c, T) = Some Lc /\ ballots h !! (w, T) = Some L /\ uptodate Lc L.

Definition ballots_given (h : history) (g : vote.state) : Prop := forall w T L,
  ballots h !! (w, T) = Some L -> is_Some (vote.given g !! (w, T)).

Record safe_inv (C : Members) (c : cluster) (g : vote.state) (h : history) : Prop := {
  si_match : matching_inv C c g (led h);
  si_ok : history_ok (dom C) h;
  si_nodes i n : nodes c !! i = Some n -> node_safe (dom C) h n i;
  si_given : ballots_given h g;
  si_votes : votes_safe h g;
  si_net : Forall (fun x => msg_safe (dom C) h x.2) (net c)
}.

(** ** Growing histories *)

Lemma led_extends h h' T : extends h h' -> is_Some (led h !! T) -> is_Some (led h' !! T).
Proof. intros Hex [P HP]. destruct (ex_led _ _ Hex _ _ HP) as (P' & HP' & _). by exists P'. Qed.

Lemma backed_grow C h t ci L L' : backed C h t ci L -> L `prefix_of` L' -> backed C h t ci L'.
Proof.
  intros [H0 [?|(T & k & Hc & Hk & HT & Hp)]] Hpre; (split; [done|]); [by left|right].
  exists T, k. split_and!; try done. by etrans.
Qed.

Lemma backed_le C h t ci ci' L : 0 <= ci' <= ci -> backed C h t ci L -> backed C h t ci' L.
Proof.
  intros Hci [H0 [->|(T & k & Hc & Hk & HT & Hp)]]; (split; [lia|]); [left; lia|right].
  exists T, k. split; [done|]. split; [lia|]. split; [done|]. etrans; [|exact Hp]. apply upto_le. lia.
Qed.

Section growing.
Context {C : gset NodeID} {h h' : history} (Hok : history_ok C h) (Hex : extends h h').

Lemma node_safe_mono n i :
  (forall T k, acked h' i T k -> acked h i T k) -> node_safe C h n i -> node_safe C h' n i.
Proof.
  intros Ha [H1 H2 H3 H4 H5 H6 H7]. split; try done.
  - intros T k Hk%Ha. destruct (H3 T k Hk) as [HT Hup]. split; [done|]. by apply (vote_extends C Hok Hex i).
  - by apply (backed_extends C h h' (currentTerm n)).
  - intros HL p k Hp Hne Hm Hk. by apply (acked_extends Hex), H6.
  - intros HC. destruct (H7 HC) as [?|?]; [left; by eapply led_extends|right]. by apply (ex_ballots _ _ Hex).
Qed.

Lemma msg_safe_mono m : msg_safe C h m -> msg_safe C h' m.
Proof.
  unfold msg_safe. destruct (body m) as [prev pt es lc|s mi hint|c li lti tr| | | |]; try done.
  - intros (P & HP & Hlc & Hb). destruct (ex_led _ _ Hex _ _ HP) as (P' & HP' & Hpre). exists P'. split; [done|].
    split; [done|]. apply (backed_grow C h' _ _ P); [|done]. by apply (backed_extends C h h' (Term m)).
  - destruct s; [|done]. apply (acked_extends Hex).
  - intros [?|(L & HL & Hr)]; [left; by eapply led_extends|right]. exists L. split; [by apply (ex_ballots _ _ Hex)|done].
Qed.

Lemma votes_safe_mono g : votes_safe h g -> votes_safe h' g.
Proof.
  intros H w T c Hg. destruct (H w T c Hg) as [?|(Lc & L & H1 & H2 & H3)]; [left; by eapply led_extends|right].
  exists Lc, L. split_and!; [by apply (ex_ballots _ _ Hex)..|done].
Qed.

End growing.

(** Messages that promise nothing. *)
Lemma unclaimed_safe C h es : claims es = [] -> appends es = [] -> Forall (fun x => msg_safe C h x.2) (sends es).
Proof.
  intros Hc Ha. apply Forall_forall. intros x Hx.
  assert (is_claim x = false) as Ec.
  { destruct (is_claim x) eqn:E; [|done]. exfalso. assert (x ∈ claims es) as Hin by (by apply list_elem_of_filter).
    rewrite Hc in Hin. by apply elem_of_nil in Hin. }
  assert (is_append x = false) as Ea.
  { destruct (is_append x) eqn:E; [|done]. exfalso. assert (x ∈ appends es) as Hin by (by apply list_elem_of_filter).
    rewrite Ha in Hin. by apply elem_of_nil in Hin. }
  unfold msg_safe. unfold is_claim in Ec. unfold is_append in Ea. destruct (body x.2); try done. by rewrite Ec.
Qed.

(** ** A leader's commit index *)

Lemma electorate_all n (C : Members) :
  config n = Some C -> (forall p b, C !! p = Some b -> b = true) -> commit.electorate n C = dom C.
Proof.
  intros HC Hall. apply set_eq. intros p. unfold commit.electorate, inConfigLocked. rewrite HC.
  rewrite elem_of_union, elem_of_difference, elem_of_singleton. destruct (C !! id n) as [b|] eqn:E; cbn.
  - rewrite (Hall _ _ E). rewrite elem_of_singleton. split; [intros [[? _]| ->]; [done|by apply elem_of_dom]|].
    intros ?. destruct (decide (p = id n)); auto.
  - split; [intros [[? _]|H]; [done|by apply not_elem_of_empty in H]|]. intros Hp. left. split; [done|].
    intros ->. apply elem_of_dom in Hp as [b Hb]. congruence.
Qed.

(** Where a leader moves its commit index, a majority has acknowledged. *)
Lemma advance_safe (C : Members) h n i lf w n' w' :
  (forall p b, C !! p = Some b -> b = true) -> history_ok (dom C) h ->
  config n = Some C -> id n = i -> role n = Leader -> led h !! currentTerm n = Some (entries (log n)) ->
  baseIndex (log n) = 0 -> logs n lf (entries (log n)) ->
  (forall T L, ballots h !! (i, T) = Some L -> T <= currentTerm n) ->
  node_safe (dom C) h n i -> maybeAdvanceCommitLocked n w = Some (tt, n', w') ->
  exists h', extends h h' /\ history_ok (dom C) h' /\ led h' = led h /\ ballots h' = ballots h
    /\ (forall v T k, v <> i -> acked h' v T k -> acked h v T k) /\ node_safe (dom C) h' n' i.
Proof.
  intros Hall Hok HC Hid HL Hled Hb0 [Hr _ _] Hbal Hns E. set (L := entries (log n)) in *. set (T := currentTerm n) in *.
  destruct (commit.advance_majority C n w tt n' w' HC E) as [->|(k & -> & Hgt & Ht & Hmaj)]; [by exists h|].
  rewrite (electorate_all n C HC Hall) in Hmaj. fold (vote.quorum (dom C)) in Hmaj.
  pose proof Hns as [N1 N2 N3 N4 N5 N6 N7]. assert (1 <= k) as Hk1 by lia.
  assert (forall v, v ∈ commit.supporters n C k -> v ∈ dom C /\ (v = i \/ acked h v T k)) as Hsup.
  { intros v. unfold commit.supporters. rewrite (electorate_all n C HC Hall), elem_of_filter. unfold commit.held.
    rewrite Hid. intros [Hh Hv]. split; [done|]. case_decide as Hvi; [by left|right].
    destruct (matchIndex n !! v) as [kv|] eqn:Em; cbn in Hh; [|unfold Datatypes.id in Hh; lia].
    destruct (N6 HL v kv Hv Hvi Em) as (k' & Hk' & Hin); [unfold Datatypes.id in Hh; lia|].
    exists k'. split; [unfold Datatypes.id in Hh; lia|done]. }
  assert (k <= len L) as HkL.
  { assert (commit.supporters n C k <> ∅) as [v Hv]%set_choose_L.
    { intros E0. rewrite E0, size_empty in Hmaj. unfold vote.quorum in Hmaj.
      pose proof (Z.div_pos (Z.of_nat (size (dom C))) 2). lia. }
    assert (k <= commit.held n v) as Hh by (unfold commit.supporters in Hv; by apply elem_of_filter in Hv as [? _]).
    destruct (Hsup v Hv) as [_ [Hv'|(k' & Hk' & Hin)]].
    - unfold commit.held in Hh. rewrite decide_True in Hh by congruence. by rewrite (rep_lastIndex Hr) in Hh.
    - destruct (ho_acks _ _ Hok _ _ _ Hin) as (P & HP & Hb). rewrite Hled in HP. injection HP as <-. lia. }
  rewrite (rep_term_at Hr) in Ht by lia. injection Ht as Ht.
  pose proof (ack_extends h i T k) as Hex. set (h' := ack i T k h) in *.
  assert (history_ok (dom C) h') as Hok' by (apply (ack_ok (dom C) h i T k L Hok Hled); [lia|done]).
  assert (forall v T0 k0, v <> i -> acked h' v T0 k0 -> acked h v T0 k0) as Hoth.
  { intros v T0 k0 Hne (k' & Hk' & Hin). exists k'. split; [done|]. cbn in Hin. set_solver. }
  exists h'. split_and!; try done. split; try done.
  - intros T0 k0 (k' & Hk' & Hin). cbn [acks ack h'] in Hin. apply elem_of_union in Hin as [[= -> ->]%elem_of_singleton|Hin].
    + split; [done|]. left. change (upto h' T k0) with (upto h T k0). unfold upto. rewrite Hled. apply prefix_take_self.
    + apply (N3 T0 k0). by exists k'.
  - cbn [set_commitIndex lastApplied commitIndex]. lia.
  - split; [cbn; lia|right]. exists T, k. cbn [set_commitIndex commitIndex currentTerm log]. split; [|split; [done|split; [done|]]].
    + split; [done|]. split; [cbn [led ack h']; by rewrite Hled|]. exists (commit.supporters n C k).
      split; [intros v Hv; by apply Hsup|]. split; [done|]. intros v Hv. destruct (Hsup v Hv) as [_ [->|Ha]].
      * exists k. split; [lia|]. cbn. set_solver.
      * by apply (acked_extends Hex).
    + change (upto h' T k) with (upto h T k). unfold upto. rewrite Hled. apply prefix_take_self.
  - cbn [set_commitIndex role matchIndex currentTerm]. intros _ p kp Hp Hne Hm Hpos. by apply (acked_extends Hex), N6.
Qed.

Section preserve.
Context {C : Members} {c : cluster} {g : vote.state} {h : history} (Hinv : safe_inv C c g h).
Context {i : NodeID} {n : Node} (Hi : nodes c !! i = Some n).

(** The invariant after a step of node [i]. *)
Lemma safe_after g' h' n' rest msgs :
  matching_inv C (MkCluster (<[i := n']> (nodes c)) (rest ++ msgs)) g' (led h') ->
  extends h h' -> history_ok (dom C) h' -> (forall v T k, v <> i -> acked h' v T k -> acked h v T k) ->
  node_safe (dom C) h' n' i -> ballots_given h' g' -> votes_safe h' g' ->
  Forall (fun x => msg_safe (dom C) h x.2) rest -> Forall (fun x => msg_safe (dom C) h' x.2) msgs ->
  safe_inv C (MkCluster (<[i := n']> (nodes c)) (rest ++ msgs)) g' h'.
Proof.
  intros Hm Hex Hok' Ha Hn Hb Hv Hr Hms. pose proof (si_ok _ _ _ _ Hinv) as Hok. split; try done.
  - cbn [nodes]. intros j u Hj. destruct (decide (i = j)) as [<-|Hne].
    + rewrite lookup_insert_eq in Hj. by injection Hj as <-.
    + rewrite lookup_insert_ne in Hj by done. apply (node_safe_mono Hok Hex); [|by apply Hinv].
      intros T k. apply Ha. done.
  - cbn [net]. apply Forall_app. split; [|done]. eapply Forall_impl; [exact Hr|]. intros x. by apply msg_safe_mono.
Qed.

Lemma same_votes g' h' :
  vote.given g' = vote.given g -> extends h h' -> ballots h' = ballots h -> ballots_given h' g' /\ votes_safe h' g'.
Proof.
  intros Hg Hex Hb. split.
  - intros w T L. rewrite Hb, Hg. apply Hinv.
  - intros w T cd. rewrite Hg. apply (votes_safe_mono Hex), Hinv.
Qed.

(** *** A vote *)

Definition casts (g' : vote.state) (h1 : history) : Prop :=
  extends h h1 /\ history_ok (dom C) h1 /\ led h1 = led h /\ acks h1 = acks h
  /\ ballots_given h1 g' /\ votes_safe h1 g'.

Lemma cast g' T cand L :
  vote.given g' = <[(i, T) := cand]> (vote.given g) -> (forall c0, vote.given g !! (i, T) = Some c0 -> c0 = cand) ->
  sound (led h) L ->
  (led h !! T = None -> forall T0 k, acked h i T0 k -> T0 < T -> upto h T0 k `prefix_of` L \/ lost h T0 k T) ->
  cand = i \/ is_Some (led h !! T) \/ (exists Lc, ballots h !! (cand, T) = Some Lc /\ uptodate Lc L) ->
  exists h1, casts g' h1
    /\ (is_Some (led h !! T) \/ is_Some (vote.given g !! (i, T)) \/ ballots h1 !! (i, T) = Some L).
Proof.
  intros Hg Hold HL Ha Hup. destruct Hinv as [_ Hok _ Hgi Hvo _].
  assert (forall h1, ballots h1 = ballots h -> led h1 = led h ->
    is_Some (led h !! T) \/ is_Some (vote.given g !! (i, T)) -> ballots_given h1 g' /\ votes_safe h1 g') as Hsame.
  { intros h1 Eb El Hor. split.
    - intros w T' L'. rewrite Eb, Hg. intros Hw%Hgi. destruct (decide ((i, T) = (w, T'))) as [[= <- <-]|Hne].
      + by rewrite lookup_insert_eq.
      + by rewrite lookup_insert_ne.
    - intros w T' c'. rewrite Hg, Eb, El. intros [[[= -> ->] ->]|[_ Hw]]%lookup_insert_Some; [|by apply Hvo].
      destruct Hor as [?|[c0 Hc0]]; [by left|]. rewrite (Hold _ Hc0) in Hc0. by apply Hvo. }
  destruct (decide (is_Some (led h !! T) \/ is_Some (vote.given g !! (i, T)))) as [Hor|Hno].
  - exists h. destruct (Hsame h eq_refl eq_refl Hor). split; [by split_and!|tauto].
  - assert (led h !! T = None) as Hnl by (apply eq_None_not_Some; tauto).
    assert (ballots h !! (i, T) = None) as Hnb.
    { destruct (ballots h !! (i, T)) eqn:E; [|done]. apply Hgi in E. tauto. }
    pose proof (ballot_extends h i T L Hnb) as Hex.
    exists (ballot i T L h). split; [split_and!; try done|].
    + apply ballot_ok; auto.
    + intros w T' L'. rewrite Hg. cbn [ballots ballot]. destruct (decide ((i, T) = (w, T'))) as [[= <- <-]|Hne].
      * by rewrite !lookup_insert_eq.
      * rewrite !lookup_insert_ne by done. apply Hgi.
    + intros w T' c'. rewrite Hg. intros [[[= <- <-] <-]|[_ Hw]]%lookup_insert_Some.
      * right. destruct Hup as [->|[?|(Lc & HLc & Hu)]]; [|tauto|].
        -- exists L, L. cbn [ballots ballot]. rewrite lookup_insert_eq. split_and!; [done..|]. right. split; [done|lia].
        -- exists Lc, L. split; [by apply (ex_ballots _ _ Hex)|]. cbn [ballots ballot]. by rewrite lookup_insert_eq.
      * exact (votes_safe_mono Hex g Hvo w T' c' Hw).
    + right. right. cbn [ballots ballot]. apply lookup_insert_eq.
Qed.

(** *** A leader *)

Lemma record_leader_self (G : ledger) n' :
  role n' = Leader -> record_leader G n' !! currentTerm n' = Some (entries (log n')).
Proof. intros HL. unfold record_leader. rewrite decide_True by done. apply lookup_insert_eq. Qed.

Definition leads (n' : Node) (h1 h2 : history) : Prop :=
  extends h1 h2 /\ history_ok (dom C) h2 /\ led h2 = record_leader (led h1) n'
  /\ acks h2 = acks h1 /\ ballots h2 = ballots h1.

Lemma lead_leads n' h1 :
  history_ok (dom C) h1 -> role n' = Leader ->
  sound (record_leader (led h1) n') (entries (log n')) -> may_lead (dom C) h1 (currentTerm n') (entries (log n')) ->
  leads n' h1 (lead (currentTerm n') (entries (log n')) h1).
Proof.
  intros Hok HL Hs Hm. unfold record_leader in Hs. rewrite decide_True in Hs by done.
  pose proof (lead_extends (dom C) h1 _ _ Hok Hm) as Hex. split_and!; try done.
  - by apply lead_ok.
  - unfold record_leader. by rewrite decide_True.
Qed.

(** A step that keeps the log makes no leader but one with a majority of up-to-date
    votes. *)
Lemma take_lead g' c' h1 n' :
  rtc (vote.step (dom C)) g g' -> matching_inv C c' g' (record_leader (led h1) n') -> nodes c' !! i = Some n' ->
  casts g' h1 -> role_step n n' -> log n' = log n ->
  exists h2, leads n' h1 h2.
Proof.
  intros Hg Hm' Hi' (Hex & Hok1 & El & Ea & Hgi & Hvo) Hro Hlog.
  destruct (decide (role n' = Leader)) as [HL|HL].
  2:{ exists h1. split_and!; try done. unfold record_leader. by rewrite decide_False. }
  eexists. apply lead_leads; try done.
  { apply (bk_sound _ _ _ (mi_book _ _ _ _ Hm') _ _ (record_leader_self _ _ HL)). }
  pose proof (si_match _ _ _ _ Hinv) as Hm. destruct (role_step_leader _ _ Hro HL) as [[HL0|HC0] HT]; unfold may_lead; rewrite El.
  - rewrite HT, (tr_leader _ _ (mi_nodes _ _ _ _ Hm i n Hi) HL0). exists []. by rewrite Hlog, app_nil_r.
  - assert (vote.voters g' !! i = Some (vs n')) as Hv' by (by rewrite (m_voters _ _ _ (mi_matches _ _ _ _ Hm')), lookup_fmap, Hi').
    pose proof (fresh_term Hm Hi g' n' Hg Hv' HC0 HL HT) as Hfr. rewrite Hfr.
    pose proof (si_nodes _ _ _ _ Hinv i n Hi) as Hns. pose proof (mi_inv _ _ _ _ Hm') as Hv.
    assert (ballots h1 !! (i, currentTerm n') = Some (entries (log n'))) as Hb.
    { destruct (ns_cand _ _ _ _ Hns HC0) as [[? Hs]|Hb]; [rewrite <- HT in Hs; congruence|].
      rewrite HT, Hlog. by apply (ex_ballots _ _ Hex). }
    destruct (vote.inv_term _ _ Hv _ _ Hv') as [H1 _]. split; [exact H1|]. split.
    + rewrite Hlog, HT. apply Forall_lookup. intros k e He. pose proof (ns_terms _ _ _ _ Hns) as Ht.
      rewrite Forall_lookup in Ht. specialize (Ht k e He). cbn in Ht.
      destruct (tr_sound _ _ (mi_nodes _ _ _ _ Hm i n Hi) k e He) as (P & HP & _).
      destruct (decide (e_term e = currentTerm n)) as [E|]; [rewrite E, <- HT in HP; congruence|lia].
    + destruct (vote.tl_leader _ _ (mi_tally _ _ _ _ Hm') _ _ Hv' HL) as [(W & HW & Hq & _)|[_ HT1]]; [right|left].
      * change (vote.v_term (vs n')) with (currentTerm n') in HW.
        destruct (vote.inv_counted _ _ Hv _ _ _ HW) as (_ & _ & HWC & HWg). exists W. split; [done|]. split; [done|].
        intros w Hw. destruct (Hvo _ _ _ (HWg w Hw)) as [[? Hs]|(Lc & L & HLc & HL' & Hu)]; [rewrite El in Hs; congruence|].
        rewrite Hb in HLc. injection HLc as <-. by exists L.
      * change (currentTerm n' = 1) in HT1. lia.
Qed.

(** *** A step that keeps log, commit index and match indexes *)

Definition vote_step (n' : Node) (g' : vote.state) : Prop :=
  vote.given g' = vote.given g
  \/ exists cand, vote.given g' = <[(i, currentTerm n') := cand]> (vote.given g)
       /\ (cand = i \/ is_Some (led h !! currentTerm n')
           \/ exists Lc, ballots h !! (cand, currentTerm n') = Some Lc /\ uptodate Lc (entries (log n))).

(** The candidate's request, or nothing that promises anything. *)
Definition own_claims (n' : Node) (msgs : list (NodeID * Message)) : Prop :=
  Forall (fun x => match body x.2 with
    | MsgRequestVote cd li lti _ => role n' = Candidate /\ Term x.2 = currentTerm n' /\ cd = i
        /\ li = len (entries (log n')) /\ lti = last_term (entries (log n'))
    | MsgAppendEntries _ _ _ _ => False
    | MsgAppendResponse s _ _ => s = false
    | _ => True end) msgs.

Lemma lost_later (h0 : history) T k T' T'' : T' <= T'' -> lost h0 T k T' -> lost h0 T k T''.
Proof. intros HT (T1 & P & H1 & H2 & H3). exists T1, P. split; [lia|done]. Qed.

Lemma cast_step g' n' :
  rtc (vote.step (dom C)) g g' -> vote_step n' g' -> log n' = log n -> currentTerm n <= currentTerm n' ->
  exists h1, casts g' h1
    /\ (vote.given g' = vote.given g
        \/ is_Some (led h !! currentTerm n') \/ is_Some (vote.given g !! (i, currentTerm n'))
        \/ ballots h1 !! (i, currentTerm n') = Some (entries (log n'))).
Proof.
  intros Hg Hvs Hlog HT. pose proof (si_match _ _ _ _ Hinv) as Hm. pose proof (si_nodes _ _ _ _ Hinv i n Hi) as Hns.
  destruct Hvs as [Hsame|(cand & Hgi & Hup)].
  { exists h. destruct (same_votes g' h Hsame) as [? ?]; [done..|]. split; [|by left]. split_and!; try done. apply Hinv. }
  destruct (cast g' (currentTerm n') cand (entries (log n'))) as (h1 & Hc & Hor); try done.
  - intros c0 Hc0. pose proof (vote.given_steps _ _ _ _ _ (mi_inv _ _ _ _ Hm) Hg Hc0) as Hc1.
    rewrite Hgi, lookup_insert_eq in Hc1. congruence.
  - rewrite Hlog. apply (mi_nodes _ _ _ _ Hm i n Hi).
  - intros Hnl T0 k Ha HT0. destruct (ns_acks _ _ _ _ Hns T0 k Ha) as [_ [?|(T1 & P & H1 & H2 & H3)]]; [left; by rewrite Hlog|right].
    exists T1, P. split; [|done]. destruct (ho_began _ _ (si_ok _ _ _ _ Hinv) _ _ H2) as ([P' HP'] & _).
    destruct (decide (T1 = currentTerm n')); [congruence|lia].
  - by rewrite Hlog.
  - exists h1. split; [done|tauto].
Qed.

Lemma plain_safe g' n' w w' rest msgs :
  let c' := MkCluster (<[i := n']> (nodes c)) (rest ++ msgs) in
  rtc (vote.step (dom C)) g g' -> matching_inv C c' g' (record_leader (led h) n') ->
  log n' = log n -> role_step n n' -> is_saved n' -> currentTerm n <= currentTerm n' ->
  calm n w n' w' -> commitIndex n' = commitIndex n ->
  (role n' = Leader -> role n = Candidate -> forall p, p ∈ dom C -> p <> i -> matchIndex n' !! p = Some 0) ->
  vote_step n' g' -> Forall (fun x => msg_safe (dom C) h x.2) rest -> own_claims n' msgs ->
  exists h', extends h h' /\ safe_inv C c' g' h'.
Proof.
  intros c' Hg Hm' Hlog Hro Hsv HT [Hla Hmi] Hci Hreset Hvs Hrest Hown.
  pose proof (si_nodes _ _ _ _ Hinv i n Hi) as Hns. pose proof (si_ok _ _ _ _ Hinv) as Hok.
  assert (nodes c' !! i = Some n') as Hi' by apply lookup_insert_eq.
  destruct (cast_step g' n' Hg Hvs Hlog HT) as (h1 & Hc & Hcase). pose proof Hc as (Hex1 & Hok1 & El1 & Ea1 & Hgi1 & Hvo1).
  destruct (take_lead g' c' h1 n') as (h2 & Hex2 & Hok2 & El2 & Ea2 & Eb2); try done; [by rewrite El1|].
  assert (extends h h2) as Hex by (by etrans). rewrite El1 in El2.
  assert (forall v T k, acked h2 v T k -> acked h v T k) as Hack by (unfold acked; rewrite Ea2, Ea1; done).
  destruct (node_safe_mono Hok Hex n i (Hack i) Hns) as [N1 N2 N3 N4 N5 N6 N7].
  assert (role n' = Candidate -> is_Some (led h2 !! currentTerm n') \/ ballots h2 !! (i, currentTerm n') = Some (entries (log n'))) as Hcand.
  { intros Hr. destruct Hro as [?|[[Hr1 HT1]|[(_&?&_)|(_ & _ & HT1)]]]; try congruence.
    - rewrite HT1, Hlog. apply N7. congruence.
    - pose proof (mi_inv _ _ _ _ Hm') as Hv'. pose proof (m_voters _ _ _ (mi_matches _ _ _ _ Hm')) as Ev.
      assert (vote.voters g' !! i = Some (vs n')) as Hv by by rewrite Ev, lookup_fmap, Hi'.
      destruct (vote.inv_candidate _ _ Hv' _ _ Hv Hr) as (W & HW & _). change (vote.v_term (vs n')) with (currentTerm n') in HW.
      destruct (vote.inv_counted _ _ Hv' _ _ _ HW) as (_ & Hgv & _).
      assert (vote.given g !! (i, currentTerm n') = None) as Hn.
      { destruct (vote.given g !! (i, currentTerm n')) as [cd|] eqn:E; [|done]. pose proof (si_match _ _ _ _ Hinv) as Hm.
        destruct (vote.given_term _ _ _ _ _ _ (mi_inv _ _ _ _ Hm) E (voter_of Hm Hi)) as [Hle _].
        change (vote.v_term (vs n)) with (currentTerm n) in Hle. lia. }
      destruct Hcase as [E|[Hl|[[? E]|Hb]]]; [congruence|left; by apply (led_extends h)|congruence|right; by rewrite Eb2]. }
  exists h2. split; [done|]. apply safe_after; try done.
  - by rewrite El2.
  - intros v T k _. apply Hack.
  - split; rewrite ?Hlog, ?Hla, ?Hci; try done.
    + eapply Forall_impl; [exact N1|]. cbn. lia.
    + intros T k Ha. destruct (N3 T k Ha) as [H1 [H2|H2]]; (split; [lia|]); [by left|right]. eapply lost_later; [|exact H2]. lia.
    + apply (backed_extends (dom C) h2 h2 (currentTerm n)); try done.
    + intros HL p k Hp Hne Hk Hpos. destruct (role_step_leader _ _ Hro HL) as [[HL0|HC0] HT1].
      * rewrite HT1. apply N6; try done. destruct (Hmi p) as [E|E]; [congruence|]. rewrite E in Hk. injection Hk as <-. lia.
      * rewrite (Hreset HL HC0 p Hp Hne) in Hk. injection Hk as <-. lia.
    + by rewrite <- Hlog.
  - intros v T L. rewrite Eb2. apply Hgi1.
  - by apply (votes_safe_mono Hex2).
  - apply Forall_forall. intros x Hx. unfold own_claims in Hown. rewrite Forall_forall in Hown. specialize (Hown x Hx).
    unfold msg_safe. destruct (body x.2) as [|s mi hint|cd li lti tr| | | |]; try done; [by subst s|].
    destruct Hown as (Hr & -> & -> & -> & ->). destruct (Hcand Hr) as [?|?]; [by left|right; by eexists].
Qed.

(** *** Messages other than AppendEntries *)

Lemma own_unclaimed n' es : claims es = [] -> appends es = [] -> own_claims n' (sends es).
Proof.
  intros Hc Ha. apply Forall_forall. intros x Hx.
  destruct (body x.2) as [|s mi hint|cd li lti tr| | | |] eqn:E; try done.
  - assert (x ∈ appends es) as Hin by (apply list_elem_of_filter; unfold is_append; by rewrite E).
    rewrite Ha in Hin. by apply elem_of_nil in Hin.
  - destruct s; [|done]. assert (x ∈ claims es) as Hin by (apply list_elem_of_filter; unfold is_claim; by rewrite E).
    rewrite Hc in Hin. by apply elem_of_nil in Hin.
  - assert (x ∈ claims es) as Hin by (apply list_elem_of_filter; unfold is_claim; by rewrite E).
    rewrite Hc in Hin. by apply elem_of_nil in Hin.
Qed.

Lemma last_term_rep L : represents (log n) L -> lastTerm (log n) = Some (last_term L).
Proof. intros Hr. exact (rep_lastTerm Hr). Qed.

Lemma node_log : exists lf, logs n lf (entries (log n)).
Proof. exact (tr_logs _ _ (mi_nodes _ _ _ _ (si_match _ _ _ _ Hinv) i n Hi)). Qed.

Lemma uptodate_check Lc : candidateUpToDateLocked n (len Lc) (last_term Lc) = Some true -> uptodate Lc (entries (log n)).
Proof.
  destruct node_log as (lf & [Hr _ _]). unfold candidateUpToDateLocked, uptodate.
  rewrite (last_term_rep _ Hr), (rep_lastIndex Hr). cbn [mbind option_bind]. intros [= H]. revert H.
  case_decide; case_bool_decide; try done; intros _; [by left|right; lia].
Qed.

Lemma node_facts : id n = i /\ node_ok n /\ config n = Some C.
Proof. exact (m_nodes _ _ _ (mi_matches _ _ _ _ (si_match _ _ _ _ Hinv)) i n Hi). Qed.

Lemma node_off : SnapshotThreshold (cfg n) <= 0.
Proof. apply (mi_nodes _ _ _ _ (si_match _ _ _ _ Hinv) i n Hi). Qed.

Lemma node_saved : is_saved n.
Proof. apply (si_nodes _ _ _ _ Hinv i n Hi). Qed.

(** Silent steps elect nobody. *)
Lemma taus_no_win n' j : rtc (vote.tau j) (vs n) (vs n') -> role n = Candidate -> role n' <> Leader.
Proof.
  intros Ht Hr HL. destruct (voter_terms (si_match _ _ _ _ Hinv) Hi) as [H1 H2].
  destruct (vote.taus_role _ _ _ Ht H1 H2) as [E|[E _]]; cbn in E; congruence.
Qed.

Lemma election_no_win lt n' w' :
  currentTerm n < max_u64 -> maybeStartElection lt n (MkWorld [] []) = Some (tt, n', w') -> role n' <> Leader \/ role n <> Candidate.
Proof.
  intros Hmax E. destruct node_facts as (_ & Hok & Hc). destruct (decide (role n = Candidate)) as [Hr|]; [left|by right].
  destruct (election_run C lt n _ _ _ _ Hok Hc Hmax E) as (_ & _ & [[Ht _]|(_ & _ & Hvs & _)]); [by eapply taus_no_win|].
  apply (f_equal vote.v_role) in Hvs. cbn in Hvs. congruence.
Qed.

Lemma deliver_reset now m n' w' p :
  request_ok (i, m) -> typed m -> currentTerm n < max_u64 -> is_append (i, m) = false ->
  dispatch now m n (MkWorld [] []) = Some (tt, n', w') ->
  role n' = Leader -> role n = Candidate -> p ∈ dom C -> p <> i -> matchIndex n' !! p = Some 0.
Proof.
  intros Hreq Hty Hmax Hb E HL Hr Hp Hne. destruct node_facts as (Hid & Hok & Hc). unfold dispatch in E.
  unfold request_ok in Hreq. unfold is_append in Hb. cbn [snd] in Hreq, Hb.
  destruct (body m) as [| |cand li lti tr|gr| | |]; try done; try (injection E as <- <-; congruence).
  - exfalso. destruct (requestVote_run _ _ _ _ _ _ _ _ _ _ _ Hok Hty (proj2 Hreq) E) as (_ & _ & [[Ht _]|(v & Ht & _ & _ & Hvs & _)]).
    + by apply (taus_no_win n' (id n) Ht).
    + apply (f_equal vote.v_role) in Hvs. cbn in Hvs. destruct (voter_terms (si_match _ _ _ _ Hinv) Hi) as [H1 H2].
      destruct (vote.taus_role _ _ _ Ht H1 H2) as [Ev|[Ev _]]; cbn in Ev; congruence.
  - apply (voteResponse_wins C m gr n (MkWorld [] []) n' w' p); try done; congruence.
  - exfalso. unfold handleTimeoutNow in E. rewrite bind_gets in E. case_decide; [injection E as <- <-; congruence|].
    destruct (election_no_win _ _ _ Hmax E); done.
Qed.

(** The candidate's request tells the log it stands with. *)
Lemma election_own lt n' w' :
  maybeStartElection lt n (MkWorld [] []) = Some (tt, n', w') -> log n' = log n -> id n' = i -> own_claims n' (sends (out w')).
Proof.
  intros E Hlog Hid. destruct (election_claims lt n n' w') as [->|(Hr & lti & Hlt & ->)]; [by exists (config.saved (currentTerm n) (votedFor n)); apply node_saved|done|constructor|].
  apply Forall_fmap, Forall_true. intros p. cbn. destruct node_log as (lf & [Hrep _ _]).
  rewrite Hlog in Hlt |- *. rewrite (last_term_rep _ Hrep) in Hlt. injection Hlt as <-. by rewrite (rep_lastIndex Hrep).
Qed.

Lemma deliver_own now m n' w' :
  is_append (i, m) = false -> dispatch now m n (MkWorld [] []) = Some (tt, n', w') -> log n' = log n -> id n' = i ->
  own_claims n' (sends (out w')).
Proof.
  intros Hb E Hlog Hid. destruct (deliver_kept now m Hb n _ tt n' w' E node_off) as (_ & _ & _ & _ & _ & Ha).
  unfold dispatch in E. unfold is_append in Hb. cbn [snd] in Hb.
  destruct (body m) as [| |cand li lti tr|gr| | |]; try done; try (injection E as <- <-; constructor).
  - apply own_unclaimed; [exact (requestVote_mute _ _ _ _ _ _ _ _ _ _ _ E)|done].
  - apply own_unclaimed; [exact (voteResponse_mute _ _ _ _ _ _ _ E)|done].
  - unfold handleTimeoutNow in E. rewrite bind_gets in E. case_decide; [injection E as <- <-; constructor|].
    by eapply election_own.
Qed.

Lemma deliver_vote_step g' now m n' w' :
  vote.given g' = vote.given g \/ stands i n n' g g' \/ grants i n' m (out w') g g' ->
  msg_safe (dom C) h m -> is_append (i, m) = false ->
  dispatch now m n (MkWorld [] []) = Some (tt, n', w') -> vote_step n' g'.
Proof.
  intros [?|[(_ & _ & _ & Hg)|(cand & li & lti & tr & Eb & HT & Hin & Hg)]] Hms Hb E; [by left|right..].
  - exists i. split; [done|by left].
  - exists cand. rewrite HT. split; [done|right]. unfold msg_safe in Hms. rewrite Eb in Hms.
    destruct Hms as [?|(Lc & HLc & -> & ->)]; [by left|right]. exists Lc. split; [done|]. apply uptodate_check.
    unfold dispatch in E. rewrite Eb in E. by eapply requestVote_uptodate.
Qed.

Lemma other_safe g' now m l1 l2 n' w' :
  let c' := MkCluster (<[i := n']> (nodes c)) ((l1 ++ l2) ++ sends (out w')) in
  rtc (vote.step (dom C)) g g' -> matches C c' g' -> net c = l1 ++ (i, m) :: l2 -> typed m -> currentTerm n < max_u64 ->
  vote.given g' = vote.given g \/ stands i n n' g g' \/ grants i n' m (out w') g g' ->
  is_append (i, m) = false ->
  dispatch now m n (MkWorld [] []) = Some (tt, n', w') -> room n (body m) ->
  exists h', extends h h' /\ safe_inv C c' g' h'.
Proof.
  intros c' Hg Hm' Hnet Hty Hmax Hgi Hb E Hroom. pose proof (si_match _ _ _ _ Hinv) as Hm.
  pose proof (deliver_preserved Hm Hi g' m l1 l2 now n' w' Hg Hm' Hnet Hty Hmax E Hroom) as Hm2.
  destruct (deliver_kept now m Hb n _ tt n' w' E node_off) as (_ & Hlog & _).
  pose proof (m_net _ _ _ (mi_matches _ _ _ _ Hm)) as Hreq. rewrite Hnet, Forall_app, Forall_cons in Hreq.
  pose proof (si_net _ _ _ _ Hinv) as Hms. rewrite Hnet, Forall_app, Forall_cons in Hms. destruct Hms as (Hm1 & Hmm & Hm3).
  destruct (m_nodes _ _ _ Hm' i n' ltac:(apply lookup_insert_eq)) as (Hid' & _ & _). destruct node_facts as (_ & Hok & _).
  destruct (dispatch_hard now m n (MkWorld [] []) Hmax (ok_term _ Hok) tt n' w' E node_saved eq_refl) as (Hs & _ & HT).
  apply (plain_safe g' n' (MkWorld [] []) w'); try done.
  - apply (deliver_role Hm Hi now m n' w'); try done. apply Hreq.
  - exact (dispatch_calm now m n (MkWorld [] []) tt n' w' E).
  - exact (deliver_uncommitting now m i Hb n (MkWorld [] []) tt n' w' E).
  - intros HL HC p. apply (deliver_reset now m n' w'); try done. apply Hreq.
  - by apply (deliver_vote_step g' now m n' w').
  - by apply Forall_app.
  - by apply (deliver_own now m n' w').
Qed.

(** *** AppendEntries *)

Lemma ballot_term T L : ballots h !! (i, T) = Some L -> T <= currentTerm n.
Proof.
  intros [cd Hg]%(si_given _ _ _ _ Hinv). pose proof (si_match _ _ _ _ Hinv) as Hm.
  exact (proj1 (vote.given_term _ _ _ _ _ _ (mi_inv _ _ _ _ Hm) Hg (voter_of Hm Hi))).
Qed.

(** A follower that took over the slice [es] of the log [P] of the leader of [T]. *)
Lemma merged_safe T P prev es lc n' :
  let L' := merge 0 (entries (log n)) (prev + 1) es in
  led h !! T = Some P -> 0 <= prev <= len P -> prev <= len (entries (log n)) ->
  full_term (entries (log n)) prev = full_term P prev -> es `prefix_of` drop (Z.to_nat prev) P ->
  lc <= prev + len es -> backed (dom C) h T lc P ->
  currentTerm n <= T -> currentTerm n' = T -> role n' = Follower -> is_saved n' -> entries (log n') = L' ->
  lastApplied n' = lastApplied n -> commitIndex n' = Z.max (commitIndex n) (Z.min lc (len L')) ->
  let h' := ack i T (prev + len es) h in
  extends h h' /\ history_ok (dom C) h' /\ node_safe (dom C) h' n' i.
Proof.
  intros L' HP Hp Hle Ht Hes Hlc Hb HT HT' Hr Hs EL Ela Eci h'. pose proof (si_ok _ _ _ _ Hinv) as Hok.
  pose proof (si_nodes _ _ _ _ Hinv i n Hi) as [N1 N2 N3 N4 N5 N6 N7].
  pose proof (mi_nodes _ _ _ _ (si_match _ _ _ _ Hinv) i n Hi) as Htr. pose proof (tr_sound _ _ Htr) as HsL.
  destruct (ho_led _ _ Hok _ _ HP) as (HT1 & HsP & P0 & R & HP0 & EP & Hlt & HR).
  assert (len es <= len P - prev) as Hlen.
  { apply prefix_length in Hes. rewrite length_drop in Hes. unfold len in *. lia. }
  pose proof (len_nonneg es) as Hes0. pose proof (merge_covers HsL HsP Hp Hle Ht Hes) as Hcov. fold L' in Hcov.
  assert (forall X, X `prefix_of` entries (log n) -> X `prefix_of` P -> X `prefix_of` L') as Hkeep
    by exact (merge_keeps HsL HsP Hp Hle Ht Hes).
  assert (forall X, X `prefix_of` P -> len X <= prev + len es -> X `prefix_of` L') as Hpre.
  { intros X HX HlX. etrans; [|exact (prefix_take_self L' (Z.to_nat (prev + len es)))]. rewrite Hcov.
    apply (prefix_comparable X _ P HX (prefix_take_self _ _)). rewrite length_take. unfold len in *. lia. }
  assert (prev + len es <= len L') as HlL'.
  { apply (f_equal length) in Hcov. rewrite !length_take in Hcov. unfold len in *. lia. }
  pose proof (ack_extends h i T (prev + len es)) as Hex. fold h' in Hex.
  assert (history_ok (dom C) h') as Hok'.
  { apply (ack_ok (dom C) h i T _ P Hok HP); [lia|]. intros T0 L0 H0%ballot_term. lia. }
  split; [done|]. split; [done|]. split; rewrite ?HT', ?EL; try done.
  - apply Forall_lookup. intros k e He. pose proof (merge_sound HsL HsP Hp Hle Ht Hes) as HsL'. fold L' in HsL'.
    destruct (HsL' k e He) as (Q & HQ & Hpq). destruct (decide (e_term e <= T)) as [?|Hgt]; [done|exfalso].
    destruct (merge_shape HsL HsP Hp Hle Ht Hes) as (k0 & _ & _ & [[_ E]|(E & _)]); fold L' in E; rewrite E in He.
    + rewrite Forall_lookup in N1. specialize (N1 k e He). cbn in N1. lia.
    + apply lookup_take_Some in He as [He _]. rewrite EP in He. apply list_elem_of_lookup_2, elem_of_app in He as [He|He];
        [rewrite Forall_forall in Hlt; specialize (Hlt e He)|rewrite Forall_forall in HR; specialize (HR e He)]; lia.
  - intros T0 k (k' & Hk & Hin). cbn [acks ack h'] in Hin. apply elem_of_union in Hin as [[= -> ->]%elem_of_singleton|Hin].
    + split; [lia|]. left. change (upto h' T k) with (upto h T k). apply Hpre.
      * unfold upto. rewrite HP. apply prefix_take_self.
      * unfold upto, len. rewrite length_take. unfold len in *. lia.
    + destruct (N3 T0 k) as [HT0 Hcase]; [by exists k'|]. split; [lia|].
      change (upto h' T0 k) with (upto h T0 k). change (lost h' T0 k (T + 1)) with (lost h T0 k (T + 1)).
      destruct Hcase as [Hup|Hl]; [|right; eapply lost_later; [|exact Hl]; lia].
      destruct (decide (T0 = T)) as [->|Hne].
      { left. apply Hkeep; [done|]. unfold upto. rewrite HP. apply prefix_take_self. }
      destruct (decide (upto h T0 k `prefix_of` P0)) as [Hd|Hd].
      * left. apply Hkeep; [done|]. etrans; [exact Hd|]. rewrite EP. by exists R.
      * right. exists T, P0. split; [lia|done].
  - rewrite Ela, Eci. lia.
  - rewrite Eci. rewrite (Z.min_l lc) by lia. apply (backed_extends (dom C) h h' T); try done.
    destruct (Z.max_spec (commitIndex n) lc) as [[_ ->]|[_ ->]].
    + destruct Hb as [H0 [?|(T0 & k & Hc & Hk & HT0 & Hpp)]]; (split; [done|]); [by left|right].
      exists T0, k. split; [done|]. split; [done|]. split; [done|]. apply Hpre; [done|].
      unfold upto. unfold len in *. rewrite length_take. lia.
    + destruct N5 as [H0 [?|(T0 & k & Hc & Hk & HT0 & Hpp)]]; (split; [done|]); [by left|right].
      exists T0, k. split; [done|]. split; [done|]. split; [lia|]. apply Hkeep; [done|].
      etrans; [by apply upto_le|]. apply (committed_led (dom C) Hok T0 k T P Hc HP). lia.
  - congruence.
  - congruence.
Qed.

Lemma append_safe g' now m prev prevTerm es lc l1 l2 n' w' :
  let c' := MkCluster (<[i := n']> (nodes c)) ((l1 ++ l2) ++ sends (out w')) in
  rtc (vote.step (dom C)) g g' -> matches C c' g' -> net c = l1 ++ (i, m) :: l2 -> vote.given g' = vote.given g ->
  body m = MsgAppendEntries prev prevTerm es lc -> fits n es ->
  handleAppendEntries now m prev prevTerm es lc n (MkWorld [] []) = Some (tt, n', w') ->
  exists h', extends h h' /\ safe_inv C c' g' h'.
Proof.
  intros c' Hg Hm' Hnet Hgi Hb Hfits E. pose proof (si_match _ _ _ _ Hinv) as Hm.
  pose proof (matching.append_preserved Hm Hi g' now m prev prevTerm es lc n' w' l1 l2 Hg Hm' Hnet Hb Hfits E) as Hm2.
  pose proof (mi_nodes _ _ _ _ Hm i n Hi) as Htr. pose proof Htr as [H1 H2 H3 (lf & H4) H5 H6].
  pose proof (mi_net _ _ _ _ Hm) as Hmsgs. rewrite Hnet, Forall_app, Forall_cons in Hmsgs. destruct Hmsgs as (_ & Hmok & _).
  pose proof (si_net _ _ _ _ Hinv) as Hms. rewrite Hnet, Forall_app, Forall_cons in Hms. destruct Hms as (Hm1 & Hmm & Hm3).
  assert (Forall (fun x => msg_safe (dom C) h x.2) (l1 ++ l2)) as Hrest by (by apply Forall_app).
  destruct (append_hard now m prev prevTerm es lc n (MkWorld [] []) tt n' w' E node_saved eq_refl) as (Hs & _ & HT).
  pose proof (append_calm now m prev prevTerm es lc n (MkWorld [] []) tt n' w' E) as Hca.
  destruct (decide (Term m < currentTerm n)) as [Hlt|Hge].
  { unfold handleAppendEntries in E. rewrite bind_gets, decide_True, run_send in E by done. injection E as <- <-.
    apply (plain_safe g' n (MkWorld [] []) (MkWorld [] [])); try done; [by right; left|congruence|by left|].
    by constructor. }
  unfold msg_ok in Hmok. unfold msg_safe in Hmm. cbn [snd] in Hmok, Hmm. rewrite Hb in Hmok, Hmm.
  destruct Hmok as (P & HP & Hp & -> & Hes). destruct Hmm as (P' & HP' & Hlc & Hbk). rewrite HP in HP'. injection HP' as <-.
  destruct (bk_small _ _ _ (mi_book _ _ _ _ Hm) _ _ HP) as [Hok Hlen]. pose proof maxPersisted_bound. destruct Hfits as [Hf1 Hf2].
  assert (Forall raftlogfile.entry_ok es) as Heok.
  { destruct Hes as [r Er]. apply (Forall_drop _ (Z.to_nat prev)) in Hok. rewrite Er in Hok. by apply Forall_app in Hok as [? _]. }
  destruct (handle_current now m prev (full_term P prev) es lc n lf _ (MkWorld [] []) H4 eq_refl) as
    (n1 & w1 & E1 & _ & Ht' & Hr' & _ & Hid' & Hb' & Hcase); [unfold is_u64; lia|done|done|done|done|lia|].
  rewrite E in E1. injection E1 as <- <-. rewrite H3 in Hcase, Hb'. case_decide as Hmatch.
  - destruct Hcase as ((lf' & Hl') & Eci & Eo). destruct Hmatch as [?|[Hle Hte]]; [lia|].
    pose proof (whole_log _ _ _ Hb' Hl') as EL.
    destruct (merged_safe (Term m) P prev es lc n' HP Hp Hle Hte Hes Hlc Hbk) as (Hex & Hok' & Hns'); try done; [lia|apply Hca|].
    set (h' := ack i (Term m) (prev + len es) h) in *. exists h'. split; [done|].
    assert (record_leader (led h) n' = led h) as EG by (unfold record_leader; by rewrite decide_False by congruence).
    destruct (same_votes g' h') as [Hb1 Hb2]; [done..|].
    apply safe_after; try done.
    + by rewrite EG in Hm2.
    + intros v T k Hne (k' & Hk & Hin). cbn in Hin. exists k'. split; [done|]. set_solver.
    + rewrite Eo. constructor; [|done]. unfold msg_safe. cbn. destruct node_facts as (-> & _). exists (prev + len es).
      split; [lia|]. cbn. set_solver.
  - destruct Hcase as (_ & Elog & Eci & Eo). apply (plain_safe g' n' (MkWorld [] []) w'); try done; [by left|congruence|by left|].
    rewrite Eo. by constructor.
Qed.

(** *** Replies *)

Lemma reply_safe g' p r m l1 l2 b n' w' :
  let c' := MkCluster (<[i := n']> (nodes c)) ((l1 ++ l2) ++ sends (out w')) in
  (forall q b, C !! q = Some b -> b = true) ->
  rtc (vote.step (dom C)) g g' -> matches C c' g' -> vote.given g' = vote.given g -> net c = l1 ++ (i, m) :: l2 -> typed m ->
  onReply p r m n (MkWorld [] []) = Some (b, n', w') -> answers p r m ->
  exists h', extends h h' /\ safe_inv C c' g' h'.
Proof.
  intros c' Hall Hg Hm' Hgi Hnet Hty E [Hfrom Hans]. pose proof (si_match _ _ _ _ Hinv) as Hm.
  pose proof (matching.reply_preserved Hm Hi g' p r m l1 l2 b n' w' Hg Hm' Hnet Hty E) as Hm2.
  pose proof (si_net _ _ _ _ Hinv) as Hms. rewrite Hnet, Forall_app, Forall_cons in Hms. destruct Hms as (Hm1 & Hmm & Hm3).
  assert (Forall (fun x => msg_safe (dom C) h x.2) (l1 ++ l2)) as Hrest by (by apply Forall_app).
  destruct (onReply_kept p r m n _ b n' w' E node_off) as (_ & Hlog & _ & _ & _ & Ha).
  pose proof (onReply_mute p r m n (MkWorld [] []) b n' w' E) as Hmu.
  destruct (onReply_hard p r m n (MkWorld [] []) b n' w' E node_saved eq_refl) as (Hs & _ & HT).
  pose proof (onReply_silent p r m n (MkWorld [] []) b n' w' Hty E) as Hsil.
  pose proof (silent_role Hm Hi _ _ _ Hsil) as Hro. destruct node_facts as (Hid & Hok & HC).
  destruct (onReply_cases p r m n _ b n' w' E) as [[Hca Hun]|(HL & HTr & Hsu & n2 & w2 & E2 & E3)].
  { apply (plain_safe g' n' (MkWorld [] []) w'); try done; [|by left|by apply own_unclaimed].
    intros HL HCa. exfalso. destruct (Hsil Hok) as (_ & _ & Ht & _). by apply (taus_no_win n' (id n) Ht). }
  destruct (Hans Hsu) as (HTm & hint & Eb). unfold msg_safe in Hmm. cbn [snd] in Hmm. rewrite Eb, Hfrom, HTm, <- HTr in Hmm.
  set (mt := u64 (rd_prevLogIndex r + rd_count r)) in *. set (n1 := onAppendSuccessLocked p mt n) in *.
  pose proof (si_nodes _ _ _ _ Hinv i n Hi) as [N1 N2 N3 N4 N5 N6 N7].
  assert (node_safe (dom C) h n1 i) as Hns1.
  { split; try done. intros _ q k Hq Hne Hk Hpos. cbn [n1 onAppendSuccessLocked set_nextIndex set_matchIndex matchIndex currentTerm] in Hk |- *.
    case_decide; [|by apply N6]. apply lookup_insert_Some in Hk as [[<- <-]|[_ Hk]]; [done|by apply N6]. }
  pose proof (mi_nodes _ _ _ _ Hm i n Hi) as Htr. destruct node_log as (lf & Hlf).
  destruct (advance_safe C h n1 i lf _ n2 w2 Hall (si_ok _ _ _ _ Hinv) HC Hid HL (tr_leader _ _ Htr HL) (tr_base _ _ Htr)
    (logs_same n n1 _ _ eq_refl eq_refl Hlf) ballot_term Hns1 E2) as (h' & Hex & Hok' & El & Ebal & Hoth & Hns2).
  assert (n' = n2) as ->.
  { unfold maybeCompactLocked in E3. rewrite !bind_gets in E3.
    destruct (maybeAdvanceCommit_kept n1 _ _ n2 w2 E2 node_off) as (Ecfg & _).
    rewrite decide_True in E3 by (left; rewrite Ecfg; exact node_off). by injection E3 as <- _. }
  assert (role n2 = Leader /\ currentTerm n2 = currentTerm n) as [HL2 HT2].
  { pose proof (maybeAdvanceCommit_quiet n1 _ _ n2 w2 E2) as (_ & Q1 & _ & Q2 & _). by rewrite Q1, Q2. }
  exists h'. split; [done|]. destruct (same_votes g' h' Hgi Hex Ebal) as [Hv1 Hv2]. apply safe_after; try done.
  - assert (record_leader (led h) n2 = led h) as E0; [|by rewrite El; rewrite E0 in Hm2].
    unfold record_leader. rewrite decide_True by done. apply insert_id. rewrite HT2, Hlog. by apply (tr_leader _ _ Htr).
  - by apply unclaimed_safe.
Qed.

(** *** Proposals *)

Lemma own_safe n' msgs : own_claims n' msgs -> role n' <> Candidate -> forall h', Forall (fun x => msg_safe (dom C) h' x.2) msgs.
Proof.
  intros H Hr h'. unfold own_claims in H. eapply Forall_impl; [exact H|]. intros x Hx. unfold msg_safe. cbn in Hx.
  destruct (body x.2) as [|s mi hint|cd li lti tr| | | |]; try done; [by subst s|by destruct Hx].
Qed.

Context {S : Type} {SM : StateMachine S}.

Lemma propose_safe g' t k b r n' w' :
  let c' := MkCluster (<[i := n']> (nodes c)) (net c ++ sends (out w')) in
  (forall q b, C !! q = Some b -> b = true) ->
  rtc (vote.step (dom C)) g g' -> matches C c' g' -> vote.given g' = vote.given g -> config n' = Some C ->
  act_room (S := S) n (APropose t k b) -> propose t k b n (MkWorld [] []) = Some (r, n', w') ->
  exists h', extends h h' /\ safe_inv C c' g' h'.
Proof.
  intros c' Hall Hg Hm' Hgi HC' Hroom E. pose proof (si_match _ _ _ _ Hinv) as Hm. pose proof (si_ok _ _ _ _ Hinv) as Hok.
  pose proof (propose_quiet t k b n (MkWorld [] []) r n' w' E) as Hq. pose proof Hq as (Q0 & Q1 & Q2 & Q3 & _ & Q5 & _).
  assert (role_step n n') as Hro by (right; left; done).
  pose proof (matching.propose_preserved Hm Hi g' t k b r n' w' Hg Hm' Hroom Hro E ltac:(by rewrite Q1, Q3)) as Hm2.
  pose proof (mi_nodes _ _ _ _ Hm i n Hi) as Htr. pose proof Htr as [H1 H2 H3 (lf & H4) H5 H6].
  destruct (propose_log t k b lf r n' w' H4 H3 H2 Hroom E) as [(-> & -> & _)|(HL & HT & _ & lf' & w2 & Hl' & Hcf & E2 & ->)].
  { apply (plain_safe g' n (MkWorld [] []) (MkWorld [] [])); try done; [apply node_saved|by split; [|by left]|congruence|by left| |constructor].
    apply Hinv. }
  set (e := MkLogEntry t k b) in *. set (n2 := proposed n lf' e) in *. set (L := entries (log n)) in *.
  assert (id n2 = id n /\ role n2 = role n /\ currentTerm n2 = currentTerm n /\ is_saved n2 /\ commitIndex n2 = commitIndex n
    /\ lastApplied n2 = lastApplied n /\ matchIndex n2 = matchIndex n /\ cfg n2 = cfg n /\ baseIndex (log n2) = baseIndex (log n))
    as (F1 & F2 & F3 & F4 & F5 & F6 & F7 & F8 & F9).
  { pose proof node_saved. unfold n2, proposed. by case_decide. }
  destruct (maybeAdvanceCommit_kept _ _ _ _ _ E2 ltac:(by rewrite F8)) as (_ & K2 & _ & K4 & _ & K6).
  assert (entries (log n2) = L ++ [e]) as EL by (symmetry; by apply (whole_log n2 lf'); [rewrite F9|]).
  assert (record_leader (led h) n2 = record_leader (led h) n') as EG by (unfold record_leader; by rewrite F2, F3, Q3, Q1, K2).
  destruct (lead_leads n2 h) as (Hex1 & Hok1 & El1 & Ea1 & Eb1); [done|by rewrite F2| | |].
  { rewrite EG, <- K2. apply (bk_sound _ _ _ (mi_book _ _ _ _ Hm2) (currentTerm n')).
    apply record_leader_self. by rewrite Q3. }
  { unfold may_lead. rewrite F3, (H6 HL), EL. exists [e]. split; [done|]. by constructor. }
  set (h1 := lead (currentTerm n2) (entries (log n2)) h) in *.
  assert (node_safe (dom C) h1 n2 i) as Hns1.
  { destruct (node_safe_mono Hok Hex1 n i) as [N1 N2 N3 N4 N5 N6 N7]; [by unfold acked; rewrite Ea1|by apply Hinv|].
    split; rewrite ?EL, ?F2, ?F3, ?F5, ?F6, ?F7; try done.
    - apply Forall_app. split; [done|]. constructor; [cbn; lia|done].
    - intros T0 k0 Ha. destruct (N3 T0 k0 Ha) as [? [Hu|?]]; (split; [done|]); [left; etrans; [exact Hu|by exists [e]]|by right].
    - eapply backed_grow; [exact N5|by exists [e]].
    - congruence. }
  destruct node_facts as (Hid & _ & _).
  destruct (advance_safe C h1 n2 i lf' (MkWorld [] []) n' w2 Hall Hok1) as (h2 & Hex2 & Hok2 & El2 & Eb2 & Hoth & Hns2); try done.
  - by rewrite <- K4.
  - by rewrite F1.
  - by rewrite F2.
  - rewrite El1. apply record_leader_self. by rewrite F2.
  - by rewrite F9.
  - by rewrite EL.
  - intros T0 L0. rewrite Eb1, F3. apply ballot_term.
  - assert (extends h h2) as Hex by (by etrans). exists h2. split; [done|].
    destruct (same_votes g' h2 Hgi Hex) as [Hv1 Hv2]; [congruence|]. apply safe_after; try done.
    + by rewrite El2, El1, EG.
    + apply Hinv.
    + pose proof (maybeAdvanceCommit_mute _ _ _ _ _ E2) as Hmu. apply unclaimed_safe; cbn [out].
      * rewrite claims_snoc, app_nil_r. exact Hmu.
      * by rewrite appends_snoc, app_nil_r.
Qed.

(** *** The other steps of a node *)

Lemma sendRound_safe g' p r n' w' :
  let c' := MkCluster (<[i := n']> (nodes c)) (net c ++ sends (out w')) in
  rtc (vote.step (dom C)) g g' -> matches C c' g' -> vote.given g' = vote.given g ->
  act_room (S := S) n (ASendRound p) -> sendRound p n (MkWorld [] []) = Some (r, n', w') ->
  exists h', extends h h' /\ safe_inv C c' g' h'.
Proof.
  intros c' Hg Hm' Hgi Hroom E. pose proof (si_match _ _ _ _ Hinv) as Hm.
  pose proof (matching.sendRound_preserved Hm Hi g' p r n' w' Hg Hm' Hroom E) as Hm2.
  pose proof (mi_nodes _ _ _ _ Hm i n Hi) as [H1 H2 H3 (lf & H4) H5 H6]. pose proof (si_nodes _ _ _ _ Hinv i n Hi) as Hns.
  destruct (sendRound_log p lf r n' w' H4 H3 Hroom E) as [-> Ho]. rewrite (same_leader Hm Hi) in Hm2.
  exists h. split; [done|]. destruct (same_votes g' h) as [? ?]; [done..|]. apply safe_after; try done; [apply Hinv|apply Hinv|].
  destruct Ho as [->|(HL & Hn & ->)]; [constructor|]. constructor; [|constructor]. unfold msg_safe, request_of. cbn [snd body Term].
  exists (entries (log n)). split; [by apply H6|].
  pose proof (ns_commit _ _ _ _ Hns) as Hb. split; [|done].
  pose proof (backed_len (dom C) h _ _ _ (si_ok _ _ _ _ Hinv) Hb). rewrite len_drop by lia. lia.
Qed.

Lemma apply_safe g' (s : S) n' w' :
  let c' := MkCluster (<[i := n']> (nodes c)) (net c ++ sends (out w')) in
  rtc (vote.step (dom C)) g g' -> matches C c' g' -> vote.given g' = vote.given g -> currentTerm n < max_u64 ->
  run_act (AApply s) n (MkWorld [] []) = Some (tt, n', w') -> exists h', extends h h' /\ safe_inv C c' g' h'.
Proof.
  intros c' Hg Hm' Hgi Hmax E. pose proof (si_match _ _ _ _ Hinv) as Hm.
  pose proof (matching.act_preserved Hm Hi g' (AApply s) n' w' Hg Hm' Hmax E I) as Hm2. destruct node_facts as (_ & Hok & _).
  destruct (act_kept (AApply s) I n _ tt n' w' E node_off) as (_ & Hlog & _ & _ & _ & Ha).
  pose proof (act_mute (AApply s) I n (MkWorld [] []) tt n' w' E) as Hmu.
  pose proof (act_uncommitting (AApply s) I n (MkWorld [] []) tt n' w' E) as Hun.
  destruct (act_hard (AApply s) n (MkWorld [] []) Hmax (ok_term _ Hok) tt n' w' E node_saved eq_refl) as (Hs & _ & HT).
  cbn [run_act] in E. apply bind_inv in E as (r & n1 & w1 & E & [= <- <-]).
  destruct (applyStep_quiet s n (MkWorld [] []) r n1 w1 E) as (_ & Q1 & _ & Q2 & _).
  destruct (applyStep_applied s n _ r n1 w1 E) as [Hla Hmi].
  assert (record_leader (led h) n1 = led h) as EG.
  { rewrite <- (same_leader Hm Hi) at 2. unfold record_leader. by rewrite Q1, Q2, Hlog. }
  rewrite EG in Hm2. pose proof (si_nodes _ _ _ _ Hinv i n Hi) as [N1 N2 N3 N4 N5 N6 N7]. destruct node_log as (lf & [Hr _ _]).
  pose proof (backed_len (dom C) h _ _ _ (si_ok _ _ _ _ Hinv) N5). pose proof (rep_small _ _ Hr). pose proof maxPersisted_bound.
  exists h. split; [done|]. destruct (same_votes g' h) as [? ?]; [done..|].
  apply safe_after; try done; [apply Hinv| |apply Hinv|by apply unclaimed_safe].
  split; rewrite ?Q1, ?Q2, ?Hlog, ?Hun; try done.
  - destruct Hla as [->|[Hlt ->]]; [done|]. rewrite u64_small by (unfold is_u64; lia). lia.
  - intros HL p k Hp Hne Hk Hpos. apply N6; try done. destruct (Hmi p) as [E1|E1]; congruence || (rewrite E1 in Hk; injection Hk as <-; lia).
Qed.

Lemma act_safe g' (a : act (S := S)) n' w' :
  let c' := MkCluster (<[i := n']> (nodes c)) (net c ++ sends (out w')) in
  (forall q b, C !! q = Some b -> b = true) ->
  rtc (vote.step (dom C)) g g' -> matches C c' g' ->
  vote.given g' = vote.given g \/ ((exists lt, a = ACampaign lt) /\ stands i n n' g g') -> currentTerm n < max_u64 -> config n' = Some C ->
  run_act a n (MkWorld [] []) = Some (tt, n', w') -> act_room n a -> exists h', extends h h' /\ safe_inv C c' g' h'.
Proof.
  intros c' Hall Hg Hm' Hgi Hmax HC' E Hroom. pose proof (si_match _ _ _ _ Hinv) as Hm. destruct node_facts as (Hid & Hok & Hc).
  assert (match a with APropose _ _ _ | ASendRound _ | AApply _ => False | _ => True end ->
    exists h', extends h h' /\ safe_inv C c' g' h') as Hplain.
  { intros Ha. pose proof (matching.act_preserved Hm Hi g' a n' w' Hg Hm' Hmax E Hroom) as Hm2.
    assert (pres kept (run_act a)) as Hk by (apply act_kept; by destruct a).
    assert (pres calm (run_act a)) as Hca by (apply act_calm; by destruct a).
    assert (pres uncommitting (run_act a)) as Hu by (apply act_uncommitting; by destruct a).
    destruct (Hk n _ tt n' w' E node_off) as (_ & Hlog & _ & _ & _ & Hap).
    destruct (act_hard a n (MkWorld [] []) Hmax (ok_term _ Hok) tt n' w' E node_saved eq_refl) as (Hs & _ & HT).
    destruct (m_nodes _ _ _ Hm' i n' ltac:(apply lookup_insert_eq)) as (Hid' & _ & _).
    assert (role_step n n' /\ (role n' = Leader -> role n = Candidate -> False) /\ own_claims n' (sends (out w'))) as (Hro & Hno & Hown).
    { assert ((exists lt, a = ACampaign lt) \/ match a with ACampaign _ => False | _ => True end) as [[lt ->]|Ht] by (destruct a; eauto).
      - cbn [run_act] in E. split; [by apply (election_role Hm Hi lt n' w')|].
        split; [|by eapply election_own]. intros HL HCa. destruct (election_no_win _ _ _ Hmax E); done.
      - assert (silent n (MkWorld [] []) n' w') as Hsil by (apply (act_silent a n _ tt n' w'); [by destruct a|done]).
        split; [by apply (silent_role Hm Hi _ _ _ Hsil)|]. split.
        + intros HL HCa. destruct (Hsil Hok) as (_ & _ & Ht2 & _). by apply (taus_no_win n' (id n) Ht2).
        + apply own_unclaimed; [|done]. apply (act_mute a ltac:(by destruct a) n (MkWorld [] []) tt n' w' E). }
    apply (plain_safe g' n' (MkWorld [] []) w'); try done.
    - exact (Hca _ _ _ _ _ E).
    - exact (Hu _ _ _ _ _ E).
    - intros HL HCa. destruct (Hno HL HCa).
    - destruct Hgi as [?|[_ (_ & _ & _ & Hst)]]; [by left|right]. exists i. split; [done|by left].
    - apply Hinv. }
  destruct a as [lt| |t k b|p|s|p|p|p|e|p t]; try (apply Hplain; exact I); destruct Hgi as [Hgi|[[? ?] _]]; try done.
  - cbn [run_act] in E. apply bind_inv in E as (x & n1 & w1 & E & [= <- <-]). by eapply propose_safe.
  - cbn [run_act] in E. apply bind_inv in E as (x & n1 & w1 & E & [= <- <-]). by eapply sendRound_safe.
  - by apply (apply_safe g' s).
Qed.

(** *** A restart *)

Lemma restart_safe g' lf tail ps boot cf syncOn recovered n' :
  let c' := MkCluster (<[i := n']> (nodes c)) (net c) in
  rtc (vote.step (dom C)) g g' -> matches C c' g' -> vote.given g' = vote.given g ->
  logFile n = Some lf -> raftlogfile.torn tail -> SnapshotThreshold cf <= 0 -> recovered <= lastApplied n ->
  buildNode i ps boot cf syncOn (Some (raftlogfile.at_path lf ++ tail)) (default None (stateFile n))
    (default None (configPath n)) recovered None = Ok n' ->
  exists h', extends h h' /\ safe_inv C c' g' h'.
Proof.
  intros c' Hg Hm' Hgi Hlf Htail Hcf Hrec E. pose proof (si_match _ _ _ _ Hinv) as Hm.
  pose proof (matching.restart_preserved Hm Hi g' lf tail ps boot cf syncOn recovered n' Hg Hm' Hlf Htail Hcf E) as Hm2.
  pose proof (mi_nodes _ _ _ _ Hm i n Hi) as [H1 H2 H3 (lf0 & H4) H5 H6]. pose proof H4 as [Hr Hlf0 Hmi].
  rewrite Hlf in Hlf0. injection Hlf0 as <-. destruct node_facts as (_ & Hok & _).
  assert (raftlogfile.at_path lf = raftlogfile.contents (log n)) as Ep.
  { unfold raftlogfile.at_path. by rewrite (raftlogfile.mir_path _ _ Hmi), (raftlogfile.mir_f _ _ Hmi). }
  rewrite Ep in E. pose proof (buildNode_run _ Hr Hmi i ps boot cf syncOn tail (default None (stateFile n))
    (default None (configPath n)) recovered eq_refl Htail) as B. cbv zeta in B. rewrite E in B.
  case_decide as Hlow; [done|]. rewrite H3 in Hlow.
  destruct B as (n2 & lf' & [= <-] & El & _ & _ & _ & _ & Hr' & _ & Hci & Hla & _ & _ & Ht & Hv & Hs).
  pose proof (si_nodes _ _ _ _ Hinv i n Hi) as [N1 N2 N3 N4 N5 N6 N7].
  rewrite N2 in Ht, Hv. change (default None (Some ?x)) with x in Ht, Hv.
  rewrite config.openRaftStateFile_save in Ht, Hv by apply Hok. cbn [config.currentTerm config.votedFor] in Ht, Hv.
  assert (full_term (entries (log n)) (len (entries (log n))) <= currentTerm n) as Hlast.
  { destruct Hok as [[Hu _] _ _ _]. unfold full_term. destruct (decide (_ = 0)); [lia|].
    destruct (entries (log n) !! _) as [e|] eqn:He; cbn; [|lia]. rewrite Forall_lookup in N1. exact (N1 _ e He). }
  rewrite Z.max_l in Ht by done. 
  assert (record_leader (led h) n' = led h) as EG by (unfold record_leader; by rewrite decide_False by congruence).
  rewrite EG in Hm2. exists h. split; [done|]. destruct (same_votes g' h) as [? ?]; [done..|].
  pose proof (safe_after g' h n' (net c) []) as A. rewrite app_nil_r in A. apply A; try done; [apply Hinv| |apply Hinv].
  split; rewrite ?Ht, ?El, ?Hci, ?Hla; try done; [lia| |congruence|congruence].
  apply (backed_le (dom C) h _ (commitIndex n)); [lia|done].
Qed.

Lemma lose_safe g' x l1 l2 :
  rtc (vote.step (dom C)) g g' -> matches C (MkCluster (nodes c) (l1 ++ l2)) g' -> vote.given g' = vote.given g ->
  net c = l1 ++ x :: l2 -> safe_inv C (MkCluster (nodes c) (l1 ++ l2)) g' h.
Proof.
  intros Hg Hm Hgi Hnet. pose proof (matching.lose_preserved (si_match _ _ _ _ Hinv) g' x l1 l2 Hg Hm Hnet) as Hm2.
  destruct (same_votes g' h) as [? ?]; [done..|]. pose proof Hinv as [_ Hok Hn _ _ Hms]. split; try done.
  rewrite Hnet, Forall_app, Forall_cons in Hms. apply Forall_app. tauto.
Qed.

End preserve.
(** ** Runs *)

Section runs.
Context {S : Type} {SM : StateMachine S}.
Context {C : Members} (Hall : forall p b, C !! p = Some b -> b = true).

Lemma safe_step c g h c' :
  safe_inv C c g h -> clean_step (S := S) true C c c' -> exists g' h', extends h h' /\ safe_inv C c' g' h'.
Proof.
  intros Hinv Hst. pose proof (si_match _ _ _ _ Hinv) as Hm. pose proof (mi_matches _ _ _ _ Hm) as Hm0.
  destruct Hst as [i n m l1 l2 now n' w' Hi Hnet Hty Hmax E Hc Hroom|i n p r m l1 l2 b n' w' Hi Hnet Hty Hrep E Hc Hans
    |i n a n' w' Hi Hmax E Hc Hroom|i n lf tail ps boot cf sy rec n' Hi Hlf Htail E Hu Hc Hcf Hrec|x l1 l2 Hnet].
  - destruct (sim_deliver C c g i n m l1 l2 now [] n' w' Hm0 Hi Hnet Hty Hmax E Hc) as (g' & Hg & Hm' & Hgi).
    exists g'. rewrite app_assoc. destruct (is_append (i, m)) eqn:Eb.
    2:{ by apply (other_safe Hinv Hi g' now m l1 l2 n' w'). }
    unfold is_append in Eb. cbn [snd] in Eb. destruct (body m) as [prev pt es lc| | | | | |] eqn:Ebody; try done.
    unfold dispatch in E. rewrite Ebody in E.
    apply (append_safe Hinv Hi g' now m prev pt es lc l1 l2 n' w'); try done.
    destruct Hgi as [?|[(_ & Hr & HT & _)|(cand & li & lti & tr & E1 & _)]]; [done| |congruence]. exfalso.
    destruct (node_facts Hinv Hi) as (_ & Hok & _).
    destruct (appendEntries_silent _ _ _ _ _ _ _ _ _ _ _ Hty E Hok) as (_ & _ & Ht & _).
    destruct (voter_terms Hm Hi) as [H1 H2]. destruct (vote.taus_role _ _ _ Ht H1 H2) as [E1|[_ E1]]; cbn in E1; [congruence|lia].
  - destruct (sim_reply C c g i n p r m l1 l2 [] b n' w' Hm0 Hi Hnet Hty E Hc) as (g' & Hg & Hm' & Hgi).
    exists g'. rewrite app_assoc. by apply (reply_safe Hinv Hi g' p r m l1 l2 b n' w'); auto.
  - destruct (sim_act C c g i n a [] n' w' Hm0 Hi Hmax E Hc) as (g' & Hg & Hm' & Hgi).
    exists g'. by apply (act_safe Hinv Hi g' a n' w').
  - destruct (sim_restart C c g i n ps boot cf sy _ rec n' Hm0 Hi E Hu Hc) as (g' & Hg & Hm' & Hgi).
    exists g'. by apply (restart_safe Hinv Hi g' lf tail ps boot cf sy rec n'); auto.
  - destruct (sim_lose C c g x l1 l2 Hm0 Hnet) as (g' & Hg & Hm' & Hgi). exists g', h. split; [done|].
    by apply (lose_safe Hinv g' x).
Qed.

Lemma safe_run c c' : rtc (clean_step (S := S) true C) c c' ->
  forall g h, safe_inv C c g h -> exists g' h', extends h h' /\ safe_inv C c' g' h'.
Proof.
  induction 1 as [c|c c1 c2 H1 _ IH]; intros g h Hinv; [by exists g, h|].
  destruct (safe_step c g h c1 Hinv H1) as (g1 & h1 & Hex1 & Hinv1).
  destruct (IH g1 h1 Hinv1) as (g2 & h2 & Hex2 & Hinv2). exists g2, h2. split; [by etrans|done].
Qed.

(** At the start only the bootstrap leader leads, with an empty log. *)
Definition genesis : history := MkHistory {[1 := []]} {[1 := []]} ∅ ∅.

Lemma genesis_ok : history_ok (dom C) genesis.
Proof.
  split; cbn [genesis led began acks ballots].
  - intros T P [<- <-]%lookup_singleton_Some. split; [lia|]. split; [apply sound_nil|]. exists [], []. split_and!; try done.
  - intros T P [<- <-]%lookup_singleton_Some. rewrite lookup_singleton_eq. split; [by eexists|]. left. lia.
  - intros v T k H. by apply not_elem_of_empty in H.
  - intros v T L. by rewrite lookup_empty.
  - intros v T k T' L _. by rewrite lookup_empty.
Qed.

Lemma init_safe c : init C c -> (forall i n, nodes c !! i = Some n -> SnapshotThreshold (cfg n) <= 0) ->
  exists g, safe_inv C c g genesis.
Proof.
  intros Hinit Hoff. destruct (init_matching C c Hinit Hoff) as (g & Hg & Hm). exists g.
  pose proof Hinit as [Hnet Hn]. split; try done.
  - apply genesis_ok.
  - intros i n Hi. destruct (Hn i n Hi) as (Hb & ps & cf & sy & n0 & w & E & Es & Hc).
    destruct (init_frame _ _ _ _ _ _ _ _ E Es) as (Hs & Hci & Hla & Hmi).
    destruct (init_log _ _ _ _ _ _ _ _ E Es (Hoff i n Hi)) as (El & _).
    destruct (init_run _ _ _ _ _ _ _ _ Hb E Es) as (_ & _ & _ & Hr & _).
    split; rewrite ?El, ?Hci, ?Hla; try done.
    + intros T k (k' & _ & H). by apply not_elem_of_empty in H.
    + split; [lia|by left].
    + intros _ p k _ _ Hk Hpos. rewrite (Hmi p k Hk) in Hpos. lia.
  - intros w T cd. rewrite (vote.init_given _ Hg), lookup_empty. done.
  - by rewrite Hnet.
Qed.

(** What a node knows to be committed, later in the run. *)
Section later.
Context {c1 c2 : cluster} {g1 g2 : vote.state} {h1 h2 : history}.
Context (H1 : safe_inv C c1 g1 h1) (H2 : safe_inv C c2 g2 h2) (Hex : extends h1 h2).

Lemma backed_later i n : nodes c1 !! i = Some n -> backed (dom C) h2 (currentTerm n) (commitIndex n) (entries (log n)).
Proof.
  intros Hn. apply (backed_extends (dom C) h1 h2 (currentTerm n)); try done; [by apply (si_ok _ _ _ _ H1)|].
  by apply (si_nodes _ _ _ _ H1 i).
Qed.

Lemma later_agree i j ni nj k :
  nodes c1 !! i = Some ni -> nodes c2 !! j = Some nj -> k <= commitIndex ni -> k <= commitIndex nj ->
  take (Z.to_nat k) (entries (log ni)) = take (Z.to_nat k) (entries (log nj)).
Proof.
  intros Hni Hnj Hk1 Hk2. pose proof (si_ok _ _ _ _ H2) as Hok2.
  apply (backed_agree (dom C) h2 (currentTerm ni) (currentTerm nj) (commitIndex ni) (commitIndex nj)); try done; [by apply (backed_later i)|].
  by apply (si_nodes _ _ _ _ H2 j).
Qed.

Lemma later_leader i j ni nj :
  nodes c1 !! i = Some ni -> nodes c2 !! j = Some nj -> role nj = Leader -> currentTerm ni <= currentTerm nj ->
  take (Z.to_nat (commitIndex ni)) (entries (log ni)) `prefix_of` entries (log nj).
Proof.
  intros Hni Hnj HL HT. pose proof (si_ok _ _ _ _ H2) as Hok2.
  pose proof (tr_leader _ _ (mi_nodes _ _ _ _ (si_match _ _ _ _ H2) j nj Hnj) HL) as Hled.
  destruct (backed_later i ni Hni) as [Hc0 [->|(T & k & Hc & Hk & HTn & Hp)]]; [apply prefix_nil|].
  destruct (committed_led_len (dom C) Hok2 T k Hc) as (P & HP & Hb).
  rewrite (prefix_take_eq _ _ _ Hp) by (rewrite (upto_length T _ P HP) by lia; lia).
  etrans; [apply prefix_take_self|]. etrans; [by apply (upto_le T k)|].
  apply (committed_led (dom C) Hok2 T k (currentTerm nj)); [done|done|lia].
Qed.

End later.

(** C2. State machine safety.  In every run of a group with working disks and
    without compaction, whose replicators take no late reply for that of their
    round and whose stores recover nothing that was not applied (message losses,
    reorderings, elections, crashes and restarts are all allowed): no node
    applies past its commit index or knows more committed than it has; on what
    two nodes, or one node at two times, know to be committed their logs are the
    same; and whoever leads later has all of it. *)
Theorem state_machine_safety c0 c1 c2 :
  init C c0 -> (forall i n, nodes c0 !! i = Some n -> SnapshotThreshold (cfg n) <= 0) ->
  rtc (clean_step (S := S) true C) c0 c1 -> rtc (clean_step (S := S) true C) c1 c2 ->
  (forall i n, nodes c1 !! i = Some n -> 0 <= lastApplied n <= commitIndex n /\ commitIndex n <= len (entries (log n)))
  /\ (forall i j ni nj k, nodes c1 !! i = Some ni -> nodes c2 !! j = Some nj -> k <= commitIndex ni -> k <= commitIndex nj ->
        take (Z.to_nat k) (entries (log ni)) = take (Z.to_nat k) (entries (log nj)))
  /\ (forall i j ni nj, nodes c1 !! i = Some ni -> nodes c2 !! j = Some nj -> role nj = Leader ->
        currentTerm ni <= currentTerm nj ->
        take (Z.to_nat (commitIndex ni)) (entries (log ni)) `prefix_of` entries (log nj)).
Proof.
  intros Hi Hoff Hs1 Hs2. destruct (init_safe c0 Hi Hoff) as (g0 & H0).
  destruct (safe_run c0 c1 Hs1 g0 _ H0) as (g1 & h1 & _ & H1). destruct (safe_run c1 c2 Hs2 g1 h1 H1) as (g2 & h2 & Hex & H2).
  pose proof (si_ok _ _ _ _ H1) as Hok1. split_and!.
  - intros i n Hn. pose proof (si_nodes _ _ _ _ H1 i n Hn) as Hns. split; [apply Hns|].
    apply (backed_len (dom C) h1 (currentTerm n)); [done|apply Hns].
  - exact (later_agree H1 H2 Hex).
  - exact (later_leader H1 H2 Hex).
Qed.

End runs.

(** ** Witness *)

#[local] Existing Instance counter.

(** The reply of [p] to the round [r], taken off the network. *)
Definition exec_reply (C : Members) (c : cluster) (k : nat) (p : NodeID) (r : Round) : option cluster :=
  '(i, m) ← net c !! k;
  n ← nodes c !! i;
  '(_, n', w') ← onReply p r m n (MkWorld [] []);
  match body m with
  | MsgAppendResponse true mi _ =>
      if bool_decide (0 <= Term m < 2 ^ 64 /\ config n' = Some C /\ From m = p /\ Term m = rd_term r
                      /\ mi = u64 (rd_prevLogIndex r + rd_count r))
      then Some (MkCluster (<[i := n']> (nodes c)) (take k (net c) ++ drop (S k) (net c) ++ sends (out w'))) else None
  | _ => None
  end.

Lemma exec_reply_clean C c k p r c' : exec_reply C c k p r = Some c' -> clean_step (S := nat) true C c c'.
Proof.
  unfold exec_reply. destruct (net c !! k) as [[i m]|] eqn:Hk; [|done]. cbn [mbind option_bind].
  destruct (nodes c !! i) as [n|] eqn:Hi; [|done]. cbn [mbind option_bind].
  destruct (onReply p r m n _) as [[[b n'] w']|] eqn:E; [|done]. cbn [mbind option_bind].
  destruct (body m) as [|s mi hint| | | | |] eqn:Eb; try done. destruct s; [|done].
  case_bool_decide as H; [|done]. intros [= <-]. destruct H as (?&?&?&?&->). eapply clean_reply; try done.
  - symmetry. by apply take_drop_middle.
  - by rewrite Eb.
  - intros _. split; [done|]. intros _. split; [done|]. by exists hint.
Qed.

(** Node 1 has the entry of node 0 and acknowledges it; node 0 commits it.  Then
    node 1 stands, node 2 and node 0 get its requests, node 0 votes for it. *)
Definition demo4 : cluster := default demo_start (exec_reply demo_config demo3 0 1 (MkRound 1 0 1)).
Definition demo5 : cluster := default demo_start (exec_act demo_config demo4 1 (ACampaign false)).
Definition demo6 : cluster := default demo_start (exec_deliver demo_config demo5 0).
Definition demo7 : cluster := default demo_start (exec_deliver demo_config demo6 1).

Lemma demo_commit_run : rtc (clean_step (S := nat) true demo_config) demo_start demo4.
Proof.
  etrans; [apply demo_clean_run|]. apply rtc_once, (exec_reply_clean _ _ 0 1 (MkRound 1 0 1)). vm_compute. reflexivity.
Qed.

Lemma demo_election_run : rtc (clean_step (S := nat) true demo_config) demo4 demo7.
Proof.
  eapply rtc_l; [apply (exec_act_clean _ _ _ 1 (ACampaign false) demo5); vm_compute; reflexivity|].
  eapply rtc_l; [apply (exec_deliver_clean _ _ _ 0 demo6); vm_compute; reflexivity|].
  apply rtc_once, (exec_deliver_clean _ _ _ 1). vm_compute. reflexivity.
Qed.

(** The leader of term 2 has what the leader of term 1 committed. *)
Lemma state_machine_safety_witness :
  exists n0 n1, nodes demo4 !! 0 = Some n0 /\ nodes demo7 !! 1 = Some n1
    /\ commitIndex n0 = 1 /\ role n1 = Leader /\ currentTerm n1 = 2
    /\ take 1 (entries (log n0)) `prefix_of` entries (log n1).
Proof.
  destruct (state_machine_safety (fun p b Hp => proj2 (proj1 demo_config_wf p b Hp)) demo_start demo4 demo7 demo_init
    demo_uncompacted demo_commit_run demo_election_run) as (_ & _ & Hlead).
  destruct (nodes demo4 !! 0) as [n0|] eqn:E0; [|vm_compute in E0; done].
  destruct (nodes demo7 !! 1) as [n1|] eqn:E1; [|vm_compute in E1; done].
  assert ((fun n => (commitIndex n, currentTerm n)) <$> nodes demo4 !! 0 = Some (1, 1)) as F0 by (vm_compute; reflexivity).
  assert ((fun n => (role n, currentTerm n)) <$> nodes demo7 !! 1 = Some (Leader, 2)) as F1 by (vm_compute; reflexivity).
  rewrite E0 in F0. rewrite E1 in F1. injection F0 as F0 F0'. injection F1 as F1 F1'.
  exists n0, n1. split; [done|]. split; [done|]. split; [done|]. split; [done|]. split; [done|].
  pose proof (Hlead 0 1 n0 n1 E0 E1 F1 ltac:(rewrite F0', F1'; lia)) as H. rewrite F0 in H. exact H.
Defined.

End safety.
