(* ===== verification/RaftInstall.v ===== *)
(** * Installing snapshots (internal/cluster/install.go): definitions

    A follower that is too far behind gets the leader's state whole.  It builds a
    store of its own from the message in a staging directory, commits to it by a
    marker file, and swaps it in under the node; a restart that finds the marker
    completes the swap.  Every file operation of this path may fail, and what a
    failure leaves on disk is what a crash in that operation leaves, so one list
    of outcomes covers both. *)

From Stdlib Require Import ZArith Lia.
From Stdlib Require Import Strings.Byte.
From stdpp Require Import base list gmap sorting.
From S2P Require Import Prelude.
From S2P Require Import RecordFmt.
From S2P Require Import Wal.
From S2P Require Import DbDisk.
From S2P Require Import Db.
From S2P Require Import DbScan.
From S2P Require Import DbSnapshot.
From S2P Require Import RaftLog.
From S2P Require Import RaftConfig.
From S2P Require Import RaftLogFile.
From S2P Require Import RaftNode.

#[local] Open Scope Z_scope.

Module install.
Import raftlog node.

(** ** Directories

    The data directory of a store: its log and the files of [Disk].  Temporary
    files do not appear, the operations that make them replace a file whole. *)
Record Dir := MkDir { f_wal : option bytes; f_disk : db.Disk }.

Definition emptyDir : Dir := MkDir None (db.MkDisk ∅ None None).

Inductive FileName := SST (id : Z) | AppliedBase | WalFile | SessionsFile.

#[export] Instance FileName_eq_dec : EqDecision FileName.
Proof. solve_decision. Defined.

(** The entries as [os.ReadDir] lists them: by name, [%06d.sst] < [applied.base]
    < [littledb.log] < [sessions]. *)
Definition names (d : Dir) : list FileName :=
  (SST <$> merge_sort Z.le (map_to_list (db.d_ssts (f_disk d))).*1)
  ++ (match db.d_base (f_disk d) with Some _ => [AppliedBase] | None => [] end)
  ++ (match f_wal d with Some _ => [WalFile] | None => [] end)
  ++ (match db.d_sessions (f_disk d) with Some _ => [SessionsFile] | None => [] end).

Definition readFile (d : Dir) (f : FileName) : option bytes :=
  match f with
  | SST id => db.d_ssts (f_disk d) !! id
  | AppliedBase => db.d_base (f_disk d)
  | WalFile => f_wal d
  | SessionsFile => db.d_sessions (f_disk d)
  end.

(** [None] removes the file. *)
Definition setFile (d : Dir) (f : FileName) (content : option bytes) : Dir :=
  let k := f_disk d in
  match f with
  | SST id => MkDir (f_wal d) (db.MkDisk (partial_alter (fun _ => content) id (db.d_ssts k)) (db.d_base k) (db.d_sessions k))
  | AppliedBase => MkDir (f_wal d) (db.MkDisk (db.d_ssts k) content (db.d_sessions k))
  | WalFile => MkDir content k
  | SessionsFile => MkDir (f_wal d) (db.MkDisk (db.d_ssts k) (db.d_base k) content)
  end.

(** What this path touches beside the files of the Raft node: the data
    directory (of a closed store) and, under raft/, the staging directory, the
    marker and the staged configuration. *)
Record Files := MkFiles {
  f_dir : Dir;
  f_staged : option Dir;
  f_marker : option bytes;
  f_config : option bytes
}.

Definition set_dir (d : Dir) (fs : Files) : Files := MkFiles d (f_staged fs) (f_marker fs) (f_config fs).
Definition set_staged (s : option Dir) (fs : Files) : Files := MkFiles (f_dir fs) s (f_marker fs) (f_config fs).
Definition set_marker (m : option bytes) (fs : Files) : Files := MkFiles (f_dir fs) (f_staged fs) m (f_config fs).
Definition set_staged_config (c : option bytes) (fs : Files) : Files := MkFiles (f_dir fs) (f_staged fs) (f_marker fs) c.

(** ** File operations

    Each takes the next of the outcomes: [None], or none left, is success. *)
Abbreviation outcomes := (list (option nat)).

Definition D (A : Type) : Type := Files -> outcomes -> A * Files * outcomes.

#[export] Instance D_ret : MRet D := fun A a fs os => (a, fs, os).
#[export] Instance D_bind : MBind D := fun A B k m fs os => let '(a, fs', os') := m fs os in k a fs' os'.

Definition look {A} (f : Files -> A) : D A := fun fs os => (f fs, fs, os).
Definition change (f : Files -> Files) : D unit := fun fs os => (tt, f fs, os).
Definition next : D (option nat) := fun fs os =>
  match os with [] => (None, fs, []) | x :: os' => (x, fs, os') end.

(** [m], and on success [k]. *)
Definition andThen {M} `{MRet M, MBind M} (m k : M bool) : M bool := ok ← m; if (ok : bool) then k else mret false.
Notation "m ;;; k" := (andThen m k) (at level 60, right associativity).

(** An operation without effect on the files, such as a directory listing. *)
Definition attempt : D bool := f ← next; mret (match f with None => true | Some _ => false end).

(** [Some 0] a failure that leaves the file, more one after it is gone. *)
Definition remove (rm : Files -> Files) : D bool :=
  f ← next;
  match f with
  | None => _ ← change rm; mret true
  | Some O => mret false
  | Some _ => _ ← change rm; mret false
  end.

(** [os.RemoveAll] of the staging directory. *)
Definition removeStaged : D bool :=
  f ← next;
  match f with
  | None => _ ← change (set_staged None); mret true
  | Some O => mret false
  | Some _ => _ ← change (fun fs => set_staged ((fun _ => emptyDir) <$> f_staged fs) fs); mret false
  end.

(** ** The marker *)

Definition installMarkerMagic : Z := 0x4C44425F494E5354.
Definition installMarkerSize : Z := 32.

Record installMarker := MkMarker { lastIncludedIndex : Z; lastIncludedTerm : Z; snapshotTS : Z }.

Definition markerBytes (m : installMarker) : bytes :=
  le_bytes 8 installMarkerMagic ++ le_bytes 8 (lastIncludedIndex m) ++ le_bytes 8 (lastIncludedTerm m)
  ++ le_bytes 8 (snapshotTS m).

Definition parseMarker (file : option bytes) : option installMarker :=
  match file with
  | None => None
  | Some buf =>
      if decide (len buf < installMarkerSize \/ record.Uint64 buf 0 <> installMarkerMagic) then None
      else Some (MkMarker (record.Uint64 buf 8) (record.Uint64 buf 16) (record.Uint64 buf 24))
  end.

Definition writeInstallMarker (m : installMarker) : D bool :=
  f ← next;
  file ← look f_marker;
  let '(file', ok) := config.replaceFile file (markerBytes m) f in
  _ ← change (set_marker file');
  mret ok.

(** [None] is an error. *)
Definition readInstallMarker : D (option (option installMarker)) :=
  ok ← attempt;
  file ← look f_marker;
  mret (if (ok : bool) then Some (parseMarker file) else None).

Definition clearInstallMarker : D bool := remove (set_marker None).

(** ** The staged configuration *)

Definition writeInstallConfig (encoded : bytes) : D bool :=
  f ← next;
  file ← look f_config;
  let '(file', ok) := config.replaceFile file encoded f in
  _ ← change (set_staged_config file');
  mret ok.

Definition clearInstallConfig : D bool := remove (set_staged_config None).

(** Folds the staged configuration into raft/config, whose contents before and
    after are [base]: [None] is an error, [Some None] nothing staged. *)
Definition installStagedConfig (base : option bytes) : D (option (option Members) * option bytes) :=
  ok ← attempt;
  file ← look f_config;
  match file with
  | None => mret (Some None, base)
  | Some encoded =>
      if negb ok then mret (None, base)
      else
        let cfg := config.decodeConfig encoded in
        f ← next;
        let '(base', ok) := config.writeBaseConfigFile base cfg f in
        mret (if (ok : bool) then Some (Some cfg) else None, base')
  end.

(** ** The swap *)

(** Copying a file: 0, it cannot be opened; [S k], the copy (or its fsync)
    fails with [k] bytes written. *)
Definition copyFileSync (f : FileName) (content : bytes) : D bool :=
  fl ← next;
  match fl with
  | None => _ ← change (fun fs => set_dir (setFile (f_dir fs) f (Some content)) fs); mret true
  | Some O => mret false
  | Some (S k) => _ ← change (fun fs => set_dir (setFile (f_dir fs) f (Some (take k content))) fs); mret false
  end.

Fixpoint removeFiles (fns : list FileName) : D bool :=
  match fns with
  | [] => mret true
  | f :: fns' => remove (fun fs => set_dir (setFile (f_dir fs) f None) fs) ;;; removeFiles fns'
  end.

Fixpoint copyFiles (src : Dir) (fns : list FileName) : D bool :=
  match fns with
  | [] => mret true
  | f :: fns' => copyFileSync f (default [] (readFile src f)) ;;; copyFiles src fns'
  end.

Definition swapInStagedDB : D bool :=
  attempt ;;;
  (old ← look (fun fs => names (f_dir fs)); removeFiles old) ;;;
  (ok ← attempt;
   src ← look f_staged;
   match src with
   | Some src => if (ok : bool) then copyFiles src (names src) else mret false
   | None => mret false
   end) ;;;
  attempt.

(** ** Completion on open

    [log] and [base] are the contents of raft.log and raft/config, before and
    after. *)
Definition completeInstallIfPending (syncOn : bool) (log base : option bytes)
  : D (bool * option bytes * option bytes) :=
  m ← readInstallMarker;
  match m with
  | None => mret (false, log, base)
  | Some None => mret (true, log, base)
  | Some (Some m) =>
      stat ← attempt;
      staged ← look f_staged;
      match staged, (stat : bool) with
      | Some _, true =>
          ok ← swapInStagedDB;
          if negb ok then mret (false, log, base)
          else
            f ← next;
            let '(log, r) := raftlogfile.resetRaftLogFileTo log (lastIncludedIndex m) (lastIncludedTerm m) syncOn f in
            match r with
            | Ok _ =>
                c ← installStagedConfig base;
                let '(r, base) := c in
                match r with
                | None => mret (false, log, base)
                | Some _ =>
                    ok ← (clearInstallMarker ;;; (_ ← clearInstallConfig; removeStaged));
                    mret (ok, log, base)
                end
            | _ => mret (false, log, base)
            end
      | _, _ => ok ← clearInstallMarker; mret (ok, log, base)
      end
  end.

(** ** The node with its store

    [files] is what is on disk; while the store is open its own log and tables
    are in [store] and [disk_of] reads them from there. *)
Record Machine := MkMachine {
  mnode : Node;
  store : db.DB;
  mopts : db.Options;
  files : Files;
  installsApplied : Z
}.

Definition set_mnode (n : Node) (m : Machine) : Machine := MkMachine n (store m) (mopts m) (files m) (installsApplied m).
Definition set_store (d : db.DB) (m : Machine) : Machine := MkMachine (mnode m) d (mopts m) (files m) (installsApplied m).
Definition set_files (fs : Files) (m : Machine) : Machine := MkMachine (mnode m) (store m) (mopts m) fs (installsApplied m).

(** The data directory; the contents of the log of an open store are those of
    its handle. *)
Definition dir_of (m : Machine) : Dir :=
  if db.closed (store m) then f_dir (files m)
  else MkDir (Some (wal.f (db.db_wal (store m)))) (f_disk (f_dir (files m))).

Definition files_of (m : Machine) : Files := set_dir (dir_of m) (files m).

(** Computations on a machine; as in RaftNode.v, [None] is a panic. *)
Definition I (A : Type) : Type := Machine -> World -> option (A * Machine * World).

#[export] Instance I_ret : MRet I := fun A a m w => Some (a, m, w).
#[export] Instance I_bind : MBind I := fun A B k c m w =>
  match c m w with
  | Some (a, m', w') => k a m' w'
  | None => None
  end.

Definition onNode {A} (c : M A) : I A := fun m w =>
  match c (mnode m) w with
  | Some (a, n, w') => Some (a, set_mnode n m, w')
  | None => None
  end.

Definition onFiles {A} (c : D A) : I A := fun m w =>
  let '(a, fs, os) := c (files m) (faults w) in Some (a, set_files fs m, MkWorld os (out w)).

Definition ask {A} (f : Machine -> A) : I A := fun m w => Some (f m, m, w).
Definition update (f : Machine -> Machine) : I unit := fun m w => Some (tt, f m, w).

(** ** The store as the node's state machine

    An error or a panic of the store makes the apply loop panic. *)
#[export] Instance store_machine : StateMachine (db.DB * db.Disk) := {
  ApplyEntry s idx entry :=
    match db.ApplyEntry s.1 s.2 idx entry with Some (d, k, None) => Some (d, k) | _ => None end;
  ApplyControlEntry s idx :=
    match db.ApplyControlEntry s.1 s.2 idx with Some (d, k, None) => Some (d, k) | _ => None end
}.

Definition applyLoop : I unit := fun m w =>
  match applyCommitted (store m, f_disk (f_dir (files m))) (mnode m) w with
  | Some ((d, k), n, w') =>
      Some (tt, MkMachine n d (mopts m) (set_dir (MkDir (f_wal (f_dir (files m))) k) (files m)) (installsApplied m), w')
  | None => None
  end.

(** ** The swap under the node *)

Definition closeStore : I bool :=
  _ ← update (fun m => set_store (db.Close (store m)) (set_files (files_of m) m));
  onFiles attempt.

Definition set_commitOverride (b : bool) (d : db.DB) : db.DB :=
  db.MkDB (db.opts d) (db.db_wal d) (db.memtable d) (db.frozen d) (db.sstables d) (db.sstableIDs d)
    (db.nextID d) (db.nextTimestamp d) (db.appliedIndex d) (db.recoveredApplied d) (db.appliedTS d)
    (db.sessions d) (db.closed d) b (db.activeTxns d) (db.compactPending d) (db.rng d).

Definition tryOpen : I bool :=
  d ← ask (fun m => f_dir (files m));
  o ← ask mopts;
  c ← ask (fun m => db.rng (store m));
  match db.OpenWith (f_wal d) (f_disk d) o c with
  | Ok d' => _ ← update (set_store d'); mret true
  | Err _ => mret false
  | Panic => fun _ _ => None
  end.

(** One attempt to open the store; a failure may come before or after the store
    has created its log. *)
Definition openStore : I bool :=
  f ← onFiles next;
  d ← ask (fun m => f_dir (files m));
  match f with
  | None => tryOpen
  | Some O => mret false
  | Some _ => _ ← onFiles (change (set_dir (MkDir (Some (default [] (f_wal d))) (f_disk d)))); mret false
  end.

Definition installReopenAttempts : nat := 5.

Fixpoint reopen (attempts : nat) : I bool :=
  match attempts with
  | O => mret false
  | S k => ok ← openStore; if (ok : bool) then mret true else reopen k
  end.

(** A missing log file is a nil pointer. *)
Definition fileReset (idx term : Z) : M bool :=
  lf ← expr logFile;
  f ← next_fault;
  let '(lf', err) := raftlogfile.resetToBase lf idx term f in
  _ ← modify (set_logFile (Some lf'));
  mret (match err with None => true | Some _ => false end).

(** The node part of [completeInstall], under [raftMu]. *)
Definition adoptBase (idx term : Z) (cfg : option Members) : M bool :=
  ok ← fileReset idx term;
  if negb ok then mret false
  else
    _ ← modify (fun n => set_log (resetToBase (log n) idx term) n);
    _ ← (match cfg with
         | Some c => modify (fun n => set_config (Some (config.copyConfig c)) (set_baseConfig (config.copyConfig c) n))
         | None => skip
         end);
    _ ← modify (fun n => set_installing false (set_lastApplied idx (set_commitIndex idx n)));
    _ ← emit Broadcast;
    _ ← emit ResetElectionTimer;
    mret true.

(** [installStagedConfig] writes raft/config, which is the node's [configPath]. *)
Definition stagedConfig : I (option (option Members)) :=
  base ← ask (fun m => default None (configPath (mnode m)));
  r ← onFiles (installStagedConfig base);
  let '(r, base') := r in
  _ ← onNode (modify (fun n => match configPath n with Some _ => set_configPath (Some base') n | None => n end));
  mret r.

Definition countInstall : I unit :=
  update (fun m => MkMachine (mnode m) (store m) (mopts m) (files m) (installsApplied m + 1)).

Definition completeInstall (idx term : Z) : I bool :=
  closeStore ;;;
  onFiles swapInStagedDB ;;;
  reopen installReopenAttempts ;;;
  (_ ← update (fun m => set_store (set_commitOverride true (store m)) m);
   c ← stagedConfig;
   match c with
   | None => mret false
   | Some cfg =>
       onNode (adoptBase idx term cfg) ;;;
       onFiles clearInstallMarker ;;;
       (_ ← onFiles clearInstallConfig;
        _ ← countInstall;
        onFiles removeStaged)
   end).

(** ** The follower *)

(** What a failed [BuildSnapshotDB] has written: nothing, the table, or the
    table and the applied index. *)
Definition partialBuild (k : nat) (d : db.Disk) : db.Disk :=
  match k with
  | O => db.MkDisk ∅ None None
  | S O => db.MkDisk (db.d_ssts d) None None
  | _ => db.MkDisk (db.d_ssts d) (db.d_base d) None
  end.

(** [os.RemoveAll], [os.MkdirAll] and [db.BuildSnapshotDB]. *)
Definition stageSnapshot (kvs : list snapshot.KV) (sess : gmap bytes Z) (idx ts : Z) : I bool :=
  onFiles removeStaged ;;;
  onFiles attempt ;;;
  (_ ← onFiles (change (set_staged (Some emptyDir)));
   f ← onFiles next;
   match snapshot.BuildSnapshotDB kvs sess idx ts, f with
   | Panic, _ => fun _ _ => None
   | Err _, _ => mret false
   | Ok disk, None => _ ← onFiles (change (set_staged (Some (MkDir None disk)))); mret true
   | Ok disk, Some k => _ ← onFiles (change (set_staged (Some (MkDir None (partialBuild k disk))))); mret false
   end).

(** [(recoverable, ok)]. *)
Definition installSnapshot (idx term ts : Z) (kvs : list snapshot.KV) (sess : gmap bytes Z) (cfg : bytes)
  : I (bool * bool) :=
  ok ← (stageSnapshot kvs sess idx ts ;;;
        (if decide (len cfg > 0) then onFiles (writeInstallConfig cfg) else mret true) ;;;
        onFiles (writeInstallMarker (MkMarker idx term ts)));
  if negb ok then mret (true, false)
  else
    ok ← completeInstall idx term;
    mret (if (ok : bool) then (true, true) else (false, false)).

Definition snapshotKVs (l : list (bytes * bytes)) : list snapshot.KV := snapshot.kvs_of l.

(** The map loop: a later entry for a session replaces an earlier one. *)
Definition sessionMap (l : list (bytes * Z)) : gmap bytes Z := foldl (fun m e => <[e.1 := e.2]> m) ∅ l.

Definition handleInstallSnapshot (now : Z) (m : Message) (idx lit ts : Z) (snap : list (bytes * bytes))
  (cfg : bytes) (sess : list (bytes * Z)) : I unit :=
  let reply term success match_ := onNode (send (From m) (fun _ => MsgInstallSnapshotResponse success match_) term) in
  t0 ← ask (fun c => currentTerm (mnode c));
  if decide (Term m < t0) then reply t0 false 0
  else
    _ ← onNode (if decide (Term m > t0) then stepDownLocked (Term m) else skip);
    _ ← onNode (modify (set_role Follower));
    _ ← onNode (emit ResetElectionTimer);
    _ ← onNode (modify (set_lastLeaderContact (Some now)));
    term ← ask (fun c => currentTerm (mnode c));
    inst ← ask (fun c => installing (mnode c));
    la ← ask (fun c => lastApplied (mnode c));
    if (inst : bool) then reply term false 0
    else if decide (idx <= la) then reply term true idx
    else
      _ ← onNode (modify (set_installing true));
      r ← installSnapshot idx lit ts (snapshotKVs snap) (sessionMap sess) cfg;
      let '(recoverable, ok) := r in
      if (ok : bool) then reply term true idx
      else
        _ ← (if (recoverable : bool) then onNode (modify (set_installing false)) else mret tt);
        reply term false 0.

(** [run]: the messages a node handles on its own goroutine. *)
Definition receive (now : Z) (m : Message) : I unit :=
  match body m with
  | MsgInstallSnapshot idx lit ts snap cfg sess _ => handleInstallSnapshot now m idx lit ts snap cfg sess
  | _ => onNode (dispatch now m)
  end.

(** ** The leader *)

(** The pairs of the iterator and what goes with them, captured under [storeMu];
    [None] for a scan that fails. *)
Record Captured := MkCaptured {
  c_kvs : list (bytes * bytes); c_idx : Z; c_ts : Z; c_sessions : gmap bytes Z
}.

(** The walk ends, so any fuel above the number of keys gives the same. *)
Definition captureSnapshot (fuel : nat) : I (option Captured) := fun m w =>
  match scan.SnapshotScan (store m) with
  | None => None
  | Some (d, Ok (it, idx, ts)) =>
      match scan.collect fuel it with
      | None => None
      | Some (it', rs) =>
          Some (match scan.it_err it' with
                | None => Some (MkCaptured rs idx ts (db.SessionTable d))
                | Some _ => None
                end, set_store d m, w)
      end
  | Some (d, Err _) => Some (None, set_store d m, w)
  | Some (_, Panic) => None
  end.

(** The message, if the node still leads [term] and has the entry's term; sessions
    are sent in the order of the map. *)
Definition snapshotMessage (term : Z) (c : Captured) : M (option Message) :=
  r ← gets role;
  t ← gets currentTerm;
  base ← gets (fun n => baseIndex (log n));
  if decide (r <> Leader \/ t <> term) then mret None
  else if decide (c_idx c < base) then mret None
  else
    lit ← expr (fun n => raftlog.term (log n) (c_idx c));
    members ← expr (fun n => configAsOfLocked n (c_idx c));
    lc ← gets commitIndex;
    me ← gets id;
    mret (Some (MkMessage me term
      (MsgInstallSnapshot (c_idx c) lit (c_ts c) (c_kvs c) (config.encodeConfig members)
         (map_to_list (c_sessions c)) lc))).

(** [sendSnapshot] up to its wait. *)
Definition sendSnapshot (fuel : nat) (p : NodeID) (term : Z) : I (option Captured) :=
  c ← captureSnapshot fuel;
  match c with
  | None => mret None
  | Some c =>
      m ← onNode (snapshotMessage term c);
      match m with
      | None => mret None
      | Some msg => _ ← onNode (emit (Send p msg)); mret (Some c)
      end
  end.

(** [sendSnapshot] from the reply on. *)
Definition onSnapshotReply (p : NodeID) (term idx : Z) (resp : Message) : M unit :=
  t ← gets currentTerm;
  r ← gets role;
  if decide (Term resp > t) then stepDownLocked (Term resp)
  else if decide (r <> Leader \/ t <> term) then skip
  else if respSuccess (body resp) then
    _ ← modify (fun n =>
          set_matchIndex (if decide (idx > default 0 (matchIndex n !! p)) then <[p := idx]> (matchIndex n) else matchIndex n) n);
    modify (fun n => set_nextIndex (<[p := u64 (idx + 1)]> (nextIndex n)) n)
  else skip.

(** ** Opening a node *)

Inductive open_error := ErrInstall | ErrStore (e : db.error) | ErrBuild (e : build_error).

(** [buildNode] of cluster.go whole: completion of a pending install, the store,
    and the rest on what the store recovered.  The Raft files are those at the
    paths; the result is with them as the completion left them. *)
Definition openNode (me : NodeID) (ps : list NodeID) (bootstrap : Members) (c : Cfg) (o : db.Options) (rng : db.coins)
  (fs : Files) (log state base : option bytes) (os : outcomes) : outcome open_error Machine * Files * option bytes * option bytes :=
  let '(ok, log', base', fs', os') := completeInstallIfPending (db.SyncOnWrite o) log base fs os in
  if negb ok then (Err ErrInstall, fs', log', base')
  else
    (match db.OpenWith (f_wal (f_dir fs')) (f_disk (f_dir fs')) o rng with
     | Err e => Err (ErrStore e)
     | Panic => Panic
     | Ok d =>
         match buildNode me ps bootstrap c (db.SyncOnWrite o) log' state base' (db.RecoveredAppliedIndex d)
                 (head os' ≫= Datatypes.id) with
         | Ok n => Ok (MkMachine n (set_commitOverride true d) o fs' 0)
         | Err e => Err (ErrBuild e)
         | Panic => Panic
         end
     end, fs', log', base').

End install.
