(* ===== verification/RaftInstallSpec.v ===== *)
(** * Installing snapshots: specification and proofs

    Crash triples for the file operations of RaftInstall.v, the swap, completion
    after a crash, and the follower's handler. *)

From Stdlib Require Import ZArith Lia.
From Stdlib Require Import Strings.Byte.
From stdpp Require Import base list gmap sorting.
From S2P Require Import Prelude.
From S2P Require Import RecordFmt.
From S2P Require Import Wal.
From S2P Require Import DbDisk.
From S2P Require Import Db.
From S2P Require Import Layers.
From S2P Require Import DbStore.
From S2P Require Import DbScan.
From S2P Require Import DbSnapshot.
From S2P Require Import RaftLog.
From S2P Require Import RaftConfig.
From S2P Require Import RaftLogFile.
From S2P Require Import RaftNode.
From S2P Require Import RaftRun.
From S2P Require Import RaftElection.
From S2P Require Import RaftFollower.
From S2P Require Import RaftApply.
From S2P Require Import RaftInstall.

#[local] Open Scope Z_scope.

Module installed.
Import raftlog node run follower applied install.

(** ** Directories *)

Lemma readFile_setFile d f c g : readFile (setFile d f c) g = if decide (g = f) then c else readFile d g.
Proof.
  destruct d as [w [s b e]]. destruct f, g; cbn; try (by case_decide); case_decide as H; try done.
  - injection H as ->. apply lookup_partial_alter_eq.
  - apply lookup_partial_alter_ne. congruence.
Qed.

Lemma dir_ext d d' : (forall f, readFile d f = readFile d' f) -> d = d'.
Proof.
  intros H. destruct d as [w [s b e]], d' as [w' [s' b' e']]. f_equal; [apply (H WalFile)|].
  f_equal; [|apply (H AppliedBase)|apply (H SessionsFile)]. apply map_eq. intros i. apply (H (SST i)).
Qed.

Lemma elem_of_names d f : f ∈ names d <-> is_Some (readFile d f).
Proof.
  unfold names. rewrite !elem_of_app, list_elem_of_fmap. destruct d as [w [s b e]]. cbn [f_disk f_wal db.d_ssts db.d_base db.d_sessions].
  assert (forall i, i ∈ merge_sort Z.le (map_to_list s).*1 <-> is_Some (s !! i)) as Hs.
  { intros i. rewrite merge_sort_Permutation, list_elem_of_fmap. split.
    - intros ([j x] & -> & H%elem_of_map_to_list). by exists x.
    - intros [x H]. exists (i, x). split; [done|]. by apply elem_of_map_to_list. }
  destruct f as [i| | |]; cbn [readFile f_disk f_wal db.d_ssts db.d_base db.d_sessions]; rewrite <- ?Hs;
    destruct w, b, e; rewrite ?list_elem_of_singleton, ?elem_of_nil; split; try naive_solver;
    intros H; try (by destruct H); naive_solver.
Qed.

(** ** Crash triples

    [c] started on [fs] ends with success in [post], or fails (at whatever
    operation, with whatever that operation has already done) in a state
    satisfying [crash]; with working operations it succeeds. *)
Definition triple (c : D bool) (fs : Files) (post : Files) (crash : Files -> Prop) : Prop :=
  forall os, let '(ok, fs', os') := c fs os in
    (if (ok : bool) then fs' = post else crash fs') /\ (os = [] -> ok = true /\ os' = []).

Lemma triple_then c k fs fs1 fs2 (C : Files -> Prop) :
  triple c fs fs1 C -> triple k fs1 fs2 C -> triple (c ;;; k) fs fs2 C.
Proof.
  intros Hc Hk os. unfold andThen, mbind, D_bind. specialize (Hc os). destruct (c fs os) as [[ok fs'] os'].
  destruct Hc as [H1 H2]. destruct ok.
  - subst fs'. specialize (Hk os'). destruct (k fs1 os') as [[ok2 fs2'] os2]. destruct Hk as [H3 H4]. split; [done|].
    intros Ho. apply H4. by apply H2.
  - unfold mret, D_ret. split; [done|]. intros Ho. by destruct (H2 Ho).
Qed.

Lemma triple_weaken c fs post (C C' : Files -> Prop) :
  triple c fs post C -> (forall x, C x -> C' x) -> triple c fs post C'.
Proof.
  intros H Hi os. specialize (H os). destruct (c fs os) as [[ok fs'] os']. destruct H as [H1 H2].
  split; [destruct ok; auto|done].
Qed.

Lemma triple_ret fs C : triple (mret true) fs fs C.
Proof. by intros os. Qed.

Lemma triple_attempt fs : triple attempt fs fs (fun x => x = fs).
Proof. intros [|[k|] os]; cbn; by split. Qed.

Lemma triple_remove rm fs : triple (remove rm) fs (rm fs) (fun x => x = fs \/ x = rm fs).
Proof. intros [|[[|k]|] os]; cbn; split; auto; done. Qed.

Lemma triple_removeStaged fs :
  triple removeStaged fs (set_staged None fs) (fun x => exists s, x = set_staged s fs).
Proof.
  intros [|[[|k]|] os]; cbn; split; try done; eauto. exists (f_staged fs). by destruct fs.
Qed.

(** [fs] with another data directory. *)
Definition same_but_dir (fs x : Files) : Prop := exists d, x = set_dir d fs.

Lemma triple_copyFile f content fs :
  triple (copyFileSync f content) fs (set_dir (setFile (f_dir fs) f (Some content)) fs) (same_but_dir fs).
Proof.
  intros [|[[|k]|] os]; cbn; split; try done; [|by eexists]. exists (f_dir fs). by destruct fs.
Qed.

(** [d] without the files of a list, and with them taken from [src]. *)
Definition without (fns : list FileName) (d : Dir) : Dir := foldl (fun d f => setFile d f None) d fns.
Definition copied (src : Dir) (fns : list FileName) (d : Dir) : Dir :=
  foldl (fun d f => setFile d f (Some (default [] (readFile src f)))) d fns.

Lemma triple_removeFiles fns : forall fs,
  triple (removeFiles fns) fs (set_dir (without fns (f_dir fs)) fs) (same_but_dir fs).
Proof.
  induction fns as [|f fns IH]; intros fs; cbn [removeFiles without foldl].
  - destruct fs. apply triple_ret.
  - eapply triple_then; [eapply triple_weaken; [apply triple_remove|]|].
    + intros x [->| ->]; [exists (f_dir fs); by destruct fs|by eexists].
    + eapply triple_weaken; [exact (IH (set_dir (setFile (f_dir fs) f None) fs))|].
      intros x [d ->]. by exists d.
Qed.

Lemma triple_copyFiles src fns : forall fs,
  triple (copyFiles src fns) fs (set_dir (copied src fns (f_dir fs)) fs) (same_but_dir fs).
Proof.
  induction fns as [|f fns IH]; intros fs; cbn [copyFiles copied foldl].
  - destruct fs. apply triple_ret.
  - eapply triple_then; [apply triple_copyFile|].
    eapply triple_weaken; [exact (IH (set_dir (setFile (f_dir fs) f _) fs))|]. intros x [d ->]. by exists d.
Qed.

Lemma readFile_without fns : forall d g, readFile (without fns d) g = if decide (g ∈ fns) then None else readFile d g.
Proof.
  induction fns as [|f fns IH]; intros d g; cbn [without foldl].
  - rewrite decide_False; [done|by apply not_elem_of_nil].
  - change (foldl _ (setFile d f None) fns) with (without fns (setFile d f None)). rewrite IH, readFile_setFile.
    destruct (decide (g ∈ fns)) as [H|H]; [by rewrite decide_True by (by apply elem_of_cons; right)|].
    destruct (decide (g = f)) as [->|Hne]; [by rewrite decide_True by apply list_elem_of_here|].
    rewrite decide_False; [done|]. intros [?|?]%elem_of_cons; done.
Qed.

Lemma readFile_copied src fns : forall d g,
  readFile (copied src fns d) g = if decide (g ∈ fns) then Some (default [] (readFile src g)) else readFile d g.
Proof.
  induction fns as [|f fns IH]; intros d g; cbn [copied foldl].
  - rewrite decide_False; [done|by apply not_elem_of_nil].
  - change (foldl _ ?x fns) with (copied src fns x). rewrite IH, readFile_setFile.
    destruct (decide (g ∈ fns)) as [H|H]; [by rewrite decide_True by (by apply elem_of_cons; right)|].
    destruct (decide (g = f)) as [->|Hne]; [by rewrite decide_True by apply list_elem_of_here|].
    rewrite decide_False; [done|]. intros [?|?]%elem_of_cons; done.
Qed.

(** Clearing a directory and copying another makes it that one. *)
Lemma swapped src d : copied src (names src) (without (names d) d) = src.
Proof.
  apply dir_ext. intros f. rewrite readFile_copied, readFile_without.
  destruct (decide (f ∈ names src)) as [H|H]; rewrite elem_of_names in H.
  - destruct H as [x ->]. done.
  - destruct (readFile src f) eqn:E; [by destruct H|].
    destruct (decide (f ∈ names d)) as [H'|H']; [done|]. rewrite elem_of_names in H'.
    destruct (readFile d f); [by destruct H'|done].
Qed.

(** The swap, whatever the data directory holds: on success it is the staged
    one, and no failure touches anything else. *)
Lemma triple_swap fs src :
  f_staged fs = Some src -> triple swapInStagedDB fs (set_dir src fs) (same_but_dir fs).
Proof.
  intros Hs. unfold swapInStagedDB.
  assert (forall x, x = fs -> same_but_dir fs x) as Hsame by (intros x ->; exists (f_dir fs); by destruct fs).
  apply (triple_then _ _ _ fs); [eapply triple_weaken; [apply triple_attempt|done]|].
  set (fs1 := set_dir (without (names (f_dir fs)) (f_dir fs)) fs).
  apply (triple_then _ _ _ fs1); [exact (triple_removeFiles (names (f_dir fs)) fs)|].
  apply (triple_then _ _ _ (set_dir src fs)).
  - intros os. unfold mbind, D_bind, look. pose proof (triple_attempt fs1 os) as Ha.
    destruct (attempt fs1 os) as [[ok fs'] os'] eqn:E. destruct Ha as [H1 H2].
    assert (fs' = fs1) as -> by (by destruct ok). cbn [f_staged fs1 set_dir]. rewrite Hs.
    destruct ok; [|split; [by exists (f_dir fs1)|done]].
    pose proof (triple_copyFiles src (names src) fs1 os') as Hc. destruct (copyFiles src (names src) fs1 os') as [[ok2 fs2] os2].
    destruct Hc as [H3 H4]. split; [|intros Ho; apply H4, H2, Ho]. destruct ok2.
    + subst fs2. cbn [fs1 f_dir set_dir]. by rewrite swapped.
    + destruct H3 as [d ->]. by exists d.
  - eapply triple_weaken; [apply triple_attempt|]. intros x ->. by exists src.
Qed.

(** ** A snapshot and its traces on disk *)

Record Snap := MkSnap {
  s_kvs : list snapshot.KV; s_sess : gmap bytes Z; s_idx : Z; s_term : Z; s_ts : Z; s_cfg : bytes; s_disk : db.Disk
}.

(** What the formats can carry; [s_disk] is the store built from it. *)
Record snap_ok (S : Snap) : Prop := {
  so_build : snapshot.BuildSnapshotDB (s_kvs S) (s_sess S) (s_idx S) (s_ts S) = Ok (s_disk S);
  so_kvs : snapshot.kvs_ok (s_kvs S) (s_ts S);
  so_sess : snapshot.sessions_ok (s_sess S);
  so_idx : 0 < s_idx S <= maxPersisted;
  so_term : is_u64 (s_term S);
  so_ts : 0 <= s_ts S < 2 ^ 64 - 1;
  so_cfg : 0 < len (s_cfg S)
}.

Definition snapLog (S : Snap) : RaftLog := MkRaftLog (s_idx S) (s_term S) [].
Definition snapMarker (S : Snap) : installMarker := MkMarker (s_idx S) (s_term S) (s_ts S).
Definition snapConfig (S : Snap) : Members := config.decodeConfig (s_cfg S).

(** A Raft log a restart can read. *)
Definition loadable (log : option bytes) : Prop :=
  exists l tail, log = Some (raftlogfile.contents l ++ tail) /\ raftlogfile.torn tail
    /\ Forall raftlogfile.entry_ok (entries l) /\ is_u64 (baseIndex l) /\ is_u64 (baseTerm l).

(** The commit point is passed and the swap is not known to be complete. *)
Record pending (S : Snap) (fs : Files) (log : option bytes) : Prop := {
  pe_marker : parseMarker (f_marker fs) = Some (snapMarker S);
  pe_staged : f_staged fs = Some (MkDir None (s_disk S));
  pe_config : f_config fs = Some (s_cfg S);
  pe_log : loadable log
}.

(** The snapshot is the state of the node. *)
Record finished (S : Snap) (fs : Files) (log base : option bytes) : Prop := {
  fi_marker : parseMarker (f_marker fs) = None;
  fi_disk : f_disk (f_dir fs) = s_disk S;
  fi_wal : default [] (f_wal (f_dir fs)) = [];
  fi_log : log = Some (raftlogfile.contents (snapLog S));
  fi_base : base = Some (config.encodeConfig (snapConfig S))
}.

Lemma snap_u64 S : snap_ok S -> is_u64 (s_idx S) /\ is_u64 (s_term S) /\ is_u64 (s_ts S).
Proof. intros H. pose proof maxPersisted_bound. destruct H. unfold is_u64 in *. lia. Qed.

Lemma parse_marker S : snap_ok S -> parseMarker (Some (markerBytes (snapMarker S))) = Some (snapMarker S).
Proof.
  intros (H1 & H2 & H3)%snap_u64. unfold parseMarker, markerBytes.
  assert (len (le_bytes 8 installMarkerMagic ++ le_bytes 8 (s_idx S) ++ le_bytes 8 (s_term S) ++ le_bytes 8 (s_ts S)) = 32) as Hl
    by (rewrite !len_app, !len_le_bytes; done).
  cbn [lastIncludedIndex lastIncludedTerm snapshotTS snapMarker].
  rewrite Hl, record.Uint64_head. rewrite decide_False by (intros [?|?]; [unfold installMarkerSize in *; lia|done]).
  unfold snapMarker. do 2 f_equal.
  - rewrite record.Uint64_mid by by rewrite len_le_bytes. by apply u64_small.
  - rewrite app_assoc, record.Uint64_mid by by rewrite len_app, !len_le_bytes. by apply u64_small.
  - rewrite (app_assoc (le_bytes 8 installMarkerMagic)), (app_assoc _ (le_bytes 8 (s_term S))).
    rewrite <- (app_nil_r (le_bytes 8 (s_ts S))), record.Uint64_mid by by rewrite !len_app, !len_le_bytes.
    by apply u64_small.
Qed.

Lemma loadable_contents l :
  Forall raftlogfile.entry_ok (entries l) -> is_u64 (baseIndex l) -> is_u64 (baseTerm l) ->
  loadable (Some (raftlogfile.contents l)).
Proof. intros. exists l, []. rewrite app_nil_r. by split_and!; try apply raftlogfile.torn_nil. Qed.

Lemma loadable_snap S : snap_ok S -> loadable (Some (raftlogfile.contents (snapLog S))).
Proof. intros (H1 & H2 & _)%snap_u64. apply loadable_contents; [constructor|done..]. Qed.

Lemma reset_run S log s f : snap_ok S -> loadable log ->
  let '(log', r) := raftlogfile.resetRaftLogFileTo log (s_idx S) (s_term S) s f in
  (if r is Ok _ then log' = Some (raftlogfile.contents (snapLog S)) else loadable log')
  /\ (f = None -> r = Ok tt).
Proof.
  intros HS (l & tail & -> & Ht & Hok & Hu1 & Hu2). unfold raftlogfile.resetRaftLogFileTo, raftlogfile.openRaftLogFile.
  change (default [] (Some ?x)) with x. rewrite (raftlogfile.load_contents l tail s Hok Hu1 Hu2 Ht).
  unfold raftlogfile.compact. cbn [raftlogfile.is_open negb].
  destruct f as [[|k]|]; (split; [|done]).
  - by apply loadable_contents.
  - apply (loadable_snap S HS).
  - done.
Qed.

Lemma config_run S base fs os : f_config fs = Some (s_cfg S) ->
  let '(r, base', fs', os') := installStagedConfig base fs os in
  fs' = fs
  /\ (match r with
      | Some c => c = Some (snapConfig S) /\ base' = Some (config.encodeConfig (snapConfig S))
      | None => True
      end)
  /\ (os = [] -> is_Some r /\ os' = []).
Proof.
  intros Hc. unfold installStagedConfig, mbind, D_bind, look, mret, D_ret. pose proof (triple_attempt fs os) as Ha.
  destruct (attempt fs os) as [[ok fs1] os1]. destruct Ha as [H1 H2].
  assert (fs1 = fs) as -> by (by destruct ok). rewrite Hc. destruct ok; cbn [negb].
  - unfold next. destruct os1 as [|[[|k]|] os2]; cbn; split_and!; try done; intros Ho; destruct (H2 Ho); done.
  - split_and!; try done. intros Ho. by destruct (H2 Ho).
Qed.

(** Dropping the marker, the staged configuration and the staging directory. *)
Lemma cleanup_run fs os :
  let '(ok, fs', os') := (clearInstallMarker ;;; (_ ← clearInstallConfig; removeStaged)) fs os in
  ((fs' = fs /\ ok = false) \/ (f_dir fs' = f_dir fs /\ f_marker fs' = None))
  /\ (ok = true -> f_staged fs' = None)
  /\ (os = [] -> ok = true /\ os' = [] /\ fs' = MkFiles (f_dir fs) None None None).
Proof.
  unfold andThen, mbind, D_bind. pose proof (triple_remove (set_marker None) fs os) as H1.
  fold clearInstallMarker in H1. destruct (clearInstallMarker fs os) as [[ok fs1] os1]. destruct H1 as [H1 H1'].
  destruct ok; cbn [mret D_ret].
  2:{ unfold mret, D_ret. destruct H1 as [->| ->]; split_and!; auto; try done; intros Ho; by destruct (H1' Ho). }
  subst fs1. pose proof (triple_remove (set_staged_config None) (set_marker None fs) os1) as H2.
  fold clearInstallConfig in H2. destruct (clearInstallConfig _ os1) as [[ok2 fs2] os2]. destruct H2 as [H2 H2'].
  assert (f_dir fs2 = f_dir fs /\ f_marker fs2 = None) as [Hd Hm].
  { destruct ok2; [by subst fs2|]. by destruct H2 as [->| ->]. }
  pose proof (triple_removeStaged fs2 os2) as H3. destruct (removeStaged fs2 os2) as [[ok3 fs3] os3]. destruct H3 as [H3 H3'].
  destruct ok3.
  - subst fs3. split; [right; by cbn|]. split; [done|]. intros Ho. destruct (H1' Ho) as [_ Ho1].
    destruct (H2' Ho1) as [-> Ho2]. subst fs2. by destruct (H3' Ho2) as [_ ->].
  - destruct H3 as [st ->]. split; [right; by cbn|]. split; [done|].
    intros Ho. destruct (H1' Ho) as [_ Ho1]. destruct (H2' Ho1) as [_ Ho2]. by destruct (H3' Ho2).
Qed.

(** ** Completion after a crash *)

Lemma set_dir_fields d fs :
  f_staged (set_dir d fs) = f_staged fs /\ f_marker (set_dir d fs) = f_marker fs /\ f_config (set_dir d fs) = f_config fs.
Proof. done. Qed.

Lemma pending_dir S fs log d log' : loadable log' -> pending S fs log -> pending S (set_dir d fs) log'.
Proof. intros Hl [H1 H2 H3 _]. by split. Qed.

(** A restart that finds the marker either completes the install, or dies and
    leaves it as it was to be completed, or dies with it complete.  Whether the
    staging directory is there must not be in doubt. *)
Lemma complete_pending S s fs log base os :
  snap_ok S -> pending S fs log -> default None (os !! 1%nat) = None ->
  let '(ok, log', base', fs', os') := completeInstallIfPending s log base fs os in
  (if (ok : bool) then finished S fs' log' base' /\ f_staged fs' = None else pending S fs' log' \/ finished S fs' log' base')
  /\ (os = [] -> ok = true /\ os' = []).
Proof.
  intros HS Hp Hstat. pose proof Hp as [Hm Hst Hc Hl].
  unfold completeInstallIfPending, readInstallMarker. unfold mbind, D_bind, look, mret, D_ret.
  pose proof (triple_attempt fs os) as Ha. destruct (attempt fs os) as [[ok fs1] os1] eqn:Ea. destruct Ha as [H1 H2].
  assert (fs1 = fs) as -> by (by destruct ok). destruct ok.
  2:{ split; [by left|]. intros Ho. by destruct (H2 Ho). }
  rewrite Hm.
  assert (attempt fs os1 = (true, fs, tail os1)) as ->.
  { destruct os as [|[k|] os]; cbn in Ea; try done; injection Ea as <-; [done|]. cbn in Hstat.
    destruct os as [|[k|] os]; cbn in Hstat; done. }
  rewrite Hst. set (os2 := tail os1).
  assert (os = [] -> os2 = []) as Hos2 by (intros Ho; unfold os2; by destruct (H2 Ho) as [_ ->]).
  pose proof (triple_swap fs _ Hst os2) as Hs. destruct (swapInStagedDB fs os2) as [[ok fs2] os3]. destruct Hs as [H3 H4].
  destruct ok; cbn [negb].
  2:{ destruct H3 as [d ->]. split; [left; by apply (pending_dir S fs log)|]. intros Ho. by destruct (H4 (Hos2 Ho)). }
  subst fs2. set (fs2 := set_dir _ fs).
  assert (exists f os4, next fs2 os3 = (f, fs2, os4) /\ (os3 = [] -> f = None /\ os4 = [])) as (f & os4 & -> & H5)
    by (unfold next; destruct os3 as [|f os3]; [exists None, []|exists f, os3]; by split).
  pose proof (reset_run S log s f HS Hl) as Hr. cbn [lastIncludedIndex lastIncludedTerm snapMarker].
  destruct (raftlogfile.resetRaftLogFileTo log (s_idx S) (s_term S) s f) as [log' r]. destruct Hr as [Hr Hr'].
  assert (os = [] -> r = Ok tt /\ os4 = []) as Hos4.
  { intros Ho. destruct (H4 (Hos2 Ho)) as [_ Ho3]. destruct (H5 Ho3) as [Hf Ho4]. auto. }
  destruct r as [u|e|].
  2,3: split; [left; by apply (pending_dir S fs log)|]; intros Ho; by destruct (Hos4 Ho).
  subst log'. pose proof (config_run S base fs2 os4 Hc) as Hcr. destruct (installStagedConfig base fs2 os4) as [[[r base'] fs3] os5].
  destruct Hcr as (-> & Hcr & Hcr').
  assert (pending S fs2 (Some (raftlogfile.contents (snapLog S)))) as Hp2
    by (apply (pending_dir S fs log); [by apply loadable_snap|done]).
  destruct r as [c|].
  2:{ split; [by left|]. intros Ho. destruct (Hos4 Ho) as [_ Ho4]. by destruct (Hcr' Ho4) as [[??] ?]. }
  destruct Hcr as [_ ->]. pose proof (cleanup_run fs2 os5) as Hcl.
  destruct ((clearInstallMarker ;;; _) fs2 os5) as [[ok fs4] os6]. destruct Hcl as (Hcl & Hcs & Hcl').
  split.
  - destruct Hcl as [[-> ->]|[Hd Hmk]]; [by left|].
    assert (finished S fs4 (Some (raftlogfile.contents (snapLog S))) (Some (config.encodeConfig (snapConfig S)))) as Hfin
      by (split; rewrite ?Hd, ?Hmk; done).
    destruct ok; [split; [done|by apply Hcs]|by right].
  - intros Ho. destruct (Hos4 Ho) as [_ Ho4]. destruct (Hcr' Ho4) as [_ Ho5]. destruct (Hcl' Ho5) as (? & ? & _). done.
Qed.

(** Without a marker, completion does nothing. *)
Lemma complete_idle s fs log base os : parseMarker (f_marker fs) = None ->
  let '(ok, log', base', fs', os') := completeInstallIfPending s log base fs os in
  log' = log /\ base' = base /\ fs' = fs /\ (os = [] -> ok = true /\ os' = []).
Proof.
  intros Hm. unfold completeInstallIfPending, readInstallMarker, mbind, D_bind, look, mret, D_ret.
  pose proof (triple_attempt fs os) as Ha. destruct (attempt fs os) as [[ok fs1] os1]. destruct Ha as [H1 H2].
  assert (fs1 = fs) as -> by (by destruct ok). rewrite Hm. destruct ok; (split; [done|split; [done|split; [done|done]]]).
Qed.

(** ** Opening the built store *)

Lemma OpenWith_wal disk o c d : db.OpenWith None disk o c = Ok d -> wal.f (db.db_wal d) = [] /\ db.closed d = false.
Proof.
  unfold db.OpenWith. destruct (db.openTables _ _ _ _ _) as [[[ssts mt] ma]| |]; [|done..].
  cbn [mbind outcome_bind]. destruct (wal.OpenWith None _ _) as [w| |] eqn:Ew; [|done..].
  destruct (wal.Scan _ _ _) as [[st [[e|[e|]]|]]|]; try done. intros [= <-]. split; [|done].
  cbn [db.db_wal]. unfold wal.OpenWith, wal.recover in Ew. cbn in Ew. by injection Ew as <-.
Qed.

(** A created, still empty log is like none. *)
Lemma OpenWith_empty w disk o c : default [] w = [] -> db.OpenWith w disk o c = db.OpenWith None disk o c.
Proof. destruct w as [w|]; [|done]. cbn. by intros ->. Qed.

Lemma open_snapshot S w o c : snap_ok S -> default [] w = [] ->
  exists d, db.OpenWith w (s_disk S) o c = Ok d /\ wal.f (db.db_wal d) = [] /\ db.closed d = false
    /\ snapshot.installed d (s_kvs S) (s_sess S) (s_idx S) (s_ts S).
Proof.
  intros [Hb Hk Hs Hi Ht Hts _] Hw. pose proof maxPersisted_bound.
  destruct (snapshot.BuildSnapshotDB_open (s_kvs S) (s_sess S) (s_idx S) (s_ts S) o c Hk Hs) as (disk & d & Eb & Eo & Hin);
    [unfold is_u64; lia|done|].
  rewrite Hb in Eb. injection Eb as <-. destruct (OpenWith_wal _ _ _ _ Eo) as [Hf Hc].
  exists d. by rewrite OpenWith_empty.
Qed.

Lemma installed_override d b kvs sess idx ts :
  snapshot.installed d kvs sess idx ts -> snapshot.installed (set_commitOverride b d) kvs sess idx ts.
Proof. intros [Hm H1 H2 H3 H4]. split; try done. apply (store.models_frame d); try done. apply Hm. Qed.

(** ** A machine holding a snapshot *)

Record holds (S : Snap) (m : Machine) : Prop := {
  ho_store : snapshot.installed (store m) (s_kvs S) (s_sess S) (s_idx S) (s_ts S);
  ho_override : db.commitOverride (store m) = true;
  ho_log : log (mnode m) = snapLog S;
  ho_file : exists lf, logFile (mnode m) = Some lf /\ raftlogfile.mirrors lf (snapLog S);
  ho_config : config (mnode m) = Some (snapConfig S);
  ho_base : baseConfig (mnode m) = snapConfig S;
  ho_path : configPath (mnode m) = Some (Some (config.encodeConfig (snapConfig S)));
  ho_index : commitIndex (mnode m) = s_idx S /\ lastApplied (mnode m) = s_idx S;
  ho_installing : installing (mnode m) = false;
  ho_wal : wal.f (db.db_wal (store m)) = [];
  ho_disk : f_disk (f_dir (files m)) = s_disk S
}.

(** The Raft files of a machine. *)
Definition log_of (m : Machine) : option bytes := raftlogfile.at_path <$> logFile (mnode m).
Definition base_of (m : Machine) : option bytes := default None (configPath (mnode m)).

(** What a crash finds after the commit point. *)
Definition crashed (S : Snap) (m : Machine) : Prop :=
  pending S (files_of m) (log_of m) \/ finished S (files_of m) (log_of m) (base_of m).

Lemma snap_config S : config.wf (snapConfig S).
Proof. apply decodeConfig_wf. Qed.

Lemma snapLog_mirrors S s : snap_ok S ->
  raftlogfile.mirrors (raftlogfile.MkLogFile (raftlogfile.contents (snapLog S)) (len (raftlogfile.contents (snapLog S)))
    None true s (s_idx S) (s_term S) [] (len (raftlogfile.contents (snapLog S)))) (snapLog S).
Proof.
  intros (H1 & H2 & _)%snap_u64. apply (raftlogfile.mirrors_loaded (snapLog S)); [constructor|done|done|].
  rewrite raftlogfile.len_contents. cbn. by_decide.
Qed.

(** ** Restarts *)

(** Restarts that died before the node ran, one list of outcomes each. *)
Fixpoint restarts (s : bool) (attempts : list outcomes) (st : Files * option bytes * option bytes)
  : Files * option bytes * option bytes :=
  match attempts with
  | [] => st
  | os :: attempts' =>
      let '(fs, log, base) := st in
      let '(_, log', base', fs', _) := completeInstallIfPending s log base fs os in
      restarts s attempts' (fs', log', base')
  end.

Definition stat_works (os : outcomes) : Prop := default None (os !! 1%nat) = None.

Lemma restarts_ends S s attempts : snap_ok S -> Forall stat_works attempts -> forall fs log base,
  pending S fs log \/ finished S fs log base ->
  let '(fs', log', base') := restarts s attempts (fs, log, base) in pending S fs' log' \/ finished S fs' log' base'.
Proof.
  intros HS. induction 1 as [|os attempts Hos _ IH]; intros fs log base H; [done|]. cbn [restarts].
  destruct H as [Hp|Hf].
  - pose proof (complete_pending S s fs log base os HS Hp Hos) as Hc.
    destruct (completeInstallIfPending s log base fs os) as [[[[ok log'] base'] fs'] os']. destruct Hc as [Hc _].
    apply IH. destruct ok; [right; apply Hc|done].
  - pose proof (complete_idle s fs log base os (fi_marker _ _ _ _ Hf)) as Hc.
    destruct (completeInstallIfPending s log base fs os) as [[[[ok log'] base'] fs'] os']. destruct Hc as (-> & -> & -> & _).
    apply IH. by right.
Qed.

Section opening.
Context (me : NodeID) (ps : list NodeID) (bootstrap : Members) (c : Cfg) (o : db.Options) (rng : db.coins).
Context (state : option bytes).

Lemma open_finished S fs log base : snap_ok S -> finished S fs log base ->
  exists m, openNode me ps bootstrap c o rng fs log state base [] = (Ok m, fs, log, base) /\ holds S m.
Proof.
  intros HS [Hm Hd Hw -> ->]. unfold openNode.
  pose proof (complete_idle (db.SyncOnWrite o) fs (Some (raftlogfile.contents (snapLog S))) (Some (config.encodeConfig (snapConfig S))) [] Hm) as Hc.
  destruct (completeInstallIfPending _ _ _ fs []) as [[[[ok log'] base'] fs'] os']. destruct Hc as (-> & -> & -> & Hok).
  destruct (Hok eq_refl) as [-> ->]. cbn [negb]. rewrite Hd.
  destruct (open_snapshot S (f_wal (f_dir fs)) o rng HS Hw) as (d & -> & Hdw & Hdc & Hin).
  destruct (wf_represents (snapLog S)) as [L HL].
  { destruct HS as [_ _ _ [? ?] _ _ _]. split; cbn [snapLog baseIndex entries]; [lia|lia|]. rewrite len_nil. lia. }
  pose proof (buildNode_run (config.copyConfig bootstrap) HL (snapLog_mirrors S (db.SyncOnWrite o) HS) me ps bootstrap c
    (db.SyncOnWrite o) [] state (Some (config.encodeConfig (snapConfig S))) (db.RecoveredAppliedIndex d) eq_refl raftlogfile.torn_nil) as Hb.
  cbv zeta in Hb. rewrite app_nil_r in Hb. pose proof (snapshot.in_applied _ _ _ _ _ Hin) as [Hrec _].
  rewrite Hrec in Hb |- *. rewrite decide_False in Hb by (cbn [snapLog baseIndex]; lia).
  destruct Hb as (n & lf & E & Hlog & Hl & Hbc & Hcp & Hcf & _ & _ & Hci & Hla & Hinst & _).
  cbn [head mbind option_bind]. rewrite E. eexists. split; [reflexivity|].
  assert (default (config.copyConfig bootstrap) (config.readBaseConfigFile (Some (config.encodeConfig (snapConfig S)))) = snapConfig S) as Hbase
    by (unfold config.readBaseConfigFile; cbn; apply config.decode_encode_wf, snap_config).
  rewrite Hbase in Hbc, Hcf. split; cbn [store mnode files].
  - by apply installed_override.
  - reflexivity.
  - exact Hlog.
  - exists lf. split; [apply Hl|]. rewrite <- Hlog. apply Hl.
  - rewrite Hcf. f_equal. unfold logConfig. cbn. apply copyConfig_wf, snap_config.
  - exact Hbc.
  - exact Hcp.
  - by split.
  - exact Hinst.
  - exact Hdw.
  - exact Hd.
Qed.

Lemma open_crashed S fs log base : snap_ok S -> pending S fs log \/ finished S fs log base ->
  exists m fs' log' base', openNode me ps bootstrap c o rng fs log state base [] = (Ok m, fs', log', base')
    /\ holds S m /\ finished S fs' log' base'.
Proof.
  intros HS [Hp|Hf].
  - pose proof (complete_pending S (db.SyncOnWrite o) fs log base [] HS Hp eq_refl) as Hc.
    destruct (completeInstallIfPending (db.SyncOnWrite o) log base fs []) as [[[[ok log'] base'] fs'] os'] eqn:E.
    destruct Hc as [Hc Hok]. destruct (Hok eq_refl) as [-> ->]. destruct Hc as [Hf _].
    destruct (open_finished S fs' log' base' HS Hf) as (m & Em & Hm). exists m, fs', log', base'. split; [|done].
    rewrite <- Em. unfold openNode. rewrite E.
    pose proof (complete_idle (db.SyncOnWrite o) fs' log' base' [] (fi_marker _ _ _ _ Hf)) as Hc.
    destruct (completeInstallIfPending (db.SyncOnWrite o) log' base' fs' []) as [[[[ok2 log2] base2] fs2] os2].
    destruct Hc as (-> & -> & -> & Hok2). by destruct (Hok2 eq_refl) as [-> ->].
  - destruct (open_finished S fs log base HS Hf) as (m & Em & Hm). by exists m, fs, log, base.
Qed.

End opening.

(** ** Crash triples of a machine

    As [triple]; no message is sent on the way. *)
Definition itriple (c : I bool) (m : Machine) (post crash : Machine -> Prop) : Prop :=
  forall w, exists ok m' w', c m w = Some (ok, m', w') /\ election.sends (out w') = election.sends (out w)
    /\ (if (ok : bool) then post m' else crash m') /\ (faults w = [] -> ok = true /\ faults w' = []).

Lemma itriple_then c k m (Q1 Q2 C : Machine -> Prop) :
  itriple c m Q1 C -> (forall m1, Q1 m1 -> itriple k m1 Q2 C) -> itriple (c ;;; k) m Q2 C.
Proof.
  intros Hc Hk w. destruct (Hc w) as (ok & m1 & w1 & E & Hs & H & Hw).
  unfold andThen, mbind, I_bind. rewrite E. destruct ok.
  - destruct (Hk m1 H w1) as (ok2 & m2 & w2 & -> & Hs2 & H2 & Hw2). exists ok2, m2, w2. split; [done|].
    split; [by rewrite Hs2|]. split; [done|]. intros Ho. apply Hw2. by apply Hw.
  - exists false, m1, w1. split; [done|]. split; [done|]. split; [done|]. intros Ho. by destruct (Hw Ho).
Qed.

Lemma itriple_weaken c m (Q C C' : Machine -> Prop) :
  itriple c m Q C -> (forall x, C x -> C' x) -> itriple c m Q C'.
Proof.
  intros H Hi w. destruct (H w) as (ok & m' & w' & E & Hs & Hm & Hw). exists ok, m', w'.
  split; [done|]. split; [done|]. split; [destruct ok; auto|done].
Qed.

Lemma itriple_ret m (Q C : Machine -> Prop) : Q m -> itriple (mret true) m Q C.
Proof. intros H w. by exists true, m, w. Qed.

Lemma itriple_files c m post crash :
  triple c (files m) post crash ->
  itriple (onFiles c) m (fun x => x = set_files post m) (fun x => exists fs, crash fs /\ x = set_files fs m).
Proof.
  intros H w. specialize (H (faults w)). unfold onFiles. destruct (c (files m) (faults w)) as [[ok fs] os] eqn:E.
  destruct H as [H1 H2]. exists ok, (set_files fs m), (MkWorld os (out w)). split; [done|]. split; [done|].
  split; [|done]. destruct ok; [by subst|eauto].
Qed.

(** ** The swap under the node *)

(** The machine once its store is closed: the files are in the directory. *)
Definition closed_m (m : Machine) : Machine := set_store (db.Close (store m)) (set_files (files_of m) m).

Lemma Close_closed d : db.closed (db.Close d) = true.
Proof. unfold db.Close. by destruct (db.closed d) eqn:E. Qed.

Lemma files_of_closed m : db.closed (store m) = true -> files_of m = files m.
Proof. intros H. unfold files_of, dir_of. rewrite H. by destruct m as [? ? ? [] ?]. Qed.

Lemma closeStore_run m : itriple closeStore m (fun x => x = closed_m m) (fun x => x = closed_m m).
Proof.
  intros w. unfold closeStore, mbind, I_bind, update. fold (closed_m m).
  destruct (itriple_files attempt (closed_m m) _ _ (triple_attempt _) w) as (ok & m' & w' & E & Hs & Hm & Hw).
  assert (m' = closed_m m) as -> by (destruct ok; [by rewrite Hm|by destruct Hm as (fs & -> & ->)]).
  exists ok, (closed_m m), w'. split; [done|]. split; [done|]. split; [by destruct ok|done].
Qed.

(** A machine whose directory holds the staged store, not open yet. *)
Definition swapped_in (S : Snap) (m : Machine) : Prop :=
  db.closed (store m) = true /\ f_disk (f_dir (files m)) = s_disk S /\ default [] (f_wal (f_dir (files m))) = [].

Definition with_wal (wl : option bytes) (m : Machine) : Machine :=
  set_files (set_dir (MkDir wl (f_disk (f_dir (files m)))) (files m)) m.

Lemma with_wal_id m : with_wal (f_wal (f_dir (files m))) m = m.
Proof. by destruct m as [? ? ? [[] ? ? ?] ?]. Qed.

(** What attempts to open it end in. *)
Definition opens (S : Snap) (m : Machine) (ok : bool) (m' : Machine) : Prop :=
  exists wl, default [] wl = []
    /\ if ok then exists d, m' = set_store d (with_wal wl m) /\ wal.f (db.db_wal d) = []
          /\ db.closed d = false /\ snapshot.installed d (s_kvs S) (s_sess S) (s_idx S) (s_ts S)
       else m' = with_wal wl m.

Lemma tryOpen_run S m w : snap_ok S -> swapped_in S m ->
  exists m', tryOpen m w = Some (true, m', w) /\ opens S m true m'.
Proof.
  intros HS (Hc & Hd & Hw). unfold tryOpen, mbind, I_bind, ask, update. rewrite Hd.
  destruct (open_snapshot S (f_wal (f_dir (files m))) (mopts m) (db.rng (store m)) HS Hw) as (d & -> & Hf & Hcd & Hin).
  exists (set_store d m). split; [done|]. exists (f_wal (f_dir (files m))). split; [done|].
  exists d. by rewrite with_wal_id.
Qed.

Lemma openStore_run S m w : snap_ok S -> swapped_in S m ->
  exists ok m' w', openStore m w = Some (ok, m', w') /\ out w' = out w /\ opens S m ok m'
    /\ (faults w = [] -> ok = true /\ faults w' = []).
Proof.
  intros HS Hsw. pose proof Hsw as (_ & _ & Hw). unfold openStore.
  assert (set_files (files m) m = m) as Hid by (by destruct m).
  unfold mbind, I_bind, onFiles, next, ask, change, mret, I_ret.
  destruct (faults w) as [|[[|k]|] os] eqn:Ef; rewrite Hid; cbn beta iota.
  1: destruct (tryOpen_run S m (MkWorld [] (out w)) HS Hsw) as (m' & -> & Ho); eexists true, m', _; by split.
  3: destruct (tryOpen_run S m (MkWorld os (out w)) HS Hsw) as (m' & -> & Ho); eexists true, m', _; by split.
  - exists false, m. eexists. split; [done|]. split; [done|]. split; [|done]. exists (f_wal (f_dir (files m))).
    split; [done|]. by rewrite with_wal_id.
  - eexists false, _, _. split; [done|]. split; [done|]. split; [|done].
    exists (Some (default [] (f_wal (f_dir (files m))))). by split.
Qed.

(** [m'] is [m] with the log of its directory created or not. *)
Lemma swapped_wal S m wl : swapped_in S m -> default [] wl = [] -> swapped_in S (with_wal wl m).
Proof. by intros (? & ? & ?) Hw. Qed.

Lemma reopen_run S k : snap_ok S -> forall m w, swapped_in S m ->
  exists ok m' w', reopen k m w = Some (ok, m', w') /\ out w' = out w /\ opens S m ok m'
    /\ ((0 < k)%nat -> faults w = [] -> ok = true /\ faults w' = []).
Proof.
  intros HS. induction k as [|k IH]; intros m w Hsw; cbn [reopen].
  - exists false, m, w. split; [done|]. split; [done|]. split; [|lia]. exists (f_wal (f_dir (files m))).
    split; [apply Hsw|]. by rewrite with_wal_id.
  - destruct (openStore_run S m w HS Hsw) as (ok & m1 & w1 & E & Ho & Hm & Hw).
    unfold mbind, I_bind. rewrite E. destruct ok.
    + exists true, m1, w1. split; [done|]. split; [done|]. split; [done|]. intros _ Hf. by apply Hw.
    + destruct Hm as (wl & Hwl & ->).
      destruct (IH (with_wal wl m) w1 (swapped_wal S m wl Hsw Hwl)) as (ok & m2 & w2 & E2 & Ho2 & Hm2 & _).
      exists ok, m2, w2. split; [done|]. split; [by rewrite Ho2|]. split; [exact Hm2|].
      intros _ Hf. by destruct (Hw Hf).
Qed.

(** ** Adopting the snapshot *)

Lemma loadable_mirrors lf l : raftlogfile.mirrors lf l -> loadable (Some (raftlogfile.at_path lf)).
Proof.
  intros Hm. unfold raftlogfile.at_path. rewrite (raftlogfile.mir_path _ _ Hm), (raftlogfile.mir_f _ _ Hm).
  apply loadable_contents; [apply Hm|apply Hm|apply Hm].
Qed.

Lemma fileReset_run S n lf l w : snap_ok S -> logFile n = Some lf -> raftlogfile.mirrors lf l ->
  exists ok lf' w', fileReset (s_idx S) (s_term S) n w = Some (ok, set_logFile (Some lf') n, w') /\ out w' = out w
    /\ (if (ok : bool) then raftlogfile.mirrors lf' (snapLog S) else loadable (Some (raftlogfile.at_path lf')))
    /\ (faults w = [] -> ok = true /\ faults w' = []).
Proof.
  intros HS Hf Hm. pose proof (snap_u64 S HS) as (H1 & H2 & _).
  destruct (raftlogfile.compact_mirrors lf l (snapLog S) Hm) as (lf' & E & Hm'); [constructor|done|done| |].
  { rewrite raftlogfile.len_contents. cbn. by_decide. }
  cbn [snapLog baseIndex baseTerm entries] in E. unfold fileReset. rewrite (bind_expr _ _ _ _ lf) by done.
  unfold raftlogfile.resetToBase, next_fault, mbind, M_bind.
  destruct (faults w) as [|[k|] os] eqn:Ef.
  1, 3: rewrite E; eexists true, lf', _; by split_and!.
  unfold raftlogfile.compact. rewrite (raftlogfile.mir_open _ _ Hm). cbn [negb].
  destruct k as [|k]; eexists false, _, _; (split; [done|]; split; [done|]; split; [|done]).
  - by apply (loadable_mirrors lf l).
  - apply (loadable_snap S HS).
Qed.

Definition adopted (S : Snap) (lf : raftLogFile) (n : Node) : Node :=
  set_installing false (set_lastApplied (s_idx S) (set_commitIndex (s_idx S)
    (set_config (Some (snapConfig S)) (set_baseConfig (snapConfig S)
      (set_log (snapLog S) (set_logFile (Some lf) n)))))).

Lemma adoptBase_run S n lf l w : snap_ok S -> logFile n = Some lf -> raftlogfile.mirrors lf l ->
  exists ok lf' w', adoptBase (s_idx S) (s_term S) (Some (snapConfig S)) n w
      = Some (ok, if (ok : bool) then adopted S lf' n else set_logFile (Some lf') n, w')
    /\ election.sends (out w') = election.sends (out w)
    /\ (if ok then raftlogfile.mirrors lf' (snapLog S) else loadable (Some (raftlogfile.at_path lf')))
    /\ (faults w = [] -> ok = true /\ faults w' = []).
Proof.
  intros HS Hf Hm. destruct (fileReset_run S n lf l w HS Hf Hm) as (ok & lf' & w' & E & Ho & Hr & Hw).
  unfold adoptBase. rewrite (bind_run _ _ _ _ _ _ _ E). destruct ok; cbn [negb].
  - autorewrite with run. rewrite copyConfig_wf by apply snap_config.
    eexists true, lf', _. split; [reflexivity|]. cbn [out faults].
    split; [by rewrite !sends_snoc, !app_nil_r, Ho|]. split; [done|]. intros H. by apply Hw.
  - exists false, lf', w'. split; [done|]. split; [by rewrite Ho|]. by split.
Qed.

Lemma stagedConfig_run S m file w : f_config (files m) = Some (s_cfg S) -> configPath (mnode m) = Some file ->
  exists r base w', stagedConfig m w = Some (r, set_mnode (set_configPath (Some base) (mnode m)) m, w') /\ out w' = out w
    /\ (match r with
        | Some c => c = Some (snapConfig S) /\ base = Some (config.encodeConfig (snapConfig S))
        | None => True
        end)
    /\ (faults w = [] -> is_Some r /\ faults w' = []).
Proof.
  intros Hc Hp. unfold stagedConfig, mbind, I_bind, ask, onFiles. rewrite Hp. change (default None (Some file)) with file.
  pose proof (config_run S file (files m) (faults w) Hc) as Hr.
  destruct (installStagedConfig file (files m) (faults w)) as [[[r base] fs] os]. destruct Hr as (-> & Hr & Hw).
  exists r, base, (MkWorld os (out w)). split; [|split; [done|by split]].
  unfold onNode, modify. destruct m as [n d o fs i]. cbn in *. by rewrite Hp.
Qed.

(** What an install leaves of a node's election state. *)
Definition same_raft (n n' : Node) : Prop :=
  id n' = id n /\ role n' = role n /\ currentTerm n' = currentTerm n /\ votedFor n' = votedFor n
  /\ stateFile n' = stateFile n.

(** A failure after the commit point. *)
Definition crashed_from (S : Snap) (m x : Machine) : Prop := crashed S x /\ same_raft (mnode m) (mnode x).

Lemma same_raft_refl n : same_raft n n.
Proof. done. Qed.

(** A complete install: nothing is left to do for a restart. *)
Definition complete (S : Snap) (m x : Machine) : Prop :=
  holds S x /\ parseMarker (f_marker (files x)) = None /\ f_staged (files x) = None
  /\ db.closed (store x) = false /\ same_raft (mnode m) (mnode x).

(** [m] after the swap, [o] before it. *)
Record reopened (S : Snap) (o m : Machine) : Prop := {
  re_node : mnode m = mnode o;
  re_open : db.closed (store m) = false;
  re_wal : wal.f (db.db_wal (store m)) = [];
  re_store : snapshot.installed (store m) (s_kvs S) (s_sess S) (s_idx S) (s_ts S);
  re_disk : f_disk (f_dir (files m)) = s_disk S;
  re_pending : pending S (files m) (log_of o)
}.

Lemma files_of_open m : db.closed (store m) = false -> wal.f (db.db_wal (store m)) = [] ->
  files_of m = set_dir (MkDir (Some []) (f_disk (f_dir (files m)))) (files m).
Proof. intros H1 H2. unfold files_of, dir_of. by rewrite H1, H2. Qed.

Lemma pending_files_of S m : pending S (files m) (log_of m) -> pending S (files_of m) (log_of m).
Proof. intros [H1 H2 H3 H4]. by split. Qed.

(** The last steps: dropping the marker and what was staged. *)
Lemma cleanup_install S m w : snap_ok S -> holds S m -> db.closed (store m) = false ->
  pending S (files m) (log_of m) ->
  exists ok m' w', (onFiles clearInstallMarker ;;; (_ ← onFiles clearInstallConfig; _ ← countInstall; onFiles removeStaged)) m w
      = Some (ok, m', w') /\ out w' = out w
    /\ (if (ok : bool) then complete S m m' else crashed_from S m m')
    /\ (faults w = [] -> ok = true /\ faults w' = []).
Proof.
  intros HS Hh Hcl Hp. pose proof (cleanup_run (files m) (faults w)) as Hc.
  assert (exists i, (onFiles clearInstallMarker ;;; (_ ← onFiles clearInstallConfig; _ ← countInstall; onFiles removeStaged)) m w
    = let '(ok, fs, os) := (clearInstallMarker ;;; (_ ← clearInstallConfig; removeStaged)) (files m) (faults w) in
      Some (ok, MkMachine (mnode m) (store m) (mopts m) fs i, MkWorld os (out w))) as [i ->].
  { unfold andThen, mbind, I_bind, D_bind, onFiles.
    destruct (clearInstallMarker (files m) (faults w)) as [[[] fs1] os1]; [|by eexists].
    cbn [files faults set_files]. destruct (clearInstallConfig fs1 os1) as [[ok2 fs2] os2]. unfold countInstall, update.
    cbn [files faults set_files mnode store mopts installsApplied out]. destruct (removeStaged fs2 os2) as [[ok3 fs3] os3].
    by eexists. }
  destruct ((clearInstallMarker ;;; _) _ _) as [[ok fs] os]. destruct Hc as (Hc & Hst & Hw).
  eexists ok, _, _. split; [reflexivity|]. split; [done|].
  destruct Hh as [H1 H2 H3 (lf & H4 & H4') H5 H6 H7 H8 H9 H10 H11].
  assert (raftlogfile.at_path lf = raftlogfile.contents (snapLog S)) as Hat
    by (unfold raftlogfile.at_path; by rewrite (raftlogfile.mir_path _ _ H4'), (raftlogfile.mir_f _ _ H4')).
  split; [|intros Ho; destruct (Hw Ho) as (-> & -> & _); done].
  destruct Hc as [[-> ->]|[Hd Hm]].
  - split; [|done]. left. by apply pending_files_of.
  - destruct ok.
    + split; [|split; [cbn; by rewrite Hm|split; [by apply Hst|done]]].
      split; cbn [store mnode files]; try done; [by exists lf|by rewrite Hd].
    + split; [|done]. right. rewrite files_of_open by done. cbn [files]. rewrite Hd. split; cbn [f_marker f_dir f_disk f_wal set_dir].
      * by rewrite Hm.
      * done.
      * done.
      * unfold log_of. cbn [mnode]. rewrite H4. cbn. by rewrite Hat.
      * unfold base_of. cbn [mnode]. by rewrite H7.
Qed.

Lemma pending_log S fs log log' : loadable log' -> pending S fs log -> pending S fs log'.
Proof. intros Hl [H1 H2 H3 _]. by split. Qed.

(** From the reopened store on. *)
Lemma adoptBase_reopened S o m lf l file : snap_ok S -> reopened S o m ->
  logFile (mnode o) = Some lf -> raftlogfile.mirrors lf l -> configPath (mnode o) = Some file ->
  itriple (_ ← update (fun m => set_store (set_commitOverride true (store m)) m);
           c ← stagedConfig;
           match c with
           | None => mret false
           | Some cfg =>
               onNode (adoptBase (s_idx S) (s_term S) cfg) ;;;
               onFiles clearInstallMarker ;;;
               (_ ← onFiles clearInstallConfig;
                _ ← countInstall;
                onFiles removeStaged)
           end) m (complete S o) (crashed_from S o).
Proof.
  intros HS [Hn Hcl Hwal Hst Hd Hp] Hlf Hm Hcp w. unfold mbind at 1, I_bind at 1, update.
  set (m1 := set_store (set_commitOverride true (store m)) m).
  destruct (stagedConfig_run S m1 file w) as (r & base & w1 & E1 & Ho1 & Hr & Hw1); [apply Hp|by cbn; rewrite Hn|].
  unfold mbind at 1, I_bind at 1. rewrite E1. clear E1. set (n1 := set_configPath (Some base) (mnode m1)).
  assert (logFile n1 = Some lf) as Hlf1 by (cbn; by rewrite Hn).
  assert (forall x, files x = files m -> loadable (log_of x) -> same_raft (mnode o) (mnode x) -> crashed_from S o x) as Hcrash.
  { intros x Hx Hl Hsr. split; [|done]. left. apply pending_files_of. rewrite Hx. by apply (pending_log S _ (log_of o)). }
  destruct r as [c|].
  2:{ eexists false, _, w1. split; [reflexivity|]. split; [by rewrite Ho1|]. split; [|intros Ho; by destruct (Hw1 Ho) as [[??] ?]].
      apply Hcrash; [done| |by rewrite <- Hn]. unfold log_of. cbn [mnode set_mnode]. rewrite Hlf1. by apply (loadable_mirrors lf l). }
  destruct Hr as [-> ->].
  destruct (adoptBase_run S n1 lf l w1 HS Hlf1 Hm) as (ok & lf' & w2 & E2 & Ho2 & Hok & Hw2).
  unfold andThen at 1, mbind at 1, I_bind at 1, onNode. cbn [mnode set_mnode]. rewrite E2. clear E2. destruct ok.
  2:{ eexists false, _, w2. split; [reflexivity|]. split; [by rewrite Ho2, Ho1|].
      split; [|intros Ho; destruct (Hw1 Ho) as [_ Ho']; by destruct (Hw2 Ho')].
      apply Hcrash; [done|done|by rewrite <- Hn]. }
  set (m2 := set_mnode (adopted S lf' n1) (set_mnode n1 m1)).
  assert (holds S m2) as Hh.
  { split; cbn [m2 m1 set_mnode set_store mnode store files].
    - by apply installed_override.
    - reflexivity.
    - reflexivity.
    - by exists lf'.
    - reflexivity.
    - reflexivity.
    - reflexivity.
    - by split.
    - reflexivity.
    - exact Hwal.
    - exact Hd. }
  destruct (cleanup_install S m2 w2 HS Hh Hcl) as (ok & m3 & w3 & E3 & Ho3 & Hm3 & Hw3).
  { apply (pending_log S _ (log_of o)); [|exact Hp]. unfold log_of. cbn [m2 mnode set_mnode adopted logFile
      set_installing set_lastApplied set_commitIndex set_config set_baseConfig set_log set_logFile fmap option_fmap option_map].
    by apply (loadable_mirrors lf' (snapLog S)). }
  exists ok, m3, w3. split; [exact E3|]. split; [by rewrite Ho3, Ho2, Ho1|]. split.
  - assert (forall x, same_raft (mnode m2) (mnode x) -> same_raft (mnode o) (mnode x)) as Hsr by (intros x; by rewrite <- Hn).
    destruct ok; [destruct Hm3 as (H1 & H2 & H3 & H4 & H5)|destruct Hm3 as [H1 H5]; by split; [|apply Hsr]].
    split; [done|]. split; [done|]. split; [done|]. split; [done|]. by apply Hsr.
  - intros Ho. destruct (Hw1 Ho) as [_ Ho']. destruct (Hw2 Ho') as [_ Ho'']. by apply Hw3.
Qed.

(** The whole swap, from the marker on. *)
Lemma completeInstall_run S m lf l file : snap_ok S -> pending S (files m) (log_of m) ->
  logFile (mnode m) = Some lf -> raftlogfile.mirrors lf l -> configPath (mnode m) = Some file ->
  itriple (completeInstall (s_idx S) (s_term S)) m (complete S m) (crashed_from S m).
Proof.
  intros HS Hp Hlf Hm Hcp. unfold completeInstall.
  assert (pending S (files_of m) (log_of m)) as Hp1 by by apply pending_files_of.
  assert (forall x, mnode x = mnode m -> db.closed (store x) = true -> same_but_dir (files_of m) (files x) -> crashed_from S m x) as Hcrash.
  { intros x Hn Hc [d Hd]. split; [left|by rewrite Hn]. rewrite files_of_closed by done. rewrite Hd. unfold log_of. rewrite Hn.
    apply (pending_dir S (files_of m) (log_of m)); [apply Hp|done]. }
  apply (itriple_then _ _ _ (fun x => x = closed_m m)).
  { eapply itriple_weaken; [apply closeStore_run|]. intros x ->. apply Hcrash; [done|apply Close_closed|].
    exists (f_dir (files_of m)). cbn [closed_m set_store set_files files]; by destruct (files_of m). }
  intros ? ->. apply (itriple_then _ _ _ (fun x => x = set_files (set_dir (MkDir None (s_disk S)) (files_of m)) (closed_m m))).
  { eapply itriple_weaken; [apply itriple_files, triple_swap, Hp1|]. intros x (fs & Hfs & ->).
    apply Hcrash; [done|apply Close_closed|done]. }
  intros ? ->. set (m2 := set_files _ (closed_m m)).
  assert (swapped_in S m2) as Hsw by (split; [apply Close_closed|done]).
  apply (itriple_then _ _ _ (reopened S m)).
  - intros w. destruct (reopen_run S installReopenAttempts HS m2 w Hsw) as (ok & m3 & w3 & E & Ho & (wl & Hwl & Hm3) & Hw).
    exists ok, m3, w3. split; [exact E|]. split; [by rewrite Ho|]. split.
    + destruct ok.
      * destruct Hm3 as (d & -> & Hf & Hc & Hin). split; try done.
        by apply (pending_dir S (files_of m) (log_of m)); [apply Hp|].
      * subst m3. apply Hcrash; [done|apply Close_closed|by eexists].
    + apply Hw. unfold installReopenAttempts. lia.
  - intros m3 Hre. by apply (adoptBase_reopened S m m3 lf l file).
Qed.

(** ** Staging and the commit point *)

(** Only what is staged differs from [m]. *)
Definition staging (m x : Machine) : Prop :=
  exists s c, x = set_files (set_staged_config c (set_staged s (files m))) m.

Lemma staging_refl m : staging m m.
Proof. exists (f_staged (files m)), (f_config (files m)). by destruct m as [? ? ? [] ?]. Qed.

Lemma triple_replace (get : Files -> option bytes) (put : option bytes -> Files -> Files) content fs (C : Files -> Prop) :
  (get fs = get fs -> C (put (get fs) fs)) -> C (put (Some content) fs) ->
  triple (f ← next; file ← look get;
          let '(file', ok) := config.replaceFile file content f in
          _ ← change (put file'); mret ok) fs (put (Some content) fs) C.
Proof.
  intros H0 H1 os. unfold mbind, D_bind, next, look, change, mret, D_ret.
  destruct os as [|[[|k]|] os]; cbn; split; try done. by apply H0.
Qed.

Lemma stage_run S m : snap_ok S ->
  itriple (stageSnapshot (s_kvs S) (s_sess S) (s_idx S) (s_ts S)) m
    (fun x => x = set_files (set_staged (Some (MkDir None (s_disk S))) (files m)) m) (staging m).
Proof.
  intros HS. unfold stageSnapshot.
  assert (forall s x, x = set_files (set_staged s (files m)) m -> staging m x) as Hst.
  { intros s x ->. exists s, (f_config (files m)). by destruct m as [? ? ? [] ?]. }
  apply (itriple_then _ _ _ (fun x => x = set_files (set_staged None (files m)) m)).
  { eapply itriple_weaken; [apply itriple_files, triple_removeStaged|]. intros x (fs & (s & ->) & ->). by apply (Hst s). }
  intros ? ->. set (m1 := set_files _ m).
  apply (itriple_then _ _ _ (fun x => x = m1)).
  { intros w. destruct (itriple_files attempt m1 _ _ (triple_attempt _) w) as (ok & m' & w' & E & Hs & Hm & Hw).
    exists ok, m', w'. split; [done|]. split; [done|]. split; [|done].
    destruct ok; [by rewrite Hm|]. destruct Hm as (fs & -> & ->). by apply (Hst None). }
  intros ? ->. intros w. unfold mbind, I_bind, onFiles, change, next. rewrite (so_build S HS).
  destruct (faults w) as [|[k|] os] eqn:E; cbn [files set_files faults].
  - eexists true, _, _. split; [reflexivity|]. split; [done|]. split; [|done]. by destruct m as [? ? ? [] ?].
  - eexists false, _, _. split; [reflexivity|]. split; [done|]. split; [|done].
    apply (Hst (Some (MkDir None (partialBuild k (s_disk S))))). by destruct m as [? ? ? [] ?].
  - eexists true, _, _. split; [reflexivity|]. split; [done|]. split; [|done]. by destruct m as [? ? ? [] ?].
Qed.

(** What an attempt that could not commit leaves: the machine as it was, or a
    marker although the write of it was reported to have failed. *)
Definition uncommitted (S : Snap) (m x : Machine) : Prop :=
  staging m x \/ exists mk s c, x = set_files (set_marker mk (set_staged_config c (set_staged s (files m)))) m
                   /\ pending S (files x) (log_of m).

Definition committed (S : Snap) (m x : Machine) : Prop :=
  mnode x = mnode m /\ store x = store m /\ pending S (files x) (log_of x).

Lemma commit_run S m : snap_ok S -> loadable (log_of m) ->
  itriple (stageSnapshot (s_kvs S) (s_sess S) (s_idx S) (s_ts S) ;;;
           (if decide (len (s_cfg S) > 0) then onFiles (writeInstallConfig (s_cfg S)) else mret true) ;;;
           onFiles (writeInstallMarker (MkMarker (s_idx S) (s_term S) (s_ts S)))) m (committed S m) (uncommitted S m).
Proof.
  intros HS Hl. apply (itriple_then _ _ _ _ _ _ (itriple_weaken _ _ _ _ (uncommitted S m) (stage_run S m HS) ltac:(by left))).
  intros ? ->. rewrite decide_True by (pose proof (so_cfg S HS); lia). set (m1 := set_files _ m).
  apply (itriple_then _ _ _ (fun x => x = set_files (set_staged_config (Some (s_cfg S)) (files m1)) m1)).
  { eapply itriple_weaken; [apply itriple_files|].
    - apply (triple_replace f_config set_staged_config (s_cfg S) (files m1)
               (fun fs => exists c, fs = set_staged_config c (files m1))); by eexists.
    - intros x (fs & (c & ->) & ->). left. exists (Some (MkDir None (s_disk S))), c. done. }
  intros ? ->. set (m2 := set_files _ m1).
  assert (forall mk, mk = Some (markerBytes (snapMarker S)) ->
            pending S (set_marker mk (files m2)) (log_of m)) as Hp.
  { intros mk ->. split; try done. by apply parse_marker. }
  intros w. destruct (itriple_files (writeInstallMarker (snapMarker S)) m2 (set_marker (Some (markerBytes (snapMarker S))) (files m2))
      (fun fs => fs = files m2 \/ fs = set_marker (Some (markerBytes (snapMarker S))) (files m2))) with (w := w)
    as (ok & m' & w' & E & Hs & Hm & Hw).
  { apply (triple_replace f_marker set_marker); [left; by destruct (files m2)|by right]. }
  exists ok, m', w'. split; [exact E|]. split; [done|]. split; [|done]. destruct ok.
  - subst m'. split; [done|]. split; [done|]. by apply Hp.
  - destruct Hm as (fs & [->| ->] & ->).
    + left. exists (Some (MkDir None (s_disk S))), (Some (s_cfg S)). by destruct m as [? ? ? [] ?].
    + right. exists (Some (markerBytes (snapMarker S))), (Some (MkDir None (s_disk S))), (Some (s_cfg S)).
      split; [by destruct m as [? ? ? [] ?]|]. by apply Hp.
Qed.

Lemma installSnapshot_run S m lf l file w : snap_ok S ->
  logFile (mnode m) = Some lf -> raftlogfile.mirrors lf l -> configPath (mnode m) = Some file ->
  exists r m' w', installSnapshot (s_idx S) (s_term S) (s_ts S) (s_kvs S) (s_sess S) (s_cfg S) m w = Some (r, m', w')
    /\ election.sends (out w') = election.sends (out w)
    /\ (match r with
        | (_, true) => complete S m m'
        | (true, false) => uncommitted S m m'
        | (false, false) => crashed_from S m m'
        end)
    /\ (faults w = [] -> r.2 = true /\ faults w' = []).
Proof.
  intros HS Hlf Hm Hcp. assert (loadable (log_of m)) as Hl by (unfold log_of; rewrite Hlf; by apply (loadable_mirrors lf l)).
  destruct (commit_run S m HS Hl w) as (ok & m1 & w1 & E & Hs & Hc & Hw).
  unfold installSnapshot. unfold mbind at 1, I_bind at 1. rewrite E. clear E. destruct ok; cbn [negb].
  2:{ exists (true, false), m1, w1. split; [done|]. split; [done|]. split; [done|]. intros Ho. by destruct (Hw Ho). }
  destruct Hc as (Hn & Hst & Hp).
  destruct (completeInstall_run S m1 lf l file HS Hp) with (w := w1) as (ok & m2 & w2 & E & Hs2 & Hc2 & Hw2);
    [by rewrite Hn|done|by rewrite Hn|].
  unfold mbind, I_bind. rewrite E. exists (if ok then (true, true) else (false, false)), m2, w2.
  split; [done|]. split; [by rewrite Hs2|]. split.
  - destruct ok; [unfold complete in *|unfold crashed_from in *]; by rewrite Hn in Hc2.
  - intros Ho. destruct (Hw Ho) as [_ Ho1]. by destruct (Hw2 Ho1) as [-> ?].
Qed.

End installed.
