(* ===== verification/RaftInstallNode.v ===== *)
(** * Installing snapshots: the follower and the leader

    The handler of InstallSnapshot with and without failures, the leader's side,
    and both composed: a snapshot moves the state of the leader to the follower. *)

From Stdlib Require Import ZArith Lia.
From Stdlib Require Import Strings.Byte.
From stdpp Require Import base list gmap sorting.
From S2P Require Import Prelude.
From S2P Require Import MvccKey.
From S2P Require Import RecordFmt.
From S2P Require Import OrderedMap.
From S2P Require Import Skiplist.
From S2P Require Import Versions.
From S2P Require Import Memtable.
From S2P Require Import SSTable.
From S2P Require Import Wal.
From S2P Require Import DbDisk.
From S2P Require Import Db.
From S2P Require Import Layers.
From S2P Require Import DbStore.
From S2P Require Import DbScan.
From S2P Require Import DbScanSpec.
From S2P Require Import DbSnapshot.
From S2P Require Import RaftLog.
From S2P Require Import RaftConfig.
From S2P Require Import RaftLogFile.
From S2P Require Import RaftNode.
From S2P Require Import RaftRun.
From S2P Require Import RaftElection.
From S2P Require Import RaftFollower.
From S2P Require Import RaftApply.
From S2P Require Import RaftRepair.
From S2P Require Import RaftInstall.
From S2P Require Import RaftInstallSpec.

#[local] Open Scope Z_scope.

Module snapinstall.
Import raftlog node run follower applied install installed.

(** ** The handler *)

Lemma adopt_any T n w :
  exists n1 w1, (if decide (T > currentTerm n) then stepDownLocked T else skip) n w = Some (tt, n1, w1)
    /\ same_store n n1 /\ configPath n1 = configPath n /\ installing n1 = installing n
    /\ (currentTerm n <= T -> currentTerm n1 = T)
    /\ election.sends (out w1) = election.sends (out w) /\ (faults w = [] -> faults w1 = []).
Proof.
  destruct (decide (T > currentTerm n)) as [H|H].
  - unfold stepDownLocked, persistHardStateLocked, mbind, M_bind, modify, gets, next_fault, emit, mret, M_ret. cbn.
    destruct (stateFile n); cbn; [destruct (faults w) as [|[[|k]|] os] eqn:E; cbn|]; do 2 eexists;
      (split; [reflexivity|]); cbn; rewrite !sends_snoc, !app_nil_r; (split; [by split_and!|]); split_and!; done.
  - exists n, w. split; [done|]. split; [by split_and!|]. split_and!; try done. lia.
Qed.

(** What the message of a leader changes in a node beside the install. *)
Record heard (T now : Z) (n n2 : Node) : Prop := {
  he_store : same_store n n2;
  he_path : configPath n2 = configPath n;
  he_installing : installing n2 = installing n;
  he_term : currentTerm n2 = T;
  he_role : role n2 = Follower;
  he_contact : lastLeaderContact n2 = Some now
}.

Lemma bind_ask {A B} (f : Machine -> A) (k : A -> I B) m w : (ask f ≫= k) m w = k (f m) m w.
Proof. done. Qed.

Lemma set_installing_back n : installing n = false -> set_installing false (set_installing true n) = n.
Proof. intros H. destruct n. cbn in *. by subst. Qed.

Lemma bind_onNode {A B} (c : M A) (k : A -> I B) m w a n w' :
  c (mnode m) w = Some (a, n, w') -> (onNode c ≫= k) m w = k a (set_mnode n m) w'.
Proof. intros E. unfold mbind, I_bind, onNode. by rewrite E. Qed.

Section handler.
Context (now : Z) (msg : Message) (S : Snap) (snap : list (bytes * bytes)) (sess : list (bytes * Z)).
Context (Hkvs : s_kvs S = snapshotKVs snap) (Hsess : s_sess S = sessionMap sess).

Definition handle : I unit := handleInstallSnapshot now msg (s_idx S) (s_term S) (s_ts S) snap (s_cfg S) sess.

(** The reply of [handle] in [w'], the first message after those of [w]. *)
Definition replied (m : Machine) (w w' : World) (term : Z) (success : bool) (match_ : Z) : Prop :=
  election.sends (out w') = election.sends (out w)
    ++ [(From msg, MkMessage (id (mnode m)) term (MsgInstallSnapshotResponse success match_))].

(** The handler up to the install. *)
Lemma handle_heard m w : currentTerm (mnode m) <= Term msg ->
  exists n2 w2, heard (Term msg) now (mnode m) n2 /\ election.sends (out w2) = election.sends (out w)
    /\ (faults w = [] -> faults w2 = [])
    /\ handle m w =
       (if installing (mnode m) then onNode (send (From msg) (fun _ => MsgInstallSnapshotResponse false 0) (Term msg))
        else if decide (s_idx S <= lastApplied (mnode m))
        then onNode (send (From msg) (fun _ => MsgInstallSnapshotResponse true (s_idx S)) (Term msg))
        else
          _ ← onNode (modify (set_installing true));
          r ← installSnapshot (s_idx S) (s_term S) (s_ts S) (s_kvs S) (s_sess S) (s_cfg S);
          let '(recoverable, ok) := r in
          if (ok : bool) then onNode (send (From msg) (fun _ => MsgInstallSnapshotResponse true (s_idx S)) (Term msg))
          else
            _ ← (if (recoverable : bool) then onNode (modify (set_installing false)) else mret tt);
            onNode (send (From msg) (fun _ => MsgInstallSnapshotResponse false 0) (Term msg))) (set_mnode n2 m) w2.
Proof.
  intros Ht. destruct (adopt_any (Term msg) (mnode m) w) as (n1 & w1 & E & Hs & Hp & Hi & Hterm & Hse & Hw).
  specialize (Hterm Ht). set (n2 := set_lastLeaderContact (Some now) (set_role Follower n1)).
  exists n2, (MkWorld (faults w1) (out w1 ++ [ResetElectionTimer])).
  split; [by split|]. split; [cbn; by rewrite sends_snoc, app_nil_r|]. split; [done|].
  unfold handle, handleInstallSnapshot. rewrite <- Hkvs, <- Hsess.
  cbv zeta. rewrite bind_ask, decide_False by lia.
  rewrite (bind_onNode _ _ _ _ _ _ _ E).
  erewrite bind_onNode by reflexivity. erewrite bind_onNode by reflexivity. erewrite bind_onNode by reflexivity.
  rewrite !bind_ask. cbn [mnode set_mnode]. fold n2. change (currentTerm n2) with (currentTerm n1). change (installing n2) with (installing n1).
  change (lastApplied n2) with (lastApplied n1). rewrite Hterm, Hi.
  destruct Hs as (_ & _ & _ & _ & _ & _ & _ & ->). done.
Qed.

Lemma send_reply m w term b idx :
  exists w', onNode (send (From msg) (fun _ => MsgInstallSnapshotResponse b idx) term) m w = Some (tt, m, w')
    /\ replied m w w' term b idx /\ faults w' = faults w.
Proof.
  unfold onNode. rewrite run_send. eexists. split; [by destruct m|]. split; [|done]. unfold replied. cbn [out].
  by rewrite sends_snoc.
Qed.

(** What the install of a snapshot leaves, whatever fails: it is complete and
    acknowledged; or nothing but what was staged has changed; or the commit
    point is passed, and the node is parked or has gone on with its old state. *)
Definition ends (m m' : Machine) (w w' : World) : Prop :=
  exists n2, heard (Term msg) now (mnode m) n2 /\
  ((complete S (set_mnode n2 m) m' /\ replied m w w' (Term msg) true (s_idx S))
   \/ (staging (set_mnode n2 m) m' /\ replied m w w' (Term msg) false 0)
   \/ (crashed S m' /\ replied m w w' (Term msg) false 0)).

Lemma handle_install_run m lf l file w : snap_ok S ->
  logFile (mnode m) = Some lf -> raftlogfile.mirrors lf l -> configPath (mnode m) = Some file ->
  currentTerm (mnode m) <= Term msg -> installing (mnode m) = false -> lastApplied (mnode m) < s_idx S ->
  exists m' w', handle m w = Some (tt, m', w') /\ ends m m' w w'
    /\ (faults w = [] -> exists n2, heard (Term msg) now (mnode m) n2 /\ complete S (set_mnode n2 m) m'
          /\ replied m w w' (Term msg) true (s_idx S)).
Proof.
  intros HS Hlf Hm Hcp Ht Hi Hla. destruct (handle_heard m w Ht) as (n2 & w2 & Hh & Hs2 & Hw2 & ->).
  rewrite Hi, decide_False by lia. erewrite bind_onNode by reflexivity. cbn [mnode set_mnode].
  set (m3 := set_mnode (set_installing true n2) (set_mnode n2 m)).
  pose proof Hh as [(Hid & _ & Hcf & Hbc & Hlog & Hfile & Hci & Hla2) Hp2 Hi2 Ht2 Hr2 Hc2].
  destruct (installSnapshot_run S m3 lf l file w2 HS) as ([rec ok] & m4 & w4 & E & Hs4 & Hm4 & Hw4);
    [by cbn; rewrite Hfile|done|by cbn; rewrite Hp2|].
  unfold mbind at 1, I_bind at 1. rewrite E. clear E.
  assert (forall x y term b i, replied x w4 y term b i -> id (mnode x) = id (mnode m) -> replied m w y term b i) as Hrep
    by (intros x y term b i H Hx; unfold replied in *; by rewrite H, Hs4, Hs2, Hx).
  destruct ok.
  - assert (complete S (set_mnode n2 m) m4) as Hcomp by (destruct rec; exact Hm4).
    destruct (send_reply m4 w4 (Term msg) true (s_idx S)) as (w5 & -> & Hr5 & _). exists m4, w5. split; [done|].
    assert (replied m w w5 (Term msg) true (s_idx S)) as Hrep5.
    { apply (Hrep m4); [done|]. destruct Hcomp as (_ & _ & _ & _ & (Hid4 & _)). by rewrite Hid4. }
    split; [exists n2; split; [done|]; by left|]. intros _. by exists n2.
  - assert (forall m5 n5, m5 = set_mnode n5 m4 -> id (mnode m4) = id (mnode m) -> id n5 = id (mnode m4) ->
      (staging (set_mnode n2 m) m5 \/ crashed S m5) ->
      exists m' w', onNode (send (From msg) (fun _ => MsgInstallSnapshotResponse false 0) (Term msg)) m5 w4 = Some (tt, m', w')
        /\ ends m m' w w') as Hfail.
    { intros m5 n5 -> Hid4 Hid5 Hcase. destruct (send_reply (set_mnode n5 m4) w4 (Term msg) false 0) as (w5 & -> & Hr5 & _).
      eexists _, w5. split; [done|]. exists n2. split; [done|].
      assert (replied m w w5 (Term msg) false 0) by (apply (Hrep (set_mnode n5 m4)); [done|cbn; congruence]).
      right. destruct Hcase; auto. }
    assert (faults w = [] -> False) as Hno by (intros Ho; by destruct (Hw4 (Hw2 Ho))).
    assert (exists m' w', (_ ← (if rec then onNode (modify (set_installing false)) else mret tt);
        onNode (send (From msg) (fun _ => MsgInstallSnapshotResponse false 0) (Term msg))) m4 w4 = Some (tt, m', w')
        /\ ends m m' w w') as (m' & w' & -> & He).
    { destruct rec.
      - erewrite bind_onNode by reflexivity.
        assert (mnode m4 = mnode m3 /\ (staging m3 m4 \/ pending S (files m4) (log_of m4))) as [Hn4 Hcase].
        { destruct Hm4 as [(s & c & ->)|(mk & s & c & -> & Hp)]; (split; [done|]); [left; by exists s, c|right; exact Hp]. }
        apply (Hfail _ (set_installing false (mnode m4))); [done|by rewrite Hn4|done|]. rewrite Hn4.
        destruct Hcase as [(s & c & ->)|Hp].
        + left. exists s, c. rewrite <- (set_installing_back n2) at 2 by congruence. done.
        + right. left. unfold log_of in Hp. rewrite Hn4 in Hp.
          exact (pending_files_of S (set_mnode (set_installing false (mnode m3)) m4) Hp).
      - unfold mbind, I_bind, mret, I_ret. apply (Hfail _ (mnode m4)); [by destruct m4| |done|right; apply Hm4].
        destruct Hm4 as [_ (Hid4 & _)]. rewrite Hid4. exact Hid. }
    exists m', w'. split; [done|]. split; [done|]. intros Ho. by destruct Hno.
Qed.

End handler.

(** ** The leader *)

Lemma sessionMap_to_list (s : gmap bytes Z) : sessionMap (map_to_list s) = s.
Proof.
  unfold sessionMap. rewrite dbdisk.foldl_insert_map_to_list by apply NoDup_fst_map_to_list.
  by rewrite map_union_empty, list_to_map_to_list.
Qed.

(** The log up to an index, compacted away. *)
Lemma snapLog_represents S L : 0 < s_idx S <= len L -> len L <= maxPersisted -> s_term S = full_term L (s_idx S) ->
  represents (snapLog S) (take (Z.to_nat (s_idx S)) L).
Proof.
  intros Hi Hs Ht. apply (rep_resetToBase (snapLog S)).
  - apply len_take. lia.
  - lia.
  - rewrite full_term_take by lia. done.
Qed.

Section leader.
Context {boot : Members} {ld : Machine} {lf : raftLogFile} {L : list logEntry}.
Context {VM : vmap} {VF : option vmap} {tables : list (list sstable.add)}.
Context (Hok : store_ok boot (mnode ld) lf L) (Hrole : role (mnode ld) = Leader).
Context (Hsend : snapshot.sendable (store ld) VM VF tables).
Notation idx := (db.appliedIndex (store ld)).
Notation ts := (db.appliedTS (store ld)).
Context (Hidx : baseIndex (log (mnode ld)) <= idx <= len L) (Hpos : 0 < idx).

(** The members at the snapshot's index. *)
Definition snapMembers : Members :=
  logConfig (take (Z.to_nat (idx - baseIndex (log (mnode ld)))) (entries (log (mnode ld)))) (baseConfig (mnode ld)).

Lemma snapMembers_wf : config.wf snapMembers.
Proof. apply logConfig_wf, (so_base _ _ _ _ Hok). Qed.

(** The pairs the message carries, and the snapshot it describes. *)
Definition shipped (rs : list (bytes * bytes)) (disk : db.Disk) : Snap :=
  MkSnap (snapshot.kvs_of rs) (db.sessions (store ld)) idx (full_term L idx) ts (config.encodeConfig snapMembers) disk.

Definition snapMessage (rs : list (bytes * bytes)) : Message :=
  MkMessage (id (mnode ld)) (currentTerm (mnode ld))
    (MsgInstallSnapshot idx (full_term L idx) ts rs (config.encodeConfig snapMembers)
       (map_to_list (db.sessions (store ld))) (commitIndex (mnode ld))).

Lemma sendSnapshot_run :
  exists d1 rs disk, (exists ssts, d1 = db.set_sstables (store ld) ssts)
    /\ (forall fuel p w, (length rs < fuel)%nat ->
         sendSnapshot fuel p (currentTerm (mnode ld)) ld w
         = Some (Some (MkCaptured rs idx ts (db.sessions (store ld))), set_store d1 ld,
                 MkWorld (faults w) (out w ++ [Send p (snapMessage rs)])))
    /\ scanspec.lists (store.contents VM VF tables) None None ts rs
    /\ snap_ok (shipped rs disk).
Proof.
  pose proof (so_logs _ _ _ _ Hok) as Hl. pose proof (logs_rep _ _ _ Hl) as Hr. pose proof (logs_mirror _ _ _ Hl) as Hmir.
  destruct (snapshot.SnapshotScan_run Hsend) as (d1 & it & rs & E & (ssts & Ed) & _ & Hc & Hls & Hkvs).
  pose proof (snapshot.se_ts _ _ _ _ Hsend) as Hts. unfold small_ts in Hts. pose proof (rep_small _ _ Hr) as Hsm.
  destruct (snapshot.BuildSnapshotDB_open (snapshot.kvs_of rs) (db.sessions (store ld)) idx ts (mopts ld) (db.rng (store ld))
              Hkvs (snapshot.se_sessions _ _ _ _ Hsend) (snapshot.se_idx _ _ _ _ Hsend)) as (disk & d2 & Eb & _ & _); [lia|].
  exists d1, rs, disk. split; [by exists ssts|]. split; [|split; [done|]].
  - intros fuel p w Hf. destruct (Hc fuel Hf) as (it' & Ec & He). unfold sendSnapshot, mbind, I_bind, captureSnapshot.
    rewrite E, Ec, He. assert (db.SessionTable d1 = db.sessions (store ld)) as -> by (by rewrite Ed).
    unfold onNode at 1. cbn [mnode set_store]. unfold snapshotMessage. rewrite !bind_gets.
    rewrite decide_False by (intros [H|H]; [by rewrite Hrole in H|done]). cbn [c_idx]. rewrite decide_False by lia.
    rewrite (bind_expr _ _ _ _ (full_term L idx)) by (apply (rep_term_at Hr); lia).
    rewrite (bind_expr _ _ _ _ snapMembers) by (unfold configAsOfLocked; by apply (configAsOf_spec Hr)).
    rewrite !bind_gets. unfold mret, M_ret, onNode, emit. cbn [mnode set_mnode set_store c_idx c_ts c_kvs c_sessions].
    unfold I_ret, snapMessage. reflexivity.
  - split; cbn [shipped s_kvs s_sess s_idx s_term s_ts s_cfg s_disk]; try done.
    + apply (snapshot.se_sessions _ _ _ _ Hsend).
    + lia.
    + destruct (decide (idx = baseIndex (log (mnode ld)))) as [Heq|Hne].
      * rewrite Heq, <- (rep_term _ _ Hr). apply Hmir.
      * apply (full_term_u64 L idx lf (log (mnode ld)) Hr Hmir). lia.
    + lia.
Qed.

(** The reply. *)
Lemma onSnapshotReply_run p i n w resp : role n = Leader -> Term resp <= currentTerm n -> is_u64 (i + 1) ->
  respSuccess (body resp) = true ->
  exists n', onSnapshotReply p (currentTerm n) i resp n w = Some (tt, n', w)
    /\ n' = set_nextIndex (<[p := i + 1]> (nextIndex n)) (set_matchIndex (matchIndex n') n)
    /\ default 0 (matchIndex n' !! p) = Z.max i (default 0 (matchIndex n !! p))
    /\ forall q, q <> p -> matchIndex n' !! q = matchIndex n !! q.
Proof.
  intros Hr Ht Hu Hs. unfold onSnapshotReply. rewrite !bind_gets, decide_False by lia.
  rewrite decide_False by (intros [H|H]; done). rewrite Hs. autorewrite with run. unfold modify. rewrite u64_small by done.
  eexists. split; [reflexivity|]. split; [done|]. cbn [matchIndex set_nextIndex set_matchIndex]. case_decide as H.
  - rewrite lookup_insert_eq. split; [change (default 0 (Some i)) with i; lia|]. intros q Hq. by rewrite lookup_insert_ne.
  - split; [lia|done].
Qed.

End leader.

(** A complete install is one for a restart too. *)
Lemma complete_crashed S m x : complete S m x -> crashed S x.
Proof.
  intros ([_ _ _ (lf & Hlf & Hm) _ _ Hp _ _ Hw Hd] & Hmk & _ & Hcl & _). right.
  rewrite files_of_open by done. split; cbn [f_marker f_dir f_disk f_wal set_dir]; try done.
  - unfold log_of. rewrite Hlf. cbn. f_equal. unfold raftlogfile.at_path.
    by rewrite (raftlogfile.mir_path _ _ Hm), (raftlogfile.mir_f _ _ Hm).
  - unfold base_of. by rewrite Hp.
Qed.

(** ** Properties *)

(** A machine the handler can work on: its Raft files are open. *)
Definition equipped (m : Machine) : Prop :=
  exists lf l file, logFile (mnode m) = Some lf /\ raftlogfile.mirrors lf l /\ configPath (mnode m) = Some file.

(** C24. The follower's answer to InstallSnapshot, with working disks.  A message
    of an older term changes nothing and is refused.  Any other is adopted as
    coming from the leader of its term; a node parked by an earlier install
    refuses it, a node that has applied as much acknowledges it, and neither
    touches its log or store.  Otherwise the node ends up with the snapshot as
    its whole state: a store opened from it, an empty log on its index and term
    (in memory and on disk), its configuration (in force, as the base and in its
    file), and nothing pending; and it acknowledges the index. *)
Theorem install_snapshot now msg S snap sess m w :
  snap_ok S -> s_kvs S = snapshotKVs snap -> s_sess S = sessionMap sess -> equipped m -> faults w = [] ->
  let n := mnode m in
  exists m' w', handleInstallSnapshot now msg (s_idx S) (s_term S) (s_ts S) snap (s_cfg S) sess m w = Some (tt, m', w')
    /\ if decide (Term msg < currentTerm n) then m' = m /\ replied msg m w w' (currentTerm n) false 0
       else
         currentTerm (mnode m') = Term msg /\ role (mnode m') = Follower
         /\ if (installing n || bool_decide (s_idx S <= lastApplied n) : bool) then
              replied msg m w w' (Term msg) (negb (installing n)) (if installing n then 0 else s_idx S)
              /\ store m' = store m /\ files m' = files m /\ heard (Term msg) now n (mnode m')
            else
              replied msg m w w' (Term msg) true (s_idx S)
              /\ holds S m' /\ db.closed (store m') = false
              /\ parseMarker (f_marker (files m')) = None /\ f_staged (files m') = None.
Proof.
  intros HS Hk Hse (lf & l & file & Hlf & Hm & Hcp) Hw n. fold (handle now msg S snap sess).
  destruct (decide (Term msg < currentTerm n)) as [Ht|Ht].
  { unfold handle, handleInstallSnapshot. cbv zeta. rewrite bind_ask, decide_True by done.
    destruct (send_reply msg m w (currentTerm n) false 0) as (w' & E & Hr & _). exists m, w'. split; [exact E|]. by split. }
  destruct (installing n || bool_decide (s_idx S <= lastApplied n)) eqn:Hno.
  - destruct (handle_heard now msg S snap sess Hk Hse m w) as (n2 & w2 & Hh & Hs2 & _ & ->); [unfold n in Ht; lia|].
    pose proof Hh as [(Hid & _) _ _ Ht2 Hr2 _].
    assert (exists b i, (if installing n then onNode (send (From msg) (fun _ => MsgInstallSnapshotResponse false 0) (Term msg))
        else if decide (s_idx S <= lastApplied n) then onNode (send (From msg) (fun _ => MsgInstallSnapshotResponse true (s_idx S)) (Term msg))
        else _) = onNode (send (From msg) (fun _ => MsgInstallSnapshotResponse b i) (Term msg))
        /\ b = negb (installing n) /\ i = if installing n then 0 else s_idx S) as (b & i & -> & Hb & Hi).
    { destruct (installing n) eqn:Ei; cbn in Hno; [by eexists _, _|]. apply bool_decide_eq_true in Hno.
      rewrite decide_True by done. by eexists _, _. }
    destruct (send_reply msg (set_mnode n2 m) w2 (Term msg) b i) as (w' & -> & Hr & _).
    exists (set_mnode n2 m), w'. split; [done|]. split; [done|]. split; [done|]. rewrite <- Hb, <- Hi.
    split; [|done]. unfold replied in *. by rewrite Hr, Hs2; cbn [mnode set_mnode]; rewrite Hid.
  - apply orb_false_iff in Hno as [Hi Hla]. apply bool_decide_eq_false in Hla.
    destruct (handle_install_run now msg S snap sess Hk Hse m lf l file w HS Hlf Hm Hcp) as (m' & w' & E & _ & Hok);
      [unfold n in Ht; lia|done|unfold n in Hla; lia|].
    destruct (Hok Hw) as (n2 & Hh & Hc & Hr). exists m', w'. split; [exact E|].
    destruct Hc as (H1 & H2 & H3 & H4 & (_ & Hro & Hte & _)). cbn [mnode set_mnode] in Hro, Hte.
    split; [rewrite Hte; apply Hh|]. split; [rewrite Hro; apply Hh|]. done.
Qed.

(** C25. Installing a snapshot is atomic.  Whatever disk operation of it fails or
    is the node's last (with whatever part of it is done), the node never
    panics and never acknowledges a snapshot it does not hold; and either the
    store, its files, the log and the configuration are what they were and no
    install is pending beyond what was, or a restart has the snapshot as its
    state, however many restarts died before it.  (The restarts must be able to
    tell whether the staging directory exists.) *)
Theorem install_crash_atomic now msg S snap sess m w :
  snap_ok S -> s_kvs S = snapshotKVs snap -> s_sess S = sessionMap sess -> equipped m ->
  currentTerm (mnode m) <= Term msg -> installing (mnode m) = false -> lastApplied (mnode m) < s_idx S ->
  exists m' w', handleInstallSnapshot now msg (s_idx S) (s_term S) (s_ts S) snap (s_cfg S) sess m w = Some (tt, m', w')
    /\ (replied msg m w w' (Term msg) false 0 \/ (replied msg m w w' (Term msg) true (s_idx S) /\ holds S m'))
    /\ ((store m' = store m /\ f_dir (files m') = f_dir (files m) /\ f_marker (files m') = f_marker (files m)
          /\ heard (Term msg) now (mnode m) (mnode m'))
        \/ forall me ps bootstrap c o rng state attempts, Forall stat_works attempts ->
             let '(fs, log, base) := restarts (db.SyncOnWrite o) attempts (files_of m', log_of m', base_of m') in
             exists m2 fs2 log2 base2,
               openNode me ps bootstrap c o rng fs log state base [] = (Ok m2, fs2, log2, base2) /\ holds S m2).
Proof.
  intros HS Hk Hse (lf & l & file & Hlf & Hm & Hcp) Ht Hi Hla.
  destruct (handle_install_run now msg S snap sess Hk Hse m lf l file w HS Hlf Hm Hcp Ht Hi Hla) as (m' & w' & E & (n2 & Hh & Hends) & _).
  exists m', w'. split; [exact E|].
  assert (crashed S m' -> forall me ps bootstrap c o rng state attempts, Forall stat_works attempts ->
     let '(fs, log, base) := restarts (db.SyncOnWrite o) attempts (files_of m', log_of m', base_of m') in
     exists m2 fs2 log2 base2,
       openNode me ps bootstrap c o rng fs log state base [] = (Ok m2, fs2, log2, base2) /\ holds S m2) as Hrestart.
  { intros Hc me ps bootstrap c o rng state attempts Hst.
    pose proof (restarts_ends S (db.SyncOnWrite o) attempts HS Hst _ _ _ Hc) as Hr.
    destruct (restarts _ _ _) as [[fs log] base].
    destruct (open_crashed me ps bootstrap c o rng state S fs log base HS Hr) as (m2 & fs2 & log2 & base2 & Eo & Hh2 & _).
    by exists m2, fs2, log2, base2. }
  destruct Hends as [[Hc Hr]|[[(s & c & ->) Hr]|[Hc Hr]]].
  - split; [right; split; [done|apply Hc]|]. right. apply Hrestart. by apply (complete_crashed S (set_mnode n2 m)).
  - split; [by left|]. left. by cbn.
  - split; [by left|]. right. by apply Hrestart.
Qed.

(** C26. A snapshot takes a follower to the leader's state.  A leader whose applied
    index is inside its log and ahead of the follower sends one; the follower,
    once it has handled it, answers every read as the leader does at the
    snapshot's timestamp, has its session table and applied index, a log that is
    the leader's up to that index, compacted away, and the configuration that
    was newest there; and the leader takes the reply for a match up to the index
    and goes on behind it. *)
Theorem snapshot_catches_up boot ld lf L VM VF tables fo p now :
  store_ok boot (mnode ld) lf L -> role (mnode ld) = Leader -> snapshot.sendable (store ld) VM VF tables ->
  let idx := db.appliedIndex (store ld) in
  baseIndex (log (mnode ld)) <= idx <= len L ->
  equipped fo -> currentTerm (mnode fo) <= currentTerm (mnode ld) -> installing (mnode fo) = false ->
  0 <= lastApplied (mnode fo) < idx ->
  exists rs : list (bytes * bytes), forall fuel, (length rs < fuel)%nat ->
  exists c ld' msg fo' w' resp n',
    sendSnapshot fuel p (currentTerm (mnode ld)) ld (MkWorld [] []) = Some (Some c, ld', MkWorld [] [Send p msg])
    /\ receive now msg fo (MkWorld [] []) = Some (tt, fo', w')
    /\ last (election.sends (out w')) = Some (id (mnode ld), resp)
    /\ onSnapshotReply p (currentTerm (mnode ld)) (c_idx c) resp (mnode ld') (MkWorld [] []) = Some (tt, n', MkWorld [] [])
    /\ (forall k s, readable (store.contents VM VF tables) k -> db.appliedTS (store ld) <= s < 2 ^ 56 ->
          (db.GetAsOf (store fo') k s).2 = (db.GetAsOf (store ld) k (db.appliedTS (store ld))).2)
    /\ db.SessionTable (store fo') = db.SessionTable (store ld) /\ db.appliedIndex (store fo') = idx
    /\ lastApplied (mnode fo') = idx /\ commitIndex (mnode fo') = idx
    /\ (exists lf', logs (mnode fo') lf' (take (Z.to_nat idx) L)) /\ baseIndex (log (mnode fo')) = idx
    /\ config (mnode fo') = Some (snapMembers (ld := ld))
    /\ nextIndex n' !! p = Some (idx + 1)
    /\ default 0 (matchIndex n' !! p) = Z.max idx (default 0 (matchIndex (mnode ld) !! p)).
Proof.
  intros Hok Hrole Hsend idx Hidx Heq Ht Hi Hla.
  pose proof (logs_rep _ _ _ (so_logs _ _ _ _ Hok)) as Hr. pose proof (rep_small _ _ Hr). pose proof maxPersisted_bound.
  destruct (sendSnapshot_run Hok Hrole Hsend Hidx ltac:(fold idx; lia)) as (d1 & rs & disk & _ & Hsnd & Hls & HS).
  exists rs. intros fuel Hf. specialize (Hsnd fuel p (MkWorld [] []) Hf). set (S := shipped rs disk) in *.
  destruct Heq as (lff & lfo & file & Hlf & Hm & Hcp).
  destruct (handle_install_run now (snapMessage (ld := ld) (L := L) rs) S rs (map_to_list (db.sessions (store ld))) eq_refl
      ltac:(by rewrite sessionMap_to_list) fo lff lfo file (MkWorld [] []) HS Hlf Hm Hcp Ht Hi)
    as (fo' & w' & E & _ & Hdone); [cbn; fold idx; lia|].
  destruct (Hdone eq_refl) as (n2 & Hh & (Hhold & _ & _ & _ & (Hid & _)) & Hrep).
  destruct (onSnapshotReply_run p idx (mnode ld) (MkWorld [] [])
      (MkMessage (id (mnode fo)) (currentTerm (mnode ld)) (MsgInstallSnapshotResponse true idx)) Hrole)
    as (n' & En & Hn' & Hma & _); [done|unfold is_u64; lia|done|].
  eexists _, _, _, fo', w', _, n'. split; [exact Hsnd|]. split; [exact E|].
  split; [unfold replied in Hrep; rewrite Hrep; reflexivity|]. split; [exact En|].
  destruct Hhold as [Hin _ Hlog (lf' & Hlf' & Hm') Hcf _ _ [Hci Hla'] _ _ _].
  split; [intros k s Hk Hs; exact (snapshot.installed_reads Hsend rs _ _ _ k s Hls Hin Hk Hs)|].
  split; [exact (snapshot.in_sessions _ _ _ _ _ Hin)|]. split; [apply (snapshot.in_applied _ _ _ _ _ Hin)|].
  split; [exact Hla'|]. split; [exact Hci|]. split.
  { exists lf'. split; [|done|by rewrite Hlog]. rewrite Hlog. apply (snapLog_represents S); cbn; [fold idx; lia|done|done]. }
  split; [by rewrite Hlog|]. split.
  { rewrite Hcf. unfold snapConfig. cbn [S shipped s_cfg]. f_equal. apply config.decode_encode_wf.
    by apply (snapMembers_wf Hok). }
  split; [|exact Hma]. rewrite Hn'. apply lookup_insert_eq.
Qed.

(** ** Witnesses *)

Definition demo_coins : db.coins := fun _ _ => false.
Definition demo_opts : db.Options := db.MkOptions true 0 2 true.
Definition blank_store : db.DB :=
  db.MkDB demo_opts (wal.MkWAL [] 0 0 0 true false) Memtable.New None [] [] 1 1 0 0 0 ∅ true false ∅ false demo_coins.
Definition blank_machine : Machine :=
  MkMachine election.blank_node blank_store demo_opts (MkFiles emptyDir None None None) 0.

(** A node of three, opened on an empty directory. *)
Definition demo_machine (i : NodeID) : Machine :=
  get_ok blank_machine
    (openNode i [0; 1; 2] election.demo_config election.demo_cfg demo_opts demo_coins
       (MkFiles emptyDir None None None) None None None []).1.1.1.

(** A snapshot with one key, and the leader's message with it. *)
Definition demo_kvs : list (bytes * bytes) := [([x6b], [x31])].
Definition demo_sessions : list (bytes * Z) := [([x73], 7)].
Definition demo_snap : Snap :=
  let kvs := snapshotKVs demo_kvs in
  MkSnap kvs (sessionMap demo_sessions) 3 1 5 (config.encodeConfig election.demo_config)
    (get_ok (db.MkDisk ∅ None None) (snapshot.BuildSnapshotDB kvs (sessionMap demo_sessions) 3 5)).
Definition demo_offer : Message :=
  MkMessage 0 1 (MsgInstallSnapshot 3 1 5 demo_kvs (config.encodeConfig election.demo_config) demo_sessions 3).

Lemma demo_snap_ok : snap_ok demo_snap.
Proof.
  split.
  - vm_compute. reflexivity.
  - split; [|split; [|vm_compute; done]].
    + constructor; [|constructor]. repeat split; vm_compute; done.
    + repeat constructor.
  - split; by_decide.
  - vm_compute. done.
  - vm_compute. done.
  - vm_compute. done.
  - vm_compute. done.
Qed.

Lemma demo_equipped : equipped (demo_machine 1).
Proof.
  destruct (repair.logs_computed (mnode (demo_machine 1)) []) as (lf & [_ Hlf Hm]);
    [vm_compute; reflexivity|by_decide|constructor|vm_compute; done|vm_compute; reflexivity|].
  exists lf, (log (mnode (demo_machine 1))), None. split; [exact Hlf|]. split; [exact Hm|]. vm_compute. reflexivity.
Qed.

Lemma install_snapshot_witness :
  exists m w, receive 0 demo_offer (demo_machine 1) (MkWorld [] []) = Some (tt, m, w)
    /\ holds demo_snap m /\ lastApplied (mnode m) = 3
    /\ election.sends (out w) = [(0, MkMessage 1 1 (MsgInstallSnapshotResponse true 3))].
Proof.
  destruct (install_snapshot 0 demo_offer demo_snap demo_kvs demo_sessions (demo_machine 1) (MkWorld [] []) demo_snap_ok
              eq_refl eq_refl demo_equipped eq_refl) as (m & w & E & H).
  rewrite decide_False in H by (vm_compute; done). destruct H as (_ & _ & H).
  replace (installing (mnode (demo_machine 1))) with false in H by (vm_compute; reflexivity).
  rewrite bool_decide_eq_false_2 in H by (vm_compute; tauto). cbn [orb] in H. destruct H as (Hr & Hh & _).
  exists m, w. split; [exact E|]. split; [exact Hh|]. split; [apply Hh|]. exact Hr.
Defined.

(** The node dies when it copies the staged table, having copied three bytes
    (after removing the applied index and the log of the old store). *)
Definition dies_copying : World :=
  MkWorld [None; None; None; None; None; None; None; None; None; Some 4%nat] [].

Lemma install_crash_atomic_witness :
  exists m w m2 fs log base, receive 0 demo_offer (demo_machine 1) dies_copying = Some (tt, m, w)
    /\ default [] (db.d_ssts (f_disk (f_dir (files m))) !! 1) <> default [] (db.d_ssts (s_disk demo_snap) !! 1)
    /\ openNode 1 [0; 1; 2] election.demo_config election.demo_cfg demo_opts demo_coins (files_of m) (log_of m) None
         (base_of m) [] = (Ok m2, fs, log, base)
    /\ holds demo_snap m2.
Proof.
  destruct (install_crash_atomic 0 demo_offer demo_snap demo_kvs demo_sessions (demo_machine 1) dies_copying demo_snap_ok
              eq_refl eq_refl demo_equipped) as (m & w & E & _ & H); [vm_compute; discriminate|vm_compute; reflexivity|vm_compute; reflexivity|].
  assert (f_marker (files m) <> f_marker (files (demo_machine 1))
          /\ default [] (db.d_ssts (f_disk (f_dir (files m))) !! 1) <> default [] (db.d_ssts (s_disk demo_snap) !! 1)) as [Hm Hd].
  { change (receive 0 demo_offer (demo_machine 1) dies_copying = Some (tt, m, w)) in E.
    assert (m = (default (tt, blank_machine, w) (receive 0 demo_offer (demo_machine 1) dies_copying)).1.2) as -> by by rewrite E.
    split; by_decide. }
  destruct H as [(_ & _ & Hmk & _)|H]; [by destruct Hm|].
  destruct (H 1 [0; 1; 2] election.demo_config election.demo_cfg demo_opts demo_coins None [] ltac:(constructor))
    as (m2 & fs & log & base & Eo & Hh).
  exists m, w, m2, fs, log, base. split; [exact E|]. split; [exact Hd|]. split; [exact Eo|exact Hh].
Defined.

(** A leader of term 1 with three entries. *)
Definition snap_log : list logEntry := MkLogEntry 1 EntryData <$> [[x61]; [x62]; [x63]].
Definition snap_leader : Node :=
  default election.blank_node
    (foldl (fun n b => n ← n; repair.proposes n b) (Some (election.demo_node 0)) [[x61]; [x62]; [x63]]).

Lemma snap_leader_ok : exists lf, store_ok election.demo_config snap_leader lf snap_log.
Proof.
  apply repair.store_computed; [|vm_compute; reflexivity..].
  apply repair.logs_computed; [vm_compute; reflexivity|by_decide|repeat constructor; vm_compute; done|vm_compute; done|vm_compute; reflexivity].
Qed.

Lemma snapshot_catches_up_witness :
  exists d fuel c ld' msg fo' w', db.appliedIndex d = 3
    /\ sendSnapshot fuel 1 1 (MkMachine snap_leader d demo_opts (MkFiles emptyDir None None None) 0) (MkWorld [] [])
       = Some (Some c, ld', MkWorld [] [Send 1 msg])
    /\ receive 0 msg (demo_machine 1) (MkWorld [] []) = Some (tt, fo', w')
    /\ (db.GetAsOf (store fo') store.kb 5).2 = (db.GetAsOf d store.kb 1).2
    /\ db.SessionTable (store fo') = {[ [x73] := 7 ]} /\ lastApplied (mnode fo') = 3
    /\ (exists lf', logs (mnode fo') lf' snap_log) /\ baseIndex (log (mnode fo')) = 3.
Proof.
  destruct snap_leader_ok as (lf & Hok). destruct snapshot.demo_sendable as (d & Hd & Hidx & Hts & Hse).
  set (ld := MkMachine snap_leader d demo_opts (MkFiles emptyDir None None None) 0).
  destruct (snapshot_catches_up election.demo_config ld lf snap_log scanspec.demo_mt (Some scanspec.demo_frozen) [] (demo_machine 1) 1 0 Hok)
    as (rs & H); [by_decide|exact Hd|cbn; rewrite Hidx; by_decide|exact demo_equipped|by_decide|by_decide|cbn; rewrite Hidx; by_decide|].
  destruct (H (S (length rs)) ltac:(lia))
    as (c & ld' & msg & fo' & w' & resp & n' & E1 & E2 & _ & _ & Hget & Hs & _ & Hla & _ & Hlog & Hb & _).
  change (store ld) with d in *. rewrite Hidx in *. rewrite Hts in *.
  replace (currentTerm (mnode ld)) with 1 in E1 by (vm_compute; reflexivity).
  exists d, (S (length rs)), c, ld', msg, fo', w'. split; [exact Hidx|]. split; [exact E1|]. split; [exact E2|].
  split; [apply Hget; [left; apply scanspec.demo_text; by left|lia]|].
  split; [rewrite Hs; exact Hse|]. split; [exact Hla|]. split; [exact Hlog|exact Hb].
Defined.

End snapinstall.
