(* ===== verification/RaftInstallRuns.v ===== *)
(** * Installs that go wrong (internal/cluster/install.go): runs

    Two failures of an install after which the node goes on as if it were whole:
    the marker outlives a completed install, or the install stops half way.  In
    both the node acknowledges entries that its next restart discards. *)

From Stdlib Require Import ZArith Lia.
From Stdlib Require Import Strings.Byte.
From stdpp Require Import base list gmap.
From S2P Require Import Prelude.
From S2P Require Import Db.
From S2P Require Import DbSnapshot.
From S2P Require Import RaftLog.
From S2P Require Import RaftLogFile.
From S2P Require Import RaftNode.
From S2P Require Import RaftElection.
From S2P Require Import RaftInstall.
From S2P Require Import RaftInstallSpec.
From S2P Require Import RaftInstallNode.

#[local] Open Scope Z_scope.

Module installruns.
Import raftlog node install installed snapinstall.

(** Node 1 of three is restarted on its files. *)
Definition restarted (m : Machine) : option Machine :=
  match openNode 1 [0; 1; 2] election.demo_config election.demo_cfg demo_opts demo_coins (files_of m) (log_of m)
          (default None (stateFile (mnode m))) (base_of m) [] with
  | (Ok m', _, _, _) => Some m'
  | _ => None
  end.

(** [receive] under the outcomes, with the reply. *)
Definition delivered (msg : Message) (os : outcomes) (m : Machine) : option (Machine * Body) :=
  '(_, m, w) ← receive 0 msg m (MkWorld os []);
  '(_, reply) ← last (election.sends (out w));
  Some (m, body reply).

Definition applies (m : Machine) : option Machine := '(_, m, _) ← applyLoop m (MkWorld [] []); Some m.

(** What a node has: what it reads at "k", its last log index and its applied index. *)
Definition state_of (m : Machine) : outcome db.error bytes * Z * Z :=
  ((db.GetAsOf (store m) [x6b] 100).2, lastIndex (log (mnode m)), lastApplied (mnode m)).

(** ** The marker that stays

    Everything of the install succeeds but the removal of the marker; the entry
    at index 4 overwrites "k", and the leader of term 1 has it committed. *)
Definition marker_stays : outcomes := repeat None 17 ++ [Some 0%nat].

Definition entry4 (m : Machine) : option bytes := snd <$> snapshot.propose (store m) [x6b] (Some [x32]).

Definition stale_marker_run : option (Body * bool * Body * (outcome db.error bytes * Z * Z) * (outcome db.error bytes * Z * Z)) :=
  '(m, r1) ← delivered demo_offer marker_stays (demo_machine 1);
  e ← entry4 m;
  '(m, r2) ← delivered (MkMessage 0 1 (MsgAppendEntries 3 1 [MkLogEntry 1 EntryData e] 4)) [] m;
  m ← applies m;
  m' ← restarted m;
  Some (r1, installing (mnode m), r2, state_of m, state_of m').

(** An install that completes but for the removal of its marker is not over.
    The node refuses the snapshot to the leader but is not parked: it takes part
    again, acknowledges the entry at index 4, applies it and answers reads with
    it.  Its next restart finds the marker, installs the old snapshot once more,
    and the entry is gone from its log and its store, though the node had
    acknowledged it. *)
Theorem stale_marker_forgets_acknowledged :
  stale_marker_run
  = Some (MsgInstallSnapshotResponse false 0, false, MsgAppendResponse true 4 0, (Ok [x32], 4, 4), (Ok [x31], 3, 3)).
Proof. vm_compute. reflexivity. Qed.

(** ** The parked node

    The directory cannot be listed after the store is closed.  A new leader, of
    term 2, has not compacted its log and sends it from the start. *)
Definition listing_fails : outcomes := repeat None 6 ++ [Some 0%nat].

Definition resent : list logEntry := MkLogEntry 1 EntryData <$> [[x61]; [x62]; [x63]; [x64]].

Definition parked_run : option (Body * bool * Body * (Z * Z) * (Z * Z)) :=
  '(m, r1) ← delivered demo_offer listing_fails (demo_machine 1);
  '(m, r2) ← delivered (MkMessage 2 2 (MsgAppendEntries 0 0 resent 4)) [] m;
  m' ← restarted m;
  Some (r1, installing (mnode m), r2, (lastIndex (log (mnode m)), lastApplied (mnode m)),
        (lastIndex (log (mnode m')), lastApplied (mnode m'))).

(** A parked node still votes for commitment.  After an install that failed
    with the store closed the node waits for a restart to finish it, and only its
    apply loop waits: it acknowledges the four entries of a new leader.  The
    restart finishes the install with a log reset to the snapshot's index 3, and
    the acknowledged fourth entry is gone. *)
Theorem parked_node_forgets_acknowledged :
  parked_run = Some (MsgInstallSnapshotResponse false 0, true, MsgAppendResponse true 4 0, (4, 0), (3, 3)).
Proof. vm_compute. reflexivity. Qed.

End installruns.
