(* ===== verification/Lincheck.v ===== *)
(** * The linearizability checker (internal/lincheck): definitions

    Histories of one register (lincheck.go) and the Wing-Gong search over an
    intrusive doubly linked list of events (linearize.go).  The list lives in a
    heap of nodes, a pointer is an index into it, and node 0 is the head
    sentinel; [lift] and [unlift] rewrite the links in place, in the order of
    the code.  [None] is a nil dereference (or the end of the fuel). *)

From Stdlib Require Import ZArith Lia.
From Stdlib Require Import Strings.Byte.
From stdpp Require Import base list gmap sorting.
From S2P Require Import Prelude.

#[local] Open Scope Z_scope.

Module lincheck.

(** ** Histories (lincheck.go) *)

Definition Infinity : Z := 2 ^ 63 - 1.

Inductive OpKind := Put | Get | Delete.

Record Op := MkOp {
  Client : Z;
  Kind : OpKind;
  Key : bytes;
  Value : bytes;
  Found : bool;
  Call : Z;
  Return : Z
}.

Record regState := MkReg { value : bytes; present : bool }.

#[export] Instance regState_eq : EqDecision regState.
Proof. solve_decision. Defined.

(** The zero values. *)
Definition noOp : Op := MkOp 0 Put [] [] false 0 0.
Definition noReg : regState := MkReg [] false.

Definition stepRegister (s : regState) (op : Op) : regState * bool :=
  match Kind op with
  | Put => (MkReg (Value op) true, true)
  | Delete => (noReg, true)
  | Get =>
      if decide (Found op <> present s) then (s, false)
      else if decide (Found op = true /\ Value op <> value s) then (s, false)
      else (s, true)
  end.

(** ** The event list (linearize.go) *)

Inductive entryKind := entryCall | entryReturn.

Abbreviation ptr := nat.

Record node := MkNode {
  n_kind : entryKind;
  n_id : nat;
  tick : Z;
  n_op : Op;
  match_ : option ptr;
  prev : option ptr;
  next : option ptr
}.

Abbreviation heap := (list node).

Definition with_prev (p : option ptr) (n : node) : node :=
  MkNode (n_kind n) (n_id n) (tick n) (n_op n) (match_ n) p (next n).
Definition with_next (p : option ptr) (n : node) : node :=
  MkNode (n_kind n) (n_id n) (tick n) (n_op n) (match_ n) (prev n) p.

(** Assignments through a pointer that may be nil. *)
Definition set_prev (h : heap) (p q : option ptr) : option heap :=
  match p with Some p => Some (alter (with_prev q) p h) | None => None end.
Definition set_next (h : heap) (p q : option ptr) : option heap :=
  match p with Some p => Some (alter (with_next q) p h) | None => None end.

(** [sort.SliceStable]: an insertion sort, which is stable. *)
Fixpoint insertBy {A} (key : A -> Z) (x : A) (l : list A) : list A :=
  match l with
  | [] => [x]
  | y :: l' => if decide (key x <= key y) then x :: y :: l' else y :: insertBy key x l'
  end.
Definition sortBy {A} (key : A -> Z) (l : list A) : list A := foldr (insertBy key) [] l.

Definition head : ptr := 0%nat.
(** The nodes of operation [i]. *)
Definition callOf (i : nat) : ptr := (2 * i + 1)%nat.
Definition returnOf (i : nat) : ptr := (2 * i + 2)%nat.

Definition newEvents (i : nat) (op : Op) : list node :=
  [MkNode entryCall i (Call op) op (Some (returnOf i)) None None;
   MkNode entryReturn i (Return op) noOp None None None].

Definition allocEvents (ops : list Op) : heap :=
  MkNode entryCall 0 0 noOp None None None :: concat (imap newEvents ops).

(** The threading loop. *)
Fixpoint thread (h : heap) (p : ptr) (es : list ptr) : heap :=
  match es with
  | [] => h
  | e :: es' => thread (alter (with_prev (Some p)) e (alter (with_next (Some e)) p h)) e es'
  end.

Definition tickOf (h : heap) (p : ptr) : Z := default 0 (tick <$> h !! p).

Definition sortedEvents (ops : list Op) : list ptr :=
  sortBy (tickOf (allocEvents ops)) (seq 1 (2 * length ops)).

Definition buildEventList (ops : list Op) : heap := thread (allocEvents ops) head (sortedEvents ops).

Definition lift (h : heap) (n : ptr) : option heap :=
  nd ← h !! n;
  h ← set_next h (prev nd) (next nd);
  nd ← h !! n;
  h ← set_prev h (next nd) (prev nd);
  nd ← h !! n;
  m ← match_ nd;
  md ← h !! m;
  h ← set_next h (prev md) (next md);
  md ← h !! m;
  match next md with
  | None => Some h
  | Some _ => set_prev h (next md) (prev md)
  end.

Definition unlift (h : heap) (n : ptr) : option heap :=
  nd ← h !! n;
  m ← match_ nd;
  md ← h !! m;
  h ← set_next h (prev md) (Some m);
  md ← h !! m;
  h ← match next md with
      | None => Some h
      | Some _ => set_prev h (next md) (Some m)
      end;
  nd ← h !! n;
  h ← set_next h (prev nd) (Some n);
  nd ← h !! n;
  set_prev h (next nd) (Some n).

(** ** Bit sets *)

Abbreviation bitset := (list Z).

Definition newBitset (n : nat) : bitset := replicate ((n + 63) / 64) 0.

(** [None] is an index out of range. *)
Definition bs_set (b : bitset) (i : nat) : option bitset :=
  w ← b !! (i / 64)%nat;
  Some (<[(i / 64)%nat := Z.lor w (Z.shiftl 1 (Z.of_nat (i mod 64)))]> b).
Definition bs_clear (b : bitset) (i : nat) : option bitset :=
  w ← b !! (i / 64)%nat;
  Some (<[(i / 64)%nat := Z.ldiff w (Z.shiftl 1 (Z.of_nat (i mod 64)))]> b).

Definition hash (b : bitset) : Z :=
  foldl (fun h w => u64 (Z.lxor h w * 1099511628211)) 1469598103934665603 b.

Fixpoint bs_equal (b o : bitset) : bool :=
  match b, o with
  | [], [] => true
  | x :: b', y :: o' => if decide (x = y) then bs_equal b' o' else false
  | _, _ => false
  end.

(** ** The search *)

Record cacheEntry := MkEntry { ce_set : bitset; ce_state : regState }.

Abbreviation cache := (gmap Z (list cacheEntry)).

Definition cacheHas (c : cache) (set : bitset) (st : regState) : bool :=
  existsb (fun e => bool_decide (ce_state e = st) && bs_equal (ce_set e) set) (default [] (c !! hash set)).

Definition cacheAdd (c : cache) (set : bitset) (st : regState) : cache :=
  <[hash set := default [] (c !! hash set) ++ [MkEntry set st]]> c.

Record frame := MkFrame { fr_call : ptr; fr_state : regState }.

(** The loop of [linearizableRegister]; the top of the stack comes first. *)
Fixpoint search (fuel : nat) (h : heap) (linearized : bitset) (c : cache) (calls : list frame)
  (state : regState) (entry : option ptr) : option bool :=
  match fuel with
  | O => None
  | S fuel' =>
      hd ← h !! head;
      match next hd with
      | None => Some true
      | Some _ =>
          p ← entry;
          e ← h !! p;
          match n_kind e with
          | entryCall =>
              let '(newState, ok) := stepRegister state (n_op e) in
              if negb ok then search fuel' h linearized c calls state (next e)
              else
                tentative ← bs_set linearized (n_id e);
                if cacheHas c tentative newState then search fuel' h linearized c calls state (next e)
                else
                  linearized' ← bs_set linearized (n_id e);
                  h' ← lift h p;
                  hd' ← h' !! head;
                  search fuel' h' linearized' (cacheAdd c tentative newState)
                    (MkFrame p state :: calls) newState (next hd')
          | entryReturn =>
              match calls with
              | [] => Some false
              | MkFrame p st :: calls' =>
                  e ← h !! p;
                  linearized' ← bs_clear linearized (n_id e);
                  h' ← unlift h p;
                  e ← h' !! p;
                  search fuel' h' linearized' c calls' st (next e)
              end
          end
      end
  end.

(** At most one push per set of operations and state, one pop per push, and one
    walk over the list between two of them. *)
Definition searchFuel (n : nat) : nat :=
  (S (2 ^ n * S n) * (2 * (2 * n + 1)) + (2 * n + 1) + 1)%nat.

Definition linearizableRegister (ops : list Op) : option bool :=
  let n := length ops in
  if decide (n = 0%nat) then Some true
  else
    let h := buildEventList ops in
    hd ← h !! head;
    search (searchFuel n) h (newBitset n) ∅ [] noReg (next hd).

(** ** Whole histories (lincheck.go) *)

Record Result := MkResult { Linearizable : bool; r_Key : bytes; Witness : list Op }.

(** The operations of a key, in the order of the history. *)
Definition byKey (history : list Op) (k : bytes) : list Op := filter (fun op => Key op = k) history.

(** The keys, each once, sorted ([sort.Strings]). *)
Definition insertKey (k : bytes) (l : list bytes) : list bytes :=
  (fix go l := match l with
               | [] => [k]
               | x :: l' => match bcompare k x with Lt => k :: x :: l' | Eq => x :: l' | Gt => x :: go l' end
               end) l.
Definition sortedKeys (history : list Op) : list bytes := foldr insertKey [] (Key <$> history).

(** By call tick, then by return tick. *)
Fixpoint insertOp (o : Op) (l : list Op) : list Op :=
  match l with
  | [] => [o]
  | x :: l' =>
      if decide (Call o < Call x \/ (Call o = Call x /\ Return o <= Return x)) then o :: x :: l'
      else x :: insertOp o l'
  end.
Definition sortedByCall (ops : list Op) : list Op := foldr insertOp [] ops.

Fixpoint Check_loop (history : list Op) (keys : list bytes) : option Result :=
  match keys with
  | [] => Some (MkResult true [] [])
  | k :: keys' =>
      ok ← linearizableRegister (byKey history k);
      if (ok : bool) then Check_loop history keys'
      else Some (MkResult false k (sortedByCall (byKey history k)))
  end.

Definition Check_ (history : list Op) : option Result := Check_loop history (sortedKeys history).

End lincheck.
