(* ===== verification/LincheckList.v ===== *)
(** * The event list of the checker (internal/lincheck/linearize.go)

    Splicing a node out of the doubly linked list and putting it back: [lift]
    takes a call and its return out of the list, [unlift] restores the heap
    exactly, which is what makes the backtracking of the search sound. *)

From Stdlib Require Import ZArith Lia.
From Stdlib Require Import Strings.Byte.
From stdpp Require Import base list gmap sorting.
From S2P Require Import Prelude.
From S2P Require Import Lincheck.

#[local] Open Scope Z_scope.

Module eventlist.
Import lincheck.

(** ** Links and the rest of a heap *)

Definition nxt (h : heap) (p : ptr) : option ptr := h !! p ≫= next.
Definition prv (h : heap) (p : ptr) : option ptr := h !! p ≫= prev.

(** A node without its links. *)
Definition info (n : node) : node := with_prev None (with_next None n).
Definition infos (h : heap) : list node := info <$> h.

Lemma heap_ext h h' :
  infos h = infos h' -> (forall p, nxt h p = nxt h' p) -> (forall p, prv h p = prv h' p) -> h = h'.
Proof.
  intros Hi Hn Hp. apply list_eq. intros p. specialize (Hn p). specialize (Hp p).
  apply (f_equal (lookup p)) in Hi. unfold infos in Hi. rewrite !list_lookup_fmap in Hi.
  unfold nxt, prv in *. revert Hi Hn Hp. destruct (h !! p) as [x|], (h' !! p) as [y|]; cbn; try done.
  intros Hi Hn Hp. apply (inj Some) in Hi. destruct x, y. cbn in *. injection Hi as -> -> -> -> ->. by subst.
Qed.

(** A changed node, or another one. *)
Ltac by_alter := rewrite ?list_lookup_alter; repeat case_decide; subst; try congruence;
  match goal with |- context [?h !! ?j] => by destruct (h !! j) end.

Section set.
Context (h : heap) (p : ptr) (q : option ptr) (Hp : (p < length h)%nat).

Lemma infos_set_next : infos (alter (with_next q) p h) = infos h.
Proof. clear Hp. unfold infos. apply list_eq. intros i. rewrite !list_lookup_fmap. by_alter. Qed.
Lemma infos_set_prev : infos (alter (with_prev q) p h) = infos h.
Proof. clear Hp. unfold infos. apply list_eq. intros i. rewrite !list_lookup_fmap. by_alter. Qed.

Lemma nxt_set_next x : nxt (alter (with_next q) p h) x = if decide (x = p) then q else nxt h x.
Proof.
  unfold nxt. rewrite list_lookup_alter. case_decide as H; case_decide as H'; try congruence.
  subst. by destruct (lookup_lt_is_Some_2 h _ Hp) as [n ->].
Qed.
Lemma prv_set_next x : prv (alter (with_next q) p h) x = prv h x.
Proof. clear Hp. unfold prv. by_alter. Qed.
Lemma nxt_set_prev x : nxt (alter (with_prev q) p h) x = nxt h x.
Proof. clear Hp. unfold nxt. by_alter. Qed.
Lemma prv_set_prev x : prv (alter (with_prev q) p h) x = if decide (x = p) then q else prv h x.
Proof.
  unfold prv. rewrite list_lookup_alter. case_decide as H; case_decide as H'; try congruence.
  subst. by destruct (lookup_lt_is_Some_2 h _ Hp) as [n ->].
Qed.

End set.

(** ** Segments *)

(** The nodes [l] follow [p], and the last of them points to [e]. *)
Fixpoint seg (h : heap) (p : ptr) (l : list ptr) (e : option ptr) : Prop :=
  match l with
  | [] => nxt h p = e
  | x :: l' => nxt h p = Some x /\ prv h x = Some p /\ seg h x l' e
  end.

Definition last_of (p : ptr) (l : list ptr) : ptr := default p (last l).

Lemma last_node_cons p x l : last_of p (x :: l) = last_of x l.
Proof. unfold last_of. rewrite last_cons. by destruct (last l). Qed.

Lemma last_node_elem p l : last_of p l ∈ p :: l.
Proof.
  revert p. induction l as [|x l IH]; intros p; [unfold last_of; cbn; set_solver|].
  rewrite last_node_cons. specialize (IH x). set_solver.
Qed.

Lemma seg_app h p l1 x l2 e :
  seg h p (l1 ++ x :: l2) e <-> seg h p l1 (Some x) /\ prv h x = Some (last_of p l1) /\ seg h x l2 e.
Proof.
  revert p. induction l1 as [|y l1 IH]; intros p; cbn [app seg]; [done|].
  rewrite IH, last_node_cons. tauto.
Qed.

Lemma seg_last h p l e : seg h p l e -> nxt h (last_of p l) = e.
Proof.
  revert p. induction l as [|x l IH]; intros p; cbn [seg]; [done|]. rewrite last_node_cons. intros (_ & _ & ?). auto.
Qed.

(** Changing the end of a segment, everything else in it kept. *)
Lemma seg_frame h h' p l e e' :
  NoDup (p :: l) -> (forall y, y ∈ p :: l -> y <> last_of p l -> nxt h' y = nxt h y) ->
  nxt h' (last_of p l) = e' -> (forall y, y ∈ l -> prv h' y = prv h y) ->
  seg h p l e -> seg h' p l e'.
Proof.
  revert p. induction l as [|x l IH]; intros p Hnd Hn He Hp; cbn [seg]; [done|].
  apply NoDup_cons in Hnd as [Hpx Hnd]. rewrite last_node_cons in *. intros (H1 & H2 & H3). split_and!.
  - rewrite Hn; [done|set_solver|]. intros Heq. apply Hpx. rewrite Heq. apply last_node_elem.
  - rewrite Hp; [done|set_solver].
  - apply IH; try done; intros; [apply Hn|apply Hp]; set_solver.
Qed.

(** ** Taking one node out and putting it back *)

Definition splice (h : heap) (x : ptr) : option heap :=
  nd ← h !! x;
  h ← set_next h (prev nd) (next nd);
  nd ← h !! x;
  match next nd with
  | None => Some h
  | Some _ => set_prev h (next nd) (prev nd)
  end.

Definition unsplice (h : heap) (x : ptr) : option heap :=
  nd ← h !! x;
  h ← set_next h (prev nd) (Some x);
  nd ← h !! x;
  match next nd with
  | None => Some h
  | Some _ => set_prev h (next nd) (Some x)
  end.

Section splice.
Context {h : heap} {p x : ptr} {A D : list ptr}.
Context (Hseg : seg h p (A ++ x :: D) None).
Context (Hnd : NoDup (p :: A ++ x :: D)).
Context (Hlen : Forall (fun y => y < length h)%nat (p :: A ++ x :: D)).

Let a := last_of p A.

Lemma splice_links : nxt h a = Some x /\ prv h x = Some a /\ nxt h x = list.head D
  /\ (forall d D', D = d :: D' -> prv h d = Some x).
Proof.
  apply seg_app in Hseg as (H1 & H2 & H3). apply seg_last in H1. split_and!; [done..| |].
  - destruct D; cbn in *; [done|]. naive_solver.
  - intros d D' ->. cbn in H3. naive_solver.
Qed.

Lemma splice_distinct : a <> x /\ a ∉ D /\ x ∉ D /\ x ∉ p :: A /\ a ∈ p :: A.
Proof.
  pose proof (last_node_elem p A) as Ha. fold a in Ha.
  change (p :: A ++ x :: D) with ((p :: A) ++ x :: D) in Hnd.
  apply NoDup_app in Hnd as (_ & H1 & H2). apply NoDup_cons in H2 as [H2 _].
  split_and!; try done; [intros ->; apply (H1 x Ha)|intros H; apply (H1 _ Ha)|intros H; apply (H1 _ H)]; set_solver.
Qed.

Lemma splice_len y : y ∈ p :: A ++ x :: D -> (y < length h)%nat.
Proof. intros Hy. rewrite Forall_forall in Hlen. by apply Hlen. Qed.

(** The heap without [x]. *)
Let h1 : heap := alter (with_next (list.head D)) a h.
Let h2 : heap := match list.head D with None => h1 | Some d => alter (with_prev (Some a)) d h1 end.

Lemma head_elem d : list.head D = Some d -> d ∈ D.
Proof. destruct D; [done|]. intros [= ->]. set_solver. Qed.

Lemma spliced_lens : (a < length h)%nat /\ (x < length h)%nat /\ length h1 = length h /\ length h2 = length h
  /\ (forall d, list.head D = Some d -> (d < length h)%nat).
Proof.
  assert (length h1 = length h) as Hl1 by (unfold h1; by rewrite length_alter).
  destruct splice_distinct as (_ & _ & _ & _ & HaA). split_and!; [| |done| |].
  - apply splice_len. change (p :: A ++ x :: D) with ((p :: A) ++ x :: D). apply elem_of_app. by left.
  - apply splice_len. set_solver.
  - unfold h2. destruct (list.head D); by rewrite ?length_alter.
  - intros d Hd%head_elem. apply splice_len. set_solver.
Qed.

Lemma spliced_nxt y : nxt h2 y = if decide (y = a) then list.head D else nxt h y.
Proof.
  destruct spliced_lens as (Ha & _ & Hl & _ & Hd).
  assert (nxt h2 y = nxt h1 y) as -> by (unfold h2; destruct (list.head D); [apply nxt_set_prev|done]).
  by apply nxt_set_next.
Qed.
Lemma spliced_prv y : prv h2 y = if decide (Some y = list.head D) then Some a else prv h y.
Proof.
  destruct spliced_lens as (Ha & _ & Hl & _ & Hd).
  assert (prv h1 y = prv h y) as <- by apply prv_set_next.
  unfold h2. destruct (list.head D) as [d|] eqn:E; [|by rewrite decide_False by done].
  rewrite prv_set_prev by (rewrite Hl; by apply Hd). repeat case_decide; congruence.
Qed.
Lemma spliced_infos : infos h2 = infos h.
Proof. unfold h2. destruct (list.head D); rewrite ?infos_set_prev; apply infos_set_next. Qed.

Lemma spliced_seg : seg h2 p (A ++ D) None.
Proof.
  destruct splice_distinct as (Hax & HaD & HxD & HxA & HaA).
  pose proof Hseg as (H1 & H2 & H3)%seg_app.
  assert (NoDup ((p :: A) ++ x :: D)) as (HndA & Hdis & HndD)%NoDup_app by exact Hnd.
  apply NoDup_cons in HndD as [_ HndD].
  assert (seg h2 p A (list.head D)) as HA.
  { eapply (seg_frame h); [done| | | |exact H1].
    - intros y _ Hy. rewrite spliced_nxt. by rewrite decide_False.
    - rewrite spliced_nxt. by rewrite decide_True.
    - intros y Hy. rewrite spliced_prv. rewrite decide_False; [done|]. intros Heq%eq_sym%head_elem.
      apply (Hdis y); set_solver. }
  assert (forall d D', D = d :: D' -> prv h2 d = Some a /\ seg h2 d D' None) as HD.
  { intros d D' ED. rewrite ED in H3, HndD. destruct H3 as (_ & _ & H3). split.
    { rewrite spliced_prv. by rewrite decide_True by by rewrite ED. }
    eapply (seg_frame h); [done| | | |exact H3].
    - intros y Hy _. rewrite spliced_nxt. rewrite decide_False; [done|]. intros ->. apply HaD. by rewrite ED.
    - rewrite spliced_nxt, decide_False; [by apply seg_last in H3|]. intros Heq. apply HaD.
      rewrite ED, <- Heq. apply last_node_elem.
    - intros y Hy. rewrite spliced_prv, decide_False; [done|]. rewrite ED. intros [= ->].
      by apply NoDup_cons in HndD as [? _]. }
  clearbody h2. clear - HA HD. destruct D as [|d D']; [by rewrite app_nil_r|].
  apply seg_app. destruct (HD d D' eq_refl). done.
Qed.

Lemma splice_run : splice h x = Some h2.
Proof.
  destruct splice_links as (Hna & Hpx & Hnx & HpD). destruct splice_distinct as (Hax & _).
  destruct spliced_lens as (_ & Hxl & _).
  destruct (lookup_lt_is_Some_2 h x Hxl) as [nd Hx].
  assert (prev nd = Some a) as E1 by (unfold prv in Hpx; by rewrite Hx in Hpx).
  assert (next nd = list.head D) as E2 by (unfold nxt in Hnx; by rewrite Hx in Hnx).
  unfold splice. rewrite Hx. cbn [mbind option_bind]. rewrite E1, E2. cbn [set_next mbind option_bind]. fold h1.
  assert (h1 !! x = Some nd) as -> by (unfold h1; by rewrite list_lookup_alter_ne).
  cbn [mbind option_bind]. rewrite E1, E2. unfold h2. by destruct (list.head D).
Qed.

Lemma unsplice_run : unsplice h2 x = Some h.
Proof.
  destruct splice_links as (Hna & Hpx & Hnx & HpD). destruct splice_distinct as (Hax & HaD & HxD & HxA & HaA).
  destruct spliced_lens as (Ha & Hxl & _ & Hl2 & Hd).
  destruct (lookup_lt_is_Some_2 h2 x) as [nd Hx]; [by rewrite Hl2|].
  assert (prev nd = Some a) as E1.
  { pose proof (spliced_prv x) as E. rewrite decide_False in E by (by intros Heq%eq_sym%head_elem).
    unfold prv at 1 in E. rewrite Hx in E. cbn in E. by rewrite E. }
  assert (next nd = list.head D) as E2.
  { pose proof (spliced_nxt x) as E. rewrite decide_False in E by done. unfold nxt at 1 in E. rewrite Hx in E.
    cbn in E. by rewrite E. }
  unfold unsplice. rewrite Hx. cbn [mbind option_bind]. rewrite E1. cbn [set_next mbind option_bind].
  set (h3 := alter (with_next (Some x)) a h2).
  assert (length h3 = length h) as Hl3 by (unfold h3; by rewrite length_alter).
  assert (h3 !! x = Some nd) as -> by (unfold h3; by rewrite list_lookup_alter_ne).
  cbn [mbind option_bind]. rewrite E2.
  assert (forall y, nxt h3 y = nxt h y) as Hn3.
  { intros y. unfold h3. rewrite nxt_set_next by (by rewrite Hl2). case_decide; [by subst|].
    rewrite spliced_nxt. by rewrite decide_False. }
  assert (forall y, prv h3 y = prv h2 y) as Hp3 by (intros y; apply prv_set_next).
  assert (infos h3 = infos h) as Hi3 by (unfold h3; rewrite infos_set_next; apply spliced_infos).
  pose proof spliced_prv as Hpr. clearbody h3 h2 h1.
  destruct (list.head D) as [d|] eqn:E; cbn [set_prev]; f_equal; apply heap_ext.
  - by rewrite infos_set_prev.
  - intros y. by rewrite nxt_set_prev.
  - intros y. rewrite prv_set_prev by (rewrite Hl3; by apply Hd). rewrite Hp3, Hpr.
    destruct (decide (y = d)) as [->|Hyd]; [|by rewrite decide_False by congruence].
    symmetry. apply (HpD d (tail D)). by destruct D; [|injection E as ->].
  - done.
  - done.
  - intros y. by rewrite Hp3, Hpr, decide_False by done.
Qed.

Lemma splice_spec :
  exists h', splice h x = Some h' /\ infos h' = infos h /\ seg h' p (A ++ D) None
    /\ nxt h' x = nxt h x /\ unsplice h' x = Some h.
Proof.
  exists h2. split; [apply splice_run|]. split; [apply spliced_infos|]. split; [apply spliced_seg|].
  split; [|apply unsplice_run]. rewrite spliced_nxt. destruct splice_distinct as (Hax & _).
  by rewrite decide_False by done.
Qed.

End splice.
(** ** Lifting an operation *)

Lemma infos_lookup h h' p : infos h = infos h' -> info <$> h !! p = info <$> h' !! p.
Proof. intros E. apply (f_equal (lookup p)) in E. unfold infos in E. by rewrite !list_lookup_fmap in E. Qed.

Lemma infos_length h h' : infos h = infos h' -> length h = length h'.
Proof. intros E. apply (f_equal length) in E. unfold infos in E. by rewrite !length_fmap in E. Qed.

Lemma lift_splice h n h1 :
  splice h n = Some h1 -> nxt h1 n <> None ->
  lift h n = (nd ← h1 !! n; m ← match_ nd; splice h1 m).
Proof.
  unfold splice at 1, lift. destruct (h !! n) as [nd|]; [|done]. cbn [mbind option_bind].
  destruct (set_next h (prev nd) (next nd)) as [h'|]; [|done]. cbn [mbind option_bind].
  destruct (h' !! n) as [nd'|] eqn:E; [|done]. cbn [mbind option_bind].
  destruct (next nd') as [y|] eqn:Ey.
  - intros ->. done.
  - intros [= ->] Hn. exfalso. apply Hn. unfold nxt. by rewrite E.
Qed.

Lemma unlift_unsplice h n h1 h2 m :
  (h !! n ≫= match_) = Some m -> unsplice h m = Some h1 -> unsplice h1 n = Some h2 -> nxt h2 n <> None ->
  unlift h n = Some h2.
Proof.
  intros Hm H1 H2 Hn. unfold unlift. destruct (h !! n) as [nd|]; [|done]. cbn in Hm |- *. rewrite Hm. cbn [mbind option_bind].
  unfold unsplice in H1. destruct (h !! m) as [md|]; [|done]. cbn [mbind option_bind] in H1 |- *.
  destruct (set_next h (prev md) (Some m)) as [h'|]; [|done]. cbn [mbind option_bind] in H1 |- *.
  destruct (h' !! m) as [md'|]; [|done]. cbn [mbind option_bind] in H1 |- *. rewrite H1. cbn [mbind option_bind].
  unfold unsplice in H2. destruct (h1 !! n) as [nd1|]; [|done]. cbn [mbind option_bind] in H2 |- *.
  destruct (set_next h1 (prev nd1) (Some n)) as [h1'|]; [|done]. cbn [mbind option_bind] in H2 |- *.
  destruct (h1' !! n) as [nd1'|] eqn:E; [|done]. cbn [mbind option_bind] in H2 |- *.
  destruct (next nd1') as [y|] eqn:Ey; [done|]. injection H2 as ->. exfalso. apply Hn. unfold nxt. by rewrite E.
Qed.

(** A call and its return leave the list, and come back exactly. *)
Lemma lift_spec h p A n B m C :
  seg h p (A ++ n :: B ++ m :: C) None -> NoDup (p :: A ++ n :: B ++ m :: C) ->
  Forall (fun y => y < length h)%nat (p :: A ++ n :: B ++ m :: C) -> (h !! n ≫= match_) = Some m ->
  exists h', lift h n = Some h' /\ infos h' = infos h /\ seg h' p (A ++ B ++ C) None /\ unlift h' n = Some h.
Proof.
  intros Hs Hnd Hl Hm.
  destruct (splice_spec Hs Hnd Hl) as (h1 & E1 & Hi1 & Hs1 & Hn1 & U1).
  assert (p :: A ++ n :: B ++ m :: C ≡ₚ n :: p :: A ++ B ++ m :: C) as Hperm by solve_Permutation.
  assert (NoDup (p :: (A ++ B) ++ m :: C)) as Hnd1.
  { rewrite Hperm in Hnd. apply NoDup_cons in Hnd as [_ Hnd]. by rewrite <- app_assoc. }
  assert (Forall (fun y => y < length h1)%nat (p :: (A ++ B) ++ m :: C)) as Hl1.
  { rewrite Hperm in Hl. apply Forall_cons in Hl as [_ Hl]. rewrite <- app_assoc. by rewrite (infos_length _ _ Hi1). }
  rewrite app_assoc in Hs1.
  destruct (splice_spec Hs1 Hnd1 Hl1) as (h2 & E2 & Hi2 & Hs2 & _ & U2).
  assert (nxt h n <> None) as Hnn.
  { apply seg_app in Hs as (_ & _ & Hs). destruct B; cbn in Hs; by destruct Hs as [-> _]. }
  assert (forall h', infos h' = infos h -> (h' !! n ≫= match_) = Some m) as Hmatch.
  { intros h' E%(infos_lookup _ _ n). destruct (h' !! n), (h !! n); try done. cbn in *.
    apply (inj Some) in E. apply (f_equal match_) in E. cbn in E. by rewrite E. }
  exists h2. split_and!.
  - rewrite (lift_splice _ _ _ E1) by by rewrite Hn1.
    specialize (Hmatch h1 Hi1). destruct (h1 !! n) as [nd|]; [|done]. cbn in Hmatch |- *. by rewrite Hmatch.
  - by rewrite Hi2.
  - by rewrite app_assoc.
  - eapply unlift_unsplice; [apply Hmatch; by rewrite Hi2|exact U2|exact U1|done].
Qed.
(** ** Building the list *)

Section sort.
Context {A : Type} (key : A -> Z).

Lemma insertBy_perm x l : insertBy key x l ≡ₚ x :: l.
Proof.
  induction l as [|y l IH]; cbn [insertBy]; [done|]. case_decide; [done|]. rewrite IH. apply perm_swap.
Qed.

Lemma sortBy_perm l : sortBy key l ≡ₚ l.
Proof. induction l as [|x l IH]; [done|]. unfold sortBy in *. cbn [foldr]. by rewrite insertBy_perm, IH. Qed.

Lemma insertBy_sorted x l :
  StronglySorted (fun a b => key a <= key b) l -> StronglySorted (fun a b => key a <= key b) (insertBy key x l).
Proof.
  induction l as [|y l IH]; cbn [insertBy]; intros Hs; [by repeat constructor|].
  apply StronglySorted_inv in Hs as [Hs Hy]. case_decide.
  - constructor; [by constructor|]. constructor; [done|]. eapply Forall_impl; [exact Hy|]. cbn. lia.
  - constructor; [by apply IH|]. rewrite insertBy_perm. constructor; [lia|done].
Qed.

Lemma sortBy_sorted l : StronglySorted (fun a b => key a <= key b) (sortBy key l).
Proof. induction l as [|x l IH]; [constructor|]. by apply insertBy_sorted. Qed.

End sort.

Lemma thread_frame es : forall h p,
  Forall (fun y => y < length h)%nat (p :: es) ->
  infos (thread h p es) = infos h
  /\ (forall y, y ∉ p :: es -> nxt (thread h p es) y = nxt h y)
  /\ (forall y, y ∉ es -> prv (thread h p es) y = prv h y).
Proof.
  induction es as [|e es IH]; intros h p Hl; cbn [thread]; [done|].
  apply Forall_cons in Hl as [Hp Hl]. pose proof Hl as [He _]%Forall_cons.
  set (h' := alter _ e _).
  assert (length h' = length h) as El by (unfold h'; by rewrite !length_alter).
  destruct (IH h' e) as (H1 & H2 & H3); [by rewrite El|]. split_and!.
  - rewrite H1. unfold h'. by rewrite infos_set_prev, infos_set_next.
  - intros y Hy. rewrite H2 by set_solver. unfold h'. rewrite nxt_set_prev, nxt_set_next by done.
    rewrite decide_False by set_solver. done.
  - intros y Hy. rewrite H3 by set_solver. unfold h'. rewrite prv_set_prev by by rewrite length_alter.
    rewrite decide_False by set_solver. apply prv_set_next.
Qed.

Lemma thread_seg es : forall h p,
  NoDup (p :: es) -> Forall (fun y => y < length h)%nat (p :: es) ->
  (forall y, y ∈ p :: es -> nxt h y = None) -> seg (thread h p es) p es None.
Proof.
  induction es as [|e es IH]; intros h p Hnd Hl Hn; cbn [thread seg]; [apply Hn; set_solver|].
  pose proof Hl as [Hp [He Hes]%Forall_cons]%Forall_cons.
  set (h' := alter _ e _).
  assert (length h' = length h) as El by (unfold h'; by rewrite !length_alter).
  assert (Forall (fun y => y < length h')%nat (e :: es)) as Hl' by (rewrite El; by constructor).
  destruct (thread_frame es h' e Hl') as (_ & H2 & H3).
  apply NoDup_cons in Hnd as [Hpe Hnd]. pose proof Hnd as [Hee _]%NoDup_cons. split_and!.
  - rewrite H2 by done. unfold h'. rewrite nxt_set_prev, nxt_set_next by done. by rewrite decide_True.
  - rewrite H3 by done. unfold h'. rewrite prv_set_prev by by rewrite length_alter. by rewrite decide_True.
  - apply IH; [done|done|]. intros y Hy. unfold h'. rewrite nxt_set_prev, nxt_set_next by done.
    rewrite decide_False by (intros ->; done). apply Hn. set_solver.
Qed.

Lemma newEvents_shift k ops :
  imap ((fun j => newEvents (k + j)) ∘ S) ops = imap (fun j => newEvents (S k + j)) ops.
Proof. apply imap_ext. intros j x _. unfold compose. by replace (k + S j)%nat with (S k + j)%nat by lia. Qed.

Lemma concat_newEvents ops k i op :
  ops !! i = Some op ->
  concat (imap (fun j => newEvents (k + j)) ops) !! (2 * i)%nat = newEvents (k + i) op !! 0%nat
  /\ concat (imap (fun j => newEvents (k + j)) ops) !! (2 * i + 1)%nat = newEvents (k + i) op !! 1%nat.
Proof.
  revert k i. induction ops as [|o ops IH]; intros k i Hi; [done|]. cbn [imap].
  rewrite concat_cons. destruct i as [|i].
  - injection Hi as ->. done.
  - cbn in Hi. destruct (IH (S k) i Hi) as [H1 H2].
    replace (2 * S i)%nat with (2 + 2 * i)%nat by lia. replace (2 + 2 * i + 1)%nat with (2 + (2 * i + 1))%nat by lia.
    replace (k + S i)%nat with (S k + i)%nat by lia. rewrite <- H1, <- H2.
    rewrite !lookup_app_r by (cbn; lia). cbn [length newEvents].
    rewrite newEvents_shift. split; f_equal; lia.
Qed.

Section built.
Context (ops : list Op).

Lemma length_allocEvents : length (allocEvents ops) = (2 * length ops + 1)%nat.
Proof.
  unfold allocEvents. cbn [length]. change (imap newEvents ops) with (imap (fun j => newEvents (0 + j)) ops).
  assert (forall k, length (concat (imap (fun j => newEvents (k + j)) ops)) = (2 * length ops)%nat) as H.
  { induction ops as [|o l IH]; intros k; [done|]. cbn [imap]. rewrite concat_cons, length_app.
    rewrite newEvents_shift, IH. cbn. lia. }
  rewrite H. lia.
Qed.

Lemma alloc_nodes i op :
  ops !! i = Some op ->
  allocEvents ops !! callOf i = Some (MkNode entryCall i (Call op) op (Some (returnOf i)) None None)
  /\ allocEvents ops !! returnOf i = Some (MkNode entryReturn i (Return op) noOp None None None).
Proof.
  intros Hi. destruct (concat_newEvents ops 0 i op Hi) as [H1 H2]. unfold allocEvents.
  change (imap newEvents ops) with (imap (fun j => newEvents (0 + j)) ops). split.
  - replace (callOf i) with (S (2 * i)) by (unfold callOf; lia). exact H1.
  - replace (returnOf i) with (S (2 * i + 1)) by (unfold returnOf; lia). exact H2.
Qed.

Lemma sortedEvents_perm : sortedEvents ops ≡ₚ seq 1 (2 * length ops).
Proof. apply sortBy_perm. Qed.

Lemma sortedEvents_nodup : NoDup (head :: sortedEvents ops).
Proof.
  rewrite sortedEvents_perm. apply NoDup_cons. split; [|apply NoDup_seq].
  intros [? _]%elem_of_seq. unfold head in *. lia.
Qed.

Lemma alloc_no_links y : nxt (allocEvents ops) y = None.
Proof.
  unfold nxt. destruct (allocEvents ops !! y) as [n|] eqn:E; [|done]. cbn.
  unfold allocEvents in E. destruct y as [|y]; [by injection E as <-|]. cbn in E.
  apply list_elem_of_lookup_2 in E. apply list_elem_of_In, in_concat in E as (l & Hl & Hn).
  apply list_elem_of_In, elem_of_lookup_imap in Hl as (i & op & -> & _). cbn in Hn. by destruct Hn as [<-|[<-|[]]].
Qed.

Lemma built_list :
  seg (buildEventList ops) head (sortedEvents ops) None
  /\ infos (buildEventList ops) = infos (allocEvents ops).
Proof.
  assert (Forall (fun y => y < length (allocEvents ops))%nat (head :: sortedEvents ops)) as Hl.
  { rewrite length_allocEvents. rewrite sortedEvents_perm. constructor; [unfold head; lia|].
    apply Forall_seq. intros j Hj. lia. }
  split.
  - apply thread_seg; [apply sortedEvents_nodup|done|]. intros; apply alloc_no_links.
  - by apply thread_frame.
Qed.

End built.


End eventlist.
