(* ===== verification/LincheckSearch.v ===== *)
(** * The search of the checker (internal/lincheck/linearize.go)

    [linearizableRegister] terminates and decides whether a history of one
    register is linearizable: the stack, the cursor, the bit set and the cache
    of the search against an inductive definition of "the rest of the history
    can be linearized from here". *)

From Stdlib Require Import ZArith Lia.
From Stdlib Require Import Strings.Byte.
From stdpp Require Import base list gmap sorting.
From S2P Require Import Prelude.
From S2P Require Import Lincheck.
From S2P Require Import LincheckList.

#[local] Open Scope Z_scope.

Module lsearch.
Import lincheck eventlist.

(** ** Bit sets *)

Section bitset.
Context (n : nat).

(** The bits of [b] are the members of [S]. *)
Definition rep (b : bitset) (S : gset nat) : Prop :=
  length b = ((n + 63) / 64)%nat
  /\ forall j w, b !! j = Some w ->
       forall k : nat, Z.testbit w (Z.of_nat k) = bool_decide (k < 64 /\ (64 * j + k)%nat ∈ S)%nat.

Lemma rep_new : rep (newBitset n) ∅.
Proof.
  split; [apply length_replicate|]. intros j w [-> _]%lookup_replicate k. rewrite Z.bits_0.
  symmetry. apply bool_decide_eq_false_2. set_solver.
Qed.

Lemma word_index i : (i < n)%nat -> (i / 64 < (n + 63) / 64)%nat.
Proof.
  intros Hi. pose proof (Nat.div_mod i 64). pose proof (Nat.mod_upper_bound i 64).
  pose proof (Nat.div_mod (n + 63) 64). pose proof (Nat.mod_upper_bound (n + 63) 64). lia.
Qed.

Lemma bit_index i j k : (k < 64)%nat -> ((64 * j + k)%nat = i <-> j = (i / 64)%nat /\ k = (i mod 64)%nat).
Proof.
  intros Hk. pose proof (Nat.div_mod i 64). pose proof (Nat.mod_upper_bound i 64). split; [|lia].
  intros <-. assert (j = (64 * j + k) / 64)%nat as <-; [|split; [done|]].
  - apply (Nat.div_unique _ 64 _ k); lia.
  - apply (Nat.mod_unique _ 64 j); lia.
Qed.

Lemma one_bit (r k : nat) : Z.testbit (Z.shiftl 1 (Z.of_nat r)) (Z.of_nat k) = bool_decide (r = k).
Proof. rewrite Z.shiftl_1_l, Z.pow2_bits_eqb by lia. case_bool_decide; [apply Z.eqb_eq|apply Z.eqb_neq]; lia. Qed.

(** Changing the bit of [i]. *)
Lemma rep_update b S S' i (f : Z -> Z) :
  rep b S -> (i < n)%nat ->
  (forall w k, Z.testbit (f w) (Z.of_nat k)
     = if decide (k = i mod 64)%nat then bool_decide (i ∈ S') else Z.testbit w (Z.of_nat k)) ->
  (forall x, x <> i -> x ∈ S <-> x ∈ S') ->
  exists w, b !! (i / 64)%nat = Some w /\ rep (<[(i / 64)%nat := f w]> b) S'.
Proof.
  intros [Hl Hb] Hi Hf HS. destruct (lookup_lt_is_Some_2 b (i / 64)%nat) as [w Hw]; [rewrite Hl; by apply word_index|].
  exists w. split; [done|]. split; [by rewrite length_insert|]. intros j w' Hj k.
  pose proof (Nat.mod_upper_bound i 64 ltac:(lia)) as Hm.
  apply list_lookup_insert_Some in Hj as [(<- & <- & _)|[Hne Hj]].
  - rewrite Hf. destruct (decide (k = (i mod 64)%nat)) as [Hk|Hk].
    + apply bool_decide_ext. subst k. assert (64 * (i / 64) + i mod 64 = i)%nat as -> by (apply bit_index; lia). tauto.
    + rewrite (Hb _ _ Hw). apply bool_decide_ext. split; intros [? Hin]; (split; [done|]); apply HS;
        (done || (intros E; apply bit_index in E; lia)).
  - rewrite (Hb _ _ Hj). apply bool_decide_ext. split; intros [? Hin]; (split; [done|]); apply HS;
      (done || (intros E; apply bit_index in E; lia)).
Qed.

Lemma rep_set b S i : rep b S -> (i < n)%nat -> exists b', bs_set b i = Some b' /\ rep b' ({[i]} ∪ S).
Proof.
  intros Hr Hi. destruct (rep_update b S ({[i]} ∪ S) i (fun w => Z.lor w (Z.shiftl 1 (Z.of_nat (i mod 64)))) Hr Hi)
    as (w & Hw & Hr').
  - intros w k. rewrite Z.lor_spec, one_bit. destruct (decide (k = (i mod 64)%nat)) as [H|H].
    + rewrite (bool_decide_eq_true_2 (_ = _)) by done. rewrite orb_true_r. symmetry. apply bool_decide_eq_true_2. set_solver.
    + rewrite (bool_decide_eq_false_2 (_ = _)) by congruence. apply orb_false_r.
  - set_solver.
  - unfold bs_set. rewrite Hw. eexists. split; [done|exact Hr'].
Qed.

Lemma rep_clear b S i :
  rep b ({[i]} ∪ S) -> (i < n)%nat -> i ∉ S -> exists b', bs_clear b i = Some b' /\ rep b' S.
Proof.
  intros Hr Hi Hn. destruct (rep_update b _ S i (fun w => Z.ldiff w (Z.shiftl 1 (Z.of_nat (i mod 64)))) Hr Hi)
    as (w & Hw & Hr').
  - intros w k. rewrite Z.ldiff_spec, one_bit. destruct (decide (k = (i mod 64)%nat)) as [H|H].
    + rewrite (bool_decide_eq_true_2 (_ = _)) by done. rewrite andb_false_r. symmetry. by apply bool_decide_eq_false_2.
    + rewrite (bool_decide_eq_false_2 (_ = _)) by congruence. apply andb_true_r.
  - set_solver.
  - unfold bs_clear. rewrite Hw. eexists. split; [done|exact Hr'].
Qed.

Definition bounded (S : gset nat) : Prop := forall i, i ∈ S -> (i < n)%nat.

Lemma rep_eq b b' S S' : bounded S -> bounded S' -> rep b S -> rep b' S' -> b = b' <-> S = S'.
Proof.
  intros HS HS' [Hl Hb] [Hl' Hb']. split.
  - intros <-. apply set_eq. intros i.
    assert (forall T, rep b T -> bounded T -> i ∈ T <-> ((i < n)%nat /\ exists w, b !! (i / 64)%nat = Some w
      /\ Z.testbit w (Z.of_nat (i mod 64)) = true)) as H.
    { intros T [_ HbT] HT. pose proof (Nat.mod_upper_bound i 64 ltac:(lia)) as Hm.
      assert (64 * (i / 64) + i mod 64 = i)%nat as Ei by (apply bit_index; lia). split.
      - intros Hi. specialize (HT i Hi) as Hin. split; [done|].
        destruct (lookup_lt_is_Some_2 b (i / 64)%nat) as [w Hw]; [rewrite Hl; by apply word_index|].
        exists w. split; [done|]. rewrite (HbT _ _ Hw). apply bool_decide_eq_true_2. rewrite Ei. auto.
      - intros (_ & w & Hw & Ht). rewrite (HbT _ _ Hw) in Ht. apply bool_decide_eq_true_1 in Ht.
        rewrite Ei in Ht. by destruct Ht. }
    rewrite (H S), (H S'); done.
  - intros <-. apply list_eq_same_length with ((n + 63) / 64)%nat; [done|done|]. intros j x y _ Hx Hy.
    apply Z.bits_inj'. intros k Hk. rewrite <- (Z2Nat.id k) by lia. by rewrite (Hb _ _ Hx), (Hb' _ _ Hy).
Qed.

End bitset.

(** ** The cache *)

Lemma bs_equal_eq b o : bs_equal b o = true <-> b = o.
Proof.
  revert o. induction b as [|x b IH]; intros [|y o]; cbn [bs_equal]; try done.
  case_decide; [|split; congruence]. rewrite IH. split; congruence.
Qed.

Lemma cacheHas_spec c b s :
  cacheHas c b s = true <-> MkEntry b s ∈ default [] (c !! hash b).
Proof.
  unfold cacheHas. rewrite existsb_exists. split.
  - intros ([b' s'] & Hin & [Hs Hb]%andb_true_iff). apply bool_decide_eq_true_1 in Hs. apply bs_equal_eq in Hb.
    cbn in *. subst. by apply list_elem_of_In.
  - intros H. exists (MkEntry b s). split; [by apply list_elem_of_In|].
    rewrite bool_decide_eq_true_2 by done. by apply bs_equal_eq.
Qed.

Lemma cacheHas_add c b s b' s' :
  cacheHas (cacheAdd c b s) b' s' = true <-> cacheHas c b' s' = true \/ (b' = b /\ s' = s).
Proof.
  rewrite !cacheHas_spec. unfold cacheAdd. destruct (decide (hash b' = hash b)) as [Hh|Hh].
  - rewrite Hh, lookup_insert_eq. change (default [] (Some ?x)) with x.
    rewrite elem_of_app, list_elem_of_singleton. split; [|naive_solver]. intros [?|[= -> ->]]; auto.
  - rewrite lookup_insert_ne by done. split; [auto|]. intros [?|[-> _]]; done.
Qed.
(** ** What is left to linearize *)

Section history.
Context (ops : list Op).

Definition opAt (i : nat) : Op := default noOp (ops !! i).
Definition size_ : nat := length ops.

(** The operations outside [S] can be linearized from [st]: place one that no
    other pending operation had to precede, and go on. *)
Inductive lin : gset nat -> regState -> Prop :=
| lin_done S st : (forall i, (i < size_)%nat -> i ∈ S) -> lin S st
| lin_step S st i st' :
    (i < size_)%nat -> i ∉ S ->
    (forall j, (j < size_)%nat -> j ∉ S -> Call (opAt i) <= Return (opAt j)) ->
    stepRegister st (opAt i) = (st', true) -> lin ({[i]} ∪ S) st' -> lin S st.

(** Ticks come from one counter: an operation returns after its call, and no
    operation returns at the tick of a call. *)
Definition ticks_ok : Prop := forall i j, (i < size_)%nat -> (j < size_)%nat ->
  Call (opAt i) < Return (opAt i) /\ Call (opAt i) <> Return (opAt j).

(** ** The events outside a set *)

Definition idOf (p : ptr) : nat := Nat.div2 (p - 1).

Lemma idOf_call i : idOf (callOf i) = i.
Proof. unfold idOf, callOf. replace (2 * i + 1 - 1)%nat with (2 * i)%nat by lia. apply Nat.div2_double. Qed.
Lemma idOf_return i : idOf (returnOf i) = i.
Proof. unfold idOf, returnOf. replace (2 * i + 2 - 1)%nat with (S (2 * i)) by lia. apply Nat.div2_succ_double. Qed.

Lemma event_cases p : p ∈ sortedEvents ops -> exists i, (i < size_)%nat /\ (p = callOf i \/ p = returnOf i).
Proof.
  rewrite sortedEvents_perm. intros [H1 H2]%elem_of_seq. unfold callOf, returnOf, size_.
  destruct (Nat.Even_or_Odd (p - 1)) as [[k Hk]|[k Hk]]; exists k; lia.
Qed.

Lemma call_event i : (i < size_)%nat -> callOf i ∈ sortedEvents ops.
Proof. intros H. rewrite sortedEvents_perm. apply elem_of_seq. unfold callOf, size_ in *. lia. Qed.
Lemma return_event i : (i < size_)%nat -> returnOf i ∈ sortedEvents ops.
Proof. intros H. rewrite sortedEvents_perm. apply elem_of_seq. unfold returnOf, size_ in *. lia. Qed.

Definition eventTick (p : ptr) : Z := tickOf (allocEvents ops) p.

Lemma call_tick i : (i < size_)%nat -> eventTick (callOf i) = Call (opAt i).
Proof.
  intros [op Hi]%lookup_lt_is_Some_2. unfold eventTick, tickOf, opAt. rewrite Hi.
  by rewrite (proj1 (alloc_nodes ops i op Hi)).
Qed.
Lemma return_tick i : (i < size_)%nat -> eventTick (returnOf i) = Return (opAt i).
Proof.
  intros [op Hi]%lookup_lt_is_Some_2. unfold eventTick, tickOf, opAt. rewrite Hi.
  by rewrite (proj2 (alloc_nodes ops i op Hi)).
Qed.

Definition evs (S : gset nat) : list ptr := filter (fun p => idOf p ∉ S) (sortedEvents ops).

Lemma elem_of_evs S p : p ∈ evs S <-> idOf p ∉ S /\ p ∈ sortedEvents ops.
Proof. unfold evs. by rewrite list_elem_of_filter. Qed.

Lemma evs_nodup S : NoDup (head :: evs S).
Proof.
  pose proof (sortedEvents_nodup ops) as [H1 H2]%NoDup_cons. apply NoDup_cons. split.
  - rewrite elem_of_evs. tauto.
  - by apply NoDup_filter.
Qed.

Lemma sorted_filter {A} (R : A -> A -> Prop) (P : A -> Prop) `{forall x, Decision (P x)} l :
  StronglySorted R l -> StronglySorted R (filter P l).
Proof.
  induction 1 as [|x l Hs IH Hx]; [constructor|]. rewrite filter_cons. case_decide; [|done].
  constructor; [done|]. apply Forall_forall. intros y [_ Hy]%list_elem_of_filter. rewrite Forall_forall in Hx. auto.
Qed.

Lemma filter_same {A} (P : A -> Prop) `{forall x, Decision (P x)} (l : list A) :
  (forall x, x ∈ l -> P x) -> filter P l = l.
Proof.
  induction l as [|x l IH]; intros Hl; [done|]. rewrite filter_cons_True by (apply Hl; set_solver).
  f_equal. apply IH. intros y Hy. apply Hl. set_solver.
Qed.

Lemma evs_order S A p B q : evs S = A ++ p :: B -> q ∈ B -> eventTick p <= eventTick q.
Proof.
  intros E Hq. pose proof (sorted_filter _ (fun p => idOf p ∉ S) _ (sortBy_sorted (tickOf (allocEvents ops))
    (seq 1 (2 * length ops)))) as Hs.
  change (filter _ _) with (evs S) in Hs. rewrite E in Hs.
  apply StronglySorted_app in Hs as (_ & _ & Hs). apply StronglySorted_inv in Hs as [_ Hs].
  rewrite Forall_forall in Hs. by apply Hs.
Qed.

Context (Hticks : ticks_ok).

(** The return of a pending call comes after it. *)
Lemma evs_split S i :
  (i < size_)%nat -> i ∉ S -> exists A B C, evs S = A ++ callOf i :: B ++ returnOf i :: C.
Proof.
  intros Hi HS. assert (callOf i ∈ evs S) as Hc by (rewrite elem_of_evs, idOf_call; auto using call_event).
  assert (returnOf i ∈ evs S) as Hr by (rewrite elem_of_evs, idOf_return; auto using return_event).
  apply list_elem_of_split in Hc as (A & D & E). rewrite E in Hr.
  apply elem_of_app in Hr as [Hr|[Hr|Hr]%elem_of_cons].
  - exfalso. apply list_elem_of_split in Hr as (A1 & A2 & ->). rewrite <- app_assoc in E. cbn in E.
    assert (eventTick (returnOf i) <= eventTick (callOf i)) as H by (eapply evs_order; [exact E|set_solver]).
    rewrite call_tick, return_tick in H by done. destruct (Hticks i i Hi Hi). lia.
  - unfold callOf, returnOf in Hr. lia.
  - apply list_elem_of_split in Hr as (B & C & ->). by exists A, B, C.
Qed.

Lemma evs_remove S i A B C :
  evs S = A ++ callOf i :: B ++ returnOf i :: C -> evs ({[i]} ∪ S) = A ++ B ++ C.
Proof.
  intros E. pose proof (evs_nodup S) as [_ Hnd]%NoDup_cons. rewrite E in Hnd.
  assert (evs ({[i]} ∪ S) = filter (fun p => idOf p <> i) (evs S)) as ->.
  { unfold evs. rewrite list_filter_filter. apply list_filter_iff. intros p. rewrite elem_of_union, elem_of_singleton. tauto. }
  assert (forall l : list ptr, (forall p, p ∈ l -> p ∈ evs S) -> callOf i ∉ l -> returnOf i ∉ l ->
            filter (fun p => idOf p <> i) l = l) as Hl.
  { intros l Hin H1 H2. apply filter_same. intros p Hp <-.
    specialize (Hin p Hp). apply elem_of_evs in Hin as [_ (k & _ & [-> | ->])%event_cases];
      rewrite ?idOf_call, ?idOf_return in *; done. }
  assert (callOf i <> returnOf i) as Hne by (unfold callOf, returnOf; lia).
  rewrite E, filter_app, filter_cons_False, filter_app, filter_cons_False
    by (rewrite ?idOf_call, ?idOf_return; tauto).
  rewrite !Hl; [done|..]; rewrite ?E; try (intros p Hp; set_solver).
  all: intros Hin; apply list_elem_of_split in Hin as (X & Y & ->);
    rewrite ?NoDup_app, ?NoDup_cons, ?NoDup_app, ?NoDup_cons in Hnd; set_solver.
Qed.
(** ** Candidates *)

Definition calls_only (l : list ptr) : Prop := forall p, p ∈ l -> exists i, p = callOf i.

Lemma pending S A p B : evs S = A ++ p :: B -> idOf p ∉ S /\ p ∈ sortedEvents ops.
Proof. intros E. apply elem_of_evs. rewrite E. set_solver. Qed.

(** A call before every return can be linearized first. *)
Lemma candidate_minimal S i A B j :
  evs S = A ++ callOf i :: B -> calls_only A -> (i < size_)%nat -> (j < size_)%nat -> j ∉ S ->
  Call (opAt i) <= Return (opAt j).
Proof.
  intros E HA Hi Hj HS. rewrite <- call_tick, <- return_tick by done.
  assert (returnOf j ∈ evs S) as Hr by (rewrite elem_of_evs, idOf_return; auto using return_event).
  rewrite E in Hr. apply elem_of_app in Hr as [Hr|[Hr|Hr]%elem_of_cons].
  - apply HA in Hr as [k Hk]. unfold callOf, returnOf in Hk. lia.
  - unfold callOf, returnOf in Hr. lia.
  - by eapply evs_order.
Qed.

(** And nothing else can: the candidates are the calls before the first return. *)
Lemma candidate_complete S i j A B :
  evs S = A ++ returnOf j :: B -> (i < size_)%nat -> i ∉ S ->
  (forall k, (k < size_)%nat -> k ∉ S -> Call (opAt i) <= Return (opAt k)) -> callOf i ∈ A.
Proof.
  intros E Hi HS Hmin. pose proof (pending _ _ _ _ E) as [Hj (k & Hk & Ek)%event_cases].
  rewrite idOf_return in Hj.
  assert (k = j) as -> by (unfold callOf, returnOf in Ek; lia). clear Ek.
  assert (callOf i ∈ evs S) as Hc by (rewrite elem_of_evs, idOf_call; auto using call_event).
  rewrite E in Hc. apply elem_of_app in Hc as [Hc|[Hc|Hc]%elem_of_cons]; [done| |].
  - unfold callOf, returnOf in Hc. lia.
  - exfalso. pose proof (evs_order _ _ _ _ _ E Hc) as H. rewrite call_tick, return_tick in H by done.
    specialize (Hmin j Hk Hj). destruct (Hticks i j Hi Hk). lia.
Qed.

(** Pending calls alone do not make a list: their returns follow. *)
Lemma evs_has_return S : calls_only (evs S) -> evs S = [].
Proof.
  intros H. destruct (evs S) as [|p l] eqn:E; [done|]. exfalso.
  assert (p ∈ evs S) as [HS (i & Hi & Hp)%event_cases]%elem_of_evs by (rewrite E; set_solver).
  assert (i ∉ S) as HiS by (destruct Hp as [-> | ->]; by rewrite ?idOf_call, ?idOf_return in HS).
  assert (returnOf i ∈ evs S) as Hr by (rewrite elem_of_evs, idOf_return; auto using return_event).
  rewrite E in Hr. apply H in Hr as [k Hk]. unfold callOf, returnOf in Hk. lia.
Qed.

Lemma evs_nil S : evs S = [] <-> forall i, (i < size_)%nat -> i ∈ S.
Proof.
  split.
  - intros E i Hi. destruct (decide (i ∈ S)) as [|HS]; [done|]. exfalso.
    destruct (evs_split S i Hi HS) as (A & B & C & E'). rewrite E in E'. by destruct A.
  - intros H. destruct (evs S) as [|p l] eqn:E; [done|]. exfalso.
    assert (p ∈ evs S) as [HS (i & Hi & Hp)%event_cases]%elem_of_evs by (rewrite E; set_solver).
    destruct Hp as [-> | ->]; rewrite ?idOf_call, ?idOf_return in HS; by apply HS, H.
Qed.

(** ** The stack *)

(** The calls before the cursor have been tried in vain. *)
Definition tried (S : gset nat) (st : regState) (l : list ptr) : Prop := forall p, p ∈ l ->
  exists i, p = callOf i /\ forall st', stepRegister st (opAt i) = (st', true) -> ~ lin ({[i]} ∪ S) st'.

Lemma tried_calls S st l : tried S st l -> calls_only l.
Proof. intros H p Hp. destruct (H p Hp) as (i & -> & _). by exists i. Qed.

Lemma tried_snoc S st l i :
  tried S st l -> (forall st', stepRegister st (opAt i) = (st', true) -> ~ lin ({[i]} ∪ S) st') ->
  tried S st (l ++ [callOf i]).
Proof. intros H Hi p [Hp| ->%list_elem_of_singleton]%elem_of_app; [by apply H|by exists i]. Qed.

(** A return under the cursor is a dead end. *)
Lemma dead_end S st A j B :
  evs S = A ++ returnOf j :: B -> tried S st A -> ~ lin S st.
Proof.
  intros E HA Hl. pose proof (pending _ _ _ _ E) as [Hj (k & Hk & Ek)%event_cases].
  rewrite idOf_return in Hj. assert (k = j) as -> by (unfold callOf, returnOf in Ek; lia).
  destruct Hl as [S st Hall|S st i st' Hi HS Hmin Hstep Hl]; [by apply Hj, Hall|].
  destruct (HA (callOf i)) as (i' & Ei & Hdead); [by eapply candidate_complete|].
  assert (i' = i) as -> by (unfold callOf in Ei; lia). by apply (Hdead st').
Qed.

(** The choices on the stack: each was the next untried candidate, and was
    lifted out of the heap it left behind. *)
Inductive stack : list frame -> heap -> gset nat -> regState -> Prop :=
| stack_nil : stack [] (buildEventList ops) ∅ noReg
| stack_push calls h S st i A B st' h' :
    stack calls h S st -> evs S = A ++ callOf i :: B -> (i < size_)%nat -> i ∉ S -> tried S st A ->
    stepRegister st (opAt i) = (st', true) -> lift h (callOf i) = Some h' ->
    stack (MkFrame (callOf i) st :: calls) h' ({[i]} ∪ S) st'.

Lemma heap_node h p n :
  infos h = infos (allocEvents ops) -> allocEvents ops !! p = Some n ->
  exists e, h !! p = Some e /\ n_kind e = n_kind n /\ n_id e = n_id n /\ n_op e = n_op n /\ match_ e = match_ n
    /\ next e = nxt h p.
Proof.
  intros Hi Hn. pose proof (infos_lookup _ _ p Hi) as E. rewrite Hn in E.
  unfold nxt. destruct (h !! p) as [e|]; [|done]. cbn in E. apply (inj Some) in E. exists e. split; [done|].
  destruct e, n. cbn in *. injection E. intros. by subst.
Qed.

Lemma call_node h i :
  infos h = infos (allocEvents ops) -> (i < size_)%nat ->
  exists e, h !! callOf i = Some e /\ n_kind e = entryCall /\ n_id e = i /\ n_op e = opAt i
    /\ match_ e = Some (returnOf i) /\ next e = nxt h (callOf i).
Proof.
  intros Hh [op Hi]%lookup_lt_is_Some_2. unfold opAt. rewrite Hi.
  destruct (heap_node h _ _ Hh (proj1 (alloc_nodes ops i op Hi))) as (e & He & H). by exists e.
Qed.

Lemma return_node h i :
  infos h = infos (allocEvents ops) -> (i < size_)%nat -> exists e, h !! returnOf i = Some e /\ n_kind e = entryReturn.
Proof.
  intros Hh [op Hi]%lookup_lt_is_Some_2.
  destruct (heap_node h _ _ Hh (proj2 (alloc_nodes ops i op Hi))) as (e & He & Hk & _). by exists e.
Qed.

(** The heap of a list without the operations in [S]. *)
Definition holds (h : heap) (S : gset nat) : Prop :=
  infos h = infos (allocEvents ops) /\ seg h head (evs S) None.

Lemma lift_pending h S i :
  holds h S -> (i < size_)%nat -> i ∉ S ->
  exists h', lift h (callOf i) = Some h' /\ holds h' ({[i]} ∪ S) /\ unlift h' (callOf i) = Some h.
Proof.
  intros [Hi Hs] Hlt HS. destruct (evs_split S i Hlt HS) as (A & B & C & E). rewrite E in Hs.
  destruct (call_node h i Hi Hlt) as (e & He & _ & _ & _ & Hm & _).
  destruct (lift_spec h head A (callOf i) B (returnOf i) C Hs) as (h' & El & Hi' & Hs' & Hu).
  - rewrite <- E. apply evs_nodup.
  - rewrite <- E. rewrite (infos_length _ _ Hi), length_allocEvents. constructor; [unfold head; lia|].
    apply Forall_forall. intros p [_ (k & Hk & Hp)%event_cases]%elem_of_evs.
    unfold callOf, returnOf, size_ in *. lia.
  - by rewrite He.
  - exists h'. split; [done|]. split; [split; [by rewrite Hi'|by rewrite (evs_remove S i A B C)]|done].
Qed.

Lemma stack_heap calls h S st : stack calls h S st -> holds h S.
Proof.
  induction 1 as [|calls h S st i A B st' h' _ IH E Hlt HS _ _ Hl].
  - destruct (built_list ops) as [H1 H2]. split; [done|]. unfold evs. rewrite filter_same; [done|set_solver].
  - destruct (lift_pending h S i IH Hlt HS) as (h2 & El & Hh & _). rewrite Hl in El. by injection El as <-.
Qed.

Lemma stack_sound calls h S st : stack calls h S st -> lin S st -> lin ∅ noReg.
Proof.
  induction 1 as [|calls h S st i A B st' h' _ IH E Hlt HS HA Hstep _]; [done|]. intros Hl. apply IH.
  eapply lin_step; try done. intros j Hj HjS. by eapply candidate_minimal; [..|apply (tried_calls _ _ _ HA)| | |].
Qed.

(** ** The frontiers explored so far *)

(** The set and state after each choice on the stack. *)
Fixpoint frontiers (calls : list frame) (S : gset nat) (st : regState) : list (gset nat * regState) :=
  match calls with
  | [] => []
  | MkFrame p st0 :: calls' => (S, st) :: frontiers calls' (S ∖ {[idOf p]}) st0
  end.

Lemma pushed_set (i : nat) (S : gset nat) : i ∉ S -> ({[i]} ∪ S) ∖ {[i]} = S.
Proof. set_solver. Qed.

Lemma frontiers_sub calls h S st T s : stack calls h S st -> (T, s) ∈ frontiers calls S st -> T ⊆ S.
Proof.
  induction 1 as [|calls h S st i A B st' h' _ IH E Hlt HS _ _ _]; cbn [frontiers]; [set_solver|].
  rewrite idOf_call, pushed_set by done. intros [[= -> ->]|Hin]%elem_of_cons; [done|]. specialize (IH Hin). set_solver.
Qed.

(** All the pairs there are. *)
Fixpoint subsets (k : nat) : list (gset nat) :=
  match k with
  | O => [∅]
  | S k' => subsets k' ++ ((fun T => {[k']} ∪ T) <$> subsets k')
  end.

Lemma subsets_length k : length (subsets k) = (2 ^ k)%nat.
Proof. induction k as [|k IH]; [done|]. cbn [subsets Nat.pow]. rewrite length_app, length_fmap, IH. lia. Qed.

Lemma elem_of_subsets k (T : gset nat) : (forall i, i ∈ T -> (i < k)%nat) -> T ∈ subsets k.
Proof.
  revert T. induction k as [|k IH]; intros T HT; cbn [subsets].
  - apply list_elem_of_singleton. apply set_eq. intros i. split; [intros Hi%HT; lia|set_solver].
  - apply elem_of_app. destruct (decide (k ∈ T)) as [Hk|Hk].
    + right. apply list_elem_of_fmap. exists (T ∖ {[k]}). split.
      * apply set_eq. intros i. destruct (decide (i = k)); set_solver.
      * apply IH. intros i [Hi Hne]%elem_of_difference. specialize (HT i Hi). set_solver by lia.
    + left. apply IH. intros i Hi. specialize (HT i Hi). assert (i <> k) by congruence. lia.
Qed.

Definition states : list regState := noReg :: ((fun op => MkReg (Value op) true) <$> ops).
Definition universe : list (gset nat * regState) := list_prod (subsets size_) states.

Lemma elem_of_universe T s : (forall i, i ∈ T -> (i < size_)%nat) -> s ∈ states -> (T, s) ∈ universe.
Proof.
  intros HT Hs. apply list_elem_of_In, in_prod; apply list_elem_of_In; [by apply elem_of_subsets|done].
Qed.

Lemma universe_length : length universe = (2 ^ size_ * S size_)%nat.
Proof.
  unfold universe. rewrite length_prod, subsets_length. unfold states. cbn [length]. by rewrite length_fmap.
Qed.

Lemma step_states st i st' : (i < size_)%nat -> st ∈ states -> stepRegister st (opAt i) = (st', true) -> st' ∈ states.
Proof.
  intros [op Hi]%lookup_lt_is_Some_2 Hst. unfold opAt. rewrite Hi. unfold stepRegister.
  change (default noOp (Some op)) with op.
  destruct (Kind op).
  - intros [= <-]. apply elem_of_cons. right. apply list_elem_of_fmap. exists op. split; [done|].
    by eapply list_elem_of_lookup_2.
  - repeat case_decide; naive_solver.
  - intros [= <-]. apply elem_of_cons. by left.
Qed.

Lemma stack_bounded calls h S st : stack calls h S st -> bounded size_ S /\ st ∈ states.
Proof.
  induction 1 as [|calls h S st i A B st' h' _ [IH1 IH2] E Hlt HS _ Hstep _].
  - split; [intros i; set_solver|]. apply elem_of_cons. by left.
  - split; [|by eapply step_states]. intros k [->%elem_of_singleton|Hk]%elem_of_union; auto.
Qed.

(** The cache against the list [K] of the pairs put into it: each is a dead end
    or still on the stack. *)
Record cached (c : cache) (K : list (gset nat * regState)) (calls : list frame) (S : gset nat) (st : regState) : Prop := {
  cached_has : forall b T s, rep size_ b T -> bounded size_ T -> cacheHas c b s = true <-> (T, s) ∈ K;
  cached_nodup : NoDup K;
  cached_sub : K ⊆ universe;
  cached_dead : forall T s, (T, s) ∈ K -> ~ lin T s \/ (T, s) ∈ frontiers calls S st
}.

Lemma cached_length c K calls S st : cached c K calls S st -> (length K <= 2 ^ size_ * Datatypes.S size_)%nat.
Proof.
  intros [_ Hnd Hsub _]. rewrite <- universe_length. by apply submseteq_length, NoDup_submseteq.
Qed.

(** A hit on a larger set is a dead end. *)
Lemma cached_hit c K calls h S st i b st' :
  cached c K calls S st -> stack calls h S st -> (i < size_)%nat -> i ∉ S ->
  rep size_ b ({[i]} ∪ S) -> cacheHas c b st' = true -> ~ lin ({[i]} ∪ S) st'.
Proof.
  intros Hc Hst Hi HS Hb Hhit. pose proof (stack_bounded _ _ _ _ Hst) as [Hbd _].
  apply (cached_has _ _ _ _ _ Hc _ ({[i]} ∪ S)) in Hhit; [|done|].
  - destruct (cached_dead _ _ _ _ _ Hc _ _ Hhit) as [|Hin]; [done|].
    apply (frontiers_sub _ _ _ _ _ _ Hst) in Hin. set_solver.
  - intros k [->%elem_of_singleton|Hk]%elem_of_union; auto.
Qed.

Lemma cached_push c K calls h S st i b st' :
  cached c K calls S st -> stack calls h S st -> (i < size_)%nat -> i ∉ S ->
  rep size_ b ({[i]} ∪ S) -> cacheHas c b st' = false -> st' ∈ states ->
  cached (cacheAdd c b st') (({[i]} ∪ S, st') :: K) (MkFrame (callOf i) st :: calls) ({[i]} ∪ S) st'.
Proof.
  intros Hc Hst Hi HS Hb Hmiss Hst'. pose proof (stack_bounded _ _ _ _ Hst) as [Hbd _].
  assert (bounded size_ ({[i]} ∪ S)) as Hbd' by (intros k [->%elem_of_singleton|Hk]%elem_of_union; auto).
  destruct Hc as [Hhas Hnd Hsub Hdead]. split.
  - intros b' T s Hb' HT. rewrite cacheHas_add, (Hhas b' T s) by done. rewrite elem_of_cons.
    rewrite (rep_eq size_ b' b T ({[i]} ∪ S)) by done. split; [intros [?|[-> ->]]; auto|]. intros [[= -> ->]|?]; auto.
  - apply NoDup_cons. split; [|done]. rewrite <- (Hhas b) by done. by rewrite Hmiss.
  - intros x [->|Hx]%elem_of_cons; [by apply elem_of_universe|auto].
  - intros T s. cbn [frontiers]. rewrite idOf_call, pushed_set by done.
    intros [[= -> ->]|Hin]%elem_of_cons; [right; set_solver|].
    destruct (Hdead T s Hin); [by left|right; set_solver].
Qed.

Lemma cached_pop c K calls S st i st' :
  cached c K (MkFrame (callOf i) st :: calls) ({[i]} ∪ S) st' -> i ∉ S -> ~ lin ({[i]} ∪ S) st' ->
  cached c K calls S st.
Proof.
  intros [Hhas Hnd Hsub Hdead] HS Hd. split; [done..|]. intros T s Hin. specialize (Hdead T s Hin).
  cbn [frontiers] in Hdead. rewrite idOf_call, pushed_set in Hdead by done.
  destruct Hdead as [|[[= -> ->]|]%elem_of_cons]; auto.
Qed.

(** ** The loop *)

Lemma seg_first h p l : seg h p l None -> nxt h p = list.head l.
Proof. destruct l as [|x l]; cbn; [done|by intros (? & _)]. Qed.

Lemma head_node h S : holds h S -> exists hd, h !! head = Some hd /\ next hd = list.head (evs S).
Proof.
  intros [Hi Hs]. apply seg_first in Hs. unfold nxt in Hs.
  destruct (lookup_lt_is_Some_2 h head) as [hd Hh].
  { rewrite (infos_length _ _ Hi), length_allocEvents. unfold head. lia. }
  rewrite Hh in Hs. by exists hd.
Qed.

Lemma seg_next h p A x D : seg h p (A ++ x :: D) None -> nxt h x = list.head D.
Proof. intros (_ & _ & H)%seg_app. by apply seg_first in H. Qed.

Lemma evs_length S : (length (evs S) <= 2 * size_)%nat.
Proof.
  etrans; [apply length_filter|]. rewrite sortedEvents_perm, length_seq. done.
Qed.

(** How many iterations may still come. *)
Definition budget (K : list (gset nat * regState)) (calls : list frame) (D : list ptr) : nat :=
  ((2 ^ size_ * Datatypes.S size_ - length K) * (2 * (2 * size_ + 1))
   + length calls * (2 * size_ + 1) + length D)%nat.

Lemma budget_push K x calls f D D' :
  (length (x :: K) <= 2 ^ size_ * Datatypes.S size_)%nat -> (length D' <= 2 * size_)%nat ->
  (budget (x :: K) (f :: calls) D' + length D < budget K calls D)%nat.
Proof.
  intros HK HD. unfold budget. cbn [length] in *.
  assert (exists u, 2 ^ size_ * Datatypes.S size_ = u + Datatypes.S (length K))%nat as [u ->]
    by (exists (2 ^ size_ * Datatypes.S size_ - Datatypes.S (length K))%nat; lia).
  replace (u + Datatypes.S (length K) - Datatypes.S (length K))%nat with u by lia.
  replace (u + Datatypes.S (length K) - length K)%nat with (u + 1)%nat by lia. nia.
Qed.

Lemma budget_pop K f calls D D' :
  (length D' <= 2 * size_)%nat -> (budget K calls D' + length D < budget K (f :: calls) D)%nat.
Proof. intros HD. unfold budget. cbn [length]. lia. Qed.

Definition decides (r : option bool) : Prop := exists v, r = Some v /\ (v = true <-> lin ∅ noReg).

Section step.
Context {fuel : nat}.
Context (IH : forall h b c calls st S K A D,
  stack calls h S st -> rep size_ b S -> cached c K calls S st -> evs S = A ++ D -> tried S st A ->
  (budget K calls D < fuel)%nat -> decides (search fuel h b c calls st (list.head D))).
Context {h : heap} {b : list Z} {c : cache} {calls : list frame} {st : regState} {S : gset nat}
  {K : list (gset nat * regState)} {A D : list ptr}.
Context (Hst : stack calls h S st) (Hb : rep size_ b S) (Hc : cached c K calls S st).
Context (HA : tried S st A).

(** The cursor at a call. *)
Lemma search_call i :
  evs S = A ++ callOf i :: D -> (i < size_)%nat -> i ∉ S ->
  (budget K calls (callOf i :: D) <= fuel)%nat ->
  decides (search (Datatypes.S fuel) h b c calls st (Some (callOf i))).
Proof.
  intros E Hi HS Hf. pose proof (stack_heap _ _ _ _ Hst) as [Hinfo Hseg].
  destruct (head_node h S (stack_heap _ _ _ _ Hst)) as (hd & Hhd & Hnext).
  destruct (call_node h i Hinfo Hi) as (e & He & Hk & Hid & Hop & _ & Hne).
  cbn [search]. rewrite Hhd. cbn [mbind option_bind]. rewrite Hnext, E.
  assert (exists x, list.head (A ++ callOf i :: D) = Some x) as [x ->] by (destruct A; by eexists).
  rewrite He. cbn [mbind option_bind]. rewrite Hk, Hop, Hid.
  assert (next e = list.head D) as Hadv by (rewrite Hne; eapply seg_next; by rewrite <- E).
  assert ((forall st', stepRegister st (opAt i) = (st', true) -> ~ lin ({[i]} ∪ S) st') ->
          decides (search fuel h b c calls st (next e))) as Hskip.
  { intros Hdead. rewrite Hadv. eapply (IH h b c calls st S K (A ++ [callOf i]) D); try done.
    - by rewrite E, <- app_assoc.
    - by apply tried_snoc.
    - unfold budget in *. cbn [length] in Hf. lia. }
  destruct (stepRegister st (opAt i)) as [st' ok] eqn:Hstep. destruct ok; cbn [negb].
  2:{ apply Hskip. intros st'' [=]. }
  destruct (rep_set size_ b S i Hb Hi) as (b' & Eb & Hb'). rewrite Eb. cbn [mbind option_bind].
  destruct (cacheHas c b' st') eqn:Hhit.
  { apply Hskip. intros st'' [= <-]. by eapply cached_hit. }
  destruct (lift_pending h S i (stack_heap _ _ _ _ Hst) Hi HS) as (h' & El & Hh' & _). rewrite El.
  cbn [mbind option_bind].
  destruct (head_node h' _ Hh') as (hd' & Hhd' & Hnext'). rewrite Hhd'. cbn [mbind option_bind]. rewrite Hnext'.
  pose proof (stack_bounded _ _ _ _ Hst) as [_ Hin].
  pose proof (cached_push _ _ _ _ _ _ i b' st' Hc Hst Hi HS Hb' Hhit (step_states _ _ _ Hi Hin Hstep)) as Hc'.
  eapply (IH h' b' _ _ st' ({[i]} ∪ S) _ [] (evs ({[i]} ∪ S))); [|done|exact Hc'|done|by intros p Hp%not_elem_of_nil|].
  - by eapply stack_push.
  - pose proof (budget_push K ({[i]} ∪ S, st') calls (MkFrame (callOf i) st) (callOf i :: D) _
      (cached_length _ _ _ _ _ Hc') (evs_length ({[i]} ∪ S))). cbn [length] in *. lia.
Qed.

(** The cursor at a return. *)
Lemma search_return j :
  evs S = A ++ returnOf j :: D -> (j < size_)%nat -> (budget K calls (returnOf j :: D) <= fuel)%nat ->
  decides (search (Datatypes.S fuel) h b c calls st (Some (returnOf j))).
Proof.
  intros E Hj Hf. pose proof (dead_end _ _ _ _ _ E HA) as Hdead.
  pose proof (stack_heap _ _ _ _ Hst) as [Hinfo Hseg].
  destruct (head_node h S (stack_heap _ _ _ _ Hst)) as (hd & Hhd & Hnext).
  destruct (return_node h j Hinfo Hj) as (e & He & Hk).
  cbn [search]. rewrite Hhd. cbn [mbind option_bind]. rewrite Hnext, E.
  assert (exists x, list.head (A ++ returnOf j :: D) = Some x) as [x ->] by (destruct A; by eexists).
  rewrite He. cbn [mbind option_bind]. rewrite Hk.
  destruct Hst as [|calls0 h0 S0 st0 i A0 B0 st' h' Hst0 E0 Hi HS HA0 Hstep Hl].
  { by exists false. }
  destruct (call_node h' i Hinfo Hi) as (ei & Hei & _ & Hid & _). rewrite Hei. cbn [mbind option_bind]. rewrite Hid.
  destruct (rep_clear size_ b S0 i Hb Hi HS) as (b' & -> & Hb'). cbn [mbind option_bind].
  destruct (lift_pending h0 S0 i (stack_heap _ _ _ _ Hst0) Hi HS) as (h2 & El & _ & Hu).
  rewrite Hl in El. injection El as <-. rewrite Hu. cbn [mbind option_bind].
  pose proof (stack_heap _ _ _ _ Hst0) as [Hinfo0 Hseg0].
  destruct (call_node h0 i Hinfo0 Hi) as (e0 & He0 & _ & _ & _ & _ & Hne). rewrite He0. cbn [mbind option_bind].
  assert (next e0 = list.head B0) as -> by (rewrite Hne; eapply seg_next; by rewrite <- E0).
  eapply (IH h0 b' c calls0 st0 S0 K (A0 ++ [callOf i]) B0); [done|done| | | |].
  - by eapply cached_pop.
  - by rewrite E0, <- app_assoc.
  - apply tried_snoc; [done|]. intros st'' E''. rewrite Hstep in E''. by injection E'' as <-.
  - assert (length B0 <= 2 * size_)%nat as HB.
    { pose proof (evs_length S0) as H. rewrite E0, length_app in H. cbn [length] in H. lia. }
    pose proof (budget_pop K (MkFrame (callOf i) st0) calls0 (returnOf j :: D) B0 HB). cbn [length] in *. lia.
Qed.

End step.

Lemma search_ok fuel : forall h b c calls st S K A D,
  stack calls h S st -> rep size_ b S -> cached c K calls S st -> evs S = A ++ D -> tried S st A ->
  (budget K calls D < fuel)%nat -> decides (search fuel h b c calls st (list.head D)).
Proof.
  induction fuel as [|fuel IH]; intros h b c calls st S K A D Hst Hb Hc E HA Hf; [lia|].
  destruct D as [|p D].
  - (* every pending operation has its return in the list, so nothing is left *)
    rewrite app_nil_r in E. assert (evs S = []) as Hnil.
    { apply evs_has_return. rewrite E. by eapply tried_calls. }
    destruct (head_node h S (stack_heap _ _ _ _ Hst)) as (hd & Hhd & Hnext).
    cbn [search]. rewrite Hhd. cbn [mbind option_bind]. rewrite Hnext, Hnil. cbn [list.head].
    exists true. split; [done|]. split; [|done]. intros _. eapply stack_sound; [exact Hst|].
    apply lin_done. by apply evs_nil.
  - pose proof (pending _ _ _ _ E) as [HS (i & Hi & Hp)%event_cases].
    destruct Hp as [-> | ->]; rewrite ?idOf_call, ?idOf_return in HS.
    + eapply search_call; try done. lia.
    + eapply search_return; try done. lia.
Qed.

(** The search decides whether the whole history can be linearized. *)
Lemma linearizableRegister_decides : decides (linearizableRegister ops).
Proof.
  unfold linearizableRegister. case_decide as Hn.
  { exists true. split; [done|]. split; [|done]. intros _. apply lin_done. unfold size_. lia. }
  assert (stack [] (buildEventList ops) ∅ noReg) as Hst by constructor.
  destruct (head_node _ _ (stack_heap _ _ _ _ Hst)) as (hd & -> & Hnext). cbn [mbind option_bind]. rewrite Hnext.
  eapply (search_ok _ _ _ _ _ _ _ [] [] (evs ∅)); [exact Hst|apply rep_new| |done|by intros p Hp%not_elem_of_nil|].
  - split; [|constructor|set_solver|set_solver]. intros b' T s _ _. rewrite cacheHas_spec, lookup_empty.
    change (default [] None) with (@nil cacheEntry). split; intros H; by apply not_elem_of_nil in H.
  - unfold budget, searchFuel. pose proof (evs_length ∅). fold size_. cbn [length]. lia.
Qed.


End history.


End lsearch.
