(* ===== verification/LincheckCheck.v ===== *)
(** * The verdict of the checker (internal/lincheck)

    Linearizability as the package comment defines it, for one register and for
    the whole store; [linearizableRegister] decides the first, [Check_] the
    second, which rests on the locality of linearizability. *)

From Stdlib Require Import ZArith Lia.
From Stdlib Require Import Strings.Byte.
From stdpp Require Import base functions list gmap sorting.
From S2P Require Import Prelude.
From S2P Require Import Lincheck.
From S2P Require Import LincheckList.
From S2P Require Import LincheckSearch.

#[local] Open Scope bytes_scope.
#[local] Open Scope Z_scope.

Module lcheck.
Import lincheck lsearch.

(** ** Linearizability of a register *)

(** [a] returned before [b] was called. *)
Definition precedes (a b : Op) : Prop := Return a < Call b.

Fixpoint accepts {St} (step : St -> Op -> St * bool) (st : St) (os : list Op) : Prop :=
  match os with
  | [] => True
  | o :: os' => (step st o).2 = true /\ accepts step (step st o).1 os'
  end.

Abbreviation legal := (accepts stepRegister).

(** An order of the operations that keeps the real-time order and that the
    sequential register accepts. *)
Definition real_time (os : list Op) : Prop := StronglySorted (fun a b => ~ precedes b a) os.

Definition linearizable (ops : list Op) : Prop :=
  exists os, os ≡ₚ ops /\ real_time os /\ legal noReg os.

(** All ticks come from one counter. *)
Definition well_timed (ops : list Op) : Prop :=
  forall a b, a ∈ ops -> b ∈ ops -> Call a < Return a /\ Call a <> Return b.

Section register.
Context (ops : list Op).

Lemma opAt_elem i : (i < length ops)%nat -> opAt ops i ∈ ops.
Proof. intros [op Hi]%lookup_lt_is_Some_2. unfold opAt. rewrite Hi. by eapply list_elem_of_lookup_2. Qed.

Lemma well_timed_ticks : well_timed ops -> ticks_ok ops.
Proof. intros H i j Hi Hj. apply H; by apply opAt_elem. Qed.

Lemma opAt_seq : opAt ops <$> seq 0 (length ops) = ops.
Proof.
  apply list_eq. intros i. rewrite list_lookup_fmap. destruct (decide (i < length ops)%nat) as [Hi|Hi].
  - rewrite lookup_seq_lt by done. cbn. unfold opAt. by destruct (lookup_lt_is_Some_2 ops i Hi) as [op ->].
  - rewrite lookup_seq_ge by lia. symmetry. apply lookup_ge_None_2. lia.
Qed.

(** The pending operations in an accepted order. *)
Definition order_from (S : gset nat) (st : regState) (idx : list nat) : Prop :=
  NoDup idx /\ (forall i, i ∈ idx <-> (i < length ops)%nat /\ i ∉ S)
  /\ StronglySorted (fun i j => Call (opAt ops i) <= Return (opAt ops j)) idx
  /\ legal st (opAt ops <$> idx).

Lemma lin_order S st : well_timed ops -> lin ops S st -> exists idx, order_from S st idx.
Proof.
  intros Hwt. induction 1 as [S st Hall|S st i st' Hi HS Hmin Hstep _ (idx & Hnd & Hin & Hs & Hl)].
  - exists []. split_and!; [constructor| |constructor|done]. intros i. split; [set_solver|].
    intros [? Hn]. by destruct Hn; apply Hall.
  - exists (i :: idx). split_and!.
    + apply NoDup_cons. split; [|done]. rewrite Hin. set_solver.
    + intros j. rewrite elem_of_cons, Hin. destruct (decide (j = i)) as [->|]; set_solver.
    + constructor; [done|]. apply Forall_forall. intros j [Hj HjS]%Hin. apply Hmin; set_solver.
    + cbn [fmap list_fmap accepts]. by rewrite Hstep.
Qed.

Lemma order_lin idx : forall S st, order_from S st idx -> well_timed ops -> lin ops S st.
Proof.
  induction idx as [|i idx IH]; intros S st (Hnd & Hin & Hs & Hl) Hwt.
  - apply lin_done. intros i Hi. destruct (decide (i ∈ S)) as [|Hn]; [done|]. exfalso.
    assert (i ∈ @nil nat) as H by (by apply Hin). by apply not_elem_of_nil in H.
  - apply NoDup_cons in Hnd as [Hni Hnd]. apply StronglySorted_inv in Hs as [Hs Hi].
    cbn [fmap list_fmap accepts] in Hl. destruct Hl as [Hok Hl].
    destruct (Hin i) as [[Hlt HS] _]; [set_solver|].
    destruct (stepRegister st (opAt ops i)) as [st' ok] eqn:E. cbn in Hok, Hl. subst ok.
    eapply lin_step; [done|done| |exact E|].
    + intros j Hj HjS. assert (j ∈ i :: idx) as [->|Hji]%elem_of_cons by (by apply Hin).
      * destruct (well_timed_ticks Hwt i i Hlt Hlt). lia.
      * rewrite Forall_forall in Hi. by apply Hi.
    + apply IH; [|done]. split_and!; [done| |done|done]. intros j. specialize (Hin j).
      rewrite elem_of_cons in Hin. destruct (decide (j = i)) as [->|]; set_solver.
Qed.

Lemma strongly_sorted_fmap {A B} (f : A -> B) (R : A -> A -> Prop) (R' : B -> B -> Prop) l :
  (forall x y, R x y <-> R' (f x) (f y)) -> StronglySorted R l <-> StronglySorted R' (f <$> l).
Proof.
  intros HR. induction l as [|x l IH]; cbn [fmap list_fmap]; [split; constructor|].
  split; intros [Hs Hx]%StronglySorted_inv; constructor; try (by apply IH).
  - apply (Forall_fmap f). eapply Forall_impl; [exact Hx|]. intros y. apply HR.
  - apply (Forall_fmap f) in Hx. eapply Forall_impl; [exact Hx|]. intros y. apply HR.
Qed.

Lemma lin_linearizable : well_timed ops -> lin ops ∅ noReg <-> linearizable ops.
Proof.
  intros Hwt.
  assert (forall idx, StronglySorted (fun i j => Call (opAt ops i) <= Return (opAt ops j)) idx
            <-> real_time (opAt ops <$> idx)) as Hs.
  { intros idx. apply strongly_sorted_fmap. intros i j. unfold precedes. lia. }
  split.
  - intros Hl. destruct (lin_order ∅ noReg Hwt Hl) as (idx & Hnd & Hin & Hsort & Hlegal).
    exists (opAt ops <$> idx). split_and!; [|by apply Hs|done].
    rewrite <- opAt_seq at 2. apply fmap_Permutation, NoDup_Permutation; [done|apply NoDup_seq|].
    intros i. rewrite Hin, elem_of_seq. set_solver by lia.
  - intros (os & Hp & Hrt & Hlegal). rewrite <- opAt_seq in Hp.
    apply Permutation_map_inv in Hp as (idx & -> & Hp).
    apply (order_lin idx); [|done]. split_and!; [|intros i|by apply Hs|done].
    + rewrite <- Hp. apply NoDup_seq.
    + rewrite <- Hp, elem_of_seq. set_solver by lia.
Qed.

End register.

(** The checker gives a verdict on every history of one register, and the
    verdict says whether the history is linearizable. *)
Lemma register_verdict ops : well_timed ops ->
  exists v : bool, linearizableRegister ops = Some v /\ (v = true <-> linearizable ops).
Proof.
  intros Hwt. destruct (linearizableRegister_decides ops) as (v & E & Hv); [by apply well_timed_ticks|].
  exists v. split; [done|]. by rewrite Hv, lin_linearizable.
Qed.

(** ** Linearizability of the store *)

(** The sequential key/value store. *)
Definition kvStep (m : gmap bytes bytes) (op : Op) : gmap bytes bytes * bool :=
  match Kind op with
  | Put => (<[Key op := Value op]> m, true)
  | Delete => (delete (Key op) m, true)
  | Get => (m, bool_decide (m !! Key op = (if Found op then Some (Value op) else None)))
  end.

Definition store_linearizable (history : list Op) : Prop :=
  exists os, os ≡ₚ history /\ real_time os /\ accepts kvStep ∅ os.

(** The register of a key. *)
Definition register (m : gmap bytes bytes) (k : bytes) : regState :=
  match m !! k with Some v => MkReg v true | None => noReg end.

Lemma kvStep_same m op : (kvStep m op).2 = (stepRegister (register m (Key op)) op).2
  /\ register (kvStep m op).1 (Key op) = (stepRegister (register m (Key op)) op).1.
Proof.
  unfold kvStep, stepRegister, register. destruct (Kind op); cbn [fst snd].
  - by rewrite lookup_insert_eq.
  - destruct (m !! Key op) as [v|], (Found op) eqn:Ef; cbn [present value noReg];
      repeat case_decide; cbn [fst snd]; split; try done;
      try (apply bool_decide_eq_false_2); try (apply bool_decide_eq_true_2); naive_solver.
  - by rewrite lookup_delete_eq.
Qed.

Lemma kvStep_other m op k : k <> Key op -> register (kvStep m op).1 k = register m k.
Proof.
  intros Hk. unfold kvStep, register. destruct (Kind op); cbn [fst]; [|done|].
  - by rewrite lookup_insert_ne.
  - by rewrite lookup_delete_ne.
Qed.

Lemma byKey_cons o os k : byKey (o :: os) k = if decide (Key o = k) then o :: byKey os k else byKey os k.
Proof. unfold byKey. by rewrite filter_cons. Qed.

(** Each register sees its own operations only. *)
Lemma accepts_local os : forall m,
  accepts kvStep m os <-> forall k, legal (register m k) (byKey os k).
Proof.
  induction os as [|o os IH]; intros m; [done|]. cbn [accepts]. destruct (kvStep_same m o) as [Hok Hst].
  rewrite IH. split.
  - intros [H1 H2] k. rewrite byKey_cons. destruct (decide (Key o = k)) as [<-|Hk].
    + cbn [accepts]. rewrite <- Hok, <- Hst. by split.
    + rewrite <- (kvStep_other m o) by congruence. apply H2.
  - intros H. pose proof (H (Key o)) as Ho. rewrite byKey_cons, decide_True in Ho by done.
    cbn [accepts] in Ho. rewrite <- Hok, <- Hst in Ho. destruct Ho as [H1 H2]. split; [done|].
    intros k. destruct (decide (k = Key o)) as [->|Hk]; [done|].
    rewrite kvStep_other by done. specialize (H k). by rewrite byKey_cons, decide_False in H by congruence.
Qed.

Lemma byKey_perm os h k : os ≡ₚ h -> byKey os k ≡ₚ byKey h k.
Proof. apply filter_Permutation. Qed.

Lemma elem_of_byKey h k o : o ∈ byKey h k <-> Key o = k /\ o ∈ h.
Proof. unfold byKey. by rewrite list_elem_of_filter. Qed.

Lemma well_timed_sub h h' : (forall o, o ∈ h' -> o ∈ h) -> well_timed h -> well_timed h'.
Proof. intros Hsub H a b Ha Hb. apply H; by apply Hsub. Qed.

Lemma first_return h : h <> [] -> exists o : Op, o ∈ h /\ forall b, b ∈ h -> Return o <= Return b.
Proof.
  induction h as [|a h IH]; [done|]. intros _. destruct h as [|a' h'].
  - exists a. split; [set_solver|]. intros b ->%list_elem_of_singleton. lia.
  - destruct IH as (o & Ho & Hmin); [done|]. destruct (decide (Return a <= Return o)).
    + exists a. split; [set_solver|]. intros b [->|Hb]%elem_of_cons; [lia|]. specialize (Hmin b Hb). lia.
    + exists o. split; [set_solver|]. intros b [->|Hb]%elem_of_cons; [lia|]. by apply Hmin.
Qed.

(** Orders of the keys' operations merge into one order of all of them: place
    the first operation of the key that holds the earliest return. *)
Lemma merge_orders n : forall (h : list Op) (F : bytes -> list Op),
  length h = n -> well_timed h -> (forall k, F k ≡ₚ byKey h k /\ real_time (F k)) ->
  exists os, os ≡ₚ h /\ real_time os /\ forall k, byKey os k = F k.
Proof.
  induction n as [|n IH]; intros h F Hn Hwt HF.
  - apply nil_length_inv in Hn as ->. exists []. split; [done|]. split; [constructor|].
    intros k. destruct (HF k) as [Hp _]. symmetry. by apply Permutation_nil_r.
  - destruct (first_return h) as (o & Ho & Hmin); [by intros ->|]. destruct (HF (Key o)) as [Hp Hrt].
    assert (o ∈ F (Key o)) as Hof by (rewrite Hp; by apply elem_of_byKey).
    destruct (F (Key o)) as [|a rest] eqn:EF; [by apply not_elem_of_nil in Hof|].
    assert (a ∈ byKey h (Key o)) as [Hka Ha]%elem_of_byKey by (rewrite <- Hp; set_solver).
    apply StronglySorted_inv in Hrt as [Hrest Hfirst]. rewrite Forall_forall in Hfirst.
    assert (Call a <= Return o) as Hao.
    { apply elem_of_cons in Hof as [->|Hof]; [destruct (Hwt a a Ha Ha); lia|].
      specialize (Hfirst o Hof). unfold precedes in Hfirst. lia. }
    apply elem_of_Permutation in Ha as [h' Eh].
    destruct (IH h' (<[Key o := rest]> F)) as (os & Hos & Hsort & Hkeys).
    + rewrite Eh in Hn. cbn in Hn. lia.
    + eapply well_timed_sub; [|exact Hwt]. intros x Hx. rewrite Eh. set_solver.
    + intros k. destruct (decide (k = Key o)) as [->|Hk].
      * rewrite fn_lookup_insert. split; [|done]. apply (Permutation_cons_inv (a := a)). rewrite Hp.
        rewrite (byKey_perm _ _ (Key o) Eh), byKey_cons. by rewrite decide_True.
      * rewrite fn_lookup_insert_ne by done. destruct (HF k) as [HP HR]. split; [|done]. rewrite HP.
        rewrite (byKey_perm _ _ k Eh), byKey_cons. by rewrite decide_False by congruence.
    + exists (a :: os). split; [by rewrite Hos|]. split.
      * constructor; [done|]. apply Forall_forall. intros b Hb.
        assert (b ∈ h) as Hbh by (rewrite Eh, <- Hos; set_solver). specialize (Hmin b Hbh). unfold precedes. lia.
      * intros k. rewrite byKey_cons, Hkeys. destruct (decide (Key a = k)) as [<-|Hk].
        -- rewrite Hka, fn_lookup_insert. by rewrite EF.
        -- by rewrite fn_lookup_insert_ne by congruence.
Qed.

Lemma choose_orders (P : bytes -> list Op -> Prop) (ks : list bytes) :
  (forall k, exists l, P k l) -> exists F : bytes -> list Op, forall k, k ∈ ks -> P k (F k).
Proof.
  intros H. induction ks as [|k ks [F HF]]; [by exists (fun _ => []); set_solver|].
  destruct (H k) as [l Hl]. exists (<[k := l]> F). intros k' Hk'. destruct (decide (k' = k)) as [->|Hne].
  - by rewrite fn_lookup_insert.
  - rewrite fn_lookup_insert_ne by done. apply HF. set_solver.
Qed.

Lemma byKey_absent h k : k ∉ Key <$> h -> byKey h k = [].
Proof.
  intros Hk. destruct (byKey h k) as [|o l] eqn:E; [done|]. exfalso.
  assert (o ∈ byKey h k) as [<- Ho]%elem_of_byKey by (rewrite E; set_solver).
  by apply Hk, list_elem_of_fmap_2.
Qed.

Lemma locality h : well_timed h -> store_linearizable h <-> forall k, linearizable (byKey h k).
Proof.
  intros Hwt. split.
  - intros (os & Hp & Hrt & Hacc) k. exists (byKey os k). split; [by apply byKey_perm|].
    split; [by apply sorted_filter|]. rewrite accepts_local in Hacc. apply (Hacc k).
  - intros H. destruct (choose_orders _ (Key <$> h) H) as [F HF].
    set (G k := if decide (k ∈ Key <$> h) then F k else []).
    assert (forall k, G k ≡ₚ byKey h k /\ real_time (G k) /\ legal noReg (G k)) as HG.
    { intros k. unfold G. case_decide as Hk; [by apply HF|]. rewrite byKey_absent by done.
      split; [done|]. split; [constructor|done]. }
    destruct (merge_orders _ h G eq_refl Hwt) as (os & Hp & Hrt & Hk); [intros k; destruct (HG k) as (?&?&?); auto|].
    exists os. split; [done|]. split; [done|]. apply accepts_local. intros k. rewrite Hk. apply HG.
Qed.

(** ** Keys in order, witnesses in order *)

Lemma elem_of_insertKey k x l : x ∈ insertKey k l <-> x = k \/ x ∈ l.
Proof.
  induction l as [|y l IH]; cbn [insertKey]; [set_solver|].
  destruct (bcompare k y) eqn:E; [apply bcompare_eq in E as ->| |]; set_solver.
Qed.

Lemma insertKey_sorted k l : StronglySorted blt l -> StronglySorted blt (insertKey k l).
Proof.
  induction 1 as [|y l Hs IH Hy]; cbn [insertKey]; [repeat constructor|].
  destruct (bcompare k y) eqn:E.
  - by constructor.
  - constructor; [by constructor|]. constructor; [done|]. eapply Forall_impl; [exact Hy|].
    intros z. by apply blt_trans.
  - constructor; [done|]. apply bcompare_gt in E. rewrite Forall_forall in Hy. apply Forall_forall.
    intros z [->|Hz]%elem_of_insertKey; auto.
Qed.

Lemma sortedKeys_sorted h : StronglySorted blt (sortedKeys h).
Proof. unfold sortedKeys. induction (Key <$> h); cbn; [constructor|by apply insertKey_sorted]. Qed.

Lemma elem_of_history_keys h k : k ∈ sortedKeys h <-> k ∈ Key <$> h.
Proof. unfold sortedKeys. induction (Key <$> h); cbn; [done|]. rewrite elem_of_insertKey. set_solver. Qed.

Definition call_order (a b : Op) : Prop := Call a < Call b \/ (Call a = Call b /\ Return a <= Return b).

Lemma insertOp_perm o l : insertOp o l ≡ₚ o :: l.
Proof.
  induction l as [|x l IH]; cbn [insertOp]; [done|]. case_decide; [done|]. rewrite IH. apply Permutation_swap.
Qed.

Lemma sortedByCall_perm l : sortedByCall l ≡ₚ l.
Proof. induction l as [|o l IH]; [done|]. cbn. by rewrite insertOp_perm, IH. Qed.

Lemma insertOp_sorted o l : StronglySorted call_order l -> StronglySorted call_order (insertOp o l).
Proof.
  induction 1 as [|x l Hs IH Hx]; cbn [insertOp]; [repeat constructor|]. case_decide as Hc.
  - constructor; [by constructor|]. constructor; [done|]. eapply Forall_impl; [exact Hx|].
    intros y. unfold call_order. lia.
  - constructor; [done|]. apply Forall_forall. intros y. rewrite insertOp_perm.
    intros [->|Hy]%elem_of_cons; [unfold call_order; lia|]. rewrite Forall_forall in Hx. by apply Hx.
Qed.

Lemma sortedByCall_sorted l : StronglySorted call_order (sortedByCall l).
Proof. induction l as [|o l IH]; [constructor|]. by apply insertOp_sorted. Qed.

(** ** The verdict on a history *)

(** What a result says about the keys [keys]. *)
Definition verdict_on (history : list Op) (keys : list bytes) (r : Result) : Prop :=
  if Linearizable r
  then forall k, k ∈ keys -> linearizable (byKey history k)
  else r_Key r ∈ keys /\ ~ linearizable (byKey history (r_Key r))
       /\ (forall k, k ∈ keys -> k <b r_Key r -> linearizable (byKey history k))
       /\ Witness r ≡ₚ byKey history (r_Key r) /\ StronglySorted call_order (Witness r).

Lemma Check_loop_spec history keys : well_timed history -> StronglySorted blt keys ->
  exists r, Check_loop history keys = Some r /\ verdict_on history keys r.
Proof.
  intros Hwt. induction 1 as [|k keys Hs (r & Er & Hr) Hk]; cbn [Check_loop].
  - eexists. split; [done|]. cbn. set_solver.
  - destruct (register_verdict (byKey history k)) as (v & -> & Hv).
    { eapply well_timed_sub; [|exact Hwt]. intros o. rewrite elem_of_byKey. tauto. }
    cbn [mbind option_bind]. destruct v.
    + exists r. split; [done|]. assert (linearizable (byKey history k)) as Hl by (by apply Hv).
      unfold verdict_on in *. destruct (Linearizable r).
      * intros k' [->|Hk']%elem_of_cons; auto.
      * destruct Hr as (H1 & H2 & H3 & H4). split; [set_solver|]. split; [done|]. split; [|done].
        intros k' [->|Hk']%elem_of_cons; auto.
    + eexists. split; [done|]. cbn. split; [set_solver|]. split; [intros H%Hv; done|]. split.
      * intros k' [->|Hk']%elem_of_cons Hlt; [by apply blt_irrefl in Hlt|]. exfalso.
        rewrite Forall_forall in Hk. specialize (Hk k' Hk'). by apply (blt_irrefl k), (blt_trans k k').
      * split; [apply sortedByCall_perm|apply sortedByCall_sorted].
Qed.

(** C23. [linearizableRegister] decides linearizability: on every history of one
    register whose ticks come from one counter, whatever the overlap of its
    operations, it ends without a nil dereference or an index out of range, and
    it answers true exactly when some order of the operations keeps the
    real-time order and is accepted by the register.  The event list it edits in
    place, the bit sets, the hashed cache that prunes the search and the fuel are
    all part of it. *)
Theorem linearizableRegister_correct ops : well_timed ops ->
  exists v : bool, linearizableRegister ops = Some v /\ (v = true <-> linearizable ops).
Proof. apply register_verdict. Qed.

(** C22. [Check_] decides linearizability of the whole key/value store by looking
    at one key at a time: it answers that the history is linearizable exactly
    when all the operations together have an order that keeps the real-time
    order and that the sequential store accepts.  Otherwise it reports the least
    key whose operations cannot be linearized, with those operations sorted by
    call tick. *)
Theorem check_correct history : well_timed history ->
  exists r, Check_ history = Some r
    /\ (Linearizable r = true <-> store_linearizable history)
    /\ (Linearizable r = false ->
          ~ linearizable (byKey history (r_Key r))
          /\ (forall k, k <b r_Key r -> linearizable (byKey history k))
          /\ Witness r ≡ₚ byKey history (r_Key r) /\ StronglySorted call_order (Witness r)).
Proof.
  intros Hwt. destruct (Check_loop_spec history (sortedKeys history) Hwt (sortedKeys_sorted history)) as (r & Er & Hr).
  assert (forall k, k ∉ sortedKeys history -> linearizable (byKey history k)) as Habs.
  { intros k. rewrite elem_of_history_keys. intros Hk. rewrite byKey_absent by done.
    exists []. split; [done|]. split; [constructor|done]. }
  exists r. split; [exact Er|]. rewrite locality by done. unfold verdict_on in Hr. destruct (Linearizable r).
  - split; [|done]. split; [|done]. intros _ k. destruct (decide (k ∈ sortedKeys history)); auto.
  - destruct Hr as (H1 & H2 & H3 & H4). split; [split; [done|intros H; by destruct H2]|].
    intros _. split; [done|]. split; [|done]. intros k Hk. destruct (decide (k ∈ sortedKeys history)); auto.
Qed.

(** ** Concrete histories *)

Definition put (k v : bytes) (c r : Z) : Op := MkOp 0 Put k v false c r.
Definition get (k v : bytes) (found : bool) (c r : Z) : Op := MkOp 1 Get k v found c r.

(** A write of unknown fate explains two reads on both sides of a third. *)
Definition pending_write : list Op :=
  [put ["k"%byte] ["1"%byte] 1 Infinity; get ["k"%byte] [] false 2 4; get ["k"%byte] ["1"%byte] true 3 6].

(** A read that returned after the write and missed it, next to a sound key. *)
Definition stale_read : list Op :=
  [put ["a"%byte] ["1"%byte] 1 4; put ["b"%byte] ["2"%byte] 2 3; get ["b"%byte] [] false 5 8;
   get ["a"%byte] ["1"%byte] true 6 7].

Ltac check_ticks :=
  intros a b Ha Hb; rewrite !elem_of_cons, elem_of_nil in Ha, Hb; unfold put, get in *;
  naive_solver (unfold Infinity; cbn; lia).

Lemma pending_write_timed : well_timed pending_write.
Proof. unfold pending_write. check_ticks. Qed.

Lemma stale_read_timed : well_timed stale_read.
Proof. unfold stale_read. check_ticks. Qed.

Lemma linearizableRegister_correct_witness :
  linearizableRegister pending_write = Some true
  /\ exists v : bool, linearizableRegister pending_write = Some v /\ (v = true <-> linearizable pending_write).
Proof. split; [by vm_compute|]. apply linearizableRegister_correct, pending_write_timed. Defined.

Lemma check_correct_witness :
  Check_ stale_read = Some (MkResult false ["b"%byte] [put ["b"%byte] ["2"%byte] 2 3; get ["b"%byte] [] false 5 8])
  /\ exists r, Check_ stale_read = Some r
    /\ (Linearizable r = true <-> store_linearizable stale_read)
    /\ (Linearizable r = false ->
          ~ linearizable (byKey stale_read (r_Key r))
          /\ (forall k, k <b r_Key r -> linearizable (byKey stale_read k))
          /\ Witness r ≡ₚ byKey stale_read (r_Key r) /\ StronglySorted call_order (Witness r)).
Proof. split; [by vm_compute|]. apply check_correct, stale_read_timed. Defined.


End lcheck.
