(* ===== verification/RaftClient.v ===== *)
(** * The client's path (internal/cluster/cluster.go)

    [commit], [readBarrier] and what is built on them, as a call that goes
    through its critical sections one at a time while the group runs on: the
    check for leadership, the preparation of the entry by the store, the
    proposal, and the wait until it is applied.  A call that returns with its
    entry in place is durable, and a read behind its barrier sees whatever any
    node knew to be committed when the call began; the wait does not look
    whether the entry is in place. *)

From Stdlib Require Import ZArith Lia.
From Stdlib Require Import Strings.Byte.
From stdpp Require Import base list gmap gmultiset sorting.
From S2P Require Import Prelude.
From S2P Require Import RecordFmt.
From S2P Require Import Db.
From S2P Require Import DbSnapshot.
From S2P Require Import RaftLog.
From S2P Require Import RaftConfig.
From S2P Require Import RaftLogFile.
From S2P Require Import RaftNode.
From S2P Require Import RaftRun.
From S2P Require Import RaftVote.
From S2P Require Import RaftElection.
From S2P Require Import RaftCommit.
From S2P Require Import RaftFollower.
From S2P Require Import RaftApply.
From S2P Require Import RaftRepair.
From S2P Require Import RaftMatching.
From S2P Require Import RaftFrame.
From S2P Require Import RaftHistory.
From S2P Require Import RaftSafety.

#[local] Open Scope Z_scope.

Module client.
Import raftlog node run election follower applied repair matching frame history safety.

(** ** Calls *)

Inductive failure := NodeErr (e : node.error) | StoreErr (e : db.error).

(** [None] is the nil error. *)
Abbreviation result := (option failure).

Inductive request :=
| Commit (t : db.Txn)
| ReadBarrier.

(** Where a call is: [commitMu] is held from [Check] until it has returned. *)
Inductive phase :=
| Check
| Prepare (term : Z)
| Propose (term : Z) (entry : bytes)
| Await (term idx : Z)
| Returned (r : result).

(** The barrier reports a no-op with an unknown fate as lost leadership. *)
Definition report (rq : request) (e : node.error) : failure :=
  NodeErr (match rq with Commit _ => e | ReadBarrier => barrierError e end).

Definition check (n : Node) : phase :=
  if decide (role n <> Leader) then Returned (Some (NodeErr ErrNotLeader)) else Prepare (currentTerm n).

(** [PrepareCommit] or [PrepareNoop] under [storeMu]; [None] is a panic. *)
Definition prepare (rq : request) (term : Z) (d : db.DB) : option (db.DB * request * phase) :=
  match rq with
  | Commit t =>
      '(d', t', r) ← db.PrepareCommit d t;
      match r with
      | Err e => Some (d', Commit t', Returned (Some (StoreErr e)))
      | Ok None => Some (d', Commit t', Returned None)
      | Ok (Some (entry, _)) => Some (d', Commit t', Propose term entry)
      | Panic => None
      end
  | ReadBarrier =>
      match db.PrepareNoop d with
      | (d', Err e) => Some (d', ReadBarrier, Returned (Some (StoreErr e)))
      | (d', Ok (entry, _)) => Some (d', ReadBarrier, Propose term entry)
      | (_, Panic) => None
      end
  end.

(** [proposeAndAwait] up to its wait. *)
Definition proposeEntry (rq : request) (term : Z) (entry : bytes) : M phase :=
  r ← propose term EntryData entry;
  mret (match r with inl e => Returned (Some (report rq e)) | inr idx => Await term idx end).

(** The wait loop looked at once; [None] to wait on. *)
Definition await (rq : request) (idx : Z) (n : Node) : option phase :=
  match awaitApplied idx n with
  | None => None
  | Some None => Some (Returned None)
  | Some (Some e) => Some (Returned (Some (report rq e)))
  end.

(** [linearizableGet], once its barrier has returned. *)
Definition linearizableGet_read (r : result) (d : db.DB) (key : bytes) : db.DB * (failure + outcome db.error bytes) :=
  match r with
  | Some e => (d, inl e)
  | None => let '(d', v) := db.Get d key in (d', inr v)
  end.

(** [commitSessioned], once its barrier has returned: the callback runs on a
    stamped transaction, which is then committed by a call of its own. *)
Definition commitSessioned_body (r : result) (d : db.DB) (session : bytes) (seq : Z)
  (apply : db.DB -> db.Txn -> db.DB * db.Txn * option db.error) : db.DB * (result + request) :=
  match r with
  | Some e => (d, inl (Some e))
  | None =>
      let '(d1, tx) := db.Begin d in
      let '(d2, tx', err) := apply d1 (db.SetSession tx session seq) in
      match err with
      | Some e =>
          (match db.Rollback d2 tx' with Ok (d3, _) => d3 | _ => d2 end, inl (Some (StoreErr e)))
      | None =>
          if db.finished tx' then (d2, inl (Some (StoreErr db.ErrTxnFinished))) else (d2, inr (Commit tx'))
      end
  end.

(** [storePut] and [storeDelete] up to the override of the transaction's commit. *)
Definition storePut (d : db.DB) (key value : bytes) : option (db.DB * (result + request)) :=
  let '(d1, t) := db.Begin d in
  match db.txn_Put t key value with
  | Ok t1 => Some (d1, inr (Commit t1))
  | Err e => Some (d1, inl (Some (StoreErr e)))
  | Panic => None
  end.

Definition storeDelete (d : db.DB) (key : bytes) : option (db.DB * (result + request)) :=
  let '(d1, t) := db.Begin d in
  match db.txn_Delete t key with
  | Ok t1 => Some (d1, inr (Commit t1))
  | Err e => Some (d1, inl (Some (StoreErr e)))
  | Panic => None
  end.

(** ** An index that is still free *)

Section fresh.
Context {C : gset NodeID} {h1 h2 h3 : history}.
Context (Hok1 : history_ok C h1) (Hok2 : history_ok C h2) (Hok3 : history_ok C h3).
Context (Hex1 : extends h1 h2) (Hex2 : extends h2 h3).

(** An entry a later leader of the past has not got it never gets. *)
Lemma led_never T T1 P2 Q1 x :
  led h2 !! T = Some P2 -> is_Some (led h2 !! T1) -> T <> T1 -> led h3 !! T1 = Some Q1 ->
  Q1 !! length P2 = Some x -> e_term x <> T.
Proof.
  intros HP2 [P1 HP1] Hne HQ1 Hx HT.
  destruct (ho_led _ _ Hok2 _ _ HP1) as (_ & Hs & P0 & R2 & HP0 & EP & _).
  destruct (ho_led _ _ Hok3 _ _ HQ1) as (_ & _ & P0' & R3 & HP0' & -> & _ & HR3).
  rewrite (ex_began _ _ Hex2 _ _ HP0) in HP0'. injection HP0' as <-.
  apply lookup_app_Some in Hx as [Hx|[_ Hx]].
  - destruct (Hs (length P2) x) as (P & HP & Hpre); [rewrite EP; by apply lookup_app_l_Some|].
    rewrite HT, HP2 in HP. injection HP as <-. apply prefix_length in Hpre. rewrite length_take in Hpre.
    apply lookup_lt_Some in Hx. rewrite EP, length_app in Hpre. lia.
  - rewrite Forall_forall in HR3. specialize (HR3 x (list_elem_of_lookup_2 _ _ _ Hx)). congruence.
Qed.

(** What was committed before a leader appended at an index, and the entry it
    appended is committed now: then it was below the index. *)
Lemma fresh_index T P2 T1 k1 t3 ci3 L3 e :
  committed C h1 T1 k1 -> led h2 !! T = Some P2 -> backed C h3 t3 ci3 L3 -> len P2 < ci3 ->
  L3 !! length P2 = Some e -> e_term e = T -> k1 <= len P2.
Proof.
  intros Hc HP2 [_ [?|(T' & k' & Hc' & Hk' & _ & Hpre)]] Hci He HeT; [pose proof (len_nonneg P2); lia|].
  pose proof (committed_extends C Hok1 Hex1 T1 k1 Hc) as Hc2. pose proof (committed_extends C Hok2 Hex2 T1 k1 Hc2) as Hc3.
  destruct (committed_led_len C Hok2 _ _ Hc2) as (P1 & HP1 & Hb1).
  destruct (decide (T1 <= T)) as [HT|HT].
  { pose proof (committed_led C Hok2 T1 k1 T P2 Hc2 HP2 HT) as Hp. apply prefix_length in Hp.
    rewrite (upto_length T1 k1 P1 HP1) in Hp by lia. unfold len. lia. }
  destruct (committed_led_len C Hok3 _ _ Hc3) as (Q1 & HQ1 & Hb3). destruct (committed_led_len C Hok3 _ _ Hc') as (Q' & HQ' & Hb').
  assert (forall x, Q1 !! length P2 = Some x -> e_term x <> T) as Hnever.
  { intros x. apply (led_never T T1 P2 Q1 x HP2); [by eexists|lia|done]. }
  assert (Q' !! length P2 = Some e) as HQe.
  { destruct (lookup_lt_is_Some_2 (upto h3 T' ci3) (length P2)) as [y Hy].
    { pose proof (len_nonneg P2). rewrite (upto_length T' ci3 Q' HQ') by lia. unfold len in Hci. lia. }
    pose proof (prefix_lookup_Some _ _ _ _ Hy Hpre) as E. rewrite He in E. injection E as <-.
    unfold upto in Hy. rewrite HQ' in Hy. cbn in Hy. by apply lookup_take_Some in Hy as [? _]. }
  destruct (decide (T' <= T1)) as [Hle|Hgt].
  - exfalso. apply (Hnever e); [|done]. pose proof (committed_led C Hok3 T' k' T1 Q1 Hc' HQ1 Hle) as Hp.
    eapply prefix_lookup_Some; [|exact Hp]. unfold upto. rewrite HQ'. cbn. rewrite lookup_take_lt; [done|].
    unfold len in *. lia.
  - apply Z.nlt_ge. intros Hlt. pose proof (committed_led C Hok3 T1 k1 T' Q' Hc3 HQ' ltac:(lia)) as Hp.
    destruct (lookup_lt_is_Some_2 Q1 (length P2)) as [x Hx]; [unfold len in *; lia|].
    apply (Hnever x Hx). assert (Q' !! length P2 = Some x) as E.
    { eapply prefix_lookup_Some; [|exact Hp]. unfold upto. rewrite HQ1. cbn. rewrite lookup_take_lt; [done|]. unfold len in *. lia. }
    rewrite HQe in E. by injection E as <-.
Qed.

End fresh.

(** ** A call on node [j] in a running group *)

Section calls.
Context {S : Type} {SM : StateMachine S}.
Context (C : Members) (j : NodeID).

Inductive call_step : cluster * (request * phase) -> cluster * (request * phase) -> Prop :=
| call_env c c' k : clean_step (S := S) true C c c' -> call_step (c, k) (c', k)
| call_check c n rq : nodes c !! j = Some n -> call_step (c, (rq, Check)) (c, (rq, check n))
| call_prepare c d d' rq rq' t ph :
    prepare rq t d = Some (d', rq', ph) -> call_step (c, (rq, Prepare t)) (c, (rq', ph))
| call_propose c n rq t e n' w' ph :
    nodes c !! j = Some n -> currentTerm n < max_u64 ->
    proposeEntry rq t e n (MkWorld [] []) = Some (ph, n', w') -> config n' = Some C ->
    act_room (S := S) n (APropose t EntryData e) ->
    call_step (c, (rq, Propose t e)) (MkCluster (<[j := n']> (nodes c)) (net c ++ sends (out w')), (rq, ph))
| call_await c n rq t idx ph :
    nodes c !! j = Some n -> await rq idx n = Some ph -> call_step (c, (rq, Await t idx)) (c, (rq, ph)).

(** The group goes its way whatever the call does. *)
Lemma call_clean c k c' k' : call_step (c, k) (c', k') -> c' = c \/ clean_step (S := S) true C c c'.
Proof.
  intros Hst. inversion Hst as [? ? ? H|? n rq Hn|? d d' rq rq' t ph Hp|? n rq t e n' w' ph Hn Hmax E Hc Hroom|? n rq t idx ph Hn Ha];
    subst; [by right|by left|by left| |by left].
  right. unfold proposeEntry in E. apply bind_inv in E as (r & n1 & w1 & E & [= _ <- <-]).
  apply (clean_act true C c j n (APropose t EntryData e) n1 w1); try done.
  cbn [run_act]. by rewrite (bind_run _ _ _ _ _ _ _ E).
Qed.

Lemma calls_clean c k c' k' : rtc call_step (c, k) (c', k') -> rtc (clean_step (S := S) true C) c c'.
Proof.
  intros H. remember (c, k) as x eqn:Ex. remember (c', k') as y eqn:Ey. revert c k Ex.
  induction H as [x|x [c1 k1] y H1 _ IH]; intros c k ->; [by simplify_eq|].
  destruct (call_clean _ _ _ _ H1) as [->|Hc]; [by eapply IH|]. eapply rtc_l; [done|]. by eapply IH.
Qed.

(** What a waiting call has done: an entry of its term at its index, proposed on
    the way. *)
Definition proposed_at (c1 : cluster) (t : Z) (e : bytes) (idx : Z) (c2 : cluster) : Prop :=
  exists ca n rq n' w' , rtc (clean_step (S := S) true C) c1 ca /\ nodes ca !! j = Some n
    /\ proposeEntry rq t e n (MkWorld [] []) = Some (Await t idx, n', w')
    /\ act_room (S := S) n (APropose t EntryData e)
    /\ clean_step (S := S) true C ca (MkCluster (<[j := n']> (nodes ca)) (net ca ++ sends (out w')))
    /\ rtc (clean_step (S := S) true C) (MkCluster (<[j := n']> (nodes ca)) (net ca ++ sends (out w'))) c2.

(** The store prepared this entry for the request. *)
Definition made (rq : request) (t : Z) (e : bytes) : Prop :=
  exists d d' rq', prepare rq t d = Some (d', rq', Propose t e).

(** By phase: what lies behind the call. *)
Definition behind (rq0 : request) (c1 c2 : cluster) (rq : request) (ph : phase) : Prop :=
  match ph with
  | Check | Prepare _ => rq = rq0
  | Propose t e => made rq0 t e
  | Await t idx => exists e, made rq0 t e /\ proposed_at c1 t e idx c2
  | Returned _ => True
  end.

Lemma call_behind c1 c2 rq0 rq ph :
  rtc call_step (c1, (rq0, Check)) (c2, (rq, ph)) -> behind rq0 c1 c2 rq ph.
Proof.
  intros H. change (behind rq0 c1 (c2, (rq, ph)).1 (c2, (rq, ph)).2.1 (c2, (rq, ph)).2.2). revert H.
  generalize (c2, (rq, ph)). clear c2 rq ph.
  apply (rtc_ind_r (fun y => behind rq0 c1 y.1 y.2.1 y.2.2)); [done|]. intros y z H1 H2 IH.
  destruct H2 as [c c2 [rq ph] Hst|c n rq Hn|c d d' rq1 rq2 t ph Hp|c n rq1 t e n' w' ph Hn Hmax E Hc Hroom|c n rq1 t idx ph Hn Ha];
    cbn [fst snd] in *.
  - destruct ph; try done. destruct IH as (e & Hm & ca & n & rq1 & n' & w' & ?&?&?&?&?&?).
    exists e. split; [done|]. exists ca, n, rq1, n', w'. split_and!; try done. by eapply rtc_r.
  - unfold check. by case_decide.
  - cbn [behind] in IH. subst rq1.
    assert (match ph with Propose t' _ => t' = t | Returned _ => True | _ => False end) as Hph.
    { unfold prepare in Hp. destruct rq0 as [t1|].
      - destruct (db.PrepareCommit d t1) as [[[d1 t2] [[[? ?]|]|?|]]|]; cbn in Hp; by simplify_eq.
      - destruct (db.PrepareNoop d) as [d1 [[? ?]|?|]]; by simplify_eq. }
    destruct ph; try done. subst. by exists d, d', rq2.
  - pose proof E as E0. unfold proposeEntry in E0. apply bind_inv in E0 as (r & n1 & w1 & E0 & [= E1 E2 E3]). subst n1 w1.
    destruct ph as [| | |t0 idx|]; try (destruct r; congruence); [|done].
    assert (t0 = t) as -> by (destruct r; congruence). exists e. split; [done|].
    exists c, n, rq1, n', w'. split; [by eapply calls_clean|]. do 3 (split; [done|]). split; [|done].
    apply (clean_act true C c j n (APropose t EntryData e) n' w'); try done.
    cbn [run_act]. by rewrite (bind_run _ _ _ _ _ _ _ E0).
  - unfold await in Ha. destruct (awaitApplied idx n) as [[?|]|]; by simplify_eq.
Qed.

(** ** What a call has appended

    The indexes of the entries a call has appended to the leader's log, with their
    terms. *)
Definition appended (x y : cluster * (request * phase)) : list (Z * Z) :=
  match x.2.2, y.2.2 with Propose _ _, Await t idx => [(t, idx)] | _, _ => [] end.

Inductive call_trace : cluster * (request * phase) -> list (Z * Z) -> cluster * (request * phase) -> Prop :=
| trace_nil x : call_trace x [] x
| trace_step x y z l : call_step x y -> call_trace y l z -> call_trace x (appended x y ++ l) z.

Definition is_commit (rq : request) : bool := match rq with Commit _ => true | ReadBarrier => false end.

(** What a call in this phase may have appended. *)
Definition may_have (rq : request) (ph : phase) (l : list (Z * Z)) : Prop :=
  match ph with
  | Check | Prepare _ | Propose _ _ => l = []
  | Await t idx => l = [(t, idx)]
  | Returned None => (length l <= 1)%nat
  | Returned (Some (StoreErr _)) => l = []
  | Returned (Some (NodeErr ErrNotLeader)) => (length l <= 1)%nat /\ (is_commit rq = true -> l = [])
  | Returned (Some (NodeErr ErrAppend)) => l = []
  | Returned (Some (NodeErr ErrMaybeCommitted)) => is_commit rq = true /\ length l = 1%nat
  | Returned (Some (NodeErr _)) => False
  end.

Lemma propose_error t k e n w err n' w' :
  propose t k e n w = Some (inl err, n', w') -> err = ErrNotLeader \/ err = ErrAppend.
Proof.
  unfold propose. rewrite !bind_gets. case_decide; [intros [= <- _ _]; by left|].
  intros ([|] & n1 & w1 & _ & E)%bind_inv; cbn [negb] in E; [|injection E as <- _ _; by right].
  rewrite bind_gets, bind_modify in E. apply bind_inv in E as ([] & n2 & w2 & _ & E).
  apply bind_inv in E as ([] & n3 & w3 & _ & E). rewrite bind_emit in E. discriminate.
Qed.

Lemma may_have_step x y l : call_step x y -> may_have x.2.1 x.2.2 l -> may_have y.2.1 y.2.2 (l ++ appended x y).
Proof.
  intros Hst. unfold appended.
  destruct Hst as [c c2 [rq ph] Hst|c n rq Hn|c d d' rq1 rq2 t ph Hp|c n rq1 t e n' w' ph Hn Hmax E Hc Hroom|c n rq1 t idx ph Hn Ha];
    cbn [fst snd].
  - assert (match ph with Propose _ _ => match ph with Await t idx => [(t, idx)] | _ => [] end | _ => [] end = @nil (Z * Z)) as ->
      by (by destruct ph). by rewrite app_nil_r.
  - rewrite app_nil_r. unfold check. intros ->. case_decide; cbn; [|done]. split; [lia|done].
  - rewrite app_nil_r. intros ->. unfold prepare in Hp. destruct rq1 as [t1|].
    + destruct (db.PrepareCommit d t1) as [[[d1 t2] [[[? ?]|]|?|]]|]; cbn in Hp; simplify_eq; cbn; done || lia.
    + destruct (db.PrepareNoop d) as [d1 [[? ?]|?|]]; simplify_eq; done.
  - intros ->. unfold proposeEntry in E. apply bind_inv in E as (r & n1 & w1 & E & [= <- _ _]).
    destruct r as [err|idx]; [|done]. rewrite app_nil_r.
    destruct (propose_error _ _ _ _ _ _ _ _ E) as [->| ->]; destruct rq1; cbn; (split; [lia|done]) || done.
  - intros ->. rewrite app_nil_r. unfold await in Ha. unfold awaitApplied in Ha.
    case_decide; [injection Ha as <-; cbn; lia|]. case_decide; [|done]. injection Ha as <-.
    destruct rq1; cbn; [done|split; [lia|done]].
Qed.

Lemma may_have_trace x l y : call_trace x l y -> forall l0, may_have x.2.1 x.2.2 l0 -> may_have y.2.1 y.2.2 (l0 ++ l).
Proof.
  induction 1 as [x|x y z l Hst _ IH]; intros l0 H0; [by rewrite app_nil_r|].
  rewrite app_assoc. by apply IH, may_have_step.
Qed.

Lemma trace_kind x l y : call_trace x l y -> is_commit y.2.1 = is_commit x.2.1.
Proof.
  induction 1 as [x|x y z l Hst _ IH]; [done|]. rewrite IH. clear -Hst.
  destruct Hst as [c c2 [rq ph] Hst|c n rq Hn|c d d' rq1 rq2 t ph Hp|c n rq1 t e n' w' ph Hn Hmax E Hc Hroom|c n rq1 t idx ph Hn Ha]; try done.
  cbn [fst snd]. unfold prepare in Hp. destruct rq1 as [t1|].
  - destruct (db.PrepareCommit d t1) as [[[d1 t2] [[[? ?]|]|?|]]|]; cbn in Hp; by simplify_eq.
  - destruct (db.PrepareNoop d) as [d1 [[? ?]|?|]]; by simplify_eq.
Qed.

(** Wherever a commit call got to, it appended at most one entry. *)
Lemma commit_at_most_once c tx l c' rq ph :
  call_trace (c, (Commit tx, Check)) l (c', (rq, ph)) -> (length l <= 1)%nat.
Proof.
  intros H. pose proof (may_have_trace _ _ _ H [] eq_refl) as Hm. cbn [fst snd app] in Hm.
  destruct ph as [| | | |[[[]|e]|]]; cbn in Hm; try done; try (rewrite Hm; cbn; lia); lia.
Qed.

(** The outcomes of a commit. *)
Lemma commit_outcome c tx l c' rq r :
  call_trace (c, (Commit tx, Check)) l (c', (rq, Returned r)) ->
  (length l <= 1)%nat
  /\ match r with
     | None => True
     | Some (NodeErr ErrMaybeCommitted) => length l = 1%nat
     | Some _ => l = []
     end.
Proof.
  intros H. pose proof (trace_kind _ _ _ H) as Hk. pose proof (may_have_trace _ _ _ H [] eq_refl) as Hm.
  cbn [fst snd is_commit app] in *. destruct r as [[[]|]|]; cbn in Hm; try done.
  - destruct Hm as [? Hm]. split; [done|]. by apply Hm.
  - rewrite Hm. split; [cbn; lia|done].
  - destruct Hm as [_ Hm]. split; [lia|done].
  - rewrite Hm. split; [cbn; lia|done].
Qed.

(** ** What a returned call means *)

Section returned.
Context (Hall : forall p b, C !! p = Some b -> b = true).

(** The proposal of a waiting call, in the history of the run. *)
Lemma proposal_led c1 g1 h1 t e idx c2 :
  safe_inv C c1 g1 h1 -> proposed_at c1 t e idx c2 ->
  exists ha gb hb P, extends h1 ha /\ history_ok (dom C) ha /\ led ha !! t = Some P /\ idx = len P + 1
    /\ extends ha hb /\ led hb !! t = Some (P ++ [MkLogEntry t EntryData e])
    /\ exists cb, safe_inv C cb gb hb /\ rtc (clean_step (S := S) true C) cb c2.
Proof.
  intros H1 (ca & n & rq & n' & w' & Hrun & Hn & E & Hroom & Hst & Hrest).
  destruct (safe_run Hall c1 ca Hrun g1 h1 H1) as (ga & ha & Hexa & Ha).
  destruct (safe_step Hall ca ga ha _ Ha Hst) as (gb & hb & Hexb & Hb).
  pose proof (mi_nodes _ _ _ _ (si_match _ _ _ _ Ha) j n Hn) as [H_1 H_2 H_3 (lf & H_4) H_5 H_6].
  unfold proposeEntry in E. apply bind_inv in E as (r & n1 & w1 & E & [= Er <- <-]).
  destruct r as [?|idx']; [done|]. injection Er as ->.
  destruct (propose_log t EntryData e lf _ _ _ H_4 H_3 H_2 Hroom E)
    as [(_ & _ & err & ?)|(HL & HT & [= ->] & lf' & w2 & Hl' & Hcf & E2 & ->)]; [done|].
  destruct (maybeAdvanceCommit_kept _ _ _ _ _ E2) as (_ & K2 & _); [unfold proposed; by case_decide|].
  destruct (propose_quiet t EntryData e n (MkWorld [] []) _ n1 _ E) as (_ & Q2 & _ & Q4 & _).
  pose proof (mi_nodes _ _ _ _ (si_match _ _ _ _ Hb) j n1 ltac:(apply lookup_insert_eq)) as Htb.
  exists ha, gb, hb, (entries (log n)). split; [done|]. split; [by apply (si_ok _ _ _ _ Ha)|]. split; [rewrite <- HT; by apply H_6|].
  split; [done|]. split; [done|]. split; [|eexists; by split].
  assert (led hb !! t = Some (entries (log n1))) as -> by (rewrite <- HT, <- Q2; apply (tr_leader _ _ Htb); congruence).
  f_equal. rewrite K2. symmetry. apply (whole_log _ lf'); [unfold proposed; by case_decide|done].
Qed.

(** A call whose wait is over and whose entry is still in place. *)
Definition in_place (c : cluster) (t idx : Z) (nj : Node) : Prop :=
  nodes c !! j = Some nj /\ awaitApplied idx nj = Some None /\ term (log nj) idx = Some t.

Lemma waited c1 g1 h1 t e idx c2 nj :
  safe_inv C c1 g1 h1 -> proposed_at c1 t e idx c2 -> in_place c2 t idx nj ->
  exists ha g2 h2 P, extends h1 ha /\ history_ok (dom C) ha /\ led ha !! t = Some P /\ idx = len P + 1
    /\ extends ha h2 /\ safe_inv C c2 g2 h2
    /\ entries (log nj) !! length P = Some (MkLogEntry t EntryData e) /\ idx <= lastApplied nj <= commitIndex nj.
Proof.
  intros H1 Hp (Hnj & Haw & Ht). destruct (proposal_led c1 g1 h1 t e idx c2 H1 Hp)
    as (ha & gb & hb & P & Hexa & Hoka & HP & -> & Hexb & HPb & cb & Hb & Hrun).
  destruct (safe_run Hall cb c2 Hrun gb hb Hb) as (g2 & h2 & Hex2 & H2). exists ha, g2, h2, P.
  split_and!; try done; [by etrans| | |].
  - pose proof (mi_nodes _ _ _ _ (si_match _ _ _ _ H2) j nj Hnj) as [_ _ Hb0 (lf & [Hr _ _]) Hs _].
    unfold awaitApplied in Haw. case_decide as Ha; [|by case_decide].
    pose proof (si_nodes _ _ _ _ H2 j nj Hnj) as Hns. pose proof (backed_len (dom C) h2 _ _ _ (si_ok _ _ _ _ H2) (ns_commit _ _ _ _ Hns)) as Hl.
    pose proof (ns_applied _ _ _ _ Hns) as [_ Hca]. pose proof (len_nonneg P) as HP0.
    rewrite (rep_term_at Hr) in Ht by lia. injection Ht as Ht. unfold full_term in Ht. rewrite decide_False in Ht by lia.
    replace (Z.to_nat (len P + 1 - 1)) with (length P) in Ht by (unfold len; lia).
    destruct (lookup_lt_is_Some_2 (entries (log nj)) (length P)) as [x Hx]; [unfold len in *; lia|].
    rewrite Hx in Ht. cbn in Ht. destruct (ex_led _ _ Hex2 _ _ HPb) as (P2 & HP2 & Hpre).
    destruct (Hs _ _ Hx) as (P3 & HP3 & Hpre3). rewrite Ht, HP2 in HP3. injection HP3 as <-.
    assert (P2 !! length P = Some (MkLogEntry t EntryData e)) as E1.
    { eapply prefix_lookup_Some; [|exact Hpre]. by rewrite lookup_app_r, Nat.sub_diag. }
    assert (P2 !! length P = Some x) as E2.
    { eapply prefix_lookup_Some; [|exact Hpre3]. by rewrite lookup_take_lt by lia. }
    congruence.
  - unfold awaitApplied in Haw. case_decide as Ha; [lia|by case_decide].
  - apply (si_nodes _ _ _ _ H2 j nj Hnj).
Qed.

(** C3.  Linearizable reads, in the runs of state machine safety: fixed membership
    of voters, working disks, no compaction, replicators that take no late reply
    for that of their round, stores that recover nothing that was not applied.
    Whatever a node knew to be committed at some point of the run, a read that
    starts its barrier later, on any node, is placed behind it: when the barrier's
    wait is over and its no-op still is the entry it proposed, the no-op's index
    is above everything that was committed, and the entries the node has applied,
    then or later, begin with all of it.  Leader changes, lost messages, crashes
    and restarts may come in between. *)
Theorem linearizable_read c0 c1 cs c2 c3 i ni rq t idx nj nj' :
  init C c0 -> (forall i n, nodes c0 !! i = Some n -> SnapshotThreshold (cfg n) <= 0) ->
  rtc (clean_step (S := S) true C) c0 c1 -> nodes c1 !! i = Some ni -> rtc (clean_step (S := S) true C) c1 cs ->
  rtc call_step (cs, (ReadBarrier, Check)) (c2, (rq, Await t idx)) -> in_place c2 t idx nj ->
  rtc (clean_step (S := S) true C) c2 c3 -> nodes c3 !! j = Some nj' -> idx <= lastApplied nj' ->
  commitIndex ni < idx
  /\ take (Z.to_nat (commitIndex ni)) (entries (log ni))
       `prefix_of` take (Z.to_nat (lastApplied nj')) (entries (log nj')).
Proof.
  intros Hi Hoff Hs1 Hni Hs Hcall Hin Hs3 Hnj' Hla. destruct (init_safe c0 Hi Hoff) as (g0 & H0).
  destruct (safe_run Hall c0 c1 Hs1 g0 _ H0) as (g1 & h1 & _ & H1). destruct (safe_run Hall c1 cs Hs g1 h1 H1) as (gs & hs & Hexs & Hsv).
  destruct (call_behind _ _ _ _ _ Hcall) as (e & _ & Hp).
  destruct (waited cs gs hs t e idx c2 nj Hsv Hp Hin) as (ha & g2 & h2 & P & Hexa & Hoka & HP & -> & Hex2 & H2 & He & Hap).
  destruct (safe_run Hall c2 c3 Hs3 g2 h2 H2) as (g3 & h3 & Hex3 & H3).
  assert (extends h1 h3) as Hex by (etrans; [exact Hexs|]; etrans; [exact Hexa|]; by etrans).
  assert (commitIndex ni < len P + 1) as Hlt.
  { destruct (ns_commit _ _ _ _ (si_nodes _ _ _ _ H1 i ni Hni)) as [_ [->|(T1 & k1 & Hc & Hk & _)]]; [pose proof (len_nonneg P); lia|].
    enough (k1 <= len P) by lia. destruct Hin as (Hnj & _).
    eapply (fresh_index (si_ok _ _ _ _ H1) Hoka (si_ok _ _ _ _ H2)); [etrans; [exact Hexs|exact Hexa]|exact Hex2|done|exact HP| | |exact He|done].
    - apply (si_nodes _ _ _ _ H2 j nj Hnj).
    - lia. }
  split; [done|]. pose proof (ns_applied _ _ _ _ (si_nodes _ _ _ _ H3 j nj' Hnj')) as Hca.
  rewrite (later_agree H1 H3 Hex i j ni nj' (commitIndex ni)) by (done || lia).
  replace (Z.to_nat (commitIndex ni)) with (Z.to_nat (commitIndex ni) `min` Z.to_nat (lastApplied nj'))%nat by lia.
  rewrite <- take_take. apply prefix_take_self.
Qed.

(** C4.  Durable writes, in the runs of state machine safety: fixed membership of
    voters, working disks, no compaction, replicators that take no late reply for
    that of their round, stores that recover nothing that was not applied.  A
    commit call whose wait is over with its entry still in place has the entry the
    store prepared for its transaction at its index, in its term, as long as the
    run goes on like that: every node that comes to know the index committed has
    it there, and every later leader has it. *)
Theorem write_durable c0 cs c2 c3 tx rq t idx nj :
  init C c0 -> (forall i n, nodes c0 !! i = Some n -> SnapshotThreshold (cfg n) <= 0) ->
  rtc (clean_step (S := S) true C) c0 cs ->
  rtc call_step (cs, (Commit tx, Check)) (c2, (rq, Await t idx)) -> in_place c2 t idx nj ->
  rtc (clean_step (S := S) true C) c2 c3 ->
  exists e, made (Commit tx) t e /\ 1 <= idx
    /\ forall i n, nodes c3 !! i = Some n ->
         idx <= commitIndex n \/ (role n = Leader /\ currentTerm nj <= currentTerm n) ->
         entries (log n) !! Z.to_nat (idx - 1) = Some (MkLogEntry t EntryData e).
Proof.
  intros Hi Hoff Hs Hcall Hin Hs3. destruct (init_safe c0 Hi Hoff) as (g0 & H0).
  destruct (safe_run Hall c0 cs Hs g0 _ H0) as (gs & hs & _ & Hsv).
  destruct (call_behind _ _ _ _ _ Hcall) as (e & Hm & Hp).
  destruct (waited cs gs hs t e idx c2 nj Hsv Hp Hin) as (ha & g2 & h2 & P & _ & _ & _ & -> & _ & H2 & He & Hap).
  destruct (safe_run Hall c2 c3 Hs3 g2 h2 H2) as (g3 & h3 & Hex3 & H3). destruct Hin as (Hnj & _).
  pose proof (len_nonneg P) as HP0. exists e. split; [done|]. split; [lia|]. intros i n Hn Hor.
  replace (Z.to_nat (len P + 1 - 1)) with (length P) by (unfold len; lia).
  assert (forall k, len P < k -> take (Z.to_nat k) (entries (log nj)) !! length P = Some (MkLogEntry t EntryData e)) as Htk.
  { intros k Hk. rewrite lookup_take_lt; [done|]. unfold len in Hk. lia. }
  destruct Hor as [Hci|[HL HT]].
  - pose proof (later_agree H2 H3 Hex3 j i nj n (len P + 1) Hnj Hn ltac:(lia) Hci) as E.
    specialize (Htk (len P + 1) ltac:(lia)). rewrite E in Htk. by apply lookup_take_Some in Htk as [? _].
  - eapply prefix_lookup_Some; [apply (Htk (commitIndex nj)); lia|]. by apply (later_leader H2 H3 Hex3 j i).
Qed.

End returned.

End calls.

(** ** Runs by evaluation *)

#[local] Existing Instance counter.

Definition exec_call (C : Members) (j : NodeID) (d : db.DB) (x : cluster * (request * phase))
  : option (cluster * (request * phase)) :=
  let '(c, (rq, ph)) := x in
  match ph with
  | Check => n ← nodes c !! j; Some (c, (rq, check n))
  | Prepare t => '(_, rq', ph') ← prepare rq t d; Some (c, (rq', ph'))
  | Propose t e =>
      n ← nodes c !! j;
      '(ph', n', w') ← proposeEntry rq t e n (MkWorld [] []);
      if bool_decide (currentTerm n < max_u64 /\ config n' = Some C /\ act_room (S := nat) n (APropose t EntryData e))
      then Some (MkCluster (<[j := n']> (nodes c)) (net c ++ sends (out w')), (rq, ph')) else None
  | Await t idx => n ← nodes c !! j; ph' ← await rq idx n; Some (c, (rq, ph'))
  | Returned _ => None
  end.

Lemma exec_call_step C j d x y : exec_call C j d x = Some y -> call_step (S := nat) C j x y.
Proof.
  destruct x as [c [rq ph]]. unfold exec_call. destruct ph as [|t|t e|t idx|r]; [..|done].
  - destruct (nodes c !! j) as [n|] eqn:Hn; [|done]. intros [= <-]. by apply call_check.
  - destruct (prepare rq t d) as [[[d' rq'] ph']|] eqn:E; [|done]. intros [= <-]. by eapply call_prepare.
  - destruct (nodes c !! j) as [n|] eqn:Hn; [|done]. cbn [mbind option_bind].
    destruct (proposeEntry rq t e n _) as [[[ph' n'] w']|] eqn:E; [|done]. cbn [mbind option_bind].
    case_bool_decide as H; [|done]. intros [= <-]. destruct H as (?&?&?). by eapply call_propose.
  - destruct (nodes c !! j) as [n|] eqn:Hn; [|done]. cbn [mbind option_bind].
    destruct (await rq idx n) as [ph'|] eqn:E; [|done]. intros [= <-]. by eapply call_await.
Qed.

(** An open store without data. *)
Definition demo_db : option db.DB :=
  match db.OpenWith None (db.MkDisk ∅ None None) (db.MkOptions true 0 2 true) (fun _ _ => false) with
  | Ok d => Some d
  | _ => None
  end.

(** The first three sections of a call. *)
Definition exec_call3 (C : Members) (j : NodeID) (d : db.DB) (c : cluster) (rq : request)
  : option (cluster * (request * phase)) :=
  x ← exec_call C j d (c, (rq, Check)); x ← exec_call C j d x; exec_call C j d x.

Lemma exec_call3_steps C j d c rq y :
  exec_call3 C j d c rq = Some y -> rtc (call_step (S := nat) C j) (c, (rq, Check)) y.
Proof.
  unfold exec_call3. destruct (exec_call C j d (c, (rq, Check))) as [x1|] eqn:E1; [|done]. cbn [mbind option_bind].
  destruct (exec_call C j d x1) as [x2|] eqn:E2; [|done]. cbn [mbind option_bind]. intros E3.
  eapply rtc_l; [by eapply exec_call_step|]. eapply rtc_l; [by eapply exec_call_step|]. eapply rtc_once. by eapply exec_call_step.
Qed.

(** A move of the group. *)
Inductive move :=
| MAct (i : NodeID) (a : act (S := nat))
| MDeliver (k : nat)
| MReply (k : nat) (p : NodeID) (r : Round).

Definition exec_move (C : Members) (c : cluster) (m : move) : option cluster :=
  match m with
  | MAct i a => exec_act C c i a
  | MDeliver k => exec_deliver C c k
  | MReply k p r => exec_reply C c k p r
  end.

Fixpoint exec_moves (C : Members) (c : cluster) (ms : list move) : option cluster :=
  match ms with
  | [] => Some c
  | m :: ms' => c' ← exec_move C c m; exec_moves C c' ms'
  end.

Lemma exec_moves_clean C ms : forall c c', exec_moves C c ms = Some c' -> rtc (clean_step (S := nat) true C) c c'.
Proof.
  induction ms as [|m ms IH]; intros c c' E; cbn [exec_moves] in E; [injection E as <-; apply rtc_refl|].
  destruct (exec_move C c m) as [c1|] eqn:E1; [|done]. cbn [mbind option_bind] in E. eapply rtc_l; [|by apply IH].
  destruct m as [i a|k|k p r]; cbn [exec_move] in E1; [by eapply exec_act_clean|by eapply exec_deliver_clean|by eapply exec_reply_clean].
Qed.

Lemma calls_env C j k c c' :
  rtc (clean_step (S := nat) true C) c c' -> rtc (call_step (S := nat) C j) (c, k) (c', k).
Proof. induction 1 as [|c c1 c2 H1 _ IH]; [apply rtc_refl|]. eapply rtc_l; [by apply call_env|exact IH]. Qed.

#[export] Instance error_eq_dec : EqDecision node.error.
Proof. solve_decision. Defined.

Definition is_waiting (j t idx : Z) (c : cluster) : bool :=
  match nodes c !! j with
  | Some n => bool_decide (awaitApplied idx n = Some None /\ term (log n) idx = Some t /\ idx <= commitIndex n)
  | None => false
  end.

Lemma is_waiting_in_place j t idx c :
  is_waiting j t idx c = true -> exists nj, in_place j c t idx nj /\ idx <= lastApplied nj /\ idx <= commitIndex nj.
Proof.
  unfold is_waiting, in_place. destruct (nodes c !! j) as [n|]; [|done]. intros (Ha & Ht & Hc)%bool_decide_eq_true.
  exists n. split_and!; try done. unfold awaitApplied in Ha. case_decide; [lia|by case_decide].
Qed.

(** A call on node 0, run until the group has made [ms] after its proposal. *)
Definition exec_call_moves (d : db.DB) (c : cluster) (rq : request) (ms : list move) : option (cluster * (request * phase)) :=
  '(c, k) ← exec_call3 demo_config 0 d c rq; c ← exec_moves demo_config c ms; Some (c, k).

Lemma exec_call_moves_steps d c rq ms y :
  exec_call_moves d c rq ms = Some y -> rtc (call_step (S := nat) demo_config 0) (c, (rq, Check)) y.
Proof.
  unfold exec_call_moves. destruct (exec_call3 _ _ _ _ _) as [[c1 k]|] eqn:E1; [|done]. cbn [mbind option_bind].
  destruct (exec_moves _ _ _) as [c2|] eqn:E2; [|done]. cbn [mbind option_bind]. intros [= <-].
  etrans; [by eapply exec_call3_steps|]. by eapply calls_env, exec_moves_clean.
Qed.

(** A transaction that puts "v" under "k". *)
Definition demo_tx (d : db.DB) : option (db.DB * db.Txn) :=
  let '(d, t) := db.Begin d in match db.txn_Put t [x6b] [x76] with Ok t => Some (d, t) | _ => None end.

(** Node 0 proposes, node 1 acknowledges, node 0 commits and applies. *)
Definition demo_write_moves : list move :=
  [MAct 0 (ASendRound 1); MDeliver 0; MReply 0 1 (MkRound 1 0 1); MAct 0 (AApply 0%nat)].
Definition demo_read_moves : list move :=
  [MAct 0 (ASendRound 1); MDeliver 0; MReply 0 1 (MkRound 1 1 1); MAct 0 (AApply 0%nat); MAct 0 (AApply 0%nat)].

(** Node 0 waits, its entry in place and applied. *)
Definition waits (t idx : Z) (d : db.DB) (c : cluster) (rq : request) (ms : list move) : bool :=
  match exec_call_moves d c rq ms with
  | Some (c2, (_, Await t' idx')) => bool_decide (t' = t /\ idx' = idx) && is_waiting 0 t idx c2
  | _ => false
  end.

Lemma waits_run t idx d c rq ms : waits t idx d c rq ms = true ->
  exists c2 rq' nj, rtc (call_step (S := nat) demo_config 0) (c, (rq, Check)) (c2, (rq', Await t idx))
    /\ in_place 0 c2 t idx nj /\ idx <= lastApplied nj /\ idx <= commitIndex nj.
Proof.
  unfold waits. destruct (exec_call_moves d c rq ms) as [[c2 [rq' ph]]|] eqn:E; [|done]. destruct ph as [| | |t' idx'|]; try done.
  intros [[-> ->]%bool_decide_eq_true (nj & Hin)%is_waiting_in_place]%andb_true_iff. apply exec_call_moves_steps in E.
  by exists c2, rq', nj.
Qed.

(** A property of the open store, by evaluation. *)
Definition on_demo_db (P : db.DB -> bool) : bool := match demo_db with Some d => P d | None => false end.

Lemma on_demo_db_some P : on_demo_db P = true -> exists d, P d = true.
Proof. unfold on_demo_db. destruct demo_db as [d|]; [by exists d|done]. Qed.

Definition waits_tx (t idx : Z) (c : cluster) (ms : list move) (d : db.DB) : bool :=
  match demo_tx d with Some (d1, tx) => waits t idx d1 c (Commit tx) ms | None => false end.

Lemma demo_read_run : exists c2 rq nj, rtc (call_step (S := nat) demo_config 0) (demo4, (ReadBarrier, Check)) (c2, (rq, Await 1 2))
  /\ in_place 0 c2 1 2 nj /\ 2 <= lastApplied nj /\ 2 <= commitIndex nj.
Proof.
  assert (on_demo_db (fun d => waits 1 2 d demo4 ReadBarrier demo_read_moves) = true) as F by (vm_compute; reflexivity).
  apply on_demo_db_some in F as [d F]. by apply waits_run in F.
Qed.

Lemma demo_write_run : exists d d1 tx c2 rq nj, storePut d [x6b] [x76] = Some (d1, inr (Commit tx))
  /\ rtc (call_step (S := nat) demo_config 0) (demo_start, (Commit tx, Check)) (c2, (rq, Await 1 1))
  /\ in_place 0 c2 1 1 nj /\ 1 <= lastApplied nj /\ 1 <= commitIndex nj.
Proof.
  assert (on_demo_db (waits_tx 1 1 demo_start demo_write_moves) = true) as F by (vm_compute; reflexivity).
  apply on_demo_db_some in F as [d F]. unfold waits_tx in F. destruct (demo_tx d) as [[d1 tx]|] eqn:Et; [|done].
  exists d, d1, tx. apply waits_run in F as (c2 & rq & nj & H). exists c2, rq, nj. split; [|done]. unfold demo_tx in Et. unfold storePut.
  destruct (db.Begin d) as [d0 t0]. destruct (db.txn_Put t0 [x6b] [x76]) as [t1|e|]; [|done..]. by injection Et as -> ->.
Qed.

Lemma demo_write_returned : exists d d1 tx c rq, storePut d [x6b] [x76] = Some (d1, inr (Commit tx))
  /\ rtc (call_step (S := nat) demo_config 0) (demo_start, (Commit tx, Check)) (c, (rq, Returned None)).
Proof.
  destruct demo_write_run as (d & d1 & tx & c & rq & nj & Hp & Hrun & (Hn & Ha & _) & _). exists d, d1, tx, c, rq. split; [done|].
  eapply rtc_r; [exact Hrun|]. apply (call_await _ _ c nj rq 1 1); [done|]. unfold await. by rewrite Ha.
Qed.

(** The read starts when node 0 has committed one entry. *)
Lemma linearizable_read_witness :
  exists n0 c2 nj, nodes demo4 !! 0 = Some n0 /\ commitIndex n0 = 1 /\ in_place 0 c2 1 2 nj
    /\ commitIndex n0 < 2 /\ take 1 (entries (log n0)) `prefix_of` take (Z.to_nat (lastApplied nj)) (entries (log nj)).
Proof.
  destruct (nodes demo4 !! 0) as [n0|] eqn:E0; [|vm_compute in E0; done].
  assert (commitIndex <$> nodes demo4 !! 0 = Some 1) as F0 by (vm_compute; reflexivity). rewrite E0 in F0. injection F0 as F0.
  destruct demo_read_run as (c2 & rq & nj & Er & Hin & Hla & _).
  destruct (linearizable_read demo_config 0 (fun p b Hp => proj2 (proj1 demo_config_wf p b Hp)) demo_start demo4 demo4 c2 c2 0 n0
    rq 1 2 nj nj demo_init demo_uncompacted demo_commit_run E0 (rtc_refl _ _) Er Hin (rtc_refl _ _) (proj1 Hin) Hla) as [H1 H2].
  rewrite F0 in H2. exists n0, c2, nj. split_and!; done.
Defined.

(** The transaction's entry is in the log of node 0. *)
Lemma write_durable_witness :
  exists c2 nj tx e, in_place 0 c2 1 1 nj /\ made (Commit tx) 1 e
    /\ entries (log nj) !! 0%nat = Some (MkLogEntry 1 EntryData e).
Proof.
  destruct demo_write_run as (_ & _ & tx & c2 & rq & nj & _ & Ew & Hin & _ & Hci).
  destruct (write_durable demo_config 0 (fun p b Hp => proj2 (proj1 demo_config_wf p b Hp)) demo_start demo_start c2 c2 tx rq 1 1 nj
    demo_init demo_uncompacted (rtc_refl _ _) Ew Hin (rtc_refl _ _)) as (e & Hm & _ & He).
  exists c2, nj, tx, e. split; [done|]. split; [done|]. apply (He 0 nj (proj1 Hin)). by left.
Defined.

(** ** The wait does not look at the entry

    Node 1 is elected in term 2 by node 2, proposes "b" and commits it with
    node 2, and again "c"; an AppendEntries with "b" alone is on its way to
    node 0, which still leads term 1. *)
Definition overtaking : list move :=
  [MAct 1 (ACampaign false); MDeliver 1; MDeliver 1; MAct 1 (APropose 2 EntryData [x62]);
   MAct 1 (ASendRound 2); MDeliver 1; MReply 1 2 (MkRound 2 0 1); MAct 1 (ASendRound 0);
   MAct 1 (APropose 2 EntryData [x63]); MAct 1 (ASendRound 2); MDeliver 2; MReply 2 2 (MkRound 2 1 1)].
Definition overtaken : cluster := default demo_start (exec_moves demo_config demo_start overtaking).

Lemma default_moves C c ms :
  bool_decide (is_Some (exec_moves C c ms)) = true -> rtc (clean_step (S := nat) true C) c (default c (exec_moves C c ms)).
Proof. intros [c' E]%bool_decide_eq_true. apply (exec_moves_clean C ms). by rewrite E. Qed.

(** A call starts on node 0 and proposes; the message arrives, node 0 applies
    what it says is committed; the call looks. *)
Definition overwritten_call (d : db.DB) (rq : request) : option (cluster * (request * phase)) :=
  '(c, k) ← exec_call_moves d overtaken rq [MDeliver 1; MAct 0 (AApply 0%nat)]; exec_call demo_config 0 d (c, k).

Definition returned_nil (d : db.DB) (rq : request) (P : cluster -> bool) : bool :=
  match overwritten_call d rq with Some (c, (_, Returned None)) => P c | _ => false end.

Lemma returned_nil_run d rq P : returned_nil d rq P = true ->
  exists c rq', rtc (call_step (S := nat) demo_config 0) (overtaken, (rq, Check)) (c, (rq', Returned None)) /\ P c = true.
Proof.
  unfold returned_nil, overwritten_call. destruct (exec_call_moves _ _ _ _) as [[c1 k]|] eqn:E1; [|done]. cbn [mbind option_bind].
  destruct (exec_call _ _ _ _) as [[c [rq' ph]]|] eqn:E2; [|done]. destruct ph as [| | | |[e|]]; [discriminate..|]. intros HP.
  exists c, rq'. split; [|done]. etrans; [by eapply exec_call_moves_steps|]. apply rtc_once. by eapply exec_call_step.
Qed.

(** Everyone has "b" of term 2 first, and knows it committed. *)
Definition replaced (c : cluster) : bool :=
  bool_decide (map_Forall (fun _ n => take 1 (entries (log n)) = [MkLogEntry 2 EntryData [x62]] /\ 1 <= commitIndex n) (nodes c)).

Definition lost_write (d : db.DB) : bool :=
  match demo_tx d with
  | Some (d1, tx) => bool_decide (size (db.writes tx) = 1%nat) && returned_nil d1 (Commit tx) replaced
  | None => false
  end.

Lemma lost_write_run d : lost_write d = true ->
  exists tx c rq, rtc (call_step (S := nat) demo_config 0) (overtaken, (Commit tx, Check)) (c, (rq, Returned None))
    /\ db.writes tx <> ∅
    /\ forall i n, nodes c !! i = Some n -> take 1 (entries (log n)) = [MkLogEntry 2 EntryData [x62]] /\ 1 <= commitIndex n.
Proof.
  unfold lost_write. destruct (demo_tx d) as [[d1 tx]|]; [|done].
  intros [Hs%bool_decide_eq_true (c & rq & Hrun & HP)%returned_nil_run]%andb_true_iff. exists tx, c, rq.
  split_and!; [done| |by apply bool_decide_eq_true in HP]. intros E. by rewrite E, map_size_empty in Hs.
Qed.

Definition behind_two (c : cluster) : bool :=
  bool_decide ((fun n => (role n, lastApplied n, len (entries (log n)))) <$> nodes c !! 0 = Some (Follower, 1, 1)).

(** C39. A call whose entry was overwritten can return nil.  A stale leader
    proposes, one AppendEntries of the new leader replaces the entry and commits
    the index, the node applies it before the waiting call looks, and the call
    takes that for its own.  So a write is reported as done that no node has or
    will have (its index is committed with another entry everywhere), and a read
    returns from its barrier on a node that lacks an entry another node had
    committed before the read began. *)
Theorem overwritten_entry_returns_nil :
  rtc (clean_step (S := nat) true demo_config) demo_start overtaken
  /\ (exists tx c rq, rtc (call_step (S := nat) demo_config 0) (overtaken, (Commit tx, Check)) (c, (rq, Returned None))
       /\ db.writes tx <> ∅
       /\ forall i n, nodes c !! i = Some n -> take 1 (entries (log n)) = [MkLogEntry 2 EntryData [x62]] /\ 1 <= commitIndex n)
  /\ exists c rq n0 n1, nodes overtaken !! 1 = Some n1 /\ commitIndex n1 = 2
       /\ rtc (call_step (S := nat) demo_config 0) (overtaken, (ReadBarrier, Check)) (c, (rq, Returned None))
       /\ nodes c !! 0 = Some n0 /\ role n0 = Follower /\ lastApplied n0 = 1 /\ len (entries (log n0)) = 1.
Proof.
  assert (bool_decide (commitIndex <$> nodes overtaken !! 1 = Some 2) = true) as F0 by (vm_compute; reflexivity).
  assert (on_demo_db lost_write = true) as F2 by (vm_compute; reflexivity).
  assert (on_demo_db (fun d => returned_nil d ReadBarrier behind_two) = true) as F3 by (vm_compute; reflexivity).
  split; [apply default_moves; vm_compute; reflexivity|]. split.
  - apply on_demo_db_some in F2 as [d F2]. by apply lost_write_run in F2.
  - apply on_demo_db_some in F3 as [d (c & rq & Hrun & HP)%returned_nil_run].
    apply bool_decide_eq_true in F0. apply fmap_Some in F0 as (n1 & Hn1 & Hc1).
    apply bool_decide_eq_true in HP. apply fmap_Some in HP as (n0 & Hn0 & Hv). injection Hv as Hv1 Hv2 Hv3.
    exists c, rq, n0, n1. by split_and!.
Qed.

(** ** A leader prepares before it has applied what it inherited *)

Definition put_tx (d : db.DB) (v : bytes) : option (db.DB * db.Txn) :=
  let '(d, t) := db.Begin d in match db.txn_Put t [x6b] v with Ok t => Some (d, t) | _ => None end.

Definition prepared_entry (d : db.DB) (t : db.Txn) : option (db.DB * bytes) :=
  '(d, _, r) ← db.PrepareCommit d t; match r with Ok (Some (e, _)) => Some (d, e) | _ => None end.

(** A transaction puts "1" under "k" on node 0, which node 1 acknowledges, and
    returns.  Node 1 is elected; a transaction on it reads "k" and puts "2", and
    returns once node 0 has acknowledged it.  The results of the two commits, what
    the second one read, what a read of "k" finds when both entries are applied,
    and what the second commit gets on a store that has applied the first. *)
Definition inherited_run : option (phase * phase * outcome db.error bytes * outcome db.error bytes * phase) :=
  d ← demo_db; '(dA, t1) ← put_tx d [x31];
  '(c, k1) ← exec_call3 demo_config 0 dA demo_start (Commit t1);
  c ← exec_moves demo_config c demo_write_moves;
  '(c, (_, r1)) ← exec_call demo_config 0 dA (c, k1);
  c ← exec_moves demo_config c [MAct 1 (ACampaign false); MDeliver 0; MDeliver 1];
  '(dB, t2) ← put_tx d [x32];
  let read := (db.txn_Get dB (db.Begin d).2 [x6b]).2 in
  '(c, k2) ← exec_call3 demo_config 1 dB c (Commit t2);
  c ← exec_moves demo_config c
        [MAct 1 (ASendRound 0); MDeliver 1; MReply 1 0 (MkRound 2 1 1); MAct 1 (AApply 0%nat); MAct 1 (AApply 0%nat)];
  '(c, (_, r2)) ← exec_call demo_config 1 dB (c, k2);
  n ← nodes c !! 1;
  '(dB, _, _) ← prepare (Commit t2) 2 dB;
  match entries (log n) with
  | [e1; e2] =>
      d1 ← snapshot.apply_at dB 1 (e_bytes e1); d2 ← snapshot.apply_at d1 2 (e_bytes e2);
      dC ← snapshot.apply_at d 1 (e_bytes e1); '(_, _, r) ← prepare (Commit t2) 2 dC;
      Some (r1, r2, read, (db.Get d2 [x6b]).2, r)
  | _ => None
  end.

(** A lost update across a change of leaders.  A new leader prepares commits
    against a store that has not applied the entries it was elected with, and the
    conflict check cannot see them: a transaction that did not see an acknowledged
    write commits over it, and both return nil; on a store that has applied the
    first entry the second commit is a conflict. *)
Theorem fresh_leader_loses_update :
  inherited_run = Some (Returned None, Returned None, Err db.ErrKeyNotFound, Ok [x32], Returned (Some (StoreErr db.ErrConflict))).
Proof. vm_compute. reflexivity. Qed.

Definition control_at (d : db.DB) (idx : Z) : option db.DB :=
  match db.ApplyControlEntry d (db.MkDisk ∅ None None) idx with Some (d', _, None) => Some d' | _ => None end.

(** Two stores apply a write, a configuration entry and a write prepared on the
    second of them; the first one had also prepared a commit that was never
    proposed.  A transaction that begins before the last entry is applied commits
    after it on the first store, and is a conflict on the second. *)
Definition control_run : option ((Z * Z) * outcome db.error unit * outcome db.error unit) :=
  d ← demo_db; '(d, t1) ← put_tx d [x31]; '(d, e1) ← prepared_entry d t1; d ← snapshot.apply_at d 1 e1;
  '(x, t2) ← put_tx d [x32]; '(x, _) ← prepared_entry x t2;
  x ← control_at x 2; y ← control_at d 2;
  '(y0, t3) ← put_tx y [x33]; '(_, e3) ← prepared_entry y0 t3;
  '(x, tx) ← put_tx x [x34]; '(y, ty) ← put_tx y [x34];
  x' ← snapshot.apply_at x 3 e3; y' ← snapshot.apply_at y 3 e3;
  '(_, _, rx) ← db.PrepareCommit x' tx; '(_, _, ry) ← db.PrepareCommit y' ty;
  Some ((db.appliedTS x, db.appliedTS y),
        match rx with Ok _ => Ok tt | Err e => Err e | Panic => Panic end,
        match ry with Ok _ => Ok tt | Err e => Err e | Panic => Panic end).

(** A configuration entry is stamped with the store's own next timestamp, which a
    prepared commit has moved, applied or not. *)
Example control_entry_hides_conflict : control_run = Some ((3, 2), Ok tt, Err db.ErrConflict).
Proof. vm_compute. reflexivity. Qed.

End client.
