(* ===== verification/Transport.v ===== *)
(** * Transport (internal/cluster/transport.go)

    What the nodes ask of a transport, as an interface, and the in-process
    implementation: one bounded FIFO inbox per registered node.  A [Send] to a
    full inbox blocks. *)

From Stdlib Require Import ZArith Lia.
From Stdlib Require Import Strings.Byte.
From stdpp Require Import base list gmap.
From S2P Require Import Prelude.
From S2P Require Import RaftNode.

#[local] Open Scope Z_scope.

Module transport.

Abbreviation NodeID := node.NodeID.
Abbreviation Message := node.Message.

(** A call of [Send]: an error, still blocked, or done. *)
Inductive sent (T : Type) := NoInbox | Blocked | Delivered (t : T).
#[global] Arguments NoInbox {T}.
#[global] Arguments Blocked {T}.
#[global] Arguments Delivered {T} t.

(** ** The interface

    [Receive] is a receive from the channel that [Inbox] returns; [None] blocks.
    A transport may lose messages, but it makes none up and delivers none
    twice. *)
Class Transport (T : Type) := {
  Register : NodeID -> T -> T;
  Send : NodeID -> Message -> T -> sent T;
  Receive : NodeID -> T -> option (Message * T);
  in_flight : T -> list (NodeID * Message);
  register_in_flight i t : in_flight (Register i t) ⊆+ in_flight t;
  send_in_flight to m t t' : Send to m t = Delivered t' -> in_flight t' ⊆+ (to, m) :: in_flight t;
  receive_in_flight i m t t' : Receive i t = Some (m, t') -> (i, m) :: in_flight t' ⊆+ in_flight t
}.

(** ** The channel transport *)

Definition inboxBuffer : Z := 256.

Record ChannelTransport := MkChannelTransport { inboxes : gmap NodeID (list Message) }.

Definition NewChannelTransport : ChannelTransport := MkChannelTransport ∅.

Definition ct_Register (i : NodeID) (t : ChannelTransport) : ChannelTransport :=
  match inboxes t !! i with
  | Some _ => t
  | None => MkChannelTransport (<[i := []]> (inboxes t))
  end.

Definition ct_Send (to : NodeID) (m : Message) (t : ChannelTransport) : sent ChannelTransport :=
  match inboxes t !! to with
  | None => NoInbox
  | Some q =>
      if decide (len q < inboxBuffer) then Delivered (MkChannelTransport (<[to := q ++ [m]]> (inboxes t)))
      else Blocked
  end.

(** [Inbox] of an unregistered node is a nil channel: a receive from it blocks
    like one from an empty one. *)
Definition ct_Receive (self : NodeID) (t : ChannelTransport) : option (Message * ChannelTransport) :=
  match inboxes t !! self with
  | Some (m :: q) => Some (m, MkChannelTransport (<[self := q]> (inboxes t)))
  | _ => None
  end.

(** ** Everything in the inboxes *)

Definition tagged (x : NodeID * list Message) : list (NodeID * Message) := (fun m => (x.1, m)) <$> x.2.

Definition ct_in_flight (t : ChannelTransport) : list (NodeID * Message) := map_to_list (inboxes t) ≫= tagged.

Lemma in_flight_insert t i q q' :
  inboxes t !! i = q -> ct_in_flight (MkChannelTransport (<[i := q']> (inboxes t)))
    ≡ₚ tagged (i, q') ++ ct_in_flight (MkChannelTransport (delete i (inboxes t))).
Proof.
  intros Hq. unfold ct_in_flight. cbn [inboxes].
  rewrite <- insert_delete_eq, map_to_list_insert by apply lookup_delete_eq. done.
Qed.

Lemma in_flight_split t i q :
  inboxes t !! i = Some q ->
  ct_in_flight t ≡ₚ tagged (i, q) ++ ct_in_flight (MkChannelTransport (delete i (inboxes t))).
Proof.
  intros Hq. unfold ct_in_flight. cbn [inboxes]. rewrite <- (map_to_list_delete (inboxes t) i q Hq). done.
Qed.

#[export] Instance channel_transport : Transport ChannelTransport.
Proof.
  refine {| Register := ct_Register; Send := ct_Send; Receive := ct_Receive; in_flight := ct_in_flight |}.
  - intros i t. unfold ct_Register. destruct (inboxes t !! i) as [q|] eqn:E; [done|].
    rewrite (in_flight_insert t i None []) by done. rewrite delete_id by done. by destruct t.
  - intros to m t t'. unfold ct_Send. destruct (inboxes t !! to) as [q|] eqn:E; [|done]. case_decide; [|done]. intros [= <-].
    rewrite (in_flight_insert t to (Some q)) by done. rewrite (in_flight_split t to q E). unfold tagged. cbn [fst snd].
    rewrite fmap_app, <- app_assoc. cbn [fmap list_fmap app]. by rewrite Permutation_middle.
  - intros i m t t'. unfold ct_Receive. destruct (inboxes t !! i) as [[|m' q]|] eqn:E; [done| |done]. intros [= -> <-].
    rewrite (in_flight_insert t i (Some (m :: q))) by done. by rewrite (in_flight_split t i _ E).
Defined.

(** ** Bounds *)

Definition bounded (t : ChannelTransport) : Prop := map_Forall (fun _ q => len q <= inboxBuffer) (inboxes t).

(** ** Histories

    The operations of the nodes on a transport, one after the other; a blocked
    [Send] is not an operation yet. *)
Inductive op := ORegister (i : NodeID) | OSend (to : NodeID) (m : Message) | OReceive (i : NodeID).

Inductive effect := Registered | Failed | Accepted (to : NodeID) (m : Message) | Got (i : NodeID) (m : Message).

Definition perform (o : op) (t : ChannelTransport) : option (ChannelTransport * effect) :=
  match o with
  | ORegister i => Some (ct_Register i t, Registered)
  | OSend to m =>
      match ct_Send to m t with
      | NoInbox => Some (t, Failed)
      | Blocked => None
      | Delivered t' => Some (t', Accepted to m)
      end
  | OReceive i => '(m, t') ← ct_Receive i t; Some (t', Got i m)
  end.

Fixpoint performs (os : list op) (t : ChannelTransport) : option (ChannelTransport * list effect) :=
  match os with
  | [] => Some (t, [])
  | o :: os' => '(t1, e) ← perform o t; '(t2, es) ← performs os' t1; Some (t2, e :: es)
  end.

Definition accepted (i : NodeID) (es : list effect) : list Message :=
  omap (fun e => match e with Accepted to m => if decide (to = i) then Some m else None | _ => None end) es.
Definition got (i : NodeID) (es : list effect) : list Message :=
  omap (fun e => match e with Got j m => if decide (j = i) then Some m else None | _ => None end) es.

Definition queue (i : NodeID) (t : ChannelTransport) : list Message := default [] (inboxes t !! i).

Lemma queue_insert t i q j : queue j (MkChannelTransport (<[i := q]> (inboxes t))) = if decide (j = i) then q else queue j t.
Proof.
  unfold queue. cbn [inboxes]. case_decide as H; [by rewrite H, lookup_insert_eq|by rewrite lookup_insert_ne].
Qed.

Lemma perform_spec o t t' e i : perform o t = Some (t', e) -> bounded t ->
  bounded t' /\ dom (inboxes t) ⊆ dom (inboxes t') /\ queue i t ++ accepted i [e] = got i [e] ++ queue i t'.
Proof.
  intros E Hb. destruct o as [j|to m|j]; cbn [perform] in E.
  - injection E as <- <-. cbn. rewrite app_nil_r. unfold ct_Register. destruct (inboxes t !! j) as [q|] eqn:Ej; [done|].
    split; [|split; [set_solver|]].
    + apply map_Forall_insert_2; [done|done].
    + rewrite queue_insert. case_decide as H; [|done]. subst. unfold queue. by rewrite Ej.
  - unfold ct_Send in E. destruct (inboxes t !! to) as [q|] eqn:Eq.
    2:{ injection E as <- <-. cbn. by rewrite app_nil_r. }
    case_decide as Hl; [|done]. injection E as <- <-. split; [|split; [set_solver|]].
    + apply map_Forall_insert_2; [|done]. rewrite len_app. change (len [m]) with 1. lia.
    + rewrite queue_insert. cbn. destruct (decide (to = i)) as [->|Hne].
      * rewrite decide_True by done. unfold queue. by rewrite Eq.
      * rewrite decide_False by done. by rewrite app_nil_r.
  - destruct (ct_Receive j t) as [[m t1]|] eqn:Er; [|done]. injection E as <- <-. unfold ct_Receive in Er.
    destruct (inboxes t !! j) as [[|m' q]|] eqn:Eq; [done| |done]. injection Er as -> <-. split; [|split; [set_solver|]].
    + apply map_Forall_insert_2; [|done]. specialize (Hb j (m :: q) Eq). cbn in Hb. rewrite len_cons in Hb. lia.
    + rewrite queue_insert. cbn. rewrite app_nil_r. destruct (decide (j = i)) as [->|Hne].
      * rewrite decide_True by done. unfold queue. by rewrite Eq.
      * by rewrite decide_False by done.
Qed.

(** C32. The channel transport.  Over any sequence of registrations, sends and
    receives from a new transport: no inbox ever holds more than its buffer, no
    inbox goes away or is emptied by registering again, and what a node has
    received, followed by what is in its inbox, is what was sent to it, in the
    order it was accepted. *)
Theorem channel_fifo os t es :
  performs os NewChannelTransport = Some (t, es) ->
  (forall i, got i es ++ queue i t = accepted i es)
  /\ (forall i q, inboxes t !! i = Some q -> len q <= inboxBuffer)
  /\ (forall i, ORegister i ∈ os -> is_Some (inboxes t !! i)).
Proof.
  enough (forall t0, bounded t0 -> performs os t0 = Some (t, es) ->
    (forall i, got i es ++ queue i t = queue i t0 ++ accepted i es) /\ bounded t /\ dom (inboxes t0) ⊆ dom (inboxes t)
    /\ forall i, ORegister i ∈ os -> is_Some (inboxes t !! i)) as H.
  { intros E. destruct (H NewChannelTransport) as (H1 & H2 & _ & H3); [apply map_Forall_empty|done|].
    split; [|split; [exact H2|done]]. intros i. rewrite (H1 i). done. }
  revert es. induction os as [|o os IH]; intros es t0 Hb E; cbn [performs] in E.
  { injection E as <- <-. split_and!; [by intros i; cbn; rewrite app_nil_r|done|done|by intros i H%elem_of_nil]. }
  destruct (perform o t0) as [[t1 e]|] eqn:E1; [|done]. cbn [mbind option_bind] in E.
  destruct (performs os t1) as [[t2 es2]|] eqn:E2; [|done]. injection E as <- <-.
  destruct (perform_spec o t0 t1 e 0 E1 Hb) as (Hb1 & Hd1 & _). destruct (IH es2 t1 Hb1 E2) as (H1 & H2 & H3 & H4).
  split_and!; [|done|set_solver|].
  - intros i. destruct (perform_spec o t0 t1 e i E1 Hb) as (_ & _ & Hq). specialize (H1 i).
    change (got i (e :: es2)) with (got i ([e] ++ es2)). change (accepted i (e :: es2)) with (accepted i ([e] ++ es2)).
    unfold got, accepted in *. rewrite !omap_app, <- app_assoc, H1, !app_assoc. by rewrite <- Hq.
  - intros i [<-|Hin]%elem_of_cons; [|by apply H4]. cbn [perform] in E1. injection E1 as <- _.
    apply elem_of_dom, H3, elem_of_dom. unfold ct_Register. destruct (inboxes t0 !! i) eqn:Ei; [by eexists|].
    cbn. rewrite lookup_insert_eq. by eexists.
Qed.

(** A message to each of two nodes, one received. *)
Lemma channel_fifo_witness :
  let m k := node.MkMessage k 1 node.MsgTimeoutNow in
  exists t es, performs [ORegister 0; ORegister 1; OSend 0 (m 1); OSend 0 (m 2); OSend 1 (m 0); OSend 7 (m 0); OReceive 0]
                 NewChannelTransport = Some (t, es)
    /\ got 0 es ++ queue 0 t = accepted 0 es /\ accepted 0 es = [m 1; m 2] /\ got 0 es = [m 1].
Proof.
  intros m. destruct (performs _ _) as [[t es]|] eqn:E; [|vm_compute in E; done]. exists t, es. split; [done|].
  destruct (channel_fifo _ t es E) as (H & _). split; [apply H|]. vm_compute in E. injection E as _ <-. by vm_compute.
Defined.

End transport.
