(* ===== verification/RaftSystem.v ===== *)
(** * The goroutines of a group over a transport (internal/cluster/cluster.go [run],
      replication.go [replicateTo] and [sendLoop])

    A node's [run] goroutine takes one message after the other off its inbox; the
    replies go through a channel of one place per peer to the peer's replicator,
    which is either asleep or waits for the reply of its round.  A goroutine that
    sends is blocked until the transport has taken the message.

    Whatever the transport, such a system only makes the steps of
    RaftMatching.v, so what is proved of those holds of it.  The place in a
    reply channel has no other reader than the replicator: two replies that
    arrive after it has given up on them stop the node's [run] for good, once the
    node no longer leads. *)

From Stdlib Require Import ZArith Lia.
From Stdlib Require Import Strings.Byte.
From stdpp Require Import base list gmap gmultiset sorting.
From S2P Require Import Prelude.
From S2P Require Import RaftLog.
From S2P Require Import RaftConfig.
From S2P Require Import RaftLogFile.
From S2P Require Import RaftNode.
From S2P Require Import RaftRun.
From S2P Require Import RaftElection.
From S2P Require Import RaftMatching.
From S2P Require Import Transport.

#[local] Open Scope Z_scope.

Module system.
Import raftlog node run election matching transport.

(** The goroutines that send: [run], the replicator of a peer, and the election
    timer or a client's call. *)
Inductive goroutine := Run (i : NodeID) | Repl (i p : NodeID) | Other (i : NodeID).

#[export] Instance goroutine_eq_dec : EqDecision goroutine.
Proof. solve_decision. Defined.

Definition node_of (g : goroutine) : NodeID := match g with Run i | Repl i _ | Other i => i end.

(** [respCh]: the reply in each channel.  [waiting]: the round each replicator is
    waiting for.  [sending]: what goroutines are sending, in their order. *)
Record system (T : Type) := MkSystem {
  group : gmap NodeID Node;
  transport : T;
  respCh : gmap (NodeID * NodeID) Message;
  waiting : gmap (NodeID * NodeID) Round;
  sending : list (goroutine * (NodeID * Message))
}.
#[global] Arguments MkSystem {T}.
#[global] Arguments group {T}.
#[global] Arguments transport {T}.
#[global] Arguments respCh {T}.
#[global] Arguments waiting {T}.
#[global] Arguments sending {T}.

Definition by_ (g : goroutine) (ms : list (NodeID * Message)) : list (goroutine * (NodeID * Message)) :=
  (fun x => (g, x)) <$> ms.

(** [g] is in a [Send]. *)
Definition busy {T} (s : system T) (g : goroutine) : Prop := g ∈ (sending s).*1.

(** What a replicator waits for after [sendRound]. *)
Definition await_round (r : SendResult) (k : NodeID * NodeID) (w : gmap (NodeID * NodeID) Round) : gmap (NodeID * NodeID) Round :=
  match r with Sent rd => <[k := rd]> w | _ => w end.

(** A [Send] that fails ends the replicator's round. *)
Definition drop_round (g : goroutine) (w : gmap (NodeID * NodeID) Round) : gmap (NodeID * NodeID) Round :=
  match g with Repl i p => delete (i, p) w | _ => w end.

Definition of_others {A} (i : NodeID) (m : gmap (NodeID * NodeID) A) : gmap (NodeID * NodeID) A :=
  filter (fun kv => kv.1.1 <> i) m.

Section steps.
Context {S : Type} {SM : StateMachine S} {T : Type} {TR : Transport T}.

Definition no_round (a : act (S := S)) : Prop := match a with ASendRound _ => False | _ => True end.

(** One step of the system; disks work as in RaftMatching.v, and [strict] is as
    there.  Only the nodes of [crashes] crash. *)
Inductive sys_step (strict : bool) (C : Members) (crashes : NodeID -> Prop) (s : system T) : system T -> Prop :=
| sys_handle i n m t' now n' w' :
    group s !! i = Some n -> ~ busy s (Run i) -> Receive i (transport s) = Some (m, t') -> is_reply (body m) = false ->
    typed m -> currentTerm n < max_u64 ->
    dispatch now m n (MkWorld [] []) = Some (tt, n', w') -> config n' = Some C -> room n (body m) ->
    sys_step strict C crashes s (MkSystem (<[i := n']> (group s)) t' (respCh s) (waiting s) (sending s ++ by_ (Run i) (sends (out w'))))
| sys_stale i n m t' :                    (* [handleTimeoutNow]'s first section *)
    group s !! i = Some n -> ~ busy s (Run i) -> Receive i (transport s) = Some (m, t') -> body m = MsgTimeoutNow ->
    sys_step strict C crashes s (MkSystem (group s) t' (respCh s) (waiting s) (sending s))
| sys_route i n m t' :
    group s !! i = Some n -> ~ busy s (Run i) -> Receive i (transport s) = Some (m, t') -> is_reply (body m) = true ->
    From m ∈ replSignal n -> respCh s !! (i, From m) = None ->
    sys_step strict C crashes s (MkSystem (group s) t' (<[(i, From m) := m]> (respCh s)) (waiting s) (sending s))
| sys_unroutable i n m t' :
    group s !! i = Some n -> ~ busy s (Run i) -> Receive i (transport s) = Some (m, t') -> is_reply (body m) = true ->
    From m ∉ replSignal n ->
    sys_step strict C crashes s (MkSystem (group s) t' (respCh s) (waiting s) (sending s))
| sys_round i n p res n' w' :
    group s !! i = Some n -> ~ busy s (Repl i p) -> waiting s !! (i, p) = None -> p ∈ replSignal n ->
    currentTerm n < max_u64 -> sendRound p n (MkWorld [] []) = Some (res, n', w') -> config n' = Some C ->
    act_room (S := S) n (ASendRound p) ->
    sys_step strict C crashes s (MkSystem (<[i := n']> (group s)) (transport s) (respCh s) (await_round res (i, p) (waiting s))
                    (sending s ++ by_ (Repl i p) (sends (out w'))))
| sys_reply i n p r m b n' w' :
    group s !! i = Some n -> ~ busy s (Repl i p) -> waiting s !! (i, p) = Some r -> respCh s !! (i, p) = Some m ->
    typed m -> is_reply (body m) = true -> onReply p r m n (MkWorld [] []) = Some (b, n', w') -> config n' = Some C ->
    (strict = true -> answers p r m) ->
    sys_step strict C crashes s (MkSystem (<[i := n']> (group s)) (transport s) (delete (i, p) (respCh s)) (delete (i, p) (waiting s))
                    (sending s ++ by_ (Repl i p) (sends (out w'))))
| sys_timeout i p :
    ~ busy s (Repl i p) ->
    sys_step strict C crashes s (MkSystem (group s) (transport s) (respCh s) (delete (i, p) (waiting s)) (sending s))
| sys_act i n (a : act (S := S)) n' w' :
    group s !! i = Some n -> no_round a -> currentTerm n < max_u64 ->
    run_act a n (MkWorld [] []) = Some (tt, n', w') -> config n' = Some C -> act_room n a ->
    sys_step strict C crashes s (MkSystem (<[i := n']> (group s)) (transport s) (respCh s) (waiting s)
                    (sending s ++ by_ (Other i) (sends (out w'))))
| sys_send l1 g to m l2 t' :
    sending s = l1 ++ (g, (to, m)) :: l2 -> g ∉ l1.*1 -> Send to m (transport s) = Delivered t' ->
    sys_step strict C crashes s (MkSystem (group s) t' (respCh s) (waiting s) (l1 ++ l2))
| sys_unreachable l1 g to m l2 :
    sending s = l1 ++ (g, (to, m)) :: l2 -> g ∉ l1.*1 -> Send to m (transport s) = NoInbox ->
    sys_step strict C crashes s (MkSystem (group s) (transport s) (respCh s) (drop_round g (waiting s)) (l1 ++ l2))
| sys_restart i n lf tail ps boot cf syncOn recovered n' :
    crashes i -> group s !! i = Some n -> logFile n = Some lf -> raftlogfile.torn tail ->
    buildNode i ps boot cf syncOn (Some (raftlogfile.at_path lf ++ tail)) (default None (stateFile n))
      (default None (configPath n)) recovered None = Ok n' ->
    is_u64 (currentTerm n') -> config n' = Some C -> SnapshotThreshold cf <= 0 ->
    (strict = true -> recovered <= lastApplied n) ->
    sys_step strict C crashes s (MkSystem (<[i := n']> (group s)) (transport s) (of_others i (respCh s)) (of_others i (waiting s))
                    (filter (fun x => node_of x.1 <> i) (sending s))).

(** ** Refinement *)

Definition slot (x : NodeID * NodeID * Message) : NodeID * Message := (x.1.1, x.2).

Lemma by_snd g ms : (by_ g ms).*2 = ms.
Proof. unfold by_. rewrite <- list_fmap_compose. apply list_fmap_id. Qed.

Lemma take_message (x : NodeID * Message) l k : x :: l ⊆+ k -> exists l1 l2, k = l1 ++ x :: l2 /\ l ⊆+ l1 ++ l2.
Proof.
  intros H. destruct (list_elem_of_split k x) as (l1 & l2 & ->).
  { eapply elem_of_submseteq; [|exact H]. by left. }
  exists l1, l2. split; [done|]. rewrite <- Permutation_middle in H.
  exact (submseteq_app_inv_l l (l1 ++ l2) [x] H).
Qed.

(** The messages of a system, part by part. *)
Definition parts (sd : list (goroutine * (NodeID * Message))) (ch : gmap (NodeID * NodeID) Message) (t : T) : list (NodeID * Message) :=
  sd.*2 ++ (slot <$> map_to_list ch) ++ in_flight t.

(** Every message on its way is in the network of the abstract group. *)
Definition refines (s : system T) (c : cluster) : Prop :=
  nodes c = group s /\ parts (sending s) (respCh s) (transport s) ⊆+ net c.

Lemma parts_more sd ch t g ms k : parts sd ch t ⊆+ k -> parts (sd ++ by_ g ms) ch t ⊆+ k ++ ms.
Proof.
  intros H. unfold parts in *. rewrite fmap_app, by_snd, <- app_assoc, (Permutation_app_comm ms), app_assoc.
  by apply submseteq_skips_r.
Qed.

Lemma parts_receive sd ch t t' i m : Receive i t = Some (m, t') -> (i, m) :: parts sd ch t' ⊆+ parts sd ch t.
Proof.
  intros E%receive_in_flight. unfold parts. rewrite !app_assoc, Permutation_middle. by apply submseteq_skips_l.
Qed.

Lemma parts_route sd ch t i p m : ch !! (i, p) = None -> parts sd (<[(i, p) := m]> ch) t ≡ₚ (i, m) :: parts sd ch t.
Proof.
  intros E. unfold parts. rewrite map_to_list_insert by done. cbn [fmap list_fmap slot fst snd app].
  by rewrite <- Permutation_middle.
Qed.

Lemma parts_reply sd ch t i p m : ch !! (i, p) = Some m -> parts sd ch t ≡ₚ (i, m) :: parts sd (delete (i, p) ch) t.
Proof.
  intros E. unfold parts. rewrite <- (map_to_list_delete ch (i, p) m E). cbn [fmap list_fmap slot fst snd app].
  by rewrite <- Permutation_middle.
Qed.

Lemma parts_send l1 g to m l2 ch t t' :
  Send to m t = Delivered t' -> parts (l1 ++ l2) ch t' ⊆+ parts (l1 ++ (g, (to, m)) :: l2) ch t.
Proof.
  intros E%send_in_flight. unfold parts. rewrite !fmap_app. cbn [fmap list_fmap snd].
  rewrite <- (Permutation_middle (l1.*2)). cbn [app].
  rewrite !app_assoc, (Permutation_middle ((l1.*2 ++ l2.*2) ++ _)). by apply submseteq_skips_l.
Qed.

Lemma parts_drop l1 x l2 ch t : parts (l1 ++ l2) ch t ⊆+ parts (l1 ++ x :: l2) ch t.
Proof.
  unfold parts. apply submseteq_skips_r. rewrite !fmap_app. cbn [fmap list_fmap]. apply submseteq_skips_l.
  by apply submseteq_cons.
Qed.

Lemma filter_submseteq {A} (P : A -> Prop) `{!forall x, Decision (P x)} (l : list A) : filter P l ⊆+ l.
Proof. apply sublist_submseteq. induction l as [|x l IH]; [done|]. rewrite filter_cons. case_decide; by constructor. Qed.

Lemma parts_restart i sd ch t : parts (filter (fun x => node_of x.1 <> i) sd) (of_others i ch) t ⊆+ parts sd ch t.
Proof.
  unfold parts. apply submseteq_app; [apply fmap_submseteq, filter_submseteq|]. apply submseteq_skips_r, fmap_submseteq.
  apply NoDup_submseteq; [apply NoDup_map_to_list|]. intros [kp m]. rewrite !elem_of_map_to_list.
  intros H. by apply map_lookup_filter_Some in H as [? _].
Qed.

Lemma step_refines strict C crashes s s' c :
  sys_step strict C crashes s s' -> refines s c -> exists c', rtc (clean_step (S := S) strict C) c c' /\ refines s' c'.
Proof.
  intros Hst [Hn Hq]. destruct c as [ns k]. cbn [nodes net] in *. subst ns.
  destruct Hst as [i n m t' now n' w' Hi _ Hrc _ Hty Hmax E HC Hroom|i n m t' Hi _ Hrc Hr|i n m t' Hi _ Hrc Hr Hp Hch|i n m t' Hi _ Hrc Hr Hp
    |i n p res n' w' Hi _ Hw Hp Hmax E HC Hroom|i n p r m b n' w' Hi _ Hw Hch Hty Hr E HC Hans|i p _
    |i n a n' w' Hi _ Hmax E HC Hroom|l1 g to m l2 t' Hs _ Hsd|l1 g to m l2 Hs _ Hsd
    |i n lf tail ps boot cf sy rec n' _ Hi Hlf Htail E Hu HC Hcf Hrec].
  - pose proof (parts_receive (sending s) (respCh s) _ _ _ _ Hrc) as H. rewrite Hq in H.
    apply take_message in H as (l1 & l2 & -> & H). eexists. split.
    { by apply rtc_once, (clean_deliver strict C _ i n m l1 l2 now n' w'). }
    split; [done|]. cbn [net sending respCh transport]. rewrite app_assoc. by apply parts_more.
  - eexists. split; [apply rtc_refl|]. split; [done|]. cbn [net sending respCh transport].
    rewrite <- Hq, <- (parts_receive _ _ _ _ _ _ Hrc). by apply submseteq_cons.
  - eexists. split; [apply rtc_refl|]. split; [done|]. cbn [net sending respCh transport].
    rewrite parts_route by done. by rewrite <- Hq, (parts_receive _ _ _ _ _ _ Hrc).
  - eexists. split; [apply rtc_refl|]. split; [done|]. cbn [net sending respCh transport].
    rewrite <- Hq, <- (parts_receive _ _ _ _ _ _ Hrc). by apply submseteq_cons.
  - eexists. split.
    { apply rtc_once, (clean_act strict C _ i n (ASendRound p) n' w'); try done. cbn [run_act]. by rewrite (bind_run _ _ _ _ _ _ _ E). }
    split; [done|]. cbn [net sending respCh transport]. by apply parts_more.
  - rewrite (parts_reply _ _ _ _ _ _ Hch) in Hq. apply take_message in Hq as (l1 & l2 & -> & Hq). eexists. split.
    { by apply rtc_once, (clean_reply strict C _ i n p r m l1 l2 b n' w'). }
    split; [done|]. cbn [net sending respCh transport]. rewrite app_assoc. by apply parts_more.
  - eexists. split; [apply rtc_refl|]. by split.
  - eexists. split; [by apply rtc_once, (clean_act strict C _ i n a n' w')|].
    split; [done|]. cbn [net sending respCh transport]. by apply parts_more.
  - eexists. split; [apply rtc_refl|]. split; [done|]. cbn [net sending respCh transport].
    rewrite <- Hq, Hs. by apply parts_send.
  - eexists. split; [apply rtc_refl|]. split; [done|]. cbn [net sending respCh transport].
    rewrite <- Hq, Hs. by apply parts_drop.
  - eexists. split; [by apply rtc_once, (clean_restart strict C _ i n lf tail ps boot cf sy rec n')|].
    split; [done|]. cbn [net sending respCh transport]. by rewrite parts_restart.
Qed.

(** C18. A group over any transport refines the abstract group: a run of its
    goroutines, channels and transport is a run of RaftMatching.v on the same
    nodes, with every message that is on its way somewhere among those in the
    network; all that holds of those runs holds of it. *)
Theorem system_refines strict C crashes s s' c :
  rtc (sys_step strict C crashes) s s' -> refines s c ->
  exists c', rtc (clean_step (S := S) strict C) c c' /\ refines s' c'.
Proof.
  intros H. revert c. induction H as [s|s s1 s2 H1 _ IH]; intros c Hr; [by exists c|].
  destruct (step_refines _ _ _ _ _ _ H1 Hr) as (c1 & Hc1 & Hr1). destruct (IH c1 Hr1) as (c2 & Hc2 & Hr2).
  exists c2. split; [by etrans|done].
Qed.

End steps.

(** ** Who can make a leader

    Only the response of a voter does. *)
Definition unled : rel := fun n _ n' _ =>
  (role n <> Leader -> role n' <> Leader) /\ replSignal n ⊆ replSignal n'.

#[local] Instance unled_rel : NodeRel unled.
Proof. split; unfold unled; [done|]. intros n w n1 w1 n2 w2 [A1 A2] [B1 B2]. split; [auto|set_solver]. Qed.

#[local] Hint Extern 1 (pres unled (modify _)) => apply pres_modify; intros; split; cbn; solve [done|auto|set_solver] : pres.
#[local] Hint Extern 1 (pres unled (emit _)) => apply pres_emit; done : pres.
#[local] Hint Extern 1 (pres unled next_fault) => apply pres_fault; done : pres.

Lemma persist_unled : pres unled persistHardStateLocked.
Proof. unfold persistHardStateLocked. pres_auto. Qed.
Lemma send_unled to b t : pres unled (send to b t).
Proof. unfold send. pres_auto. Qed.
#[local] Hint Resolve persist_unled send_unled : pres.

Lemma stepDown_unled t : pres unled (stepDownLocked t).
Proof. unfold stepDownLocked. pres_auto. Qed.
Lemma advance_unled : pres unled maybeAdvanceCommitLocked.
Proof. unfold maybeAdvanceCommitLocked. pres_auto. Qed.
Lemma fold_unled i : pres unled (foldBaseConfig i).
Proof. unfold foldBaseConfig. pres_auto. Qed.
Lemma fcompact_unled i t : pres unled (fileCompact i t).
Proof. unfold fileCompact. pres_auto. Qed.
#[local] Hint Resolve stepDown_unled advance_unled fold_unled fcompact_unled : pres.

Lemma compact_unled : pres unled maybeCompactLocked.
Proof. unfold maybeCompactLocked. pres_auto. Qed.
#[local] Hint Resolve compact_unled : pres.

Lemma onReply_unled p r m : pres unled (onReply p r m).
Proof.
  unfold onReply. pres_auto; apply pres_modify; intros n w; unfold onAppendSuccessLocked, onAppendRejectLocked; cbv zeta; done.
Qed.

Lemma election_unled lt : pres unled (maybeStartElection lt).
Proof.
  intros n w a n' w' E. unfold maybeStartElection in E. rewrite !bind_gets in E.
  destruct (decide (role n = Leader)) as [Hr|Hr]; [injection E as _ <- <-; apply (nr_refl (R := unled))|].
  revert a n' w' E. match goal with |- forall a n' w', ?m n w = _ -> _ => enough (pres unled m) as H by exact (H n w) end.
  destruct (installing n); [apply pres_ret|]. destruct (negb (inConfigLocked n)); [apply pres_ret|].
  rename Hr into Hnl. pres_auto.
Qed.

Lemma fileAppend_unled e : pres unled (fileAppend e).
Proof. unfold fileAppend. pres_auto. Qed.
Lemma ensurePeer_unled p : pres unled (ensurePeerLocked p).
Proof. unfold ensurePeerLocked. pres_auto. Qed.
#[local] Hint Resolve fileAppend_unled ensurePeer_unled election_unled compact_unled : pres.

Lemma act_unled {S} {SM : StateMachine S} (a : act (S := S)) : pres unled (run_act a).
Proof.
  destruct a; cbn [run_act]; try apply election_unled;
    unfold heartbeatTick, propose, adoptConfigLocked, sendRound, applyStep, removeServer_finish, relinquishLeadershipLocked,
      addServer_start, transfer_start, transfer_abort, transfer_timeoutNow; pres_auto.
Qed.

(** ** A full reply channel

    Node [i] does not lead, the channel of [p] is full, its replicator is asleep,
    and the next message of the inbox is another reply of [p]. *)
Definition wedged (i p : NodeID) (m : Message) (q : list Message) (s : system ChannelTransport) : Prop :=
  (exists n, group s !! i = Some n /\ role n <> Leader /\ p ∈ replSignal n)
  /\ is_Some (respCh s !! (i, p)) /\ waiting s !! (i, p) = None
  /\ inboxes (transport s) !! i = Some (m :: q) /\ is_reply (body m) = true /\ From m = p.

Lemma send_inbox to m t t' i q :
  ct_Send to m t = Delivered t' -> inboxes t !! i = Some q -> exists q', inboxes t' !! i = Some (q ++ q').
Proof.
  unfold ct_Send. intros E Hq. destruct (inboxes t !! to) as [q0|] eqn:E0; [|done]. case_decide; [|done]. injection E as <-.
  cbn [inboxes]. destruct (decide (to = i)) as [->|Hne].
  - rewrite E0 in Hq. injection Hq as ->. exists [m]. by rewrite lookup_insert_eq.
  - exists []. by rewrite lookup_insert_ne, app_nil_r.
Qed.

Lemma receive_other j m t t' i : ct_Receive j t = Some (m, t') -> j <> i -> inboxes t' !! i = inboxes t !! i.
Proof.
  unfold ct_Receive. destruct (inboxes t !! j) as [[|m0 q0]|]; [done| |done]. intros [= _ <-] Hne. cbn. by rewrite lookup_insert_ne.
Qed.

Lemma sleeps p n res n' w' : role n <> Leader -> sendRound p n (MkWorld [] []) = Some (res, n', w') -> res = Idle /\ n' = n.
Proof. intros Hr. unfold sendRound. rewrite bind_gets. rewrite decide_True by done. by intros [= <- <- <-]. Qed.

Section wedge.
Context {S : Type} {SM : StateMachine S}.

Lemma wedged_step strict C crashes i p m q s s' :
  ~ crashes i -> sys_step (S := S) strict C crashes s s' -> wedged i p m q s -> exists q', wedged i p m (q ++ q') s'.
Proof.
  intros Hcr Hst ((n & Hn & Hr & Hp) & Hch & Hw & Hq & Hm & Hfrom).
  assert (forall j n0 n', group s !! j = Some n0 -> (j = i -> unled n0 (MkWorld [] []) n' (MkWorld [] [])) ->
    exists n1, <[j := n']> (group s) !! i = Some n1 /\ role n1 <> Leader /\ p ∈ replSignal n1) as Hnode.
  { intros j n0 n' Hj Hu. destruct (decide (j = i)) as [->|Hne].
    - rewrite Hn in Hj. injection Hj as <-. destruct (Hu eq_refl) as [H1 H2]. exists n'. rewrite lookup_insert_eq. set_solver.
    - exists n. by rewrite lookup_insert_ne. }
  assert (forall t m0 t', Receive i t = Some (m0, t') -> inboxes t !! i = Some (m :: q) -> m0 = m) as Hhead.
  { intros t m0 t' E E0. cbn in E. unfold ct_Receive in E. rewrite E0 in E. congruence. }
  unfold wedged. destruct Hst as [j n0 m0 t' now n' w' Hj _ Hrc Hnr _ _ E _ _|j n0 m0 t' Hj _ Hrc Hr0|j n0 m0 t' Hj _ Hrc Hr0 Hp0 Hch0|j n0 m0 t' Hj _ Hrc Hr0 Hp0
    |j n0 p0 res n' w' Hj _ Hw0 Hp0 _ E _ _|j n0 p0 r m0 b n' w' Hj _ Hw0 Hch0 _ _ E _ _|j p0 _
    |j n0 a n' w' Hj _ _ E _ _|l1 g to m0 l2 t' Hs _ Hsd|l1 g to m0 l2 Hs _ Hsd|j n0 lf tail ps boot cf sy rec n' Hcj Hj _ _ _ _ _ _ _];
    cbn [group respCh waiting transport].
  - assert (j <> i) as Hne by (intros ->; rewrite (Hhead _ _ _ Hrc Hq) in Hnr; congruence).
    exists []. rewrite app_nil_r. split; [by apply (Hnode j n0)|]. split_and!; try done. by rewrite (receive_other _ _ _ _ _ Hrc).
  - assert (j <> i) as Hne by (intros ->; rewrite <- (Hhead _ _ _ Hrc Hq), Hr0 in Hm; done).
    exists []. rewrite app_nil_r. split; [by exists n|]. split_and!; try done. by rewrite (receive_other _ _ _ _ _ Hrc).
  - assert (j <> i) as Hne.
    { intros ->. rewrite (Hhead _ _ _ Hrc Hq), Hfrom in Hch0. destruct Hch. congruence. }
    exists []. rewrite app_nil_r. split; [by exists n|]. split_and!; try done; [|by rewrite (receive_other _ _ _ _ _ Hrc)].
    rewrite lookup_insert_ne by congruence. done.
  - assert (j <> i) as Hne.
    { intros ->. rewrite (Hhead _ _ _ Hrc Hq), Hfrom in Hp0. rewrite Hn in Hj. by injection Hj as <-. }
    exists []. rewrite app_nil_r. split; [by exists n|]. split_and!; try done. by rewrite (receive_other _ _ _ _ _ Hrc).
  - exists []. rewrite app_nil_r. destruct (decide (j = i)) as [->|Hne].
    + rewrite Hn in Hj. injection Hj as <-. destruct (sleeps _ _ _ _ _ Hr E) as [-> ->]. cbn [await_round].
      rewrite insert_id by done. split; [by exists n|]. done.
    + split; [by apply (Hnode j n0)|]. split_and!; try done. destruct res; cbn [await_round]; try done.
      by rewrite lookup_insert_ne by congruence.
  - exists []. rewrite app_nil_r. assert ((j, p0) <> (i, p)) as Hne by (intros [= -> ->]; congruence).
    split; [apply (Hnode j n0); [done|]; intros _; exact (onReply_unled _ _ _ _ _ _ _ _ E)|].
    rewrite !lookup_delete_ne by done. done.
  - exists []. rewrite app_nil_r. split; [by exists n|]. split_and!; try done.
    destruct (decide ((j, p0) = (i, p))) as [->|Hne]; [apply lookup_delete_eq|by rewrite lookup_delete_ne].
  - exists []. rewrite app_nil_r. split; [apply (Hnode j n0); [done|]; intros _; exact (act_unled a _ _ _ _ _ E)|]. done.
  - destruct (send_inbox _ _ _ _ i (m :: q) Hsd Hq) as [q' Hq']. exists q'. split; [by exists n|]. done.
  - exists []. rewrite app_nil_r. split; [by exists n|]. split_and!; try done. unfold drop_round. destruct g as [|j p0|]; try done.
    destruct (decide ((j, p0) = (i, p))) as [->|Hne]; [apply lookup_delete_eq|by rewrite lookup_delete_ne].
  - assert (j <> i) as Hne by congruence. exists []. rewrite app_nil_r. split; [exists n; by rewrite lookup_insert_ne|].
    unfold of_others. split_and!; try done.
    + destruct Hch as [m1 Hm1]. exists m1. apply map_lookup_filter_Some. split; [done|]. cbn. congruence.
    + apply map_lookup_filter_None. by left.
Qed.

Lemma wedged_run strict C crashes i p m q s s' :
  ~ crashes i -> rtc (sys_step (S := S) strict C crashes) s s' -> wedged i p m q s -> exists q', wedged i p m (q ++ q') s'.
Proof.
  intros Hcr. intros H. revert q. induction H as [s|s s1 s2 H1 _ IH]; intros q Hwd; [exists []; by rewrite app_nil_r|].
  destruct (wedged_step _ _ _ _ _ _ _ _ _ Hcr H1 Hwd) as [q1 H2]. destruct (IH _ H2) as [q2 H3]. exists (q1 ++ q2).
  by rewrite app_assoc.
Qed.

End wedge.

(** ** Runs by evaluation *)

#[local] Existing Instance counter.

Inductive sys_move :=
| SHandle (i : NodeID)
| SRoute (i : NodeID)
| SRound (i p : NodeID)
| STimeout (i p : NodeID)
| SAct (i : NodeID) (a : act (S := nat))
| SSend.                                  (* the oldest *)

Definition is_busy (s : system ChannelTransport) (g : goroutine) : bool := bool_decide (g ∈ (sending s).*1).

Definition exec_sys (C : Members) (s : system ChannelTransport) (mv : sys_move) : option (system ChannelTransport) :=
  match mv with
  | SHandle i =>
      n ← group s !! i; '(m, t') ← Receive i (transport s);
      '(_, n', w') ← dispatch 0 m n (MkWorld [] []);
      if negb (is_busy s (Run i)) && negb (is_reply (body m))
         && bool_decide (0 <= Term m < 2 ^ 64 /\ currentTerm n < max_u64 /\ config n' = Some C /\ room n (body m))
      then Some (MkSystem (<[i := n']> (group s)) t' (respCh s) (waiting s) (sending s ++ by_ (Run i) (sends (out w')))) else None
  | SRoute i =>
      n ← group s !! i; '(m, t') ← Receive i (transport s);
      if negb (is_busy s (Run i)) && is_reply (body m) && bool_decide (From m ∈ replSignal n /\ respCh s !! (i, From m) = None)
      then Some (MkSystem (group s) t' (<[(i, From m) := m]> (respCh s)) (waiting s) (sending s)) else None
  | SRound i p =>
      n ← group s !! i; '(res, n', w') ← sendRound p n (MkWorld [] []);
      if negb (is_busy s (Repl i p)) && bool_decide (waiting s !! (i, p) = None /\ p ∈ replSignal n /\ currentTerm n < max_u64
           /\ config n' = Some C /\ act_room (S := nat) n (ASendRound p))
      then Some (MkSystem (<[i := n']> (group s)) (transport s) (respCh s) (await_round res (i, p) (waiting s))
                   (sending s ++ by_ (Repl i p) (sends (out w')))) else None
  | STimeout i p =>
      if is_busy s (Repl i p) then None
      else Some (MkSystem (group s) (transport s) (respCh s) (delete (i, p) (waiting s)) (sending s))
  | SAct i a =>
      n ← group s !! i; '(_, n', w') ← run_act a n (MkWorld [] []);
      if (match a with ASendRound _ => false | _ => true end)
         && bool_decide (currentTerm n < max_u64 /\ config n' = Some C /\ act_room n a)
      then Some (MkSystem (<[i := n']> (group s)) (transport s) (respCh s) (waiting s) (sending s ++ by_ (Other i) (sends (out w'))))
      else None
  | SSend =>
      match sending s with
      | (_, (to, m)) :: l =>
          match Send to m (transport s) with
          | Delivered t' => Some (MkSystem (group s) t' (respCh s) (waiting s) l)
          | _ => None
          end
      | [] => None
      end
  end.

Lemma not_busy s g : negb (is_busy s g) = true -> ~ busy s g.
Proof. unfold is_busy, busy. by intros H%negb_true_iff%bool_decide_eq_false. Qed.

Lemma exec_sys_step strict C crashes s mv s' : exec_sys C s mv = Some s' -> sys_step (S := nat) strict C crashes s s'.
Proof.
  destruct mv as [i|i|i p|i p|i a|]; cbn [exec_sys].
  - destruct (group s !! i) as [n|] eqn:Hi; [|done]. cbn [mbind option_bind].
    destruct (Receive i (transport s)) as [[m t']|] eqn:Hr; [|done]. cbn [mbind option_bind].
    destruct (dispatch 0 m n _) as [[[[] n'] w']|] eqn:E; [|done]. cbn [mbind option_bind].
    destruct (_ && _) eqn:Hc; [|done]. intros [= <-].
    apply andb_true_iff in Hc as [[Hb%not_busy Hrep%negb_true_iff]%andb_true_iff (?&?&?&?)%bool_decide_eq_true].
    by apply (sys_handle strict C crashes s i n m t' 0 n' w').
  - destruct (group s !! i) as [n|] eqn:Hi; [|done]. cbn [mbind option_bind].
    destruct (Receive i (transport s)) as [[m t']|] eqn:Hr; [|done]. cbn [mbind option_bind].
    destruct (_ && _) eqn:Hc; [|done]. intros [= <-].
    apply andb_true_iff in Hc as [[Hb%not_busy Hrep]%andb_true_iff (?&?)%bool_decide_eq_true].
    by apply (sys_route strict C crashes s i n m t').
  - destruct (group s !! i) as [n|] eqn:Hi; [|done]. cbn [mbind option_bind].
    destruct (sendRound p n _) as [[[res n'] w']|] eqn:E; [|done]. cbn [mbind option_bind].
    destruct (_ && _) eqn:Hc; [|done]. intros [= <-].
    apply andb_true_iff in Hc as [Hb%not_busy (?&?&?&?&?)%bool_decide_eq_true].
    by apply (sys_round strict C crashes s i n p res n' w').
  - destruct (is_busy s (Repl i p)) eqn:Hb; [done|]. intros [= <-]. apply sys_timeout, not_busy. by rewrite Hb.
  - destruct (group s !! i) as [n|] eqn:Hi; [|done]. cbn [mbind option_bind].
    destruct (run_act a n _) as [[[[] n'] w']|] eqn:E; [|done]. cbn [mbind option_bind].
    destruct (_ && _) eqn:Hc; [|done]. intros [= <-]. apply andb_true_iff in Hc as [Ha (?&?&?)%bool_decide_eq_true].
    apply (sys_act strict C crashes s i n a n' w'); try done. by destruct a.
  - destruct (sending s) as [|[g [to m]] l] eqn:Es; [done|]. destruct (Send to m (transport s)) as [| |t'] eqn:E; [done..|].
    intros [= <-]. apply (sys_send strict C crashes s [] g to m l t'); [done|by intros H%elem_of_nil|done].
Qed.

Fixpoint exec_all (C : Members) (s : system ChannelTransport) (ms : list sys_move) : option (system ChannelTransport) :=
  match ms with [] => Some s | mv :: ms' => s' ← exec_sys C s mv; exec_all C s' ms' end.

Lemma exec_all_steps strict C crashes ms : forall s s',
  exec_all C s ms = Some s' -> rtc (sys_step (S := nat) strict C crashes) s s'.
Proof.
  induction ms as [|mv ms IH]; intros s s' E; cbn [exec_all] in E; [injection E as <-; apply rtc_refl|].
  destruct (exec_sys C s mv) as [s1|] eqn:E1; [|done]. cbn [mbind option_bind] in E.
  eapply rtc_l; [by eapply exec_sys_step|by apply IH].
Qed.

(** The group of the other demonstrations over a channel transport. *)
Definition sys_start : system ChannelTransport :=
  MkSystem (nodes demo_start) (ct_Register 2 (ct_Register 1 (ct_Register 0 NewChannelTransport))) ∅ ∅ [].

(** Node 0 leads; two of its rounds to node 1 time out, node 2 stands for term 2
    and node 0 votes for it; then node 1 answers both rounds. *)
Definition late_moves : list sys_move :=
  [SRound 0 1; SSend; STimeout 0 1; SRound 0 1; SSend; STimeout 0 1; SAct 2 (ACampaign false); SSend; SSend; SHandle 0;
   SHandle 1; SSend; SSend; SHandle 1; SSend; SRoute 0].

Definition late_test (s : system ChannelTransport) : bool :=
  bool_decide ((fun n => role n) <$> group s !! 0 = Some Follower) 
  && bool_decide (((fun n => bool_decide (1 ∈ replSignal n)) <$> group s !! 0) = Some true)
  && bool_decide (is_Some (respCh s !! (0, 1)) /\ waiting s !! (0, 1) = None)
  && match inboxes (transport s) !! 0 with Some (m :: _) => is_reply (body m) && bool_decide (From m = 1) | _ => false end.

Lemma late_test_wedged s : late_test s = true -> exists m q, wedged 0 1 m q s.
Proof.
  unfold late_test, wedged. rewrite !andb_true_iff. intros [[[H1%bool_decide_eq_true H2%bool_decide_eq_true] [H3 H4]%bool_decide_eq_true] H5].
  destruct (inboxes (transport s) !! 0) as [[|m q]|]; [done| |done]. apply andb_true_iff in H5 as [H5 H6%bool_decide_eq_true].
  exists m, q. destruct (group s !! 0) as [n|]; [|done]. injection H1 as H1. injection H2 as H2%bool_decide_eq_true.
  split_and!; try done. exists n. split_and!; try done. congruence.
Qed.

(** Any run that passes the test. *)
Lemma late_run C start ms :
  match exec_all C start ms with Some s => late_test s | None => false end = true ->
  exists s m q, rtc (sys_step (S := nat) true C (fun _ => False)) start s /\ wedged 0 1 m q s
    /\ forall strict s' crashes, ~ crashes 0 -> rtc (sys_step (S := nat) strict C crashes) s s' ->
         exists n q', group s' !! 0 = Some n /\ role n <> Leader /\ inboxes (transport s') !! 0 = Some (m :: q ++ q').
Proof.
  destruct (exec_all C start ms) as [s|] eqn:E; [|discriminate]. intros (m & q & Hw)%late_test_wedged.
  exists s, m, q. split; [by eapply exec_all_steps|]. split; [done|]. intros strict s' crashes Hc Hrun.
  destruct (wedged_run _ _ _ _ _ _ _ _ _ Hc Hrun Hw) as (q' & (n & Hn & Hr & _) & _ & _ & Hq & _).
  by exists n, q'.
Qed.

Lemma late_replies_run : exists s, rtc (sys_step (S := nat) true demo_config (fun _ => False)) sys_start s.
Proof.
  destruct (late_run demo_config sys_start late_moves) as (s & m & q & Hs & _); [vm_compute; reflexivity|]. by exists s.
Qed.

(** Late replies stop a node.  The one place of a reply channel is only ever
    emptied by the replicator, which does so only while the node leads: after two
    rounds that timed out and a change of leaders, the second late reply blocks
    the old leader's [run] goroutine, and whatever happens from then on, short of
    a restart, the node handles no message and never leads again. *)
Theorem late_replies_stop_run :
  exists s m q, rtc (sys_step (S := nat) true demo_config (fun _ => False)) sys_start s /\ wedged 0 1 m q s
    /\ forall strict s' crashes, ~ crashes 0 -> rtc (sys_step (S := nat) strict demo_config crashes) s s' ->
         exists n q', group s' !! 0 = Some n /\ role n <> Leader /\ inboxes (transport s') !! 0 = Some (m :: q ++ q').
Proof. apply (late_run _ _ late_moves). vm_compute. reflexivity. Qed.

Lemma sys_start_refines : refines sys_start demo_start.
Proof.
  split; [done|]. assert (parts (sending sys_start) (respCh sys_start) (transport sys_start) = []) as -> by (vm_compute; reflexivity).
  apply submseteq_nil_l.
Qed.

(** The same run. *)
Lemma system_refines_witness :
  exists s c', rtc (sys_step (S := nat) true demo_config (fun _ => False)) sys_start s
    /\ rtc (clean_step (S := nat) true demo_config) demo_start c' /\ refines s c'.
Proof.
  destruct late_replies_run as (s & Hs).
  destruct (system_refines true demo_config (fun _ => False) sys_start s demo_start Hs sys_start_refines) as (c' & Hc & Hr).
  by exists s, c'.
Defined.

End system.
