(* ===== verification/RaftHandle.v ===== *)
(** * The cluster handle (internal/cluster/cluster.go)

    [Cluster]: construction, routing to the leader with retries, adding servers,
    and what it reports.  The nodes it holds are looked at one after the other,
    so what it sees of the group is a list of nodes that need not have been so at
    one time. *)

From Stdlib Require Import ZArith Lia.
From Stdlib Require Import Strings.Byte.
From stdpp Require Import base list gmap sorting.
From S2P Require Import Prelude.
From S2P Require Import Db.
From S2P Require Import RaftLog.
From S2P Require Import RaftConfig.
From S2P Require Import RaftLogFile.
From S2P Require Import RaftNode.
From S2P Require Import RaftRun.
From S2P Require Import RaftElection.
From S2P Require Import RaftFollower.
From S2P Require Import RaftClient.
From S2P Require Import Transport.

#[local] Open Scope Z_scope.

Module handle.
Import raftlog node run election follower client transport.

(** ** Looking at the nodes *)

Definition leaderNode (nodes : list Node) : option Node :=
  match currentLeader nodes with Some ld => Some ld | None => nodes !! 0%nat end.

(** [None] is a panic: [c.nodes] out of range. *)
Definition node_at (nodes : list Node) (i : Z) : option Node :=
  if decide (0 <= i) then nodes !! Z.to_nat i else None.

Definition Size (nodes : list Node) : Z := len nodes.

Definition Leader_ (nodes : list Node) : NodeID :=
  match currentLeader nodes with Some ld => id ld | None => bootstrapLeader end.

Definition Config_ (nodes : list Node) : option (list NodeID) :=
  nd ← leaderNode nodes;
  Some (merge_sort Z.le (filter (fun e => e.2 = true) (map_to_list (default ∅ (config nd)))).*1).

(** ** Routing *)

(** One round of [withLeader]: the nodes as they were looked at; what the call
    gave on the one it was made on, [None] if it never returns (it may wait
    without a deadline, or for a lock), with [A] whatever else it did; and whether
    the deadline had passed by then. *)
Record look (A : Type) := MkLook { seen : list Node; answer : Node -> option result * A; expired : bool }.
#[global] Arguments MkLook {A}.
#[global] Arguments seen {A}.
#[global] Arguments answer {A}.
#[global] Arguments expired {A}.

Definition is_not_leader (r : result) : bool :=
  match r with Some (NodeErr ErrNotLeader) => true | _ => false end.

(** The calls made, and the final result; [None] while it is still retrying, and
    for good once a call does not return. *)
Fixpoint withLeader {A} (ls : list (look A)) : list (NodeID * option result * A) * option result :=
  match ls with
  | [] => ([], None)
  | l :: ls' =>
      let retry (_ : unit) := if expired l then ([], Some (Some (NodeErr ErrNotLeader))) else withLeader ls' in
      match currentLeader (seen l) with
      | None => retry tt
      | Some ld =>
          match answer l ld with
          | (None, a) => ([(id ld, None, a)], None)
          | (Some r, a) =>
              if is_not_leader r then let '(cs, res) := retry tt in ((id ld, Some r, a) :: cs, res)
              else ([(id ld, Some r, a)], Some r)
          end
      end
  end.

(** ** Waiting for everyone *)

(** One poll: the nodes looked at, and whether the deadline had passed. *)
Definition caughtUp (target : Z) (nodes : list Node) : bool := forallb (fun nd => bool_decide (target <= lastApplied nd)) nodes.

(** [Some true] is nil, [Some false] the timeout. *)
Fixpoint quiesce_loop (target : Z) (polls : list (list Node * bool)) : option bool :=
  match polls with
  | [] => None
  | (nodes, late) :: polls' =>
      if caughtUp target nodes then Some true
      else if (late : bool) then Some false
      else quiesce_loop target polls'
  end.

Definition Quiesce (nodes : list Node) (polls : list (list Node * bool)) : option bool :=
  nd ← leaderNode nodes; quiesce_loop (commitIndex nd) polls.

(** [Close], after the goroutines have stopped: the results of closing each
    node's store, log file and state file ([None] for a nil handle); the first
    error. *)
Definition Close {E} (results : list (option E * option (option E) * option (option E))) : option E :=
  foldl (fun first '(store, logf, statef) =>
    let keep (first : option E) (r : option E) := match first with Some _ => first | None => r end in
    let first := keep first store in
    let first := match logf with Some r => keep first r | None => first end in
    match statef with Some r => keep first r | None => first end) None results.

(** ** Construction *)

(** What is in a node's directory once an interrupted install is completed and
    the store open: the Raft files, and the applied index the store recovered. *)
Record Dir := MkDir { d_log : option bytes; d_state : option bytes; d_config : option bytes; d_recovered : Z }.
Definition empty_dir : Dir := MkDir None None None 0.

Record options := MkOptions { o_cfg : Cfg; o_sync : bool }.

Definition build (o : options) (me : NodeID) (members : list NodeID) (boot : Members) (d : Dir) : outcome build_error Node :=
  buildNode me members boot (o_cfg o) (o_sync o) (d_log d) (d_state d) (d_config d) (d_recovered d) None.

Inductive error := ErrNoNodes | ErrDirs | ErrBuild (i : NodeID) (e : build_error) | ErrNextSlot (i slot : Z).

(** The nodes from [i] on. *)
Fixpoint buildAll (o : options) (members : list NodeID) (full : Members) (i : Z) (dirs : list Dir) : outcome error (list Node) :=
  match dirs with
  | [] => Ok []
  | d :: dirs' =>
      match build o i members full d with
      | Err e => Err (ErrBuild i e)
      | Panic => Panic
      | Ok nd => nds ← buildAll o members full (i + 1) dirs'; Ok (nd :: nds)
      end
  end.

Definition startNode (n : Node) : option Node :=
  match node.start n (MkWorld [] []) with Some (_, n', _) => Some n' | None => None end.

Section transport.
Context {T : Type} {TR : Transport T}.

Definition ids (n : nat) : list NodeID := Z.of_nat <$> seq 0 n.

Definition NewWithTransportConfig (n : Z) (dirs : list Dir) (o : options) (tr : T) : outcome error (list Node * T) :=
  if decide (n < 1) then Err ErrNoNodes
  else if decide (len dirs <> n) then Err ErrDirs
  else
    let tr := foldl (fun t i => Register i t) tr (ids (Z.to_nat n)) in
    nds ← buildAll o (ids (Z.to_nat n)) (fullConfig (Z.to_nat n)) 0 dirs;
    match mapM startNode nds with Some nds => Ok (nds, tr) | None => Panic end.

End transport.

(** Durations in nanoseconds. *)
Definition DefaultConfig : Cfg := MkCfg 250000000 1024.

Definition New (n : Z) (dirs : list Dir) (sync : bool) : outcome error (list Node * ChannelTransport) :=
  NewWithTransportConfig n dirs (MkOptions DefaultConfig sync) NewChannelTransport.

(** ** Adding a server

    An [AddServer] between the sections it takes [nodesMu] for. *)
Inductive adder :=
| Look (i : NodeID)
| Spawn (i : NodeID)
| Build (i : NodeID) (members : list NodeID)
| Append (i : NodeID) (nd : Node)
| Promote (i : NodeID)
| Failed (e : error).

(** [None] is a panic. *)
Definition spawned (nodes : list Node) (i : NodeID) : option bool :=
  if decide (i < len nodes) then nd ← node_at nodes i; Some (bool_decide (id nd = i)) else Some false.

Definition add_look (nodes : list Node) (i : NodeID) : option adder :=
  sp ← spawned nodes i; Some (if (sp : bool) then Promote i else Spawn i).

(** [spawnNode], its first section. *)
Definition spawn_check (nodes : list Node) (i : NodeID) : adder :=
  if decide (i <> len nodes) then Failed (ErrNextSlot i (len nodes)) else Build i ((id <$> nodes) ++ [i]).

Definition spawn_build (o : options) (i : NodeID) (members : list NodeID) (d : Dir) : option adder :=
  match build o i members ∅ d with
  | Ok nd => Some (Append i nd)
  | Err e => Some (Failed (ErrBuild i e))
  | Panic => None
  end.

Definition spawn_append (nodes : list Node) (nd : Node) : option (list Node) := nd' ← startNode nd; Some (nodes ++ [nd']).

(** The id a call has yet to find a node for. *)
Definition pending (a : adder) : option NodeID :=
  match a with Look i | Spawn i | Build i _ | Append i _ => Some i | Promote _ | Failed _ => None end.

(** Adders at work on the nodes of one handle; if [excl], none starts while one
    for the same id is pending.  The nodes themselves change as they please. *)
Inductive add_step (o : options) (excl : bool) : list Node * list adder -> list Node * list adder -> Prop :=
| add_looks nodes l1 i l2 a :
    add_look nodes i = Some a -> add_step o excl (nodes, l1 ++ Look i :: l2) (nodes, l1 ++ a :: l2)
| add_checks nodes l1 i l2 : add_step o excl (nodes, l1 ++ Spawn i :: l2) (nodes, l1 ++ spawn_check nodes i :: l2)
| add_builds nodes l1 i ms l2 d a :
    spawn_build o i ms d = Some a -> add_step o excl (nodes, l1 ++ Build i ms :: l2) (nodes, l1 ++ a :: l2)
| add_appends nodes l1 i nd l2 nodes' :
    spawn_append nodes nd = Some nodes' -> add_step o excl (nodes, l1 ++ Append i nd :: l2) (nodes', l1 ++ Promote i :: l2)
| add_starts nodes l i : (excl = true -> i ∉ omap pending l) -> add_step o excl (nodes, l) (nodes, l ++ [Look i])
| add_changes nodes nodes' l : id <$> nodes' = id <$> nodes -> add_step o excl (nodes, l) (nodes', l).

(** ** Construction *)

(** Computations that do not panic. *)
Definition total {A} (m : M A) : Prop := forall n w, is_Some (m n w).

Lemma total_bind {A B} (m : M A) (k : A -> M B) : total m -> (forall a, total (k a)) -> total (m ≫= k).
Proof.
  intros Hm Hk n w. destruct (Hm n w) as [[[a n1] w1] E]. rewrite (bind_run _ _ _ _ _ _ _ E). apply Hk.
Qed.

Lemma total_forM {A} (l : list A) (f : A -> M unit) : (forall x, total (f x)) -> total (forM l f).
Proof.
  intros Hf. induction l as [|x l IH]; cbn [forM]; [by intros n w; eexists|]. apply total_bind; [apply Hf|]. by intros _.
Qed.

Lemma total_leaf {A} (m : M A) : (forall n w, exists x, m n w = Some x) -> total m.
Proof. intros H n w. destruct (H n w) as [x E]. by exists x. Qed.

#[local] Ltac total :=
  repeat first [apply total_bind; [|intros ?] | apply total_forM; intros ? | match goal with |- total (if ?b then _ else _) => destruct b end
               | apply total_leaf; intros ? ?; by eexists].

Lemma becomeLeader_total : total becomeLeaderLocked.
Proof. unfold becomeLeaderLocked, reconcilePeersLocked, ensurePeerLocked. total. Qed.

(** Starting a node leaves its identity and configuration alone. *)
Definition same_node : rel := fun n _ n' _ => id n' = id n /\ config n' = config n /\ cfg n' = cfg n /\ lastApplied n' = lastApplied n.

#[local] Instance same_node_rel : NodeRel same_node.
Proof. split; unfold same_node; [done|]. intros; intuition congruence. Qed.

#[local] Hint Extern 1 (pres same_node (modify _)) => apply pres_modify; done : pres.
#[local] Hint Extern 1 (pres same_node (emit _)) => apply pres_emit; done : pres.

Lemma start_same : pres same_node node.start.
Proof. unfold node.start, becomeLeaderLocked, reconcilePeersLocked, ensurePeerLocked. pres_auto. Qed.

Lemma start_run n : exists n' w', node.start n (MkWorld [] []) = Some (tt, n', w') /\ startNode n = Some n'
  /\ id n' = id n /\ config n' = config n /\ cfg n' = cfg n /\ lastApplied n' = lastApplied n.
Proof.
  destruct (node.start n (MkWorld [] [])) as [[[[] n'] w']|] eqn:E.
  - exists n', w'. split; [done|]. split; [unfold startNode; by rewrite E|]. exact (start_same _ _ _ _ _ E).
  - exfalso. assert (total node.start) as H.
    { unfold node.start. apply total_bind; [total|]. intros r. destruct (decide _); [apply becomeLeader_total|total]. }
    destruct (H n (MkWorld [] [])). congruence.
Qed.

Lemma fresh_build o i ms boot :
  exists nd, build o i ms boot empty_dir = Ok nd /\ id nd = i /\ config nd = Some (config.copyConfig (config.copyConfig boot))
    /\ cfg nd = o_cfg o /\ lastApplied nd = 0.
Proof.
  unfold build, buildNode, empty_dir. cbn [d_log d_state d_config d_recovered]. rewrite bool_decide_eq_true_2 by done.
  change (raftlogfile.openRaftLogFile None (o_sync o))
    with (Ok (E := raftlogfile.error) (raftlogfile.writeFreshHeader (o_sync o) 0 0, @nil logEntry)).
  cbv beta iota zeta. cbn [foldl raftlogfile.writeFreshHeader raftlogfile.lf_baseIndex raftlogfile.lf_baseTerm].
  rewrite decide_False by lia.
  assert (represents (NewRaftLogWithBase 0 0) []) as Hr by (split; by_decide).
  rewrite (deriveConfig_spec Hr). change (lastTerm (NewRaftLogWithBase 0 0)) with (Some 0). cbv iota.
  destruct (true && bool_decide (i = bootstrapLeader)); eexists; (split; [reflexivity|]); cbn; done.
Qed.

Lemma fullConfig_lookup n i b : fullConfig n !! i = Some b <-> b = true /\ 0 <= i < Z.of_nat n.
Proof.
  unfold fullConfig. assert (forall m j, foldr (fun k c => <[Z.of_nat k := true]> c) (∅ : Members) (seq j m) !! i = Some b
    <-> b = true /\ Z.of_nat j <= i < Z.of_nat (j + m)) as H; [|exact (H n 0%nat)].
  induction m as [|m IH]; intros j; cbn [seq foldr].
  - rewrite lookup_empty. split; [done|]. intros [_ ?]. lia.
  - rewrite lookup_insert_Some, (IH (S j)). split.
    + intros [[<- <-]|[_ [-> ?]]]; (split; [done|lia]).
    + intros [-> ?]. destruct (decide (Z.of_nat j = i)); [by left|right]. split; [done|]. split; [done|lia].
Qed.

Lemma fullConfig_copy n : config.copyConfig (fullConfig n) = fullConfig n.
Proof. apply config.copyConfig_id. intros i v [-> _]%fullConfig_lookup. done. Qed.

Lemma buildAll_fresh o members full k : forall i,
  config.copyConfig full = full ->
  exists nds, buildAll o members full i (replicate k empty_dir) = Ok nds /\ length nds = k
    /\ forall j nd, nds !! j = Some nd -> build o (i + Z.of_nat j) members full empty_dir = Ok nd
         /\ id nd = i + Z.of_nat j /\ config nd = Some full /\ cfg nd = o_cfg o /\ lastApplied nd = 0.
Proof.
  induction k as [|k IH]; intros i Hf; cbn [replicate buildAll]; [by exists []|].
  destruct (fresh_build o i members full) as (nd & E & Hid & Hc & Hcfg). rewrite E.
  destruct (IH (i + 1) Hf) as (nds & En & Hl & Hn). rewrite En. exists (nd :: nds). split; [done|]. split; [cbn; lia|].
  intros [|j] x Hx; cbn in Hx.
  - injection Hx as <-. rewrite !Hf in Hc. replace (i + Z.of_nat 0) with i by lia. done.
  - replace (i + Z.of_nat (S j)) with (i + 1 + Z.of_nat j) by lia. by apply Hn.
Qed.

(** [nodes[i]] is the node with id [i]. *)
Definition dense (nodes : list Node) : Prop := forall i n, nodes !! i = Some n -> id n = Z.of_nat i.

(** The nodes by id. *)
Definition by_id (nodes : list Node) : gmap NodeID Node := list_to_map ((fun n => (id n, n)) <$> nodes).

Lemma by_id_lookup nodes i n : dense nodes -> by_id nodes !! i = Some n -> 0 <= i /\ nodes !! Z.to_nat i = Some n.
Proof.
  intros Hd H. apply elem_of_list_to_map_2 in H. apply list_elem_of_fmap in H as (x & [= -> ->] & Hx).
  apply list_elem_of_lookup in Hx as [k Hk]. rewrite (Hd k x Hk). split; [lia|]. by rewrite Nat2Z.id.
Qed.

(** A new cluster.  [New] over empty directories gives a handle whose node at
    each position has that id, and the group is in an initial state: the one the
    theorems about elections, logs and commits start from. *)
Theorem new_cluster {T} {TR : Transport T} n (o : options) (tr : T) :
  1 <= n ->
  exists nodes tr', NewWithTransportConfig n (replicate (Z.to_nat n) empty_dir) o tr = Ok (nodes, tr')
    /\ Size nodes = n /\ dense nodes
    /\ (n < 2 ^ 63 -> init (fullConfig (Z.to_nat n)) (MkCluster (by_id nodes) []))
    /\ forall i nd, nodes !! i = Some nd -> cfg nd = o_cfg o /\ lastApplied nd = 0.
Proof.
  intros Hn. unfold NewWithTransportConfig. rewrite decide_False by lia.
  rewrite decide_False by (unfold len; rewrite length_replicate; lia).
  destruct (buildAll_fresh o (ids (Z.to_nat n)) (fullConfig (Z.to_nat n)) (Z.to_nat n) 0 (fullConfig_copy _)) as (nds & E & Hl & Hb).
  rewrite E. cbn [mbind outcome_bind].
  assert (is_Some (mapM startNode nds)) as [nds' Em].
  { apply mapM_is_Some_2, Forall_true. intros x. destruct (start_run x) as (n' & _ & _ & E1 & _). exists n'. exact E1. }
  rewrite Em. exists nds'. eexists. split; [done|].
  assert (forall i nd, nds' !! i = Some nd -> exists n0 w, build o (Z.of_nat i) (ids (Z.to_nat n)) (fullConfig (Z.to_nat n)) empty_dir = Ok n0
    /\ node.start n0 (MkWorld [] []) = Some (tt, nd, w) /\ id nd = Z.of_nat i /\ config nd = Some (fullConfig (Z.to_nat n))
    /\ cfg nd = o_cfg o /\ lastApplied nd = 0) as Hnd.
  { apply mapM_Some_1 in Em. intros i nd Hi. destruct (Forall2_lookup_r _ _ _ _ _ Em Hi) as (n0 & Hn0 & Es).
    destruct (Hb i n0 Hn0) as (E0 & H1 & H2 & H3 & H4). destruct (start_run n0) as (n' & w' & E1 & E2 & H5 & H6 & H7 & H8).
    rewrite Es in E2. injection E2 as <-. exists n0, w'. rewrite H5, H6, H7, H8. by split_and!. }
  assert (dense nds') as Hd by (intros i nd Hi; by destruct (Hnd i nd Hi) as (? & ? & ? & ? & ? & _)).
  split_and!.
  - unfold Size, len. rewrite <- (length_mapM _ _ _ Em). lia.
  - done.
  - intros Hmax. split; [done|]. intros i nd Hi. destruct (by_id_lookup _ _ _ Hd Hi) as [Hi0 Hi1].
    destruct (Hnd _ _ Hi1) as (n0 & w & E0 & E1 & H1 & H2 & _). apply lookup_lt_Some in Hi1.
    pose proof (length_mapM _ _ _ Em) as Hlm. split; [lia|]. exists (ids (Z.to_nat n)), (o_cfg o), (o_sync o), n0, w.
    rewrite Z2Nat.id in E0 by done. by split_and!.
  - intros i nd Hi. by destruct (Hnd i nd Hi) as (? & ? & ? & ? & ? & ? & ? & ?).
Qed.

Lemma new_cluster_witness :
  1 <= 3 /\ exists nodes tr', New 3 [empty_dir; empty_dir; empty_dir] true = Ok (nodes, tr') /\ Size nodes = 3.
Proof.
  assert (1 <= 3) as H by lia. split; [exact H|].
  destruct (new_cluster 3 (MkOptions DefaultConfig true) NewChannelTransport H) as (nodes & tr' & E & Hs & _).
  exists nodes, tr'. split; [exact E|exact Hs].
Defined.

(** ** Routing *)

(** A call that was retried. *)
Definition retried {A} (c : NodeID * option result * A) : Prop := c.1.2 = Some (Some (NodeErr ErrNotLeader)).

Lemma retried_not_leader {A} i r (a : A) : is_not_leader r = true -> retried (i, Some r, a).
Proof. destruct r as [[[]|]|]; try done. Qed.

(** Each call was made on the leader of a look, all but the last were retried, and
    the last decides: retried too, it leaves it retrying or with ErrNotLeader. *)
Lemma withLeader_ends {A} (ls : list (look A)) :
  Forall (fun c => exists l ld, l ∈ ls /\ currentLeader (seen l) = Some ld /\ c = (id ld, (answer l ld).1, (answer l ld).2)) (withLeader ls).1
  /\ ((exists cs0 i r a, (withLeader ls).1 = cs0 ++ [(i, r, a)] /\ (withLeader ls).2 = r /\ Forall retried cs0)
      \/ (((withLeader ls).2 = None \/ (withLeader ls).2 = Some (Some (NodeErr ErrNotLeader))) /\ Forall retried (withLeader ls).1)).
Proof.
  induction ls as [|l ls [IH1 IH2]]; [split; [constructor|right; by split; [left|]]|]. cbn [withLeader].
  set (again := if expired l then ([], Some (Some (NodeErr ErrNotLeader))) else withLeader ls).
  assert (Forall (fun c => exists l0 ld, l0 ∈ l :: ls /\ currentLeader (seen l0) = Some ld /\ c = (id ld, (answer l0 ld).1, (answer l0 ld).2)) again.1
    /\ ((exists cs0 i r a, again.1 = cs0 ++ [(i, r, a)] /\ again.2 = r /\ Forall retried cs0)
        \/ ((again.2 = None \/ again.2 = Some (Some (NodeErr ErrNotLeader))) /\ Forall retried again.1))) as [H1 H2].
  { subst again. destruct (expired l); [split; [constructor|right; by split; [right|]]|]. split; [|done].
    eapply Forall_impl; [exact IH1|]. intros c (l0 & ld & Hin & H). exists l0, ld. split; [by right|done]. }
  destruct (currentLeader (seen l)) as [ld|] eqn:Hld; [|done].
  assert (forall r a, answer l ld = (r, a) -> exists l0 ld0, l0 ∈ l :: ls /\ currentLeader (seen l0) = Some ld0
    /\ (id ld, r, a) = (id ld0, (answer l0 ld0).1, (answer l0 ld0).2)) as Hc.
  { intros r a E. exists l, ld. rewrite E. split; [by left|done]. }
  destruct (answer l ld) as [[r|] a] eqn:Ha.
  2:{ split; [constructor; [by apply Hc|constructor]|]. left. by exists [], (id ld), None, a. }
  destruct (is_not_leader r) eqn:Hr.
  - destruct again as [cs res]. cbn [fst snd] in *. split; [constructor; [by apply Hc|done]|].
    destruct H2 as [(cs0 & i & r1 & a1 & -> & E & Hf)|[E Hf]].
    + left. exists ((id ld, Some r, a) :: cs0), i, r1, a1. split; [done|]. split; [done|]. constructor; [by apply retried_not_leader|done].
    + right. split; [done|]. constructor; [by apply retried_not_leader|done].
  - split; [constructor; [by apply Hc|constructor]|]. left. by exists [], (id ld), (Some r), a.
Qed.

(** Once the deadline has passed it has returned, unless a call has not. *)
Lemma withLeader_returns {A} (ls : list (look A)) :
  Exists (fun l => expired l = true) ls -> Forall (fun c => is_Some c.1.2) (withLeader ls).1 -> is_Some (withLeader ls).2.
Proof.
  induction ls as [|l ls IH]; intros H; [by inversion H|]. cbn [withLeader].
  set (again := if expired l then ([], Some (Some (NodeErr ErrNotLeader))) else withLeader ls).
  assert (Forall (fun c : NodeID * option result * A => is_Some c.1.2) again.1 -> is_Some again.2) as Hr.
  { subst again. destruct (expired l) eqn:El; [by eexists|]. apply IH. apply Exists_cons in H as [?|?]; [congruence|done]. }
  destruct (currentLeader (seen l)) as [ld|]; [|done].
  destruct (answer l ld) as [[r|] a]; [|intros [[? E] _]%Forall_cons; done].
  destruct (is_not_leader r); [|by eexists]. destruct again as [cs res]. cbn. intros [_ Hf]%Forall_cons. by apply Hr.
Qed.

(** Every run of a call has a trace. *)
Lemma trace_of_run {S} {SM : StateMachine S} C j x y : rtc (call_step (S := S) C j) x y -> exists l, call_trace (S := S) C j x l y.
Proof.
  induction 1 as [x|x y z H1 _ [l IH]]; [exists []; constructor|]. exists (appended x y ++ l). by eapply trace_step.
Qed.

(** A write on node [j]: the store refuses it, or a commit call runs and returns;
    with [None], it has got anywhere. *)
Definition call_made {S} {SM : StateMachine S} (C : Members) (j : NodeID) (r : option result) (l : list (Z * Z)) : Prop :=
  exists d d' x, ((exists key value, storePut d key value = Some (d', x)) \/ exists key, storeDelete d key = Some (d', x))
    /\ match x with
       | inl res => r = Some res /\ l = []
       | inr rq0 => exists c c' rq ph, call_trace (S := S) C j (c, (rq0, Check)) l (c', (rq, ph))
                      /\ match r with Some r => ph = Returned r | None => True end
       end.

(** What the store refuses is an error of its own; otherwise the call is a commit. *)
Lemma write_request d d' x :
  (exists key value, storePut d key value = Some (d', x)) \/ (exists key, storeDelete d key = Some (d', x)) ->
  match x with inl res => exists e, res = Some (StoreErr e) | inr rq => exists tx, rq = Commit tx end.
Proof.
  unfold storePut, storeDelete. destruct (db.Begin d) as [d1 t]. intros [(k & v & E)|(k & E)].
  - destruct (db.txn_Put t k v) as [t1|e|]; [| |done]; injection E as _ <-; by eexists.
  - destruct (db.txn_Delete t k) as [t1|e|]; [| |done]; injection E as _ <-; by eexists.
Qed.

Lemma call_made_outcome {S} {SM : StateMachine S} C j r l : call_made (S := S) C j r l ->
  (length l <= 1)%nat
  /\ match r with
     | None | Some None => True
     | Some (Some (NodeErr ErrMaybeCommitted)) => length l = 1%nat
     | Some (Some _) => l = []
     end.
Proof.
  intros (d & d' & x & Hx%write_request & H). destruct x as [res|rq0].
  { destruct Hx as [e ->]. destruct H as [-> ->]. split; [cbn; lia|done]. }
  destruct Hx as [tx ->]. destruct H as (c & c' & rq & ph & Ht & Hr). destruct r as [r|].
  - subst ph. by destruct (commit_outcome _ _ _ _ _ _ _ _ Ht) as [H1 H2].
  - split; [|done]. by apply (commit_at_most_once _ _ _ _ _ _ _ _ Ht).
Qed.

(** C19.  Routed writes.  [Put] (and [Delete]) through [withLeader], where each
    attempt is a write on the node that looked like the leader, refused by its
    store or a commit call, which may also never return: every attempt but the
    last reported ErrNotLeader and had appended nothing; over all attempts at most
    one entry was appended, also if the last one hangs; none if the result is
    ErrNotLeader or an error of the store, exactly one if it is ErrMaybeCommitted;
    and if every attempt returns, the call has returned once the deadline has
    passed. *)
Theorem put_proposes_once {S} {SM : StateMachine S} C (ls : list (look (list (Z * Z)))) :
  (forall l ld, l ∈ ls -> currentLeader (seen l) = Some ld -> call_made (S := S) C (id ld) (answer l ld).1 (answer l ld).2) ->
  let cs := (withLeader ls).1 in
  let proposals := concat ((fun c => c.2) <$> cs) in
  (forall cs0 c, cs = cs0 ++ [c] -> Forall (fun c => retried c /\ c.2 = []) cs0)
  /\ (length proposals <= 1)%nat
  /\ match (withLeader ls).2 with
     | None | Some None => True
     | Some (Some (NodeErr ErrMaybeCommitted)) => length proposals = 1%nat
     | Some (Some _) => proposals = []
     end
  /\ (Exists (fun l => expired l = true) ls -> Forall (fun c => is_Some c.1.2) cs -> is_Some (withLeader ls).2).
Proof.
  intros Hcalls cs proposals. destruct (withLeader_ends ls) as [Hc Hend]. fold cs in Hc, Hend.
  assert (Forall (fun c => call_made (S := S) C c.1.1 c.1.2 c.2) cs) as Hmade.
  { eapply Forall_impl; [exact Hc|]. intros c (l & ld & Hl & Hld & ->). by apply Hcalls. }
  assert (forall cs0, Forall (fun c => call_made (S := S) C c.1.1 c.1.2 c.2) cs0 -> Forall retried cs0 ->
    Forall (fun c => retried c /\ c.2 = []) cs0 /\ concat ((fun c => c.2) <$> cs0) = []) as Hnil.
  { intros cs0 Hm Hf. induction Hf as [|c cs0 Hr _ IH]; [done|]. apply Forall_cons in Hm as [Hc0 Hm].
    destruct (call_made_outcome _ _ _ _ Hc0) as [_ H]. pose proof Hr as Hr'. unfold retried in Hr'. rewrite Hr' in H. destruct (IH Hm) as [H1 H2].
    split; [by constructor|]. cbn. by rewrite H, H2. }
  assert (forall P Q R : Prop, P /\ Q -> R -> P /\ Q /\ R) as Hand by tauto.
  split; [|apply Hand; [|apply withLeader_returns]].
  - intros cs0 c E. rewrite E in Hmade, Hend. apply Forall_app in Hmade as [Hm _]. apply Hnil; [done|].
    destruct Hend as [(cs1 & i & r & a & [<- _]%app_inj_tail & _ & Hf)|[_ Hf]]; [done|by apply Forall_app in Hf as [? _]].
  - destruct Hend as [(cs0 & i & r & a & E & -> & Hf)|[Er Hf]].
    + rewrite E in Hmade. apply Forall_app in Hmade as [Hm [Hl _]%Forall_cons]. subst proposals. rewrite E, fmap_app, concat_app.
      rewrite (proj2 (Hnil cs0 Hm Hf)). cbn. rewrite app_nil_r. exact (call_made_outcome _ _ _ _ Hl).
    + subst proposals. rewrite (proj2 (Hnil cs Hmade Hf)). split; [cbn; lia|]. by destruct Er as [->| ->].
Qed.

#[local] Existing Instance counter.

(** The write of the other demonstrations, after a look that found no leader. *)
Lemma put_proposes_once_witness :
  exists l, (length l <= 1)%nat
    /\ withLeader [MkLook [] (fun _ => (Some None, @nil (Z * Z))) false; MkLook [demo_node 0] (fun _ => (Some None, l)) false]
      = ([(0, Some None, l)], Some None).
Proof.
  destruct demo_write_returned as (d & d1 & tx & c & rq & Hp & Hrun). destruct (trace_of_run _ _ _ _ Hrun) as [l Hl]. exists l.
  pose (ls := [MkLook [] (fun _ => (Some None, @nil (Z * Z))) false; MkLook [demo_node 0] (fun _ => (Some None : option result, l)) false]).
  assert (withLeader ls = ([(0, Some None, l)], Some None)) as E by (vm_compute; reflexivity).
  split; [|exact E]. assert (currentLeader [demo_node 0] = Some (demo_node 0)) as E0 by (vm_compute; reflexivity).
  destruct (put_proposes_once demo_config ls) as (_ & H1 & _).
  - intros lk ld [->|[->|H%elem_of_nil]%elem_of_cons]%elem_of_cons Hld; [discriminate| |done].
    cbn [seen] in Hld. rewrite E0 in Hld. injection Hld as <-. exists d, d1, (inr (Commit tx)).
    split; [left; by exists [x6b], [x76]|]. exists demo_start, c, rq, (Returned None). split; [exact Hl|done].
  - rewrite E in H1. cbn in H1. by rewrite app_nil_r in H1.
Defined.

(** ** Ids and positions *)

(** What holds while no two adders work on one id: an adder past its check has
    the next position. *)
Record add_inv (x : list Node * list adder) : Prop := {
  ai_dense : dense x.1;
  ai_nodup : NoDup (omap pending x.2);
  ai_slot a i : a ∈ x.2 -> match a with Build j _ | Append j _ => i = j | _ => False end -> i = len x.1;
  ai_built j nd : Append j nd ∈ x.2 -> id nd = j
}.

Lemma dense_ids nodes nodes' : id <$> nodes' = id <$> nodes -> dense nodes -> dense nodes' /\ len nodes' = len nodes.
Proof.
  intros E Hd. split.
  - intros i n Hi. pose proof (f_equal (fun l => l !! i) E) as Ei. cbn in Ei. rewrite !list_lookup_fmap, Hi in Ei.
    destruct (nodes !! i) as [n0|] eqn:Hn; [|done]. injection Ei as ->. by apply Hd.
  - unfold len. rewrite <- (length_fmap id nodes'), E. by rewrite length_fmap.
Qed.

Lemma dense_snoc nodes nd : dense nodes -> id nd = len nodes -> dense (nodes ++ [nd]).
Proof.
  intros Hd Hid i n Hi. apply lookup_app_Some in Hi as [Hi|[Hl Hi]]; [by apply Hd|].
  apply list_lookup_singleton_Some in Hi as [Hi <-]. rewrite Hid. unfold len. lia.
Qed.

(** Replacing an adder by one that is pending on the same id or on none. *)
Lemma pending_replace l1 (a b : adder) l2 :
  pending b = pending a \/ pending b = None -> NoDup (omap pending (l1 ++ a :: l2)) -> NoDup (omap pending (l1 ++ b :: l2)).
Proof.
  rewrite !omap_app. intros [E|E]; cbn [omap list_omap]; rewrite E; [done|].
  destruct (pending a); [|done]. rewrite !NoDup_app, NoDup_cons. set_solver.
Qed.

Lemma replaced_in l1 (b : adder) l2 (a c : adder) : c ∈ l1 ++ b :: l2 -> c = b \/ c ∈ l1 ++ a :: l2.
Proof. set_solver. Qed.

(** Two adders past the check are one. *)
Lemma pending_unique l1 (a : adder) l2 c i :
  NoDup (omap pending (l1 ++ a :: l2)) -> pending a = Some i -> pending c = Some i -> c ∈ l1 ++ l2 -> False.
Proof.
  intros Hnd Ha Hc Hin. rewrite omap_app in Hnd. cbn [omap list_omap] in Hnd. rewrite Ha in Hnd.
  rewrite <- Permutation_middle in Hnd. apply NoDup_cons in Hnd as [Hn _]. apply Hn. rewrite <- omap_app.
  apply list_elem_of_omap. by exists c.
Qed.

Lemma build_id o i ms boot d nd : build o i ms boot d = Ok nd -> id nd = i.
Proof.
  unfold build, buildNode. intros E. repeat case_match; by simplify_eq.
Qed.

Lemma add_inv_step o x y : add_step o true x y -> add_inv x -> add_inv y.
Proof.
  intros Hst [Hd Hnd Hs Hb].
  assert (forall l1 a b l2 nodes, x = (nodes, l1 ++ a :: l2) -> y = (nodes, l1 ++ b :: l2) ->
    pending b = pending a \/ pending b = None ->
    (forall i, match b with Build j _ | Append j _ => i = j | _ => False end -> i = len nodes) ->
    (forall j nd, b = Append j nd -> id nd = j) -> add_inv y) as Hmove.
  { intros l1 a b l2 nodes -> -> Hp Hslot Hbuilt. cbn [fst snd] in *. split; cbn [fst snd]; [done|by eapply pending_replace| |].
    - intros c k [->|Hc]%(replaced_in _ _ _ a) Hm; [by apply Hslot|by apply (Hs c k)].
    - intros j nd [Eb|Hc]%(replaced_in _ _ _ a); [by apply Hbuilt|by apply Hb]. }
  destruct Hst as [nodes l1 i l2 a Ha|nodes l1 i l2|nodes l1 i ms l2 d a Ha|nodes l1 i nd l2 nodes' Ha|nodes l i Hex|nodes nodes' l E];
    cbn [fst snd] in *.
  - unfold add_look in Ha. destruct (spawned nodes i) as [sp|]; [|done]. injection Ha as <-.
    apply (Hmove l1 (Look i) (if sp then Promote i else Spawn i) l2 nodes); try done; destruct sp; by auto.
  - apply (Hmove l1 (Spawn i) (spawn_check nodes i) l2 nodes); try done; unfold spawn_check;
      destruct (decide (i <> len nodes)) as [|He]; auto; try done. intros k ->. by apply dec_stable.
  - assert ((exists e, a = Failed e) \/ exists nd, a = Append i nd /\ id nd = i) as Hcase.
    { unfold spawn_build in Ha. destruct (build o i ms ∅ d) as [nd|e|] eqn:Eb; [|injection Ha as <-; left; by eexists|done].
      injection Ha as <-. right. exists nd. split; [done|]. by eapply build_id. }
    apply (Hmove l1 (Build i ms) a l2 nodes); try done; destruct Hcase as [[e ->] |(nd & -> & Hid)]; auto; try done.
    + intros k ->. apply (Hs (Build i ms)); [|done]. set_solver.
    + by intros ? ? [= <- <-].
  - unfold spawn_append in Ha. destruct (startNode nd) as [nd'|] eqn:En; [|done]. injection Ha as <-.
    assert (id nd' = len nodes) as Hid.
    { destruct (start_run nd) as (n' & _ & _ & E & H & _). rewrite En in E. injection E as ->. rewrite H.
      rewrite (Hb i nd) by set_solver. apply (Hs (Append i nd)); [set_solver|done]. }
    assert (forall c, c ∈ l1 ++ Promote i :: l2 -> c = Promote i \/ (c ∈ l1 ++ l2 /\ c ∈ l1 ++ Append i nd :: l2)) as Hin by set_solver.
    assert (i = len nodes) as Hi by (apply (Hs (Append i nd)); [set_solver|done]).
    split; cbn [fst snd]; [by apply dense_snoc|by eapply pending_replace; [right|exact Hnd]| |].
    + intros c k Hc Hm. destruct (Hin c Hc) as [->|[H1 H2]]; [done|]. exfalso.
      apply (pending_unique l1 (Append i nd) l2 c i Hnd); try done. pose proof (Hs c k H2 Hm) as Hk.
      destruct c; try done; cbn; congruence.
    + intros j nd0 Hc. destruct (Hin _ Hc) as [?|[_ H2]]; [done|]. by apply Hb.
  - split; cbn [fst snd]; [done| | |].
    + rewrite omap_app. cbn. apply NoDup_app. split; [done|]. split; [|apply NoDup_singleton].
      intros j Hj Hji%list_elem_of_singleton. subst j. by apply (Hex eq_refl).
    + intros c k [Hc|Hc%list_elem_of_singleton]%elem_of_app Hm; [by apply (Hs c k)|by subst c].
    + intros j nd [Hc|?%list_elem_of_singleton]%elem_of_app; [by apply Hb|done].
  - destruct (dense_ids nodes nodes' E Hd) as [Hd' Hl]. split; cbn [fst snd]; [done|done| |done]. rewrite Hl. exact Hs.
Qed.

(** C33. Node ids are positions.  While no AddServer starts for an id for which
    one is still pending, whatever the interleaving of the others, and however
    the nodes change, [nodes[i]] stays the node with id [i]. *)
Theorem added_ids_dense o x y :
  rtc (add_step o true) x y -> dense x.1 -> x.2 = [] -> dense y.1
  /\ forall i n, node_at y.1 i = Some n -> id n = i.
Proof.
  intros Hrun Hd Hl. assert (add_inv x) as Hinv.
  { split; [done|rewrite Hl; by constructor|intros a i|intros j nd]; rewrite Hl; by intros H%elem_of_nil. }
  enough (add_inv y) as [Hy _ _ _].
  { split; [done|]. intros i n. unfold node_at. case_decide; [|done]. intros Hi. rewrite (Hy _ _ Hi). lia. }
  clear Hd Hl. induction Hrun as [x|x y z Hst _ IH]; [done|]. apply IH. clear IH. by apply (add_inv_step o x).
Qed.

(** ** Runs by evaluation *)

(** A new adder, or the next section of the [k]th; [d] is what its directory
    holds. *)
Inductive add_move := AStart (i : NodeID) | ANext (k : nat) (d : Dir).

Definition exec_add (o : options) (excl : bool) (x : list Node * list adder) (mv : add_move) : option (list Node * list adder) :=
  let '(nodes, l) := x in
  match mv with
  | AStart i => if excl && bool_decide (i ∈ omap pending l) then None else Some (nodes, l ++ [Look i])
  | ANext k d =>
      a ← l !! k;
      match a with
      | Look i => b ← add_look nodes i; Some (nodes, <[k := b]> l)
      | Spawn i => Some (nodes, <[k := spawn_check nodes i]> l)
      | Build i ms => b ← spawn_build o i ms d; Some (nodes, <[k := b]> l)
      | Append i nd => nodes' ← spawn_append nodes nd; Some (nodes', <[k := Promote i]> l)
      | Promote _ | Failed _ => None
      end
  end.

Lemma exec_add_step o excl x mv y : exec_add o excl x mv = Some y -> add_step o excl x y.
Proof.
  destruct x as [nodes l]. destruct mv as [i|k d]; cbn [exec_add].
  { destruct (excl && _) eqn:E; [done|]. intros [= <-]. apply add_starts. intros ->. cbn in E. by apply bool_decide_eq_false in E. }
  destruct (l !! k) as [a|] eqn:Ha; [|done]. cbn [mbind option_bind].
  assert (forall b, <[k := b]> l = take k l ++ b :: drop (S k) l) as Hi by (intros b; apply insert_take_drop; by apply lookup_lt_Some in Ha).
  pose proof (eq_sym (take_drop_middle l k a Ha)) as Hl. revert Hi Hl. generalize (take k l) (drop (S k) l). clear Ha.
  intros l1 l2 Hi ->. destruct a as [i|i|i ms|i nd|i|e]; [..|done|done].
  - destruct (add_look nodes i) as [b|] eqn:E; [|done]. intros [= <-]. rewrite Hi. by apply add_looks.
  - intros [= <-]. rewrite Hi. by apply add_checks.
  - destruct (spawn_build o i ms d) as [b|] eqn:E; [|done]. intros [= <-]. rewrite Hi. by eapply add_builds.
  - destruct (spawn_append nodes nd) as [nodes'|] eqn:E; [|done]. intros [= <-]. rewrite Hi. by apply add_appends.
Qed.

Fixpoint exec_adds (o : options) (excl : bool) (x : list Node * list adder) (ms : list add_move) : option (list Node * list adder) :=
  match ms with [] => Some x | mv :: ms' => y ← exec_add o excl x mv; exec_adds o excl y ms' end.

Lemma exec_adds_steps o excl ms : forall x y, exec_adds o excl x ms = Some y -> rtc (add_step o excl) x y.
Proof.
  induction ms as [|mv ms IH]; intros x y E; cbn [exec_adds] in E; [injection E as <-; apply rtc_refl|].
  destruct (exec_add o excl x mv) as [z|] eqn:E1; [|done]. eapply rtc_l; [by eapply exec_add_step|by apply IH].
Qed.

Definition demo_options : options := MkOptions demo_cfg true.
Definition demo_nodes : list Node := [demo_node 0; demo_node 1; demo_node 2].

(** One after the other, and two for the same id at once. *)
Definition add_two : list add_move :=
  let next k := [ANext k empty_dir; ANext k empty_dir; ANext k empty_dir; ANext k empty_dir] in
  AStart 3 :: next 0%nat ++ AStart 4 :: next 1%nat.
Definition add_same : list add_move :=
  [AStart 3; AStart 3; ANext 0 empty_dir; ANext 1 empty_dir; ANext 0 empty_dir; ANext 1 empty_dir;
   ANext 0 empty_dir; ANext 1 empty_dir; ANext 0 empty_dir; ANext 1 empty_dir].

Definition ids_of (y : list Node * list adder) : list NodeID := id <$> y.1.

(** A run that ends with the nodes of these ids. *)
Lemma exec_adds_ids o excl x ms l :
  ids_of <$> exec_adds o excl x ms = Some l -> exists y, rtc (add_step o excl) x y /\ ids_of y = l.
Proof. intros (y & E & ->)%fmap_Some. exists y. split; [by eapply exec_adds_steps|done]. Qed.

Lemma add_two_run : exists y, rtc (add_step demo_options true) (demo_nodes, []) y /\ ids_of y = [0; 1; 2; 3; 4].
Proof. apply (exec_adds_ids _ _ _ add_two). vm_compute. reflexivity. Qed.

Lemma demo_nodes_dense : dense demo_nodes.
Proof. intros [|[|[|i]]] n Hi; [injection Hi as <-; vm_compute; reflexivity..|done]. Qed.

Lemma added_ids_dense_witness :
  exists y, rtc (add_step demo_options true) (demo_nodes, []) y /\ ids_of y = [0; 1; 2; 3; 4] /\ dense y.1.
Proof.
  destruct add_two_run as (y & Hrun & Hy).
  destruct (added_ids_dense demo_options (demo_nodes, []) y Hrun demo_nodes_dense eq_refl) as [Hd _].
  by exists y.
Defined.

(** Two AddServer calls for the same id.  [spawnNode] checks the id in one
    section of [nodesMu] and appends the node in another: two calls for the next
    id, as of a client that retries, both pass the check and both append a node
    of that id.  From then on positions and ids differ: the following id is
    taken by no node, and no call for it can ever succeed. *)
Theorem concurrent_adds_break_ids :
  exists y, rtc (add_step demo_options false) (demo_nodes, []) y /\ ids_of y = [0; 1; 2; 3; 3]
    /\ forall nodes more, id <$> nodes = [0; 1; 2; 3; 3] ++ more ->
         add_look nodes 4 = Some (Spawn 4) /\ spawn_check nodes 4 = Failed (ErrNextSlot 4 (len nodes)).
Proof.
  assert (ids_of <$> exec_adds demo_options false (demo_nodes, []) add_same = Some [0; 1; 2; 3; 3]) as E
    by (vm_compute; reflexivity).
  apply exec_adds_ids in E as (y & Hrun & Hy). exists y. split; [done|]. split; [done|]. intros nodes more Hn.
  do 5 (destruct nodes as [|? nodes]; [done|]). cbn in Hn. injection Hn as H0 H1 H2 H3 H4 _.
  unfold add_look, spawned, node_at, spawn_check. rewrite !len_cons. pose proof (len_nonneg nodes).
  rewrite !decide_True by lia. split; [|done]. match goal with |- context [?l !! Z.to_nat 4] => change (l !! Z.to_nat 4) with (Some n3) end.
  unfold mbind, option_bind. by rewrite bool_decide_eq_false_2 by lia.
Qed.

End handle.
