(* ===== verification/RaftLocks.v ===== *)
(** * The locks of a node (internal/cluster/cluster.go, install.go)

    The four locks of a [Node] and the order in which its functions take them.
    A function is the list of its lock operations, in order; what it does in
    between does not matter here, and neither do its waits for other things than
    locks.  [storeMu] and [replMu] are reader-writer locks as in the standard
    library: a writer that waits for the readers to leave keeps new readers out.

    Goroutines that take locks in the order of their ranks never deadlock.  All
    of the node's functions do, but [storePut] and [storeDelete]. *)

From Stdlib Require Import ZArith Lia.
From stdpp Require Import base list gmap.
From S2P Require Import Prelude.

Module locks.

Inductive lock := commitMu | storeMu | raftMu | replMu.
Inductive mode := R | W.

#[export] Instance lock_eq_dec : EqDecision lock.
Proof. solve_decision. Defined.
#[export] Instance mode_eq_dec : EqDecision mode.
Proof. solve_decision. Defined.

(** [storeMu] is outside of [raftMu], as the source says; [commitMu] is outside
    of both, [replMu] inside. *)
Definition rank (l : lock) : nat := match l with commitMu => 0 | storeMu => 1 | raftMu => 2 | replMu => 3 end.

Inductive op := Acq (m : mode) (l : lock) | Rel (m : mode) (l : lock).

(** ** Goroutines and locks *)

Record thread := MkThread { held : list (mode * lock); prog : list op }.

(** [announced l]: the writer that keeps readers out of [l] and waits for those
    inside. *)
Record state := MkState { threads : list thread; announced : lock -> option nat }.

Definition holds (s : state) (m : mode) (l : lock) (t : nat) : Prop :=
  exists th, threads s !! t = Some th /\ (m, l) ∈ held th.

Definition free (s : state) (m : mode) (l : lock) : Prop := forall t, ~ holds s m l t.

Definition upd (f : lock -> option nat) (l : lock) (x : option nat) : lock -> option nat :=
  fun k => if decide (k = l) then x else f k.

Fixpoint remove_first (x : mode * lock) (h : list (mode * lock)) : list (mode * lock) :=
  match h with [] => [] | y :: h' => if decide (x = y) then h' else y :: remove_first x h' end.

Inductive step (s : state) : state -> Prop :=
| step_rlock t h l p :
    threads s !! t = Some (MkThread h (Acq R l :: p)) -> free s W l -> announced s l = None ->
    step s (MkState (<[t := MkThread ((R, l) :: h) p]> (threads s)) (announced s))
| step_announce t h l p :
    threads s !! t = Some (MkThread h (Acq W l :: p)) -> free s W l -> announced s l = None ->
    step s (MkState (threads s) (upd (announced s) l (Some t)))
| step_lock t h l p :
    threads s !! t = Some (MkThread h (Acq W l :: p)) -> announced s l = Some t -> free s R l -> free s W l ->
    step s (MkState (<[t := MkThread ((W, l) :: h) p]> (threads s)) (upd (announced s) l None))
| step_unlock t h m l p :
    threads s !! t = Some (MkThread h (Rel m l :: p)) -> (m, l) ∈ h ->
    step s (MkState (<[t := MkThread (remove_first (m, l) h) p]> (threads s)) (announced s)).

Definition finished (s : state) : Prop := Forall (fun th => prog th = []) (threads s).

(** Every goroutine that is not done waits for a lock. *)
Definition deadlocked (s : state) : Prop := ~ finished s /\ forall s', ~ step s s'.

Definition start (ps : list (list op)) : state := MkState (MkThread [] <$> ps) (fun _ => None).

(** ** The order *)

(** Only locks of a higher rank than all that are held are taken, and what is
    released is held; the locks held afterwards. *)
Fixpoint run_order (h : list (mode * lock)) (p : list op) : option (list (mode * lock)) :=
  match p with
  | [] => Some h
  | Acq m l :: p' => if forallb (fun x => bool_decide (rank x.2 < rank l)%nat) h then run_order ((m, l) :: h) p' else None
  | Rel m l :: p' => if bool_decide ((m, l) ∈ h) then run_order (remove_first (m, l) h) p' else None
  end.

(** In the end nothing is held. *)
Definition ordered (h : list (mode * lock)) (p : list op) : Prop := run_order h p = Some [].

(** ** The functions of a node

    Where a function can return early, its argument says where it does. *)

Definition locked (l : lock) : list op := [Acq W l; Rel W l].
Definition rlocked (l : lock) : list op := [Acq R l; Rel R l].

(** Also under [raftMu], when the commit index advances. *)
Definition signalReplicators : list op := rlocked replMu.

Definition ensurePeerLocked (exists_ : bool) : list op := rlocked replMu ++ (if exists_ then [] else locked replMu).

(** The wait on the condition variable lets go of [raftMu] and takes it again,
    [waits] times. *)
Definition cond_waits (waits : nat) : list op := concat (replicate waits [Rel W raftMu; Acq W raftMu]).

Inductive exit := NotLeader | NotPrepared | NotProposed | Waited (advanced : bool) (waits : nat).

Definition proposeAndAwait (e : exit) : list op :=
  match e with
  | Waited advanced waits =>
      [Acq W raftMu] ++ (if advanced then signalReplicators else []) ++ [Rel W raftMu] ++ signalReplicators
      ++ [Acq W raftMu] ++ cond_waits waits ++ [Rel W raftMu]
  | _ => locked raftMu
  end.

(** [commit] and [readBarrier]. *)
Definition commit (e : exit) : list op :=
  [Acq W commitMu] ++ locked raftMu
  ++ (match e with
      | NotLeader => []
      | NotPrepared => rlocked storeMu
      | _ => rlocked storeMu ++ proposeAndAwait e
      end) ++ [Rel W commitMu].

Definition readBarrier := commit.

Definition storePut (e : exit) : list op := [Acq R storeMu] ++ commit e ++ [Rel R storeMu].
Definition storeGet : list op := rlocked storeMu.
Definition storeBegin : list op := rlocked storeMu.

(** [reads]: the barrier was cleared. *)
Definition linearizableGet (e : exit) (reads : bool) : list op := readBarrier e ++ (if reads then storeGet else []).

(** The barrier; behind it the body of the transaction, and then its commit. *)
Inductive sessioned_exit := BarrierFails | BodyFails | Commits (e : exit).

Definition commitSessioned (e1 : exit) (x : sessioned_exit) : list op :=
  readBarrier e1
  ++ match x with BarrierFails => [] | BodyFails => rlocked storeMu | Commits e2 => rlocked storeMu ++ commit e2 end.

(** One iteration of [applyCommitted] that applies an entry, or none. *)
Definition applyCommitted (applies : bool) : list op :=
  [Acq R storeMu] ++ locked raftMu ++ (if applies then locked raftMu else []) ++ [Rel R storeMu].

(** From closing the store on; [reset]: as far as [raftMu]. *)
Definition completeInstall (reset : bool) : list op := [Acq W storeMu] ++ (if reset then locked raftMu else []) ++ [Rel W storeMu].

Inductive install_exit := NotInstalled | StagingFails | Completes (reset : bool).

Definition handleInstallSnapshot (x : install_exit) : list op :=
  locked raftMu ++ match x with NotInstalled => [] | StagingFails => locked raftMu | Completes reset => completeInstall reset end.

Inductive snapshot_exit := ScanFails | NotSent | Replied.

Definition sendSnapshot (x : snapshot_exit) : list op :=
  rlocked storeMu ++ match x with ScanFails => [] | NotSent => locked raftMu | Replied => locked raftMu ++ locked raftMu end.

Definition replicateTo : list op := rlocked replMu.

(** One round of [sendLoop]. *)
Inductive round_exit := NothingSent | SentSnapshot (x : snapshot_exit) (quit : bool) | GotReply (advanced : bool).

Definition sendLoop (x : round_exit) : list op :=
  locked raftMu
  ++ match x with
     | NothingSent => []
     | SentSnapshot x quit => sendSnapshot x ++ (if quit then [] else locked raftMu)
     | GotReply advanced => [Acq W raftMu] ++ (if advanced then signalReplicators else []) ++ [Rel W raftMu]
     end.

(** The peers of the configuration that have their channels already, and those
    that do not. *)
Definition becomeLeaderLocked (peers : list bool) : list op := concat (ensurePeerLocked <$> peers) ++ signalReplicators.

Definition handleVoteResponse (wins : option (list bool)) : list op :=
  [Acq W raftMu] ++ (match wins with Some peers => becomeLeaderLocked peers | None => [] end) ++ [Rel W raftMu].

Definition handleAppendEntries : list op := locked raftMu.
Definition handleRequestVote : list op := locked raftMu.
Definition maybeStartElection : list op := locked raftMu.
Definition handleTimeoutNow (stale : bool) : list op := locked raftMu ++ (if stale then [] else maybeStartElection).
Definition heartbeatTick (leads : bool) : list op := locked raftMu ++ (if leads then signalReplicators else []).
Definition route : list op := rlocked replMu.

Definition removeServer (e : exit) (self : bool) : list op :=
  [Acq W commitMu] ++ locked raftMu ++ (match e with NotLeader | NotPrepared => [] | _ => proposeAndAwait e end)
  ++ (if self then locked raftMu else []) ++ [Rel W commitMu].

(** The registration of the learner, [polls] looks at its progress, and the
    proposal. *)
Inductive add_exit := AddRefused | AddGivesUp | AddProposes (e : exit).

Definition addServer (exists_ : bool) (polls : nat) (e : add_exit) : list op :=
  match e with
  | AddRefused => locked raftMu
  | _ =>
      [Acq W raftMu] ++ ensurePeerLocked exists_ ++ [Rel W raftMu] ++ signalReplicators ++ concat (replicate polls (locked raftMu))
      ++ match e with
         | AddProposes e =>
             [Acq W commitMu] ++ locked raftMu ++ (match e with NotLeader | NotPrepared => [] | _ => proposeAndAwait e end)
             ++ [Rel W commitMu]
         | _ => []
         end
  end.

(** [started]: the target is a voter other than the node itself; [polls] counts
    the looks at its log and at the node's own role, and the abort. *)
Definition transferLeadership (started : bool) (polls : nat) : list op :=
  locked raftMu ++ (if started then signalReplicators ++ concat (replicate polls (locked raftMu)) else []).

(** All of them but [storePut] and [storeDelete]; the last two are the functions
    that only look at the store or at the node. *)
Inductive node_function :=
| Commit_ (e : exit) | ReadBarrier_ (e : exit) | LinearizableGet_ (e : exit) (reads : bool)
| CommitSessioned_ (e1 : exit) (x : sessioned_exit) | StoreGet_ | StoreBegin_
| ApplyCommitted_ (applies : bool) | HandleInstallSnapshot_ (x : install_exit)
| ReplicateTo_ | SendLoop_ (x : round_exit) | HandleVoteResponse_ (wins : option (list bool))
| HandleAppendEntries_ | HandleRequestVote_ | MaybeStartElection_ | HandleTimeoutNow_ (stale : bool)
| HeartbeatTick_ (leads : bool) | Route_ | RemoveServer_ (e : exit) (self : bool)
| AddServer_ (exists_ : bool) (polls : nat) (e : add_exit) | TransferLeadership_ (started : bool) (polls : nat)
| DB_ | RoleValue_.

Definition locks_of (f : node_function) : list op :=
  match f with
  | Commit_ e => commit e
  | ReadBarrier_ e => readBarrier e
  | LinearizableGet_ e reads => linearizableGet e reads
  | CommitSessioned_ e1 x => commitSessioned e1 x
  | StoreGet_ => storeGet
  | StoreBegin_ => storeBegin
  | ApplyCommitted_ applies => applyCommitted applies
  | HandleInstallSnapshot_ x => handleInstallSnapshot x
  | ReplicateTo_ => replicateTo
  | SendLoop_ x => sendLoop x
  | HandleVoteResponse_ wins => handleVoteResponse wins
  | HandleAppendEntries_ => handleAppendEntries
  | HandleRequestVote_ => handleRequestVote
  | MaybeStartElection_ => maybeStartElection
  | HandleTimeoutNow_ stale => handleTimeoutNow stale
  | HeartbeatTick_ leads => heartbeatTick leads
  | Route_ => route
  | RemoveServer_ e self => removeServer e self
  | AddServer_ exists_ polls e => addServer exists_ polls e
  | TransferLeadership_ started polls => transferLeadership started polls
  | DB_ => rlocked storeMu
  | RoleValue_ => locked raftMu
  end.

(** A goroutine calls one function after the other. *)
Definition goroutine_ops (fs : list node_function) : list op := concat (locks_of <$> fs).

(** What remains to be done, an announcement counting as a step. *)
Definition unannounced (s : state) (l : lock) : nat := match announced s l with Some _ => 0 | None => 1 end.
Definition pending_writers (s : state) : nat :=
  unannounced s commitMu + unannounced s storeMu + unannounced s raftMu + unannounced s replMu.
Definition work (s : state) : nat := 5 * list_sum ((fun th => length (prog th)) <$> threads s) + pending_writers s.

(** ** Goroutines in order never deadlock *)

Record inv (s : state) : Prop := {
  inv_ordered t th : threads s !! t = Some th -> ordered (held th) (prog th);
  inv_announced l t : announced s l = Some t -> exists h p, threads s !! t = Some (MkThread h (Acq W l :: p))
}.

Lemma free_or_held s m l : free s m l \/ exists t, holds s m l t.
Proof.
  destruct (decide (Exists (fun th => (m, l) ∈ held th) (threads s))) as [H|H].
  - right. apply Exists_exists in H as (th & Hin & Hh). apply list_elem_of_lookup in Hin as [t Ht]. by exists t, th.
  - left. intros t (th & Ht & Hh). apply H, Exists_exists. exists th. split; [by eapply list_elem_of_lookup_2|done].
Qed.

(** One that holds a lock goes on, or waits for a lock of a higher rank. *)
Lemma holder_moves s m l t :
  inv s -> holds s m l t ->
  (exists s', step s s')
  \/ exists t' h m' l' p, threads s !! t' = Some (MkThread h (Acq m' l' :: p)) /\ (rank l < rank l')%nat.
Proof.
  intros Hinv ([h p] & Ht & Hh). pose proof (inv_ordered _ Hinv _ _ Ht) as Ho. cbn [held prog] in *. unfold ordered in Ho.
  destruct p as [|[m' l'|m' l'] p]; cbn [run_order] in Ho.
  - injection Ho as ->. by apply elem_of_nil in Hh.
  - right. exists t, h, m', l', p. split; [done|]. destruct (forallb _ h) eqn:E; [|done].
    apply (proj1 (forallb_forall _ _)) with (x := (m, l)) in E; [by apply bool_decide_eq_true in E|by apply list_elem_of_In].
  - left. case_bool_decide; [|done]. eexists. by eapply step_unlock.
Qed.

Lemma waiter_moves s : inv s -> forall k t h m l p,
  (4 - rank l <= k)%nat -> threads s !! t = Some (MkThread h (Acq m l :: p)) -> exists s', step s s'.
Proof.
  intros Hinv. induction k as [|k IH]; intros t h m l p Hk Ht; [destruct l; cbn in Hk; lia|].
  assert (forall m0 t0, holds s m0 l t0 -> exists s', step s s') as Hholder.
  { intros m0 t0 Hh. destruct (holder_moves s m0 l t0 Hinv Hh) as [?|(t' & h' & m' & l' & p' & Ht' & Hr)]; [done|].
    apply (IH t' h' m' l' p'); [|done]. destruct l, l'; cbn in *; lia. }
  destruct (free_or_held s W l) as [HW|[t0 Hh]]; [|by apply (Hholder W t0)].
  destruct (announced s l) as [t0|] eqn:Ha.
  - destruct (inv_announced _ Hinv l t0 Ha) as (h0 & p0 & Ht0).
    destruct (free_or_held s R l) as [HR|[t1 Hh]]; [|by apply (Hholder R t1)]. eexists. by eapply step_lock.
  - destruct m; eexists; [by eapply step_rlock|by eapply step_announce].
Qed.

Lemma progress s : inv s -> finished s \/ exists s', step s s'.
Proof.
  intros Hinv. destruct (decide (Exists (fun th => prog th <> []) (threads s))) as [H|H].
  - right. apply Exists_exists in H as ([h p] & Hin & Hp). apply list_elem_of_lookup in Hin as [t Ht]. cbn in Hp.
    destruct p as [|[m l|m l] p]; [done|by eapply (waiter_moves s Hinv 4); [|exact Ht]; lia|].
    pose proof (inv_ordered _ Hinv _ _ Ht) as Ho. unfold ordered in Ho. cbn in Ho. case_bool_decide; [|done].
    eexists. by eapply step_unlock.
  - left. apply Forall_forall. intros th Hin. apply dec_stable. intros Hp. apply H, Exists_exists. by exists th.
Qed.

Lemma lock_step_inv s s' : step s s' -> inv s -> inv s'.
Proof.
  intros Hst [Ho Ha].
  assert (forall t th th' (an : lock -> option nat), threads s !! t = Some th -> ordered (held th') (prog th') ->
    (forall l t0, an l = Some t0 -> announced s l = Some t0 /\ (t0 = t -> False)) ->
    inv (MkState (<[t := th']> (threads s)) an)) as Hmove.
  { intros t th th' an Ht Hor Han. split; cbn [threads announced].
    - intros u thu Hu. destruct (decide (t = u)) as [<-|Hne].
      + rewrite list_lookup_insert_eq in Hu by (by eapply lookup_lt_Some). by injection Hu as <-.
      + rewrite list_lookup_insert_ne in Hu by done. by apply (Ho u).
    - intros l u Hu. destruct (Han l u Hu) as [Hu1 Hu2]. destruct (Ha l u Hu1) as (h & p & Hup). exists h, p.
      rewrite list_lookup_insert_ne; [done|]. intros ->. by apply Hu2. }
  destruct Hst as [t h l p Ht _ Hn|t h l p Ht _ _|t h l p Ht Hann _ _|t h m l p Ht Hin].
  - pose proof (Ho _ _ Ht) as Hor. unfold ordered in Hor. cbn in Hor. destruct (forallb _ h); [|done].
    apply (Hmove t _ _ _ Ht); [done|]. intros k u Hu. split; [done|]. intros ->.
    destruct (Ha k t Hu) as (h' & p' & Ht'). congruence.
  - split; cbn [threads announced]; [done|]. intros k u Hu. unfold upd in Hu. case_decide as Hk; [|by apply Ha].
    injection Hu as <-. subst k. by exists h, p.
  - pose proof (Ho _ _ Ht) as Hor. unfold ordered in Hor. cbn in Hor. destruct (forallb _ h); [|done].
    apply (Hmove t _ _ _ Ht); [done|]. intros k u Hu. unfold upd in Hu. case_decide as Hk; [done|]. split; [done|]. intros ->.
    destruct (Ha k t Hu) as (h' & p' & Ht'). congruence.
  - pose proof (Ho _ _ Ht) as Hor. unfold ordered in Hor. cbn in Hor. case_bool_decide; [|done].
    apply (Hmove t _ _ _ Ht); [done|]. intros k u Hu. split; [done|]. intros ->.
    destruct (Ha k t Hu) as (h' & p' & Ht'). congruence.
Qed.

Lemma start_inv ps : Forall (ordered []) ps -> inv (start ps).
Proof.
  intros H. split; cbn [start threads announced]; [|done]. intros t th Ht. rewrite list_lookup_fmap in Ht.
  destruct (ps !! t) as [p|] eqn:E; [|done]. injection Ht as <-. cbn. rewrite Forall_lookup in H. by apply (H t).
Qed.

(** ** The functions of the node take them in order *)

Lemma run_order_app h h' h'' p q : run_order h p = Some h' -> run_order h' q = Some h'' -> run_order h (p ++ q) = Some h''.
Proof.
  revert h. induction p as [|[m l|m l] p IH]; intros h; cbn [app run_order]; [by injection 1 as ->| |].
  - destruct (forallb _ h); [apply IH|done].
  - case_bool_decide; [apply IH|done].
Qed.

Lemma run_order_repeat h seg k : run_order h seg = Some h -> run_order h (concat (replicate k seg)) = Some h.
Proof. intros H. induction k as [|k IH]; [done|]. cbn [replicate concat]. by eapply run_order_app. Qed.

Lemma ordered_concat ps : Forall (ordered []) ps -> ordered [] (concat ps).
Proof. induction 1; [done|]. by eapply run_order_app. Qed.

Create HintDb locks.
#[local] Hint Extern 0 (run_order _ _ = Some _) => reflexivity : locks.
#[local] Hint Extern 1 (run_order _ (concat (replicate _ _)) = Some _) => apply run_order_repeat : locks.

Ltac in_order := repeat first [progress auto with locks nocore|eapply run_order_app; [solve [auto with locks nocore]|]].

Lemma proposeAndAwait_order e : run_order [(W, commitMu)] (proposeAndAwait e) = Some [(W, commitMu)].
Proof. destruct e as [| | |advanced waits]; [done..|]. unfold proposeAndAwait, cond_waits. destruct advanced; in_order. Qed.

#[local] Hint Resolve proposeAndAwait_order : locks.

Lemma commit_order e : run_order [] (commit e) = Some [].
Proof. destruct e; [done..|]; unfold commit; rewrite <- !(assoc_L app); in_order. Qed.

#[local] Hint Resolve commit_order : locks.

Lemma ensurePeers_order peers : run_order [(W, raftMu)] (concat (ensurePeerLocked <$> peers)) = Some [(W, raftMu)].
Proof. induction peers as [|e peers IH]; [done|]. eapply run_order_app; [|exact IH]. by destruct e. Qed.

Lemma becomeLeader_order peers : run_order [(W, raftMu)] (becomeLeaderLocked peers) = Some [(W, raftMu)].
Proof. by eapply run_order_app; [apply ensurePeers_order|]. Qed.

#[local] Hint Resolve becomeLeader_order : locks.

Lemma locks_ordered f : ordered [] (locks_of f).
Proof.
  unfold ordered. destruct f as [e|e|e reads|e x| | |applies|x| |x|wins| | | |stale|leads| |e self|exists_ polls e|started polls| |];
    cbn [locks_of]; try done.
  - by in_order.
  - by in_order.
  - unfold linearizableGet, readBarrier. destruct reads; by in_order.
  - unfold commitSessioned, readBarrier. destruct x; by in_order.
  - by destruct applies.
  - by destruct x as [| |[]].
  - by destruct x as [|[] []|[]].
  - unfold handleVoteResponse. destruct wins; by in_order.
  - by destruct stale.
  - by destruct leads.
  - unfold removeServer. destruct e, self; by in_order.
  - unfold addServer. destruct e as [| |[]], exists_; by in_order.
  - unfold transferLeadership. destruct started; by in_order.
Qed.

(** ** Every run ends *)

Lemma pending_writers_bound s : (pending_writers s <= 4)%nat.
Proof. unfold pending_writers, unannounced. repeat case_match; lia. Qed.

Lemma pending_writers_announce s l t :
  announced s l = None -> (pending_writers (MkState (threads s) (upd (announced s) l (Some t))) < pending_writers s)%nat.
Proof. intros H. unfold pending_writers, unannounced, upd. destruct l; cbn [announced]; rewrite H; repeat case_decide; try done; lia. Qed.

Lemma work_insert ths t th th' :
  ths !! t = Some th -> length (prog th) = S (length (prog th')) ->
  list_sum ((fun th => length (prog th)) <$> ths) = S (list_sum ((fun th => length (prog th)) <$> <[t := th']> ths)).
Proof.
  intros Ht Hl. rewrite (insert_take_drop ths t th') by (by eapply lookup_lt_Some).
  rewrite <- (take_drop_middle ths t th Ht) at 1. rewrite !fmap_app, !fmap_cons, !list_sum_app. cbn. lia.
Qed.

Lemma step_work s s' : step s s' -> (work s' < work s)%nat.
Proof.
  intros Hst. unfold work. destruct Hst as [t h l p Ht _ Hn|t h l p Ht _ Hn|t h l p Ht Hann _ _|t h m l p Ht Hin].
  2: { pose proof (pending_writers_announce s l t Hn). cbn [threads]. lia. }
  all: cbn [threads]; match goal with |- context [<[_ := ?th']> _] => rewrite (work_insert _ _ _ th' Ht eq_refl) end.
  all: match goal with |- context [pending_writers (MkState ?a ?b)] => pose proof (pending_writers_bound (MkState a b)) end; lia.
Qed.

Lemma run_inv n s s' : nsteps step n s s' -> inv s -> inv s' /\ (n + work s' <= work s)%nat.
Proof.
  induction 1 as [s|n s1 s2 s3 Hst _ IH]; intros Hinv; [split; [done|lia]|].
  destruct (IH (lock_step_inv _ _ Hst Hinv)). pose proof (step_work _ _ Hst). split; [done|lia].
Qed.

(** C27. Goroutines that call any of the node's functions but [storePut] and
    [storeDelete], in any number, order and interleaving, never deadlock on the
    node's locks: as long as they are not all done one of them moves, and every
    run ends, with all of them done, after at most [work] steps. *)
Theorem node_functions_finish gs n s :
  nsteps step n (start (goroutine_ops <$> gs)) s ->
  (n <= work (start (goroutine_ops <$> gs)))%nat /\ (finished s \/ exists s', step s s').
Proof.
  intros Hrun. destruct (run_inv _ _ _ Hrun) as [Hinv Hn]; [|split; [lia|by apply progress]].
  apply start_inv, Forall_fmap, Forall_forall. intros fs _. apply ordered_concat, Forall_fmap, Forall_forall. intros f _.
  apply locks_ordered.
Qed.

Ltac nobody := intros u ([h p] & Hu & Hin); destruct u as [|[|]]; simplify_eq/=; set_solver.

Lemma node_functions_finish_witness :
  exists s, nsteps step 2 (start (goroutine_ops <$> [[StoreGet_]; [HandleInstallSnapshot_ (Completes true)]])) s
    /\ (finished s \/ exists s', step s s').
Proof.
  assert (exists s, nsteps step 2 (start (goroutine_ops <$> [[StoreGet_]; [HandleInstallSnapshot_ (Completes true)]])) s) as [s Hrun].
  { eexists. eapply nsteps_l; [eapply (step_rlock _ 0); [reflexivity|nobody|reflexivity]|].
    eapply nsteps_l; [eapply (step_announce _ 1); [reflexivity|nobody|reflexivity]|]. apply nsteps_O. }
  exists s. split; [exact Hrun|]. apply (node_functions_finish _ _ _ Hrun).
Defined.

(** ** The writes that hold [storeMu] across their commit *)

(** The put is inside [storeMu] as a reader when a snapshot arrives; the
    installer's announcement keeps it from entering a second time. *)
Definition crossed (an : lock -> option nat) : state :=
  MkState [MkThread [(W, commitMu); (R, storeMu)]
             (rlocked storeMu ++ proposeAndAwait (Waited true 0) ++ [Rel W commitMu; Rel R storeMu]);
           MkThread [] (completeInstall true)] an.

Tactic Notation "next" uconstr(rule) := eapply rtc_l; [eapply rule; [reflexivity|try (reflexivity || nobody)..]|].

Lemma crossed_reached :
  exists an, an storeMu = Some 1%nat
    /\ rtc step (start [storePut (Waited true 0); locks_of (HandleInstallSnapshot_ (Completes true))]) (crossed an).
Proof.
  eexists. split; cycle 1.
  - next (step_rlock _ 0). next (step_announce _ 0). next (step_lock _ 0). next (step_announce _ 0). next (step_lock _ 0).
    next (step_unlock _ 0); [left|].
    next (step_announce _ 1). next (step_lock _ 1). next (step_unlock _ 1); [left|].
    next (step_announce _ 1). apply rtc_refl.
  - reflexivity.
Qed.

Lemma crossed_deadlocked an : an storeMu = Some 1%nat -> deadlocked (crossed an).
Proof.
  intros Ha. split; [by inversion 1|]. intros s' Hst.
  inversion Hst as [t h l p Ht Hf Hn|t h l p Ht Hf Hn|t h l p Ht Hann Hf _|t h m l p Ht Hin]; subst; cbn in Ht.
  all: destruct t as [|[|]]; simplify_eq/=.
  apply (Hf 0). eexists. split; [done|]. cbn. set_solver.
Qed.

(** C40. [storePut] takes [storeMu] shared and calls [commit], which takes it
    again: when a snapshot is installed on the node in between, the put waits for
    the installer and the installer for the put. *)
Theorem storePut_deadlocks :
  exists s, rtc step (start [storePut (Waited true 0); locks_of (HandleInstallSnapshot_ (Completes true))]) s /\ deadlocked s.
Proof. destruct crossed_reached as (an & Ha & Hrun). exists (crossed an). split; [done|by apply crossed_deadlocked]. Qed.

End locks.
